(* ===== verification/_CoqProject ===== *)
-Q . S2P
Prelude.v
Threads.v
GoString.v
Replay.v
RingBuffer.v
PacketQueue.v
WindowedFilter.v
QuicGo.v
GoFloat.v
Pacer.v
Sampler.v
SamplerProofs.v
Bbr.v
BbrProofs.v
Brutal.v
Atomic.v
Buffer.v
Encryption.v
Handshake.v
Codec.v
Channel.v
Stream.v
Hello.v
HelloProofs.v
Server.v
ServerProofs.v
Mux.v
MuxProofs.v
Client.v
ClientProofs.v
Signaling.v
Broker.v
BrokerProofs.v
Centrifugo.v
Nats.v
WsClient.v
WsClientProofs.v
Relay.v
RelayProofs.v
Mqtt.v
MqttProofs.v
CallbackPool.v
NetAddr.v
Framing.v
Dns.v
Socks.v
RequestPool.v
Objects.v
ProxyServer.v
Proxy.v
ProxyProofs.v
ProxyPool.v
Kcp.v
RawUdp.v
Sctp.v
Http3.v
