(* ===== verification/Prelude.v ===== *)
(** * Telekit: a verification development

    Telekit is a Go library for authenticated peer-to-peer connections.  A client
    and a server meet over a signaling service, run a handshake authenticated by a
    pre-shared key and the server's Ed25519 key, exchange ICE candidates over an
    encrypted signaling channel, and then carry application data, in encrypted and
    numbered frames, over a transport (QUIC, HTTP/3, KCP, SCTP, raw UDP).  The QUIC
    transport installs its own congestion controllers; a WebSocket relay carries the
    packets of peers that cannot reach each other.  This library models and proves
    correct: the protection layer of src/peer; the hello exchange and the life of the
    connections of server and client (src/peer/server, src/peer/client); the congestion
    control of src/transports/transport_quic/congestion; the KCP, SCTP, raw UDP and HTTP/3
    transports; the signaling services (src/signaling): names and routes, the WebSocket
    broker and its client, the MQTT, Centrifugo and NATS adapters; the relay
    (src/relays/websocket); and of the examples the stream multiplexer of p2pssh, the
    protocol, the SOCKS server and the server side of p2proxy, and the tunnel of p2pdns.

    ** How the code is represented

    Go functions are Rocq functions; a method that changes its receiver takes the
    struct and returns the new one.  A struct is a record with the source's field
    names, updated with [r <| f := v |>].  Integers are [Z], reduced with [u64],
    [i64], ... wherever the Go operation can leave its range; bytes are
    [Byte.byte], slices are lists.  An [error] result is [result]; in the
    congestion control, where the hazard is a run-time panic (an index out of
    range, a division by zero, a nil dereference), [None] is the panic.  A method
    that runs under a mutex is one step.  Lock-free loops are also given as threads
    of an interleaving semantics (Atomic.v).  Time and random bytes are arguments.

    Library code is a class of parameters with a class of laws that state its
    documented behaviour: [QuicGo] and [QuicGoLaws] (RTT statistics and the like of
    quic-go), [Crypto] and [CryptoLaws] (AEAD ciphers, HKDF), [Signatures] and
    [SignatureLaws] (SHA-256, Ed25519), [KeyExchange] (X25519), [TimeFormat] (RFC
    3339 times), [LRU] (the nonce cache), [Gob] with its laws (encoding/gob),
    [WebRTC] (two structs), [Hmac] (HMAC-SHA256).  Every such class has a concrete instance, so the laws
    can hold, and every theorem with a hypothesis has a [_witness] that applies it
    to a concrete input.  Floating point is IEEE binary64 of the Standard Library
    (GoFloat.v), bit for bit.

    ** The files

    - Prelude.v: record update, machine integers, big-endian encoding, slices,
      results, sums over finite maps, and the tactics [intval], [b2p], [case_if],
      [case_ifs], [case_all].
    - Replay.v ([Module Replay], src/peer/replay.go): the 64-entry anti-replay
      window.
    - RingBuffer.v ([Ring]), PacketQueue.v ([PNQueue]), WindowedFilter.v
      ([Filter]): the data structures of the BBR controller
      (congestion/bbr/ringbuffer.go, packet_number_indexed_queue.go,
      windowed_filter.go).
    - QuicGo.v: the parameters that stand for quic-go.  GoFloat.v: float64.
    - Pacer.v ([Pacer], congestion/common/pacer.go): the token bucket pacer.
    - Sampler.v and SamplerProofs.v (congestion/bbr/bandwidth_sampler.go,
      bandwidth.go): bandwidth samples, the max-ack-height tracker and the A0
      candidates; definitions, then proofs.
    - Bbr.v and BbrProofs.v (congestion/bbr/bbr_sender.go): the BBR controller and
      its mode machine; definitions, then proofs.
    - Brutal.v ([Brutal], congestion/brutal/brutal.go): the fixed-rate controller.
    - Atomic.v ([Atomic]): interleavings of atomic operations on one word, and
      their linearization.
    - Buffer.v ([Buffer], src/peer/buffer.go): the byte budget shared by the
      connections of a server and the receive buffers.
    - Encryption.v ([Encryption], src/utils/encryption): nonce source and the five
      AEAD wrappers.
    - Handshake.v ([Handshake], src/peer/handshake.go and psk.go): identities,
      validation, transcripts, signatures and key derivation.
    - Codec.v ([Codec], src/peer/codec.go, marshal.go, types.go): messages and their
      encryption.
    - Channel.v ([Channel], src/peer/data_channel.go and signaling_channel.go): the
      protected channels, which compose Replay, Handshake and Codec.
    - Stream.v ([Stream], src/peer/server/write.go and the readers of conn.go; the
      client's write.go is the same code): application data cut into frames,
      sealed, written to a transport, read and delivered.
    - Hello.v and HelloProofs.v (client/hello.go, server/hello.go, security.go,
      limits.go, close.go): the hello exchange and the server's state; definitions,
      then proofs.
    - Server.v and ServerProofs.v (server/new.go, listen.go, conn.go, close.go): the
      server as a machine whose steps are those of its callbacks, goroutines,
      timers and callers, in any order; definitions, then proofs.
    - Threads.v ([Threads]): the goroutines of the machines below, as a finite map.
    - Client.v and ClientProofs.v (client/new.go, connect.go, conn.go, disconnect.go,
      reconnect.go, read.go): the client's connections as such a machine.
    - Mux.v and MuxProofs.v (src/example/p2pssh/streammux): two ends of a multiplexed
      connection, their calls and read loops.
    - GoString.v ([GoString]): package strings, as far as it is used.  Signaling.v
      ([Signaling], src/signaling/types.go): names, routes and reconnect delays.
    - Broker.v and BrokerProofs.v (src/signaling/websocket/broker): rooms, limits and
      queues of the WebSocket broker.
    - Centrifugo.v ([Centrifugo]) and Nats.v ([Nats], src/signaling/centrifugo and nats):
      handlers of topics, and the connection.  WsClient.v and WsClientProofs.v
      (src/signaling/websocket): rooms, read loops and reconnects of the client.
    - Mqtt.v and MqttProofs.v (src/signaling/mqtt): subscriptions and dispatch of the
      MQTT adapter, against a broker and connections that come and go.
    - Relay.v and RelayProofs.v (src/relays/websocket): frames, the relay server with
      its tables, and the client's packet connection.
    - CallbackPool.v ([CallbackPool], src/peer/callback_pool.go): the pool that runs the
      callbacks of the application.  NetAddr.v ([NetAddr], src/peer/addr.go): addresses
      as text.
    - Objects.v ([Objects]): what a function opens and closes, as a list of effects.
    - Kcp.v ([Kcp], src/transports/transport_kcp): settings, congestion monitor, writes
      and the life of a connection.  RawUdp.v ([RawUdp], transport_rawudp and
      src/transports/packet.go), Sctp.v ([Sctp], transport_sctp), Http3.v ([Http3],
      transport_http3).
    - Framing.v ([Framing], src/example/p2proxy/protocol/udp.go and
      src/example/p2pdns/common/packet.go): packets over a stream.
    - Dns.v ([Dns], src/example/p2pdns): clients, the server and its upstream.
    - Proxy.v and ProxyProofs.v (src/example/p2proxy/protocol: session.go, stream.go):
      sessions and streams with their calls and read loop.  ProxyPool.v ([ProxyPool],
      pool.go): slots of sessions.
    - Socks.v ([Socks], src/example/p2proxy/client): the SOCKS conversation.
      RequestPool.v ([RequestPool]) and ProxyServer.v ([ProxyServer],
      src/example/p2proxy/server): workers, resolver, requests and UDP targets.

    ** What is proved

    Congestion control.  The ring buffer is a queue and the packet queue a finite
    map (refinements of every operation, panics included).  The windowed filter
    returns a measurement of its window that no later one beats.  The pacer never
    lets more through than a burst plus rate times time, and [TimeUntilSend] is the
    first moment a packet fits.  No sequence of events makes the sampler or the BBR
    controller panic, given what quic-go guarantees about its calls; bandwidth
    samples are bounded by the slopes they come from; the congestion window stays
    between its minimum and maximum; the modes follow the BBR state machine.  The
    Brutal controller's rate is computed from exactly the last five seconds.

    Protection.  The replay window implements a specification that remembers all
    numbers.  Budgets and counters are correct in every interleaving: reserved
    bytes never exceed the limit, nonces and sequence numbers never repeat.
    Encryption, messages, signaling and data frames make round trips between peers
    at any point of their lives.  Additional data, transcripts and key derivation
    contexts are injective, so no header, payload, frame or key is accepted in
    another's place.  A data channel delivers each sequence number at most once and
    delivers only what the peer sealed; a failed call leaves it unchanged.  What
    [Write] reports as written is what the peer's reader receives, whatever the
    transport does.

    Sessions.  A client and a server with the same secrets complete the handshake;
    and whatever the network does, a client accepts only an answer of the server it
    pinned to its own hello, and then both ends hold channels of the same session
    key.  In every interleaving of the server's goroutines, timers and callers the
    server does not panic, its counters are the numbers of open and of pending
    connections, all limits hold, no ICE agent or transport is leaked, a replayed
    hello is refused without touching a connection, and every goroutine ends.  The
    client, in every interleaving of calls, goroutines and messages, does not panic,
    runs one attempt at a time, leaks no agent or transport, and after [Disconnect]
    comes to rest.  The two ends of a multiplexed connection deliver on every stream
    exactly the bytes that were written to it, in order.

    Signaling and relay.  Routes of validated names are separate and free of
    wildcards.  The broker keeps to its limits, sends a message to exactly the
    clients of its room, and leaves nothing behind.  The MQTT adapter takes a topic
    for subscribed only when the broker is, or a loss is about to be handled, lets one
    goroutine at a time change a subscription, and dispatches messages once and in
    order.  The relay forwards packets unchanged and only between endpoints that name
    each other, delivers them, and its tables follow its handlers.  A publication on
    Centrifugo calls the live handlers of its topic once each; the NATS adapter has one
    connection at a time.  A room of the WebSocket client always has one read loop, and
    no connection is forgotten but in the run named below.

    Transports.  The KCP settings, computed in machine integers, equal the formula over
    the integers; the monitor keeps the send window in bounds and shrinks it only on a
    path that has been bad for 750 ms; writes pass exactly what they report; what is
    opened is closed.  SCTP carries a byte stream for buffers of any size.  The HTTP/3
    handler serves exactly the requests with the token of its key.  Raw UDP delivers
    datagrams when the reader's buffer holds 64 KiB.

    Examples and helpers.  Pools run or cancel each accepted task once and come to rest.
    Reading a UDP packet never panics and accepts exactly the well-formed frames, which
    are what writing makes.  DNS answers reach the client that asked, with its
    identifier.  The SOCKS server answers as RFC 1928 says and opens only what was asked
    for.  A proxy session delivers on each stream the data of its frames in order, loses
    no wake-up and closes no channel twice.  The resolver answers from its cache only
    what was stored and has not expired, and every request is answered once.

    Where an interleaving breaks what a comment or a sensible contract promises, a
    lemma gives it as a run: [early_failure_strands_client] and
    [old_reader_tears_down] (ClientProofs.v), [subscribe_during_unsubscribe] and
    [late_loss_cancels_restore] (MqttProofs.v), [packet_before_answer] and
    [sessions_collide] (RelayProofs.v), [refused_topic_stays_deaf] (Centrifugo.v),
    [reconnect_survives_disconnect] (WsClientProofs.v), [torn_write_desyncs],
    [identifiers_collide] and [close_blocks_read_loop] (ProxyProofs.v),
    [pool_masks_refusal] and [pool_index_wraps] (ProxyPool.v), [request_stranded]
    (RequestPool.v), [foreign_packet_takes_target] (ProxyServer.v).

    ** Fuel and bounds

    Loops over queues and rings recurse on the number of entries, which the
    structure itself bounds; the theorems that the sampler and controller do not
    panic include that these recursions do not run out.  The compare-and-swap loops
    have no fuel: they are steps of a relation.  The machines have no fuel either: a
    run is a list of steps of any length, below 2^64 for the MQTT adapter, whose count
    of connections wraps there.  The delay loop of the NATS adapter has fuel 64, since
    a positive delay of 64 bits cannot double more often.  Loops that write have one
    round per byte, since a round that takes nothing ends them; the search for a free DNS
    identifier has 65536, one for each identifier ([reserve_ends]); decimal numbers have
    19 digits, and the eight groups of an IPv6 address nine rounds.

    ** What is not modelled

    Sockets and the calls of libraries: the QUIC transport but its congestion control,
    TLS, URLs and the fallback proxy of HTTP/3, dialing of the relay's provider and its
    ICE candidate, the options of the WebRTC library.  Of the peers, the registration of
    a room by [Listen], addresses of connections and the write deadline are not modelled.
    The example programs are modelled in the parts named above; the rest are flags,
    terminals, processes and loops that copy bytes.
    Callbacks that only inform the application and text for debugging are left out
    throughout. *)

From Stdlib Require Import ZArith Lia.
From Stdlib Require Strings.Byte.
From stdpp Require Import base list option strings numbers gmap.

Declare Scope go_scope.
Delimit Scope go_scope with go.
Local Open Scope Z_scope.

(** ** Functional record update

    Go structs are mutated field by field.  [r <| f := v |>] is the struct
    [r] after [r.f = v]; a record opts in by declaring its eta-expansion. *)

Class Eta (R : Type) := eta_expand : R → R.

Class Update {R T : Type} (proj : R → T) := update : (T → T) → R → R.
Arguments update {R T} proj {_} _ _ /.

Ltac solve_update :=
  match goal with
  | |- @Update ?R ?T ?proj =>
      let e := eval hnf in (_ : Eta R) in
      let e := eval cbv beta in e in
      let p := eval pattern proj in e in
      match p with
      | ?f _ =>
          let u := constr:(fun (g : T → T) (r : R) => f (fun r' => g (proj r')) r) in
          let u := eval cbv beta in u in
          exact u
      end
  end.

#[export] Hint Extern 1 (Update _) => solve_update : typeclass_instances.

Notation "r <| f := v |>" := (update f (fun _ => v) r)
  (at level 1, left associativity, f at next level, v at level 200,
   format "r  <| f  :=  v |>") : go_scope.
Notation "r <| f ::= g |>" := (update f g r)
  (at level 1, left associativity, f at next level, g at level 200,
   format "r  <| f  ::=  g |>") : go_scope.

(** ** Machine integers

    A Go integer is a [Z] kept inside its range; every operation that can
    leave the range is followed by the reduction below.  [int] is 64 bits
    wide on the platforms the program targets. *)

Definition u8 (z : Z) : Z := z mod 2 ^ 8.
Definition u16 (z : Z) : Z := z mod 2 ^ 16.
Definition u32 (z : Z) : Z := z mod 2 ^ 32.
Definition u64 (z : Z) : Z := z mod 2 ^ 64.
Definition i64 (z : Z) : Z := (z + 2 ^ 63) mod 2 ^ 64 - 2 ^ 63.

Definition MaxUint64 : Z := 2 ^ 64 - 1.
Definition MaxInt64 : Z := 2 ^ 63 - 1.

Definition in_u64 (z : Z) : Prop := 0 ≤ z < 2 ^ 64.
Definition in_i64 (z : Z) : Prop := - 2 ^ 63 ≤ z < 2 ^ 63.

Lemma u64_small z : in_u64 z → u64 z = z.
Proof. intros H. apply Z.mod_small, H. Qed.

Lemma i64_small z : in_i64 z → i64 z = z.
Proof.
  unfold in_i64, i64. intros H. rewrite Z.mod_small; lia.
Qed.

Lemma u64_range z : in_u64 (u64 z).
Proof. apply Z.mod_pos_bound. lia. Qed.

Lemma i64_range z : in_i64 (i64 z).
Proof.
  unfold in_i64, i64.
  pose proof (Z.mod_pos_bound (z + 2 ^ 63) (2 ^ 64)). lia.
Qed.


Lemma i64_u64 z : i64 (u64 z) = i64 z.
Proof. unfold i64, u64. by rewrite Zplus_mod_idemp_l. Qed.

Lemma u64_i64 z : u64 (i64 z) = u64 z.
Proof.
  unfold i64, u64. rewrite Zminus_mod_idemp_l. f_equal. lia.
Qed.

(** [intval] rewrites away the reductions whose argument provably fits. *)
Ltac intval :=
  repeat match goal with
  | |- context [u64 ?z] => rewrite (u64_small z) by (unfold in_u64 in *; lia)
  | |- context [i64 ?z] => rewrite (i64_small z) by (unfold in_i64 in *; lia)
  | H : context [u64 ?z] |- _ => rewrite (u64_small z) in H by (unfold in_u64 in *; lia)
  | H : context [i64 ?z] |- _ => rewrite (i64_small z) in H by (unfold in_i64 in *; lia)
  end.

(** [b2p] turns the boolean comparisons of the code into propositions. *)
Ltac b2p :=
  repeat match goal with
  | H : (_ && _)%bool = true |- _ => apply andb_true_iff in H as [? ?]
  | H : (_ || _)%bool = false |- _ => apply orb_false_iff in H as [? ?]
  | H : negb _ = true |- _ => apply negb_true_iff in H
  | H : negb _ = false |- _ => apply negb_false_iff in H
  | H : bool_decide _ = true |- _ => apply bool_decide_eq_true_1 in H
  | H : bool_decide _ = false |- _ => apply bool_decide_eq_false_1 in H
  | H : Z.ltb _ _ = true |- _ => apply Z.ltb_lt in H
  | H : Z.ltb _ _ = false |- _ => apply Z.ltb_ge in H
  | H : Z.leb _ _ = true |- _ => apply Z.leb_le in H
  | H : Z.leb _ _ = false |- _ => apply Z.leb_gt in H
  | H : Z.eqb _ _ = true |- _ => apply Z.eqb_eq in H
  | H : Z.eqb _ _ = false |- _ => apply Z.eqb_neq in H
  | H : Nat.eqb _ _ = true |- _ => apply Nat.eqb_eq in H
  | H : Nat.eqb _ _ = false |- _ => apply Nat.eqb_neq in H
  | H : Nat.ltb _ _ = true |- _ => apply Nat.ltb_lt in H
  | H : Nat.ltb _ _ = false |- _ => apply Nat.ltb_ge in H
  | H : Nat.leb _ _ = true |- _ => apply Nat.leb_le in H
  | H : Nat.leb _ _ = false |- _ => apply Nat.leb_gt in H
  end.

(** [case_if] splits the outermost boolean test and turns it into propositions. *)
Tactic Notation "case_if" "as" ident(E) :=
  match goal with
  | |- context [if ?b then _ else _] => destruct b eqn:E; b2p
  end.
Ltac case_ifs :=
  repeat match goal with
  | |- context [if ?b then _ else _] =>
      lazymatch b with context [if _ then _ else _] => fail | _ => idtac end;
      let E := fresh "Hif" in destruct b eqn:E; b2p
  end.


(** The same in the hypotheses too. *)
Ltac case_all :=
  repeat match goal with
  | |- context [if ?b then _ else _] =>
      lazymatch b with context [if _ then _ else _] => fail | _ => idtac end;
      let E := fresh "Hif" in destruct b eqn:E; b2p
  | H : context [if ?b then _ else _] |- _ =>
      lazymatch b with context [if _ then _ else _] => fail | _ => idtac end;
      let E := fresh "Hif" in destruct b eqn:E; b2p
  end.

(** ** Bytes and big-endian encoding (encoding/binary) *)

Abbreviation byte := Corelib.Init.Byte.byte (only parsing).

Definition byte_val (b : byte) : Z := Z.of_N (Byte.to_N b).

Definition byte_of (z : Z) : byte :=
  default Byte.x00 (Byte.of_N (Z.to_N (u8 z))).

Lemma byte_val_range b : 0 ≤ byte_val b < 256.
Proof.
  unfold byte_val. pose proof (Byte.to_N_bounded b). lia.
Qed.

Lemma byte_val_of z : byte_val (byte_of z) = u8 z.
Proof.
  unfold byte_val, byte_of, u8.
  assert (0 ≤ z mod 2 ^ 8 < 256) as Hr by (apply Z.mod_pos_bound; lia).
  destruct (Byte.of_N (Z.to_N (z mod 2 ^ 8))) as [b|] eqn:E; simpl.
  - apply Byte.to_of_N in E. rewrite E. lia.
  - apply Byte.of_N_None_iff in E. lia.
Qed.

Lemma byte_val_inj b1 b2 : byte_val b1 = byte_val b2 → b1 = b2.
Proof.
  unfold byte_val. intros H%N2Z.inj.
  pose proof (Byte.of_to_N b1) as H1. pose proof (Byte.of_to_N b2) as H2.
  congruence.
Qed.

Lemma byte_of_val b : byte_of (byte_val b) = b.
Proof.
  apply byte_val_inj. rewrite byte_val_of. unfold u8.
  apply Z.mod_small, byte_val_range.
Qed.

#[export] Instance byte_eq_dec : EqDecision byte := Byte.byte_eq_dec.

(** [be_encode n z] is what PutUint16/32/64 writes for [n] = 2, 4, 8. *)
Fixpoint be_encode (n : nat) (z : Z) : list byte :=
  match n with
  | O => []
  | S n' => byte_of (Z.shiftr z (8 * Z.of_nat n')) :: be_encode n' z
  end.

(** [be_decode l] is what Uint16/32/64 reads from a slice of that width. *)
Definition be_decode (l : list byte) : Z :=
  foldl (fun acc b => acc * 256 + byte_val b) 0 l.

Lemma be_encode_length n z : length (be_encode n z) = n.
Proof. induction n as [|n IH]; simpl; auto. Qed.

Lemma be_foldl_acc l acc :
  foldl (fun a b => a * 256 + byte_val b) acc l
  = acc * 256 ^ Z.of_nat (length l) + be_decode l.
Proof.
  unfold be_decode. revert acc.
  induction l as [|b l IH]; intros acc; [simpl; lia|].
  cbn [foldl length]. rewrite IH, (IH (0 * 256 + byte_val b)).
  rewrite Nat2Z.inj_succ, Z.pow_succ_r by lia. ring.
Qed.

Lemma be_decode_cons b l :
  be_decode (b :: l) = byte_val b * 256 ^ Z.of_nat (length l) + be_decode l.
Proof. unfold be_decode at 1. simpl. by rewrite be_foldl_acc. Qed.

Lemma be_decode_range l : 0 ≤ be_decode l < 256 ^ Z.of_nat (length l).
Proof.
  induction l as [|b l IH]; [unfold be_decode; simpl; lia|].
  rewrite be_decode_cons. cbn [length].
  rewrite Nat2Z.inj_succ, Z.pow_succ_r by lia.
  pose proof (byte_val_range b). nia.
Qed.

Lemma be_decode_encode n z : be_decode (be_encode n z) = z mod 256 ^ Z.of_nat n.
Proof.
  induction n as [|n IH]; [by rewrite Z.mod_1_r|].
  cbn [be_encode]. rewrite be_decode_cons, be_encode_length, IH, byte_val_of.
  unfold u8. rewrite Z.shiftr_div_pow2 by lia.
  rewrite (Z.pow_mul_r 2 8) by lia. change (2 ^ 8) with 256.
  rewrite Nat2Z.inj_succ, Z.pow_succ_r by lia.
  rewrite (Z.mul_comm 256 (256 ^ Z.of_nat n)), Z.rem_mul_r by lia. ring.
Qed.

Lemma be_encode_inj n z1 z2 :
  0 ≤ z1 < 256 ^ Z.of_nat n → 0 ≤ z2 < 256 ^ Z.of_nat n →
  be_encode n z1 = be_encode n z2 → z1 = z2.
Proof.
  intros H1 H2 H%(f_equal be_decode). rewrite !be_decode_encode in H.
  by rewrite !Z.mod_small in H by done.
Qed.

Lemma be_decode_inj l1 l2 :
  length l1 = length l2 → be_decode l1 = be_decode l2 → l1 = l2.
Proof.
  revert l2. induction l1 as [|b1 l1 IH]; intros [|b2 l2] Hl Hd; try done.
  injection Hl as Hl. rewrite !be_decode_cons, Hl in Hd.
  pose proof (be_decode_range l1) as R1. pose proof (be_decode_range l2) as R2.
  rewrite Hl in R1. pose proof (byte_val_range b1). pose proof (byte_val_range b2).
  assert (byte_val b1 = byte_val b2) by nia.
  f_equal; [by apply byte_val_inj|]. apply IH; [done|nia].
Qed.

Lemma be_encode_decode l : be_encode (length l) (be_decode l) = l.
Proof.
  apply be_decode_inj; [apply be_encode_length|].
  rewrite be_decode_encode. apply Z.mod_small, be_decode_range.
Qed.

(** ** Slices

    A slice is a list; indexing outside it panics.  [None] is a panic in every
    definition of the development that returns [option] for this reason. *)

(** The zero value of a type, as in [*new(T)] and [make([]T, n)]. *)
Class GoZero (T : Type) := zero_value : T.
#[export] Instance zero_Z : GoZero Z := 0.
#[export] Instance zero_bool : GoZero bool := false.

Section Slices.
Context {A : Type}.
Implicit Types (l : list A) (i : Z) (x : A).

Definition len (l : list A) : Z := Z.of_nat (length l).

Definition slice_get (l : list A) (i : Z) : option A :=
  if i <? 0 then None else l !! Z.to_nat i.

Definition slice_set (l : list A) (i : Z) (x : A) : option (list A) :=
  if (0 <=? i) && (i <? len l) then Some (<[Z.to_nat i := x]> l) else None.

(** [l[i:]] and [l[:i]]. *)
Definition slice_from (l : list A) (i : Z) : option (list A) :=
  if (0 <=? i) && (i <=? len l) then Some (drop (Z.to_nat i) l) else None.
Definition slice_to (l : list A) (i : Z) : option (list A) :=
  if (0 <=? i) && (i <=? len l) then Some (take (Z.to_nat i) l) else None.

(** [copy(dst, src)]: the new contents of dst. *)
Definition slice_copy (dst src : list A) : list A :=
  take (length dst) src ++ drop (length src) dst.

Definition make_slice `{GoZero A} (n : Z) : option (list A) :=
  if n <? 0 then None else Some (replicate (Z.to_nat n) zero_value).

Lemma slice_get_lt l i : 0 ≤ i < len l → is_Some (slice_get l i).
Proof.
  unfold slice_get, len. intros H. rewrite (proj2 (Z.ltb_ge i 0)) by lia.
  apply lookup_lt_is_Some. lia.
Qed.

Lemma slice_get_nat l (k : nat) : slice_get l (Z.of_nat k) = l !! k.
Proof.
  unfold slice_get. rewrite (proj2 (Z.ltb_ge _ 0)) by lia. by rewrite Nat2Z.id.
Qed.

Lemma slice_set_lt l i x :
  0 ≤ i < len l → slice_set l i x = Some (<[Z.to_nat i := x]> l).
Proof.
  intros H. unfold slice_set.
  rewrite (proj2 (Z.leb_le 0 i)), (proj2 (Z.ltb_lt i (len l))) by lia. done.
Qed.

Lemma len_nil : len [] = 0.
Proof. done. Qed.

Lemma len_cons x l : len (x :: l) = len l + 1.
Proof. unfold len. cbn [length]. lia. Qed.

Lemma len_app l1 l2 : len (l1 ++ l2) = len l1 + len l2.
Proof. unfold len. rewrite length_app. lia. Qed.

Lemma len_nonneg l : 0 ≤ len l.
Proof. unfold len. lia. Qed.

Lemma len_0 l : len l = 0 ↔ l = [].
Proof. unfold len. rewrite <- length_zero_iff_nil. lia. Qed.

Lemma slice_copy_length dst src : length (slice_copy dst src) = length dst.
Proof. unfold slice_copy. rewrite length_app, length_take, length_drop. lia. Qed.

Lemma list_alter_insert (f : A → A) k l x : l !! k = Some x → alter f k l = <[k := f x]> l.
Proof.
  intros H. apply list_eq. intros j. destruct (decide (j = k)) as [->|Hne].
  - rewrite list_lookup_alter_eq, list_lookup_insert_eq by (by eapply lookup_lt_Some). by rewrite H.
  - by rewrite list_lookup_alter_ne, list_lookup_insert_ne.
Qed.
End Slices.

#[global] Arguments len : simpl never.
#[global] Arguments slice_get : simpl never.
#[global] Arguments slice_set : simpl never.
#[global] Arguments u64 : simpl never.
#[global] Arguments u32 : simpl never.
#[global] Arguments u16 : simpl never.
#[global] Arguments u8 : simpl never.
#[global] Arguments Z.leb : simpl never.
#[global] Arguments Z.ltb : simpl never.
#[global] Arguments Z.eqb : simpl never.
#[global] Arguments Z.max : simpl never.
#[global] Arguments Z.min : simpl never.
#[global] Arguments Z.quot : simpl never.
#[global] Arguments Z.rem : simpl never.
#[global] Arguments Z.shiftl : simpl never.
#[global] Arguments Z.shiftr : simpl never.
#[global] Arguments i64 : simpl never.

Create Rewrite HintDb golist.
#[export] Hint Rewrite @length_app @length_take @length_drop @length_insert
  @length_replicate @slice_copy_length : golist.

(** ** Errors and strings *)

(** A Go pair [(value, error)]: the value, or a non-nil error. *)
Inductive result (A : Type) : Type :=
| Ok (a : A)
| Err (e : string).
Arguments Ok {A} a.
Arguments Err {A} e.

#[export] Instance result_ret : MRet result := λ A a, Ok a.
#[export] Instance result_bind : MBind result := λ A B f r,
  match r with Ok a => f a | Err e => Err e end.

(** [if cond { return error }]. *)
Definition guard_err (cond : bool) (e : string) : result unit :=
  if cond then Err e else Ok ().

Definition is_ok {A} (r : result A) : bool := match r with Ok _ => true | Err _ => false end.

Lemma guard_ok b e : guard_err b e = Ok () ↔ b = false.
Proof. unfold guard_err. destruct b; naive_solver. Qed.

Lemma bind_ok {A B} (r : result A) (f : A → result B) b :
  r ≫= f = Ok b ↔ ∃ a, r = Ok a ∧ f a = Ok b.
Proof.
  destruct r as [a|e]; simpl; split; [by eauto|by intros (? & [= <-] & ?)|done|].
  by intros (? & ? & _).
Qed.

Lemma bind_ok_unit {B} (r : result unit) (f : unit → result B) b :
  r ≫= f = Ok b ↔ r = Ok () ∧ f () = Ok b.
Proof. rewrite bind_ok. split; [intros ([] & ?); done|eauto]. Qed.

(** [[]byte(s)] and the length of a string, in bytes. *)
Definition bytes_of (s : string) : list byte := String.list_byte_of_string s.
Definition slen (s : string) : Z := len (bytes_of s).

Lemma bytes_of_inj s1 s2 : bytes_of s1 = bytes_of s2 → s1 = s2.
Proof.
  intros H. rewrite <- (String.string_of_list_byte_of_string s1),
    <- (String.string_of_list_byte_of_string s2). unfold bytes_of in H. by rewrite H.
Qed.

(** ** Sums over finite maps *)

Section MapSum.
Context `{Countable K} {A : Type}.
Implicit Types (m : gmap K A) (f : A → Z).

Definition msum f m : Z := map_fold (λ _ x n, f x + n) 0 m.

Lemma msum_empty f : msum f ∅ = 0.
Proof. apply map_fold_empty. Qed.

Lemma msum_insert f m i x : m !! i = None → msum f (<[i := x]> m) = f x + msum f m.
Proof.
  intros Hi. unfold msum. rewrite (map_fold_insert_L (λ _ x n, f x + n)); [done|intros; lia|done].
Qed.

Lemma msum_delete f m i x : m !! i = Some x → msum f m = f x + msum f (delete i m).
Proof.
  intros Hi. rewrite <- (insert_delete_id m i x Hi) at 1. apply msum_insert, lookup_delete_eq.
Qed.

Lemma msum_update f m i x y : m !! i = Some x → msum f (<[i := y]> m) = msum f m - f x + f y.
Proof.
  intros Hi. rewrite (msum_delete f m i x Hi). rewrite <- insert_delete_eq.
  rewrite msum_insert by apply lookup_delete_eq. lia.
Qed.

Lemma msum_nonneg f m : (∀ i x, m !! i = Some x → 0 ≤ f x) → 0 ≤ msum f m.
Proof.
  revert m. apply (map_ind (λ m, (∀ i x, m !! i = Some x → 0 ≤ f x) → 0 ≤ msum f m)).
  - intros _. by rewrite msum_empty.
  - intros i x m Hi IH Hm. rewrite msum_insert by done.
    pose proof (Hm i x (lookup_insert_eq _ _ _)).
    assert (0 ≤ msum f m); [|lia]. apply IH. intros j y Hj. apply (Hm j).
    rewrite lookup_insert_ne; [done|]. intros ->. congruence.
Qed.

Lemma msum_ge f m i x : (∀ j y, m !! j = Some y → 0 ≤ f y) → m !! i = Some x → f x ≤ msum f m.
Proof.
  intros Hm Hi. rewrite (msum_delete f m i x Hi).
  assert (0 ≤ msum f (delete i m)); [|lia]. apply msum_nonneg.
  intros j y [_ Hj]%lookup_delete_Some. by apply (Hm j).
Qed.

Lemma msum_zero f m : (∀ i x, m !! i = Some x → f x = 0) → msum f m = 0.
Proof.
  revert m. apply (map_ind (λ m, (∀ i x, m !! i = Some x → f x = 0) → msum f m = 0)).
  - intros _. apply msum_empty.
  - intros i x m Hi IH Hm. rewrite msum_insert, (Hm i x) by (done || apply lookup_insert_eq).
    rewrite IH; [done|]. intros j y Hj. apply (Hm j).
    rewrite lookup_insert_ne; [done|]. intros ->. congruence.
Qed.

Lemma msum_ext f g m : (∀ i x, m !! i = Some x → f x = g x) → msum f m = msum g m.
Proof.
  revert m. apply (map_ind (λ m, (∀ i x, m !! i = Some x → f x = g x) → msum f m = msum g m)).
  - intros _. by rewrite !msum_empty.
  - intros i x m Hi IH Hm. rewrite !msum_insert, (Hm i x) by (done || apply lookup_insert_eq).
    rewrite IH; [done|]. intros j y Hj. apply (Hm j).
    rewrite lookup_insert_ne; [done|]. intros ->. congruence.
Qed.
End MapSum.

Lemma msum_fmap `{Countable K} {A B} (f : B → Z) (g : A → B) (m : gmap K A) :
  msum f (g <$> m) = msum (λ x, f (g x)) m.
Proof.
  revert m. apply (map_ind (λ m, msum f (g <$> m) = msum (λ x, f (g x)) m)).
  - by rewrite fmap_empty, !msum_empty.
  - intros i x m Hi IH. rewrite fmap_insert, !msum_insert by (done || by rewrite lookup_fmap, Hi).
    by rewrite IH.
Qed.

(** [1] for a flag that is set: [msum] of it counts. *)
Definition count (b : bool) : Z := if b then 1 else 0.
