(* ===== verification/Threads.v ===== *)
(** * Threads.v: goroutines of a machine

    The machines of this development keep their goroutines in a finite map.  One of
    them takes a step: it goes on or returns, and starts new ones.  The lemmas say
    what such a step does to the map, whatever a goroutine is. *)

From S2P Require Import Prelude.
From Stdlib Require Import ZArith Lia.
From stdpp Require Import base list option numbers gmap.

Local Open Scope Z_scope.

Module Threads.
Section Threads.
Context {thread : Type}.
Implicit Types (m : gmap nat thread) (t u : thread) (P : thread → Prop).

Definition spawn (m : gmap nat thread) (t : thread) : gmap nat thread := <[fresh (dom m) := t]> m.

(** Thread [i] becomes [t'], or returns, and starts the threads [new]. *)
Definition after (m : gmap nat thread) (i : nat) (t' : option thread) (new : list thread)
  : gmap nat thread :=
  foldl spawn (match t' with Some t => <[i := t]> m | None => delete i m end) new.

Definition some_thread (m : gmap nat thread) (P : thread → Prop) : Prop :=
  ∃ i t, m !! i = Some t ∧ P t.

Definition now (t' : option thread) (P : thread → Prop) : Prop := ∃ t, t' = Some t ∧ P t.

Lemma spawn_lookup m t i u :
  spawn m t !! i = Some u ↔ (i = fresh (dom m) ∧ u = t) ∨ m !! i = Some u.
Proof.
  unfold spawn. pose proof (is_fresh (dom m)) as Hf. rewrite not_elem_of_dom in Hf.
  destruct (decide (i = fresh (dom m))) as [->|Hne].
  - rewrite lookup_insert_eq, Hf. naive_solver.
  - rewrite lookup_insert_ne by done. naive_solver.
Qed.

Lemma spawn_all m new i u :
  foldl spawn m new !! i = Some u → m !! i = Some u ∨ (m !! i = None ∧ u ∈ new).
Proof.
  revert m. induction new as [|t new IH]; intros m H; [by left|]. cbn in H.
  destruct (IH _ H) as [H1|[H1 H2]].
  - apply spawn_lookup in H1 as [[-> ->]|?]; [right|by left].
    split; [apply not_elem_of_dom, is_fresh|by left].
  - right. split; [|by right]. apply eq_None_not_Some. intros [v Hv].
    assert (spawn m t !! i = Some v) as Hx by (apply spawn_lookup; by right). congruence.
Qed.

Lemma spawn_keeps m new i u : m !! i = Some u → foldl spawn m new !! i = Some u.
Proof.
  revert m. induction new as [|t new IH]; intros m H; [done|]. cbn. apply IH, spawn_lookup. by right.
Qed.

Lemma spawn_new m new P : Exists P new → some_thread (foldl spawn m new) P.
Proof.
  intros HE. revert m. induction HE as [t new Ht|t new HE IH]; intros m; [|apply IH].
  exists (fresh (dom m)), t. split; [|done]. cbn. apply spawn_keeps, spawn_lookup. by left.
Qed.

Lemma spawn_some m t P : some_thread m P → some_thread (spawn m t) P.
Proof. intros (i & u & Hi & Hu). exists i, u. split; [|done]. apply spawn_lookup. by right. Qed.

Lemma after_inv m i (t' : option thread) new j u :
  after m i t' new !! j = Some u →
  (j ≠ i ∧ m !! j = Some u) ∨ (j = i ∧ t' = Some u) ∨ ((j = i → t' = None) ∧ u ∈ new).
Proof.
  unfold after. intros [H|[H Hin]]%spawn_all; destruct t' as [t|].
  - apply lookup_insert_Some in H. naive_solver.
  - apply lookup_delete_Some in H. naive_solver.
  - apply lookup_insert_None in H as [_ Hne]. right; right. split; [by intros ->|done].
  - right; right. by split.
Qed.

Lemma after_keeps m i (t' : option thread) new j u : j ≠ i → m !! j = Some u → after m i t' new !! j = Some u.
Proof.
  intros Hne H. apply spawn_keeps.
  destruct t'; by rewrite ?lookup_insert_ne, ?lookup_delete_ne by done.
Qed.

Lemma after_now m i (t' : option thread) new P : now t' P → some_thread (after m i t' new) P.
Proof.
  intros (t & -> & HP). exists i, t. split; [|done]. apply spawn_keeps. by rewrite lookup_insert_eq.
Qed.

Lemma after_other m i t (t' : option thread) new P :
  m !! i = Some t → some_thread m P → (P t → now t' P) → some_thread (after m i t' new) P.
Proof.
  intros Hi (j & u & Hj & Hu) Ht. destruct (decide (j = i)) as [->|Hne].
  - apply after_now, Ht. congruence.
  - exists j, u. split; [by apply after_keeps|done].
Qed.

(** ** Sums over the goroutines *)

Lemma msum_spawn (f : thread → Z) m new :
  msum f (foldl spawn m new) = msum f m + foldr (λ t n, f t + n) 0 new.
Proof.
  revert m. induction new as [|t new IH]; intros m; [cbn; lia|].
  change (foldr (λ t n, f t + n) 0 (t :: new)) with (f t + foldr (λ t n, f t + n) 0 new).
  cbn [foldl]. rewrite IH. unfold spawn. rewrite msum_insert by (apply not_elem_of_dom, is_fresh). lia.
Qed.

Lemma msum_after (f : thread → Z) m i t (t' : option thread) new :
  m !! i = Some t →
  msum f (after m i t' new) =
    msum f m - f t + match t' with Some u => f u | None => 0 end + foldr (λ t n, f t + n) 0 new.
Proof.
  intros Hi. unfold after. rewrite msum_spawn. destruct t' as [u|].
  - rewrite (msum_update _ _ _ _ _ Hi). lia.
  - rewrite (msum_delete _ _ _ _ Hi). lia.
Qed.

End Threads.

#[global] Arguments after : simpl never.

End Threads.
