(* ===== verification/GoString.v ===== *)
(** * GoString.v: the parts of Go's packages strings and net that the code uses on
    names and addresses

    Go strings are byte strings, so the functions work character by character. *)

From S2P Require Import Prelude.
From Stdlib Require Import ZArith Lia String Ascii.
From stdpp Require Import base list option strings.

Local Open Scope Z_scope.
Local Open Scope go_scope.

Module GoString.

(** [strings.Split] with a separator of one character. *)
Fixpoint Split (s : string) (sep : ascii) : list string :=
  match s with
  | EmptyString => [EmptyString]
  | String c s =>
      if Ascii.eqb c sep then EmptyString :: Split s sep
      else match Split s sep with
           | x :: l => String c x :: l
           | [] => [String c EmptyString]
           end
  end.

(** All characters satisfy [f]. *)
Fixpoint all (f : ascii → bool) (s : string) : bool :=
  match s with EmptyString => true | String c s => f c && all f s end.

Definition contains (s : string) (c : ascii) : bool := negb (all (λ x, negb (Ascii.eqb x c)) s).

Fixpoint TrimLeft (s : string) (c : ascii) : string :=
  match s with
  | String x s' => if Ascii.eqb x c then TrimLeft s' c else s
  | EmptyString => EmptyString
  end.

Fixpoint TrimRight (s : string) (c : ascii) : string :=
  match s with
  | EmptyString => EmptyString
  | String x s =>
      match TrimRight s c with
      | EmptyString => if Ascii.eqb x c then EmptyString else String x EmptyString
      | t => String x t
      end
  end.

Definition Trim (s : string) (c : ascii) : string := TrimRight (TrimLeft s c) c.

(** The string before and after the first [c]. *)
Fixpoint cut (s : string) (c : ascii) : option (string * string) :=
  match s with
  | EmptyString => None
  | String x s =>
      if Ascii.eqb x c then Some (EmptyString, s)
      else '(a, b) ← cut s c; Some (String x a, b)
  end.

(** The string before and after the last [c]. *)
Fixpoint cutLast (s : string) (c : ascii) : option (string * string) :=
  match s with
  | EmptyString => None
  | String x s =>
      match cutLast s c with
      | Some (a, b) => Some (String x a, b)
      | None => if Ascii.eqb x c then Some (EmptyString, s) else None
      end
  end.

(** [net.SplitHostPort]: an address with brackets ends its host at the first closing
    one, which the last colon follows. *)
Definition SplitHostPort (hostport : string) : result (string * string) :=
  match cutLast hostport ":" with
  | None => Err "missing port in address"
  | Some (before, port) =>
      if contains port "[" || contains port "]" then Err "unexpected bracket in address"
      else match before with
           | String "[" rest =>
               match cut rest "]" with
               | None => Err "missing ']' in address"
               | Some (host, after) =>
                   if negb (bool_decide (after = EmptyString)) then Err "missing port in address"
                   else if contains host "[" then Err "unexpected '[' in address"
                   else Ok (host, port)
               end
           | _ =>
               if contains before ":" then Err "too many colons in address"
               else if contains before "[" then Err "unexpected '[' in address"
               else if contains before "]" then Err "unexpected ']' in address"
               else Ok (before, port)
           end
  end.

(** ** Lemmas *)

Lemma all_app f s t : all f (s +:+ t) = all f s && all f t.
Proof. induction s as [|c s IH]; simpl; [done|]. by rewrite IH, andb_assoc. Qed.

Lemma all_impl (f g : ascii → bool) s :
  (∀ c, f c = true → g c = true) → all f s = true → all g s = true.
Proof.
  intros H. induction s as [|c s IH]; cbn; [done|]. rewrite !andb_true_iff. intros [? ?]. auto.
Qed.

Lemma Split_nonempty s sep : Split s sep ≠ [].
Proof. destruct s as [|c s]; cbn; [done|]. case_if as E; [done|]. by destruct (Split s sep). Qed.

(** A string without the separator is one segment. *)
Lemma Split_one s sep : all (λ c, negb (Ascii.eqb c sep)) s = true → Split s sep = [s].
Proof.
  induction s as [|c s IH]; cbn; [done|]. rewrite andb_true_iff, negb_true_iff. intros [-> H].
  by rewrite IH.
Qed.

Lemma Split_app s t sep : Split (s +:+ String sep t) sep = Split s sep ++ Split t sep.
Proof.
  induction s as [|c s IH]; simpl; [by rewrite Ascii.eqb_refl|].
  case_if as E; [by rewrite IH|]. rewrite IH.
  destruct (Split s sep) as [|x l] eqn:Hs; [by apply Split_nonempty in Hs|done].
Qed.

(** Splitting loses nothing. *)
Lemma Split_inj s t sep : Split s sep = Split t sep → s = t.
Proof.
  revert t. induction s as [|c s IH]; intros [|d t]; simpl; [done|..].
  - pose proof (Split_nonempty t sep) as Hne. destruct (Ascii.eqb d sep); intros H'; simplify_eq/=.
    by destruct (Split t sep).
  - pose proof (Split_nonempty s sep) as Hne. destruct (Ascii.eqb c sep); intros H'; simplify_eq/=.
    by destruct (Split s sep).
  - pose proof (Split_nonempty s sep) as Hs. pose proof (Split_nonempty t sep) as Ht.
    destruct (Ascii.eqb c sep) eqn:E1, (Ascii.eqb d sep) eqn:E2; intros H'.
    + apply Ascii.eqb_eq in E1 as ->, E2 as ->. simplify_eq. f_equal. auto.
    + by destruct (Split t sep).
    + by destruct (Split s sep).
    + destruct (Split s sep) as [|x l] eqn:Es; [done|].
      destruct (Split t sep) as [|y l'] eqn:Et; [done|].
      simplify_eq. f_equal. apply IH. congruence.
Qed.

End GoString.
