(* ===== verification/Replay.v ===== *)
(** * Replay.v: the anti-replay window (src/peer/replay.go)

    [ReplayWindow.Accept] keeps the highest sequence number accepted so far and
    a 64-bit mask of the ones accepted in the 64 positions below it.  The whole
    method body runs under [w.mu], so concurrent callers are a sequence of
    calls.  The contract ([spec_accept]) remembers every accepted number; the
    refinement shows the 128 bits of state are enough to implement it. *)

From S2P Require Import Prelude.
From Stdlib Require Import ZArith Lia.
From stdpp Require Import base list option numbers.

Local Open Scope Z_scope.
Local Open Scope go_scope.

Module Replay.

Record ReplayWindow := mkReplayWindow {
  highest : Z;
  seen : Z
}.

#[export] Instance eta_ReplayWindow : Eta ReplayWindow :=
  fun r => mkReplayWindow (highest r) (seen r).

(** The zero value of the struct, which is how every window starts. *)
Definition zeroWindow : ReplayWindow := mkReplayWindow 0 0.

Definition Accept (w : ReplayWindow) (sequence : Z) : ReplayWindow * bool :=
  if sequence =? 0 then (w, false)
  else if highest w =? 0 then
    (w <| highest := sequence |> <| seen := 1 |>, true)
  else if highest w <? sequence then
    let shift := u64 (sequence - highest w) in
    let w :=
      if 64 <=? shift then w <| seen := 0 |>
      else w <| seen := u64 (Z.shiftl (seen w) shift) |> in
    let w := w <| highest := sequence |> in
    (w <| seen := Z.lor (seen w) 1 |>, true)
  else
    let delta := u64 (highest w - sequence) in
    if 64 <=? delta then (w, false)
    else
      let mask := u64 (Z.shiftl 1 delta) in
      if negb (Z.land (seen w) mask =? 0) then (w, false)
      else (w <| seen := Z.lor (seen w) mask |>, true).

Definition Reset (w : ReplayWindow) : ReplayWindow :=
  w <| highest := 0 |> <| seen := 0 |>.

(** ** Contract: the list of all accepted sequence numbers *)

Definition spec_accept (acc : list Z) (s : Z) : bool :=
  negb (s =? 0) && negb (bool_decide (s ∈ acc)) && forallb (fun h => h - s <? 64) acc.

Fixpoint run (w : ReplayWindow) (l : list Z) : list bool :=
  match l with
  | [] => []
  | s :: l => let '(w', b) := Accept w s in b :: run w' l
  end.

Fixpoint spec_run (acc : list Z) (l : list Z) : list bool :=
  match l with
  | [] => []
  | s :: l =>
      let b := spec_accept acc s in
      b :: spec_run (if b then s :: acc else acc) l
  end.

(** ** The refinement relation *)

Record refines (w : ReplayWindow) (acc : list Z) : Prop := {
  ref_range : in_u64 (highest w);
  ref_seen : in_u64 (seen w);
  ref_zero : highest w = 0 → acc = [];
  ref_top : highest w ≠ 0 → highest w ∈ acc;
  ref_pos : ∀ a, a ∈ acc → 0 < a ≤ highest w;
  ref_bits : highest w ≠ 0 → ∀ d, 0 ≤ d < 64 →
    Z.testbit (seen w) d = bool_decide (highest w - d ∈ acc)
}.

Lemma testbit_u64 z d : 0 ≤ d < 64 → Z.testbit (u64 z) d = Z.testbit z d.
Proof. intros. unfold u64. apply Z.mod_pow2_bits_low. lia. Qed.

Lemma in_u64_high z d : in_u64 z → 64 ≤ d → Z.testbit z d = false.
Proof.
  intros Hz Hd. rewrite <- (Z.mod_small z (2 ^ 64)) by exact Hz.
  apply Z.mod_pow2_bits_high. lia.
Qed.

Lemma in_u64_lor a b : in_u64 a → in_u64 b → in_u64 (Z.lor a b).
Proof.
  unfold in_u64. intros [Ha Ha'] [Hb Hb']. split; [by apply Z.lor_nonneg|].
  destruct (Z.eq_dec (Z.lor a b) 0) as [->|Hne]; [lia|].
  assert (0 ≤ Z.lor a b) by by apply Z.lor_nonneg.
  apply Z.log2_lt_pow2; [lia|]. rewrite Z.log2_lor by done.
  assert (∀ x, 0 ≤ x < 2 ^ 64 → Z.log2 x < 64) as Hlog.
  { intros x Hx. destruct (Z.eq_dec x 0) as [->|]; [done|].
    apply Z.log2_lt_pow2; lia. }
  apply Z.max_lub_lt; apply Hlog; lia.
Qed.

Lemma refines_zero : refines zeroWindow [].
Proof.
  split; cbn; unfold in_u64; try done; try lia.
  intros a Ha. by apply not_elem_of_nil in Ha.
Qed.

Lemma forallb_in_window h acc s :
  h ∈ acc → (∀ a, a ∈ acc → a ≤ h) →
  forallb (fun a => a - s <? 64) acc = (h - s <? 64).
Proof.
  intros Hin Hmax. apply eq_true_iff_eq.
  rewrite forallb_forall, Z.ltb_lt. split.
  - intros H. specialize (H h). apply Z.ltb_lt, H, list_elem_of_In, Hin.
  - intros H a Ha. apply list_elem_of_In, Hmax in Ha. apply Z.ltb_lt. lia.
Qed.

Lemma mask_test x d :
  0 ≤ d < 64 → (Z.land x (u64 (Z.shiftl 1 d)) =? 0) = negb (Z.testbit x d).
Proof.
  intros Hd. rewrite Z.shiftl_1_l, u64_small.
  2: { split; [apply Z.pow_nonneg; lia|]. apply Z.pow_lt_mono_r; lia. }
  rewrite <- Z.shiftl_1_l.
  apply eq_true_iff_eq. rewrite Z.eqb_eq, negb_true_iff. split; intros H.
  - apply (f_equal (fun z => Z.testbit z d)) in H.
    rewrite Z.land_spec, Z.testbit_0_l, Z.shiftl_1_l, Z.pow2_bits_true in H by lia.
    by rewrite andb_true_r in H.
  - apply Z.bits_inj_0. intros n. rewrite Z.land_spec, Z.shiftl_1_l.
    rewrite Z.pow2_bits_eqb by lia.
    destruct (Z.eqb_spec d n) as [<-|]; [by rewrite H|by rewrite andb_false_r].
Qed.

(** The four branches of [Accept], each against the contract. *)

Lemma refines_first w acc s :
  refines w acc → in_u64 s → s ≠ 0 → highest w = 0 →
  spec_accept acc s = true ∧ refines (mkReplayWindow s 1) (s :: acc).
Proof.
  intros HR Hs Hs0 Hh. rewrite (ref_zero _ _ HR Hh).
  split.
  { unfold spec_accept. rewrite (proj2 (Z.eqb_neq s 0) Hs0).
    rewrite bool_decide_eq_false_2 by (apply not_elem_of_nil). done. }
  unfold in_u64 in *. split; cbn; unfold in_u64; try done; try lia.
  - intros _. left.
  - intros a ->%list_elem_of_singleton. lia.
  - intros _ d Hd. destruct (Z.eq_dec d 0) as [->|Hd0].
    + symmetry. apply bool_decide_eq_true_2. rewrite Z.sub_0_r. left.
    + rewrite (Z.bits_above_log2 1) by (cbn; lia).
      symmetry. apply bool_decide_eq_false_2.
      rewrite list_elem_of_singleton. lia.
Qed.

Definition shifted (w : ReplayWindow) (s : Z) : Z :=
  if 64 <=? u64 (s - highest w) then 0 else u64 (Z.shiftl (seen w) (u64 (s - highest w))).

Lemma shifted_bits w acc s d :
  refines w acc → in_u64 s → highest w ≠ 0 → highest w < s → 0 ≤ d < 64 →
  Z.testbit (shifted w s) d = bool_decide (s - d ∈ acc).
Proof.
  intros HR Hs Hh Hlt Hd. pose proof (ref_range _ _ HR) as Hr.
  unfold shifted. unfold in_u64 in *. intval.
  case_if as E.
  - rewrite Z.testbit_0_l. symmetry. apply bool_decide_eq_false_2.
    intros Hin%(ref_pos _ _ HR). lia.
  - rewrite testbit_u64 by lia.
    destruct (decide (d < s - highest w)).
    + rewrite Z.shiftl_spec_low by lia. symmetry. apply bool_decide_eq_false_2.
      intros Hin%(ref_pos _ _ HR). lia.
    + rewrite Z.shiftl_spec_high by lia. rewrite (ref_bits _ _ HR) by lia.
      apply bool_decide_ext. by replace (highest w - (d - (s - highest w))) with (s - d) by lia.
Qed.

Lemma refines_above w acc s :
  refines w acc → in_u64 s → highest w ≠ 0 → highest w < s →
  spec_accept acc s = true ∧
  refines (mkReplayWindow s (Z.lor (shifted w s) 1)) (s :: acc).
Proof.
  intros HR Hs Hh Hlt. pose proof (ref_pos _ _ HR) as Hpos.
  pose proof (ref_range _ _ HR) as Hr. unfold in_u64 in Hs, Hr.
  split.
  { unfold spec_accept. rewrite (proj2 (Z.eqb_neq s 0)) by lia.
    rewrite bool_decide_eq_false_2 by (intros ?%Hpos; lia).
    apply forallb_forall. intros a ?%list_elem_of_In%Hpos. apply Z.ltb_lt. lia. }
  split; cbn; try done.
  - apply in_u64_lor; [|by vm_compute]. unfold shifted.
    case_if as E; [done|apply u64_range].
  - lia.
  - intros _. left.
  - intros a [->|?%Hpos]%elem_of_cons; lia.
  - intros _ d Hd. rewrite Z.lor_spec, (shifted_bits w acc) by done.
    destruct (Z.eq_dec d 0) as [->|Hd0].
    + rewrite orb_true_r. symmetry. apply bool_decide_eq_true_2.
      rewrite Z.sub_0_r. left.
    + rewrite (Z.bits_above_log2 1), orb_false_r by (cbn; lia).
      apply bool_decide_ext. rewrite elem_of_cons. intuition lia.
Qed.

Lemma refines_below w acc s :
  refines w acc → in_u64 s → s ≠ 0 → highest w ≠ 0 → s ≤ highest w →
  spec_accept acc s
    = negb (64 <=? highest w - s) && negb (Z.testbit (seen w) (highest w - s)) ∧
  (spec_accept acc s = true →
   refines (w <| seen := Z.lor (seen w) (u64 (Z.shiftl 1 (highest w - s))) |>) (s :: acc)).
Proof.
  intros HR Hs Hs0 Hh Hle. pose proof (ref_pos _ _ HR) as Hpos.
  assert (spec_accept acc s = negb (64 <=? highest w - s) &&
          negb (Z.testbit (seen w) (highest w - s))) as Hspec.
  { unfold spec_accept. rewrite (proj2 (Z.eqb_neq s 0)) by done.
    rewrite (forallb_in_window (highest w)) by (try apply HR; try done; naive_solver).
    rewrite Z.ltb_antisym. destruct (Z.leb_spec 64 (highest w - s)).
    - by rewrite andb_false_r.
    - rewrite (ref_bits _ _ HR) by lia.
      rewrite andb_true_r. simpl. do 2 f_equal.
      apply bool_decide_ext. by replace (highest w - (highest w - s)) with s by lia. }
  split; [done|]. rewrite Hspec. intros H. b2p.
  assert (u64 (Z.shiftl 1 (highest w - s)) = 2 ^ (highest w - s)) as Hm.
  { rewrite Z.shiftl_1_l. apply u64_small.
    split; [apply Z.pow_nonneg; lia|apply Z.pow_lt_mono_r; lia]. }
  split; cbn; try (apply HR; fail).
  - apply in_u64_lor; [apply HR|apply u64_range].
  - done.
  - intros _. right. by apply HR.
  - unfold in_u64 in Hs. intros a [->|?]%elem_of_cons; [lia|by apply Hpos].
  - intros _ d Hd. rewrite Hm, Z.lor_spec, (ref_bits _ _ HR) by done.
    rewrite Z.pow2_bits_eqb by lia.
    destruct (Z.eqb_spec (highest w - s) d) as [Heq|Hne].
    + rewrite orb_true_r. symmetry. apply bool_decide_eq_true_2.
      replace (highest w - d) with s by lia. left.
    + rewrite orb_false_r. apply bool_decide_ext. rewrite elem_of_cons.
      intuition lia.
Qed.

(** One call of [Accept] does what one call of the contract does. *)
Lemma Accept_step w acc s :
  refines w acc → in_u64 s →
  (Accept w s).2 = spec_accept acc s ∧
  refines (Accept w s).1 (if spec_accept acc s then s :: acc else acc).
Proof.
  intros HR Hs. pose proof (ref_range _ _ HR) as Hr. unfold Accept.
  destruct (Z.eqb_spec s 0) as [->|Hs0]; [by split|].
  destruct (Z.eqb_spec (highest w) 0) as [Hh|Hh].
  { destruct (refines_first w acc s) as [-> ?]; done. }
  destruct (Z.ltb_spec (highest w) s) as [Hlt|Hle].
  { destruct (refines_above w acc s) as [-> Hw]; try done.
    unfold shifted in Hw. cbn -[u64]. by case_ifs. }
  destruct (refines_below w acc s) as [Hspec Hw]; try done.
  unfold in_u64 in Hs, Hr. intval.
  destruct (Z.leb_spec 64 (highest w - s)).
  { rewrite Hspec. simpl. by split. }
  rewrite mask_test by lia. rewrite Hspec in Hw |- *. simpl in Hw |- *.
  destruct (Z.testbit (seen w) (highest w - s)); simpl in *; split; auto.
Qed.

Lemma run_spec_run w acc l :
  refines w acc → Forall in_u64 l → run w l = spec_run acc l.
Proof.
  intros HR Hl. revert w acc HR.
  induction Hl as [|s l Hs _ IH]; intros w acc HR; [done|]. simpl.
  destruct (Accept_step w acc s HR Hs) as [Hb HR'].
  destruct (Accept w s) as [w' b]. simpl in *. subst b.
  f_equal. by apply IH.
Qed.

(** In the contract a number already accepted is refused for ever. *)
Lemma spec_run_refused acc l i s :
  s ∈ acc → l !! i = Some s → spec_run acc l !! i ≠ Some true.
Proof.
  revert acc i. induction l as [|a l IH]; intros acc i Hin Hi; [done|].
  destruct i as [|i]; simpl in *.
  - injection Hi as ->. unfold spec_accept.
    rewrite bool_decide_eq_true_2 by done. by rewrite andb_false_r.
  - apply IH; [|done]. destruct (spec_accept acc a); [by right|done].
Qed.

Lemma spec_run_once acc l i j s :
  (i < j)%nat → l !! i = Some s → l !! j = Some s →
  spec_run acc l !! i = Some true → spec_run acc l !! j ≠ Some true.
Proof.
  revert acc i j. induction l as [|a l IH]; intros acc i j Hij Hi Hj Ht; [done|].
  destruct j as [|j]; [lia|]. destruct i as [|i]; simpl in *.
  - injection Hi as ->. injection Ht as ->. apply (spec_run_refused _ _ _ s); [left|done].
  - apply (IH _ i); auto. lia.
Qed.

(** C39.  The window implements its contract: for any sequence of uint64
    arguments, starting from the zero value of the struct, the answers of
    [Accept] are exactly those of the specification that remembers every
    accepted number and refuses 0, repeats, and numbers 64 or more below the
    highest one accepted. *)
Theorem accept_refines_spec (l : list Z) :
  Forall in_u64 l → run zeroWindow l = spec_run [] l.
Proof. apply run_spec_run, refines_zero. Qed.

Lemma accept_refines_spec_witness :
  run zeroWindow [5; 3; 5; 200; 137; 136; 2^64-1] = spec_run [] [5; 3; 5; 200; 137; 136; 2^64-1]
  ∧ run zeroWindow [5; 3; 5; 200; 137; 136; 2^64-1] = [true; true; false; true; true; false; true].
Proof.
  split; [|vm_compute; reflexivity].
  apply (accept_refines_spec [5; 3; 5; 200; 137; 136; 2^64-1]).
  repeat constructor; vm_compute; congruence.
Defined.

(** No sequence number is accepted twice: in any run of calls from the
    zero value, two calls with the same argument never both return true. *)
Theorem accept_at_most_once (l : list Z) (i j : nat) (s : Z) :
  Forall in_u64 l → (i < j)%nat → l !! i = Some s → l !! j = Some s →
  run zeroWindow l !! i = Some true → run zeroWindow l !! j ≠ Some true.
Proof.
  intros Hl. rewrite (run_spec_run _ _ _ refines_zero Hl). apply spec_run_once.
Qed.

Lemma accept_at_most_once_witness :
  run zeroWindow [7; 70; 7] !! 2%nat ≠ Some true.
Proof.
  apply (accept_at_most_once [7; 70; 7] 0 2 7); try reflexivity.
  - repeat constructor; vm_compute; congruence.
  - lia.
Defined.

End Replay.
