(* ===== verification/RingBuffer.v ===== *)
(** * RingBuffer.v: the growable ring buffer
    (src/transports/transport_quic/congestion/bbr/ringbuffer.go)

    A pointer returned by [Offset], [Front] or [Back] is modelled by the index
    of the slot it points to, so that a write through it ([*p = v]) is a write
    to the backing array.  [contents] is the abstraction function: the queue of
    elements from the head to the tail. *)

From S2P Require Import Prelude.
From Stdlib Require Import ZArith Lia.
From stdpp Require Import base list option numbers.

Local Open Scope Z_scope.
Local Open Scope go_scope.

Module Ring.
Section Ring.
Context {T : Type} `{!GoZero T}.

Record RingBuffer := mkRingBuffer {
  ring : list T;
  headPos : Z;
  tailPos : Z;
  full : bool
}.

#[export] Instance eta_RingBuffer : Eta RingBuffer :=
  fun r => mkRingBuffer (ring r) (headPos r) (tailPos r) (full r).

Definition zeroRing : RingBuffer := mkRingBuffer [] 0 0 false.

Definition Init (r : RingBuffer) (size : Z) : option RingBuffer :=
  s ← make_slice size; Some (r <| ring := s |>).

Definition Len (r : RingBuffer) : Z :=
  if full r then len (ring r)
  else if headPos r <=? tailPos r then tailPos r - headPos r
  else tailPos r - headPos r + len (ring r).

Definition Empty (r : RingBuffer) : bool :=
  negb (full r) && (headPos r =? tailPos r).

Definition grow (r : RingBuffer) : option RingBuffer :=
  let oldRing := ring r in
  let newSize := len oldRing * 2 in
  let newSize := if newSize =? 0 then 1 else newSize in
  fresh ← make_slice newSize;
  upper ← slice_from oldRing (headPos r);
  let ring1 := slice_copy fresh upper in
  let headLen := Z.min (len fresh) (len upper) in
  lower ← slice_to oldRing (headPos r);
  rest ← slice_from ring1 headLen;
  prefix ← slice_to ring1 headLen;
  Some (r <| ring := prefix ++ slice_copy rest lower |>
          <| headPos := 0 |> <| tailPos := len oldRing |> <| full := false |>).

Definition PushBack (r : RingBuffer) (t : T) : option RingBuffer :=
  r ← (if full r || (len (ring r) =? 0) then grow r else Some r);
  s ← slice_set (ring r) (tailPos r) t;
  let r := r <| ring := s |> <| tailPos := tailPos r + 1 |> in
  let r := if tailPos r =? len (ring r) then r <| tailPos := 0 |> else r in
  Some (if tailPos r =? headPos r then r <| full := true |> else r).

Definition PopFront (r : RingBuffer) : option (RingBuffer * T) :=
  if Empty r then None
  else
    let r := r <| full := false |> in
    t ← slice_get (ring r) (headPos r);
    s ← slice_set (ring r) (headPos r) zero_value;
    let r := r <| ring := s |> <| headPos := headPos r + 1 |> in
    let r := if headPos r =? len (ring r) then r <| headPos := 0 |> else r in
    Some (r, t).

(** The slot [Offset] points to; Go's [%] is [Z.rem], and dividing by a zero
    length cannot happen after the emptiness test. *)
Definition Offset (r : RingBuffer) (index : Z) : option Z :=
  if Empty r || (Len r <=? index) then None
  else
    let offset := Z.rem (headPos r + index) (len (ring r)) in
    _ ← slice_get (ring r) offset; Some offset.

Definition Front (r : RingBuffer) : option Z :=
  if Empty r then None
  else _ ← slice_get (ring r) (headPos r); Some (headPos r).

Definition Back (r : RingBuffer) : option Z :=
  if Empty r then None else Offset r (Len r - 1).

Definition Clear (r : RingBuffer) : RingBuffer :=
  r <| ring := replicate (length (ring r)) zero_value |>
    <| headPos := 0 |> <| tailPos := 0 |> <| full := false |>.

(** Reading and writing through a slot pointer. *)
Definition deref (r : RingBuffer) (p : Z) : option T := slice_get (ring r) p.
Definition store (r : RingBuffer) (p : Z) (v : T) : option RingBuffer :=
  s ← slice_set (ring r) p v; Some (r <| ring := s |>).

(** ** Abstraction and invariant *)

Definition contents (r : RingBuffer) : list T :=
  take (Z.to_nat (Len r))
    (drop (Z.to_nat (headPos r)) (ring r) ++ take (Z.to_nat (headPos r)) (ring r)).

Record wf (r : RingBuffer) : Prop := {
  wf_head : 0 ≤ headPos r ∧ (headPos r < len (ring r) ∨ headPos r = 0);
  wf_tail : 0 ≤ tailPos r ∧ (tailPos r < len (ring r) ∨ tailPos r = 0);
  wf_full : full r = true → headPos r = tailPos r ∧ 0 < len (ring r)
}.

Lemma wf_len r : wf r → 0 ≤ Len r ≤ len (ring r).
Proof.
  intros [Hh Ht Hf]. unfold Len, len in *.
  destruct (full r); [destruct Hf; [done|lia]|]. case_ifs; lia.
Qed.

Lemma contents_length r : wf r → len (contents r) = Len r.
Proof.
  intros Hw. pose proof (wf_len r Hw). unfold contents, len in *.
  autorewrite with golist. lia.
Qed.

(** Element [i] of the queue sits [i] slots after the head, cyclically. *)
Definition slot (r : RingBuffer) (i : nat) : nat :=
  let j := (Z.to_nat (headPos r) + i)%nat in
  if (j <? length (ring r))%nat then j else (j - length (ring r))%nat.

Lemma contents_lookup r i :
  wf r → (i < length (contents r))%nat → contents r !! i = ring r !! slot r i.
Proof.
  intros Hw Hi. pose proof (wf_len r Hw) as Hl. destruct (wf_head r Hw) as [Hh1 Hh2].
  pose proof (contents_length r Hw) as Hcl. unfold contents, slot, len in *.
  rewrite lookup_take_lt by lia.
  destruct (Nat.ltb_spec (Z.to_nat (headPos r) + i) (length (ring r))).
  - rewrite lookup_app_l by (rewrite length_drop; lia).
    rewrite lookup_drop. done.
  - rewrite lookup_app_r by (rewrite length_drop; lia).
    rewrite lookup_take_lt by (rewrite length_drop; lia).
    rewrite length_drop. f_equal. lia.
Qed.

Lemma slot_lt r i : wf r → (i < length (contents r))%nat → (slot r i < length (ring r))%nat.
Proof.
  intros Hw Hi. pose proof (contents_length r Hw). pose proof (wf_len r Hw).
  destruct (wf_head r Hw). unfold slot, len in *.
  destruct (Nat.ltb_spec (Z.to_nat (headPos r) + i) (length (ring r))); lia.
Qed.

Lemma slot_inj r i j :
  wf r → (i < length (contents r))%nat → (j < length (contents r))%nat →
  slot r i = slot r j → i = j.
Proof.
  intros Hw Hi Hj. pose proof (contents_length r Hw). pose proof (wf_len r Hw).
  unfold slot, len in *.
  case_all; lia.
Qed.

(** Two rings agree as queues when their lengths and their slots agree. *)
Lemma contents_eq r l :
  wf r → Len r = len l →
  (∀ i x, l !! i = Some x → ring r !! slot r i = Some x) → contents r = l.
Proof.
  intros Hw Hlen Hs. apply list_eq_same_length with (n := length l).
  - done.
  - pose proof (contents_length r Hw). unfold len in *. lia.
  - intros i x y Hi Hx Hy. apply Hs in Hy.
    rewrite contents_lookup in Hx by (try done; by apply lookup_lt_Some in Hx). congruence.
Qed.

Lemma Empty_spec r : wf r → Empty r = true ↔ contents r = [].
Proof.
  intros Hw. pose proof (contents_length r Hw) as Hl. unfold Empty.
  assert (contents r = [] ↔ Len r = 0) as ->.
  { rewrite <- length_zero_iff_nil. unfold len in *. lia. }
  destruct Hw as [Hh Ht Hf]. unfold Len, len in *.
  rewrite andb_true_iff, negb_true_iff, Z.eqb_eq.
  destruct (full r); [destruct Hf; [done|]; split; [by intros []|lia]|].
  case_ifs; split; intros; try split; try done; lia.
Qed.

Lemma wf_zero : wf zeroRing.
Proof. split; cbn; unfold len; cbn; try done; lia. Qed.

Lemma Init_spec size :
  0 ≤ size → ∃ r, Init zeroRing size = Some r ∧ wf r ∧ contents r = [].
Proof.
  intros Hs. unfold Init, make_slice. rewrite (proj2 (Z.ltb_ge size 0)) by lia.
  eexists. split; [reflexivity|]. split; [|reflexivity].
  split; cbn; try done; lia.
Qed.

(** Growing keeps the queue, and leaves room for one more element. *)
Lemma grow_spec r :
  wf r → (full r = true ∨ len (ring r) = 0) →
  ∃ r', grow r = Some r' ∧ wf r' ∧ contents r' = contents r ∧
        full r' = false ∧ 0 < len (ring r') ∧ Len r' < len (ring r').
Proof.
  intros Hw Hfull. pose proof Hw as [Hh Ht Hf].
  set (h := Z.to_nat (headPos r)). set (n := length (ring r)).
  set (n' := if (len (ring r) * 2 =? 0) then 1 else len (ring r) * 2).
  assert (Hn' : Z.of_nat n < n') by (unfold n', n, len; case_ifs; lia).
  assert (Hhn : (h ≤ n)%nat) by (unfold h, n, len in *; lia).
  assert (Hcont : contents r = drop h (ring r) ++ take h (ring r)).
  { unfold contents. apply take_ge. autorewrite with golist.
    unfold Len, len in *. destruct (full r); [unfold h; lia|].
    destruct Hfull as [|]; [done|]. case_ifs; unfold h; lia. }
  unfold grow, make_slice, slice_from, slice_to. fold n'.
  rewrite (proj2 (Z.ltb_ge n' 0)) by lia. simpl.
  rewrite (proj2 (Z.leb_le 0 (headPos r))) by lia.
  rewrite (proj2 (Z.leb_le (headPos r) (len (ring r)))) by (unfold len, n in *; lia). simpl.
  fold h.
  assert (Z.min (len (replicate (Z.to_nat n') (zero_value : T))) (len (drop h (ring r)))
          = Z.of_nat (n - h)) as ->.
  { unfold len. autorewrite with golist. fold n. lia. }
  rewrite (proj2 (Z.leb_le 0 (Z.of_nat (n - h)))) by lia.
  rewrite (proj2 (Z.leb_le (Z.of_nat (n - h)) _)).
  2: { unfold len. autorewrite with golist. lia. }
  simpl. rewrite Nat2Z.id.
  eexists. split; [reflexivity|].
  assert (Hring : take (n - h) (slice_copy (replicate (Z.to_nat n') (zero_value : T)) (drop h (ring r)))
     ++ slice_copy (drop (n - h) (slice_copy (replicate (Z.to_nat n') zero_value) (drop h (ring r)))) (take h (ring r))
     = drop h (ring r) ++ take h (ring r) ++ replicate (Z.to_nat n' - n) zero_value).
  { unfold slice_copy. rewrite (take_ge (drop h (ring r))) by (autorewrite with golist; lia).
    rewrite take_app_le by (autorewrite with golist; lia).
    rewrite take_ge by (autorewrite with golist; lia). f_equal.
    rewrite drop_app_ge by (autorewrite with golist; lia).
    rewrite !drop_replicate. autorewrite with golist. fold n.
    rewrite (take_ge (take h _)) by (autorewrite with golist; lia). f_equal.
    f_equal. lia. }
  rewrite Hring. clear Hring.
  assert (Hlen : len (drop h (ring r) ++ take h (ring r) ++ replicate (Z.to_nat n' - n) (zero_value : T)) = n').
  { unfold len. autorewrite with golist. fold n. lia. }
  assert (Hw' : wf (mkRingBuffer (drop h (ring r) ++ take h (ring r) ++ replicate (Z.to_nat n' - n) (zero_value : T))
                     0 (len (ring r)) false)).
  { split; cbn; rewrite ?Hlen; try done; unfold len; fold n; lia. }
  split; [exact Hw'|]. split; [|split; [done|]]; cbn.
  - rewrite Hcont. unfold contents, Len. cbn.
    rewrite (proj2 (Z.leb_le 0 (len (ring r)))) by (unfold len; lia).
    rewrite drop_0, app_nil_r, app_assoc. apply take_app_length'.
    autorewrite with golist. unfold len. fold n. lia.
  - rewrite Hlen. unfold Len. cbn.
    rewrite (proj2 (Z.leb_le 0 (len (ring r)))) by (unfold len; lia).
    unfold len. fold n. lia.
Qed.

(** Writing one slot of the backing array. *)
Lemma slice_set_slot r i x :
  wf r → (i < length (contents r))%nat →
  slice_set (ring r) (Z.of_nat (slot r i)) x = Some (<[slot r i := x]> (ring r)).
Proof.
  intros Hw Hi. pose proof (slot_lt r i Hw Hi).
  rewrite slice_set_lt by (unfold len; lia). by rewrite Nat2Z.id.
Qed.

(** PushBack with a free slot at the tail. *)
Lemma push_nogrow r t :
  wf r → full r = false → 0 < len (ring r) → Len r < len (ring r) →
  ∃ r', (s ← slice_set (ring r) (tailPos r) t;
         let r := r <| ring := s |> <| tailPos := tailPos r + 1 |> in
         let r := if tailPos r =? len (ring r) then r <| tailPos := 0 |> else r in
         Some (if tailPos r =? headPos r then r <| full := true |> else r)) = Some r' ∧
  wf r' ∧ contents r' = contents r ++ [t].
Proof.
  intros Hw Hnf Hpos Hlt. pose proof Hw as [Hh Ht _].
  rewrite slice_set_lt by lia. simpl.
  assert (Hl : len (<[Z.to_nat (tailPos r) := t]> (ring r)) = len (ring r)).
  { unfold len. by rewrite length_insert. }
  rewrite Hl. eexists. split; [reflexivity|].
  set (r' := if tailPos _ =? headPos _ then _ else _).
  assert (Hr' : ring r' = <[Z.to_nat (tailPos r) := t]> (ring r) ∧ headPos r' = headPos r ∧
     wf r' ∧ Len r' = Len r + 1).
  { subst r'. unfold Len in *. rewrite Hnf in *.
    case_ifs; cbn -[Z.leb] in *; rewrite ?Hl; split_and!; try done;
      try (split; cbn; rewrite ?Hl; try done; lia); case_ifs; try lia; done. }
  destruct Hr' as (Hring & Hhead & Hw' & Hlen). clearbody r'. split; [exact Hw'|].
  pose proof (contents_length r Hw) as Hcl.
  apply contents_eq; [exact Hw'| |].
  { rewrite Hlen, <- Hcl. unfold len. rewrite length_app. simpl. lia. }
  assert (Hslot : ∀ i, slot r' i = slot r i).
  { intros i. unfold slot. rewrite Hring, Hhead, length_insert. done. }
  assert (Hts : slot r (length (contents r)) = Z.to_nat (tailPos r)).
  { unfold slot, Len, len in *. rewrite Hnf in *.
    case_all; lia. }
  intros i x Hi. rewrite Hslot, Hring. apply lookup_app_Some in Hi as [Hi|[Hge Hi]].
  - pose proof (lookup_lt_Some _ _ _ Hi) as Hil.
    rewrite contents_lookup in Hi by done. rewrite list_lookup_insert_ne; [done|].
    rewrite <- Hts. unfold slot, Len, len in *. rewrite Hnf in *.
    case_all; lia.
  - apply list_lookup_singleton_Some in Hi as [Hi <-].
    replace i with (length (contents r)) by lia. rewrite Hts.
    apply list_lookup_insert_eq. unfold len in *. lia.
Qed.

(** [PushBack] never panics and appends to the queue. *)
Lemma PushBack_spec r t :
  wf r → ∃ r', PushBack r t = Some r' ∧ wf r' ∧ contents r' = contents r ++ [t].
Proof.
  intros Hw. unfold PushBack.
  destruct (full r || (len (ring r) =? 0)) eqn:E.
  - destruct (grow_spec r Hw) as (r1 & -> & Hw1 & <- & Hf & Hp & Hlt).
    { apply orb_true_iff in E as [|]; b2p; auto. }
    by apply push_nogrow.
  - b2p. apply push_nogrow; try done.
    + unfold len in *. lia.
    + destruct Hw as [Hh Ht _]. unfold Len, len in *. rewrite H. case_ifs; lia.
Qed.

(** [PopFront] removes the first element; it panics exactly on the empty queue. *)
Lemma PopFront_spec r x l :
  wf r → contents r = x :: l →
  ∃ r', PopFront r = Some (r', x) ∧ wf r' ∧ contents r' = l.
Proof.
  intros Hw Hc. unfold PopFront.
  pose proof (contents_length r Hw) as Hcl. pose proof (wf_len r Hw) as Hwl.
  assert (Hnl : 0 < Len r) by (rewrite <- Hcl, Hc; unfold len; simpl; lia).
  destruct (Empty r) eqn:E; [apply Empty_spec in E; [by rewrite E in Hc|done]|].
  pose proof Hw as [Hh Ht Hf].
  assert (Hx : slice_get (ring r) (headPos r) = Some x).
  { assert (Hi : contents r !! 0%nat = Some x) by by rewrite Hc.
    rewrite contents_lookup in Hi by (try done; rewrite Hc; simpl; lia).
    rewrite <- Hi. unfold slot, slice_get, len in *.
    rewrite (proj2 (Z.ltb_ge _ 0)) by lia.
    case_all; f_equal; lia. }
  cbn -[slice_get]. rewrite Hx. simpl. rewrite slice_set_lt by lia. simpl.
  assert (Hl : len (<[Z.to_nat (headPos r) := zero_value]> (ring r)) = len (ring r)).
  { unfold len. by rewrite length_insert. }
  rewrite Hl. eexists. split; [reflexivity|].
  set (r' := if headPos r + 1 =? len (ring r) then _ else _).
  assert (Hr' : ring r' = <[Z.to_nat (headPos r) := zero_value]> (ring r) ∧ full r' = false ∧
     headPos r' = (if headPos r + 1 =? len (ring r) then 0 else headPos r + 1) ∧
     tailPos r' = tailPos r ∧ wf r' ∧ Len r' = Len r - 1).
  { subst r'. unfold Len in *. destruct (full r) eqn:Ef.
    - destruct Hf as [Hf1 Hf2]; [done|].
      destruct (Z.eqb_spec (headPos r + 1) (len (ring r))); cbn in *; rewrite ?Hl;
        split_and!; try done; try (split; cbn; rewrite ?Hl; try done; lia); case_ifs; lia.
    - unfold Empty in E. rewrite Ef in E. simpl in E. b2p.
      destruct (Z.eqb_spec (headPos r + 1) (len (ring r))); cbn in *; rewrite ?Hl;
        split_and!; try done; try (split; cbn; rewrite ?Hl; try done; lia); case_all; lia. }
  destruct Hr' as (Hring & Hfull & Hhead & Htail & Hw' & Hlen). clearbody r'. split; [exact Hw'|].
  apply contents_eq; [exact Hw'| |].
  { rewrite Hlen, <- Hcl, Hc. unfold len. simpl. lia. }
  intros i y Hi. assert (Hi' : contents r !! S i = Some y) by by rewrite Hc.
  pose proof (lookup_lt_Some _ _ _ Hi') as Hil.
  rewrite contents_lookup in Hi' by done. rewrite Hring.
  assert (slot r' i = slot r (S i)) as Hs.
  { unfold slot. rewrite Hring, Hhead, length_insert. unfold len in *.
    case_all; lia. }
  rewrite Hs, list_lookup_insert_ne; [done|].
  unfold slot. unfold len in *.
  case_all; lia.
Qed.

Lemma PopFront_panics r : wf r → PopFront r = None ↔ contents r = [].
Proof.
  intros Hw. split.
  - intros Hp. destruct (contents r) as [|x l] eqn:E; [done|].
    destruct (PopFront_spec r x l Hw E) as (r' & Hr & _). congruence.
  - intros E. unfold PopFront. by rewrite (proj2 (Empty_spec r Hw) E).
Qed.

(** [Offset i] points at the slot of element [i]. *)
Lemma Offset_spec r (i : nat) :
  wf r → (i < length (contents r))%nat →
  Offset r (Z.of_nat i) = Some (Z.of_nat (slot r i)).
Proof.
  intros Hw Hi. unfold Offset. pose proof (contents_length r Hw) as Hcl.
  pose proof (slot_lt r i Hw Hi) as Hs. pose proof (wf_len r Hw).
  destruct (Empty r) eqn:E.
  { apply Empty_spec in E; [|done]. rewrite E in Hi. simpl in Hi. lia. }
  rewrite (proj2 (Z.leb_gt (Len r) (Z.of_nat i))) by (unfold len in *; lia).
  simpl. pose proof Hw as [Hh _ _].
  assert (Z.rem (headPos r + Z.of_nat i) (len (ring r)) = Z.of_nat (slot r i)) as ->.
  { rewrite Z.rem_mod_nonneg by (unfold len in *; lia).
    unfold slot, len in *. destruct (Nat.ltb_spec (Z.to_nat (headPos r) + i) (length (ring r))).
    - rewrite Z.mod_small; lia.
    - rewrite <- (Z.mod_add _ (-1)) by lia. rewrite Z.mod_small; lia. }
  destruct (slice_get_lt (ring r) (Z.of_nat (slot r i))) as [y ->]; [unfold len; lia|done].
Qed.

Lemma Offset_panics r i : wf r → 0 ≤ i → Len r ≤ i → Offset r i = None.
Proof.
  intros Hw Hi Hl. unfold Offset. rewrite (proj2 (Z.leb_le _ _) Hl), orb_true_r. done.
Qed.

Lemma deref_slot r i :
  wf r → (i < length (contents r))%nat →
  deref r (Z.of_nat (slot r i)) = contents r !! i.
Proof.
  intros Hw Hi. unfold deref. rewrite slice_get_nat. by rewrite contents_lookup.
Qed.

(** Writing through a slot pointer updates that element of the queue only. *)
Lemma store_slot r i v :
  wf r → (i < length (contents r))%nat →
  ∃ r', store r (Z.of_nat (slot r i)) v = Some r' ∧ wf r' ∧
        contents r' = <[i := v]> (contents r).
Proof.
  intros Hw Hi. unfold store. rewrite slice_set_slot by done. simpl.
  eexists. split; [reflexivity|].
  assert (Hl : length (<[slot r i := v]> (ring r)) = length (ring r)) by apply length_insert.
  assert (Hw' : wf (mkRingBuffer (<[slot r i := v]> (ring r)) (headPos r) (tailPos r) (full r))).
  { destruct Hw as [Hh Ht Hf]. split; cbn; unfold len in *; rewrite ?Hl; done. }
  split; [exact Hw'|]. apply contents_eq; [exact Hw'| |].
  { pose proof (contents_length r Hw) as Hcl. unfold Len, len in *. cbn.
    rewrite !length_insert. lia. }
  intros j x Hj. cbn.
  assert (Hs : ∀ k j, slot (mkRingBuffer (<[k := v]> (ring r)) (headPos r) (tailPos r) (full r)) j
               = slot r j) by (intros; unfold slot; cbn; by rewrite length_insert).
  rewrite Hs. apply list_lookup_insert_Some in Hj as [(-> & <- & _)|[Hne Hj]].
  - apply list_lookup_insert_eq, slot_lt; done.
  - pose proof (lookup_lt_Some _ _ _ Hj) as Hjl. rewrite contents_lookup in Hj by done.
    rewrite list_lookup_insert_ne; [done|]. intros Heq. apply Hne.
    by apply (slot_inj r).
Qed.

Lemma Front_spec r :
  wf r → contents r ≠ [] → Front r = Some (Z.of_nat (slot r 0)).
Proof.
  intros Hw Hne. unfold Front.
  destruct (Empty r) eqn:E; [by apply Empty_spec in E|].
  assert (Hi : (0 < length (contents r))%nat) by (destruct (contents r); simpl; [done|lia]).
  pose proof (slot_lt r 0 Hw Hi). pose proof Hw as [Hh _ _].
  assert (headPos r = Z.of_nat (slot r 0)) as ->.
  { pose proof (contents_length r Hw). pose proof (wf_len r Hw). unfold slot, len in *.
    destruct (Nat.ltb_spec (Z.to_nat (headPos r) + 0) (length (ring r))); lia. }
  destruct (slice_get_lt (ring r) (Z.of_nat (slot r 0))) as [y ->]; [unfold len; lia|done].
Qed.

Lemma Back_spec r :
  wf r → contents r ≠ [] → Back r = Some (Z.of_nat (slot r (length (contents r) - 1))).
Proof.
  intros Hw Hne. unfold Back.
  destruct (Empty r) eqn:E; [by apply Empty_spec in E|].
  assert (Hi : (0 < length (contents r))%nat) by (destruct (contents r); simpl; [done|lia]).
  rewrite <- (contents_length r Hw).
  replace (len (contents r) - 1) with (Z.of_nat (length (contents r) - 1)) by (unfold len; lia).
  apply Offset_spec; [done|lia].
Qed.

Lemma Clear_spec r : wf (Clear r) ∧ contents (Clear r) = [].
Proof.
  split; [|done]. split; cbn; unfold len; rewrite ?length_replicate; try done; lia.
Qed.


(** ** The queue the ring implements

    A program using the buffer is a list of operations; a panic ends it. *)

Inductive op :=
| OPush (t : T)
| OPop
| OLen
| OEmpty
| OFront
| OBack
| OOffset (i : Z)
| OWrite (i : Z) (t : T)   (* *r.Offset(i) = t *)
| OClear.

Inductive out :=
| RVal (t : T)
| RInt (z : Z)
| RBool (b : bool)
| RUnit.

Definition ring_step (r : RingBuffer) (o : op) : option (RingBuffer * out) :=
  match o with
  | OPush t => r ← PushBack r t; Some (r, RUnit)
  | OPop => '(r, t) ← PopFront r; Some (r, RVal t)
  | OLen => Some (r, RInt (Len r))
  | OEmpty => Some (r, RBool (Empty r))
  | OFront => p ← Front r; t ← deref r p; Some (r, RVal t)
  | OBack => p ← Back r; t ← deref r p; Some (r, RVal t)
  | OOffset i => p ← Offset r i; t ← deref r p; Some (r, RVal t)
  | OWrite i t => p ← Offset r i; r ← store r p t; Some (r, RUnit)
  | OClear => Some (Clear r, RUnit)
  end.

Definition queue_step (l : list T) (o : op) : option (list T * out) :=
  match o with
  | OPush t => Some (l ++ [t], RUnit)
  | OPop => option_map (λ x, (tail l, RVal x)) (head l)
  | OLen => Some (l, RInt (len l))
  | OEmpty => Some (l, RBool (len l =? 0))
  | OFront => option_map (λ x, (l, RVal x)) (head l)
  | OBack => option_map (λ x, (l, RVal x)) (list.last l)
  | OOffset i => option_map (λ x, (l, RVal x)) (slice_get l i)
  | OWrite i t => option_map (λ l, (l, RUnit)) (slice_set l i t)
  | OClear => Some ([], RUnit)
  end.

Fixpoint run_with {S} (step : S → op → option (S * out)) (s : S) (os : list op)
  : option (list out) :=
  match os with
  | [] => Some []
  | o :: os => '(s, x) ← step s o; xs ← run_with step s os; Some (x :: xs)
  end.

(** Negative indices are outside the documented use of [Offset]. *)
Definition op_ok (o : op) : Prop :=
  match o with OOffset i | OWrite i _ => 0 ≤ i | _ => True end.

Lemma ring_step_refines r o :
  wf r → op_ok o →
  match ring_step r o with
  | Some (r', x) => wf r' ∧ queue_step (contents r) o = Some (contents r', x)
  | None => queue_step (contents r) o = None
  end.
Proof.
  intros Hw Ho. pose proof (contents_length r Hw) as Hcl.
  destruct o as [t| | | | | |i|i t|]; simpl in *.
  - destruct (PushBack_spec r t Hw) as (r' & -> & ? & Hc). simpl. by rewrite Hc.
  - destruct (contents r) as [|x l] eqn:E.
    + by rewrite (proj2 (PopFront_panics r Hw) E).
    + destruct (PopFront_spec r x l Hw E) as (r' & -> & ? & Hc). simpl. by rewrite Hc.
  - by rewrite Hcl.
  - split; [done|]. do 3 f_equal. apply eq_true_iff_eq.
    rewrite (Empty_spec r Hw), Z.eqb_eq, <- length_zero_iff_nil. unfold len. lia.
  - destruct (contents r) as [|x l] eqn:E.
    + unfold Front. by rewrite (proj2 (Empty_spec r Hw) E).
    + rewrite Front_spec by (try done; by rewrite E). simpl.
      rewrite deref_slot by (try done; rewrite E; simpl; lia).
      rewrite E. simpl. by rewrite E.
  - destruct (contents r) as [|x l] eqn:E.
    + unfold Back. by rewrite (proj2 (Empty_spec r Hw) E).
    + rewrite Back_spec by (try done; by rewrite E). simpl.
      rewrite deref_slot by (try done; rewrite E; simpl; lia).
      rewrite E, last_lookup. replace (length (x :: l) - 1)%nat with (pred (length (x :: l))) by lia.
      destruct ((x :: l) !! pred (length (x :: l))) eqn:El; [simpl; by rewrite E|].
      apply lookup_ge_None in El. simpl in El. lia.
  - destruct (decide (i < Len r)).
    + rewrite <- (Z2Nat.id i) by done.
      rewrite Offset_spec by (try done; unfold len in *; lia). simpl.
      rewrite deref_slot by (try done; unfold len in *; lia). rewrite slice_get_nat.
      destruct (contents r !! Z.to_nat i); done.
    + rewrite Offset_panics by (try done; lia). simpl.
      unfold slice_get. rewrite (proj2 (Z.ltb_ge i 0)) by done.
      rewrite lookup_ge_None_2; [done|unfold len in *; lia].
  - destruct (decide (i < Len r)).
    + rewrite <- (Z2Nat.id i) by done.
      rewrite Offset_spec by (try done; unfold len in *; lia). simpl.
      destruct (store_slot r (Z.to_nat i) t) as (r' & -> & Hw' & Hc); [done|unfold len in *; lia|].
      simpl. rewrite Hc. split; [done|].
      rewrite slice_set_lt by (unfold len in *; lia). by rewrite Nat2Z.id.
    + rewrite Offset_panics by (try done; lia). simpl. unfold slice_set.
      rewrite (proj2 (Z.ltb_ge i (len (contents r)))) by lia. by rewrite andb_false_r.
  - split; [apply Clear_spec|done].
Qed.

Lemma run_refines r os :
  wf r → Forall op_ok os → run_with ring_step r os = run_with queue_step (contents r) os.
Proof.
  intros Hw Hos. revert r Hw. induction Hos as [|o os Ho _ IH]; intros r Hw; [done|]. simpl.
  pose proof (ring_step_refines r o Hw Ho) as H.
  destruct (ring_step r o) as [[r' x]|].
  - destruct H as [Hw' ->]. simpl. by rewrite IH.
  - by rewrite H.
Qed.

(** The ring buffer implements an unbounded FIFO queue with random access:
    whatever its preallocated size and whatever operations are applied, every
    result, and every panic, is the one the list model gives; in particular
    growing never loses or reorders an element. *)
Theorem ring_refines_queue (size : Z) (r : RingBuffer) (os : list op) :
  0 ≤ size → Init zeroRing size = Some r → Forall op_ok os →
  run_with ring_step r os = run_with queue_step [] os.
Proof.
  intros Hs Hr Hos. destruct (Init_spec size Hs) as (r0 & Hr0 & Hw & Hc).
  replace r0 with r in * by congruence. rewrite <- Hc. by apply run_refines.
Qed.
End Ring.
Arguments RingBuffer : clear implicits.

Lemma ring_refines_queue_witness :
  run_with ring_step (mkRingBuffer [0; 0] 0 0 false)
    [OPush 1; OPush 2; OPop; OPush 3; OPush 4; OOffset 1; OBack; OPop; OLen]
  = Some [RUnit; RUnit; RVal 1; RUnit; RUnit; RVal 3; RVal 4; RVal 2; RInt 2].
Proof.
  rewrite (ring_refines_queue 2 (mkRingBuffer [0; 0] 0 0 false)
    [OPush 1; OPush 2; OPop; OPush 3; OPush 4; OOffset 1; OBack; OPop; OLen]).
  - vm_compute. reflexivity.
  - lia.
  - reflexivity.
  - repeat constructor; simpl; lia.
Defined.

End Ring.
