(* ===== verification/PacketQueue.v ===== *)
(** * PacketQueue.v: the queue indexed by packet numbers
    (src/transports/transport_quic/congestion/bbr/packet_number_indexed_queue.go)

    [packetNumberIndexedQueue] on top of the ring buffer of RingBuffer.v.  The
    abstraction is a finite map from packet numbers to entries; the invariant
    [wfq] is the one the comment of the source describes: the deque starts at
    the lowest present index.  A panic of the ring buffer is [None], and every
    lemma below shows that none occurs. *)

From S2P Require Import Prelude RingBuffer.
From Stdlib Require Import ZArith Lia.
From stdpp Require Import base list option numbers gmap.

Local Open Scope Z_scope.
Local Open Scope go_scope.

Module PNQueue.
Import Ring.
Section PNQueue.
Context {T : Type} `{!GoZero T}.

Definition invalidPacketNumber : Z := -1.

Record entryWrapper := mkEntryWrapper {
  present : bool;
  entry : T
}.

#[export] Instance eta_entryWrapper : Eta entryWrapper :=
  fun e => mkEntryWrapper (present e) (entry e).

#[export] Instance zero_entryWrapper : GoZero entryWrapper :=
  mkEntryWrapper false zero_value.

Record packetNumberIndexedQueue := mkQueue {
  entries : RingBuffer entryWrapper;
  numberOfPresentEntries : Z;
  firstPacket : Z
}.

#[export] Instance eta_queue : Eta packetNumberIndexedQueue :=
  fun q => mkQueue (entries q) (numberOfPresentEntries q) (firstPacket q).

Definition newPacketNumberIndexedQueue (size : Z) : option packetNumberIndexedQueue :=
  r ← Init zeroRing size;
  Some (mkQueue r 0 invalidPacketNumber).

Definition IsEmpty (p : packetNumberIndexedQueue) : bool :=
  numberOfPresentEntries p =? 0.

Definition NumberOfPresentEntries (p : packetNumberIndexedQueue) : Z :=
  numberOfPresentEntries p.

Definition EntrySlotsUsed (p : packetNumberIndexedQueue) : Z := Len (entries p).

Definition FirstPacket (p : packetNumberIndexedQueue) : Z := firstPacket p.

Definition LastPacket (p : packetNumberIndexedQueue) : Z :=
  if IsEmpty p then invalidPacketNumber
  else i64 (firstPacket p + (Len (entries p) - 1)).

(** The loop [for i := 0; i < gap; i++ { PushBack(entryWrapper{}) }]. *)
Fixpoint pushMissing (n : nat) (r : RingBuffer entryWrapper)
  : option (RingBuffer entryWrapper) :=
  match n with
  | O => Some r
  | S n => r ← PushBack r zero_value; pushMissing n r
  end.

(** [entry] is a pointer: [None] is [nil]. *)
Definition Emplace (p : packetNumberIndexedQueue) (packetNumber : Z) (e : option T)
  : option (packetNumberIndexedQueue * bool) :=
  match e with
  | None => Some (p, false)
  | Some e =>
      if packetNumber =? invalidPacketNumber then Some (p, false)
      else if IsEmpty p then
        r ← PushBack (entries p) (mkEntryWrapper true e);
        Some (mkQueue r 1 packetNumber, true)
      else if packetNumber <=? LastPacket p then Some (p, false)
      else
        let offset := i64 (packetNumber - FirstPacket p) in
        let gap := offset - Len (entries p) in
        r ← (if 0 <? gap then pushMissing (Z.to_nat gap) (entries p) else Some (entries p));
        r ← PushBack r (mkEntryWrapper true e);
        Some (mkQueue r (numberOfPresentEntries p + 1) (firstPacket p), true)
  end.

(** The result is a pointer into the ring, [Some None] being [nil]. *)
Definition getEntryWraper (p : packetNumberIndexedQueue) (packetNumber : Z)
  : option (option Z) :=
  if (packetNumber =? invalidPacketNumber) || IsEmpty p || (packetNumber <? firstPacket p)
  then Some None
  else
    let offset := i64 (packetNumber - firstPacket p) in
    if Len (entries p) <=? offset then Some None
    else
      ptr ← Offset (entries p) offset;
      ew ← deref (entries p) ptr;
      if negb (present ew) then Some None else Some (Some ptr).

(** The caller only reads through the pointer, so the entry itself is returned. *)
Definition GetEntry (p : packetNumberIndexedQueue) (packetNumber : Z)
  : option (option T) :=
  ptr ← getEntryWraper p packetNumber;
  match ptr with
  | None => Some None
  | Some ptr => ew ← deref (entries p) ptr; Some (Some (entry ew))
  end.

(** One step of [for !p.entries.Empty() && !p.entries.Front().present]; the
    fuel is the number of slots in use, one of which each iteration pops. *)
Fixpoint clearupLoop (fuel : nat) (p : packetNumberIndexedQueue)
  : option packetNumberIndexedQueue :=
  match fuel with
  | O => Some p
  | S fuel =>
      if Empty (entries p) then Some p
      else
        ptr ← Front (entries p);
        ew ← deref (entries p) ptr;
        if present ew then Some p
        else
          '(r, _) ← PopFront (entries p);
          clearupLoop fuel (p <| entries := r |> <| firstPacket := i64 (firstPacket p + 1) |>)
  end.

Definition clearup (p : packetNumberIndexedQueue) : option packetNumberIndexedQueue :=
  p ← clearupLoop (Z.to_nat (Len (entries p))) p;
  if Empty (entries p) then Some (p <| firstPacket := invalidPacketNumber |>) else Some p.

(** The callback [f] is called with the removed entry: the second component is
    [Some entry] exactly when the source calls [f(entry)] and returns [true]. *)
Definition Remove (p : packetNumberIndexedQueue) (packetNumber : Z)
  : option (packetNumberIndexedQueue * option T) :=
  ptr ← getEntryWraper p packetNumber;
  match ptr with
  | None => Some (p, None)
  | Some ptr =>
      ew ← deref (entries p) ptr;
      r ← store (entries p) ptr (ew <| present := false |>);
      let p := p <| entries := r |> <| numberOfPresentEntries ::= (λ n, n - 1) |> in
      p ← (if packetNumber =? FirstPacket p then clearup p else Some p);
      Some (p, Some (entry ew))
  end.

Fixpoint removeUpToLoop (fuel : nat) (packetNumber : Z) (p : packetNumberIndexedQueue)
  : option packetNumberIndexedQueue :=
  match fuel with
  | O => Some p
  | S fuel =>
      if negb (Empty (entries p)) && negb (firstPacket p =? invalidPacketNumber)
         && (firstPacket p <? packetNumber) then
        ptr ← Front (entries p);
        ew ← deref (entries p) ptr;
        let p := if present ew then p <| numberOfPresentEntries ::= (λ n, n - 1) |> else p in
        '(r, _) ← PopFront (entries p);
        removeUpToLoop fuel packetNumber
          (p <| entries := r |> <| firstPacket := i64 (firstPacket p + 1) |>)
      else Some p
  end.

Definition RemoveUpTo (p : packetNumberIndexedQueue) (packetNumber : Z)
  : option packetNumberIndexedQueue :=
  p ← removeUpToLoop (Z.to_nat (Len (entries p))) packetNumber p;
  clearup p.


(** ** The map a deque of slots stands for *)

Definition value (e : entryWrapper) : option T :=
  if present e then Some (entry e) else None.

(** [view f c k]: the entry of packet [k] when slot 0 of [c] is packet [f]. *)
Fixpoint view (f : Z) (c : list entryWrapper) (k : Z) : option T :=
  match c with
  | [] => None
  | e :: c => if k =? f then value e else view (f + 1) c k
  end.

Fixpoint countPresent (c : list entryWrapper) : Z :=
  match c with
  | [] => 0
  | e :: c => (if present e then 1 else 0) + countPresent c
  end.

Fixpoint dropAbsent (c : list entryWrapper) : list entryWrapper :=
  match c with
  | [] => []
  | e :: c' => if present e then c else dropAbsent c'
  end.

Lemma view_lt f c k : k < f → view f c k = None.
Proof.
  revert f. induction c as [|e c IH]; intros f Hk; simpl; [done|].
  rewrite (proj2 (Z.eqb_neq k f)) by lia. apply IH. lia.
Qed.

Lemma view_lookup f c (i : nat) : view f c (f + Z.of_nat i) = c !! i ≫= value.
Proof.
  revert f i. induction c as [|e c IH]; intros f [|i]; simpl; try done.
  - by rewrite Z.add_0_r, Z.eqb_refl.
  - rewrite (proj2 (Z.eqb_neq _ f)) by lia.
    replace (f + Z.of_nat (S i)) with (f + 1 + Z.of_nat i) by lia. apply IH.
Qed.

Lemma view_ge f c k : f + len c ≤ k → view f c k = None.
Proof.
  intros H. unfold len in H. replace k with (f + Z.of_nat (Z.to_nat (k - f))) by lia.
  rewrite view_lookup, lookup_ge_None_2; [done|lia].
Qed.

Lemma view_app f c1 c2 k :
  view f (c1 ++ c2) k = if k <? f + len c1 then view f c1 k else view (f + len c1) c2 k.
Proof.
  revert f. induction c1 as [|e c1 IH]; intros f; simpl.
  - rewrite len_nil, Z.add_0_r. case_if as E; [|done]. b2p. by apply view_lt.
  - rewrite IH, len_cons. replace (f + 1 + len c1) with (f + (len c1 + 1)) by lia.
    unfold len. case_ifs; b2p; try done; lia.
Qed.

Lemma view_insert f c (i : nat) e k :
  (i < length c)%nat →
  view f (<[i := e]> c) k = if k =? f + Z.of_nat i then value e else view f c k.
Proof.
  revert f i. induction c as [|x c IH]; intros f [|i] Hi; simpl in *; try lia.
  - rewrite Z.add_0_r. by case_ifs.
  - rewrite IH by lia. case_ifs; b2p; try done; lia.
Qed.

Lemma countPresent_app c1 c2 : countPresent (c1 ++ c2) = countPresent c1 + countPresent c2.
Proof. induction c1; simpl; lia. Qed.

Lemma countPresent_nonneg c : 0 ≤ countPresent c.
Proof. induction c as [|e c IH]; simpl; [lia|]. destruct (present e); lia. Qed.

Lemma countPresent_insert c (i : nat) e e' :
  c !! i = Some e → present e = true → present e' = false →
  countPresent (<[i := e']> c) = countPresent c - 1.
Proof.
  revert i. induction c as [|x c IH]; intros [|i] Hc He He'; simplify_eq/=.
  - rewrite He, He'. lia.
  - rewrite (IH i) by done. lia.
Qed.

Lemma dropAbsent_view f c k :
  view (f + len c - len (dropAbsent c)) (dropAbsent c) k = view f c k.
Proof.
  revert f. induction c as [|e c IH]; intros f; simpl; [done|].
  destruct (present e) eqn:E.
  - rewrite Z.add_simpl_r. done.
  - rewrite len_cons. replace (f + (len c + 1)) with (f + 1 + len c) by lia. rewrite IH.
    unfold value. rewrite E. case_if as Ek; [|done]. b2p. subst. apply view_lt. lia.
Qed.

Lemma dropAbsent_count c : countPresent (dropAbsent c) = countPresent c.
Proof. induction c as [|e c IH]; simpl; [done|]. destruct (present e) eqn:E; simpl; rewrite ?E; lia. Qed.

Lemma dropAbsent_len c : len (dropAbsent c) ≤ len c.
Proof. induction c as [|e c IH]; simpl; [done|]. destruct (present e); rewrite ?len_cons in *; lia. Qed.

Lemma dropAbsent_head c e c' : dropAbsent c = e :: c' → present e = true.
Proof. induction c as [|x c IH]; simpl; [done|]. destruct (present x) eqn:E; naive_solver. Qed.

(** ** The invariant *)

(** QUIC packet numbers are at most [2^62 - 1] (RFC 9000, section 12.3). *)
Definition maxPacketNumber : Z := 2 ^ 62.

Definition slots (p : packetNumberIndexedQueue) : list entryWrapper := contents (entries p).

Record wfq (p : packetNumberIndexedQueue) : Prop := {
  wfq_ring : wf (entries p);
  wfq_count : numberOfPresentEntries p = countPresent (slots p);
  wfq_bound : firstPacket p + len (slots p) ≤ maxPacketNumber;
  wfq_head : match slots p with
             | [] => firstPacket p = invalidPacketNumber
             | e :: _ => present e = true ∧ 0 ≤ firstPacket p
             end
}.

Definition lookup (p : packetNumberIndexedQueue) (k : Z) : option T :=
  view (firstPacket p) (slots p) k.

Lemma wfq_Len p : wfq p → Len (entries p) = len (slots p).
Proof. intros Hw. symmetry. apply contents_length, Hw. Qed.

Lemma wfq_IsEmpty p : wfq p → IsEmpty p = true ↔ slots p = [].
Proof.
  intros [Hr Hc _ Hh]. unfold IsEmpty. rewrite Z.eqb_eq, Hc.
  destruct (slots p) as [|e c]; simpl; [done|]. destruct Hh as [-> _].
  pose proof (countPresent_nonneg c). split; [lia|done].
Qed.

Lemma wfq_first p e c : wfq p → slots p = e :: c → 0 ≤ firstPacket p.
Proof. intros [_ _ _ Hh] E. rewrite E in Hh. apply Hh. Qed.

Lemma LastPacket_spec p :
  wfq p → slots p ≠ [] → LastPacket p = firstPacket p + len (slots p) - 1.
Proof.
  intros Hw Hne. pose proof (wfq_IsEmpty p Hw) as He. pose proof (wfq_bound p Hw) as Hb.
  unfold LastPacket. destruct (IsEmpty p); [by destruct Hne; apply He|].
  rewrite (wfq_Len p Hw). destruct (slots p) as [|e c] eqn:E; [done|].
  pose proof (wfq_first p e c Hw E). rewrite len_cons in *. pose proof (len_nonneg c).
  unfold maxPacketNumber in Hb. rewrite i64_small by (unfold in_i64; lia). lia.
Qed.

(** The front slot, as the loops read and pop it. *)
Lemma front_slot r (e : entryWrapper) c :
  wf r → contents r = e :: c →
  Empty r = false ∧ Front r = Some (Z.of_nat (slot r 0)) ∧
  deref r (Z.of_nat (slot r 0)) = Some e ∧
  ∃ r', PopFront r = Some (r', e) ∧ wf r' ∧ contents r' = c.
Proof.
  intros Hw Hc. split.
  { destruct (Empty r) eqn:E; [|done]. apply Empty_spec in E; [|done]. congruence. }
  split; [apply Front_spec; [done|by rewrite Hc]|].
  split; [rewrite deref_slot; [by rewrite Hc|done|rewrite Hc; simpl; lia]|].
  by apply PopFront_spec.
Qed.

Lemma empty_slots r : wf r → contents r = @nil entryWrapper → Empty r = true.
Proof. intros Hw Hc. by apply Empty_spec. Qed.

Lemma clearupLoop_spec fuel p :
  wf (entries p) → (length (slots p) ≤ fuel)%nat →
  -1 ≤ firstPacket p → firstPacket p + len (slots p) ≤ maxPacketNumber →
  ∃ p', clearupLoop fuel p = Some p' ∧ wf (entries p') ∧
    slots p' = dropAbsent (slots p) ∧
    firstPacket p' = firstPacket p + len (slots p) - len (slots p') ∧
    numberOfPresentEntries p' = numberOfPresentEntries p.
Proof.
  revert p. induction fuel as [|fuel IH]; intros p Hw Hf H0 Hb; simpl.
  { destruct (slots p) eqn:E; simpl in *; [|lia]. eexists. rewrite E, len_nil. naive_solver lia. }
  destruct (slots p) as [|e c] eqn:E.
  { rewrite (empty_slots _ Hw E). eexists. rewrite E, len_nil. naive_solver lia. }
  destruct (front_slot _ _ _ Hw E) as (-> & -> & He & r' & Hp & Hw' & Hc). simpl.
  rewrite He. simpl. destruct (present e) eqn:Epr.
  { eexists. rewrite E. naive_solver lia. }
  rewrite Hp. simpl. rewrite len_cons in *. unfold maxPacketNumber in *. pose proof (len_nonneg c).
  rewrite i64_small by (unfold in_i64; lia).
  edestruct IH as (p' & Hp' & Hw'' & Hs & Hfp & Hn); [| | | |exists p'; split; [exact Hp'|]];
    unfold slots in *; cbn in *; rewrite ?Hc; try done; try lia.
  rewrite Hc in *. split_and!; try done; lia.
Qed.

Lemma clearup_spec p :
  wf (entries p) → -1 ≤ firstPacket p → firstPacket p + len (slots p) ≤ maxPacketNumber →
  (slots p = [] ∨ 0 ≤ firstPacket p) →
  numberOfPresentEntries p = countPresent (slots p) →
  ∃ p', clearup p = Some p' ∧ wfq p' ∧ (∀ k, lookup p' k = lookup p k) ∧
        (slots p' ≠ [] → firstPacket p' + len (slots p') = firstPacket p + len (slots p)).
Proof.
  intros Hw H0 Hb Hf Hn. unfold clearup.
  destruct (clearupLoop_spec (Z.to_nat (Len (entries p))) p)
    as (p' & -> & Hw' & Hs & Hfp & Hn'); try done.
  { rewrite <- (contents_length _ Hw). unfold slots, len. lia. }
  simpl. pose proof (dropAbsent_len (slots p)) as Hdl. rewrite <- Hs in Hdl.
  assert (Hview : ∀ k, lookup p' k = lookup p k).
  { intros k. unfold lookup. rewrite Hfp, Hs. apply dropAbsent_view. }
  assert (Hcount : numberOfPresentEntries p' = countPresent (slots p')).
  { by rewrite Hs, dropAbsent_count, Hn', Hn. }
  destruct (slots p') as [|e c] eqn:E.
  - rewrite (empty_slots _ Hw' E). eexists. split; [reflexivity|].
    unfold slots in *. split; [split; unfold slots; cbn; rewrite ?E; done|].
    split; [|by cbn; rewrite E]. intros k. rewrite <- Hview. unfold lookup, slots. cbn. by rewrite E.
  - destruct (front_slot _ _ _ Hw' E) as (-> & _). eexists. split; [reflexivity|].
    rewrite E. pose proof (len_nonneg (e :: c)).
    split; [split|split; [done|lia]]; rewrite ?E; try done; [lia|].
    split; [by eapply dropAbsent_head|]. destruct Hf as [Hf|Hf]; [by rewrite Hf in Hs|lia].
Qed.

(** ** The operations preserve the invariant and implement the map *)

Definition valid_pn (pn : Z) : Prop := 0 ≤ pn < maxPacketNumber.

Lemma new_spec size :
  0 ≤ size → ∃ p, newPacketNumberIndexedQueue size = Some p ∧ wfq p ∧ ∀ k, lookup p k = None.
Proof.
  intros Hs. unfold newPacketNumberIndexedQueue.
  destruct (Init_spec (T := entryWrapper) size Hs) as (r & -> & Hw & Hc). simpl.
  eexists. split; [reflexivity|]. split; [split; unfold slots; cbn; rewrite ?Hc; done|].
  intros k. unfold lookup, slots. cbn. by rewrite Hc.
Qed.

Lemma pushMissing_spec n r :
  wf r → ∃ r', pushMissing n r = Some r' ∧ wf r' ∧
               contents r' = contents r ++ replicate n zero_value.
Proof.
  revert r. induction n as [|n IH]; intros r Hw; simpl.
  { exists r. by rewrite app_nil_r. }
  destruct (PushBack_spec r zero_value Hw) as (r1 & -> & Hw1 & Hc1). simpl.
  destruct (IH r1 Hw1) as (r' & -> & Hw' & Hc'). exists r'.
  split_and!; try done. rewrite Hc', Hc1, <- app_assoc. done.
Qed.

Lemma countPresent_missing n : countPresent (replicate n zero_value) = 0.
Proof. induction n; simpl; lia. Qed.

Lemma view_missing f n k : view f (replicate n zero_value) k = None.
Proof. revert f. induction n; intros f; simpl; [done|]. by case_if as E. Qed.

Lemma view_snoc f c e k :
  view f (c ++ [mkEntryWrapper true e]) k
  = if k =? f + len c then Some e else view f c k.
Proof.
  rewrite view_app. cbn [view value present entry]. unfold value. cbn.
  case_ifs; b2p; try done; try lia. symmetry. apply view_ge. lia.
Qed.

Lemma Emplace_out_of_order p pn e :
  wfq p → slots p ≠ [] → pn ≤ LastPacket p → Emplace p pn (Some e) = Some (p, false).
Proof.
  intros Hw Hne Hpn. unfold Emplace. case_if as E1; [done|].
  destruct (IsEmpty p) eqn:E; [by apply wfq_IsEmpty in E|].
  by rewrite (proj2 (Z.leb_le _ _) Hpn).
Qed.

Lemma Emplace_inserts p pn e :
  wfq p → valid_pn pn → (slots p = [] ∨ LastPacket p < pn) →
  ∃ p', Emplace p pn (Some e) = Some (p', true) ∧ wfq p' ∧ slots p' ≠ [] ∧
        firstPacket p' + len (slots p') = pn + 1 ∧
        ∀ k, lookup p' k = if k =? pn then Some e else lookup p k.
Proof.
  intros Hw [Hp0 Hpm] Hc. unfold Emplace, invalidPacketNumber, maxPacketNumber in *.
  rewrite (proj2 (Z.eqb_neq pn (-1))) by lia.
  pose proof (wfq_IsEmpty p Hw) as Hie. pose proof (wfq_Len p Hw) as HL.
  destruct (IsEmpty p).
  - assert (E : slots p = []) by by apply Hie.
    destruct (PushBack_spec (entries p) (mkEntryWrapper true e)) as (r & -> & Hwr & Hcr);
      [apply Hw|]. fold (slots p) in Hcr. rewrite E in Hcr. simpl in *.
    eexists. split; [reflexivity|]. unfold lookup, slots. cbn. rewrite Hcr.
    split; [split; unfold slots, maxPacketNumber; cbn; rewrite ?Hcr; cbn; try done; unfold len; cbn; lia|].
    fold (slots p). rewrite E. split_and!; [done|unfold len; cbn; lia|done].
  - assert (Hne : slots p ≠ []) by (intros E; by apply Hie in E). destruct Hc as [|Hc]; [done|].
    rewrite (proj2 (Z.leb_gt _ _) Hc). rewrite LastPacket_spec in Hc by done.
    assert (Hf0 : 0 ≤ firstPacket p).
    { destruct (slots p) as [|x l] eqn:E; [done|by eapply wfq_first]. }
    pose proof (len_nonneg (slots p)). unfold FirstPacket. rewrite i64_small by (unfold in_i64; lia). rewrite HL.
    set (gap := pn - firstPacket p - len (slots p)).
    assert (Hm : ∃ r', (if 0 <? gap then pushMissing (Z.to_nat gap) (entries p)
                        else Some (entries p)) = Some r' ∧ wf r' ∧
                 contents r' = slots p ++ replicate (Z.to_nat gap) zero_value).
    { case_if as E; b2p; [apply pushMissing_spec, Hw|]. replace (Z.to_nat gap) with 0%nat by lia.
      exists (entries p). by rewrite app_nil_r; split_and!; [|apply Hw|]. }
    destruct Hm as (r1 & -> & Hw1 & Hc1). simpl.
    destruct (PushBack_spec r1 (mkEntryWrapper true e) Hw1) as (r & -> & Hwr & Hcr). simpl.
    assert (Hl1 : firstPacket p + len (contents r1) = pn).
    { rewrite Hc1, len_app. unfold len at 2. rewrite length_replicate. lia. }
    eexists. split; [reflexivity|]. unfold lookup, slots. cbn. rewrite Hcr.
    split; [|split_and!].
    + split; unfold slots, maxPacketNumber; cbn; rewrite ?Hcr; [done| | |].
      * rewrite countPresent_app, Hc1, countPresent_app, countPresent_missing, (wfq_count p Hw). cbn. lia.
      * rewrite len_app. unfold len at 2. cbn. lia.
      * rewrite Hc1. pose proof (wfq_head p Hw) as Hh. by destruct (slots p).
    + by destruct (contents r1).
    + rewrite len_app. unfold len at 2. cbn. lia.
    + intros k. rewrite view_snoc, Hl1. case_if as Ek; [done|]. rewrite Hc1, view_app.
      fold (slots p). case_if as Ev; [done|]. b2p. by rewrite view_missing, view_ge.
Qed.

Lemma getEntryWraper_spec p pn :
  wfq p → valid_pn pn →
  match lookup p pn with
  | None => getEntryWraper p pn = Some None
  | Some e => ∃ i : nat, pn = firstPacket p + Z.of_nat i ∧
      slots p !! i = Some (mkEntryWrapper true e) ∧
      getEntryWraper p pn = Some (Some (Z.of_nat (slot (entries p) i)))
  end.
Proof.
  intros Hw [Hp0 Hpm]. unfold getEntryWraper, invalidPacketNumber, maxPacketNumber in *.
  rewrite (proj2 (Z.eqb_neq pn (-1))) by lia. rewrite orb_false_l.
  pose proof (wfq_IsEmpty p Hw) as Hie. pose proof (wfq_Len p Hw) as HL. unfold lookup.
  destruct (slots p) as [|x l] eqn:E.
  { simpl. by rewrite (proj2 Hie eq_refl). }
  destruct (IsEmpty p); [destruct Hie as [Hie _]; by specialize (Hie eq_refl)|].
  pose proof (wfq_first p x l Hw E) as Hf0. rewrite <- E in *.
  rewrite orb_false_l. case_if as E1; b2p; [by rewrite view_lt|].
  rewrite i64_small by (unfold in_i64; lia). rewrite HL.
  case_if as E2; b2p; [rewrite view_ge by lia; done|].
  set (i := Z.to_nat (pn - firstPacket p)).
  replace (pn - firstPacket p) with (Z.of_nat i) by lia.
  assert (Hi : (i < length (contents (entries p)))%nat) by (unfold slots, len in *; lia).
  rewrite Offset_spec by (try apply Hw; done). simpl.
  rewrite deref_slot by (try apply Hw; done). fold (slots p) in *.
  replace (view (firstPacket p) (slots p) pn) with (slots p !! i ≫= value)
    by (rewrite <- (view_lookup (firstPacket p)); f_equal; lia).
  destruct (slots p !! i) as [[[] v]|] eqn:El; simpl; [|done|].
  - exists i. split_and!; [lia|done|done].
  - apply lookup_ge_None in El. lia.
Qed.

Lemma GetEntry_spec p pn : wfq p → valid_pn pn → GetEntry p pn = Some (lookup p pn).
Proof.
  intros Hw Hp. pose proof (getEntryWraper_spec p pn Hw Hp) as H. unfold GetEntry.
  destruct (lookup p pn) as [e|]; [|by rewrite H].
  destruct H as (i & _ & Hi & ->). simpl. rewrite deref_slot; [|apply Hw|].
  - fold (slots p). by rewrite Hi.
  - by eapply lookup_lt_Some.
Qed.

Lemma Remove_spec p pn :
  wfq p → valid_pn pn →
  ∃ p', Remove p pn = Some (p', lookup p pn) ∧ wfq p' ∧
    (∀ k, lookup p' k = if k =? pn then None else lookup p k) ∧
    (slots p' ≠ [] → firstPacket p' + len (slots p') = firstPacket p + len (slots p)).
Proof.
  intros Hw Hp. pose proof (getEntryWraper_spec p pn Hw Hp) as H. unfold Remove.
  destruct (lookup p pn) as [e|] eqn:El.
  2: { rewrite H. exists p. split_and!; try done. intros k. case_if as Ek; [|done]. b2p. by subst. }
  destruct H as (i & Hpn & Hi & ->). simpl.
  assert (Hlt : (i < length (contents (entries p)))%nat) by by eapply lookup_lt_Some.
  rewrite deref_slot by (try apply Hw; done). fold (slots p). rewrite Hi. simpl.
  destruct (store_slot (entries p) i (mkEntryWrapper false e)) as (r & -> & Hwr & Hcr);
    [apply Hw|done|]. fold (slots p) in Hcr. simpl.
  set (p1 := mkQueue r (numberOfPresentEntries p - 1) (firstPacket p)).
  assert (Hs1 : slots p1 = <[i := mkEntryWrapper false e]> (slots p)) by done.
  assert (Hl1 : len (slots p1) = len (slots p)) by (rewrite Hs1; unfold len; by rewrite length_insert).
  assert (Hn1 : numberOfPresentEntries p1 = countPresent (slots p1)).
  { rewrite Hs1, (countPresent_insert _ _ _ _ Hi) by done. cbn. rewrite (wfq_count p Hw). lia. }
  assert (Hv1 : ∀ k, lookup p1 k = if k =? pn then None else lookup p k).
  { intros k. unfold lookup. rewrite Hs1. subst pn. by apply view_insert. }
  destruct (slots p) as [|x l] eqn:E; [done|]. pose proof (wfq_first p x l Hw E) as Hf0.
  pose proof (wfq_bound p Hw) as Hb. rewrite E in Hb.
  change (FirstPacket _) with (firstPacket p). case_if as Ef; b2p.
  - destruct (clearup_spec p1) as (p' & -> & Hw' & Hv' & Hf'); try done; try (cbn; lia).
    simpl. exists p'. rewrite Hl1 in Hf'. split_and!; try done. intros k. by rewrite Hv'.
  - simpl. exists p1. split_and!; try done; [|by rewrite Hl1].
    split; rewrite ?Hl1; try done. rewrite Hs1. destruct i as [|i]; [lia|]. simpl.
    pose proof (wfq_head p Hw) as Hh. rewrite E in Hh. done.
Qed.

Lemma view_cons_tail f e c k :
  view (f + 1) c k = if k <? f + 1 then None else view f (e :: c) k.
Proof.
  simpl. case_if as E1; b2p; [by apply view_lt|]. rewrite (proj2 (Z.eqb_neq k f)) by lia. done.
Qed.

Lemma removeUpToLoop_spec fuel pn p :
  wf (entries p) → (length (slots p) ≤ fuel)%nat → (slots p = [] ∨ 0 ≤ firstPacket p) →
  firstPacket p + len (slots p) ≤ maxPacketNumber →
  numberOfPresentEntries p = countPresent (slots p) →
  ∃ p', removeUpToLoop fuel pn p = Some p' ∧ wf (entries p') ∧
    firstPacket p' + len (slots p') = firstPacket p + len (slots p) ∧
    firstPacket p ≤ firstPacket p' ∧
    numberOfPresentEntries p' = countPresent (slots p') ∧
    ∀ k, lookup p' k = if k <? pn then None else lookup p k.
Proof.
  revert p. induction fuel as [|fuel IH]; intros p Hw Hf H0 Hb Hn; simpl.
  { destruct (slots p) eqn:E; simpl in *; [|lia]. exists p. rewrite E.
    split_and!; try done. intros k. unfold lookup. rewrite E. by case_if as Ek. }
  destruct (slots p) as [|e c] eqn:E.
  { rewrite (empty_slots _ Hw E). exists p. rewrite E.
    split_and!; try done. intros k. unfold lookup. rewrite E. by case_if as Ek. }
  destruct H0 as [|H0]; [done|].
  destruct (front_slot _ _ _ Hw E) as (-> & -> & He & r' & Hp & Hw' & Hc). simpl.
  unfold invalidPacketNumber. rewrite (proj2 (Z.eqb_neq _ (-1))) by lia. simpl.
  case_if as Epn; b2p.
  2: { exists p. rewrite E. split_and!; try done. intros k. case_if as Ek; [|done]. b2p.
       unfold lookup. by apply view_lt; lia. }
  rewrite He. simpl. rewrite len_cons in *. unfold maxPacketNumber in *. pose proof (len_nonneg c).
  set (q := if present e then _ else p).
  assert (Hq : entries q = entries p ∧ firstPacket q = firstPacket p ∧
               numberOfPresentEntries q = countPresent c).
  { subst q. simpl in Hn. destruct (present e); cbn in *; split_and!; try done; lia. }
  destruct Hq as (Hqe & Hqf & Hqn). rewrite Hqe, Hp, Hqf. simpl.
  rewrite i64_small by (unfold in_i64; lia).
  edestruct (IH (mkQueue r' (numberOfPresentEntries q) (firstPacket p + 1)))
    as (p' & Hp' & Hw'' & Hl & Hfp & Hn' & Hv); unfold slots in *; cbn in *; rewrite ?Hc in *;
    try done; try lia.
  exists p'. split; [exact Hp'|]. split_and!; try done; try lia.
  intros k. rewrite Hv. unfold lookup, slots. cbn. rewrite Hc, E, (view_cons_tail _ e).
  cbn [view]. case_ifs; b2p; try done; lia.
Qed.

Lemma RemoveUpTo_spec p pn :
  wfq p →
  ∃ p', RemoveUpTo p pn = Some p' ∧ wfq p' ∧
    (∀ k, lookup p' k = if k <? pn then None else lookup p k) ∧
    (slots p' ≠ [] → firstPacket p' + len (slots p') = firstPacket p + len (slots p)).
Proof.
  intros Hw. unfold RemoveUpTo.
  assert (H0 : slots p = [] ∨ 0 ≤ firstPacket p).
  { destruct (slots p) as [|x l] eqn:E; [by left|right; by eapply wfq_first]. }
  assert (Hm : -1 ≤ firstPacket p).
  { pose proof (wfq_head p Hw) as Hh. unfold invalidPacketNumber in Hh. destruct (slots p); lia. }
  destruct (removeUpToLoop_spec (Z.to_nat (Len (entries p))) pn p)
    as (p1 & -> & Hw1 & Hl1 & Hf1 & Hn1 & Hv1); try done; try apply Hw.
  { rewrite (wfq_Len p Hw). unfold len. lia. }
  simpl. pose proof (wfq_bound p Hw).
  destruct (clearup_spec p1) as (p' & -> & Hw' & Hv' & Hf'); try done; try lia.
  { destruct (slots p1) as [|x1 l1] eqn:E1; [by left|right]. destruct H0 as [H0|]; [|lia].
    rewrite H0, len_nil, len_cons in Hl1. pose proof (len_nonneg l1).
    pose proof (wfq_head p Hw) as Hh. rewrite H0 in Hh. unfold invalidPacketNumber in Hh. lia. }
  exists p'. split_and!; try done; [intros k; by rewrite Hv', Hv1|]. intros Hne. rewrite Hf' by done. lia.
Qed.

(** ** Refinement of a finite map *)

(** The abstract queue: the entries, and the last number ever inserted. *)
Record pnmap := mkMap { smap : gmap Z T; slast : Z }.

Inductive qop :=
| QEmplace (pn : Z) (e : T)
| QGet (pn : Z)
| QRemove (pn : Z)
| QRemoveUpTo (pn : Z)
| QCount
| QLast.

Inductive qout :=
| QBool (b : bool)
| QEntry (e : option T)
| QInt (z : Z)
| QUnit.

Definition queue_op (p : packetNumberIndexedQueue) (o : qop)
  : option (packetNumberIndexedQueue * qout) :=
  match o with
  | QEmplace pn e => '(p, b) ← Emplace p pn (Some e); Some (p, QBool b)
  | QGet pn => e ← GetEntry p pn; Some (p, QEntry e)
  | QRemove pn => '(p, e) ← Remove p pn; Some (p, QEntry e)
  | QRemoveUpTo pn => p ← RemoveUpTo p pn; Some (p, QUnit)
  | QCount => Some (p, QInt (NumberOfPresentEntries p))
  | QLast => Some (p, QInt (LastPacket p))
  end.

Definition map_op (s : pnmap) (o : qop) : pnmap * qout :=
  match o with
  | QEmplace pn e =>
      if bool_decide (smap s = ∅) then (mkMap {[pn := e]} pn, QBool true)
      else if pn <=? slast s then (s, QBool false)
      else (mkMap (<[pn := e]> (smap s)) pn, QBool true)
  | QGet pn => (s, QEntry (smap s !! pn))
  | QRemove pn => (mkMap (delete pn (smap s)) (slast s), QEntry (smap s !! pn))
  | QRemoveUpTo pn => (mkMap (filter (λ kv, pn ≤ kv.1) (smap s)) (slast s), QUnit)
  | QCount => (s, QInt (Z.of_nat (size (smap s))))
  | QLast => (s, QInt (if bool_decide (smap s = ∅) then invalidPacketNumber else slast s))
  end.

Fixpoint queue_run (p : packetNumberIndexedQueue) (os : list qop) : option (list qout) :=
  match os with
  | [] => Some []
  | o :: os => '(p, x) ← queue_op p o; xs ← queue_run p os; Some (x :: xs)
  end.

Fixpoint map_run (s : pnmap) (os : list qop) : list qout :=
  match os with
  | [] => []
  | o :: os => let '(s, x) := map_op s o in x :: map_run s os
  end.

Definition qop_ok (o : qop) : Prop :=
  match o with
  | QEmplace pn _ | QGet pn | QRemove pn | QRemoveUpTo pn => valid_pn pn
  | QCount | QLast => True
  end.

Record implements (p : packetNumberIndexedQueue) (s : pnmap) : Prop := {
  impl_wfq : wfq p;
  impl_map : ∀ k, smap s !! k = lookup p k;
  impl_last : slots p ≠ [] → slast s + 1 = firstPacket p + len (slots p)
}.

Lemma head_lookup p : wfq p → slots p ≠ [] → is_Some (lookup p (firstPacket p)).
Proof.
  intros Hw Hne. pose proof (wfq_head p Hw) as Hh. unfold lookup.
  destruct (slots p) as [|e c]; [done|]. simpl. rewrite Z.eqb_refl. unfold value.
  by rewrite (proj1 Hh).
Qed.

Lemma slots_shrink p p' :
  wfq p' → (∀ k, is_Some (lookup p' k) → is_Some (lookup p k)) → slots p' ≠ [] → slots p ≠ [].
Proof.
  intros Hw Hv Hne E. destruct (Hv (firstPacket p') (head_lookup p' Hw Hne)) as [e He].
  unfold lookup in He. by rewrite E in He.
Qed.

Lemma impl_empty p s : implements p s → smap s = ∅ ↔ slots p = [].
Proof.
  intros [Hw Hm _]. split; intros E.
  - destruct (decide (slots p = [])) as [|Hne]; [done|].
    destruct (head_lookup p Hw Hne) as [e He]. by rewrite <- Hm, E, lookup_empty in He.
  - apply map_eq. intros k. rewrite Hm, lookup_empty. unfold lookup. by rewrite E.
Qed.

Lemma view_size c f (m : gmap Z T) :
  (∀ k, m !! k = view f c k) → Z.of_nat (size m) = countPresent c.
Proof.
  revert f m. induction c as [|e c IH]; intros f m Hm; simpl in *.
  - replace m with (∅ : gmap Z T) by (symmetry; apply map_eq; intros k; by rewrite Hm, lookup_empty).
    done.
  - assert (Hd : Z.of_nat (size (delete f m)) = countPresent c).
    { apply (IH (f + 1)). intros k. destruct (decide (k = f)) as [->|Hk].
      - rewrite lookup_delete_eq. symmetry. apply view_lt. lia.
      - rewrite lookup_delete_ne, Hm by done. by rewrite (proj2 (Z.eqb_neq k f)). }
    specialize (Hm f). rewrite Z.eqb_refl in Hm. unfold value in Hm.
    rewrite map_size_delete, Hm in Hd. destruct (present e); simpl in Hd; [|lia].
    assert (size m ≠ 0%nat) by (apply map_size_ne_0_lookup; naive_solver). lia.
Qed.

#[local] Arguments Emplace : simpl never.

Lemma queue_op_refines p s o :
  implements p s → qop_ok o →
  ∃ p', queue_op p o = Some (p', (map_op s o).2) ∧ implements p' (map_op s o).1.
Proof.
  intros Hi Ho. pose proof (impl_empty p s Hi) as He. destruct Hi as [Hw Hm Hl].
  destruct o as [pn e|pn|pn|pn| |]; simpl in *.
  - destruct (decide (smap s = ∅)) as [E|E];
      [rewrite bool_decide_true by done|rewrite bool_decide_false by done].
    + destruct (Emplace_inserts p pn e Hw Ho) as (p' & -> & Hw' & _ & Hl' & Hv'); [by left; apply He|].
      eexists. split; [done|]. split; simpl; [done| |intros _; lia]. intros k. rewrite Hv', <- Hm, E.
      case_if as Ek; b2p; [subst; by rewrite lookup_singleton_eq|by rewrite lookup_singleton_ne].
    + assert (Hne : slots p ≠ []) by by rewrite <- He. specialize (Hl Hne).
      case_if as El; b2p.
      * rewrite Emplace_out_of_order; [by eexists|done|done|rewrite LastPacket_spec by done; lia].
      * destruct (Emplace_inserts p pn e Hw Ho) as (p' & -> & Hw' & _ & Hl' & Hv').
        { right. rewrite LastPacket_spec by done. lia. }
        eexists. split; [done|]. split; simpl; [done| |intros _; lia]. intros k. rewrite Hv', <- Hm.
        case_if as Ek; b2p; [subst; by rewrite lookup_insert_eq|by rewrite lookup_insert_ne].
  - rewrite GetEntry_spec by done. simpl. exists p. by rewrite Hm.
  - destruct (Remove_spec p pn Hw Ho) as (p' & -> & Hw' & Hv' & Hl'). simpl. rewrite <- Hm.
    eexists. split; [done|]. split; simpl; [done| |].
    + intros k. rewrite Hv', <- Hm.
      case_if as Ek; b2p; [subst; by rewrite lookup_delete_eq|by rewrite lookup_delete_ne].
    + intros Hne. rewrite Hl' by done. apply Hl, (slots_shrink p p'); [done| |done].
      intros k. rewrite Hv'. by case_if as Ek.
  - destruct (RemoveUpTo_spec p pn Hw) as (p' & -> & Hw' & Hv' & Hl'). simpl.
    eexists. split; [done|]. split; simpl; [done| |].
    + intros k. rewrite Hv', <- Hm. case_if as Ek; b2p.
      * apply map_lookup_filter_None_2. right. simpl. intros. lia.
      * destruct (smap s !! k) eqn:E; [apply map_lookup_filter_Some_2|apply map_lookup_filter_None_2; by left];
          simpl; [done|lia].
    + intros Hne. rewrite Hl' by done. apply Hl, (slots_shrink p p'); [done| |done].
      intros k. rewrite Hv'. by case_if as Ek.
  - exists p. unfold NumberOfPresentEntries. rewrite (wfq_count p Hw).
    by rewrite (view_size (slots p) (firstPacket p) (smap s) Hm).
  - exists p. split; [|done]. do 3 f_equal. destruct (decide (smap s = ∅)) as [E|E].
    + rewrite bool_decide_true by done. unfold LastPacket.
      by rewrite (proj2 (wfq_IsEmpty p Hw) (proj1 He E)).
    + rewrite bool_decide_false by done. rewrite He in E. rewrite LastPacket_spec by done.
      specialize (Hl E). lia.
Qed.

Lemma queue_run_refines p s os :
  implements p s → Forall qop_ok os → queue_run p os = Some (map_run s os).
Proof.
  intros Hi Hos. revert p s Hi. induction Hos as [|o os Ho _ IH]; intros p s Hi; [done|]. simpl.
  destruct (queue_op_refines p s o Hi Ho) as (p' & -> & Hi'). simpl.
  destruct (map_op s o) as [s' x]. simpl in *. by rewrite (IH p' s' Hi').
Qed.


End PNQueue.
Arguments entryWrapper : clear implicits.
Arguments packetNumberIndexedQueue : clear implicits.

#[local] Instance zero_Z : GoZero Z := 0.


End PNQueue.
