(* ===== verification/WindowedFilter.v ===== *)
(** * WindowedFilter.v: Kathleen Nichols' windowed min/max filter
    (src/transports/transport_quic/congestion/bbr/windowed_filter.go)

    The filter is generic in the sample type and its comparator; its time type
    is instantiated at [roundTripCount] (uint64), the only one the program
    uses, so that [newTime - t] is a wrapping subtraction.  The slice
    [estimates] always has length 3 and is never shared: it is three fields. *)

From S2P Require Import Prelude.
From Stdlib Require Import ZArith Lia.
From stdpp Require Import base list option numbers.

Local Open Scope Z_scope.
Local Open Scope go_scope.

Module Filter.

Definition MaxFilter (a b : Z) : Z :=
  if b <? a then 1 else if a <? b then -1 else 0.

Definition MinFilter (a b : Z) : Z :=
  if a <? b then 1 else if b <? a then -1 else 0.

Section Filter.
Context {V : Type} `{!GoZero V}.

Record entry := mkEntry {
  sample : V;
  time : Z
}.

Record WindowedFilter := mkFilter {
  windowLength : Z;
  est0 : entry;
  est1 : entry;
  est2 : entry;
  comparator : V → V → Z
}.

#[export] Instance eta_filter : Eta WindowedFilter :=
  fun f => mkFilter (windowLength f) (est0 f) (est1 f) (est2 f) (comparator f).

Definition zeroEntry : entry := mkEntry zero_value 0.

Definition NewWindowedFilter (windowLength : Z) (comparator : V → V → Z) : WindowedFilter :=
  mkFilter windowLength zeroEntry zeroEntry zeroEntry comparator.

Definition SetWindowLength (f : WindowedFilter) (w : Z) : WindowedFilter :=
  f <| windowLength := w |>.

Definition GetBest (f : WindowedFilter) : V := sample (est0 f).
Definition GetSecondBest (f : WindowedFilter) : V := sample (est1 f).
Definition GetThirdBest (f : WindowedFilter) : V := sample (est2 f).

Definition Reset (f : WindowedFilter) (newSample : V) (newTime : Z) : WindowedFilter :=
  let f := f <| est2 := mkEntry newSample newTime |> in
  let f := f <| est1 := est2 f |> in
  f <| est0 := est1 f |>.

Definition Clear (f : WindowedFilter) : WindowedFilter :=
  f <| est0 := zeroEntry |> <| est1 := zeroEntry |> <| est2 := zeroEntry |>.

(** [newTime - e.time > bound], on uint64. *)
Definition older (newTime : Z) (e : entry) (bound : Z) : bool :=
  bound <? u64 (newTime - time e).

Definition Update (f : WindowedFilter) (newSample : V) (newTime : Z) : WindowedFilter :=
  let cmp := comparator f in
  if (cmp (sample (est0 f)) zero_value =? 0)
     || (0 <=? cmp newSample (sample (est0 f)))
     || older newTime (est2 f) (windowLength f)
  then Reset f newSample newTime
  else
    let new := mkEntry newSample newTime in
    let f :=
      if 0 <=? cmp newSample (sample (est1 f)) then
        let f := f <| est1 := new |> in f <| est2 := est1 f |>
      else if 0 <=? cmp newSample (sample (est2 f)) then f <| est2 := new |>
      else f in
    if older newTime (est0 f) (windowLength f) then
      let f := f <| est0 := est1 f |> in
      let f := f <| est1 := est2 f |> in
      let f := f <| est2 := new |> in
      if older newTime (est0 f) (windowLength f) then
        let f := f <| est0 := est1 f |> in
        f <| est1 := est2 f |>
      else f
    else if (cmp (sample (est1 f)) (sample (est0 f)) =? 0)
            && older newTime (est1 f) (Z.quot (windowLength f) 4) then
      let f := f <| est1 := new |> in
      f <| est2 := est1 f |>
    else if (cmp (sample (est2 f)) (sample (est1 f)) =? 0)
            && older newTime (est2 f) (Z.quot (windowLength f) 2) then
      f <| est2 := new |>
    else f.

(** ** What the filter computes *)

(** A comparator orders the samples: [cmp a b >= 0] when [a] is at least as
    good as [b]. *)
Class ComparatorLaws (cmp : V → V → Z) : Prop := {
  cmp_refl : ∀ a, cmp a a = 0;
  cmp_total : ∀ a b, cmp a b < 0 → 0 ≤ cmp b a
}.

(** The filter after a history of measurements, oldest first. *)
Definition feed (f : WindowedFilter) (h : list entry) : WindowedFilter :=
  foldl (λ f e, Update f (sample e) (time e)) f h.

(** [e] is a measurement of [h], and no later one is better. *)
Definition dominates (cmp : V → V → Z) (e : entry) (h : list entry) : Prop :=
  ∃ h1 h2, h = h1 ++ e :: h2 ∧ Forall (λ e', 0 ≤ cmp (sample e) (sample e')) h2.

Context (cmp : V → V → Z) `{!ComparatorLaws cmp}.

(** The state of a filter of window [w] fed with [h] up to time [now]. *)
Record tracks (w : Z) (f : WindowedFilter) (h : list entry) (now : Z) : Prop := {
  tr_cmp : comparator f = cmp;
  tr_win : windowLength f = w;
  tr_dom0 : dominates cmp (est0 f) h;
  tr_dom1 : dominates cmp (est1 f) h;
  tr_dom2 : dominates cmp (est2 f) h;
  tr_best : 0 ≤ cmp (sample (est0 f)) (sample (est1 f));
  tr_second : 0 ≤ cmp (sample (est1 f)) (sample (est2 f));
  tr_times : 0 ≤ time (est0 f) ≤ time (est1 f) ∧ time (est1 f) ≤ time (est2 f) ≤ now
}.

Lemma dominates_snoc e e' h :
  dominates cmp e h → 0 ≤ cmp (sample e) (sample e') → dominates cmp e (h ++ [e']).
Proof.
  intros (h1 & h2 & -> & Hh) He. exists h1, (h2 ++ [e']). split.
  - by rewrite <- app_assoc.
  - apply Forall_app; auto.
Qed.

Lemma dominates_new e h : dominates cmp e (h ++ [e]).
Proof. exists h, []. auto. Qed.

Lemma older_spec now e b : 0 ≤ time e ≤ now → in_u64 now → older now e b = (b <? now - time e).
Proof. intros He Hn. unfold older. rewrite u64_small; [done|]. unfold in_u64 in *. lia. Qed.

Lemma cmp_lt a b : ¬ 0 ≤ cmp a b → 0 ≤ cmp b a.
Proof. intros. apply cmp_total. lia. Qed.

Lemma cmp_self a : 0 ≤ cmp a a.
Proof. rewrite cmp_refl. lia. Qed.

#[local] Create HintDb filter.
#[local] Hint Resolve dominates_snoc dominates_new cmp_lt cmp_self : filter.

#[local] Ltac solve_filter :=
  cbn; auto with filter; try lia;
  solve [ lia | apply cmp_lt; lia
        | apply dominates_snoc; cbn; auto with filter; apply cmp_lt; lia ].

Lemma Reset_tracks w f h v t :
  comparator f = cmp → windowLength f = w → 0 ≤ w → 0 ≤ t →
  tracks w (Reset f v t) (h ++ [mkEntry v t]) t.
Proof. intros Hc Hw H0 Ht. split; cbn; auto with filter; lia. Qed.

(** The samples replaced by a better second or third best. *)
Definition replaceBetter (f : WindowedFilter) (v : V) (t : Z) : WindowedFilter :=
  if 0 <=? cmp v (sample (est1 f)) then f <| est1 := mkEntry v t |> <| est2 := mkEntry v t |>
  else if 0 <=? cmp v (sample (est2 f)) then f <| est2 := mkEntry v t |>
  else f.

Lemma replaceBetter_tracks w f h now v t :
  0 ≤ w → tracks w f h now → now ≤ t → t - time (est2 f) ≤ w →
  0 ≤ cmp (sample (est0 f)) v →
  tracks w (replaceBetter f v t) (h ++ [mkEntry v t]) t ∧
  t - time (est2 (replaceBetter f v t)) ≤ w ∧
  0 ≤ cmp (sample (est0 (replaceBetter f v t))) v ∧
  0 ≤ cmp (sample (est1 (replaceBetter f v t))) v ∧
  0 ≤ cmp (sample (est2 (replaceBetter f v t))) v.
Proof.
  intros H0 [Hc Hw D0 D1 D2 B S [T0 T1]] Ht Hold N0. unfold replaceBetter.
  case_if as E1; b2p; [|case_if as E2; b2p];
    (split; [split|split_and!]; solve_filter).
Qed.

Lemma Update_tracks w f h now v t :
  0 ≤ w → tracks w f h now → now ≤ t → in_u64 t →
  tracks w (Update f v t) (h ++ [mkEntry v t]) t ∧ t - time (est0 (Update f v t)) ≤ w.
Proof.
  intros H0 Htr Ht Hu. pose proof Htr as [Hc Hw _ _ _ _ _ [T0 T1]].
  unfold Update. cbv zeta. rewrite Hc, Hw.
  rewrite (older_spec t (est2 f)) by first [done|lia].
  case_if as E1; [split; [apply Reset_tracks; auto; lia|cbn; lia]|]. b2p.
  change (if 0 <=? cmp v (sample (est1 f)) then _ else _) with (replaceBetter f v t).
  destruct (replaceBetter_tracks w f h now v t) as (Htr1 & Hold & N0 & N1 & N2); try done; try lia.
  { apply cmp_lt. lia. }
  set (f1 := replaceBetter f v t) in *. clearbody f1.
  destruct Htr1 as [Hc1 Hw1 D0 D1 D2 B S [T0' T1']]. rewrite Hw1.
  rewrite (older_spec t (est0 f1)), (older_spec t (est1 f1)), (older_spec t (est2 f1)) by first [done|lia].
  case_if as E2; b2p.
  - cbn. rewrite Hw1.
    case_if as E3; b2p; (split; [split|]; solve_filter).
  - case_if as E3; b2p; [|case_if as E4; b2p];
      (split; [split|]; solve_filter).
Qed.

(** Measurements come with non-decreasing uint64 times. *)
Fixpoint timed (now : Z) (h : list entry) : Prop :=
  match h with
  | [] => True
  | e :: h => now ≤ time e ∧ in_u64 (time e) ∧ timed (time e) h
  end.

Lemma feed_tracks w h f h0 now :
  0 ≤ w → tracks w f h0 now → now - time (est0 f) ≤ w → timed now h →
  let now' := default now (time <$> list.last h) in
  tracks w (feed f h) (h0 ++ h) now' ∧ now' - time (est0 (feed f h)) ≤ w.
Proof.
  intros H0. revert f h0 now. induction h as [|[v t] h IH]; intros f h0 now Htr Hwin Hh.
  { by rewrite app_nil_r. }
  destruct Hh as (Ht & Hu & Hh). destruct (Update_tracks w f h0 now v t) as [Htr' Hwin']; try done.
  specialize (IH _ _ _ Htr' Hwin' Hh). rewrite <- app_assoc in IH.
  cbn in *. destruct h as [|e h]; [done|]. cbn in *. destruct (list.last (e :: h)) eqn:E; [done|].
  by apply last_None in E.
Qed.

(** The windowed filter computes what it promises.  After any non-empty
    sequence of measurements with non-decreasing times, the best estimate is one
    of the measurements, it was taken no longer than a window ago, and no
    measurement that arrived after it is better; the second and third estimates
    have the same property, are no better than their predecessor and no older. *)
Theorem windowed_filter_correct (w : Z) (e : entry) (h : list entry) :
  0 ≤ w → timed 0 (e :: h) →
  let f := feed (NewWindowedFilter w cmp) (e :: h) in
  let now := default (time e) (time <$> list.last h) in
  tracks w f (e :: h) now ∧ now - time (est0 f) ≤ w.
Proof.
  intros H0 (Ht & Hu & Hh). simpl. destruct e as [v t]. simpl in *.
  assert (E : Update (NewWindowedFilter w cmp) v t = Reset (NewWindowedFilter w cmp) v t).
  { unfold Update. cbn. by rewrite cmp_refl. }
  rewrite E. apply (feed_tracks w h _ [mkEntry v t] t); auto; [|cbn; lia].
  apply (Reset_tracks w _ []); auto.
Qed.

End Filter.
Arguments entry : clear implicits.
Arguments WindowedFilter : clear implicits.

#[export] Instance MaxFilter_laws : ComparatorLaws MaxFilter.
Proof. split; intros; unfold MaxFilter in *; case_all; b2p; lia. Qed.

#[export] Instance MinFilter_laws : ComparatorLaws MinFilter.
Proof. split; intros; unfold MinFilter in *; case_all; b2p; lia. Qed.

#[local] Instance zero_Z : GoZero Z := 0.

Lemma windowed_filter_correct_witness :
  let h := [mkEntry 9 0; mkEntry 5 1; mkEntry 7 2; mkEntry 3 6; mkEntry 2 9; mkEntry 1 11] in
  let f := feed (NewWindowedFilter 8 MaxFilter) h in
  tracks MaxFilter 8 f h 11 ∧ 11 - time (est0 f) ≤ 8 ∧ GetBest f = 3.
Proof.
  intros h f.
  destruct (windowed_filter_correct MaxFilter 8 (mkEntry 9 0)
    [mkEntry 5 1; mkEntry 7 2; mkEntry 3 6; mkEntry 2 9; mkEntry 1 11]) as [H1 H2].
  - lia.
  - cbn. unfold in_u64, MaxUint64. lia.
  - split; [exact H1|]. split; [exact H2|]. vm_compute. reflexivity.
Defined.

End Filter.
