(* ===== verification/QuicGo.v ===== *)
(** * QuicGo.v: what the congestion controllers use of quic-go

    quic-go (github.com/apernet/quic-go) is a third-party package: its
    constants and the operations of its [monotime.Time] are members of the class
    [QuicGo], and what the theorems rely on is the class [QuicGoLaws].
    [congestion.ByteCount], [congestion.PacketNumber], [monotime.Time] and
    [time.Duration] are 64-bit signed integers and are modelled by [Z].  The
    RTT statistics ([congestion.RTTStatsProvider]) are passed by value to the
    operations that read them. *)

From S2P Require Import Prelude.
From Stdlib Require Import ZArith Lia.
From stdpp Require Import base numbers.

Local Open Scope Z_scope.

Class QuicGo := {
  InitialPacketSize : Z;
  MinInitialPacketSize : Z;
  MaxPacketBufferSize : Z;
  MaxCongestionWindowPackets : Z;
  PacketsPerConnectionID : Z;
  MinPacingDelay : Z;
  mtSub : Z → Z → Z;         (* t.Sub(u) *)
  mtAdd : Z → Z → Z;         (* t.Add(d) *)
  mtAfter : Z → Z → bool;    (* t.After(u) *)
  mtBefore : Z → Z → bool;   (* t.Before(u) *)
  mtIsZero : Z → bool
}.

(** Monotonic times are nanoseconds since the start of the process; as long as
    the results fit, the operations are those of the integers. *)
Class QuicGoLaws (Q : QuicGo) : Prop := {
  mtSub_spec : ∀ t u, in_i64 (t - u) → mtSub t u = t - u;
  mtAdd_spec : ∀ t d, in_i64 (t + d) → mtAdd t d = t + d;
  mtAfter_spec : ∀ t u, mtAfter t u = (u <? t);
  mtBefore_spec : ∀ t u, mtBefore t u = (t <? u);
  mtIsZero_spec : ∀ t, mtIsZero t = (t =? 0);
  InitialPacketSize_range : 0 < InitialPacketSize ≤ 65535;
  MinInitialPacketSize_range : 0 < MinInitialPacketSize ≤ InitialPacketSize;
  MaxPacketBufferSize_range : InitialPacketSize ≤ MaxPacketBufferSize ≤ 65535;
  MaxCongestionWindowPackets_range : 32 ≤ MaxCongestionWindowPackets ≤ 2 ^ 32;
  PacketsPerConnectionID_range : 0 < PacketsPerConnectionID ≤ 2 ^ 32;
  MinPacingDelay_range : 0 < MinPacingDelay ≤ 10 ^ 7
}.

(** Values for the examples. *)
Definition quicGoExample : QuicGo := {|
  InitialPacketSize := 1280;
  MinInitialPacketSize := 1200;
  MaxPacketBufferSize := 1452;
  MaxCongestionWindowPackets := 10000;
  PacketsPerConnectionID := 10000;
  MinPacingDelay := 1000000;
  mtSub := λ t u, i64 (t - u);
  mtAdd := λ t d, i64 (t + d);
  mtAfter := λ t u, u <? t;
  mtBefore := λ t u, t <? u;
  mtIsZero := λ t, t =? 0
|}.

Lemma quicGoExample_laws : QuicGoLaws quicGoExample.
Proof. split; cbn; try done; intros; try lia; by apply i64_small. Qed.
