(* ===== verification/GoFloat.v ===== *)
(** * GoFloat.v: IEEE 754 binary64

    Go's [float64] is modelled by the executable reference semantics of the
    Standard Library ([SpecFloat]) at precision 53 and exponent bound 1024. *)

From S2P Require Import Prelude.
From Stdlib Require Import ZArith Lia.
From Stdlib Require Import SpecFloat.
From stdpp Require Import base numbers.

Local Open Scope Z_scope.

Module GoFloat.

Definition prec : Z := 53.
Definition emax : Z := 1024.

Abbreviation float64 := spec_float.

Definition fmul : float64 → float64 → float64 := SFmul prec emax.
Definition fdiv : float64 → float64 → float64 := SFdiv prec emax.
Definition fadd : float64 → float64 → float64 := SFadd prec emax.
Definition fsub : float64 → float64 → float64 := SFsub prec emax.
Definition flt : float64 → float64 → bool := SFltb.
Definition fle : float64 → float64 → bool := SFleb.
Definition feq : float64 → float64 → bool := SFeqb.

(** [float64(z)] for an integer [z]: round to nearest, ties to even. *)
Definition f64_of_Z (z : Z) : float64 := binary_normalize prec emax z 0 false.

(** The constant [n/d] of the source, correctly rounded ([n], [d] below [2^53]). *)
Definition f64_const (n d : Z) : float64 := fdiv (f64_of_Z n) (f64_of_Z d).

(** The integer part of a finite number, rounding towards zero. *)
Definition ftrunc (f : float64) : option Z :=
  match f with
  | S754_zero _ => Some 0
  | S754_finite s m e =>
      let v := if 0 <=? e then Z.pos m * 2 ^ e else Z.pos m / 2 ^ (- e) in
      Some (if s then - v else v)
  | _ => None
  end.

(** The Go specification leaves the conversion of an out-of-range float to an
    integer type to the implementation: it is a parameter. *)
Class FloatConv := {
  float_oor_i64 : float64 → Z;
  float_oor_u64 : float64 → Z
}.

Definition i64_of_f64 `{!FloatConv} (f : float64) : Z :=
  match ftrunc f with
  | Some z => if (- 2 ^ 63 <=? z) && (z <? 2 ^ 63) then z else i64 (float_oor_i64 f)
  | None => i64 (float_oor_i64 f)
  end.

Definition u64_of_f64 `{!FloatConv} (f : float64) : Z :=
  match ftrunc f with
  | Some z => if (0 <=? z) && (z <? 2 ^ 64) then z else u64 (float_oor_u64 f)
  | None => u64 (float_oor_u64 f)
  end.

Lemma i64_of_f64_range `{!FloatConv} f : in_i64 (i64_of_f64 f).
Proof.
  unfold i64_of_f64. destruct (ftrunc f); [|apply i64_range].
  case_if as E; [|apply i64_range]. b2p. unfold in_i64. lia.
Qed.

Lemma u64_of_f64_range `{!FloatConv} f : in_u64 (u64_of_f64 f).
Proof.
  unfold u64_of_f64. destruct (ftrunc f); [|apply u64_range].
  case_if as E; [|apply u64_range]. b2p. unfold in_u64. lia.
Qed.

End GoFloat.
