(* ===== verification/Pacer.v ===== *)
(** * Pacer.v: the token-bucket pacer
    (src/transports/transport_quic/congestion/common/pacer.go)

    The closure [getBandwidth] is called for its value only; each operation
    takes the value it returns, [bw] (bytes per second). *)

From S2P Require Import Prelude QuicGo.
From Stdlib Require Import ZArith Lia.
From stdpp Require Import base list option numbers.

Local Open Scope Z_scope.
Local Open Scope go_scope.

Module Pacer.
Section Pacer.
Context `{Q : !QuicGo}.

Definition maxBurstPackets : Z := 10.
Definition maxBurstPacingDelayMultiplier : Z := 4.

Record Pacer := mkPacer {
  budgetAtLastSent : Z;
  maxDatagramSize : Z;
  lastSentTime : Z
}.

#[export] Instance eta_Pacer : Eta Pacer :=
  fun p => mkPacer (budgetAtLastSent p) (maxDatagramSize p) (lastSentTime p).

Definition NewPacer : Pacer :=
  mkPacer (maxBurstPackets * InitialPacketSize) InitialPacketSize 0.

Definition maxBurstSize (p : Pacer) (bw : Z) : Z :=
  Z.max
    (Z.quot (i64 (i64 (maxBurstPacingDelayMultiplier * MinPacingDelay) * bw)) (10 ^ 9))
    (i64 (maxBurstPackets * maxDatagramSize p)).

Definition Budget (p : Pacer) (bw now : Z) : Z :=
  if mtIsZero (lastSentTime p) then maxBurstSize p bw
  else
    let budget :=
      i64 (budgetAtLastSent p + Z.quot (i64 (bw * mtSub now (lastSentTime p))) (10 ^ 9)) in
    let budget := if budget <? 0 then 2 ^ 62 - 1 else budget in
    Z.min (maxBurstSize p bw) budget.

Definition SentPacket (p : Pacer) (bw sendTime size : Z) : Pacer :=
  let budget := Budget p bw sendTime in
  let p := if budget <? size then p <| budgetAtLastSent := 0 |>
           else p <| budgetAtLastSent := i64 (budget - size) |> in
  p <| lastSentTime := sendTime |>.

(** The division by a zero bandwidth panics. *)
Definition TimeUntilSend (p : Pacer) (bw : Z) : option Z :=
  if maxDatagramSize p <=? budgetAtLastSent p then Some 0
  else
    let diff := u64 (10 ^ 9 * u64 (maxDatagramSize p - budgetAtLastSent p)) in
    let bw := u64 bw in
    if bw =? 0 then None
    else
      let d := diff `div` bw in
      let d := if 0 <? diff `mod` bw then u64 (d + 1) else d in
      Some (mtAdd (lastSentTime p) (Z.max MinPacingDelay (i64 d))).

Definition SetMaxDatagramSize (p : Pacer) (s : Z) : Pacer :=
  p <| maxDatagramSize := s |>.

(** ** Bounds *)

Context `{L : !QuicGoLaws Q}.

Record wfp (p : Pacer) : Prop := {
  wfp_mds : 0 < maxDatagramSize p ≤ 65535;
  wfp_budget : 0 ≤ budgetAtLastSent p < 2 ^ 62
}.

(** Up to 100 gigabytes per second. *)
Definition bw_ok (bw : Z) : Prop := 0 ≤ bw ≤ 10 ^ 11.

Lemma wfp_new : wfp NewPacer.
Proof.
  pose proof InitialPacketSize_range. split; cbn; unfold maxBurstPackets; lia.
Qed.

Lemma maxBurst_range p bw :
  wfp p → bw_ok bw → 10 * maxDatagramSize p ≤ maxBurstSize p bw ≤ 4 * 10 ^ 9.
Proof.
  intros [Hm _] Hb. unfold maxBurstSize, maxBurstPacingDelayMultiplier, maxBurstPackets, bw_ok in *.
  pose proof MinPacingDelay_range.
  rewrite (i64_small (4 * MinPacingDelay)), (i64_small (10 * maxDatagramSize p)) by (unfold in_i64; lia).
  rewrite i64_small by (unfold in_i64; nia). rewrite Z.quot_div_nonneg by nia.
  split; [lia|]. apply Z.max_lub; [|lia]. apply Z.div_le_upper_bound; nia.
Qed.

(** The budget accrued since the last packet, before it is capped. *)
Definition accrued (p : Pacer) (bw now : Z) : Z :=
  let budget :=
    i64 (budgetAtLastSent p + Z.quot (i64 (bw * mtSub now (lastSentTime p))) (10 ^ 9)) in
  if budget <? 0 then 2 ^ 62 - 1 else budget.

Lemma accrued_nonneg p bw now : 0 ≤ accrued p bw now.
Proof. unfold accrued. case_if as E; b2p; lia. Qed.

Lemma Budget_range p bw now :
  wfp p → bw_ok bw → 0 ≤ Budget p bw now ≤ maxBurstSize p bw.
Proof.
  intros Hw Hb. pose proof (maxBurst_range p bw Hw Hb). pose proof (wfp_mds p Hw).
  unfold Budget. fold (accrued p bw now). pose proof (accrued_nonneg p bw now).
  case_if as E; lia.
Qed.

Lemma SentPacket_wfp p bw t size :
  wfp p → bw_ok bw → 0 ≤ size → wfp (SentPacket p bw t size).
Proof.
  intros Hw Hb Hs. pose proof (Budget_range p bw t Hw Hb) as HB.
  pose proof (maxBurst_range p bw Hw Hb). destruct Hw as [Hm Hbud].
  unfold SentPacket. case_if as E; b2p; split; cbn; try lia.
  rewrite i64_small by (unfold in_i64; lia). lia.
Qed.

Lemma i64_le z : - 2 ^ 63 ≤ z → i64 z ≤ z.
Proof. intros H. unfold i64. pose proof (Z.mod_le (z + 2 ^ 63) (2 ^ 64)). lia. Qed.

Lemma quot_range z : in_i64 z → - 10 ^ 10 ≤ Z.quot z (10 ^ 9) ≤ 10 ^ 10.
Proof.
  intros Hz. unfold in_i64 in Hz. pose proof (Z.quot_rem' z (10 ^ 9)).
  pose proof (Z.rem_bound_abs z (10 ^ 9) ltac:(lia)). lia.
Qed.

(** Whatever the elapsed time, wrapped products included, no more budget than
    the bandwidth allows is accrued. *)
Lemma Budget_accrual p bw now :
  wfp p → bw_ok bw → lastSentTime p ≠ 0 → 0 ≤ lastSentTime p ≤ now → now < 2 ^ 63 →
  10 ^ 9 * (Budget p bw now - budgetAtLastSent p) ≤ bw * (now - lastSentTime p).
Proof.
  intros Hw Hb H0 Ht Hn. pose proof (maxBurst_range p bw Hw Hb) as HM.
  destruct Hw as [_ Hbud]. unfold Budget, bw_ok in *.
  rewrite mtIsZero_spec, (proj2 (Z.eqb_neq _ _) H0). rewrite mtSub_spec by (unfold in_i64; lia).
  set (M := maxBurstSize p bw) in *. clearbody M. set (x := bw * (now - lastSentTime p)).
  assert (Hx : 0 ≤ x) by nia. clearbody x.
  pose proof (i64_range x) as Hr. pose proof (i64_le x ltac:(lia)) as Hle.
  pose proof (quot_range _ Hr) as Hq. rewrite (i64_small (_ + _)) by (unfold in_i64; lia).
  pose proof (Z.quot_rem' (i64 x) (10 ^ 9)). pose proof (Z.rem_bound_abs (i64 x) (10 ^ 9) ltac:(lia)).
  destruct (Z_lt_le_dec x (2 ^ 63)) as [Hs|Hs].
  - assert (Ex : i64 x = x) by (apply i64_small; unfold in_i64; lia). rewrite Ex in *.
    pose proof (Z.rem_nonneg x (10 ^ 9) ltac:(lia) Hx).
    pose proof (Z.quot_pos x (10 ^ 9) Hx ltac:(lia)). case_if as E; b2p; lia.
  - destruct (Z_lt_le_dec (i64 x) 0) as [Hneg|Hpos].
    + lia.
    + pose proof (Z.rem_nonneg (i64 x) (10 ^ 9) ltac:(lia) Hpos).
      pose proof (Z.quot_pos (i64 x) (10 ^ 9) Hpos ltac:(lia)). case_if as E; b2p; lia.
Qed.

(** ** Conformance *)

(** A packet: its send time and its size. *)
Abbreviation packet := (Z * Z)%type.

Definition send_all (bw : Z) (p : Pacer) (l : list packet) : Pacer :=
  foldl (λ p '(t, size), SentPacket p bw t size) p l.

(** The packets respect the pacer: times do not decrease, and each packet fits
    in the budget the pacer has when it is sent. *)
Fixpoint paced (bw : Z) (p : Pacer) (now : Z) (l : list packet) : Prop :=
  match l with
  | [] => True
  | (t, size) :: l =>
      now ≤ t < 2 ^ 63 ∧ 0 ≤ size ≤ Budget p bw t ∧ paced bw (SentPacket p bw t size) t l
  end.

Fixpoint total (l : list packet) : Z :=
  match l with [] => 0 | (_, size) :: l => size + total l end.

Definition end_time (now : Z) (l : list packet) : Z :=
  default now (fst <$> list.last l).

Lemma end_time_cons now t s l : end_time now ((t, s) :: l) = end_time t l.
Proof.
  unfold end_time. rewrite last_cons. by destruct (list.last l).
Qed.

Lemma SentPacket_fits p bw t size :
  wfp p → bw_ok bw → 0 ≤ size ≤ Budget p bw t →
  budgetAtLastSent (SentPacket p bw t size) = Budget p bw t - size ∧
  maxBurstSize (SentPacket p bw t size) bw = maxBurstSize p bw ∧
  lastSentTime (SentPacket p bw t size) = t.
Proof.
  intros Hw Hb Hs. pose proof (Budget_range p bw t Hw Hb). pose proof (maxBurst_range p bw Hw Hb).
  unfold SentPacket. rewrite (proj2 (Z.ltb_ge _ _)) by lia. cbn.
  rewrite i64_small by (unfold in_i64; lia). done.
Qed.

Lemma paced_total bw p l :
  wfp p → bw_ok bw → 0 < lastSentTime p → paced bw p (lastSentTime p) l →
  10 ^ 9 * total l ≤
    10 ^ 9 * budgetAtLastSent p + bw * (end_time (lastSentTime p) l - lastSentTime p).
Proof.
  intros Hw Hb. revert p Hw. induction l as [|[t size] l IH]; intros p Hw H0 Hl.
  { pose proof (wfp_budget p Hw). unfold end_time. cbn. lia. }
  destruct Hl as (Ht & Hs & Hl). rewrite end_time_cons. cbn [total].
  destruct (SentPacket_fits p bw t size Hw Hb Hs) as (Eb & _ & Et).
  pose proof (Budget_accrual p bw t Hw Hb ltac:(lia) ltac:(lia) ltac:(lia)).
  specialize (IH (SentPacket p bw t size) (SentPacket_wfp p bw t size Hw Hb ltac:(lia))).
  rewrite Eb, Et in IH. specialize (IH ltac:(lia) Hl). lia.
Qed.

(** The pacer is a token bucket: from a fresh pacer, packets that are sent
    only when they fit in [Budget] never carry more bytes than one maximum burst
    plus the bandwidth times the elapsed time, however long the idle periods
    between them are (the accrual arithmetic may wrap around). *)
Theorem pacer_conformance (bw t size : Z) (l : list packet) :
  bw_ok bw → 0 < t → paced bw NewPacer t ((t, size) :: l) →
  10 ^ 9 * total ((t, size) :: l) ≤
    10 ^ 9 * maxBurstSize NewPacer bw + bw * (end_time t l - t).
Proof.
  intros Hb H0 (Ht & Hs & Hl). pose proof wfp_new as Hw. cbn [total].
  destruct (SentPacket_fits NewPacer bw t size Hw Hb Hs) as (Eb & _ & Et).
  pose proof (Budget_range NewPacer bw t Hw Hb).
  pose proof (paced_total bw (SentPacket NewPacer bw t size) l
    (SentPacket_wfp _ bw t size Hw Hb ltac:(lia)) Hb) as IH.
  rewrite Eb, Et in IH. specialize (IH H0 Hl). lia.
Qed.

(** ** Waking up *)

Lemma ceil_spec a b d :
  0 ≤ a → 0 < b →
  (if 0 <? a `mod` b then a `div` b + 1 else a `div` b) ≤ d ↔ a ≤ b * d.
Proof.
  intros Ha Hb. pose proof (Z.div_mod a b ltac:(lia)). pose proof (Z.mod_pos_bound a b Hb).
  case_if as E; b2p; nia.
Qed.

(** The wake-up time is right: when the budget left is below a datagram,
    [TimeUntilSend] returns a time after the last packet from which on there is
    budget for a full datagram, and it is the first such time, unless the minimum
    pacing delay postpones it (as long as the product of the bandwidth and the
    elapsed time fits in 63 bits). *)
Theorem pacer_wakeup (p : Pacer) (bw now : Z) :
  wfp p → 0 < bw → bw_ok bw → budgetAtLastSent p < maxDatagramSize p →
  0 < lastSentTime p ≤ now → now < 2 ^ 62 → bw * (now - lastSentTime p) < 2 ^ 63 →
  ∃ w, TimeUntilSend p bw = Some w ∧ lastSentTime p < w ∧
    (w ≤ now → maxDatagramSize p ≤ Budget p bw now) ∧
    (maxDatagramSize p ≤ Budget p bw now → lastSentTime p + MinPacingDelay ≤ now → w ≤ now).
Proof.
  intros Hw Hpos Hb Hlt Ht Hn Hov. pose proof (maxBurst_range p bw Hw Hb) as HM.
  destruct Hw as [Hm Hbud]. pose proof MinPacingDelay_range as HP.
  set (need := maxDatagramSize p - budgetAtLastSent p). unfold bw_ok in Hb.
  assert (Hneed : 0 < need ≤ 65535) by lia.
  unfold TimeUntilSend. rewrite (proj2 (Z.leb_gt _ _)) by lia. fold need.
  rewrite (u64_small need), (u64_small bw), (u64_small (10 ^ 9 * need)) by (unfold in_u64; lia).
  rewrite (proj2 (Z.eqb_neq bw 0)) by lia.
  set (d := if 0 <? _ then _ else _).
  assert (Hd : ∀ e, d ≤ e ↔ 10 ^ 9 * need ≤ bw * e).
  { intros e. rewrite <- (ceil_spec (10 ^ 9 * need) bw e) by lia. subst d.
    rewrite u64_small; [done|]. unfold in_u64.
    pose proof (Z.div_le_upper_bound (10 ^ 9 * need) bw (10 ^ 9 * need) ltac:(lia) ltac:(nia)).
    pose proof (Z.div_pos (10 ^ 9 * need) bw ltac:(lia) ltac:(lia)). lia. }
  clearbody d. assert (Hd0 : 0 ≤ d ≤ 10 ^ 9 * 65535).
  { split; [|apply Hd; nia]. destruct (Z_lt_le_dec d 0) as [Hdn|]; [|done].
    assert (10 ^ 9 * need ≤ bw * d) by (apply Hd; lia). nia. }
  rewrite (i64_small d) by (unfold in_i64; lia).
  rewrite mtAdd_spec by (unfold in_i64; lia). eexists. split; [reflexivity|]. split; [lia|].
  assert (HB : maxDatagramSize p ≤ Budget p bw now ↔ d ≤ now - lastSentTime p).
  { rewrite Hd. unfold Budget. rewrite mtIsZero_spec, (proj2 (Z.eqb_neq _ _)) by lia.
    rewrite mtSub_spec by (unfold in_i64; lia). set (x := bw * _) in *.
    assert (0 ≤ x) by (subst x; nia). clearbody x.
    rewrite (i64_small x) by (unfold in_i64; lia). rewrite Z.quot_div_nonneg by lia.
    pose proof (Z.div_mod x (10 ^ 9) ltac:(lia)). pose proof (Z.mod_pos_bound x (10 ^ 9) ltac:(lia)).
    rewrite (i64_small (_ + _)) by (unfold in_i64; lia). rewrite (proj2 (Z.ltb_ge _ _)) by lia. lia. }
  split; intros; [apply HB|apply HB in H]; lia.
Qed.

(** The guard against overflow in [Budget] only sees results that wrapped to a
    negative number: after an idle period of about 18.4 seconds at one gigabyte
    per second the wrapped product is small and positive, and no budget has
    accrued. *)
Theorem budget_wraps_to_zero (now : Z) :
  mtSub now 1 = 18446744074 →
  Budget (mkPacer 0 1280 1) (10 ^ 9) now = 0.
Proof.
  intros H. unfold Budget. rewrite mtIsZero_spec. cbn [lastSentTime budgetAtLastSent].
  rewrite H. change (1 =? 0) with false. cbv iota.
  destruct (maxBurst_range (mkPacer 0 1280 1) (10 ^ 9)) as [HM _].
  { split; cbn; lia. }
  { unfold bw_ok. lia. }
  cbn [maxDatagramSize] in HM.
  assert (E : i64 (0 + Z.quot (i64 (10 ^ 9 * 18446744074)) (10 ^ 9)) = 0) by (vm_compute; reflexivity).
  rewrite E. change (0 <? 0) with false. cbv iota. lia.
Qed.

End Pacer.

Lemma pacer_conformance_witness :
  let _ := quicGoExample in
  let l := [(1000, 12800); (500001000, 500)] in
  10 ^ 9 * total l ≤ 10 ^ 9 * maxBurstSize NewPacer 1000 + 1000 * (500001000 - 1000).
Proof.
  intros Q l. pose proof quicGoExample_laws as L.
  apply (pacer_conformance (Q := quicGoExample) 1000 1000 12800 [(500001000, 500)]).
  - unfold bw_ok. lia.
  - lia.
  - vm_compute. intuition congruence.
Defined.

Lemma pacer_wakeup_witness :
  let _ := quicGoExample in
  ∃ w, TimeUntilSend (mkPacer 280 1280 1000) 1000000 = Some w ∧ 1000 < w ∧
    (w ≤ 2000000 → 1280 ≤ Budget (mkPacer 280 1280 1000) 1000000 2000000).
Proof.
  intros Q. pose proof quicGoExample_laws as L.
  destruct (pacer_wakeup (Q := quicGoExample) (mkPacer 280 1280 1000) 1000000 2000000)
    as (w & H1 & H2 & H3 & _); cbn; unfold bw_ok; try lia.
  - split; cbn; lia.
  - exists w. split; [exact H1|]. split; [exact H2|exact H3].
Defined.

End Pacer.
