(* ===== verification/Sampler.v ===== *)
(** * Sampler.v: bandwidth sampling
    (src/transports/transport_quic/congestion/bbr/bandwidth_sampler.go and
    bandwidth.go)

    The sampler owns its connection-state queue, its A0 candidates and its
    ack-height tracker (no other component holds a pointer to them), so the
    pointers of the source are fields here.  An operation returns [None] where
    the Go code would panic (a division by zero, an index out of range). *)

From S2P Require Import Prelude GoFloat RingBuffer PacketQueue WindowedFilter QuicGo.
From Stdlib Require Import ZArith Lia.
From stdpp Require Import base list option numbers.

Local Open Scope Z_scope.
Local Open Scope go_scope.

Module Sampler.
Import GoFloat.
Section Sampler.
Context `{Q : !QuicGo} `{F : !FloatConv}.

(** ** bandwidth.go *)

Definition infBandwidth : Z := MaxUint64.
Definition Second : Z := 10 ^ 9.
Definition BitsPerSecond : Z := 1.
Definition BytesPerSecond : Z := 8 * BitsPerSecond.

Definition BandwidthFromDelta (bytes delta : Z) : option Z :=
  if u64 delta =? 0 then None
  else Some (u64 (u64 (u64 bytes * Second) `div` u64 delta * BytesPerSecond)).

(** ** Data *)

Definition infRTT : Z := MaxInt64.
Definition defaultConnectionStateMapQueueSize : Z := 256.
Definition defaultCandidatesBufferSize : Z := 256.
Definition invalidPacketNumber : Z := PNQueue.invalidPacketNumber.

Record sendTimeState := mkSendTimeState {
  sts_isValid : bool;
  sts_isAppLimited : bool;
  sts_totalBytesSent : Z;
  sts_totalBytesAcked : Z;
  sts_totalBytesLost : Z;
  sts_bytesInFlight : Z
}.

#[export] Instance eta_sendTimeState : Eta sendTimeState :=
  fun s => mkSendTimeState (sts_isValid s) (sts_isAppLimited s) (sts_totalBytesSent s)
             (sts_totalBytesAcked s) (sts_totalBytesLost s) (sts_bytesInFlight s).

#[export] Instance zero_sendTimeState : GoZero sendTimeState :=
  mkSendTimeState false false 0 0 0 0.

Definition newSendTimeState (isAppLimited : bool)
  (totalBytesSent totalBytesAcked totalBytesLost bytesInFlight : Z) : sendTimeState :=
  mkSendTimeState true isAppLimited totalBytesSent totalBytesAcked totalBytesLost bytesInFlight.

Record extraAckedEvent := mkExtraAckedEvent {
  extraAcked : Z;
  bytesAcked : Z;
  timeDelta : Z;
  round : Z
}.

#[export] Instance eta_extraAckedEvent : Eta extraAckedEvent :=
  fun e => mkExtraAckedEvent (extraAcked e) (bytesAcked e) (timeDelta e) (round e).

#[export] Instance zero_extraAckedEvent : GoZero extraAckedEvent :=
  mkExtraAckedEvent 0 0 0 0.

Definition maxExtraAckedEventFunc (a b : extraAckedEvent) : Z :=
  if extraAcked b <? extraAcked a then 1
  else if extraAcked a <? extraAcked b then -1
  else 0.

Record bandwidthSample := mkBandwidthSample {
  bandwidth : Z;
  rtt : Z;
  sendRate : Z;
  stateAtSend : sendTimeState
}.

#[export] Instance eta_bandwidthSample : Eta bandwidthSample :=
  fun s => mkBandwidthSample (bandwidth s) (rtt s) (sendRate s) (stateAtSend s).

Definition newBandwidthSample : bandwidthSample :=
  mkBandwidthSample 0 0 infBandwidth zero_value.

(** ** Ack heights *)

Record maxAckHeightTracker := mkTracker {
  maxAckHeightFilter : Filter.WindowedFilter extraAckedEvent;
  aggregationEpochStartTime : Z;
  aggregationEpochBytes : Z;
  lastSentPacketNumberBeforeEpoch : Z;
  numAckAggregationEpochs : Z;
  ackAggregationBandwidthThreshold : float64;
  startNewAggregationEpochAfterFullRound : bool;
  reduceExtraAckedOnBandwidthIncrease : bool
}.

#[export] Instance eta_tracker : Eta maxAckHeightTracker :=
  fun m => mkTracker (maxAckHeightFilter m) (aggregationEpochStartTime m)
    (aggregationEpochBytes m) (lastSentPacketNumberBeforeEpoch m) (numAckAggregationEpochs m)
    (ackAggregationBandwidthThreshold m) (startNewAggregationEpochAfterFullRound m)
    (reduceExtraAckedOnBandwidthIncrease m).

Definition newMaxAckHeightTracker (windowLength : Z) : maxAckHeightTracker :=
  mkTracker (Filter.NewWindowedFilter windowLength maxExtraAckedEventFunc)
    0 0 invalidPacketNumber 0 (f64_of_Z 1) false false.

Definition tracker_Get (m : maxAckHeightTracker) : Z :=
  extraAcked (Filter.GetBest (maxAckHeightFilter m)).

Definition bytesFromBandwidthAndTimeDelta (bandwidth delta : Z) : Z :=
  Z.quot (i64 (i64 bandwidth * delta)) (Second * 8).

Definition timeDeltaFromBytesAndBandwidth (bytes bandwidth : Z) : option Z :=
  if i64 bandwidth =? 0 then None
  else Some (i64 (Z.quot (i64 (i64 (bytes * 8) * Second)) (i64 bandwidth))).

(** Reinsert one saved height after recalculating it. *)
Definition reinsert (bandwidthEstimate : Z) (f : Filter.WindowedFilter extraAckedEvent)
  (e : extraAckedEvent) : Filter.WindowedFilter extraAckedEvent :=
  let expectedBytesAcked := bytesFromBandwidthAndTimeDelta bandwidthEstimate (timeDelta e) in
  if expectedBytesAcked <? bytesAcked e then
    let e := e <| extraAcked := i64 (bytesAcked e - expectedBytesAcked) |> in
    Filter.Update f e (round e)
  else f.

(** The start of a new aggregation epoch. *)
Definition startEpoch (m : maxAckHeightTracker)
  (lastSentPacketNumber ackTime bytesAcked : Z) : maxAckHeightTracker :=
  m <| aggregationEpochBytes := bytesAcked |>
    <| aggregationEpochStartTime := ackTime |>
    <| lastSentPacketNumberBeforeEpoch := lastSentPacketNumber |>
    <| numAckAggregationEpochs ::= (λ n, u64 (n + 1)) |>.

Definition tracker_Update (m : maxAckHeightTracker) (bandwidthEstimate : Z)
  (isNewMaxBandwidth : bool)
  (roundTripCount lastSentPacketNumber lastAckedPacketNumber ackTime newlyAcked : Z)
  : maxAckHeightTracker * Z :=
  let m :=
    if reduceExtraAckedOnBandwidthIncrease m && isNewMaxBandwidth then
      let f := maxAckHeightFilter m in
      let best := Filter.GetBest f in
      let secondBest := Filter.GetSecondBest f in
      let thirdBest := Filter.GetThirdBest f in
      let f := Filter.Clear f in
      let f := reinsert bandwidthEstimate f best in
      let f := reinsert bandwidthEstimate f secondBest in
      let f := reinsert bandwidthEstimate f thirdBest in
      m <| maxAckHeightFilter := f |>
    else m in
  let forceNewEpoch :=
    startNewAggregationEpochAfterFullRound m
    && negb (lastSentPacketNumberBeforeEpoch m =? invalidPacketNumber)
    && negb (lastAckedPacketNumber =? invalidPacketNumber)
    && (lastSentPacketNumberBeforeEpoch m <? lastAckedPacketNumber) in
  if mtIsZero (aggregationEpochStartTime m) || forceNewEpoch then
    (startEpoch m lastSentPacketNumber ackTime newlyAcked, 0)
  else
    let aggregationDelta := mtSub ackTime (aggregationEpochStartTime m) in
    let expectedBytesAcked := bytesFromBandwidthAndTimeDelta bandwidthEstimate aggregationDelta in
    if aggregationEpochBytes m <=?
       i64_of_f64 (fmul (ackAggregationBandwidthThreshold m) (f64_of_Z expectedBytesAcked))
    then (startEpoch m lastSentPacketNumber ackTime newlyAcked, 0)
    else
      let m := m <| aggregationEpochBytes ::= (λ n, i64 (n + newlyAcked)) |> in
      let extraBytesAcked := i64 (aggregationEpochBytes m - expectedBytesAcked) in
      let newEvent :=
        mkExtraAckedEvent extraBytesAcked (aggregationEpochBytes m) aggregationDelta 0 in
      (m <| maxAckHeightFilter ::= (λ f, Filter.Update f newEvent roundTripCount) |>,
       extraBytesAcked).

Definition tracker_SetFilterWindowLength (m : maxAckHeightTracker) (length : Z) :=
  m <| maxAckHeightFilter ::= (λ f, Filter.SetWindowLength f length) |>.

Definition tracker_Reset (m : maxAckHeightTracker) (newHeight newTime : Z) :=
  let newEvent := mkExtraAckedEvent newHeight 0 0 newTime in
  m <| maxAckHeightFilter ::= (λ f, Filter.Reset f newEvent newTime) |>.

Definition tracker_SetAckAggregationBandwidthThreshold (m : maxAckHeightTracker)
  (threshold : float64) :=
  m <| ackAggregationBandwidthThreshold := threshold |>.

Definition tracker_SetStartNewAggregationEpochAfterFullRound (m : maxAckHeightTracker)
  (value : bool) :=
  m <| startNewAggregationEpochAfterFullRound := value |>.

Definition tracker_SetReduceExtraAckedOnBandwidthIncrease (m : maxAckHeightTracker)
  (value : bool) :=
  m <| reduceExtraAckedOnBandwidthIncrease := value |>.

Definition tracker_AckAggregationBandwidthThreshold (m : maxAckHeightTracker) : float64 :=
  ackAggregationBandwidthThreshold m.

Definition tracker_NumAckAggregationEpochs (m : maxAckHeightTracker) : Z :=
  numAckAggregationEpochs m.

(** ** Ack points *)

Record ackPoint := mkAckPoint {
  ap_ackTime : Z;
  ap_totalBytesAcked : Z
}.

#[export] Instance eta_ackPoint : Eta ackPoint :=
  fun a => mkAckPoint (ap_ackTime a) (ap_totalBytesAcked a).

#[export] Instance zero_ackPoint : GoZero ackPoint := mkAckPoint 0 0.

(** The array [ackPoints [2]ackPoint]: index 0 and index 1. *)
Record recentAckPoints := mkRecent {
  ackPoint0 : ackPoint;
  ackPoint1 : ackPoint
}.

#[export] Instance eta_recentAckPoints : Eta recentAckPoints :=
  fun r => mkRecent (ackPoint0 r) (ackPoint1 r).

Definition recent_Update (r : recentAckPoints) (ackTime totalBytesAcked : Z) : recentAckPoints :=
  let r :=
    if mtBefore ackTime (ap_ackTime (ackPoint1 r)) then
      r <| ackPoint1 ::= (λ a, a <| ap_ackTime := ackTime |>) |>
    else if mtAfter ackTime (ap_ackTime (ackPoint1 r)) then
      let r := r <| ackPoint0 := ackPoint1 r |> in
      r <| ackPoint1 ::= (λ a, a <| ap_ackTime := ackTime |>) |>
    else r in
  r <| ackPoint1 ::= (λ a, a <| ap_totalBytesAcked := totalBytesAcked |>) |>.

Definition recent_Clear (r : recentAckPoints) : recentAckPoints :=
  r <| ackPoint0 := zero_value |> <| ackPoint1 := zero_value |>.

Definition MostRecentPoint (r : recentAckPoints) : ackPoint := ackPoint1 r.

Definition LessRecentPoint (r : recentAckPoints) : ackPoint :=
  if negb (ap_totalBytesAcked (ackPoint0 r) =? 0) then ackPoint0 r else ackPoint1 r.

(** ** The sampler *)

Record connectionStateOnSentPacket := mkConnState {
  cs_sentTime : Z;
  cs_size : Z;
  cs_totalBytesSentAtLastAckedPacket : Z;
  cs_lastAckedPacketSentTime : Z;
  cs_lastAckedPacketAckTime : Z;
  cs_sendTimeState : sendTimeState
}.

#[export] Instance zero_connState : GoZero connectionStateOnSentPacket :=
  mkConnState 0 0 0 0 0 zero_value.

Record congestionEventSample := mkEventSample {
  sampleMaxBandwidth : Z;
  sampleIsAppLimited : bool;
  sampleRtt : Z;
  sampleMaxInflight : Z;
  lastPacketSendState : sendTimeState;
  sampleExtraAcked : Z
}.

#[export] Instance eta_eventSample : Eta congestionEventSample :=
  fun s => mkEventSample (sampleMaxBandwidth s) (sampleIsAppLimited s) (sampleRtt s)
             (sampleMaxInflight s) (lastPacketSendState s) (sampleExtraAcked s).

Definition newCongestionEventSample : congestionEventSample :=
  mkEventSample 0 false infRTT 0 zero_value 0.

Record bandwidthSampler := mkSampler {
  totalBytesSent : Z;
  totalBytesAcked : Z;
  totalBytesLost : Z;
  totalBytesNeutered : Z;
  totalBytesSentAtLastAckedPacket : Z;
  lastAckedPacketSentTime : Z;
  lastAckedPacketAckTime : Z;
  lastSentPacket : Z;
  lastAckedPacket : Z;
  isAppLimited : bool;
  endOfAppLimitedPhase : Z;
  connectionStateMap : PNQueue.packetNumberIndexedQueue connectionStateOnSentPacket;
  recentPoints : recentAckPoints;
  a0Candidates : Ring.RingBuffer ackPoint;
  maxTrackedPackets : Z;
  ackHeightTracker : maxAckHeightTracker;
  totalBytesAckedAfterLastAckEvent : Z;
  overestimateAvoidance : bool;
  limitMaxAckHeightTrackerBySendRate : bool
}.

#[export] Instance eta_sampler : Eta bandwidthSampler :=
  fun b => mkSampler (totalBytesSent b) (totalBytesAcked b) (totalBytesLost b)
    (totalBytesNeutered b) (totalBytesSentAtLastAckedPacket b) (lastAckedPacketSentTime b)
    (lastAckedPacketAckTime b) (lastSentPacket b) (lastAckedPacket b) (isAppLimited b)
    (endOfAppLimitedPhase b) (connectionStateMap b) (recentPoints b) (a0Candidates b) (maxTrackedPackets b)
    (ackHeightTracker b) (totalBytesAckedAfterLastAckEvent b) (overestimateAvoidance b)
    (limitMaxAckHeightTrackerBySendRate b).

Definition newConnectionStateOnSentPacket (sentTime size bytesInFlight : Z)
  (sampler : bandwidthSampler) : connectionStateOnSentPacket :=
  mkConnState sentTime size (totalBytesSentAtLastAckedPacket sampler)
    (lastAckedPacketSentTime sampler) (lastAckedPacketAckTime sampler)
    (newSendTimeState (isAppLimited sampler) (totalBytesSent sampler)
       (totalBytesAcked sampler) (totalBytesLost sampler) bytesInFlight).

Definition newBandwidthSampler (maxAckHeightTrackerWindowLength : Z) : option bandwidthSampler :=
  q ← PNQueue.newPacketNumberIndexedQueue defaultConnectionStateMapQueueSize;
  a0 ← Ring.Init Ring.zeroRing defaultCandidatesBufferSize;
  Some (mkSampler 0 0 0 0 0 0 0 invalidPacketNumber invalidPacketNumber false
    invalidPacketNumber q (mkRecent zero_value zero_value) a0 0
    (newMaxAckHeightTracker maxAckHeightTrackerWindowLength) 0 false false).

Definition MaxAckHeight (b : bandwidthSampler) : Z := tracker_Get (ackHeightTracker b).

Definition NumAckAggregationEpochs (b : bandwidthSampler) : Z :=
  tracker_NumAckAggregationEpochs (ackHeightTracker b).

Definition SetMaxAckHeightTrackerWindowLength (b : bandwidthSampler) (length : Z) :=
  b <| ackHeightTracker ::= (λ m, tracker_SetFilterWindowLength m length) |>.

Definition ResetMaxAckHeightTracker (b : bandwidthSampler) (newHeight newTime : Z) :=
  b <| ackHeightTracker ::= (λ m, tracker_Reset m newHeight newTime) |>.

Definition SetStartNewAggregationEpochAfterFullRound (b : bandwidthSampler) (value : bool) :=
  b <| ackHeightTracker ::=
       (λ m, tracker_SetStartNewAggregationEpochAfterFullRound m value) |>.

Definition SetLimitMaxAckHeightTrackerBySendRate (b : bandwidthSampler) (value : bool) :=
  b <| limitMaxAckHeightTrackerBySendRate := value |>.

Definition SetReduceExtraAckedOnBandwidthIncrease (b : bandwidthSampler) (value : bool) :=
  b <| ackHeightTracker ::= (λ m, tracker_SetReduceExtraAckedOnBandwidthIncrease m value) |>.

Definition EnableOverestimateAvoidance (b : bandwidthSampler) : bandwidthSampler :=
  if overestimateAvoidance b then b
  else
    b <| overestimateAvoidance := true |>
      <| ackHeightTracker ::=
           (λ m, tracker_SetAckAggregationBandwidthThreshold m (f64_of_Z 2)) |>.

Definition IsOverestimateAvoidanceEnabled (b : bandwidthSampler) : bool :=
  overestimateAvoidance b.

Definition OnPacketSent (b : bandwidthSampler) (sentTime packetNumber bytes bytesInFlight : Z)
  (isRetransmittable : bool) : option bandwidthSampler :=
  let b := b <| lastSentPacket := packetNumber |> in
  if negb isRetransmittable then Some b
  else
    let b := b <| totalBytesSent ::= (λ n, i64 (n + bytes)) |> in
    b ← (if bytesInFlight =? 0 then
           let b := b <| lastAckedPacketAckTime := sentTime |> in
           b ← (if overestimateAvoidance b then
                  let b := b <| recentPoints ::= recent_Clear |> in
                  let b := b <| recentPoints ::=
                                (λ r, recent_Update r sentTime (totalBytesAcked b)) |> in
                  let b := b <| a0Candidates ::= Ring.Clear |> in
                  r ← Ring.PushBack (a0Candidates b) (MostRecentPoint (recentPoints b));
                  Some (b <| a0Candidates := r |>)
                else Some b);
           let b := b <| totalBytesSentAtLastAckedPacket := totalBytesSent b |> in
           Some (b <| lastAckedPacketSentTime := sentTime |>)
         else Some b);
    '(q, _) ← PNQueue.Emplace (connectionStateMap b) packetNumber
                (Some (newConnectionStateOnSentPacket sentTime bytes
                         (i64 (bytesInFlight + bytes)) b));
    Some (b <| connectionStateMap := q |>).

Definition sentPacketToSendTimeState (sentPacket : connectionStateOnSentPacket) : sendTimeState :=
  (cs_sendTimeState sentPacket) <| sts_isValid := true |>.

Definition OnPacketLost (b : bandwidthSampler) (packetNumber bytesLost : Z)
  : option (bandwidthSampler * sendTimeState) :=
  let b := b <| totalBytesLost ::= (λ n, i64 (n + bytesLost)) |> in
  e ← PNQueue.GetEntry (connectionStateMap b) packetNumber;
  match e with
  | Some sentPacket => Some (b, sentPacketToSendTimeState sentPacket)
  | None => Some (b, zero_value)
  end.

Definition OnPacketNeutered (b : bandwidthSampler) (packetNumber : Z) : option bandwidthSampler :=
  '(q, removed) ← PNQueue.Remove (connectionStateMap b) packetNumber;
  let b := b <| connectionStateMap := q |> in
  match removed with
  | Some sentPacket => Some (b <| totalBytesNeutered ::= (λ n, i64 (n + cs_size sentPacket)) |>)
  | None => Some b
  end.

Definition OnAppLimited (b : bandwidthSampler) : bandwidthSampler :=
  b <| isAppLimited := true |> <| endOfAppLimitedPhase := lastSentPacket b |>.

Definition RemoveObsoletePackets (b : bandwidthSampler) (leastUnacked : Z)
  : option bandwidthSampler :=
  q ← PNQueue.RemoveUpTo (connectionStateMap b) leastUnacked;
  Some (b <| connectionStateMap := q |>).

Definition TotalBytesSent (b : bandwidthSampler) : Z := totalBytesSent b.
Definition TotalBytesLost (b : bandwidthSampler) : Z := totalBytesLost b.
Definition TotalBytesAcked (b : bandwidthSampler) : Z := totalBytesAcked b.
Definition TotalBytesNeutered (b : bandwidthSampler) : Z := totalBytesNeutered b.
Definition IsAppLimited (b : bandwidthSampler) : bool := isAppLimited b.
Definition EndOfAppLimitedPhase (b : bandwidthSampler) : Z := endOfAppLimitedPhase b.
Definition max_ack_height (b : bandwidthSampler) : Z := tracker_Get (ackHeightTracker b).

(** [for j := 0; j < n; j++ { PopFront() }]. *)
Fixpoint popFronts (n : nat) (r : Ring.RingBuffer ackPoint) : option (Ring.RingBuffer ackPoint) :=
  match n with
  | O => Some r
  | S n => '(r, _) ← Ring.PopFront r; popFronts n r
  end.

Definition candidate (r : Ring.RingBuffer ackPoint) (i : Z) : option ackPoint :=
  ptr ← Ring.Offset r i; Ring.deref r ptr.

(** [for i := 1; i < Len(); i++]: the index of the first candidate beyond
    [totalBytesAcked]; the fuel is the number of candidates. *)
Fixpoint findA0 (fuel : nat) (r : Ring.RingBuffer ackPoint) (total i : Z) : option (option Z) :=
  match fuel with
  | O => Some None
  | S fuel =>
      if i <? Ring.Len r then
        c ← candidate r i;
        if total <? ap_totalBytesAcked c then Some (Some i) else findA0 fuel r total (i + 1)
      else Some None
  end.

(** [for k := 0; k < Len()-1; k++ { PopFront() }]: the bound is re-evaluated
    after every pop; the fuel is the number of candidates. *)
Fixpoint popWhile (fuel : nat) (k : Z) (r : Ring.RingBuffer ackPoint)
  : option (Ring.RingBuffer ackPoint) :=
  match fuel with
  | O => Some r
  | S fuel =>
      if k <? Ring.Len r - 1 then
        '(r, _) ← Ring.PopFront r; popWhile fuel (k + 1) r
      else Some r
  end.

(** [Some None] is the [false] result; [Some (Some a0)] is [true] with [*a0] set. *)
Definition chooseA0Point (r : Ring.RingBuffer ackPoint) (total : Z)
  : option (Ring.RingBuffer ackPoint * option ackPoint) :=
  if Ring.Empty r then Some (r, None)
  else if Ring.Len r =? 1 then
    ptr ← Ring.Front r; a0 ← Ring.deref r ptr; Some (r, Some a0)
  else
    found ← findA0 (Z.to_nat (Ring.Len r)) r total 1;
    match found with
    | Some i =>
        a0 ← candidate r (i - 1);
        r ← (if 1 <? i then popFronts (Z.to_nat (i - 1)) r else Some r);
        Some (r, Some a0)
    | None =>
        ptr ← Ring.Back r; a0 ← Ring.deref r ptr;
        r ← popWhile (Z.to_nat (Ring.Len r)) 0 r;
        Some (r, Some a0)
    end.

(** OnPacketAcknowledgedInner: the bookkeeping of an acknowledged packet. *)
Definition ackInner (b : bandwidthSampler) (ackTime packetNumber : Z)
  (sentPacket : connectionStateOnSentPacket) : bandwidthSampler :=
  let b := b <| totalBytesAcked ::= (λ n, i64 (n + cs_size sentPacket)) |> in
  let b := b <| totalBytesSentAtLastAckedPacket :=
                  sts_totalBytesSent (cs_sendTimeState sentPacket) |> in
  let b := b <| lastAckedPacketSentTime := cs_sentTime sentPacket |> in
  let b := b <| lastAckedPacketAckTime := ackTime |> in
  let b := if overestimateAvoidance b
           then b <| recentPoints ::= (λ r, recent_Update r ackTime (totalBytesAcked b)) |>
           else b in
  if isAppLimited b
     && ((endOfAppLimitedPhase b =? invalidPacketNumber)
         || (endOfAppLimitedPhase b <? packetNumber))
  then b <| isAppLimited := false |>
  else b.

Definition sendRateOf (sentPacket : connectionStateOnSentPacket) : option Z :=
  if mtAfter (cs_sentTime sentPacket) (cs_lastAckedPacketSentTime sentPacket) then
    BandwidthFromDelta
      (i64 (sts_totalBytesSent (cs_sendTimeState sentPacket)
            - cs_totalBytesSentAtLastAckedPacket sentPacket))
      (mtSub (cs_sentTime sentPacket) (cs_lastAckedPacketSentTime sentPacket))
  else Some infBandwidth.

Definition onPacketAcknowledged (b : bandwidthSampler) (ackTime packetNumber : Z)
  : option (bandwidthSampler * bandwidthSample) :=
  let sample := newBandwidthSample in
  let b := b <| lastAckedPacket := packetNumber |> in
  e ← PNQueue.GetEntry (connectionStateMap b) packetNumber;
  match e with
  | None => Some (b, sample)
  | Some sentPacket =>
      let b := ackInner b ackTime packetNumber sentPacket in
      if mtIsZero (cs_lastAckedPacketSentTime sentPacket) then Some (b, sample)
      else
        rate ← sendRateOf sentPacket;
        '(b, chosen) ←
          (if overestimateAvoidance b then
             '(r, chosen) ← chooseA0Point (a0Candidates b)
                              (sts_totalBytesAcked (cs_sendTimeState sentPacket));
             Some (b <| a0Candidates := r |>, chosen)
           else Some (b, None));
        let a0 := default (mkAckPoint (cs_lastAckedPacketAckTime sentPacket)
                             (sts_totalBytesAcked (cs_sendTimeState sentPacket))) chosen in
        let elapsed := mtSub ackTime (ap_ackTime a0) in
        if elapsed <=? 0 then Some (b, sample)
        else
          ackRate ← BandwidthFromDelta (i64 (totalBytesAcked b - ap_totalBytesAcked a0)) elapsed;
          Some (b, sample <| bandwidth := Z.min rate ackRate |>
                          <| rtt := mtSub ackTime (cs_sentTime sentPacket) |>
                          <| sendRate := rate |>
                          <| stateAtSend := sentPacketToSendTimeState sentPacket |>)
  end.

Definition onAckEventEnd (b : bandwidthSampler) (bandwidthEstimate : Z)
  (isNewMaxBandwidth : bool) (roundTripCount : Z) : option (bandwidthSampler * Z) :=
  let newlyAckedBytes := i64 (totalBytesAcked b - totalBytesAckedAfterLastAckEvent b) in
  if newlyAckedBytes =? 0 then Some (b, 0)
  else
    let b := b <| totalBytesAckedAfterLastAckEvent := totalBytesAcked b |> in
    let '(m, extra) :=
      tracker_Update (ackHeightTracker b) bandwidthEstimate isNewMaxBandwidth roundTripCount
        (lastSentPacket b) (lastAckedPacket b) (lastAckedPacketAckTime b) newlyAckedBytes in
    let b := b <| ackHeightTracker := m |> in
    if overestimateAvoidance b && (extra =? 0) then
      r ← Ring.PushBack (a0Candidates b) (LessRecentPoint (recentPoints b));
      Some (b <| a0Candidates := r |>, extra)
    else Some (b, extra).

(** quic-go's [AckedPacketInfo] and [LostPacketInfo]: a packet number and the
    number of bytes acknowledged or lost. *)
Record packetInfo := mkPacketInfo { PacketNumber : Z; PacketBytes : Z }.

(** [for _, p := range lostPackets]. *)
Fixpoint loseAll (b : bandwidthSampler) (lastLost : sendTimeState) (l : list packetInfo)
  : option (bandwidthSampler * sendTimeState) :=
  match l with
  | [] => Some (b, lastLost)
  | p :: l =>
      '(b, sendState) ← OnPacketLost b (PacketNumber p) (PacketBytes p);
      loseAll b (if sts_isValid sendState then sendState else lastLost) l
  end.

(** What the loop over the acknowledged packets accumulates. *)
Record ackLoop := mkAckLoop {
  al_sample : congestionEventSample;
  al_lastAcked : sendTimeState;
  al_maxSendRate : Z
}.

Definition accumulate (b : bandwidthSampler) (a : ackLoop) (sample : bandwidthSample) : ackLoop :=
  if negb (sts_isValid (stateAtSend sample)) then a
  else
    let lastAcked := stateAtSend sample in
    let es := al_sample a in
    let es := if negb (rtt sample =? 0)
              then es <| sampleRtt ::= (λ r, Z.min r (rtt sample)) |> else es in
    let es := if sampleMaxBandwidth es <? bandwidth sample
              then es <| sampleMaxBandwidth := bandwidth sample |>
                      <| sampleIsAppLimited := sts_isAppLimited (stateAtSend sample) |>
              else es in
    let maxSendRate := if negb (sendRate sample =? infBandwidth)
                       then Z.max (al_maxSendRate a) (sendRate sample) else al_maxSendRate a in
    let inflightSample := i64 (totalBytesAcked b - sts_totalBytesAcked lastAcked) in
    let es := if sampleMaxInflight es <? inflightSample
              then es <| sampleMaxInflight := inflightSample |> else es in
    mkAckLoop es lastAcked maxSendRate.

Fixpoint ackAll (b : bandwidthSampler) (a : ackLoop) (ackTime : Z) (l : list packetInfo)
  : option (bandwidthSampler * ackLoop) :=
  match l with
  | [] => Some (b, a)
  | p :: l =>
      '(b, sample) ← onPacketAcknowledged b ackTime (PacketNumber p);
      ackAll b (accumulate b a sample) ackTime l
  end.

Definition OnCongestionEvent (b : bandwidthSampler) (ackTime : Z)
  (ackedPackets lostPackets : list packetInfo)
  (maxBandwidth estBandwidthUpperBound roundTripCount : Z)
  : option (bandwidthSampler * congestionEventSample) :=
  let eventSample := newCongestionEventSample in
  '(b, lastLost) ← loseAll b zero_value lostPackets;
  if len ackedPackets =? 0 then Some (b, eventSample <| lastPacketSendState := lastLost |>)
  else
    '(b, a) ← ackAll b (mkAckLoop eventSample zero_value 0) ackTime ackedPackets;
    let lastAcked := al_lastAcked a in
    lastState ←
      (if negb (sts_isValid lastLost) then Some lastAcked
       else if negb (sts_isValid lastAcked) then Some lastLost
       else
         lost ← slice_get lostPackets (len lostPackets - 1);
         acked ← slice_get ackedPackets (len ackedPackets - 1);
         Some (if PacketNumber acked <? PacketNumber lost then lastLost else lastAcked));
    let eventSample := (al_sample a) <| lastPacketSendState := lastState |> in
    let isNewMaxBandwidth := maxBandwidth <? sampleMaxBandwidth eventSample in
    let maxBandwidth := Z.max maxBandwidth (sampleMaxBandwidth eventSample) in
    let maxBandwidth := if limitMaxAckHeightTrackerBySendRate b
                        then Z.max maxBandwidth (al_maxSendRate a) else maxBandwidth in
    '(b, extra) ← onAckEventEnd b (Z.min estBandwidthUpperBound maxBandwidth)
                    isNewMaxBandwidth roundTripCount;
    Some (b, eventSample <| sampleExtraAcked := extra |>).

End Sampler.
End Sampler.
