(* ===== verification/SamplerProofs.v ===== *)
(** * SamplerProofs.v: the bandwidth sampler is safe and its samples are sound

    Theorems about the definitions of Sampler.v: no sequence of events makes the
    sampler panic; the A0 point it chooses; the app-limited phase; and that a
    bandwidth sample exceeds neither the send slope nor the ack slope. *)

From S2P Require Import Prelude GoFloat RingBuffer PacketQueue WindowedFilter QuicGo Sampler.
From Stdlib Require Import ZArith Lia.
From stdpp Require Import base list option numbers.

Local Open Scope Z_scope.
Local Open Scope go_scope.

Module SamplerProofs.
Import GoFloat Sampler.
Section SamplerProofs.
Context `{Q : !QuicGo} `{F : !FloatConv}.

(** ** Bandwidths *)

(** Integer division rounds down twice: at most 8 bits per second are lost. *)
Lemma BandwidthFromDelta_spec bytes delta :
  0 ≤ bytes → bytes * (8 * 10 ^ 9) < 2 ^ 64 → 0 < delta < 2 ^ 63 →
  ∃ v, BandwidthFromDelta bytes delta = Some v ∧
       v * delta ≤ bytes * (8 * 10 ^ 9) < (v + 8) * delta.
Proof.
  intros H0 Hb Hd. unfold BandwidthFromDelta, BytesPerSecond, BitsPerSecond, Second.
  rewrite (u64_small delta), (u64_small bytes) by (unfold in_u64; lia).
  rewrite (proj2 (Z.eqb_neq delta 0)) by lia.
  rewrite (u64_small (bytes * _)) by (unfold in_u64; lia).
  pose proof (Z.div_mod (bytes * 10 ^ 9) delta ltac:(lia)).
  pose proof (Z.mod_pos_bound (bytes * 10 ^ 9) delta ltac:(lia)).
  pose proof (Z.div_pos (bytes * 10 ^ 9) delta ltac:(lia) ltac:(lia)).
  pose proof (Z.div_le_upper_bound (bytes * 10 ^ 9) delta (bytes * 10 ^ 9) ltac:(lia) ltac:(nia)).
  rewrite u64_small by (unfold in_u64; lia). eexists. split; [reflexivity|]. nia.
Qed.

Lemma BandwidthFromDelta_total bytes delta :
  0 < delta < 2 ^ 63 → is_Some (BandwidthFromDelta bytes delta).
Proof.
  intros Hd. unfold BandwidthFromDelta. rewrite u64_small by (unfold in_u64; lia).
  rewrite (proj2 (Z.eqb_neq delta 0)) by lia. eauto.
Qed.

(** ** The choice of the A0 point *)

Lemma candidate_spec r (i : nat) :
  Ring.wf r → (i < length (Ring.contents r))%nat →
  candidate r (Z.of_nat i) = Ring.contents r !! i.
Proof.
  intros Hw Hi. unfold candidate. rewrite Ring.Offset_spec by done. simpl.
  by apply Ring.deref_slot.
Qed.

(** The first candidate of [l] beyond [total]. *)
Fixpoint firstBeyond (total : Z) (l : list ackPoint) : option nat :=
  match l with
  | [] => None
  | c :: l => if total <? ap_totalBytesAcked c then Some O else S <$> firstBeyond total l
  end.

(** The candidate before it, or the last one. *)
Fixpoint pickA0 (total : Z) (c : ackPoint) (l : list ackPoint) : ackPoint :=
  match l with
  | [] => c
  | c' :: l => if total <? ap_totalBytesAcked c' then c else pickA0 total c' l
  end.

Lemma pickA0_lookup total c l :
  (c :: l) !! default (length l) (firstBeyond total l) = Some (pickA0 total c l).
Proof.
  revert c. induction l as [|c' l IH]; intros c; simpl; [done|].
  case_if as E; [done|]. rewrite <- IH. destruct (firstBeyond total l); done.
Qed.

Lemma firstBeyond_lt total l j : firstBeyond total l = Some j → (j < length l)%nat.
Proof.
  revert j. induction l as [|c l IH]; intros j; simpl; [done|]. case_if as E.
  - intros. simplify_eq. lia.
  - destruct (firstBeyond total l); intros; simplify_eq/=. specialize (IH n eq_refl). lia.
Qed.

Lemma findA0_spec fuel r total (i : nat) :
  Ring.wf r → (length (Ring.contents r) ≤ fuel + i)%nat →
  findA0 fuel r total (Z.of_nat i)
  = Some ((λ j, Z.of_nat (i + j)) <$> firstBeyond total (drop i (Ring.contents r))).
Proof.
  intros Hw. revert i. induction fuel as [|fuel IH]; intros i Hf; simpl.
  { rewrite drop_ge by lia. done. }
  rewrite <- (Ring.contents_length r Hw). unfold len. case_if as E; b2p.
  - destruct (lookup_lt_is_Some_2 (Ring.contents r) i) as [c Hc]; [lia|].
    rewrite candidate_spec, Hc by (try done; lia). simpl.
    rewrite (drop_S _ _ _ Hc). simpl. case_if as E2; simpl; [by rewrite Nat.add_0_r|].
    replace (Z.of_nat i + 1) with (Z.of_nat (S i)) by lia. rewrite IH by lia.
    destruct (firstBeyond total (drop (S i) (Ring.contents r))); simpl; [|done].
    do 2 f_equal. lia.
  - rewrite drop_ge by lia. done.
Qed.

Lemma popFronts_spec n r :
  Ring.wf r → (n ≤ length (Ring.contents r))%nat →
  ∃ r', popFronts n r = Some r' ∧ Ring.wf r' ∧ Ring.contents r' = drop n (Ring.contents r).
Proof.
  revert r. induction n as [|n IH]; intros r Hw Hn; simpl; [eauto|].
  destruct (Ring.contents r) as [|c l] eqn:E; simpl in *; [lia|].
  destruct (Ring.PopFront_spec r c l Hw E) as (r1 & -> & Hw1 & Hc1). simpl.
  destruct (IH r1 Hw1) as (r' & -> & Hw' & Hc'); [rewrite Hc1; lia|].
  rewrite Hc1 in Hc'. eauto.
Qed.

Lemma popWhile_spec fuel k r :
  Ring.wf r → 0 ≤ k → (length (Ring.contents r) ≤ fuel)%nat →
  ∃ r', popWhile fuel k r = Some r' ∧ Ring.wf r' ∧
    Ring.contents r' = drop (Z.to_nat (Z.max 0 ((len (Ring.contents r) - k) / 2))) (Ring.contents r).
Proof.
  intros Hw. revert k r Hw. induction fuel as [|fuel IH]; intros k r Hw Hk Hf; simpl.
  { exists r. split_and!; try done. rewrite (nil_length_inv (Ring.contents r)) by lia. by rewrite drop_nil. }
  rewrite <- (Ring.contents_length r Hw). case_if as E; b2p.
  - destruct (Ring.contents r) as [|c l] eqn:Ec; [rewrite len_nil in E; lia|].
    destruct (Ring.PopFront_spec r c l Hw Ec) as (r1 & -> & Hw1 & Hc1). simpl.
    destruct (IH (k + 1) r1 Hw1) as (r' & -> & Hw' & Hc'); [lia|rewrite Hc1; simpl in Hf; lia|].
    exists r'. split_and!; try done. rewrite Hc', Hc1. rewrite len_cons in *.
    replace (len l + 1 - k) with (len l - (k + 1) + 1 * 2) by lia. rewrite Z.div_add by lia.
    pose proof (Z.div_pos (len l - (k + 1)) 2).
    replace (Z.to_nat (Z.max 0 ((len l - (k + 1)) / 2 + 1)))
      with (S (Z.to_nat (Z.max 0 ((len l - (k + 1)) / 2)))) by lia. done.
  - exists r. split_and!; try done.
    pose proof (Z.div_lt_upper_bound (len (Ring.contents r) - k) 2 1 ltac:(lia) ltac:(lia)).
    replace (Z.max 0 _) with 0 by lia. by rewrite drop_0.
Qed.

(** The sampler picks the last candidate before the first one that is beyond
    the packet's acknowledged total; it never panics, and what is left is a
    suffix of the candidates. *)
Lemma chooseA0Point_spec r total c l :
  Ring.wf r → Ring.contents r = c :: l →
  ∃ r' n, chooseA0Point r total = Some (r', Some (pickA0 total c l)) ∧
          Ring.wf r' ∧ Ring.contents r' = drop n (c :: l).
Proof.
  intros Hw Hc. pose proof (Ring.contents_length r Hw) as HL. rewrite Hc, len_cons in HL.
  unfold chooseA0Point. destruct (Ring.Empty r) eqn:Ee; [apply Ring.Empty_spec in Ee; congruence|].
  pose proof (len_nonneg l). pose proof (pickA0_lookup total c l) as Hp.
  case_if as E1; b2p.
  { assert (l = []) as -> by (apply len_0; lia).
    rewrite Ring.Front_spec by (try done; by rewrite Hc). simpl.
    rewrite Ring.deref_slot by (try done; rewrite Hc; simpl; lia).
    rewrite Hc. simpl. exists r, 0%nat. done. }
  rewrite (findA0_spec _ r total 1 Hw) by (rewrite Hc; unfold len in *; simpl; lia).
  simpl. rewrite Hc. simpl. rewrite drop_0.
  destruct (firstBeyond total l) as [j|] eqn:Ej; simpl in *.
  - pose proof (firstBeyond_lt _ _ _ Ej). replace (Z.of_nat (S j) - 1) with (Z.of_nat j) by lia.
    rewrite candidate_spec, Hc, Hp by (try done; rewrite ?Hc; simpl; lia). simpl.
    destruct (popFronts_spec j r Hw) as (r' & Hr' & Hw' & Hc'); [rewrite Hc; simpl; lia|].
    rewrite Hc in Hc'. case_if as Ej1; b2p.
    + rewrite Nat2Z.id, Hr'. simpl. eauto.
    + replace j with 0%nat in * by lia. exists r, 0%nat. done.
  - rewrite Ring.Back_spec by (try done; by rewrite Hc). simpl. rewrite Hc.
    rewrite Ring.deref_slot by (try done; rewrite Hc; simpl; lia).
    rewrite Hc. simpl. rewrite Nat.sub_0_r, Hp. simpl.
    destruct (popWhile_spec (Z.to_nat (Ring.Len r)) 0 r Hw) as (r' & -> & Hw' & Hc');
      [lia|rewrite Hc; unfold len in *; simpl; lia|].
    rewrite Hc in Hc'. simpl. eauto.
Qed.

(** When no candidate is beyond the packet's total, the loop that is meant to
    drop all candidates but the chosen one re-evaluates its bound, and only half
    of them are dropped. *)
Theorem chooseA0Point_keeps_half r total c l r' a0 :
  Ring.wf r → Ring.contents r = c :: l → l ≠ [] → firstBeyond total l = None →
  chooseA0Point r total = Some (r', a0) →
  len (Ring.contents r') = len (c :: l) - len (c :: l) / 2.
Proof.
  intros Hw Hc Hl Hf. pose proof (Ring.contents_length r Hw) as HL. rewrite Hc, len_cons in HL.
  unfold chooseA0Point. destruct (Ring.Empty r) eqn:Ee; [apply Ring.Empty_spec in Ee; congruence|].
  pose proof (len_nonneg l). rewrite (proj2 (Z.eqb_neq _ 1)).
  2: { intros E. destruct Hl. apply len_0. lia. }
  rewrite (findA0_spec _ r total 1 Hw) by (rewrite Hc; unfold len in *; simpl; lia).
  rewrite Hc. simpl. rewrite drop_0, Hf. simpl.
  rewrite Ring.Back_spec by (try done; by rewrite Hc). simpl.
  destruct (Ring.deref r _) as [a|]; simpl; [|done].
  destruct (popWhile_spec (Z.to_nat (Ring.Len r)) 0 r Hw) as (r1 & -> & Hw' & Hc');
    [lia|rewrite Hc; unfold len in *; simpl; lia|].
  simpl. intros. simplify_eq. rewrite Hc', Hc, Z.sub_0_r.
  pose proof (Z.div_pos (len (c :: l)) 2 (len_nonneg _) ltac:(lia)).
  pose proof (Z.div_le_upper_bound (len (c :: l)) 2 (len (c :: l)) ltac:(lia)).
  pose proof (len_nonneg (c :: l)). unfold len at 1. rewrite length_drop. unfold len in *. lia.
Qed.

(** ** Safety: the sampler does not panic *)

#[local] Arguments Ring.PushBack : simpl never.
#[local] Arguments Ring.Clear : simpl never.
#[local] Arguments Ring.contents : simpl never.
#[local] Arguments PNQueue.Emplace : simpl never.
#[local] Arguments PNQueue.GetEntry : simpl never.
#[local] Arguments PNQueue.lookup : simpl never.
#[local] Arguments recent_Update : simpl never.
#[local] Arguments recent_Clear : simpl never.
#[local] Arguments tracker_Update : simpl never.
#[local] Arguments chooseA0Point : simpl never.
#[local] Arguments sendRateOf : simpl never.
#[local] Arguments BandwidthFromDelta : simpl never.

Context `{L : !QuicGoLaws Q}.

Definition valid_time (t : Z) : Prop := 0 ≤ t < 2 ^ 62.

Definition valid_state (e : connectionStateOnSentPacket) : Prop :=
  valid_time (cs_sentTime e) ∧ valid_time (cs_lastAckedPacketSentTime e) ∧
  valid_time (cs_lastAckedPacketAckTime e).

Definition valid_point (a : ackPoint) : Prop := valid_time (ap_ackTime a).

Record wfs (b : bandwidthSampler) : Prop := {
  wfs_map : PNQueue.wfq (connectionStateMap b);
  wfs_entries : ∀ k e, PNQueue.lookup (connectionStateMap b) k = Some e → valid_state e;
  wfs_ring : Ring.wf (a0Candidates b);
  wfs_points : Forall valid_point (Ring.contents (a0Candidates b));
  wfs_point0 : valid_point (ackPoint0 (recentPoints b));
  wfs_point1 : valid_point (ackPoint1 (recentPoints b));
  wfs_sent : valid_time (lastAckedPacketSentTime b);
  wfs_acked : valid_time (lastAckedPacketAckTime b)
}.

Lemma valid_time_0 : valid_time 0.
Proof. unfold valid_time. lia. Qed.

#[local] Hint Resolve valid_time_0 : core.

Lemma Emplace_total q pn (e : connectionStateOnSentPacket) :
  PNQueue.wfq q → PNQueue.valid_pn pn →
  ∃ q' ok, PNQueue.Emplace q pn (Some e) = Some (q', ok) ∧ PNQueue.wfq q' ∧
    ∀ k e', PNQueue.lookup q' k = Some e' → (k = pn ∧ e' = e) ∨ PNQueue.lookup q k = Some e'.
Proof.
  intros Hw Hp. destruct (decide (PNQueue.slots q = [] ∨ PNQueue.LastPacket q < pn)) as [Hd|Hd].
  - destruct (PNQueue.Emplace_inserts q pn e Hw Hp Hd) as (q' & -> & Hw' & _ & _ & Hv).
    exists q', true. split_and!; try done. intros k e'. rewrite Hv.
    case_if as E; b2p; intros; simplify_eq; auto.
  - rewrite PNQueue.Emplace_out_of_order; [|done|naive_solver|lia]. eauto 10.
Qed.

Lemma recent_Update_valid r t n :
  valid_point (ackPoint0 r) → valid_point (ackPoint1 r) → valid_time t →
  valid_point (ackPoint0 (recent_Update r t n)) ∧ valid_point (ackPoint1 (recent_Update r t n)).
Proof. intros H0 H1 Ht. unfold recent_Update. case_ifs; cbn; auto. Qed.

Lemma new_wfs w : ∃ b, newBandwidthSampler w = Some b ∧ wfs b.
Proof.
  unfold newBandwidthSampler, defaultConnectionStateMapQueueSize, defaultCandidatesBufferSize.
  destruct (PNQueue.new_spec (T := connectionStateOnSentPacket) 256) as (q & -> & Hq & Hl); [lia|].
  destruct (Ring.Init_spec (T := ackPoint) 256) as (r & -> & Hr & Hc); [lia|]. simpl.
  eexists. split; [done|]. split; cbn; try apply valid_time_0; try done.
  - intros k e. by rewrite Hl.
  - by rewrite Hc.
Qed.

(** The new transmission epoch of [OnPacketSent] when nothing is in flight. *)
Definition openEpoch (b : bandwidthSampler) (sentTime : Z) : option bandwidthSampler :=
  let b := b <| lastAckedPacketAckTime := sentTime |> in
  b ← (if overestimateAvoidance b then
         let b := b <| recentPoints ::= recent_Clear |> in
         let b := b <| recentPoints ::= (λ r, recent_Update r sentTime (totalBytesAcked b)) |> in
         let b := b <| a0Candidates ::= Ring.Clear |> in
         r ← Ring.PushBack (a0Candidates b) (MostRecentPoint (recentPoints b));
         Some (b <| a0Candidates := r |>)
       else Some b);
  let b := b <| totalBytesSentAtLastAckedPacket := totalBytesSent b |> in
  Some (b <| lastAckedPacketSentTime := sentTime |>).

Lemma openEpoch_wfs b t :
  wfs b → valid_time t →
  ∃ b', openEpoch b t = Some b' ∧ wfs b' ∧ isAppLimited b' = isAppLimited b ∧
        connectionStateMap b' = connectionStateMap b ∧
        endOfAppLimitedPhase b' = endOfAppLimitedPhase b ∧
        lastSentPacket b' = lastSentPacket b.
Proof.
  intros Hw Ht. unfold openEpoch. cbn [overestimateAvoidance].
  change (overestimateAvoidance (b <| lastAckedPacketAckTime := t |>)) with (overestimateAvoidance b).
  destruct Hw. destruct (overestimateAvoidance b) eqn:E; cbn.
  - set (rp := recent_Update _ _ _).
    destruct (recent_Update_valid (recent_Clear (recentPoints b)) t (totalBytesAcked b))
      as [H0 H1]; cbn; try apply valid_time_0; [done|].
    destruct (Ring.Clear_spec (a0Candidates b)) as [Hcw Hcc].
    destruct (Ring.PushBack_spec (Ring.Clear (a0Candidates b)) (MostRecentPoint rp) Hcw)
      as (r & -> & Hwr & Hcr). cbn.
    eexists. split; [done|]. split; [|done]. split; cbn; auto.
    rewrite Hcr, Hcc. cbn. auto.
  - eexists. split; [done|]. split; [|done]. split; cbn; auto.
Qed.

Lemma OnPacketSent_wfs b t pn bytes inflight retrans :
  wfs b → valid_time t → PNQueue.valid_pn pn →
  ∃ b', OnPacketSent b t pn bytes inflight retrans = Some b' ∧ wfs b' ∧
    isAppLimited b' = isAppLimited b ∧ endOfAppLimitedPhase b' = endOfAppLimitedPhase b ∧
    lastSentPacket b' = pn ∧
    ∀ k e, PNQueue.lookup (connectionStateMap b') k = Some e →
      (k = pn ∧ sts_isAppLimited (cs_sendTimeState e) = isAppLimited b) ∨
      PNQueue.lookup (connectionStateMap b) k = Some e.
Proof.
  intros Hw Ht Hp. unfold OnPacketSent. case_if as Er.
  { eexists. split; [done|]. split; [|by auto]. destruct Hw. split; cbn; auto. }
  cbn [overestimateAvoidance].
  set (b1 := b <| lastSentPacket := pn |> <| totalBytesSent ::= (λ n, i64 (n + bytes)) |>).
  assert (Hw1 : wfs b1) by (destruct Hw; split; cbn; auto).
  assert (Hm : ∃ b2, (if inflight =? 0 then openEpoch b1 t else Some b1) = Some b2 ∧ wfs b2 ∧
    isAppLimited b2 = isAppLimited b1 ∧ connectionStateMap b2 = connectionStateMap b1 ∧
    endOfAppLimitedPhase b2 = endOfAppLimitedPhase b1 ∧ lastSentPacket b2 = lastSentPacket b1).
  { case_if as E0; [by apply openEpoch_wfs|]. exists b1. auto 10. }
  destruct Hm as (b2 & Hb2 & Hw2 & Ha & Hq & He & Hl). unfold openEpoch in Hb2.
  rewrite Hb2. simpl.
  set (ns := newConnectionStateOnSentPacket t bytes (i64 (inflight + bytes)) b2).
  destruct (Emplace_total (connectionStateMap b2) pn ns (wfs_map b2 Hw2) Hp)
    as (q' & ok & -> & Hq' & Hv). simpl.
  eexists. split; [done|]. cbn. rewrite Ha, He, Hl. split_and!; try done.
  - destruct Hw2. split; cbn; auto. intros k e Hk. apply Hv in Hk as [[_ ->]|Hk]; [|by eauto].
    subst ns. split_and!; cbn; auto.
  - intros k e Hk. apply Hv in Hk as [[-> ->]|Hk]; [left; split; [done|exact Ha]|right; rewrite Hq in Hk; exact Hk].
Qed.

(** What acknowledging or losing packets leaves alone. *)
Record same_sent (b b' : bandwidthSampler) : Prop := {
  ss_map : connectionStateMap b' = connectionStateMap b;
  ss_end : endOfAppLimitedPhase b' = endOfAppLimitedPhase b;
  ss_last : lastSentPacket b' = lastSentPacket b
}.

#[local] Instance same_sent_preorder : PreOrder same_sent.
Proof.
  split; [done|]. intros b1 b2 b3 [H1 H2 H3] [H4 H5 H6]. split; congruence.
Qed.

Lemma OnPacketLost_wfs b pn n :
  wfs b → PNQueue.valid_pn pn →
  ∃ b' s, OnPacketLost b pn n = Some (b', s) ∧ wfs b' ∧ same_sent b b' ∧
    isAppLimited b' = isAppLimited b ∧
    (sts_isValid s = true → ∃ e, PNQueue.lookup (connectionStateMap b) pn = Some e ∧
                                 s = sentPacketToSendTimeState e).
Proof.
  intros Hw Hp. unfold OnPacketLost. cbn.
  rewrite PNQueue.GetEntry_spec by (try done; apply Hw). cbn.
  destruct (PNQueue.lookup (connectionStateMap b) pn) as [e|]; cbn;
    (do 2 eexists; split; [done|]; split; [by destruct Hw; split; cbn|];
     split; [done|]; split; [done|]); [eauto|done].
Qed.

Lemma ackInner_wfs b t pn e :
  wfs b → valid_time t → valid_state e →
  wfs (ackInner b t pn e) ∧ same_sent b (ackInner b t pn e) ∧
  a0Candidates (ackInner b t pn e) = a0Candidates b ∧
  isAppLimited (ackInner b t pn e) =
    isAppLimited b && negb ((endOfAppLimitedPhase b =? invalidPacketNumber)
                            || (endOfAppLimitedPhase b <? pn)).
Proof.
  intros [] Ht (He1 & He2 & He3). unfold ackInner. cbn.
  destruct (recent_Update_valid (recentPoints b) t (i64 (totalBytesAcked b + cs_size e)))
    as [H0 H1]; try done.
  destruct (overestimateAvoidance b); cbn; destruct (isAppLimited b); cbn;
    try (case_if as E; cbn); (split; [split; cbn; auto|split; [split; cbn; auto|]]); auto.
Qed.

Lemma sendRateOf_total e : valid_state e → is_Some (sendRateOf e).
Proof.
  intros (H1 & H2 & H3). unfold sendRateOf, valid_time in *. rewrite mtAfter_spec.
  case_if as E; [|eauto]. b2p. rewrite mtSub_spec by (unfold in_i64; lia).
  apply BandwidthFromDelta_total. lia.
Qed.

(** The choice of the A0 point of [onPacketAcknowledged]. *)
Lemma chooseA0_wfs b total :
  wfs b →
  ∃ b' chosen,
    (if overestimateAvoidance b then
       '(r, chosen) ← chooseA0Point (a0Candidates b) total;
       Some (b <| a0Candidates := r |>, chosen)
     else Some (b, None)) = Some (b', chosen) ∧
    wfs b' ∧ same_sent b b' ∧ isAppLimited b' = isAppLimited b ∧
    totalBytesAcked b' = totalBytesAcked b ∧
    (overestimateAvoidance b = false → chosen = None) ∧
    (∀ a, chosen = Some a → valid_point a).
Proof.
  intros Hw. destruct (overestimateAvoidance b).
  2: { exists b, None. split_and!; try done. }
  destruct (Ring.contents (a0Candidates b)) as [|c l] eqn:Ec.
  - unfold chooseA0Point. rewrite (proj2 (Ring.Empty_spec _ (wfs_ring b Hw)) Ec). cbn.
    do 2 eexists. split; [done|]. split_and!; try done. by destruct Hw; split; cbn.
  - destruct (chooseA0Point_spec _ total c l (wfs_ring b Hw) Ec) as (r' & n & -> & Hw' & Hc'). cbn.
    pose proof (wfs_points b Hw) as Hp. rewrite Ec in Hp.
    do 2 eexists. split; [done|]. split_and!; try done.
    + destruct Hw; split; cbn; try done. rewrite Hc'. by apply Forall_drop.
    + intros a Ha. simplify_eq. apply (Forall_lookup_1 _ _ _ _ Hp (pickA0_lookup total c l)).
Qed.

Lemma onPacketAcknowledged_wfs b t pn :
  wfs b → valid_time t → PNQueue.valid_pn pn →
  ∃ b' s, onPacketAcknowledged b t pn = Some (b', s) ∧ wfs b' ∧ same_sent b b' ∧
    (pn ≤ endOfAppLimitedPhase b → isAppLimited b' = isAppLimited b) ∧
    (endOfAppLimitedPhase b < pn → is_Some (PNQueue.lookup (connectionStateMap b) pn) →
     isAppLimited b' = false) ∧
    in_i64 (rtt s) ∧
    (sts_isValid (stateAtSend s) = true →
     ∃ e, PNQueue.lookup (connectionStateMap b) pn = Some e ∧
          stateAtSend s = sentPacketToSendTimeState e).
Proof.
  intros Hw Ht Hp. unfold onPacketAcknowledged.
  set (b0 := b <| lastAckedPacket := pn |>). assert (Hw0 : wfs b0) by by destruct Hw; split; cbn.
  rewrite PNQueue.GetEntry_spec by (try done; apply Hw0). cbn [mbind option_bind].
  change (connectionStateMap b0) with (connectionStateMap b).
  destruct (PNQueue.lookup (connectionStateMap b) pn) as [e|] eqn:Ee.
  2: { do 2 eexists. split; [done|]. split_and!; try done. }
  assert (Hve : valid_state e) by by eapply wfs_entries.
  destruct (ackInner_wfs b0 t pn e Hw0 Ht Hve) as (Hw1 & Hs1 & _ & Ha1).
  assert (Ha1' : pn ≤ endOfAppLimitedPhase b → isAppLimited (ackInner b0 t pn e) = isAppLimited b).
  { intros Hpn. rewrite Ha1. destruct Hp. unfold invalidPacketNumber, PNQueue.invalidPacketNumber.
    cbn. rewrite (proj2 (Z.eqb_neq _ _)), (proj2 (Z.ltb_ge _ _)) by lia. apply andb_true_r. }
  assert (Hx1 : endOfAppLimitedPhase b < pn → is_Some (Some e) →
                isAppLimited (ackInner b0 t pn e) = false).
  { intros Hpn _. rewrite Ha1. cbn. rewrite (proj2 (Z.ltb_lt _ _) Hpn), orb_true_r. apply andb_false_r. }
  assert (Hs1' : same_sent b (ackInner b0 t pn e)) by (by etrans; [|exact Hs1]).
  set (b1 := ackInner b0 t pn e) in *. clearbody b1. clear Hs1 Ha1.
  case_if as Ez. { do 2 eexists. split; [done|]. split_and!; try done. }
  destruct (sendRateOf_total e Hve) as [rate ->]. cbn [mbind option_bind].
  destruct (chooseA0_wfs b1 (sts_totalBytesAcked (cs_sendTimeState e)) Hw1)
    as (b2 & chosen & -> & Hw2 & Hs2 & Ha2 & _ & _ & Hch). cbn [mbind option_bind].
  assert (Hs2' : same_sent b b2) by by etrans.
  assert (Ha2' : pn ≤ endOfAppLimitedPhase b → isAppLimited b2 = isAppLimited b).
  { intros. rewrite Ha2. auto. }
  rewrite <- Ha2 in Hx1.
  set (a0 := default _ chosen).
  assert (Ha0 : valid_point a0).
  { subst a0. destruct chosen as [a|]; [by apply Hch|]. cbn. apply Hve. }
  unfold valid_point, valid_time in *.
  rewrite (mtSub_spec t (ap_ackTime a0)) by (unfold in_i64; lia).
  case_if as Eel; b2p. { do 2 eexists. split; [done|]. split_and!; try done. }
  destruct (BandwidthFromDelta_total (i64 (totalBytesAcked b2 - ap_totalBytesAcked a0))
              (t - ap_ackTime a0)) as [ar ->]; [lia|]. cbn [mbind option_bind].
  do 2 eexists. split; [done|]. split_and!; try done; [|intros _; eauto].
  cbn. destruct Hve as (? & _). unfold valid_time in *.
  rewrite mtSub_spec; unfold in_i64; lia.
Qed.

Lemma onAckEventEnd_wfs b est isNew rtc :
  wfs b →
  ∃ b' x, onAckEventEnd b est isNew rtc = Some (b', x) ∧ wfs b' ∧ same_sent b b' ∧
          isAppLimited b' = isAppLimited b.
Proof.
  intros Hw. unfold onAckEventEnd. case_if as E0; [by do 2 eexists|].
  destruct (tracker_Update _ _ _ _ _ _ _ _) as [m extra]. cbn.
  case_if as E1.
  - destruct (Ring.PushBack_spec (a0Candidates b) (LessRecentPoint (recentPoints b))
      (wfs_ring b Hw)) as (r & -> & Hwr & Hcr). cbn.
    do 2 eexists. split; [done|]. split; [|done]. destruct Hw. split; cbn; auto.
    rewrite Hcr. apply Forall_app. split; [done|]. apply Forall_singleton.
    unfold LessRecentPoint. by case_if as E2.
  - do 2 eexists. split; [done|]. split; [|done]. by destruct Hw; split; cbn.
Qed.

Definition valid_info (p : packetInfo) : Prop := PNQueue.valid_pn (PacketNumber p).

Lemma loseAll_wfs l b s :
  wfs b → Forall valid_info l →
  ∃ b' s', loseAll b s l = Some (b', s') ∧ wfs b' ∧ same_sent b b' ∧
    isAppLimited b' = isAppLimited b ∧ (sts_isValid s' = true → sts_isValid s = true ∨ l ≠ []).
Proof.
  intros Hw Hl. revert b s Hw. induction Hl as [|p l Hp _ IH]; intros b s Hw; simpl.
  { do 2 eexists. split; [done|]. split_and!; auto; done. }
  destruct (OnPacketLost_wfs b (PacketNumber p) (PacketBytes p) Hw Hp)
    as (b1 & s1 & -> & Hw1 & Hs1 & Ha1 & _). simpl.
  destruct (IH b1 (if sts_isValid s1 then s1 else s) Hw1) as (b' & s' & -> & Hw' & Hs' & Ha' & _).
  do 2 eexists. split; [done|]. split_and!; try done; [by etrans|congruence|by right].
Qed.

Lemma ackAll_wfs l b a t :
  wfs b → valid_time t → Forall valid_info l →
  ∃ b' a', ackAll b a t l = Some (b', a') ∧ wfs b' ∧ same_sent b b' ∧
    (in_i64 (sampleRtt (al_sample a)) → in_i64 (sampleRtt (al_sample a'))) ∧
    (Forall (λ p, PacketNumber p ≤ endOfAppLimitedPhase b) l → isAppLimited b' = isAppLimited b).
Proof.
  intros Hw Ht Hl. revert b a Hw. induction Hl as [|p l Hp _ IH]; intros b a Hw; simpl.
  { do 2 eexists. split; [done|]. split_and!; done. }
  destruct (onPacketAcknowledged_wfs b t (PacketNumber p) Hw Ht Hp)
    as (b1 & s1 & -> & Hw1 & Hs1 & Ha1 & _ & Hr1 & _). simpl.
  destruct (IH b1 (accumulate b1 a s1) Hw1) as (b' & a' & -> & Hw' & Hs' & Hr' & Ha').
  do 2 eexists. split; [done|]. split_and!; try done; [by etrans| |].
  { intros Hr. apply Hr'. unfold accumulate. case_ifs; cbn; try done; unfold in_i64 in *; lia. }
  intros Hf. inversion_clear Hf as [|? ? Hpn Hf']. rewrite Ha', Ha1; try done.
  by rewrite (ss_end _ _ Hs1).
Qed.

Lemma slice_get_last {A} (l : list A) : l ≠ [] → is_Some (slice_get l (len l - 1)).
Proof.
  intros Hl. apply slice_get_lt. assert (len l ≠ 0) by by rewrite len_0.
  pose proof (len_nonneg l). lia.
Qed.

Lemma OnCongestionEvent_wfs b t acked lost mb est rtc :
  wfs b → valid_time t → Forall valid_info acked → Forall valid_info lost →
  ∃ b' s, OnCongestionEvent b t acked lost mb est rtc = Some (b', s) ∧ wfs b' ∧ same_sent b b' ∧
    in_i64 (sampleRtt s) ∧
    (Forall (λ p, PacketNumber p ≤ endOfAppLimitedPhase b) acked →
     isAppLimited b' = isAppLimited b).
Proof.
  intros Hw Ht Ha Hl. unfold OnCongestionEvent.
  destruct (loseAll_wfs lost b zero_value Hw Hl) as (b1 & s1 & -> & Hw1 & Hs1 & Ha1 & Hv1).
  cbn [mbind option_bind]. assert (Hinf : in_i64 infRTT) by (unfold in_i64, infRTT, MaxInt64; lia).
  case_if as El. { by do 2 eexists. }
  destruct (ackAll_wfs acked b1 (mkAckLoop newCongestionEventSample zero_value 0) t Hw1 Ht Ha)
    as (b2 & a2 & -> & Hw2 & Hs2 & Hr2 & Ha2). cbn [mbind option_bind].
  match goal with |- context [mbind _ (if negb (sts_isValid s1) then ?x else ?y)] =>
    assert (Hst : is_Some (if negb (sts_isValid s1) then x else y)) end.
  { destruct (sts_isValid s1) eqn:Es; cbn [negb]; [|eauto]. case_if as E2; [eauto|].
    destruct (slice_get_last lost) as [pl ->]. { by destruct Hv1 as [?|?]. }
    destruct (slice_get_last acked) as [pa ->]. { intros ->. done. }
    cbn. eauto. }
  destruct Hst as [st ->]. cbn [mbind option_bind].
  match goal with |- context [onAckEventEnd b2 ?x ?y ?z] =>
    destruct (onAckEventEnd_wfs b2 x y z Hw2) as (b' & extra & -> & Hw' & Hs' & Ha') end.
  cbn [mbind option_bind]. do 2 eexists. split; [done|]. split_and!; try done.
  - etrans; [exact Hs1|]. by etrans.
  - by apply Hr2.
  - intros Hf. rewrite Ha', Ha2, Ha1; [done|]. by rewrite (ss_end _ _ Hs1).
Qed.

Lemma OnPacketNeutered_wfs b pn :
  wfs b → PNQueue.valid_pn pn →
  ∃ b', OnPacketNeutered b pn = Some b' ∧ wfs b' ∧ isAppLimited b' = isAppLimited b ∧
    endOfAppLimitedPhase b' = endOfAppLimitedPhase b ∧ lastSentPacket b' = lastSentPacket b ∧
    ∀ k e, PNQueue.lookup (connectionStateMap b') k = Some e →
           PNQueue.lookup (connectionStateMap b) k = Some e.
Proof.
  intros Hw Hp. unfold OnPacketNeutered.
  destruct (PNQueue.Remove_spec (connectionStateMap b) pn (wfs_map b Hw) Hp)
    as (q & -> & Hq & Hv & _). cbn [mbind option_bind].
  assert (Hsub : ∀ k e, PNQueue.lookup q k = Some e → PNQueue.lookup (connectionStateMap b) k = Some e).
  { intros k e. rewrite Hv. by case_if as E. }
  destruct (PNQueue.lookup (connectionStateMap b) pn);
    (eexists; split; [done|]; split; [destruct Hw; split; cbn; eauto|done]).
Qed.

Lemma RemoveObsoletePackets_wfs b pn :
  wfs b →
  ∃ b', RemoveObsoletePackets b pn = Some b' ∧ wfs b' ∧ isAppLimited b' = isAppLimited b ∧
    endOfAppLimitedPhase b' = endOfAppLimitedPhase b ∧ lastSentPacket b' = lastSentPacket b ∧
    ∀ k e, PNQueue.lookup (connectionStateMap b') k = Some e →
           PNQueue.lookup (connectionStateMap b) k = Some e.
Proof.
  intros Hw. unfold RemoveObsoletePackets.
  destruct (PNQueue.RemoveUpTo_spec (connectionStateMap b) pn (wfs_map b Hw))
    as (q & -> & Hq & Hv & _). cbn [mbind option_bind].
  assert (Hsub : ∀ k e, PNQueue.lookup q k = Some e → PNQueue.lookup (connectionStateMap b) k = Some e).
  { intros k e. rewrite Hv. by case_if as E. }
  eexists; split; [done|]; split; [destruct Hw; split; cbn; eauto|done].
Qed.

(** ** Runs of the sampler *)

Inductive event :=
| ESent (sentTime pn bytes bytesInFlight : Z) (isRetransmittable : bool)
| ECongestion (ackTime : Z) (acked lost : list packetInfo) (maxBw estBw rounds : Z)
| ENeutered (pn : Z)
| EAppLimited
| ERemoveObsolete (leastUnacked : Z)
| EEnableOverestimateAvoidance.

Definition sampler_step (b : bandwidthSampler) (ev : event) : option bandwidthSampler :=
  match ev with
  | ESent t pn n inflight retrans => OnPacketSent b t pn n inflight retrans
  | ECongestion t acked lost mb est rtc => fst <$> OnCongestionEvent b t acked lost mb est rtc
  | ENeutered pn => OnPacketNeutered b pn
  | EAppLimited => Some (OnAppLimited b)
  | ERemoveObsolete pn => RemoveObsoletePackets b pn
  | EEnableOverestimateAvoidance => Some (EnableOverestimateAvoidance b)
  end.

Definition sampler_run (b : bandwidthSampler) (evs : list event) : option bandwidthSampler :=
  foldl (λ b ev, b ← b; sampler_step b ev) (Some b) evs.

Definition event_ok (ev : event) : Prop :=
  match ev with
  | ESent t pn _ _ _ => valid_time t ∧ PNQueue.valid_pn pn
  | ECongestion t acked lost _ _ _ =>
      valid_time t ∧ Forall valid_info acked ∧ Forall valid_info lost
  | ENeutered pn => PNQueue.valid_pn pn
  | ERemoveObsolete _ | EAppLimited | EEnableOverestimateAvoidance => True
  end.

Lemma OnAppLimited_wfs s : wfs s → wfs (OnAppLimited s).
Proof. intros []. by split. Qed.

Lemma sampler_step_wfs b ev :
  wfs b → event_ok ev → ∃ b', sampler_step b ev = Some b' ∧ wfs b'.
Proof.
  intros Hw Hev. destruct ev; simpl in *.
  - destruct (OnPacketSent_wfs b sentTime pn bytes bytesInFlight isRetransmittable)
      as (b' & -> & Hw' & _); [done|apply Hev|apply Hev|eauto].
  - destruct (OnCongestionEvent_wfs b ackTime acked lost maxBw estBw rounds)
      as (b' & s & -> & Hw' & _); [done|apply Hev..|eauto].
  - destruct (OnPacketNeutered_wfs b pn) as (b' & -> & Hw' & _); eauto.
  - eexists. split; [done|]. by apply OnAppLimited_wfs.
  - destruct (RemoveObsoletePackets_wfs b leastUnacked) as (b' & -> & Hw' & _); eauto.
  - eexists. split; [done|]. unfold EnableOverestimateAvoidance.
    case_if as E; [done|]. by destruct Hw; split; cbn.
Qed.

(** The sampler never panics: whatever packets are sent, acknowledged, lost,
    neutered or forgotten, in whatever order and with whatever duplicates, every
    event is processed to its end (no division by zero, no index out of range,
    no pop from an empty buffer) and the invariant of its queues holds. *)
Theorem sampler_never_panics (window : Z) (evs : list event) :
  Forall event_ok evs →
  ∃ b, (b ← newBandwidthSampler window; sampler_run b evs) = Some b ∧ wfs b.
Proof.
  intros Hev. destruct (new_wfs window) as (b & -> & Hw). cbn [mbind option_bind].
  unfold sampler_run. revert b Hw. induction Hev as [|ev evs Ho _ IH]; intros b Hw; simpl; [eauto|].
  destruct (sampler_step_wfs b ev Hw Ho) as (b' & -> & Hw'). by apply IH.
Qed.

(** ** The app-limited phase *)

(** Events during which no packet sent after [lim] is acknowledged. *)
Definition quiet (lim : Z) (ev : event) : Prop :=
  match ev with
  | ESent _ pn _ _ _ => lim < pn
  | ECongestion _ acked _ _ _ _ => Forall (λ p, PacketNumber p ≤ lim) acked
  | _ => True
  end.

Record limited (lim : Z) (b : bandwidthSampler) : Prop := {
  lm_wfs : wfs b;
  lm_on : isAppLimited b = true;
  lm_end : lim ≤ endOfAppLimitedPhase b;
  lm_last : lim ≤ lastSentPacket b;
  lm_sent : ∀ k e, lim < k → PNQueue.lookup (connectionStateMap b) k = Some e →
                   sts_isAppLimited (cs_sendTimeState e) = true
}.

Lemma limited_step lim b ev b' :
  limited lim b → event_ok ev → quiet lim ev → sampler_step b ev = Some b' → limited lim b'.
Proof.
  intros [Hw Hon Hend Hlast Hsent] Hok Hq Hs. destruct ev; simpl in *.
  - destruct Hok as [Ht Hp].
    destruct (OnPacketSent_wfs b sentTime pn bytes bytesInFlight isRetransmittable Hw Ht Hp)
      as (b1 & Hb1 & Hw1 & Ha & He & Hl & Hv).
    rewrite Hb1 in Hs. simplify_eq. split; [done|congruence|lia|lia|].
    intros k e Hk Hke. apply Hv in Hke as [[_ ->]|Hke]; [done|eauto].
  - destruct Hok as (Ht & Hack & Hlost).
    destruct (OnCongestionEvent_wfs b ackTime acked lost maxBw estBw rounds Hw Ht Hack Hlost)
      as (b1 & s & Hb1 & Hw1 & [Hm He Hl] & _ & Ha).
    rewrite Hb1 in Hs. simplify_eq/=. split; [done| |lia|lia|by rewrite Hm].
    rewrite Ha; [done|]. eapply Forall_impl; [|exact Hq]. cbn. lia.
  - destruct (OnPacketNeutered_wfs b pn Hw Hok) as (b1 & Hb1 & Hw1 & Ha & He & Hl & Hv).
    rewrite Hb1 in Hs. simplify_eq. split; [done|congruence|lia|lia|eauto].
  - simplify_eq. split; cbn; auto. by destruct Hw; split; cbn.
  - destruct (RemoveObsoletePackets_wfs b leastUnacked Hw) as (b1 & Hb1 & Hw1 & Ha & He & Hl & Hv).
    rewrite Hb1 in Hs. simplify_eq. split; [done|congruence|lia|lia|eauto].
  - destruct (sampler_step_wfs b EEnableOverestimateAvoidance Hw I) as (b1 & Hb1 & Hw1).
    simpl in Hb1. simplify_eq. unfold EnableOverestimateAvoidance in *.
    destruct (overestimateAvoidance b); split; cbn; auto.
Qed.

Lemma sampler_run_snoc b evs ev :
  sampler_run b (evs ++ [ev]) = (b ← sampler_run b evs; sampler_step b ev).
Proof. unfold sampler_run. by rewrite foldl_app. Qed.

Lemma limited_run lim b evs b' :
  limited lim b → Forall event_ok evs → Forall (quiet lim) evs →
  sampler_run b evs = Some b' → limited lim b'.
Proof.
  intros Hl. revert b'. induction evs as [|ev evs IH] using rev_ind; intros b' Hok Hq Hr.
  { unfold sampler_run in Hr. simpl in Hr. by simplify_eq. }
  apply Forall_app in Hok as [Hok Ho], Hq as [Hq Hqo]. rewrite Forall_singleton in Ho, Hqo.
  rewrite sampler_run_snoc in Hr. destruct (sampler_run b evs) as [b1|] eqn:E; [|done].
  by eapply limited_step; [apply IH| | |exact Hr].
Qed.

(** The app-limited phase is the one documented: from [OnAppLimited] on,
    as long as no packet sent after it is acknowledged, the sampler stays in the
    phase and every packet sent is recorded as app-limited; the first
    acknowledgement of such a packet (sent beyond the end of the phase) ends the
    phase, and a sample it yields is still marked app-limited. *)
Theorem app_limited_phase (b : bandwidthSampler) (evs : list event) (b' : bandwidthSampler) :
  wfs b →
  (∀ k e, PNQueue.lookup (connectionStateMap b) k = Some e → k ≤ lastSentPacket b) →
  Forall event_ok evs → Forall (quiet (lastSentPacket b)) evs →
  sampler_run (OnAppLimited b) evs = Some b' →
  isAppLimited b' = true ∧
  (∀ k e, lastSentPacket b < k → PNQueue.lookup (connectionStateMap b') k = Some e →
          sts_isAppLimited (cs_sendTimeState e) = true) ∧
  (∀ t pn, valid_time t → PNQueue.valid_pn pn → lastSentPacket b < pn →
     endOfAppLimitedPhase b' < pn → is_Some (PNQueue.lookup (connectionStateMap b') pn) →
     ∃ b'' s, onPacketAcknowledged b' t pn = Some (b'', s) ∧ isAppLimited b'' = false ∧
       (sts_isValid (stateAtSend s) = true → sts_isAppLimited (stateAtSend s) = true)).
Proof.
  intros Hw Hk Hok Hq Hr.
  assert (H0 : limited (lastSentPacket b) (OnAppLimited b)).
  { split; cbn; auto; try lia; [by destruct Hw; split; cbn|].
    intros k e ? He. specialize (Hk k e He). lia. }
  destruct (limited_run _ _ _ _ H0 Hok Hq Hr) as [Hw' Hon _ _ Hsent].
  split_and!; try done. intros t pn Ht Hp Hlt Hend Hin.
  destruct (onPacketAcknowledged_wfs b' t pn Hw' Ht Hp) as (b'' & s & Hs & _ & _ & _ & Hx & _ & Hst).
  exists b'', s. split_and!; auto. intros Hv. destruct (Hst Hv) as (e & He & ->). cbn. by eapply Hsent.
Qed.

(** ** Bandwidth samples *)

(** A bandwidth sample does not overestimate: the bits it claims over the
    interval between its two ack points are at most the bits acknowledged in
    that interval, and over the interval between its two send points at most the
    bits sent in it (rate_sample = min(send_rate, ack_rate)); its RTT is the time
    since the packet was sent. *)
Theorem bandwidth_sample_sound (b : bandwidthSampler) (t pn : Z) (b' : bandwidthSampler)
    (s : bandwidthSample) (e : connectionStateOnSentPacket) :
  wfs b → overestimateAvoidance b = false → valid_time t → PNQueue.valid_pn pn →
  PNQueue.lookup (connectionStateMap b) pn = Some e →
  onPacketAcknowledged b t pn = Some (b', s) → sts_isValid (stateAtSend s) = true →
  let acked := totalBytesAcked b' - sts_totalBytesAcked (cs_sendTimeState e) in
  let sent := sts_totalBytesSent (cs_sendTimeState e) - cs_totalBytesSentAtLastAckedPacket e in
  0 ≤ acked < 2 ^ 31 → 0 ≤ sent < 2 ^ 31 →
  bandwidth s * (t - cs_lastAckedPacketAckTime e) ≤ 8 * 10 ^ 9 * acked ∧
  (cs_lastAckedPacketSentTime e < cs_sentTime e →
   bandwidth s * (cs_sentTime e - cs_lastAckedPacketSentTime e) ≤ 8 * 10 ^ 9 * sent) ∧
  rtt s = t - cs_sentTime e ∧ cs_lastAckedPacketAckTime e < t.
Proof.
  intros Hw Hoa Ht Hp He Hack Hv acked sent Hacked Hsent. unfold onPacketAcknowledged in Hack.
  set (b0 := b <| lastAckedPacket := pn |>) in Hack.
  assert (Hw0 : wfs b0) by by destruct Hw; split; cbn.
  rewrite PNQueue.GetEntry_spec in Hack by (try done; apply Hw0). cbn [mbind option_bind] in Hack.
  change (connectionStateMap b0) with (connectionStateMap b) in Hack. rewrite He in Hack.
  destruct (wfs_entries b Hw pn e He) as (V1 & V2 & V3).
  assert (Ho1 : overestimateAvoidance (ackInner b0 t pn e) = false).
  { unfold ackInner. subst b0. cbn. rewrite Hoa. by case_if as E. }
  set (b1 := ackInner b0 t pn e) in *. clearbody b1. rewrite Ho1 in Hack.
  case_all; simplify_eq/=; try done.
  destruct (sendRateOf e) as [rate|] eqn:Er; simplify_eq/=. case_all; simplify_eq/=; try done.
  unfold valid_time in *. rewrite (mtSub_spec t (cs_lastAckedPacketAckTime e)) in Hif0, Hack by (unfold in_i64; lia).
  destruct (BandwidthFromDelta _ _) as [ar|] eqn:Ea in Hack; simplify_eq/=.
  destruct (BandwidthFromDelta_spec acked (t - cs_lastAckedPacketAckTime e))
    as (v & Ev & Hv1 & _); [lia..|].
  rewrite (i64_small (_ - _)) in Ea by (unfold in_i64; lia). subst acked. rewrite Ev in Ea. simplify_eq.
  split_and!; [nia| |apply mtSub_spec; unfold in_i64; lia|lia].
  intros Hlt. unfold sendRateOf in Er. rewrite mtAfter_spec, (proj2 (Z.ltb_lt _ _) Hlt) in Er.
  rewrite mtSub_spec, (i64_small (_ - _)) in Er by (unfold in_i64; lia).
  destruct (BandwidthFromDelta_spec sent (cs_sentTime e - cs_lastAckedPacketSentTime e))
    as (v' & Ev' & Hv' & _); [lia..|].
  subst sent. rewrite Ev' in Er. simplify_eq. nia.
Qed.

End SamplerProofs.

(** ** Concrete runs *)

#[local] Instance exampleQuic : QuicGo := quicGoExample.
#[local] Instance exampleConv : FloatConv :=
  {| float_oor_i64 := λ _, 0; float_oor_u64 := λ _, 0 |}.

Lemma sampler_never_panics_witness :
  ∃ b, (b ← newBandwidthSampler 10;
        sampler_run b [ESent 1000 1 1200 0 true; ESent 2000 2 1200 1200 true;
                       ECongestion 50000 [mkPacketInfo 1 1200] [mkPacketInfo 2 1200] 0 8 1;
                       ERemoveObsolete 3]) = Some b ∧ wfs b.
Proof.
  apply (sampler_never_panics (Q := quicGoExample) (L := quicGoExample_laws)).
  repeat constructor; cbn; unfold valid_time, PNQueue.maxPacketNumber; lia.
Defined.

(** The state after one packet, sent at time 1000 with nothing in flight. *)
Definition sampler1 : bandwidthSampler :=
  default (mkSampler 0 0 0 0 0 0 0 0 0 false 0 (PNQueue.mkQueue Ring.zeroRing 0 0)
             (mkRecent zero_value zero_value) Ring.zeroRing 0 (newMaxAckHeightTracker 10) 0 false false)
    (b ← newBandwidthSampler 10; sampler_run b [ESent 1000 1 1200 0 true]).

Lemma sampler1_wfs : wfs sampler1.
Proof.
  pose proof quicGoExample_laws as L. destruct (new_wfs 10) as (b & Hb & Hw).
  destruct (sampler_step_wfs b (ESent 1000 1 1200 0 true) Hw) as (b1 & Hb1 & Hw1).
  { cbn. unfold valid_time, PNQueue.valid_pn, PNQueue.maxPacketNumber. lia. }
  unfold sampler1. rewrite Hb. cbn [mbind option_bind]. unfold sampler_run. cbn [foldl mbind option_bind].
  rewrite Hb1. exact Hw1.
Qed.

Lemma sampler1_lookup k e :
  PNQueue.lookup (connectionStateMap sampler1) k = Some e →
  k = 1 ∧ PNQueue.lookup (connectionStateMap sampler1) 1 = Some e.
Proof.
  intros H. destruct (Z.eq_dec k 1) as [->|Hk]; [done|]. exfalso. revert H.
  unfold PNQueue.lookup. vm_compute (PNQueue.firstPacket _). vm_compute (PNQueue.slots _).
  cbn. rewrite (proj2 (Z.eqb_neq k 1)) by done. done.
Qed.

Lemma app_limited_phase_witness :
  ∃ b', sampler_run (OnAppLimited sampler1) [ESent 2000 2 1200 1200 true] = Some b' ∧
        isAppLimited b' = true.
Proof.
  destruct (sampler_step_wfs (L := quicGoExample_laws) (OnAppLimited sampler1)
    (ESent 2000 2 1200 1200 true)) as (b' & Hb' & _).
  { apply OnAppLimited_wfs, sampler1_wfs. }
  { cbn. unfold valid_time, PNQueue.valid_pn, PNQueue.maxPacketNumber. lia. }
  exists b'. split; [exact Hb'|].
  apply (app_limited_phase (L := quicGoExample_laws) sampler1 [ESent 2000 2 1200 1200 true] b').
  - exact sampler1_wfs.
  - intros k e H. apply sampler1_lookup in H as [-> _]. vm_compute. discriminate.
  - repeat constructor; cbn; unfold valid_time, PNQueue.maxPacketNumber; lia.
  - repeat constructor.
  - exact Hb'.
Defined.

Lemma bandwidth_sample_sound_witness :
  ∃ b' s, onPacketAcknowledged sampler1 51000 1 = Some (b', s) ∧
          bandwidth s * (51000 - 1000) ≤ 8 * 10 ^ 9 * 1200.
Proof.
  do 2 eexists. split; [vm_compute; reflexivity|].
  edestruct (bandwidth_sample_sound (L := quicGoExample_laws) sampler1 51000 1) as [H _].
  - exact sampler1_wfs.
  - reflexivity.
  - unfold valid_time. lia.
  - unfold PNQueue.valid_pn, PNQueue.maxPacketNumber. lia.
  - vm_compute. reflexivity.
  - vm_compute. reflexivity.
  - vm_compute. reflexivity.
  - vm_compute. intuition congruence.
  - vm_compute. intuition congruence.
  - exact H.
Defined.

(** The events recorded by [Update] carry no round, so the heights reinserted
    after a bandwidth increase are dated round 0: a height of 50998 bytes seen in
    round 100 is forgotten in round 101, in a window of ten rounds. *)
Theorem tracker_forgets_heights :
  let m0 := tracker_SetReduceExtraAckedOnBandwidthIncrease (newMaxAckHeightTracker 10) true in
  let m1 := (tracker_Update m0 8000000 false 100 1 1 1000 1000).1 in
  let m2 := (tracker_Update m1 8000000 false 100 2 2 2000 50000).1 in
  let m3 := (tracker_Update m2 16000000 true 100 3 3 1000002000 1000).1 in
  let m4 := (tracker_Update m3 16000000 false 101 4 4 1000003000 2000).1 in
  tracker_Get m2 = 50999 ∧ tracker_Get m3 = 50998 ∧ tracker_Get m4 = 2998.
Proof. vm_compute. auto. Qed.

End SamplerProofs.
