(* ===== verification/Bbr.v ===== *)
(** * Bbr.v: the BBR congestion controller
    (src/transports/transport_quic/congestion/bbr/bbr_sender.go)

    [bbrSender] with the sampler of Sampler.v, the filter of WindowedFilter.v and
    the pacer of Pacer.v.  The RTT statistics are third-party: what
    [rttStats.MinRTT()] returns is the variable [MinRTT] of each operation.  The
    clock is the argument [now], and the random number of
    [enterProbeBandwidthMode] is the argument [rnd].  Debug output is left out. *)

From S2P Require Import Prelude GoFloat PacketQueue WindowedFilter QuicGo Pacer Sampler.
From Stdlib Require Import ZArith Lia String.
From stdpp Require Import base list option numbers.

Local Open Scope Z_scope.
Local Open Scope go_scope.

Module Bbr.
Import GoFloat.

(** ** Constants *)

Definition minBps : Z := 65536.
Definition invalidPacketNumber : Z := -1.
Definition initialCongestionWindowPackets : Z := 32.
Definition minCongestionWindowPackets : Z := 4.
Definition defaultHighGain : float64 := f64_const 2885 1000.
Definition derivedHighCWNDGain : float64 := f64_of_Z 2.

Definition one : float64 := f64_of_Z 1.

Definition pacingGains : list float64 :=
  [f64_const 125 100; f64_const 75 100; one; one; one; one; one; one].

Definition gainCycleLength : Z := len pacingGains.
Definition bandwidthWindowSize : Z := gainCycleLength + 2.
Definition minRttExpiry : Z := 10 * 10 ^ 9.
Definition probeRttTime : Z := 200 * 10 ^ 6.
Definition startupGrowthTarget : float64 := f64_const 125 100.
Definition roundTripsWithoutGrowthBeforeExitingStartup : Z := 3.
Definition defaultStartupFullLossCount : Z := 8.
Definition quicBbr2DefaultLossThreshold : float64 := f64_const 2 100.

Inductive bbrMode := bbrModeStartup | bbrModeDrain | bbrModeProbeBw | bbrModeProbeRtt.

#[export] Instance bbrMode_eq_dec : EqDecision bbrMode.
Proof. solve_decision. Defined.

Inductive bbrRecoveryState :=
| bbrRecoveryStateNotInRecovery
| bbrRecoveryStateConservation
| bbrRecoveryStateGrowth.

#[export] Instance bbrRecoveryState_eq_dec : EqDecision bbrRecoveryState.
Proof. solve_decision. Defined.

Definition Profile : Type := string.
Definition ProfileConservative : Profile := "conservative"%string.
Definition ProfileStandard : Profile := "standard"%string.
Definition ProfileAggressive : Profile := "aggressive"%string.

Record profileConfig := mkProfileConfig {
  pc_highGain : float64;
  pc_highCwndGain : float64;
  pc_congestionWindowGainConstant : float64;
  pc_numStartupRtts : Z;
  pc_drainToTarget : bool;
  pc_detectOvershooting : bool;
  pc_bytesLostMultiplier : Z;
  pc_enableAckAggregationStartup : bool;
  pc_expireAckAggregationStartup : bool;
  pc_enableOverestimateAvoidance : bool;
  pc_reduceExtraAckedOnBandwidthIncrease : bool
}.

Definition configForProfile (profile : Profile) : profileConfig :=
  if String.eqb profile ProfileConservative then
    mkProfileConfig (f64_const 225 100) (f64_const 175 100) (f64_const 175 100) 2
      true true 1 false false true true
  else if String.eqb profile ProfileAggressive then
    mkProfileConfig (f64_of_Z 3) (f64_const 225 100) (f64_const 25 10) 4
      false false 2 true true false false
  else
    mkProfileConfig defaultHighGain derivedHighCWNDGain (f64_of_Z 2)
      roundTripsWithoutGrowthBeforeExitingStartup false false 2 false false false false.

(** ** State *)

#[export] Instance zero_bandwidth : GoZero Z := 0.

Record bbrSender := mkBbr {
  pacer : Pacer.Pacer;
  mode : bbrMode;
  sampler : Sampler.bandwidthSampler;
  roundTripCount : Z;
  lastSentPacket : Z;
  currentRoundTripEnd : Z;
  numLossEventsInRound : Z;
  bytesLostInRound : Z;
  maxBandwidth : Filter.WindowedFilter Z;
  minRtt : Z;
  minRttTimestamp : Z;
  congestionWindow : Z;
  initialCongestionWindow : Z;
  maxCongestionWindow : Z;
  minCongestionWindow : Z;
  profile : Profile;
  highGain : float64;
  highCwndGain : float64;
  drainGain : float64;
  pacingRate : Z;
  pacingGain : float64;
  congestionWindowGain : float64;
  congestionWindowGainConstant : float64;
  numStartupRtts : Z;
  cycleCurrentOffset : Z;
  lastCycleStart : Z;
  isAtFullBandwidth : bool;
  roundsWithoutBandwidthGain : Z;
  bandwidthAtLastRound : Z;
  exitingQuiescence : bool;
  exitProbeRttAt : Z;
  probeRttRoundPassed : bool;
  lastSampleIsAppLimited : bool;
  hasNoAppLimitedSample : bool;
  recoveryState : bbrRecoveryState;
  endRecoveryAt : Z;
  recoveryWindow : Z;
  enableAckAggregationDuringStartup : bool;
  expireAckAggregationInStartup : bool;
  drainToTarget : bool;
  detectOvershooting : bool;
  bytesLostWhileDetectingOvershooting : Z;
  bytesLostMultiplierWhileDetectingOvershooting : Z;
  cwndToCalculateMinPacingRate : Z;
  maxCongestionWindowWithNetworkParametersAdjusted : Z;
  maxDatagramSize : Z;
  bytesInFlight : Z
}.

#[export] Instance eta_bbr : Eta bbrSender :=
  fun b => mkBbr (pacer b) (mode b) (sampler b) (roundTripCount b) (lastSentPacket b)
    (currentRoundTripEnd b) (numLossEventsInRound b) (bytesLostInRound b) (maxBandwidth b)
    (minRtt b) (minRttTimestamp b) (congestionWindow b) (initialCongestionWindow b)
    (maxCongestionWindow b) (minCongestionWindow b) (profile b) (highGain b) (highCwndGain b)
    (drainGain b) (pacingRate b) (pacingGain b) (congestionWindowGain b)
    (congestionWindowGainConstant b) (numStartupRtts b) (cycleCurrentOffset b)
    (lastCycleStart b) (isAtFullBandwidth b) (roundsWithoutBandwidthGain b)
    (bandwidthAtLastRound b) (exitingQuiescence b) (exitProbeRttAt b) (probeRttRoundPassed b)
    (lastSampleIsAppLimited b) (hasNoAppLimitedSample b) (recoveryState b) (endRecoveryAt b)
    (recoveryWindow b) (enableAckAggregationDuringStartup b) (expireAckAggregationInStartup b)
    (drainToTarget b) (detectOvershooting b) (bytesLostWhileDetectingOvershooting b)
    (bytesLostMultiplierWhileDetectingOvershooting b) (cwndToCalculateMinPacingRate b)
    (maxCongestionWindowWithNetworkParametersAdjusted b) (maxDatagramSize b) (bytesInFlight b).

Section Bbr.
Context `{Q : !QuicGo} `{F : !FloatConv}.
Variable MinRTT : Z.

(** ** Estimates *)

Definition minCongestionWindowForMaxDatagramSize (maxDatagramSize : Z) : Z :=
  i64 (minCongestionWindowPackets * maxDatagramSize).

Definition bandwidthEstimate (b : bbrSender) : Z := Filter.GetBest (maxBandwidth b).

Definition getMinRtt (b : bbrSender) : Z :=
  if negb (minRtt b =? 0) then minRtt b
  else if MinRTT =? 0 then 100 * 10 ^ 6
  else MinRTT.

Definition bdpFromRttAndBandwidth (rtt bandwidth : Z) : Z :=
  Z.quot (Z.quot (i64 (rtt * i64 bandwidth)) Sampler.BytesPerSecond) Sampler.Second.

Definition getTargetCongestionWindow (b : bbrSender) (gain : float64) : Z :=
  let bdp := bdpFromRttAndBandwidth (getMinRtt b) (bandwidthEstimate b) in
  let congestionWindow := i64_of_f64 (fmul gain (f64_of_Z bdp)) in
  let congestionWindow :=
    if congestionWindow =? 0
    then i64_of_f64 (fmul gain (f64_of_Z (initialCongestionWindow b)))
    else congestionWindow in
  Z.max congestionWindow (minCongestionWindow b).

Definition probeRttCongestionWindow (b : bbrSender) : Z := minCongestionWindow b.

Definition PacingRate (b : bbrSender) : option Z :=
  if pacingRate b =? 0 then
    bw ← Sampler.BandwidthFromDelta (initialCongestionWindow b) (getMinRtt b);
    Some (u64_of_f64 (fmul (highGain b) (f64_of_Z bw)))
  else Some (pacingRate b).

Definition bandwidthForPacer (b : bbrSender) : option Z :=
  rate ← PacingRate b;
  let bps := i64_of_f64 (fdiv (f64_of_Z rate) (f64_of_Z Sampler.BytesPerSecond)) in
  Some (if bps <? minBps then minBps else bps).

Definition setHighCwndGain (b : bbrSender) (gain : float64) : bbrSender :=
  let b := b <| highCwndGain := gain |> in
  if bool_decide (mode b = bbrModeStartup) then b <| congestionWindowGain := gain |> else b.

(** ** Modes *)

Definition enterStartupMode (b : bbrSender) (now : Z) : bbrSender :=
  b <| mode := bbrModeStartup |>
    <| pacingGain := highGain b |>
    <| congestionWindowGain := highCwndGain b |>.

(** [rnd] is [rand.Int31n(congestion.PacketsPerConnectionID)]; an offset outside
    the array panics. *)
Definition enterProbeBandwidthMode (b : bbrSender) (now rnd : Z) : option bbrSender :=
  let b := b <| mode := bbrModeProbeBw |>
             <| congestionWindowGain := congestionWindowGainConstant b |> in
  let b := b <| cycleCurrentOffset := Z.rem rnd (gainCycleLength - 1) |> in
  let b := if 1 <=? cycleCurrentOffset b
           then b <| cycleCurrentOffset ::= (λ o, o + 1) |> else b in
  let b := b <| lastCycleStart := now |> in
  gain ← slice_get pacingGains (cycleCurrentOffset b);
  Some (b <| pacingGain := gain |>).

Definition updateRoundTripCounter (b : bbrSender) (lastAckedPacket : Z) : bbrSender * bool :=
  if (currentRoundTripEnd b =? invalidPacketNumber)
     || (currentRoundTripEnd b <? lastAckedPacket) then
    (b <| roundTripCount ::= (λ n, u64 (n + 1)) |>
       <| currentRoundTripEnd := lastSentPacket b |>, true)
  else (b, false).

Definition maybeUpdateMinRtt (b : bbrSender) (now sampleMinRtt : Z) : bbrSender * bool :=
  let minRttExpired :=
    negb (minRtt b =? 0) && mtAfter now (mtAdd (minRttTimestamp b) minRttExpiry) in
  let b := if minRttExpired || (sampleMinRtt <? minRtt b) || (minRtt b =? 0)
           then b <| minRtt := sampleMinRtt |> <| minRttTimestamp := now |> else b in
  (b, minRttExpired).

Definition updateGainCyclePhase (b : bbrSender) (now priorInFlight : Z) (hasLosses : bool)
  : option bbrSender :=
  let shouldAdvance := mtAfter now (mtAdd (lastCycleStart b) (getMinRtt b)) in
  let shouldAdvance :=
    if flt one (pacingGain b) && negb hasLosses
       && (priorInFlight <? getTargetCongestionWindow b (pacingGain b))
    then false else shouldAdvance in
  let shouldAdvance :=
    if flt (pacingGain b) one && (bytesInFlight b <=? getTargetCongestionWindow b one)
    then true else shouldAdvance in
  if shouldAdvance then
    let b := b <| cycleCurrentOffset ::= (λ o, Z.rem (o + 1) gainCycleLength) |> in
    let b := b <| lastCycleStart := now |> in
    gain ← slice_get pacingGains (cycleCurrentOffset b);
    if drainToTarget b && flt (pacingGain b) one && feq gain one
       && (getTargetCongestionWindow b one <? bytesInFlight b)
    then Some b
    else Some (b <| pacingGain := gain |>)
  else Some b.

Definition shouldExitStartupDueToLoss (b : bbrSender) (s : Sampler.sendTimeState) : bool :=
  if (numLossEventsInRound b <? defaultStartupFullLossCount) || negb (Sampler.sts_isValid s)
  then false
  else
    let inflightAtSend := Sampler.sts_bytesInFlight s in
    if (0 <? inflightAtSend) && (0 <? bytesLostInRound b) then
      i64_of_f64 (fmul (f64_of_Z inflightAtSend) quicBbr2DefaultLossThreshold)
        <? bytesLostInRound b
    else false.

Definition checkIfFullBandwidthReached (b : bbrSender) (s : Sampler.sendTimeState) : bbrSender :=
  if lastSampleIsAppLimited b then b
  else
    let target := u64_of_f64 (fmul (f64_of_Z (bandwidthAtLastRound b)) startupGrowthTarget) in
    if target <=? bandwidthEstimate b then
      let b := b <| bandwidthAtLastRound := bandwidthEstimate b |>
                 <| roundsWithoutBandwidthGain := 0 |> in
      if expireAckAggregationInStartup b
      then b <| sampler ::= (λ s, Sampler.ResetMaxAckHeightTracker s 0 (roundTripCount b)) |>
      else b
    else
      let b := b <| roundsWithoutBandwidthGain ::= (λ n, i64 (n + 1)) |> in
      if (numStartupRtts b <=? roundsWithoutBandwidthGain b) || shouldExitStartupDueToLoss b s
      then b <| isAtFullBandwidth := true |> else b.

Definition maybeAppLimited (b : bbrSender) (inFlight : Z) : bbrSender :=
  if inFlight <? getTargetCongestionWindow b one
  then b <| sampler ::= Sampler.OnAppLimited |> else b.

Definition maybeExitStartupOrDrain (b : bbrSender) (now rnd : Z) : option bbrSender :=
  let b :=
    if bool_decide (mode b = bbrModeStartup) && isAtFullBandwidth b then
      b <| mode := bbrModeDrain |>
        <| pacingGain := drainGain b |>
        <| congestionWindowGain := highCwndGain b |>
    else b in
  if bool_decide (mode b = bbrModeDrain) && (bytesInFlight b <=? getTargetCongestionWindow b one)
  then enterProbeBandwidthMode b now rnd
  else Some b.

Definition maybeEnterOrExitProbeRtt (b : bbrSender) (now : Z)
  (isRoundStart minRttExpired : bool) (rnd : Z) : option bbrSender :=
  let b :=
    if minRttExpired && negb (exitingQuiescence b)
       && negb (bool_decide (mode b = bbrModeProbeRtt)) then
      b <| mode := bbrModeProbeRtt |> <| pacingGain := one |> <| exitProbeRttAt := 0 |>
    else b in
  b ← (if bool_decide (mode b = bbrModeProbeRtt) then
         let b := b <| sampler ::= Sampler.OnAppLimited |> in
         if mtIsZero (exitProbeRttAt b) then
           if bytesInFlight b <? i64 (probeRttCongestionWindow b + MaxPacketBufferSize) then
             Some (b <| exitProbeRttAt := mtAdd now probeRttTime |>
                     <| probeRttRoundPassed := false |>)
           else Some b
         else
           let b := if isRoundStart then b <| probeRttRoundPassed := true |> else b in
           if (0 <=? mtSub now (exitProbeRttAt b)) && probeRttRoundPassed b then
             let b := b <| minRttTimestamp := now |> in
             if negb (isAtFullBandwidth b) then Some (enterStartupMode b now)
             else enterProbeBandwidthMode b now rnd
           else Some b
       else Some b);
  Some (b <| exitingQuiescence := false |>).

Definition updateRecoveryState (b : bbrSender) (lastAckedPacket : Z)
  (hasLosses isRoundStart : bool) : bbrSender :=
  if negb (isAtFullBandwidth b) then b
  else
    let b := if hasLosses then b <| endRecoveryAt := lastSentPacket b |> else b in
    let exitIfDone b :=
      if negb hasLosses && (endRecoveryAt b <? lastAckedPacket)
      then b <| recoveryState := bbrRecoveryStateNotInRecovery |> else b in
    match recoveryState b with
    | bbrRecoveryStateNotInRecovery =>
        if hasLosses then
          b <| recoveryState := bbrRecoveryStateConservation |>
            <| recoveryWindow := 0 |>
            <| currentRoundTripEnd := lastSentPacket b |>
        else b
    | bbrRecoveryStateConservation =>
        exitIfDone (if isRoundStart
                    then b <| recoveryState := bbrRecoveryStateGrowth |> else b)
    | bbrRecoveryStateGrowth => exitIfDone b
    end.

(** ** Rates and windows *)

Definition calculatePacingRate (b : bbrSender) (bytesLost : Z) : option bbrSender :=
  if bandwidthEstimate b =? 0 then Some b
  else
    let targetRate := u64_of_f64 (fmul (pacingGain b) (f64_of_Z (bandwidthEstimate b))) in
    if isAtFullBandwidth b then Some (b <| pacingRate := targetRate |>)
    else if (pacingRate b =? 0) && negb (MinRTT =? 0) then
      rate ← Sampler.BandwidthFromDelta (initialCongestionWindow b) MinRTT;
      Some (b <| pacingRate := rate |>)
    else
      b ← (if detectOvershooting b then
             let b := b <| bytesLostWhileDetectingOvershooting ::= (λ n, i64 (n + bytesLost)) |> in
             if (targetRate <? pacingRate b) && (0 <? bytesLostWhileDetectingOvershooting b)
                && (hasNoAppLimitedSample b
                    || (initialCongestionWindow b <?
                        i64 (bytesLostWhileDetectingOvershooting b
                             * bytesLostMultiplierWhileDetectingOvershooting b))) then
               rate ← Sampler.BandwidthFromDelta (cwndToCalculateMinPacingRate b) MinRTT;
               Some (b <| pacingRate := Z.max targetRate rate |>
                       <| bytesLostWhileDetectingOvershooting := 0 |>
                       <| detectOvershooting := false |>)
             else Some b
           else Some b);
      Some (b <| pacingRate ::= (λ r, Z.max r targetRate) |>).

Definition calculateCongestionWindow (b : bbrSender) (bytesAcked excessAcked : Z) : bbrSender :=
  if bool_decide (mode b = bbrModeProbeRtt) then b
  else
    let targetWindow := getTargetCongestionWindow b (congestionWindowGain b) in
    let targetWindow :=
      if isAtFullBandwidth b then i64 (targetWindow + Sampler.MaxAckHeight (sampler b))
      else if enableAckAggregationDuringStartup b then i64 (targetWindow + excessAcked)
      else targetWindow in
    let b :=
      if isAtFullBandwidth b then
        b <| congestionWindow ::= (λ w, Z.min targetWindow (i64 (w + bytesAcked))) |>
      else if (congestionWindow b <? targetWindow)
              || (Sampler.TotalBytesAcked (sampler b) <? initialCongestionWindow b) then
        b <| congestionWindow ::= (λ w, i64 (w + bytesAcked)) |>
      else b in
    let b := b <| congestionWindow ::= (λ w, Z.max w (minCongestionWindow b)) |> in
    b <| congestionWindow ::= (λ w, Z.min w (maxCongestionWindow b)) |>.

Definition calculateRecoveryWindow (b : bbrSender) (bytesAcked bytesLost : Z) : bbrSender :=
  match recoveryState b with
  | bbrRecoveryStateNotInRecovery => b
  | _ =>
      if recoveryWindow b =? 0 then
        let b := b <| recoveryWindow := i64 (bytesInFlight b + bytesAcked) |> in
        b <| recoveryWindow ::= (λ w, Z.max (minCongestionWindow b) w) |>
      else
        let b := if bytesLost <=? recoveryWindow b
                 then b <| recoveryWindow ::= (λ w, i64 (w - bytesLost)) |>
                 else b <| recoveryWindow := maxDatagramSize b |> in
        let b := match recoveryState b with
                 | bbrRecoveryStateGrowth =>
                     b <| recoveryWindow ::= (λ w, i64 (w + bytesAcked)) |>
                 | _ => b
                 end in
        let b := b <| recoveryWindow ::= (λ w, Z.max w (i64 (bytesInFlight b + bytesAcked))) |> in
        b <| recoveryWindow ::= (λ w, Z.max (minCongestionWindow b) w) |>
  end.

(** The division by [oldMaxDatagramSize] panics when it is zero. *)
Definition scaleByteWindowForDatagramSize (window oldMaxDatagramSize newMaxDatagramSize : Z)
  : option Z :=
  if oldMaxDatagramSize =? newMaxDatagramSize then Some window
  else if u64 oldMaxDatagramSize =? 0 then None
  else Some (i64 (u64 (u64 window * u64 newMaxDatagramSize) `div` u64 oldMaxDatagramSize)).

Definition rescalePacketSizedWindows (b : bbrSender) (size : Z) : option bbrSender :=
  let old := maxDatagramSize b in
  let b := b <| maxDatagramSize := size |> in
  w ← scaleByteWindowForDatagramSize (initialCongestionWindow b) old size;
  let b := b <| initialCongestionWindow := w |> in
  w ← scaleByteWindowForDatagramSize (maxCongestionWindow b) old size;
  let b := b <| maxCongestionWindow := w |> in
  let b := b <| minCongestionWindow := minCongestionWindowForMaxDatagramSize size |> in
  w ← scaleByteWindowForDatagramSize (cwndToCalculateMinPacingRate b) old size;
  let b := b <| cwndToCalculateMinPacingRate := w |> in
  w ← scaleByteWindowForDatagramSize (maxCongestionWindowWithNetworkParametersAdjusted b) old size;
  Some (b <| maxCongestionWindowWithNetworkParametersAdjusted := w |>).

(** ** The congestion-control interface *)

Definition applyProfile (b : bbrSender) (p : Profile) : bbrSender :=
  let p := if String.eqb p EmptyString then ProfileStandard else p in
  let cfg := configForProfile p in
  let b := b <| profile := p |>
             <| highGain := pc_highGain cfg |>
             <| highCwndGain := pc_highCwndGain cfg |>
             <| drainGain := fdiv one (pc_highGain cfg) |>
             <| congestionWindowGainConstant := pc_congestionWindowGainConstant cfg |>
             <| numStartupRtts := pc_numStartupRtts cfg |>
             <| drainToTarget := pc_drainToTarget cfg |>
             <| detectOvershooting := pc_detectOvershooting cfg |>
             <| bytesLostMultiplierWhileDetectingOvershooting := pc_bytesLostMultiplier cfg |>
             <| enableAckAggregationDuringStartup := pc_enableAckAggregationStartup cfg |>
             <| expireAckAggregationInStartup := pc_expireAckAggregationStartup cfg |> in
  let b := if pc_enableOverestimateAvoidance cfg
           then b <| sampler ::= Sampler.EnableOverestimateAvoidance |> else b in
  b <| sampler ::= (λ s, Sampler.SetReduceExtraAckedOnBandwidthIncrease s
                           (pc_reduceExtraAckedOnBandwidthIncrease cfg)) |>.

Definition newBbrSender (now initialMaxDatagramSize initialWindow initialMaxWindow : Z)
  (p : Profile) : option bbrSender :=
  s ← Sampler.newBandwidthSampler bandwidthWindowSize;
  let b := mkBbr Pacer.NewPacer bbrModeStartup s 0 invalidPacketNumber invalidPacketNumber 0 0
    (Filter.NewWindowedFilter bandwidthWindowSize Filter.MaxFilter) 0 0
    initialWindow initialWindow initialMaxWindow
    (minCongestionWindowForMaxDatagramSize initialMaxDatagramSize)
    ProfileStandard defaultHighGain derivedHighCWNDGain (f64_const 1000 2885)
    0 one one (f64_of_Z 2) roundTripsWithoutGrowthBeforeExitingStartup
    0 0 false 0 0 false 0 false false false
    bbrRecoveryStateNotInRecovery invalidPacketNumber initialMaxWindow
    false false false false 0 2 initialWindow initialMaxWindow initialMaxDatagramSize 0 in
  let b := applyProfile b p in
  Some (enterStartupMode b now).

Definition NewBbrSender (now initialMaxDatagramSize : Z) (p : Profile) : option bbrSender :=
  newBbrSender now initialMaxDatagramSize
    (i64 (initialCongestionWindowPackets * initialMaxDatagramSize))
    (i64 (MaxCongestionWindowPackets * initialMaxDatagramSize)) p.

Definition TimeUntilSend (b : bbrSender) (inFlight : Z) : option Z :=
  bw ← bandwidthForPacer b; Pacer.TimeUntilSend (pacer b) bw.

Definition HasPacingBudget (b : bbrSender) (now : Z) : option bool :=
  bw ← bandwidthForPacer b;
  Some (maxDatagramSize b <=? Pacer.Budget (pacer b) bw now).

Definition OnPacketSent (b : bbrSender) (sentTime inFlight packetNumber bytes : Z)
  (isRetransmittable : bool) : option bbrSender :=
  bw ← bandwidthForPacer b;
  let b := b <| pacer ::= (λ p, Pacer.SentPacket p bw sentTime bytes) |>
             <| lastSentPacket := packetNumber |>
             <| bytesInFlight := inFlight |> in
  let b := if inFlight =? 0 then b <| exitingQuiescence := true |> else b in
  s ← Sampler.OnPacketSent (sampler b) sentTime packetNumber bytes inFlight isRetransmittable;
  Some (b <| sampler := s |>).

Definition InSlowStart (b : bbrSender) : bool := bool_decide (mode b = bbrModeStartup).

Definition InRecovery (b : bbrSender) : bool :=
  negb (bool_decide (recoveryState b = bbrRecoveryStateNotInRecovery)).

Definition GetCongestionWindow (b : bbrSender) : Z :=
  if bool_decide (mode b = bbrModeProbeRtt) then probeRttCongestionWindow b
  else if InRecovery b then Z.min (congestionWindow b) (recoveryWindow b)
  else congestionWindow b.

Definition CanSend (b : bbrSender) (inFlight : Z) : bool := inFlight <? GetCongestionWindow b.

(** Decreasing the datagram size panics. *)
Definition SetMaxDatagramSize (b : bbrSender) (size : Z) : option bbrSender :=
  if size <? maxDatagramSize b then None
  else
    let oldMin := minCongestionWindow b in
    let oldInitial := initialCongestionWindow b in
    b ← rescalePacketSizedWindows b size;
    let b :=
      if congestionWindow b =? oldMin then b <| congestionWindow := minCongestionWindow b |>
      else if congestionWindow b =? oldInitial
      then b <| congestionWindow := initialCongestionWindow b |>
      else b <| congestionWindow ::=
                  (λ w, Z.min (maxCongestionWindow b) (Z.max w (minCongestionWindow b))) |> in
    let b := b <| recoveryWindow ::=
                    (λ w, Z.min (maxCongestionWindow b) (Z.max w (minCongestionWindow b))) |> in
    Some (b <| pacer ::= (λ p, Pacer.SetMaxDatagramSize p size) |>).

(** The bytes in flight after the packets of the event. *)
Definition remainingInFlight (priorInFlight : Z) (acked lost : list Sampler.packetInfo) : Z :=
  let n := foldl (λ n p, i64 (n - Sampler.PacketBytes p)) priorInFlight acked in
  foldl (λ n p, i64 (n - Sampler.PacketBytes p)) n lost.

Definition leastUnacked (acked lost : list Sampler.packetInfo) : option Z :=
  if negb (len acked =? 0) then
    p ← slice_get acked (len acked - 1); Some (i64 (Sampler.PacketNumber p - 2))
  else
    p ← slice_get lost (len lost - 1); Some (i64 (Sampler.PacketNumber p + 1)).

(** First part of [OnCongestionEventEx]: the round-trip counter and the recovery
    state, when packets are acknowledged. *)
Definition startOfEvent (b : bbrSender) (ackedPackets : list Sampler.packetInfo)
  (hasLosses : bool) : option (bbrSender * bool) :=
  if negb (len ackedPackets =? 0) then
    p ← slice_get ackedPackets (len ackedPackets - 1);
    let lastAckedPacket := Sampler.PacketNumber p in
    let '(b, isRoundStart) := updateRoundTripCounter b lastAckedPacket in
    Some (updateRecoveryState b lastAckedPacket hasLosses isRoundStart, isRoundStart)
  else Some (b, false).

(** Second part of [OnCongestionEventEx]: the sample updates the model.  Returns
    whether the minimum RTT expired and the bytes lost in the event. *)
Definition modelUpdates (b : bbrSender) (before : Z) (hasLosses : bool)
  (sample : Sampler.congestionEventSample) (eventTime lostBefore : Z) : bbrSender * bool * Z :=
  let lastState := Sampler.lastPacketSendState sample in
  let b := if Sampler.sts_isValid lastState then
             let b := b <| lastSampleIsAppLimited := Sampler.sts_isAppLimited lastState |> in
             b <| hasNoAppLimitedSample ::= (λ h, h || negb (lastSampleIsAppLimited b)) |>
           else b in
  let b := if negb (before =? Sampler.TotalBytesAcked (sampler b))
              && (negb (Sampler.sampleIsAppLimited sample)
                  || (Filter.GetBest (maxBandwidth b) <? Sampler.sampleMaxBandwidth sample))
           then b <| maxBandwidth ::= (λ f, Filter.Update f (Sampler.sampleMaxBandwidth sample)
                                              (roundTripCount b)) |>
           else b in
  let '(b, minRttExpired) :=
    if negb (Sampler.sampleRtt sample =? Sampler.infRTT)
    then maybeUpdateMinRtt b eventTime (Sampler.sampleRtt sample) else (b, false) in
  let bytesLost := i64 (Sampler.TotalBytesLost (sampler b) - lostBefore) in
  (if hasLosses then
     b <| numLossEventsInRound ::= (λ n, u64 (n + 1)) |>
       <| bytesLostInRound ::= (λ n, i64 (n + bytesLost)) |>
   else b, minRttExpired, bytesLost).

Definition OnCongestionEventEx (b : bbrSender) (priorInFlight eventTime : Z)
  (ackedPackets lostPackets : list Sampler.packetInfo) (rnd1 rnd2 : Z) : option bbrSender :=
  let totalBytesAckedBefore := Sampler.TotalBytesAcked (sampler b) in
  let totalBytesLostBefore := Sampler.TotalBytesLost (sampler b) in
  let hasLosses := negb (len lostPackets =? 0) in
  let b := maybeAppLimited b priorInFlight in
  let b := b <| bytesInFlight := remainingInFlight priorInFlight ackedPackets lostPackets |> in
  '(b, isRoundStart) ← startOfEvent b ackedPackets hasLosses;
  '(s, sample) ← Sampler.OnCongestionEvent (sampler b) eventTime ackedPackets lostPackets
                   (Filter.GetBest (maxBandwidth b)) Sampler.infBandwidth (roundTripCount b);
  let b := b <| sampler := s |> in
  let '(b, minRttExpired, bytesLost) :=
    modelUpdates b totalBytesAckedBefore hasLosses sample eventTime totalBytesLostBefore in
  let excessAcked := Sampler.sampleExtraAcked sample in
  b ← (if bool_decide (mode b = bbrModeProbeBw)
       then updateGainCyclePhase b eventTime priorInFlight hasLosses else Some b);
  let b := if isRoundStart && negb (isAtFullBandwidth b)
           then checkIfFullBandwidthReached b (Sampler.lastPacketSendState sample) else b in
  b ← maybeExitStartupOrDrain b eventTime rnd1;
  b ← maybeEnterOrExitProbeRtt b eventTime isRoundStart minRttExpired rnd2;
  let bytesAcked := i64 (Sampler.TotalBytesAcked (sampler b) - totalBytesAckedBefore) in
  b ← calculatePacingRate b bytesLost;
  let b := calculateCongestionWindow b bytesAcked excessAcked in
  let b := calculateRecoveryWindow b bytesAcked bytesLost in
  least ← leastUnacked ackedPackets lostPackets;
  s ← Sampler.RemoveObsoletePackets (sampler b) least;
  let b := b <| sampler := s |> in
  Some (if isRoundStart
        then b <| numLossEventsInRound := 0 |> <| bytesLostInRound := 0 |> else b).

Definition GetInitialPacketSize (isUDPAddr : bool) : Z :=
  if isUDPAddr then InitialPacketSize else MinInitialPacketSize.

End Bbr.

End Bbr.
