(* ===== verification/BbrProofs.v ===== *)
(** * BbrProofs.v: the BBR controller keeps its invariants

    Theorems about Bbr.v: no event panics, the congestion window stays between
    its bounds and always lets a quiescent connection send, and the mode machine
    follows the documented transitions. *)

From S2P Require Import Prelude GoFloat PacketQueue WindowedFilter QuicGo Pacer Sampler.
From S2P Require Import SamplerProofs Bbr.
From Stdlib Require Import ZArith Lia.
From stdpp Require Import base list option numbers.

Local Open Scope Z_scope.
Local Open Scope go_scope.

Module BbrProofs.
Import GoFloat Bbr.
Section BbrProofs.
Context `{Q : !QuicGo} `{F : !FloatConv} `{L : !QuicGoLaws Q}.

#[local] Arguments Sampler.OnCongestionEvent : simpl never.
#[local] Arguments Sampler.OnPacketSent : simpl never.
#[local] Arguments Sampler.RemoveObsoletePackets : simpl never.
#[local] Arguments Sampler.BandwidthFromDelta : simpl never.
#[local] Arguments Filter.Update : simpl never.
#[local] Arguments getTargetCongestionWindow : simpl never.
#[local] Arguments i64_of_f64 : simpl never.
#[local] Arguments u64_of_f64 : simpl never.
#[local] Arguments fmul : simpl never.
#[local] Arguments fdiv : simpl never.
#[local] Arguments flt : simpl never.
#[local] Arguments feq : simpl never.
#[local] Arguments f64_of_Z : simpl never.
#[local] Arguments f64_const : simpl never.
#[local] Arguments remainingInFlight : simpl never.

(** ** Frames *)

(** What every step inside a congestion event leaves alone or preserves. *)
Record keeps (b b' : bbrSender) : Prop := {
  k_mds : maxDatagramSize b' = maxDatagramSize b;
  k_min : minCongestionWindow b' = minCongestionWindow b;
  k_max : maxCongestionWindow b' = maxCongestionWindow b;
  k_init : initialCongestionWindow b' = initialCongestionWindow b;
  k_pacer : pacer b' = pacer b;
  k_rate : cwndToCalculateMinPacingRate b' = cwndToCalculateMinPacingRate b;
  k_adj : maxCongestionWindowWithNetworkParametersAdjusted b'
          = maxCongestionWindowWithNetworkParametersAdjusted b;
  k_wfs : SamplerProofs.wfs (sampler b) → SamplerProofs.wfs (sampler b');
  k_offset : 0 ≤ cycleCurrentOffset b < 8 → 0 ≤ cycleCurrentOffset b' < 8;
  k_rtt : in_i64 (minRtt b) → in_i64 (minRtt b')
}.

(** The mode machine is left alone. *)
Record same_mode (b b' : bbrSender) : Prop := {
  sm_mode : mode b' = mode b;
  sm_full : isAtFullBandwidth b' = isAtFullBandwidth b
}.

(** The windows are left alone. *)
Record same_windows (b b' : bbrSender) : Prop := {
  sw_cwnd : congestionWindow b' = congestionWindow b;
  sw_state : recoveryState b' = recoveryState b;
  sw_recovery : recoveryWindow b' = recoveryWindow b
}.

#[local] Instance keeps_preorder : PreOrder keeps.
Proof.
  split; [done|]. intros b1 b2 b3 [] []. split; try congruence; auto.
Qed.

#[local] Instance same_mode_preorder : PreOrder same_mode.
Proof. split; [done|]. intros b1 b2 b3 [] []. split; congruence. Qed.

#[local] Instance same_windows_preorder : PreOrder same_windows.
Proof. split; [done|]. intros b1 b2 b3 [] []. split; congruence. Qed.

Lemma Reset_wfs s n t :
  SamplerProofs.wfs s → SamplerProofs.wfs (Sampler.ResetMaxAckHeightTracker s n t).
Proof. intros []. by split. Qed.

Lemma SetReduce_wfs s v :
  SamplerProofs.wfs s →
  SamplerProofs.wfs (Sampler.SetReduceExtraAckedOnBandwidthIncrease s v).
Proof. intros []. by split. Qed.

Lemma Enable_wfs s :
  SamplerProofs.wfs s → SamplerProofs.wfs (Sampler.EnableOverestimateAvoidance s).
Proof. intros []. unfold Sampler.EnableOverestimateAvoidance. case_if as E; by split. Qed.

#[local] Hint Resolve SamplerProofs.OnAppLimited_wfs Reset_wfs : core.

#[local] Ltac frame :=
  repeat match goal with
  | |- _ ∧ _ => split
  | |- keeps _ _ => split
  | |- same_mode _ _ => split
  | |- same_windows _ _ => split
  end; cbn; auto; try lia.

Lemma maybeAppLimited_frame r b n :
  keeps b (maybeAppLimited r b n) ∧ same_mode b (maybeAppLimited r b n) ∧
  same_windows b (maybeAppLimited r b n).
Proof. unfold maybeAppLimited. case_if as E; frame. Qed.

Lemma updateRoundTripCounter_frame b pn :
  let b' := (updateRoundTripCounter b pn).1 in
  keeps b b' ∧ same_mode b b' ∧ same_windows b b'.
Proof. unfold updateRoundTripCounter. case_if as E; frame. Qed.

(** In recovery the window is set, or zero until it is recomputed. *)
Definition pre_recovery (b : bbrSender) : Prop :=
  recoveryState b ≠ bbrRecoveryStateNotInRecovery →
  recoveryWindow b = 0 ∨ minCongestionWindow b ≤ recoveryWindow b.

Lemma updateRecoveryState_frame b pn l r :
  let b' := updateRecoveryState b pn l r in
  keeps b b' ∧ same_mode b b' ∧ congestionWindow b' = congestionWindow b ∧
  (pre_recovery b → pre_recovery b').
Proof.
  unfold updateRecoveryState, pre_recovery.
  case_if as E; [frame|]. destruct l, (recoveryState b) eqn:Er, r; cbn; rewrite ?Er;
    case_ifs; frame; rewrite ?Er; auto.
Qed.

Lemma maybeUpdateMinRtt_frame b now rtt :
  in_i64 rtt →
  let b' := (maybeUpdateMinRtt b now rtt).1 in
  keeps b b' ∧ same_mode b b' ∧ same_windows b b'.
Proof. intros Hr. unfold maybeUpdateMinRtt. cbn. case_if as E; frame. Qed.

Lemma pacingGains_get o : 0 ≤ o < 8 → is_Some (slice_get pacingGains o).
Proof. intros Ho. by apply slice_get_lt. Qed.

Lemma updateGainCyclePhase_frame r b now n l :
  0 ≤ cycleCurrentOffset b < 8 →
  ∃ b', updateGainCyclePhase r b now n l = Some b' ∧
        keeps b b' ∧ same_mode b b' ∧ same_windows b b'.
Proof.
  intros Ho. unfold updateGainCyclePhase. case_if as E; [|eexists; split; [done|frame]].
  assert (Ho' : 0 ≤ Z.rem (cycleCurrentOffset b + 1) gainCycleLength < 8).
  { change gainCycleLength with 8. apply Z.rem_bound_pos; lia. }
  destruct (pacingGains_get _ Ho') as [g Hg]. cbn. rewrite Hg. cbn.
  case_if as E2; (eexists; split; [done|frame]).
Qed.

Lemma checkIfFullBandwidthReached_frame b s :
  let b' := checkIfFullBandwidthReached b s in
  keeps b b' ∧ mode b' = mode b ∧ same_windows b b' ∧
  (isAtFullBandwidth b = true → isAtFullBandwidth b' = true).
Proof. unfold checkIfFullBandwidthReached. case_ifs; frame. Qed.

Lemma enterProbeBandwidthMode_frame b now rnd :
  0 ≤ rnd →
  ∃ b', enterProbeBandwidthMode b now rnd = Some b' ∧ keeps b b' ∧ same_windows b b' ∧
        mode b' = bbrModeProbeBw ∧ isAtFullBandwidth b' = isAtFullBandwidth b ∧
        cycleCurrentOffset b' ≠ 1.
Proof.
  intros Hr. unfold enterProbeBandwidthMode. change (gainCycleLength - 1) with 7. cbn.
  pose proof (Z.rem_bound_pos rnd 7 ltac:(lia) ltac:(lia)).
  set (o := Z.rem rnd 7) in *. clearbody o.
  case_if as E; b2p; cbn.
  - destruct (pacingGains_get (o + 1)) as [g ->]; [lia|]. cbn. eexists. split; [done|]. frame.
  - destruct (pacingGains_get o) as [g ->]; [lia|]. cbn. eexists. split; [done|]. frame.
Qed.

Lemma maybeExitStartupOrDrain_frame r b now rnd :
  0 ≤ rnd →
  ∃ b', maybeExitStartupOrDrain r b now rnd = Some b' ∧ keeps b b' ∧ same_windows b b' ∧
    isAtFullBandwidth b' = isAtFullBandwidth b ∧
    match mode b with
    | bbrModeStartup =>
        if isAtFullBandwidth b then mode b' = bbrModeDrain ∨ mode b' = bbrModeProbeBw
        else mode b' = bbrModeStartup
    | bbrModeDrain => mode b' = bbrModeDrain ∨ mode b' = bbrModeProbeBw
    | m => mode b' = m
    end.
Proof.
  intros Hr. unfold maybeExitStartupOrDrain.
  set (b1 := if bool_decide (mode b = bbrModeStartup) && isAtFullBandwidth b then _ else b).
  assert (H1 : keeps b b1 ∧ same_windows b b1 ∧ isAtFullBandwidth b1 = isAtFullBandwidth b ∧
    mode b1 = match mode b with
              | bbrModeStartup => if isAtFullBandwidth b then bbrModeDrain else bbrModeStartup
              | m => m
              end).
  { subst b1. destruct (mode b) eqn:Em; cbn; [|frame..]. destruct (isAtFullBandwidth b) eqn:Ef; frame. }
  destruct H1 as (K1 & W1 & F1 & M1). clearbody b1. case_if as E.
  - destruct (enterProbeBandwidthMode_frame b1 now rnd Hr) as (b' & -> & K & W & M & Fu & _).
    eexists. split; [done|]. split; [by etrans|]. split; [by etrans|]. split; [congruence|].
    match goal with H : mode b1 = bbrModeDrain |- _ => rewrite H in M1 end.
    destruct (mode b); try done; auto. destruct (isAtFullBandwidth b); auto; done.
  - eexists. split; [done|]. split_and!; try done. rewrite M1.
    destruct (mode b); auto. destruct (isAtFullBandwidth b); auto.
Qed.

Lemma maybeEnterOrExitProbeRtt_frame b now rs exp rnd :
  0 ≤ rnd →
  ∃ b', maybeEnterOrExitProbeRtt b now rs exp rnd = Some b' ∧ keeps b b' ∧ same_windows b b' ∧
    isAtFullBandwidth b' = isAtFullBandwidth b ∧
    (mode b' = mode b ∨ mode b' = bbrModeProbeRtt ∨
     mode b = bbrModeProbeRtt ∧
     mode b' = if isAtFullBandwidth b then bbrModeProbeBw else bbrModeStartup).
Proof.
  intros Hr. unfold maybeEnterOrExitProbeRtt.
  set (b1 := if exp && _ && _ then _ else b).
  assert (H1 : keeps b b1 ∧ same_windows b b1 ∧ isAtFullBandwidth b1 = isAtFullBandwidth b ∧
    (mode b1 = mode b ∨ mode b1 = bbrModeProbeRtt ∧ exitProbeRttAt b1 = 0)).
  { subst b1. case_if as E; frame. }
  destruct H1 as (K1 & W1 & F1 & M1). clearbody b1. case_if as E.
  2: { eexists. split; [done|]. split; [|split; [|split; [done|cbn; destruct M1 as [->|[-> _]]; auto]]];
       [etrans; [exact K1|frame]|etrans; [exact W1|frame]]. }
  set (b2 := b1 <| sampler ::= Sampler.OnAppLimited |>).
  assert (K2 : keeps b b2) by (etrans; [exact K1|subst b2; frame]).
  assert (W2 : same_windows b b2) by (etrans; [exact W1|subst b2; frame]).
  assert (M2 : mode b2 = bbrModeProbeRtt) by done.
  assert (F2 : isAtFullBandwidth b2 = isAtFullBandwidth b) by done.
  assert (X2 : mode b = bbrModeProbeRtt ∨ exitProbeRttAt b2 = 0).
  { destruct M1 as [M1|[_ M1]]; [left; congruence|by right]. }
  clearbody b2. rewrite mtIsZero_spec. case_if as Ez; b2p.
  - case_if as El; cbn; (eexists; split; [done|]);
      (split; [etrans; [exact K2|frame]|]; split; [etrans; [exact W2|frame]|]; frame).
  - destruct X2 as [X2|X2]; [|lia].
    set (b3 := if rs then b2 <| probeRttRoundPassed := true |> else b2).
    assert (H3 : keeps b b3 ∧ same_windows b b3 ∧ mode b3 = bbrModeProbeRtt ∧
                 isAtFullBandwidth b3 = isAtFullBandwidth b).
    { split; [etrans; [exact K2|subst b3; destruct rs; frame]|].
      split; [etrans; [exact W2|subst b3; destruct rs; frame]|]. subst b3. by destruct rs. }
    destruct H3 as (K3 & W3 & M3 & F3). clearbody b3. case_if as Ee.
    2: { cbn. eexists. split; [done|].
         split; [etrans; [exact K3|frame]|]. split; [etrans; [exact W3|frame]|]. frame. }
    cbn [isAtFullBandwidth]. case_if as Ef.
    + cbn in Ef |- *. eexists. split; [done|].
      split; [etrans; [exact K3|frame]|]. split; [etrans; [exact W3|frame]|]. cbn.
      rewrite <- F3, Ef. auto.
    + cbn in Ef.
      destruct (enterProbeBandwidthMode_frame (b3 <| minRttTimestamp := now |>) now rnd Hr)
        as (b' & -> & K & W & M & Fu & _). cbn.
      eexists. split; [done|]. cbn in Fu.
      split; [etrans; [exact K3|]; etrans; [|etrans; [exact K|]]; frame|].
      split; [etrans; [exact W3|]; etrans; [|etrans; [exact W|]]; frame|].
      cbn. split; [congruence|]. rewrite <- F3, Ef. auto.
Qed.

Lemma BandwidthFromDelta_nonzero bytes d :
  d ≠ 0 → in_i64 d → is_Some (Sampler.BandwidthFromDelta bytes d).
Proof.
  intros H0 Hd. unfold Sampler.BandwidthFromDelta. rewrite (proj2 (Z.eqb_neq _ _)); [eauto|].
  intros E. apply H0. rewrite <- (i64_small d Hd), <- (i64_u64 d), E. done.
Qed.

Lemma calculatePacingRate_frame r b lost :
  0 < r < 2 ^ 62 →
  ∃ b', calculatePacingRate r b lost = Some b' ∧ keeps b b' ∧ same_mode b b' ∧ same_windows b b'.
Proof.
  intros Hr. assert (Hd : ∀ n, is_Some (Sampler.BandwidthFromDelta n r)).
  { intros n. apply BandwidthFromDelta_nonzero; unfold in_i64; lia. }
  unfold calculatePacingRate. case_if as E1; [eexists; split; [done|]; frame|].
  case_if as E2; [eexists; split; [done|]; frame|].
  case_if as E3.
  { destruct (Hd (initialCongestionWindow b)) as [x ->]. cbn. eexists. split; [done|]. frame. }
  case_if as E4; [|cbn; eexists; split; [done|]; frame].
  cbn. case_if as E5; [|cbn; eexists; split; [done|]; frame].
  destruct (Hd (cwndToCalculateMinPacingRate b)) as [x ->]. cbn. eexists. split; [done|]. frame.
Qed.

Lemma calculateCongestionWindow_spec r b acked excess :
  minCongestionWindow b ≤ maxCongestionWindow b →
  minCongestionWindow b ≤ congestionWindow b ≤ maxCongestionWindow b →
  let b' := calculateCongestionWindow r b acked excess in
  keeps b b' ∧ same_mode b b' ∧ recoveryState b' = recoveryState b ∧
  recoveryWindow b' = recoveryWindow b ∧
  minCongestionWindow b ≤ congestionWindow b' ≤ maxCongestionWindow b.
Proof. intros Hm Hc. unfold calculateCongestionWindow. case_ifs; frame. Qed.

Lemma calculateRecoveryWindow_spec b acked lost :
  let b' := calculateRecoveryWindow b acked lost in
  keeps b b' ∧ same_mode b b' ∧ congestionWindow b' = congestionWindow b ∧
  recoveryState b' = recoveryState b ∧
  (recoveryState b' ≠ bbrRecoveryStateNotInRecovery →
   minCongestionWindow b ≤ recoveryWindow b').
Proof.
  unfold calculateRecoveryWindow.
  destruct (recoveryState b) eqn:Es; [frame; rewrite Es; done|..];
    (case_if as E1; [frame; rewrite ?Es; intros; lia|]);
    case_if as E2; cbn; rewrite Es; frame; rewrite ?Es; intros; lia.
Qed.

(** ** The invariant *)

(** BBR leaves STARTUP when it is at full bandwidth, and only then. *)
Definition mode_ok (m : bbrMode) (full : bool) : Prop :=
  match m with
  | bbrModeStartup => full = false
  | bbrModeDrain | bbrModeProbeBw => full = true
  | bbrModeProbeRtt => True
  end.

Record wfb (b : bbrSender) : Prop := {
  wb_wfs : SamplerProofs.wfs (sampler b);
  wb_mds : 0 < maxDatagramSize b ≤ 65535;
  wb_min : minCongestionWindow b = 4 * maxDatagramSize b;
  wb_max : 4 * maxDatagramSize b ≤ maxCongestionWindow b
           ≤ MaxCongestionWindowPackets * maxDatagramSize b;
  wb_init : 4 * maxDatagramSize b ≤ initialCongestionWindow b ≤ maxCongestionWindow b;
  wb_rate : 0 ≤ cwndToCalculateMinPacingRate b
            ≤ MaxCongestionWindowPackets * maxDatagramSize b;
  wb_adj : 0 ≤ maxCongestionWindowWithNetworkParametersAdjusted b
           ≤ MaxCongestionWindowPackets * maxDatagramSize b;
  wb_cwnd : minCongestionWindow b ≤ congestionWindow b ≤ maxCongestionWindow b;
  wb_offset : 0 ≤ cycleCurrentOffset b < 8;
  wb_rtt : in_i64 (minRtt b);
  wb_recovery : recoveryState b ≠ bbrRecoveryStateNotInRecovery →
                minCongestionWindow b ≤ recoveryWindow b;
  wb_mode : mode_ok (mode b) (isAtFullBandwidth b)
}.

(** The transitions of the mode machine in one congestion event; [full] is
    whether full bandwidth has been reached by its end. *)
Inductive transition (full : bool) : bbrMode → bbrMode → Prop :=
| tr_stay m : mode_ok m full → transition full m m
| tr_drain : full = true → transition full bbrModeStartup bbrModeDrain
| tr_drained : full = true → transition full bbrModeDrain bbrModeProbeBw
| tr_startup_drained : full = true → transition full bbrModeStartup bbrModeProbeBw
| tr_probe_rtt m : transition full m bbrModeProbeRtt
| tr_rtt_startup : full = false → transition full bbrModeProbeRtt bbrModeStartup
| tr_rtt_probe_bw : full = true → transition full bbrModeProbeRtt bbrModeProbeBw.

Lemma transition_ok full m m' : transition full m m' → mode_ok m' full.
Proof. by inversion 1; subst. Qed.

(** The state in the middle of an event that started in [b0]. *)
Record during (b0 b : bbrSender) : Prop := {
  du_keeps : keeps b0 b;
  du_cwnd : congestionWindow b = congestionWindow b0;
  du_recovery : pre_recovery b
}.

Lemma during_step b0 b b' : during b0 b → keeps b b' → same_windows b b' → during b0 b'.
Proof.
  intros [K C R] K' [C' S' R']. split; [by etrans|congruence|].
  unfold pre_recovery in *. by rewrite S', R', (k_min _ _ K').
Qed.

Lemma during_start b : wfb b → during b b.
Proof. intros Hw. split; [done|done|]. intros H. right. by apply wb_recovery. Qed.

Lemma slice_get_last_valid (l : list Sampler.packetInfo) :
  negb (len l =? 0) = true → is_Some (slice_get l (len l - 1)).
Proof.
  intros H. apply SamplerProofs.slice_get_last. intros ->. done.
Qed.

(** The round-trip counter and the recovery state. *)
Lemma event_round_spec b0 b acked l :
  during b0 b →
  ∃ b' rs,
    startOfEvent b acked l = Some (b', rs) ∧ during b0 b' ∧ same_mode b b'.
Proof.
  intros D. unfold startOfEvent. destruct (negb (len acked =? 0)) eqn:E.
  2: { exists b, false. done. }
  destruct (slice_get_last_valid acked E) as [p ->]. cbn [mbind option_bind].
  pose proof (updateRoundTripCounter_frame b (Sampler.PacketNumber p)) as (K1 & M1 & W1).
  destruct (updateRoundTripCounter b (Sampler.PacketNumber p)) as [b1 rs]. cbn in *.
  pose proof (updateRecoveryState_frame b1 (Sampler.PacketNumber p) l rs) as (K2 & M2 & C2 & R2).
  do 2 eexists. split; [done|]. split; [|by etrans].
  pose proof (during_step _ _ _ D K1 W1) as [K C R].
  split; [by etrans|congruence|auto].
Qed.

Lemma modelUpdates_frame b before l s t lb :
  in_i64 (Sampler.sampleRtt s) →
  let b' := (modelUpdates b before l s t lb).1.1 in
  keeps b b' ∧ same_mode b b' ∧ same_windows b b'.
Proof.
  intros Hr. unfold modelUpdates. set (b1 := if Sampler.sts_isValid _ then _ else b).
  assert (H1 : keeps b b1 ∧ same_mode b b1 ∧ same_windows b b1) by (subst b1; case_if as E; frame).
  clearbody b1. set (b2 := if negb _ && _ then _ else b1).
  assert (H2 : keeps b1 b2 ∧ same_mode b1 b2 ∧ same_windows b1 b2) by (subst b2; case_if as E; frame).
  clearbody b2.
  assert (H3 : ∀ b3 e, (if negb (Sampler.sampleRtt s =? Sampler.infRTT)
    then maybeUpdateMinRtt b2 t (Sampler.sampleRtt s) else (b2, false)) = (b3, e) →
    keeps b2 b3 ∧ same_mode b2 b3 ∧ same_windows b2 b3).
  { intros b3 e H. case_all; simplify_eq; [|done].
    pose proof (maybeUpdateMinRtt_frame b2 t _ Hr) as Hf. by rewrite H in Hf. }
  destruct (if negb _ then maybeUpdateMinRtt b2 t _ else _) as [b3 e].
  specialize (H3 _ _ eq_refl). cbn.
  assert (H4 : ∀ b4, b4 = (if l then b3 <| numLossEventsInRound ::= (λ n, u64 (n + 1)) |>
      <| bytesLostInRound ::= (λ n, i64 (n + i64 (Sampler.TotalBytesLost (sampler b3) - lb))) |>
      else b3) → keeps b3 b4 ∧ same_mode b3 b4 ∧ same_windows b3 b4).
  { intros b4 ->. destruct l; frame. }
  specialize (H4 _ eq_refl). destruct H1 as (?&?&?), H2 as (?&?&?), H3 as (?&?&?), H4 as (?&?&?).
  split_and!; (etrans; [|etrans; [|etrans]]; eassumption).
Qed.

Lemma leastUnacked_total acked lost :
  acked ≠ [] ∨ lost ≠ [] → is_Some (leastUnacked acked lost).
Proof.
  intros H. unfold leastUnacked. case_if as E.
  - destruct (SamplerProofs.slice_get_last acked) as [p ->]; [by rewrite <- len_0|]. cbn. eauto.
  - apply len_0 in E as ->. destruct H as [?|H]; [done|].
    destruct (SamplerProofs.slice_get_last lost H) as [p ->]. cbn. eauto.
Qed.

(** The mode changes of an event. *)
Lemma event_modes_spec r b0 b t prior l rs exp s rnd1 rnd2 :
  during b0 b → 0 ≤ cycleCurrentOffset b < 8 → mode_ok (mode b) (isAtFullBandwidth b) →
  0 ≤ rnd1 → 0 ≤ rnd2 →
  ∃ b',
    (b ← (if bool_decide (mode b = bbrModeProbeBw)
          then updateGainCyclePhase r b t prior l else Some b);
     let b := if rs && negb (isAtFullBandwidth b)
              then checkIfFullBandwidthReached b s else b in
     b ← maybeExitStartupOrDrain r b t rnd1;
     maybeEnterOrExitProbeRtt b t rs exp rnd2) = Some b' ∧
    during b0 b' ∧ transition (isAtFullBandwidth b') (mode b) (mode b') ∧
    (isAtFullBandwidth b = true → isAtFullBandwidth b' = true).
Proof.
  intros D Ho Hok H1 H2.
  assert (Hs1 : ∃ b1, (if bool_decide (mode b = bbrModeProbeBw)
    then updateGainCyclePhase r b t prior l else Some b) = Some b1 ∧
    keeps b b1 ∧ same_mode b b1 ∧ same_windows b b1).
  { case_if as E; [by apply updateGainCyclePhase_frame|]. exists b. split_and!; done. }
  destruct Hs1 as (b1 & -> & K1 & [M1 F1] & W1). cbn [mbind option_bind].
  pose proof (during_step _ _ _ D K1 W1) as D1.
  set (b2 := if rs && _ then _ else b1).
  assert (Hs2 : keeps b1 b2 ∧ mode b2 = mode b1 ∧ same_windows b1 b2 ∧
    (isAtFullBandwidth b1 = true → isAtFullBandwidth b2 = true)).
  { subst b2. case_if as E; [apply checkIfFullBandwidthReached_frame|done]. }
  destruct Hs2 as (K2 & M2 & W2 & F2). clearbody b2.
  pose proof (during_step _ _ _ D1 K2 W2) as D2.
  destruct (maybeExitStartupOrDrain_frame r b2 t rnd1 H1) as (b3 & -> & K3 & W3 & F3 & M3).
  cbn [mbind option_bind]. pose proof (during_step _ _ _ D2 K3 W3) as D3.
  destruct (maybeEnterOrExitProbeRtt_frame b3 t rs exp rnd2 H2) as (b4 & -> & K4 & W4 & F4 & M4).
  exists b4. split; [done|]. split; [by eapply during_step|].
  rewrite F4, F3, <- F1. split; [|done]. rewrite M2, M1 in M3.
  assert (Hok2 : mode b ≠ bbrModeStartup → mode_ok (mode b) (isAtFullBandwidth b2)).
  { intros Hne. destruct (mode b); cbn in *; try done; apply F2; congruence. }
  assert (HT : transition (isAtFullBandwidth b2) (mode b) (mode b3)).
  { destruct (mode b); [|destruct M3 as [-> | ->]|..]; try (rewrite M3; apply tr_stay; auto; by apply Hok2).
    - destruct (isAtFullBandwidth b2) eqn:Ef; [destruct M3 as [-> | ->]|rewrite M3]; by constructor.
    - apply tr_stay. by apply Hok2.
    - apply tr_drained. by apply Hok2. }
  destruct M4 as [->|[->|[M4 ->]]]; [done|by constructor|]. rewrite F3, M4 in *.
  destruct (mode b), (isAtFullBandwidth b2); try done; try (by destruct M3); by constructor.
Qed.

(** Windows and pacing rate at the end of an event re-establish the invariant. *)
Lemma event_end_spec r b0 b acked lost excess :
  wfb b0 → during b0 b → mode_ok (mode b) (isAtFullBandwidth b) → 0 < r < 2 ^ 62 →
  ∃ b1, calculatePacingRate r b lost = Some b1 ∧
    let b2 := calculateRecoveryWindow (calculateCongestionWindow r b1 acked excess) acked lost in
    wfb b2 ∧ same_mode b b2.
Proof.
  intros Hw D Hm Hr. destruct (calculatePacingRate_frame r b lost Hr) as (b1 & -> & K1 & M1 & W1).
  exists b1. split; [done|]. destruct (during_step _ _ _ D K1 W1) as [K C R].
  destruct (calculateCongestionWindow_spec r b1 acked excess) as (K2 & M2 & S2 & R2 & C2).
  { destruct Hw. destruct K. lia. }
  { destruct Hw. destruct K. lia. }
  set (b2 := calculateCongestionWindow r b1 acked excess) in *. clearbody b2.
  destruct (calculateRecoveryWindow_spec b2 acked lost) as (K3 & M3 & C3 & S3 & R3).
  set (b3 := calculateRecoveryWindow b2 acked lost) in *. clearbody b3.
  assert (K0 : keeps b0 b3) by (etrans; [exact K|]; by etrans).
  assert (M0 : same_mode b b3) by (etrans; [exact M1|]; by etrans).
  split; [|done]. destruct Hw, K0, M0 as [Mm Mf], K2, K3. split; auto; try lia.
  - intros Hn. specialize (R3 Hn). lia.
  - by rewrite Mm, Mf.
Qed.

Lemma OnCongestionEventEx_wfb r b prior t acked lost rnd1 rnd2 :
  wfb b → 0 < r < 2 ^ 62 → SamplerProofs.valid_time t →
  Forall SamplerProofs.valid_info acked → Forall SamplerProofs.valid_info lost →
  acked ≠ [] ∨ lost ≠ [] → 0 ≤ rnd1 → 0 ≤ rnd2 →
  ∃ b', OnCongestionEventEx r b prior t acked lost rnd1 rnd2 = Some b' ∧ wfb b' ∧
    transition (isAtFullBandwidth b') (mode b) (mode b') ∧
    (isAtFullBandwidth b = true → isAtFullBandwidth b' = true).
Proof.
  intros Hw Hr Ht Ha Hl Hne H1 H2. unfold OnCongestionEventEx.
  destruct (maybeAppLimited_frame r b prior) as (K1 & M1 & W1).
  set (b1 := maybeAppLimited r b prior) in *. clearbody b1.
  pose proof (during_step _ _ _ (during_start b Hw) K1 W1) as D1.
  set (b2 := b1 <| bytesInFlight := _ |>).
  assert (D2 : during b b2) by (eapply during_step; [exact D1|subst b2; frame..]).
  assert (M2 : same_mode b b2) by (etrans; [exact M1|subst b2; frame]). clearbody b2.
  destruct (event_round_spec b b2 acked (negb (len lost =? 0)) D2) as (b3 & rs & -> & D3 & M3').
  assert (M3 : same_mode b b3) by by etrans. cbn [mbind option_bind].
  destruct (SamplerProofs.OnCongestionEvent_wfs (sampler b3) t acked lost
    (Filter.GetBest (maxBandwidth b3)) Sampler.infBandwidth (roundTripCount b3))
    as (s & sample & -> & Hs & _ & Hrtt & _); try done.
  { apply (k_wfs _ _ (du_keeps _ _ D3)), Hw. }
  cbn [mbind option_bind]. set (b4 := b3 <| sampler := s |>).
  assert (D4 : during b b4) by (eapply during_step; [exact D3|subst b4; frame..]).
  assert (M4 : same_mode b b4) by (etrans; [exact M3|subst b4; frame]). clearbody b4.
  pose proof (modelUpdates_frame b4 (Sampler.TotalBytesAcked (sampler b)) (negb (len lost =? 0))
    sample t (Sampler.TotalBytesLost (sampler b)) Hrtt) as (K5 & M5' & W5).
  destruct (modelUpdates b4 _ _ _ _ _) as [[b5 exp] bl]. cbn in K5, M5', W5.
  pose proof (during_step _ _ _ D4 K5 W5) as D5.
  assert (M5 : same_mode b b5) by by etrans.
  destruct (event_modes_spec r b b5 t prior (negb (len lost =? 0)) rs exp
    (Sampler.lastPacketSendState sample) rnd1 rnd2 D5) as (b6 & E6 & D6 & T6 & F6); try done.
  { apply (k_offset _ _ (du_keeps _ _ D5)), Hw. }
  { destruct M5 as [-> ->]. apply Hw. }
  destruct (if bool_decide (mode b5 = _) then _ else _) as [b51|]; [|done].
  cbn [mbind option_bind] in *.
  destruct (maybeExitStartupOrDrain _ _ _ _) as [b52|]; [|done]. cbn [mbind option_bind] in *.
  rewrite E6. cbn [mbind option_bind].
  set (ba := i64 (Sampler.TotalBytesAcked _ - _)).
  destruct (event_end_spec r b b6 ba bl (Sampler.sampleExtraAcked sample) Hw D6)
    as (b7 & -> & Hw8 & M8); [by eapply transition_ok|done|]. cbn [mbind option_bind].
  set (b8 := calculateRecoveryWindow _ _ _) in *. clearbody b8.
  destruct (leastUnacked_total acked lost Hne) as [lu ->]. cbn [mbind option_bind].
  destruct (SamplerProofs.RemoveObsoletePackets_wfs (sampler b8) lu (wb_wfs _ Hw8))
    as (s' & -> & Hs' & _). cbn [mbind option_bind].
  destruct M8 as [Mm Mf], M5 as [Mm5 Mf5]. rewrite Mm5 in T6. rewrite Mf5 in F6.
  eexists. split; [done|].
  destruct Hw8. destruct rs; cbn; rewrite Mm, Mf; (split; [split; cbn; auto; congruence|done]).
Qed.

(** ** The other operations *)

Lemma bandwidthForPacer_spec r b :
  wfb b → 0 ≤ r < 2 ^ 62 → ∃ bw, bandwidthForPacer r b = Some bw ∧ minBps ≤ bw < 2 ^ 63.
Proof.
  intros Hw Hr. unfold bandwidthForPacer.
  assert (Hp : is_Some (PacingRate r b)).
  { unfold PacingRate. case_if as E; [|eauto].
    assert (Hm : getMinRtt r b ≠ 0 ∧ in_i64 (getMinRtt r b)).
    { unfold getMinRtt. pose proof (wb_rtt b Hw). case_ifs; unfold in_i64 in *; lia. }
    destruct (BandwidthFromDelta_nonzero (initialCongestionWindow b) (getMinRtt r b)) as [x ->];
      [apply Hm..|]. cbn. eauto. }
  destruct Hp as [rate ->]. cbn. eexists. split; [done|].
  match goal with |- context [i64_of_f64 ?f] => pose proof (i64_of_f64_range f) as Hf end.
  unfold in_i64, minBps in *. case_if as E; b2p; lia.
Qed.

Lemma OnPacketSent_wfb r b t inflight pn bytes retrans :
  wfb b → 0 ≤ r < 2 ^ 62 → SamplerProofs.valid_time t → PNQueue.valid_pn pn →
  ∃ b', OnPacketSent r b t inflight pn bytes retrans = Some b' ∧ wfb b' ∧ same_mode b b'.
Proof.
  intros Hw Hr Ht Hp. unfold OnPacketSent.
  destruct (bandwidthForPacer_spec r b Hw Hr) as (bw & -> & _). cbn [mbind option_bind].
  set (b1 := if inflight =? 0 then _ else _).
  assert (H1 : sampler b1 = sampler b ∧ same_mode b b1 ∧ (wfb b → wfb b1)).
  { subst b1. case_if as E; (split; [done|]); (split; [frame|]); intros []; split; cbn; auto. }
  destruct H1 as (S1 & M1 & W1). specialize (W1 Hw). clearbody b1.
  destruct (SamplerProofs.OnPacketSent_wfs (sampler b1) t pn bytes inflight retrans)
    as (s & -> & Hs & _); [apply W1|done|done|]. cbn [mbind option_bind].
  eexists. split; [done|]. destruct W1. split; [split; cbn; auto|]. etrans; [exact M1|]. frame.
Qed.

Lemma scale_spec w old new :
  0 < old ≤ new → new ≤ 65535 → 0 ≤ w ≤ MaxCongestionWindowPackets * old →
  scaleByteWindowForDatagramSize w old new = Some (w * new / old).
Proof.
  intros Ho Hn Hw. unfold scaleByteWindowForDatagramSize. pose proof MaxCongestionWindowPackets_range.
  case_if as E; b2p. { subst. by rewrite Z.div_mul by lia. }
  assert (w ≤ 2 ^ 32 * 65535) by nia.
  rewrite (u64_small old), (u64_small new), (u64_small w) by (unfold in_u64; lia).
  rewrite (proj2 (Z.eqb_neq old 0)) by lia. rewrite u64_small by (unfold in_u64; nia).
  assert (0 ≤ w * new / old) by (apply Z.div_pos; nia).
  assert (w * new / old ≤ MaxCongestionWindowPackets * new) by (apply Z.div_le_upper_bound; nia).
  by rewrite i64_small by (unfold in_i64; nia).
Qed.

Lemma SetMaxDatagramSize_wfb b s :
  wfb b → maxDatagramSize b ≤ s ≤ 65535 →
  ∃ b', SetMaxDatagramSize b s = Some b' ∧ wfb b' ∧ same_mode b b' ∧ maxDatagramSize b' = s.
Proof.
  intros Hw Hs. pose proof (wb_rate b Hw) as H1. pose proof (wb_adj b Hw) as H2.
  pose proof (wb_mds b Hw) as Hm. pose proof (wb_max b Hw) as HM.
  pose proof (wb_init b Hw) as HI. pose proof (wb_min b Hw) as Hmin.
  unfold SetMaxDatagramSize. rewrite (proj2 (Z.ltb_ge s _)) by lia.
  unfold rescalePacketSizedWindows. cbn. rewrite !scale_spec by lia. cbn.
  unfold minCongestionWindowForMaxDatagramSize, minCongestionWindowPackets.
  rewrite (i64_small (4 * s)) by (unfold in_i64; lia).
  set (old := maxDatagramSize b) in *.
  assert (B1 : 4 * s ≤ initialCongestionWindow b * s / old) by (apply Z.div_le_lower_bound; nia).
  assert (B2 : initialCongestionWindow b * s / old ≤ maxCongestionWindow b * s / old)
    by (apply Z.div_le_mono; nia).
  assert (B3 : maxCongestionWindow b * s / old ≤ MaxCongestionWindowPackets * s)
    by (apply Z.div_le_upper_bound; nia).
  assert (B4 : ∀ w, 0 ≤ w ≤ MaxCongestionWindowPackets * old →
                    0 ≤ w * s / old ≤ MaxCongestionWindowPackets * s).
  { intros w Hww. split; [apply Z.div_pos|apply Z.div_le_upper_bound]; nia. }
  pose proof (B4 _ H1). pose proof (B4 _ H2). clear B4. destruct Hw.
  set (i' := initialCongestionWindow b * s / old) in *.
  set (m' := maxCongestionWindow b * s / old) in *. clearbody i' m'.
  case_if as E1; [|case_if as E2]; (eexists; split; [done|]; split; [|by split]);
    split; cbn; auto; try lia; intros _; lia.
Qed.

(** ** Runs of the controller *)

Lemma new_wfb now mds p :
  0 < mds ≤ 65535 →
  ∃ b, NewBbrSender now mds p = Some b ∧ wfb b ∧ mode b = bbrModeStartup.
Proof.
  intros Hm. pose proof MaxCongestionWindowPackets_range as HP.
  unfold NewBbrSender, newBbrSender, initialCongestionWindowPackets.
  rewrite !i64_small by (unfold in_i64; nia).
  destruct (SamplerProofs.new_wfs bandwidthWindowSize) as (s & -> & Hs). cbn [mbind option_bind].
  set (b0 := mkBbr _ _ _ _ _ _ _ _ _ _ _ _ _ _ _ _ _ _ _ _ _ _ _ _ _ _ _ _ _ _ _ _ _ _ _ _ _
    _ _ _ _ _ _ _ _ _ _).
  assert (W0 : wfb b0).
  { subst b0. split; cbn; unfold minCongestionWindowForMaxDatagramSize, minCongestionWindowPackets;
      rewrite ?i64_small by (unfold in_i64; lia); try done; nia. }
  eexists. split; [done|]. split; [|done].
  unfold applyProfile. set (cfg := configForProfile _). destruct cfg; cbn. destruct W0.
  case_if as E; split; cbn; auto; apply SetReduce_wfs; auto. by apply Enable_wfs.
Qed.

Inductive bevent :=
| BSent (minRTT sentTime inFlight pn bytes : Z) (isRetransmittable : bool)
| BCongestion (minRTT prior eventTime : Z) (acked lost : list Sampler.packetInfo) (rnd1 rnd2 : Z)
| BSetMaxDatagramSize (size : Z).

Definition bbr_step (b : bbrSender) (ev : bevent) : option bbrSender :=
  match ev with
  | BSent r t inflight pn n retrans => OnPacketSent r b t inflight pn n retrans
  | BCongestion r prior t acked lost rnd1 rnd2 =>
      OnCongestionEventEx r b prior t acked lost rnd1 rnd2
  | BSetMaxDatagramSize s => SetMaxDatagramSize b s
  end.

(** What quic-go guarantees when it calls the controller: a congestion event
    has packets and comes with a measured RTT, a datagram size never shrinks. *)
Definition bevent_ok (b : bbrSender) (ev : bevent) : Prop :=
  match ev with
  | BSent r t _ pn _ _ => 0 ≤ r < 2 ^ 62 ∧ SamplerProofs.valid_time t ∧ PNQueue.valid_pn pn
  | BCongestion r _ t acked lost rnd1 rnd2 =>
      0 < r < 2 ^ 62 ∧ SamplerProofs.valid_time t ∧
      Forall SamplerProofs.valid_info acked ∧ Forall SamplerProofs.valid_info lost ∧
      (acked ≠ [] ∨ lost ≠ []) ∧ 0 ≤ rnd1 ∧ 0 ≤ rnd2
  | BSetMaxDatagramSize s => maxDatagramSize b ≤ s ≤ 65535
  end.

(** The states a controller created by [NewBbrSender] can be in. *)
Inductive reachable : bbrSender → Prop :=
| reach_new now mds p b :
    0 < mds ≤ 65535 → NewBbrSender now mds p = Some b → reachable b
| reach_step b ev b' :
    reachable b → bevent_ok b ev → bbr_step b ev = Some b' → reachable b'.

Lemma bbr_step_wfb b ev :
  wfb b → bevent_ok b ev →
  ∃ b', bbr_step b ev = Some b' ∧ wfb b' ∧
    transition (isAtFullBandwidth b') (mode b) (mode b') ∧
    (isAtFullBandwidth b = true → isAtFullBandwidth b' = true).
Proof.
  intros Hw Hok. destruct ev; simpl in *.
  - destruct Hok as (Hr & Ht & Hp).
    destruct (OnPacketSent_wfb minRTT b sentTime inFlight pn bytes isRetransmittable Hw Hr Ht Hp)
      as (b' & Hb' & Hw' & [Mm Mf]).
    exists b'. split_and!; try done; [|congruence]. rewrite Mm. apply tr_stay. rewrite <- Mm. apply Hw'.
  - destruct Hok as (Hr & Ht & Ha & Hl & Hne & H1 & H2). by apply OnCongestionEventEx_wfb.
  - destruct (SetMaxDatagramSize_wfb b size Hw Hok) as (b' & Hb' & Hw' & [Mm Mf] & _).
    exists b'. split_and!; try done; [|congruence]. rewrite Mm. apply tr_stay. rewrite <- Mm. apply Hw'.
Qed.

Lemma reachable_wfb b : reachable b → wfb b.
Proof.
  induction 1 as [now mds p b Hm Hb|b ev b' _ IH Hok Hs].
  - destruct (new_wfb now mds p Hm) as (b1 & Hb1 & Hw & _). congruence.
  - destruct (bbr_step_wfb b ev IH Hok) as (b1 & Hb1 & Hw & _). congruence.
Qed.

(** C1.  The congestion window is always usable: in every reachable state the
    window BBR advertises, in every mode and in recovery, lies between four
    datagrams and the maximum window, so that a connection with nothing in
    flight may always send. *)
Theorem bbr_window_bounds (b : bbrSender) :
  reachable b →
  4 * maxDatagramSize b ≤ GetCongestionWindow b ≤ maxCongestionWindow b ∧
  CanSend b 0 = true.
Proof.
  intros Hr. destruct (reachable_wfb b Hr).
  assert (HW : 4 * maxDatagramSize b ≤ GetCongestionWindow b ≤ maxCongestionWindow b).
  { unfold GetCongestionWindow, probeRttCongestionWindow, InRecovery. case_ifs; try lia.
    specialize (wb_recovery0 Hif0). lia. }
  split; [done|]. apply Z.ltb_lt. lia.
Qed.


(** The pacer always has a rate: in every reachable state, with or without
    an RTT measurement, the bandwidth given to the pacer is at least 64 KB/s and
    asking when to send next does not divide by zero. *)
Theorem bbr_pacing_rate (b : bbrSender) (minRTT inFlight : Z) :
  reachable b → 0 ≤ minRTT < 2 ^ 62 →
  ∃ bw, bandwidthForPacer minRTT b = Some bw ∧ minBps ≤ bw < 2 ^ 63 ∧
        is_Some (TimeUntilSend minRTT b inFlight).
Proof.
  intros Hr Hm.
  destruct (bandwidthForPacer_spec minRTT b (reachable_wfb b Hr) Hm) as (bw & Hbw & Hmin & Hmax).
  exists bw. split_and!; try done. unfold TimeUntilSend. rewrite Hbw. cbn.
  unfold Pacer.TimeUntilSend. case_if as E; [eauto|].
  rewrite (u64_small bw) by (unfold in_u64, minBps in *; lia).
  rewrite (proj2 (Z.eqb_neq bw 0)) by (unfold minBps in *; lia). eauto.
Qed.

(** ** Preconditions the callers must respect *)

(** An event without any packet indexes the last element of an empty slice. *)
Theorem empty_event_panics r b prior t rnd1 rnd2 :
  OnCongestionEventEx r b prior t [] [] rnd1 rnd2 = None.
Proof.
  unfold OnCongestionEventEx. change (leastUnacked [] []) with (@None Z).
  destruct (startOfEvent _ _ _) as [[b1 rs]|]; [|done]. cbn [mbind option_bind].
  destruct (Sampler.OnCongestionEvent _ _ _ _ _ _ _) as [[s sample]|]; [|done].
  cbn [mbind option_bind]. destruct (modelUpdates _ _ _ _ _ _) as [[b2 e] bl].
  destruct (if bool_decide _ then _ else _) as [b3|]; [|done]. cbn [mbind option_bind].
  destruct (maybeExitStartupOrDrain _ _ _ _) as [b4|]; [|done]. cbn [mbind option_bind].
  destruct (maybeEnterOrExitProbeRtt _ _ _ _ _) as [b5|]; [|done]. cbn [mbind option_bind].
  by destruct (calculatePacingRate _ _ _).
Qed.

(** While overshooting is being detected, a loss before the RTT statistics have a
    minimum divides by zero: the guard of the first use of [MinRTT] is missing
    from the second. *)
Theorem overshoot_without_rtt_panics b lost :
  bandwidthEstimate b ≠ 0 → isAtFullBandwidth b = false → detectOvershooting b = true →
  hasNoAppLimitedSample b = true →
  u64_of_f64 (fmul (pacingGain b) (f64_of_Z (bandwidthEstimate b))) < pacingRate b →
  0 < i64 (bytesLostWhileDetectingOvershooting b + lost) →
  calculatePacingRate 0 b lost = None.
Proof.
  intros Hbw Hf Hd Hn Hp Hl. unfold calculatePacingRate.
  rewrite (proj2 (Z.eqb_neq _ 0) Hbw), Hf, Hd, andb_false_r. cbn.
  by rewrite Hn, (proj2 (Z.ltb_lt _ _) Hp), (proj2 (Z.ltb_lt _ _) Hl).
Qed.

End BbrProofs.

(** ** Concrete runs *)

#[local] Instance bbrQuic : QuicGo := quicGoExample.
#[local] Instance bbrLaws : QuicGoLaws bbrQuic := quicGoExample_laws.
#[local] Instance bbrConv : FloatConv :=
  {| float_oor_i64 := λ _, 0; float_oor_u64 := λ _, 0 |}.

Lemma example_reachable :
  ∃ b, NewBbrSender 0 1280 ProfileStandard = Some b ∧ reachable b.
Proof.
  destruct (new_wfb 0 1280 ProfileStandard) as (b & Hb & _); [lia|].
  exists b. split; [done|]. by eapply reach_new; [|exact Hb].
Qed.

Lemma bbr_window_bounds_witness :
  ∃ b, NewBbrSender 0 1280 ProfileStandard = Some b ∧ CanSend b 0 = true.
Proof.
  destruct example_reachable as (b & Hb & Hr). exists b. split; [exact Hb|].
  apply (bbr_window_bounds b Hr).
Defined.


Lemma bbr_pacing_rate_witness :
  ∃ b bw, NewBbrSender 0 1280 ProfileStandard = Some b ∧
    bandwidthForPacer 0 b = Some bw ∧ minBps ≤ bw.
Proof.
  destruct example_reachable as (b & Hb & Hr).
  destruct (bbr_pacing_rate b 0 0 Hr) as (bw & H1 & H2 & _); [lia|].
  exists b, bw. split; [exact Hb|]. split; [exact H1|apply H2].
Defined.

End BbrProofs.
