(* ===== verification/Brutal.v ===== *)
(** * Brutal.v: the fixed-rate congestion controller
    (src/transports/transport_quic/congestion/brutal/brutal.go)

    The sender with its pacer (Pacer.v) and its five one-second slots of packet
    counts.  [rttStats.SmoothedRTT()] is the argument [rtt]; debug output is
    left out.  The theorem shows that the acknowledgement rate is computed from
    exactly the packets of the last five seconds. *)

From S2P Require Import Prelude GoFloat QuicGo Pacer.
From Stdlib Require Import ZArith Lia.
From stdpp Require Import base list option numbers sets.

Local Open Scope Z_scope.
Local Open Scope go_scope.

Module Brutal.
Import GoFloat.
Section Brutal.
Context `{Q : !QuicGo} `{F : !FloatConv}.

Definition pktInfoSlotCount : Z := 5.
Definition minSampleCount : Z := 50.
Definition minAckRate : float64 := f64_const 8 10.
Definition congestionWindowMultiplier : float64 := f64_of_Z 2.

Record pktInfo := mkPktInfo {
  Timestamp : Z;
  AckCount : Z;
  LossCount : Z
}.

Record Sender := mkSender {
  bps : Z;
  maxDatagramSize : Z;
  pacer : Pacer.Pacer;
  pktInfoSlots : list pktInfo;
  ackRate : float64
}.

#[export] Instance eta_Sender : Eta Sender :=
  fun s => mkSender (bps s) (maxDatagramSize s) (pacer s) (pktInfoSlots s) (ackRate s).

Definition NewSender (bps : Z) : Sender :=
  mkSender (i64 bps) InitialPacketSize Pacer.NewPacer
    (replicate 5 (mkPktInfo 0 0 0)) (f64_of_Z 1).

(** The closure given to the pacer. *)
Definition pacerBandwidth (s : Sender) : Z := i64_of_f64 (fdiv (f64_of_Z (bps s)) (ackRate s)).

Definition TimeUntilSend (s : Sender) : option Z :=
  Pacer.TimeUntilSend (pacer s) (pacerBandwidth s).

Definition HasPacingBudget (s : Sender) (now : Z) : bool :=
  maxDatagramSize s <=? Pacer.Budget (pacer s) (pacerBandwidth s) now.

(** [Duration.Seconds]. *)
Definition Seconds (d : Z) : float64 :=
  fadd (f64_of_Z (Z.quot d (10 ^ 9))) (fdiv (f64_of_Z (Z.rem d (10 ^ 9))) (f64_of_Z (10 ^ 9))).

Definition GetCongestionWindow (s : Sender) (rtt : Z) : Z :=
  if rtt <=? 0 then 10240
  else
    let cwnd := i64_of_f64 (fdiv (fmul (fmul (f64_of_Z (bps s)) (Seconds rtt))
                                    congestionWindowMultiplier) (ackRate s)) in
    if cwnd <? maxDatagramSize s then maxDatagramSize s else cwnd.

Definition CanSend (s : Sender) (rtt bytesInFlight : Z) : bool :=
  bytesInFlight <=? GetCongestionWindow s rtt.

Definition OnPacketSent (s : Sender) (sentTime bytes : Z) : Sender :=
  s <| pacer ::= (λ p, Pacer.SentPacket p (pacerBandwidth s) sentTime bytes) |>.

(** The counts of the slots that are recent enough. *)
Definition sumSlots (minTimestamp : Z) (slots : list pktInfo) : Z * Z :=
  foldl (λ '(ackCount, lossCount) info,
           if Timestamp info <? minTimestamp then (ackCount, lossCount)
           else (u64 (ackCount + AckCount info), u64 (lossCount + LossCount info)))
    (0, 0) slots.

Definition updateAckRate (s : Sender) (currentTimestamp : Z) : Sender :=
  let minTimestamp := i64 (currentTimestamp - pktInfoSlotCount) in
  let '(ackCount, lossCount) := sumSlots minTimestamp (pktInfoSlots s) in
  if u64 (ackCount + lossCount) <? minSampleCount then s <| ackRate := f64_of_Z 1 |>
  else
    let rate := fdiv (f64_of_Z ackCount) (f64_of_Z (u64 (ackCount + lossCount))) in
    if flt rate minAckRate then s <| ackRate := minAckRate |> else s <| ackRate := rate |>.

(** [nAcked] and [nLost] are the lengths of the packet lists; a negative slot
    number (a negative time) panics. *)
Definition OnCongestionEventEx (s : Sender) (eventTime nAcked nLost : Z) : option Sender :=
  let currentTimestamp := Z.quot eventTime (10 ^ 9) in
  let slot := Z.rem currentTimestamp pktInfoSlotCount in
  info ← slice_get (pktInfoSlots s) slot;
  let info :=
    if Timestamp info =? currentTimestamp then
      mkPktInfo (Timestamp info) (u64 (AckCount info + nAcked)) (u64 (LossCount info + nLost))
    else mkPktInfo currentTimestamp (u64 nAcked) (u64 nLost) in
  slots ← slice_set (pktInfoSlots s) slot info;
  Some (updateAckRate (s <| pktInfoSlots := slots |>) currentTimestamp).

Definition SetMaxDatagramSize (s : Sender) (size : Z) : Sender :=
  s <| maxDatagramSize := size |> <| pacer ::= (λ p, Pacer.SetMaxDatagramSize p size) |>.

Definition InSlowStart : bool := false.
Definition InRecovery : bool := false.

(** ** The five-second window *)

(** A congestion event: its second, and how many packets it acked and lost. *)
Record count := mkCount { second : Z; acked : Z; lost : Z }.

(** The packets ([f] selects acked or lost) of the events that satisfy [P]. *)
Fixpoint sumIf (f : count → Z) (P : Z → bool) (h : list count) : Z :=
  match h with
  | [] => 0
  | c :: h => (if P (second c) then f c else 0) + sumIf f P h
  end.

Definition inWindow (now : Z) (t : Z) : bool := now - pktInfoSlotCount <? t.

Lemma sumIf_app f P h1 h2 : sumIf f P (h1 ++ h2) = sumIf f P h1 + sumIf f P h2.
Proof. induction h1; simpl; lia. Qed.

Lemma sumIf_ext f P P' h :
  (∀ c, c ∈ h → P (second c) = P' (second c)) → sumIf f P h = sumIf f P' h.
Proof.
  induction h as [|c h IH]; intros H; simpl; [done|].
  rewrite IH by (intros; apply H; set_solver). by rewrite (H c) by set_solver.
Qed.

Lemma sumIf_none f P h : (∀ c, c ∈ h → P (second c) = false) → sumIf f P h = 0.
Proof.
  induction h as [|c h IH]; intros H; simpl; [done|].
  rewrite IH by (intros; apply H; set_solver). by rewrite (H c) by set_solver.
Qed.

(** Every event falls in one of the five residue classes. *)
Lemma sumIf_residues f P h :
  sumIf f P h = sumIf f (λ t, P t && (t mod 5 =? 0)) h + sumIf f (λ t, P t && (t mod 5 =? 1)) h
    + sumIf f (λ t, P t && (t mod 5 =? 2)) h + sumIf f (λ t, P t && (t mod 5 =? 3)) h
    + sumIf f (λ t, P t && (t mod 5 =? 4)) h.
Proof.
  induction h as [|c h IH]; simpl; [done|]. rewrite IH.
  pose proof (Z.mod_pos_bound (second c) 5 ltac:(lia)).
  destruct (P (second c)); simpl; [|lia].
  assert (second c mod 5 = 0 ∨ second c mod 5 = 1 ∨ second c mod 5 = 2 ∨ second c mod 5 = 3
          ∨ second c mod 5 = 4) as [->|[->|[->|[->| ->]]]] by lia; simpl; lia.
Qed.

Lemma sumIf_nonneg f P h : Forall (λ c, 0 ≤ f c) h → 0 ≤ sumIf f P h.
Proof. induction 1; simpl; [lia|]. case_if as E; lia. Qed.

Lemma sumIf_le f P h : Forall (λ c, 0 ≤ f c) h → sumIf f P h ≤ sumIf f (λ _, true) h.
Proof. induction 1; simpl; [lia|]. case_if as E; lia. Qed.

(** Slot [i] describes the last second of its residue class in the history. *)
Definition describes (h : list count) (i : Z) (info : pktInfo) : Prop :=
  (∀ c, c ∈ h → second c mod 5 = i → second c ≤ Timestamp info) ∧
  (AckCount info = sumIf acked (Z.eqb (Timestamp info)) h
   ∧ LossCount info = sumIf lost (Z.eqb (Timestamp info)) h
   ∧ Timestamp info mod 5 = i
   ∨ info = mkPktInfo 0 0 0 ∧ ∀ c, c ∈ h → second c mod 5 ≠ i).

(** The state after the events of [h], the last of them in second [now]. *)
Record tracked (h : list count) (now : Z) (slots : list pktInfo) : Prop := {
  tk_len : length slots = 5%nat;
  tk_past : ∀ c, c ∈ h → 0 ≤ second c ≤ now;
  tk_slots : ∀ (i : nat) info, slots !! i = Some info →
               describes h (Z.of_nat i) info ∧ 0 ≤ Timestamp info ≤ now
}.

Definition counts_ok (h : list count) : Prop :=
  Forall (λ c, 0 ≤ acked c) h ∧ Forall (λ c, 0 ≤ lost c) h ∧
  sumIf acked (λ _, true) h + sumIf lost (λ _, true) h < 2 ^ 64.

Lemma same_residue a b : a mod 5 = b mod 5 → - 5 < a - b < 5 → a = b.
Proof. intros H Hd. pose proof (Z.div_mod a 5). pose proof (Z.div_mod b 5). lia. Qed.

(** The counter of a slot that measures [f]. *)
Definition measures (f : count → Z) (g : pktInfo → Z) : Prop :=
  f = acked ∧ g = AckCount ∨ f = lost ∧ g = LossCount.

Definition contribution (minTimestamp : Z) (g : pktInfo → Z) (info : pktInfo) : Z :=
  if Timestamp info <? minTimestamp then 0 else g info.

Fixpoint zsum (l : list Z) : Z := match l with [] => 0 | x :: l => x + zsum l end.

(** The contribution of one slot is what its residue class has in the window. *)
Lemma slot_contribution h now slots (i : nat) r info f g :
  tracked h now slots → measures f g → (∃ c, c ∈ h ∧ second c = now) →
  slots !! i = Some info → r = Z.of_nat i →
  contribution (now - 5) g info = sumIf f (λ t, inWindow now t && (t mod 5 =? r)) h.
Proof.
  intros [Hl Hp Hs] Hfg (c0 & Hc0 & Hnow) Hi ->.
  unfold inWindow, pktInfoSlotCount, contribution.
  destruct (Hs i info Hi) as [[Hmax [(HA & HL & Hmod)|[-> Hnone]]] Ht].
  2: { rewrite sumIf_none. { destruct Hfg as [[_ ->]|[_ ->]]; cbn; by case_if as E. }
       intros c Hc. specialize (Hnone c Hc). apply andb_false_iff. right. by apply Z.eqb_neq. }
  assert (Hg : g info = sumIf f (Z.eqb (Timestamp info)) h) by by destruct Hfg as [[-> ->]|[-> ->]].
  assert (Hn5 : Timestamp info ≠ now - 5).
  { intros E. assert (second c0 mod 5 = Z.of_nat i).
    { rewrite <- Hmod, E, Hnow, <- (Z.mod_add (now - 5) 1 5) by lia. f_equal. lia. }
    specialize (Hmax c0 Hc0 ltac:(done)). lia. }
  case_if as E; b2p; [symmetry; apply sumIf_none|rewrite Hg; apply sumIf_ext]; intros c Hc.
  - apply andb_false_iff. destruct (Z_lt_le_dec (now - 5) (second c)) as [Hw|Hw].
    + right. apply Z.eqb_neq. intros Hm. specialize (Hmax c Hc Hm). lia.
    + left. by apply Z.ltb_ge.
  - apply eq_true_iff_eq. rewrite andb_true_iff, Z.ltb_lt, !Z.eqb_eq. split.
    + intros <-. split; [lia|done].
    + intros [Hw Hm]. symmetry. apply same_residue; [congruence|].
      specialize (Hmax c Hc Hm). destruct (Hp c Hc). lia.
Qed.

Lemma contributions_window h now slots f g :
  tracked h now slots → measures f g → (∃ c, c ∈ h ∧ second c = now) →
  zsum (contribution (now - 5) g <$> slots) = sumIf f (inWindow now) h.
Proof.
  intros Ht Hfg Hc. rewrite (sumIf_residues f).
  destruct slots as [|s0 [|s1 [|s2 [|s3 [|s4 [|]]]]]]; try (destruct Ht as [Hl _ _]; discriminate Hl).
  rewrite <- (slot_contribution h now _ 0 0 s0 f g Ht Hfg Hc eq_refl eq_refl),
    <- (slot_contribution h now _ 1 1 s1 f g Ht Hfg Hc eq_refl eq_refl),
    <- (slot_contribution h now _ 2 2 s2 f g Ht Hfg Hc eq_refl eq_refl),
    <- (slot_contribution h now _ 3 3 s3 f g Ht Hfg Hc eq_refl eq_refl),
    <- (slot_contribution h now _ 4 4 s4 f g Ht Hfg Hc eq_refl eq_refl).
  cbn. lia.
Qed.

Lemma zsum_nonneg l : Forall (Z.le 0) l → 0 ≤ zsum l.
Proof. induction 1; simpl; lia. Qed.

Lemma sumSlots_zsum m slots a l :
  0 ≤ a → 0 ≤ l →
  Forall (Z.le 0) (contribution m AckCount <$> slots) →
  Forall (Z.le 0) (contribution m LossCount <$> slots) →
  a + zsum (contribution m AckCount <$> slots) < 2 ^ 64 →
  l + zsum (contribution m LossCount <$> slots) < 2 ^ 64 →
  foldl (λ '(ackCount, lossCount) info,
           if Timestamp info <? m then (ackCount, lossCount)
           else (u64 (ackCount + AckCount info), u64 (lossCount + LossCount info))) (a, l) slots
  = (a + zsum (contribution m AckCount <$> slots), l + zsum (contribution m LossCount <$> slots)).
Proof.
  revert a l. induction slots as [|i slots IH]; intros a l Ha Hl FA FL BA BL; csimpl in *.
  { f_equal; lia. }
  inversion_clear FA as [|? ? PA FA']. inversion_clear FL as [|? ? PL FL'].
  pose proof (zsum_nonneg _ FA'). pose proof (zsum_nonneg _ FL').
  assert (CA : contribution m AckCount i = if Timestamp i <? m then 0 else AckCount i) by done.
  assert (CL : contribution m LossCount i = if Timestamp i <? m then 0 else LossCount i) by done.
  rewrite CA, CL in *. destruct (Timestamp i <? m).
  - rewrite IH by (try done; lia). f_equal; lia.
  - rewrite !u64_small by (unfold in_u64; lia). rewrite IH by (try done; lia). f_equal; lia.
Qed.

Lemma contribution_nonneg h now slots f g :
  tracked h now slots → measures f g → (∃ c, c ∈ h ∧ second c = now) →
  Forall (λ c, 0 ≤ f c) h → Forall (Z.le 0) (contribution (now - 5) g <$> slots).
Proof.
  intros Ht Hfg Hc Hf. apply Forall_fmap, Forall_lookup_2. intros i info Hi. cbn.
  rewrite (slot_contribution h now slots i (Z.of_nat i) info f g Ht Hfg Hc Hi eq_refl).
  by apply sumIf_nonneg.
Qed.

(** The slots hold the counts of the window. *)
Lemma sumSlots_window h now slots :
  tracked h now slots → counts_ok h → (∃ c, c ∈ h ∧ second c = now) →
  sumSlots (now - 5) slots = (sumIf acked (inWindow now) h, sumIf lost (inWindow now) h).
Proof.
  intros Ht (HA & HL & Hsum) Hc.
  assert (MA : measures acked AckCount) by by left. assert (ML : measures lost LossCount) by by right.
  pose proof (sumIf_le acked (inWindow now) h HA). pose proof (sumIf_le lost (inWindow now) h HL).
  pose proof (sumIf_nonneg acked (λ _, true) h HA). pose proof (sumIf_nonneg lost (λ _, true) h HL).
  unfold sumSlots. rewrite sumSlots_zsum; try lia; eauto using contribution_nonneg;
    rewrite ?(contributions_window h now slots acked AckCount), ?(contributions_window h now slots lost LossCount)
      by done; [done|lia|lia].
Qed.

Lemma describes_other h i info t a l :
  describes h i info → t mod 5 ≠ i → describes (h ++ [mkCount t a l]) i info.
Proof.
  intros [Hmax H] Ht. split.
  { intros c Hc Hm. apply elem_of_app in Hc as [Hc|Hc]; [auto|].
    apply list_elem_of_singleton in Hc as ->. done. }
  destruct H as [(HA & HL & Hm)|[-> Hnone]]; [left|right].
  - rewrite !sumIf_app. cbn. rewrite (proj2 (Z.eqb_neq (Timestamp info) t)) by congruence.
    split_and!; [lia..|done].
  - split; [done|]. intros c Hc. apply elem_of_app in Hc as [Hc|Hc]; [auto|].
    by apply list_elem_of_singleton in Hc as ->.
Qed.

(** One event updates the slot of its second. *)
Lemma event_tracked h now slots t a l (i : nat) info :
  tracked h now slots → counts_ok (h ++ [mkCount t a l]) → 0 ≤ now ≤ t →
  Z.of_nat i = t mod 5 → slots !! i = Some info →
  let info' := if Timestamp info =? t
               then mkPktInfo (Timestamp info) (u64 (AckCount info + a)) (u64 (LossCount info + l))
               else mkPktInfo t (u64 a) (u64 l) in
  tracked (h ++ [mkCount t a l]) t (<[i := info']> slots).
Proof.
  intros [Hlen Hp Hs] (HA & HL & Hsum) Hnow Hi Hinfo info'.
  split; [by rewrite length_insert| |].
  { intros c Hc. apply elem_of_app in Hc as [Hc|Hc]; [specialize (Hp c Hc); lia|].
    apply list_elem_of_singleton in Hc as ->. cbn. lia. }
  intros j x Hj. apply list_lookup_insert_Some in Hj as [(Hij & <- & Hlt)|[Hne Hj]]; [subst j|].
  2: { destruct (Hs j x Hj) as [Hd Ht]. split; [|lia]. apply describes_other; [done|]. lia. }
  destruct (Hs _ _ Hinfo) as [[Hmax Hd] Ht].
  rewrite !sumIf_app in Hsum. cbn in Hsum. apply Forall_app in HA as [HA HA1], HL as [HL HL1].
  rewrite Forall_singleton in HA1, HL1. cbn in HA1, HL1.
  pose proof (sumIf_le acked (Z.eqb t) h HA). pose proof (sumIf_le lost (Z.eqb t) h HL).
  pose proof (sumIf_nonneg acked (Z.eqb t) h HA). pose proof (sumIf_nonneg lost (Z.eqb t) h HL).
  pose proof (sumIf_nonneg acked (λ _, true) h HA). pose proof (sumIf_nonneg lost (λ _, true) h HL).
  assert (Hv : Timestamp info' = t ∧ AckCount info' = sumIf acked (Z.eqb t) h + a ∧
               LossCount info' = sumIf lost (Z.eqb t) h + l).
  { assert (Hz : (∀ c, c ∈ h → second c mod 5 ≠ Z.of_nat i) ∨ Timestamp info ≠ t →
      sumIf acked (Z.eqb t) h = 0 ∧ sumIf lost (Z.eqb t) h = 0).
    { intros Hn. split; apply sumIf_none; intros c Hc; apply Z.eqb_neq; intros ->;
        (destruct Hn as [Hn|Hn]; [by apply (Hn c Hc)|]); specialize (Hmax c Hc ltac:(done));
        specialize (Hp c Hc); lia. }
    subst info'. case_if as E; b2p; cbn.
    - destruct Hd as [(-> & -> & _)|[-> Hnone]].
      + rewrite E. intval. done.
      + destruct Hz as [-> ->]; [by left|]. cbn in E |- *. intval. split_and!; lia.
    - destruct Hz as [-> ->]; [by right|]. intval. split_and!; lia. }
  destruct Hv as (Ht' & HA' & HL'). rewrite Ht'. split; [|lia]. split.
  - intros c Hc _. apply elem_of_app in Hc as [Hc|Hc]; [specialize (Hp c Hc); lia|].
    apply list_elem_of_singleton in Hc as ->. cbn. lia.
  - left. rewrite !sumIf_app, Ht', HA', HL'. cbn. rewrite Z.eqb_refl. split_and!; [lia..|done].
Qed.

(** ** Runs *)

(** An event: its time in nanoseconds, and the numbers of packets. *)
Record event := mkEvent { ev_time : Z; ev_acked : Z; ev_lost : Z }.

Definition count_of (e : event) : count :=
  mkCount (ev_time e / 10 ^ 9) (ev_acked e) (ev_lost e).

Definition brutal_run (s : Sender) (evs : list event) : option Sender :=
  foldl (λ s e, s ← s; OnCongestionEventEx s (ev_time e) (ev_acked e) (ev_lost e)) (Some s) evs.

Fixpoint ordered (now : Z) (evs : list event) : Prop :=
  match evs with
  | [] => True
  | e :: evs => now ≤ ev_time e < 2 ^ 63 ∧ ordered (ev_time e) evs
  end.

(** The documented rate for given counts. *)
Definition rateOf (nAcked nLost : Z) : float64 :=
  if nAcked + nLost <? minSampleCount then f64_of_Z 1
  else
    let rate := fdiv (f64_of_Z nAcked) (f64_of_Z (nAcked + nLost)) in
    if flt rate minAckRate then minAckRate else rate.

Lemma tracked_new : tracked [] 0 (replicate 5 (mkPktInfo 0 0 0)).
Proof.
  split; [done|by intros c ?%elem_of_nil|].
  intros i info Hi. apply lookup_replicate in Hi as [-> Hlt]. split; [|cbn; lia].
  split; [by intros c ?%elem_of_nil|]. right. split; [done|]. by intros c ?%elem_of_nil.
Qed.

Lemma counts_ok_prefix h1 h2 : counts_ok (h1 ++ h2) → counts_ok h1.
Proof.
  intros (HA & HL & Hs). apply Forall_app in HA as [HA1 HA2], HL as [HL1 HL2].
  split_and!; try done. rewrite !sumIf_app in Hs.
  pose proof (sumIf_nonneg acked (λ _, true) h2 HA2). pose proof (sumIf_nonneg lost (λ _, true) h2 HL2). lia.
Qed.

Lemma event_spec s h now e :
  tracked h now (pktInfoSlots s) → counts_ok (h ++ [count_of e]) →
  0 ≤ now → now ≤ second (count_of e) → 0 ≤ ev_time e < 2 ^ 63 →
  ∃ s', OnCongestionEventEx s (ev_time e) (ev_acked e) (ev_lost e) = Some s' ∧
    tracked (h ++ [count_of e]) (second (count_of e)) (pktInfoSlots s') ∧
    ackRate s' = rateOf (sumIf acked (inWindow (second (count_of e))) (h ++ [count_of e]))
                        (sumIf lost (inWindow (second (count_of e))) (h ++ [count_of e])).
Proof.
  intros Ht Hok Hn Hnow He. unfold OnCongestionEventEx. rewrite Z.quot_div_nonneg by lia.
  unfold count_of in *. set (t := ev_time e / 10 ^ 9) in *. cbn [second] in *.
  assert (Ht63 : 0 ≤ t < 2 ^ 63).
  { split; [lia|]. subst t. apply Z.div_lt_upper_bound; lia. }
  unfold pktInfoSlotCount. rewrite Z.rem_mod_nonneg by lia.
  pose proof (Z.mod_pos_bound t 5 ltac:(lia)). set (i := Z.to_nat (t mod 5)).
  assert (Hi : Z.of_nat i = t mod 5) by lia. rewrite <- Hi.
  destruct (lookup_lt_is_Some_2 (pktInfoSlots s) i) as [info Hinfo].
  { rewrite (tk_len _ _ _ Ht). lia. }
  rewrite slice_get_nat, Hinfo. cbn [mbind option_bind].
  rewrite slice_set_lt by (unfold len; rewrite (tk_len _ _ _ Ht); lia). rewrite Nat2Z.id.
  cbn [mbind option_bind]. eexists. split; [done|].
  pose proof (event_tracked h now (pktInfoSlots s) t (ev_acked e) (ev_lost e) i info Ht Hok
    ltac:(lia) Hi Hinfo) as Ht'. cbv zeta in Ht'.
  set (slots := <[i := _]> (pktInfoSlots s)) in *. clearbody slots.
  unfold updateAckRate, pktInfoSlotCount. cbn [pktInfoSlots].
  rewrite i64_small by (unfold in_i64; lia).
  change (pktInfoSlots (s <| pktInfoSlots := slots |>)) with slots.
  rewrite (sumSlots_window _ t slots Ht' Hok).
  2: { exists (mkCount t (ev_acked e) (ev_lost e)). split; [|done]. apply elem_of_app. right. by left. }
  destruct Hok as (HA & HL & Hsum).
  pose proof (sumIf_le acked (inWindow t) _ HA). pose proof (sumIf_le lost (inWindow t) _ HL).
  pose proof (sumIf_nonneg acked (inWindow t) _ HA). pose proof (sumIf_nonneg lost (inWindow t) _ HL).
  rewrite u64_small by (unfold in_u64; lia). unfold rateOf.
  case_if as E; [split; done|]. case_if as E2; split; done.
Qed.

Lemma run_tracked s evs h now :
  tracked h (now / 10 ^ 9) (pktInfoSlots s) → 0 ≤ now → ordered now evs →
  counts_ok (h ++ (count_of <$> evs)) →
  ∃ s', brutal_run s evs = Some s' ∧
    tracked (h ++ (count_of <$> evs)) (default now (ev_time <$> list.last evs) / 10 ^ 9)
      (pktInfoSlots s').
Proof.
  unfold brutal_run. revert s h now. induction evs as [|e evs IH]; intros s h now Ht H0 Ho Hok.
  { exists s. cbn. by rewrite app_nil_r. }
  destruct Ho as [He Ho]. cbn [fmap list_fmap] in Hok. rewrite cons_middle, app_assoc in Hok.
  destruct (event_spec s h (now / 10 ^ 9) e Ht) as (s1 & Hs1 & Ht1 & _).
  { by eapply counts_ok_prefix. }
  { apply Z.div_pos; lia. }
  { cbn. apply Z.div_le_mono; lia. }
  { lia. }
  cbn [foldl mbind option_bind]. rewrite Hs1.
  destruct (IH s1 _ (ev_time e) Ht1 ltac:(lia) Ho Hok) as (s' & Hs' & Ht').
  exists s'. split; [exact Hs'|]. rewrite <- app_assoc in Ht'. rewrite last_cons.
  by destruct (list.last evs).
Qed.

Lemma ordered_snoc now evs e :
  ordered now (evs ++ [e]) →
  ordered now evs ∧ now ≤ default now (ev_time <$> list.last evs) ≤ ev_time e ∧ ev_time e < 2 ^ 63.
Proof.
  revert now. induction evs as [|x evs IH]; intros now Ho; simpl in Ho.
  { simpl. destruct Ho as [Ho _]. lia. }
  destruct Ho as [Hx Ho]. destruct (IH _ Ho) as (H1 & H2 & H3). split; [done|].
  rewrite last_cons. destruct (list.last evs); simpl in *; lia.
Qed.

(** The acknowledgement rate of Brutal is the documented one: after any
    sequence of congestion events with non-decreasing times, it is computed from
    exactly the packets acknowledged and lost in the last five seconds: 1 below
    fifty packets, else the fraction acknowledged, with a floor of 0.8. *)
Theorem brutal_ack_rate (bps : Z) (evs : list event) (e : event) :
  ordered 0 (evs ++ [e]) → counts_ok (count_of <$> evs ++ [e]) →
  ∃ s, brutal_run (NewSender bps) (evs ++ [e]) = Some s ∧
    let h := count_of <$> evs ++ [e] in
    let window := inWindow (ev_time e / 10 ^ 9) in
    ackRate s = rateOf (sumIf acked window h) (sumIf lost window h).
Proof.
  intros Ho Hok. rewrite fmap_app in *. cbn [fmap list_fmap] in *.
  apply ordered_snoc in Ho as (Ho & Hd & Hlast).
  destruct (run_tracked (NewSender bps) evs [] 0 tracked_new ltac:(lia) Ho) as (s1 & Hs1 & Ht1).
  { by eapply counts_ok_prefix. }
  destruct (event_spec s1 _ _ e Ht1 Hok) as (s & Hs & _ & Hr).
  { apply Z.div_pos; lia. }
  { cbn. apply Z.div_le_mono; lia. }
  { lia. }
  exists s. split; [|exact Hr]. unfold brutal_run in *. by rewrite foldl_app, Hs1.
Qed.

End Brutal.

#[local] Instance brutalQuic : QuicGo := quicGoExample.
#[local] Instance brutalConv : FloatConv :=
  {| float_oor_i64 := λ _, 0; float_oor_u64 := λ _, 0 |}.

Lemma brutal_ack_rate_witness :
  ∃ s, brutal_run (NewSender 1000000)
         [mkEvent 1000000000 40 60; mkEvent 4500000000 90 10; mkEvent 8100000000 5 0] = Some s ∧
       ackRate s = rateOf 95 10.
Proof.
  apply (brutal_ack_rate 1000000 [mkEvent 1000000000 40 60; mkEvent 4500000000 90 10]
           (mkEvent 8100000000 5 0)).
  - cbn. lia.
  - unfold counts_ok. cbn. split; [|split]; [repeat constructor; cbn; lia..|lia].
Defined.

(** [NewSender] documents its argument as bits per second, but hands it to a
    pacer that counts bytes per second: at a configured rate of eight megabits per
    second the pacer's bandwidth is eight megabytes per second. *)
Theorem brutal_rate_is_in_bytes : pacerBandwidth (NewSender 8000000) = 8000000.
Proof. vm_compute. reflexivity. Qed.

End Brutal.
