(* ===== verification/Atomic.v ===== *)
(** * Atomic.v: interleavings on an atomic word

    The Go code updates shared counters with loops of the form
<<
      for { current := x.Load(); if refuse(current) { return error }
            next := f(current); if x.CompareAndSwap(current, next) { break } }
>>
    and with single atomic additions.  This file gives their interleaving
    semantics as a step relation on a cell and a list of threads, and shows that
    every interleaving is equivalent to running the successful updates one after
    the other: the values written form a chain. *)

From S2P Require Import Prelude.
From Stdlib Require Import ZArith Lia.
From stdpp Require Import base list option numbers relations.

Local Open Scope Z_scope.

Module Atomic.

(** Where a thread is in its loop. *)
Inductive tstate :=
| Start
| Loaded (current : Z)
| Won (current next : Z)    (* its update took effect *)
| Refused (current : Z).    (* it gave up after reading [current] *)

(** [update current] is [None] when the loop gives up.  A thread with [single]
    performs its update in one atomic instruction. *)
Record thread := mkThread {
  update : Z → option Z;
  single : bool;
  st : tstate
}.

Record mem := mkMem {
  cell : Z;
  threads : list thread;
  log : list (Z * Z)         (* the updates, in the order they took effect *)
}.

Definition set_st (m : mem) (i : nat) (t : thread) (s : tstate) : list thread :=
  <[i := mkThread (update t) (single t) s]> (threads m).

Inductive step : mem → mem → Prop :=
| step_load m i t :
    threads m !! i = Some t → st t = Start → single t = false →
    step m (mkMem (cell m) (set_st m i t (Loaded (cell m))) (log m))
| step_refuse m i t v :
    threads m !! i = Some t → st t = Loaded v → update t v = None →
    step m (mkMem (cell m) (set_st m i t (Refused v)) (log m))
| step_cas m i t v v' :
    threads m !! i = Some t → st t = Loaded v → update t v = Some v' → cell m = v →
    step m (mkMem v' (set_st m i t (Won v v')) (log m ++ [(v, v')]))
| step_retry m i t v v' :
    threads m !! i = Some t → st t = Loaded v → update t v = Some v' → cell m ≠ v →
    step m (mkMem (cell m) (set_st m i t Start) (log m))
| step_single m i t v' :
    threads m !! i = Some t → st t = Start → single t = true →
    update t (cell m) = Some v' →
    step m (mkMem v' (set_st m i t (Won (cell m) v')) (log m ++ [(cell m, v')])).

(** A memory in which nothing has run yet. *)
Definition initial (v : Z) (ts : list (bool * (Z → option Z))) : mem :=
  mkMem v ((λ '(s, u), mkThread u s Start) <$> ts) [].

(** ** Linearization *)

(** The updates [l] applied one after the other lead from [v] to [w]. *)
Inductive chain : Z → list (Z * Z) → Z → Prop :=
| chain_nil v : chain v [] v
| chain_cons v v' l w : chain v' l w → chain v ((v, v') :: l) w.

Lemma chain_snoc v l w w' : chain v l w → chain v (l ++ [(w, w')]) w'.
Proof. induction 1; simpl; repeat constructor; auto. Qed.

Definition won (t : thread) : option (Z * Z) :=
  match st t with Won v v' => Some (v, v') | _ => None end.

Definition update_ok (P : Z → Z → Prop) (t : thread) : Prop :=
  ∀ v v', update t v = Some v' → P v v'.

Record lin (P : Z → Z → Prop) (v0 : Z) (m : mem) : Prop := {
  lin_chain : chain v0 (log m) (cell m);
  lin_won : log m ≡ₚ omap won (threads m);
  lin_ok : Forall (update_ok P) (threads m);
  lin_log : Forall (λ p, P p.1 p.2) (log m)
}.

Lemma omap_insert_none (ts : list thread) i t t' :
  ts !! i = Some t → won t = None → won t' = None →
  omap won (<[i := t']> ts) = omap won ts.
Proof.
  revert i. induction ts as [|x ts IH]; intros [|i] Hi Ht Ht'; simplify_eq/=.
  - by rewrite Ht, Ht'.
  - by rewrite IH.
Qed.

Lemma omap_insert_some (ts : list thread) i t t' p :
  ts !! i = Some t → won t = None → won t' = Some p →
  omap won (<[i := t']> ts) ≡ₚ omap won ts ++ [p].
Proof.
  revert i. induction ts as [|x ts IH]; intros [|i] Hi Ht Ht'; simplify_eq/=.
  - rewrite Ht, Ht'. by rewrite Permutation_app_comm.
  - destruct (won x); simpl; by rewrite IH.
Qed.

Lemma update_ok_insert P ts i t s :
  Forall (update_ok P) ts → ts !! i = Some t →
  Forall (update_ok P) (<[i := mkThread (update t) (single t) s]> ts).
Proof.
  intros Hts Hi. apply Forall_insert; [done|]. apply (Forall_lookup_1 _ _ _ _ Hts Hi).
Qed.

Lemma lin_step P v0 m m' : lin P v0 m → step m m' → lin P v0 m'.
Proof.
  intros [Hc Hw Hok Hl] Hs.
  assert (Hup : ∀ i t v v', threads m !! i = Some t → update t v = Some v' → P v v').
  { intros i t v v' Hi. apply (Forall_lookup_1 _ _ _ _ Hok Hi). }
  destruct Hs as [m i t Hi Ht|m i t v Hi Ht|m i t v v' Hi Ht Hu Hv|m i t v v' Hi Ht|m i t v' Hi Ht _ Hu];
    (assert (Hn : won t = None) by (unfold won; by rewrite Ht)); split; simpl;
    unfold set_st; auto using update_ok_insert.
  - by rewrite (omap_insert_none _ _ t) by done.
  - by rewrite (omap_insert_none _ _ t) by done.
  - subst v. by apply chain_snoc.
  - by rewrite (omap_insert_some _ _ t _ (v, v')), Hw by done.
  - apply Forall_app; split; [done|]. apply Forall_singleton. simpl. eauto.
  - by rewrite (omap_insert_none _ _ t) by done.
  - by apply chain_snoc.
  - by rewrite (omap_insert_some _ _ t _ (cell m, v')), Hw by done.
  - apply Forall_app; split; [done|]. apply Forall_singleton. simpl. eauto.
Qed.

Lemma lin_initial P v ts :
  Forall (λ t, ∀ a b, t.2 a = Some b → P a b) ts → lin P v (initial v ts).
Proof.
  intros Hts. split; simpl; [constructor| | |done].
  - induction ts as [|[s u] ts IH]; [done|]. inversion_clear Hts. simpl. auto.
  - apply Forall_fmap. eapply list.Forall_impl; [exact Hts|]. intros [s u] H a b. simpl. apply H.
Qed.

(** In every interleaving the updates that took effect form a chain from the
    initial value to the current one, each a legal update, and they are exactly
    the updates the threads report. *)
Lemma interleavings_linearize P v ts m :
  Forall (λ t, ∀ a b, t.2 a = Some b → P a b) ts →
  rtc step (initial v ts) m → lin P v m.
Proof.
  intros Hts Hr. pose proof (lin_initial P v ts Hts) as H0.
  induction Hr as [|m1 m2 m3 Hs _ IH]; [done|]. apply IH. by eapply lin_step.
Qed.

(** ** Counters *)

Lemma chain_increasing v l w :
  chain v l w → Forall (λ p, p.1 < p.2) l →
  v ≤ w ∧ Forall (λ p, v < p.2 ≤ w) l ∧ NoDup (snd <$> l).
Proof.
  induction 1 as [v|v v' l w Hc IH]; intros Hl; simpl.
  { split_and!; [lia|done|constructor]. }
  inversion_clear Hl as [|? ? Hv Hl']. simpl in Hv. destruct (IH Hl') as (H1 & H2 & H3).
  split_and!; [lia| |].
  - constructor; [simpl; lia|]. eapply list.Forall_impl; [exact H2|]. simpl. lia.
  - constructor; [|done]. intros ([a b] & -> & Hin)%list_elem_of_fmap.
    rewrite Forall_forall in H2. specialize (H2 _ Hin). simpl in *. lia.
Qed.

(** The numbers handed out by threads that increment a counter. *)
Definition results (m : mem) : list Z := snd <$> omap won (threads m).

Lemma results_unique v ts m :
  Forall (λ t, ∀ a b, t.2 a = Some b → b = a + 1) ts →
  rtc step (initial v ts) m →
  NoDup (results m) ∧ Forall (λ n, v < n ≤ cell m) (results m).
Proof.
  intros Hts Hr. destruct (interleavings_linearize (λ a b, b = a + 1) v ts m Hts Hr) as [Hc Hw _ Hl].
  destruct (chain_increasing v (log m) (cell m)) as (_ & Hb & Hn); [done| |].
  { eapply list.Forall_impl; [exact Hl|]. simpl. lia. }
  unfold results. rewrite <- Hw. split; [done|]. by apply Forall_fmap.
Qed.

Lemma chain_invariant (Q : Z → Prop) v l w :
  chain v l w → Forall (λ p, Q p.1 → Q p.2) l → Q v → Q w.
Proof.
  induction 1 as [|v v' l w Hc IH]; intros Hl Hv; [done|].
  inversion_clear Hl. auto.
Qed.

(** A 64-bit counter whose threads give up at the maximum: the numbers handed
    out are distinct and never wrap around. *)
Lemma counter_results v k (u : Z → option Z) m :
  (∀ a b, u a = Some b → a ≠ MaxUint64 ∧ b = a + 1) →
  0 ≤ v ≤ MaxUint64 → rtc step (initial v (replicate k (false, u))) m →
  NoDup (results m) ∧ Forall (λ n, v < n ≤ MaxUint64) (results m).
Proof.
  intros Hu Hv Hr.
  destruct (results_unique v (replicate k (false, u)) m) as [Hn Hb]; [|done|].
  { apply Forall_replicate. simpl. intros a b [_ ?]%Hu. done. }
  split; [done|]. eapply list.Forall_impl; [exact Hb|]. cbn beta. intros n Hn'.
  destruct (interleavings_linearize (λ a b, a ≤ MaxUint64 → b ≤ MaxUint64) v
    (replicate k (false, u)) m) as [Hc _ _ Hl]; [|done|].
  { apply Forall_replicate. simpl. intros a b [? ?]%Hu. unfold MaxUint64 in *. lia. }
  pose proof (chain_invariant (λ z, z ≤ MaxUint64) _ _ _ Hc Hl) as Hi. cbn beta in Hi. lia.
Qed.

End Atomic.
