(* ===== verification/Buffer.v ===== *)
(** * Buffer.v: the shared byte budget and the receive buffer
    (src/peer/buffer.go)

    [ByteBudget] is shared by all connections of a server and updated with a
    compare-and-swap loop: its operations are given sequentially, and as threads
    of Atomic.v for the interleavings.  [RecvBuffer] runs under its mutex, so
    each operation is atomic; a [Read] that has to wait is the outcome
    [ReadBlocks].  [bytes.Buffer.Write] always returns a nil error. *)

From S2P Require Import Prelude Atomic.
From Stdlib Require Import ZArith Lia String.
From stdpp Require Import base list option numbers relations.

Local Open Scope Z_scope.
Local Open Scope go_scope.

Module Buffer.

Definition DefaultReceiveBufferSize : Z := 8388608.

(** ** ByteBudget *)

Record ByteBudget := mkBudget {
  limit : Z;
  used : Z
}.

#[export] Instance eta_budget : Eta ByteBudget := fun b => mkBudget (limit b) (used b).

Definition NewByteBudget (limit : Z) : ByteBudget := mkBudget limit 0.

(** One round of the loop of [Reserve], for a positive amount. *)
Definition reserveUpdate (limit amount used : Z) : option Z :=
  if i64 (limit - used) <? amount then None else Some (i64 (used + amount)).

(** A [nil] budget is [None]. *)
Definition Reserve (b : option ByteBudget) (n : Z) : option ByteBudget * bool :=
  match b with
  | None => (None, true)
  | Some b =>
      if n <=? 0 then (Some b, true)
      else match reserveUpdate (limit b) n (used b) with
           | Some u => (Some (b <| used := u |>), true)
           | None => (Some b, false)
           end
  end.

(** [None] is the panic of a budget released below zero. *)
Definition releaseUpdate (amount used : Z) : option Z :=
  let remaining := i64 (used - amount) in
  if remaining <? 0 then None else Some remaining.

Definition Release (b : option ByteBudget) (n : Z) : option (option ByteBudget) :=
  match b with
  | None => Some None
  | Some b =>
      if n <=? 0 then Some (Some b)
      else u ← releaseUpdate n (used b); Some (Some (b <| used := u |>))
  end.

Definition Used (b : option ByteBudget) : Z :=
  match b with None => 0 | Some b => used b end.

(** *** Interleavings *)

(** A call by some goroutine. *)
Inductive call := CReserve (n : Z) | CRelease (n : Z).

Definition call_thread (limit : Z) (c : call) : bool * (Z → option Z) :=
  match c with
  | CReserve n => (false, reserveUpdate limit n)
  | CRelease n => (true, releaseUpdate n)
  end.

Definition amount_ok (limit : Z) (c : call) : Prop :=
  match c with CReserve n | CRelease n => 0 < n ≤ limit end.

Lemma reserveUpdate_spec limit n u u' :
  0 ≤ limit < 2 ^ 62 → 0 < n → 0 ≤ u ≤ limit →
  reserveUpdate limit n u = Some u' ↔ u' = u + n ∧ u + n ≤ limit.
Proof.
  intros Hl Hn Hu. unfold reserveUpdate. rewrite (i64_small (limit - u)) by (unfold in_i64; lia).
  case_if as E; b2p; [split; [done|lia]|].
  rewrite i64_small by (unfold in_i64; lia). split; [intros; simplify_eq; lia|].
  intros [-> _]. done.
Qed.

Lemma releaseUpdate_spec n u u' :
  0 < n < 2 ^ 62 → 0 ≤ u < 2 ^ 62 → releaseUpdate n u = Some u' ↔ u' = u - n ∧ n ≤ u.
Proof.
  intros Hn Hu. unfold releaseUpdate. rewrite i64_small by (unfold in_i64; lia).
  case_if as E; b2p; [split; [done|lia]|]. split; [intros; simplify_eq; lia|by intros [-> _]].
Qed.

Lemma chain_in_range limit v l w :
  Atomic.chain v l w → Forall (λ p, 0 ≤ p.1 ≤ limit → 0 ≤ p.2 ≤ limit) l →
  0 ≤ v ≤ limit → 0 ≤ w ≤ limit.
Proof.
  induction 1 as [v|v v' l w Hc IH]; intros Hl Hv; [done|].
  inversion_clear Hl as [|? ? Hp Hl']. simpl in Hp. auto.
Qed.

(** The net amount of a call that took effect. *)
Definition effect (t : Atomic.thread) : Z :=
  match Atomic.st t with Atomic.Won v v' => v' - v | _ => 0 end.

Lemma chain_sum v l w :
  Atomic.chain v l w → w = v + foldr (λ p n, p.2 - p.1 + n) 0 l.
Proof. induction 1; simpl in *; lia. Qed.

Lemma effects_sum (ts : list Atomic.thread) :
  foldr (λ p n, p.2 - p.1 + n) 0 (omap Atomic.won ts) = foldr (λ t n, effect t + n) 0 ts.
Proof.
  induction ts as [|t ts IH]; simpl; [done|]. rewrite <- IH. unfold effect.
  destruct (Atomic.won t) as [[v v']|] eqn:E; unfold Atomic.won in E;
    destruct (Atomic.st t); simplify_eq/=; reflexivity.
Qed.

#[local] Instance sum_proper :
  Proper (Permutation ==> eq) (foldr (λ (p : Z * Z) n, p.2 - p.1 + n) 0).
Proof. intros l1 l2 Hp. induction Hp; simpl; lia. Qed.

(** The shared budget is never exceeded: however the calls of [Reserve] and
    [Release] of any number of goroutines interleave, between the load and the
    compare-and-swap of each other included, the bytes in use stay between zero
    and the limit, and are exactly those of the calls that took effect. *)
Theorem budget_interleavings (lim : Z) (calls : list call) (m : Atomic.mem) :
  0 ≤ lim < 2 ^ 62 → Forall (amount_ok lim) calls →
  rtc Atomic.step (Atomic.initial 0 (call_thread lim <$> calls)) m →
  0 ≤ Atomic.cell m ≤ lim ∧
  Atomic.cell m = foldr (λ t n, effect t + n) 0 (Atomic.threads m).
Proof.
  intros Hl Hc Hr.
  destruct (Atomic.interleavings_linearize (λ a b, 0 ≤ a ≤ lim → 0 ≤ b ≤ lim) 0
    (call_thread lim <$> calls) m) as [Hch Hw _ Hlog]; [|done|].
  { apply Forall_fmap. eapply list.Forall_impl; [exact Hc|].
    intros [n|n] Hn a b; simpl in *; intros Hu Ha.
    - apply reserveUpdate_spec in Hu; lia.
    - apply releaseUpdate_spec in Hu; lia. }
  split; [by eapply chain_in_range; [exact Hch|exact Hlog|lia]|].
  rewrite (chain_sum _ _ _ Hch), Hw, effects_sum. lia.
Qed.

(** Two goroutines that both fit alone but not together: the second
    compare-and-swap fails, its loop reads again and is refused. *)
Lemma budget_interleavings_witness :
  let ts := call_thread 10 <$> [CReserve 6; CReserve 7] in
  ∃ m, rtc Atomic.step (Atomic.initial 0 ts) m ∧ Atomic.cell m = 6 ∧
       0 ≤ Atomic.cell m ≤ 10.
Proof.
  set (t n s := Atomic.mkThread (reserveUpdate 10 n) false s). intros ts.
  set (m := Atomic.mkMem 6 [t 6 (Atomic.Won 0 6); t 7 (Atomic.Refused 6)] [(0, 6)]).
  assert (Hr : rtc Atomic.step (Atomic.initial 0 ts) m).
  { eapply rtc_l; [apply (Atomic.step_load _ 0 (t 6 Atomic.Start)); reflexivity|].
    eapply rtc_l; [apply (Atomic.step_load _ 1 (t 7 Atomic.Start)); reflexivity|].
    eapply rtc_l; [apply (Atomic.step_cas _ 0 (t 6 (Atomic.Loaded 0)) 0 6); reflexivity|].
    eapply rtc_l; [apply (Atomic.step_retry _ 1 (t 7 (Atomic.Loaded 0)) 0 7); try reflexivity; discriminate|].
    eapply rtc_l; [apply (Atomic.step_load _ 1 (t 7 Atomic.Start)); reflexivity|].
    eapply rtc_l; [apply (Atomic.step_refuse _ 1 (t 7 (Atomic.Loaded 6)) 6); reflexivity|].
    apply rtc_refl. }
  exists m. split; [exact Hr|]. split; [reflexivity|].
  apply (budget_interleavings 10 [CReserve 6; CReserve 7] m).
  - lia.
  - repeat constructor; simpl; lia.
  - exact Hr.
Defined.

(** ** RecvBuffer *)

Record RecvBuffer := mkRecv {
  buf : list byte;
  closed : bool;
  deadline : option Z;     (* [None] is the zero time *)
  rlimit : Z
}.

#[export] Instance eta_recv : Eta RecvBuffer :=
  fun r => mkRecv (buf r) (closed r) (deadline r) (rlimit r).

Definition NewRecvBufferWithLimit (limit : Z) : RecvBuffer :=
  mkRecv [] false None (if limit <=? 0 then DefaultReceiveBufferSize else limit).

Definition NewRecvBuffer : RecvBuffer := NewRecvBufferWithLimit DefaultReceiveBufferSize.

Definition ErrClosedPipe : string := "io: read/write on closed pipe".
Definition ErrReceiveBufferFull : string := "receive buffer limit exceeded".

Definition Write (rb : RecvBuffer) (b : option ByteBudget) (data : list byte)
  : RecvBuffer * option ByteBudget * result unit :=
  if closed rb then (rb, b, Err ErrClosedPipe)
  else if rlimit rb - len (buf rb) <? len data then (rb, b, Err ErrReceiveBufferFull)
  else
    let '(b, ok) := Reserve b (len data) in
    if negb ok then (rb, b, Err ErrReceiveBufferFull)
    else (rb <| buf ::= (λ l, l ++ data) |>, b, Ok ()).

Inductive readOutcome :=
| ReadData (data : list byte)
| ReadEOF
| ReadDeadlineExceeded
| ReadBlocks.

(** [size] is [len(p)]; [now] is the current time. *)
Definition Read (rb : RecvBuffer) (b : option ByteBudget) (now size : Z)
  : option (RecvBuffer * option ByteBudget * readOutcome) :=
  if len (buf rb) =? 0 then
    Some (rb, b,
      if closed rb then ReadEOF
      else match deadline rb with
           | Some d => if d - now <=? 0 then ReadDeadlineExceeded else ReadBlocks
           | None => ReadBlocks
           end)
  else
    let data := take (Z.to_nat size) (buf rb) in
    b ← Release b (len data);
    Some (rb <| buf ::= drop (Z.to_nat size) |>, b, ReadData data).

Definition Reset (rb : RecvBuffer) (b : option ByteBudget)
  : option (RecvBuffer * option ByteBudget) :=
  if closed rb then Some (rb, b)
  else
    let buffered := len (buf rb) in
    b ← Release b buffered;
    Some (rb <| buf := [] |>, b).

Definition IsClosed (rb : RecvBuffer) : bool := closed rb.

Definition SetDeadline (rb : RecvBuffer) (d : option Z) : RecvBuffer := rb <| deadline := d |>.

Definition Close (rb : RecvBuffer) (b : option ByteBudget)
  : option (RecvBuffer * option ByteBudget) :=
  if closed rb then Some (rb, b)
  else
    let rb := rb <| closed := true |> in
    let buffered := len (buf rb) in
    b ← Release b buffered;
    Some (rb <| buf := [] |>, b).

(** *** Buffers sharing a budget *)

(** A receive buffer with the bytes accepted from [Write] and those returned by
    [Read] since it was last emptied by [Reset] or [Close]. *)
Record conn := mkConn {
  rb : RecvBuffer;
  accepted : list byte;
  delivered : list byte
}.

Record sys := mkSys {
  conns : list conn;
  budget : option ByteBudget
}.

Inductive bop :=
| BWrite (i : nat) (data : list byte)
| BRead (i : nat) (now size : Z)
| BReset (i : nat)
| BClose (i : nat)
| BSetDeadline (i : nat) (d : option Z).

Definition target (o : bop) : nat :=
  match o with BWrite i _ | BRead i _ _ | BReset i | BClose i | BSetDeadline i _ => i end.

(** One call on connection [c]. *)
Definition conn_step (c : conn) (b : option ByteBudget) (o : bop)
  : option (conn * option ByteBudget) :=
  match o with
  | BWrite _ data =>
      let '(r, b, res) := Write (rb c) b data in
      Some (mkConn r (if is_ok res then accepted c ++ data else accepted c) (delivered c), b)
  | BRead _ now size =>
      '(r, b, out) ← Read (rb c) b now size;
      Some (mkConn r (accepted c)
              (match out with ReadData d => delivered c ++ d | _ => delivered c end), b)
  | BReset _ =>
      '(r, b) ← Reset (rb c) b;
      Some (if closed (rb c) then mkConn r (accepted c) (delivered c) else mkConn r [] [], b)
  | BClose _ =>
      '(r, b) ← Close (rb c) b;
      Some (if closed (rb c) then mkConn r (accepted c) (delivered c) else mkConn r [] [], b)
  | BSetDeadline _ d => Some (mkConn (SetDeadline (rb c) d) (accepted c) (delivered c), b)
  end.

(** Calls on a buffer that does not exist are not made. *)
Definition sys_step (s : sys) (o : bop) : option sys :=
  match conns s !! target o with
  | None => Some s
  | Some c =>
      '(c, b) ← conn_step c (budget s) o;
      Some (mkSys (<[target o := c]> (conns s)) b)
  end.

Definition sys_run (s : sys) (os : list bop) : option sys :=
  foldl (λ s o, s ← s; sys_step s o) (Some s) os.

Record wfc (c : conn) : Prop := {
  wc_limit : 0 < rlimit (rb c) < 2 ^ 62;
  wc_len : len (buf (rb c)) ≤ rlimit (rb c);
  wc_stream : accepted c = delivered c ++ buf (rb c)
}.

Definition buffered (cs : list conn) : Z := foldr (λ c n, len (buf (rb c)) + n) 0 cs.

Record wfsys (s : sys) : Prop := {
  ws_conns : Forall wfc (conns s);
  ws_budget : ∀ b, budget s = Some b → used b = buffered (conns s) ∧ used b ≤ limit b < 2 ^ 62
}.

Lemma buffered_nonneg cs : 0 ≤ buffered cs.
Proof. induction cs as [|c cs IH]; simpl; [lia|]. pose proof (len_nonneg (buf (rb c))). lia. Qed.

Lemma buffered_insert cs i c c' :
  cs !! i = Some c →
  buffered (<[i := c']> cs) = buffered cs - len (buf (rb c)) + len (buf (rb c')).
Proof.
  revert i. induction cs as [|x cs IH]; intros [|i] Hi; simplify_eq/=; [lia|].
  rewrite IH by done. lia.
Qed.

Lemma buffered_ge cs i c : cs !! i = Some c → len (buf (rb c)) ≤ buffered cs.
Proof.
  revert i. induction cs as [|x cs IH]; intros [|i] Hi; simplify_eq/=.
  - pose proof (buffered_nonneg cs). lia.
  - specialize (IH i Hi). pose proof (len_nonneg (buf (rb x))). lia.
Qed.

(** How a call moves a budget that holds at least [old] bytes of the caller. *)
Definition moved (b b' : option ByteBudget) (old new : Z) : Prop :=
  match b, b' with
  | None, None => True
  | Some x, Some y => limit y = limit x ∧ used y = used x - old + new ∧ used y ≤ limit y
  | _, _ => False
  end.

Definition covers (b : option ByteBudget) (n : Z) : Prop :=
  ∀ x, b = Some x → n ≤ used x ≤ limit x ∧ limit x < 2 ^ 62.

Lemma moved_refl b n : covers b n → moved b b n n.
Proof. destruct b as [x|]; simpl; [|done]. intros H. destruct (H x eq_refl). lia. Qed.

Lemma Release_spec b old n :
  covers b old → 0 ≤ n ≤ old →
  ∃ b', Release b n = Some b' ∧ moved b b' old (old - n).
Proof.
  intros Hc Hn. destruct b as [x|]; simpl; [|by exists None]. destruct (Hc x eq_refl) as [Hu Hl].
  case_if as E; b2p. { eexists. split; [done|]. simpl. lia. }
  assert (HR : releaseUpdate n (used x) = Some (used x - n)).
  { apply releaseUpdate_spec; lia. }
  rewrite HR. simpl. eexists. split; [done|]. simpl. lia.
Qed.

Lemma Reserve_spec b old n :
  covers b old → 0 ≤ old → 0 ≤ n < 2 ^ 62 →
  let '(b', ok) := Reserve b n in
  if ok then moved b b' old (old + n) else b' = b.
Proof.
  intros Hc Ho Hn. destruct b as [x|]; simpl; [|done]. destruct (Hc x eq_refl) as [Hu Hl].
  case_if as E; b2p. { simpl. lia. }
  destruct (reserveUpdate (limit x) n (used x)) as [u|] eqn:Er; [|done].
  apply reserveUpdate_spec in Er; simpl; lia.
Qed.

Lemma conn_step_spec c b o :
  wfc c → covers b (len (buf (rb c))) →
  ∃ c' b', conn_step c b o = Some (c', b') ∧ wfc c' ∧
           moved b b' (len (buf (rb c))) (len (buf (rb c'))).
Proof.
  intros [Hl Hn Hs] Hb. pose proof (len_nonneg (buf (rb c))) as H0.
  pose proof (moved_refl b _ Hb) as Hm. destruct o as [i data|i now size|i|i|i d]; simpl.
  - unfold Write. case_if as E1; [do 2 eexists; split; [done|]; by split|].
    case_if as E2; [do 2 eexists; split; [done|]; by split|].
    pose proof (len_nonneg data).
    pose proof (Reserve_spec b (len (buf (rb c))) (len data) Hb H0 ltac:(lia)) as HR.
    destruct (Reserve b (len data)) as [b' [|]]; simpl in *.
    + do 2 eexists. split; [done|]. split; [|simpl; by rewrite len_app].
      split; simpl; [done|rewrite len_app; lia|by rewrite Hs, app_assoc].
    + subst b'. do 2 eexists. split; [done|]. by split.
  - unfold Read. case_if as E1; simpl; [do 2 eexists; split; [done|]; split; [|done]|].
    { split; simpl; auto. by case_ifs; destruct (deadline (rb c)); case_ifs. }
    set (n := Z.to_nat size). pose proof (take_drop n (buf (rb c))) as Htd.
    assert (Hlen : len (take n (buf (rb c))) + len (drop n (buf (rb c))) = len (buf (rb c))).
    { rewrite <- len_app. by rewrite Htd. }
    pose proof (len_nonneg (take n (buf (rb c)))). pose proof (len_nonneg (drop n (buf (rb c)))).
    destruct (Release_spec b (len (buf (rb c))) (len (take n (buf (rb c)))) Hb ltac:(lia))
      as (b' & -> & Hm'). simpl. do 2 eexists. split; [done|].
    split; [split; simpl; [done|lia|by rewrite <- app_assoc, Htd]|]. simpl.
    by replace (len (drop n (buf (rb c)))) with (len (buf (rb c)) - len (take n (buf (rb c)))) by lia.
  - unfold Reset. destruct (closed (rb c)) eqn:Ec; simpl; [do 2 eexists; split; [done|]; by split|].
    destruct (Release_spec b (len (buf (rb c))) (len (buf (rb c))) Hb ltac:(lia)) as (b' & -> & Hm').
    simpl. do 2 eexists. split; [done|]. rewrite Z.sub_diag in Hm'. split; [|done].
    split; simpl; [done|rewrite len_nil; lia|done].
  - unfold Close. destruct (closed (rb c)) eqn:Ec; simpl; [do 2 eexists; split; [done|]; by split|].
    destruct (Release_spec b (len (buf (rb c))) (len (buf (rb c))) Hb ltac:(lia)) as (b' & -> & Hm').
    simpl. do 2 eexists. split; [done|]. rewrite Z.sub_diag in Hm'. split; [|done].
    split; simpl; [done|rewrite len_nil; lia|done].
  - do 2 eexists. split; [done|]. by split.
Qed.

Lemma sys_step_wf s o : wfsys s → ∃ s', sys_step s o = Some s' ∧ wfsys s'.
Proof.
  intros [Hc Hb]. unfold sys_step. destruct (conns s !! target o) as [c|] eqn:Ei; [|by eexists].
  pose proof (Forall_lookup_1 _ _ _ _ Hc Ei) as Hwc.
  pose proof (buffered_ge _ _ _ Ei) as Hge.
  destruct (conn_step_spec c (budget s) o Hwc) as (c' & b' & -> & Hwc' & Hm).
  { intros x Hx. destruct (Hb x Hx). lia. }
  simpl. eexists. split; [done|]. split; simpl; [by apply Forall_insert|].
  intros y ->. destruct (budget s) as [x|]; simpl in Hm; [|done].
  destruct (Hb x eq_refl) as [Hu Hl]. rewrite (buffered_insert _ _ c) by done.
  destruct Hm as (Hlim & Huy & Hle). lia.
Qed.

(** Fresh buffers with limits [limits] that share a budget of [total] bytes. *)
Definition fresh (total : Z) (limits : list Z) : sys :=
  mkSys ((λ l, mkConn (NewRecvBufferWithLimit l) [] []) <$> limits) (Some (NewByteBudget total)).

(** C38.  Receive buffers deliver byte streams within their memory: for any number
    of buffers that share a budget and any sequence of calls, no call panics,
    the budget in use is exactly the number of unread bytes and within its limit,
    every buffer is within its own limit, and each has returned, in order and
    without loss, a prefix of what was written to it since it was last emptied,
    the rest being what it still holds. *)
Theorem recv_buffers_correct (total : Z) (limits : list Z) (os : list bop) :
  0 ≤ total < 2 ^ 62 → Forall (λ l, l < 2 ^ 62) limits →
  ∃ s, sys_run (fresh total limits) os = Some s ∧
    (∀ b, budget s = Some b → used b = buffered (conns s) ∧ used b ≤ limit b) ∧
    Forall (λ c, len (buf (rb c)) ≤ rlimit (rb c) ∧ accepted c = delivered c ++ buf (rb c)) (conns s).
Proof.
  intros Ht Hl. assert (H0 : wfsys (fresh total limits)).
  { split; simpl.
    - apply Forall_fmap. eapply list.Forall_impl; [exact Hl|]. intros l Hl'. unfold compose.
      unfold NewRecvBufferWithLimit, DefaultReceiveBufferSize.
      split; simpl; rewrite ?len_nil; case_ifs; try done; lia.
    - intros b ?. simplify_eq. simpl. split; [|lia]. clear. induction limits as [|l ls IH]; [done|].
      exact IH. }
  unfold sys_run. revert H0. generalize (fresh total limits).
  induction os as [|o os IH]; intros s Hw; simpl.
  - exists s. split; [done|]. destruct Hw as [Hc Hb]. split; [intros b Hbs; destruct (Hb b Hbs); lia|].
    eapply list.Forall_impl; [exact Hc|]. by intros c [].
  - destruct (sys_step_wf s o Hw) as (s' & -> & Hw'). by apply IH.
Qed.

Lemma recv_buffers_correct_witness :
  ∃ s, sys_run (fresh 8 [4; 6])
         [BWrite 0 [Byte.x01; Byte.x02; Byte.x03]; BWrite 1 (replicate 6 Byte.x07);
          BWrite 1 (replicate 5 Byte.x08); BRead 0 0 2; BClose 1; BWrite 0 [Byte.x04]] = Some s ∧
    (∀ b, budget s = Some b → used b = buffered (conns s) ∧ used b ≤ limit b).
Proof.
  destruct (recv_buffers_correct 8 [4; 6]
    [BWrite 0 [Byte.x01; Byte.x02; Byte.x03]; BWrite 1 (replicate 6 Byte.x07);
     BWrite 1 (replicate 5 Byte.x08); BRead 0 0 2; BClose 1; BWrite 0 [Byte.x04]])
    as (s & H1 & H2 & _).
  - lia.
  - repeat constructor; lia.
  - exists s. split; [exact H1|exact H2].
Defined.

End Buffer.
