(* ===== verification/Encryption.v ===== *)
(** * Encryption.v: nonces and authenticated encryption
    (src/utils/encryption/: nonce.go, types.go, aes-256-gcm.go, ascon-128a.go,
    camellia-256-gcm.go, chacha20-poly1305.go, xchacha20-poly1305.go)

    The ciphers and HKDF are library code: they are the members of the class
    [Crypto], and [CryptoLaws] states the documented behaviour the theorems use.
    The system random source is an argument: [rnd n] is what
    [io.ReadFull(rand.Reader, buf)] puts in a buffer of [n] bytes, [None] on an
    error. *)

From S2P Require Import Prelude Atomic.
From Stdlib Require Import ZArith Lia String.
From stdpp Require Import base list option numbers relations.

Local Open Scope Z_scope.
Local Open Scope go_scope.

Inductive algorithm :=
| AES_256_GCM
| ASCON_128A
| CAMELLIA_256
| CHACHA20_POLY1305
| XCHACHA20_POLY1305.

(** The constants of types.go. *)
Definition algorithmName (a : algorithm) : string :=
  match a with
  | AES_256_GCM => "aes-256-gcm"
  | ASCON_128A => "ascon-128a"
  | CAMELLIA_256 => "camellia-256-gcm"
  | CHACHA20_POLY1305 => "chacha20-poly1305"
  | XCHACHA20_POLY1305 => "xchacha20-poly1305"
  end.

Class Crypto := {
  (* hkdf.New(sha512.New, secret, nil, nil).Read(key), for a key of [n] bytes *)
  hkdf512 : list byte → Z → option (list byte);
  (* io.ReadFull(hkdf.New(sha256.New, secret, salt, info), key) *)
  hkdf256 : list byte → list byte → list byte → Z → option (list byte);
  (* the cipher constructors, their key and nonce sizes *)
  cipher_ok : algorithm → list byte → bool;
  aead_keySize : algorithm → Z;
  aead_nonceSize : algorithm → Z;
  (* cipher.AEAD: Seal and Open with key, nonce, text and additional data *)
  aead_seal : algorithm → list byte → list byte → list byte → list byte → list byte;
  aead_open : algorithm → list byte → list byte → list byte → list byte → option (list byte)
}.

Class CryptoLaws (C : Crypto) : Prop := {
  aead_open_seal a k n p ad :
    cipher_ok a k = true → len n = aead_nonceSize a →
    aead_open a k n (aead_seal a k n p ad) ad = Some p;
  aead_seal_len a k n p ad : len p < len (aead_seal a k n p ad);
  aead_nonceSize_range a : 8 < aead_nonceSize a ≤ 64;
  cipher_ok_keySize a k : len k = aead_keySize a → cipher_ok a k = true;
  aead_keySize_aes : aead_keySize AES_256_GCM = 32;
  aead_keySize_camellia : aead_keySize CAMELLIA_256 = 32;
  aead_keySize_range a : 0 < aead_keySize a ≤ 64;
  hkdf512_len s n k : hkdf512 s n = Some k → len k = n;
  hkdf512_total s n : 0 < n ≤ 64 → is_Some (hkdf512 s n);
  hkdf256_len s salt info n k : hkdf256 s salt info n = Some k → len k = n;
  hkdf256_total s salt info n : 0 < n ≤ 64 → is_Some (hkdf256 s salt info n)
}.

Module Encryption.
Section Encryption.
Context `{C : !Crypto}.

Definition nonceCounterSize : Z := 8.

(** ** nonce.go *)

Record nonceSource := mkNonce {
  prefix : list byte;
  counter : Z
}.

#[export] Instance eta_nonce : Eta nonceSource := fun s => mkNonce (prefix s) (counter s).

Definition newNonceSource (size : Z) (rnd : Z → option (list byte)) : result nonceSource :=
  if size <=? nonceCounterSize then Err "nonce size is too small"
  else match rnd (size - nonceCounterSize) with
       | None => Err "random source failed"
       | Some prefix => Ok (mkNonce prefix 0)
       end.

(** One round of the compare-and-swap loop of [next]. *)
Definition nonceUpdate (current : Z) : option Z :=
  if current =? MaxUint64 then None else Some (current + 1).

(** The bytes written to [dst] for a counter value. *)
Definition nonceBytes (prefix : list byte) (counter : Z) : list byte :=
  prefix ++ be_encode 8 counter.

Definition next (s : nonceSource) (dstLen : Z) : nonceSource * result (list byte) :=
  if negb (dstLen =? len (prefix s) + nonceCounterSize) then (s, Err "invalid nonce size")
  else match nonceUpdate (counter s) with
       | None => (s, Err "nonce counter exhausted")
       | Some c => (s <| counter := c |>, Ok (nonceBytes (prefix s) c))
       end.

(** ** The ciphers *)

Record IEncryption := mkEnc {
  alg : algorithm;
  ekey : list byte;
  nonce : nonceSource
}.

#[export] Instance eta_enc : Eta IEncryption := fun e => mkEnc (alg e) (ekey e) (nonce e).

(** The common end of the constructors: the cipher, then its nonce source. *)
Definition newCipher (a : algorithm) (key : list byte) (rnd : Z → option (list byte))
  : result IEncryption :=
  if negb (cipher_ok a key) then Err "cipher construction failed"
  else
    n ← newNonceSource (aead_nonceSize a) rnd;
    Ok (mkEnc a key n).

Definition hkdfKey (secret : list byte) (n : Z) : result (list byte) :=
  match hkdf512 secret n with Some k => Ok k | None => Err "hkdf: entropy limit reached" end.

(** The AES and ChaCha20 constructors overwrite the error of HKDF: on a failure
    they go on with the key buffer as [make] left it. *)
Definition NewAES256GCM (secret : list byte) (rnd : Z → option (list byte)) : result IEncryption :=
  let key := default (replicate 32 Byte.x00) (hkdf512 secret 32) in
  newCipher AES_256_GCM key rnd.

Definition NewAscon128a (secret : list byte) (rnd : Z → option (list byte)) : result IEncryption :=
  key ← hkdfKey secret (aead_keySize ASCON_128A);
  newCipher ASCON_128A key rnd.

Definition NewCamellia256GCM (secret : list byte) (rnd : Z → option (list byte)) : result IEncryption :=
  key ← hkdfKey secret 32;
  newCipher CAMELLIA_256 key rnd.

Definition NewChaCha20Poly1305 (secret : list byte) (rnd : Z → option (list byte))
  : result IEncryption :=
  let n := aead_keySize CHACHA20_POLY1305 in
  let key := default (replicate (Z.to_nat n) Byte.x00) (hkdf512 secret n) in
  newCipher CHACHA20_POLY1305 key rnd.

Definition NewXChaCha20Poly1305 (secret : list byte) (rnd : Z → option (list byte))
  : result IEncryption :=
  key ← hkdfKey secret (aead_keySize XCHACHA20_POLY1305);
  newCipher XCHACHA20_POLY1305 key rnd.

(** The body all five [Encrypt] methods share: the nonce is prepended. *)
Definition sealWith (e : IEncryption) (plaintext aad : list byte)
  : IEncryption * result (list byte) :=
  let '(n, r) := next (nonce e) (aead_nonceSize (alg e)) in
  let e := e <| nonce := n |> in
  (e, nonce ← r; Ok (nonce ++ aead_seal (alg e) (ekey e) nonce plaintext aad)).

(** The body all five [Decrypt] methods share. *)
Definition openWith (e : IEncryption) (data aad : list byte) : result (list byte) :=
  let nonceSize := aead_nonceSize (alg e) in
  if len data <? nonceSize then Err "ciphertext too short"
  else
    let nonce := take (Z.to_nat nonceSize) data in
    let ciphertext := drop (Z.to_nat nonceSize) data in
    match aead_open (alg e) (ekey e) nonce ciphertext aad with
    | Some p => Ok p
    | None => Err "message authentication failed"
    end.

Definition AES256GCM_Encrypt := sealWith.
Definition AES256GCM_Decrypt := openWith.
Definition Ascon128a_Encrypt := sealWith.
Definition Ascon128a_Decrypt := openWith.
Definition CamelliaGCM_Encrypt := sealWith.
Definition CamelliaGCM_Decrypt := openWith.
Definition ChaCha20Poly1305_Encrypt := sealWith.
Definition ChaCha20Poly1305_Decrypt := openWith.
Definition XChaCha20Poly1305_Encrypt := sealWith.
Definition XChaCha20Poly1305_Decrypt := openWith.

(** The methods of the interface, by dynamic type. *)
Definition Encrypt (e : IEncryption) : list byte → list byte → IEncryption * result (list byte) :=
  match alg e with
  | AES_256_GCM => AES256GCM_Encrypt e
  | ASCON_128A => Ascon128a_Encrypt e
  | CAMELLIA_256 => CamelliaGCM_Encrypt e
  | CHACHA20_POLY1305 => ChaCha20Poly1305_Encrypt e
  | XCHACHA20_POLY1305 => XChaCha20Poly1305_Encrypt e
  end.

Definition Decrypt (e : IEncryption) : list byte → list byte → result (list byte) :=
  match alg e with
  | AES_256_GCM => AES256GCM_Decrypt e
  | ASCON_128A => Ascon128a_Decrypt e
  | CAMELLIA_256 => CamelliaGCM_Decrypt e
  | CHACHA20_POLY1305 => ChaCha20Poly1305_Decrypt e
  | XCHACHA20_POLY1305 => XChaCha20Poly1305_Decrypt e
  end.

(** The constructor for an algorithm ([createEncryptKit] of the codec). *)
Definition newEncryption (a : algorithm) : list byte → (Z → option (list byte)) → result IEncryption :=
  match a with
  | AES_256_GCM => NewAES256GCM
  | ASCON_128A => NewAscon128a
  | CAMELLIA_256 => NewCamellia256GCM
  | CHACHA20_POLY1305 => NewChaCha20Poly1305
  | XCHACHA20_POLY1305 => NewXChaCha20Poly1305
  end.

(** ** Nonces *)

(** [io.ReadFull]: a successful read fills the buffer. *)
Definition entropy (rnd : Z → option (list byte)) : Prop :=
  ∀ n p, rnd n = Some p → len p = n.

Lemma nonceUpdate_succ a b : nonceUpdate a = Some b → b = a + 1.
Proof. unfold nonceUpdate. case_if as E; naive_solver. Qed.

Lemma nonceUpdate_bound a b : a ≤ MaxUint64 → nonceUpdate a = Some b → b ≤ MaxUint64.
Proof. unfold nonceUpdate. case_if as E; [done|]. intros ? [= <-]. lia. Qed.

Lemma nonceBytes_inj p1 c1 p2 c2 :
  in_u64 c1 → in_u64 c2 → length p1 = length p2 →
  nonceBytes p1 c1 = nonceBytes p2 c2 → p1 = p2 ∧ c1 = c2.
Proof.
  unfold nonceBytes. intros H1 H2 Hl H. apply app_inj_1 in H as [-> H]; [|done].
  split; [done|]. by apply (be_encode_inj 8) in H.
Qed.

Lemma nonceBytes_len p c : len (nonceBytes p c) = len p + nonceCounterSize.
Proof. unfold nonceBytes. by rewrite len_app. Qed.

(** The sequential [next] is the loop when nothing else touches the counter. *)
Lemma next_result s s' n b :
  next s n = (s', Ok b) →
  nonceUpdate (counter s) = Some (counter s') ∧ prefix s' = prefix s ∧
  b = nonceBytes (prefix s) (counter s') ∧ len b = n.
Proof.
  unfold next. case_if as E; [done|]. destruct (nonceUpdate _) eqn:Hu; [|done].
  intros [= <- <-]. split_and!; try done.
  by rewrite nonceBytes_len.
Qed.

(** ** Round trips *)

Definition wfe (e : IEncryption) : Prop :=
  cipher_ok (alg e) (ekey e) = true ∧
  len (prefix (nonce e)) + nonceCounterSize = aead_nonceSize (alg e) ∧
  in_u64 (counter (nonce e)).

Lemma newCipher_spec a key rnd e :
  entropy rnd → newCipher a key rnd = Ok e →
  alg e = a ∧ ekey e = key ∧ wfe e ∧ counter (nonce e) = 0.
Proof.
  unfold newCipher, newNonceSource, wfe. intros Hr.
  case_if as E; [done|]. cbn [mbind result_bind].
  case_if as E1; [done|]. destruct (rnd _) as [p|] eqn:Ep; [|done].
  cbn. intros [= <-]; cbn. apply Hr in Ep. unfold in_u64. split_and!; try done; lia.
Qed.

Context `{L : !CryptoLaws C}.

Lemma newCipher_ok a key rnd :
  len key = aead_keySize a → (∀ n, 0 ≤ n → is_Some (rnd n)) → is_ok (newCipher a key rnd) = true.
Proof.
  intros Hk Hr. unfold newCipher, newNonceSource. rewrite cipher_ok_keySize by done. cbn [negb].
  pose proof (aead_nonceSize_range a). unfold nonceCounterSize.
  rewrite (proj2 (Z.leb_gt _ _)) by lia. destruct (Hr (aead_nonceSize a - 8)) as [p ->]; [lia|done].
Qed.

(** Every constructor derives the key from the secret alone. *)
Definition derivedKey (a : algorithm) (secret : list byte) : list byte :=
  default [] (hkdf512 secret (aead_keySize a)).

Lemma newEncryption_cipher a secret rnd :
  newEncryption a secret rnd = newCipher a (derivedKey a secret) rnd.
Proof.
  assert (0 < aead_keySize a ≤ 64) as Hr by apply aead_keySize_range.
  unfold derivedKey. destruct (hkdf512_total secret (aead_keySize a) Hr) as [k Hk].
  rewrite Hk. simpl.
  destruct a; unfold newEncryption, NewAES256GCM, NewAscon128a, NewCamellia256GCM,
    NewChaCha20Poly1305, NewXChaCha20Poly1305, hkdfKey;
    rewrite ?aead_keySize_aes, ?aead_keySize_camellia in Hk; by rewrite Hk.
Qed.

Lemma derivedKey_len a secret : len (derivedKey a secret) = aead_keySize a.
Proof.
  unfold derivedKey. destruct (hkdf512_total secret (aead_keySize a)) as [k Hk];
    [apply aead_keySize_range|]. rewrite Hk. simpl. by eapply hkdf512_len.
Qed.

Lemma newEncryption_total a secret rnd :
  (∀ n, 0 ≤ n → is_Some (rnd n)) → is_ok (newEncryption a secret rnd) = true.
Proof. intros. rewrite newEncryption_cipher. apply newCipher_ok; [apply derivedKey_len|done]. Qed.

Lemma Encrypt_unfold e : Encrypt e = sealWith e.
Proof. unfold Encrypt. by destruct (alg e). Qed.

Lemma Decrypt_unfold e : Decrypt e = openWith e.
Proof. unfold Decrypt. by destruct (alg e). Qed.

Lemma next_ok s : counter s < MaxUint64 →
  next s (len (prefix s) + nonceCounterSize) =
  (s <| counter := counter s + 1 |>, Ok (nonceBytes (prefix s) (counter s + 1))).
Proof.
  intros H. unfold next, nonceUpdate. rewrite Z.eqb_refl. cbn [negb].
  by rewrite (proj2 (Z.eqb_neq _ _)) by lia.
Qed.

Lemma Encrypt_spec e p ad :
  wfe e → counter (nonce e) < MaxUint64 →
  let n := nonceBytes (prefix (nonce e)) (counter (nonce e) + 1) in
  let e' := e <| nonce ::= (fun s => s <| counter := counter s + 1 |>) |> in
  wfe e' ∧ len n = aead_nonceSize (alg e) ∧
  Encrypt e p ad = (e', Ok (n ++ aead_seal (alg e) (ekey e) n p ad)).
Proof.
  intros (Hc & Hp & Hk) Hlt. rewrite Encrypt_unfold. unfold sealWith.
  rewrite <- Hp, next_ok by done. cbn. split_and!; [|by rewrite nonceBytes_len|done].
  unfold wfe, in_u64, MaxUint64 in *. cbn. split_and!; try done; lia.
Qed.

Lemma Decrypt_sealed e n p ad :
  cipher_ok (alg e) (ekey e) = true → len n = aead_nonceSize (alg e) →
  Decrypt e (n ++ aead_seal (alg e) (ekey e) n p ad) ad = Ok p.
Proof.
  intros Hc Hn. rewrite Decrypt_unfold. unfold openWith. rewrite len_app.
  pose proof (len_nonneg (aead_seal (alg e) (ekey e) n p ad)).
  rewrite (proj2 (Z.ltb_ge _ _)) by lia.
  assert (Z.to_nat (aead_nonceSize (alg e)) = length n) as -> by (unfold len in Hn; lia).
  by rewrite take_app_length, drop_app_length, aead_open_seal.
Qed.

Lemma NoDup_nonceBytes p l :
  NoDup l → Forall (λ n, 0 < n ≤ MaxUint64) l → NoDup (nonceBytes p <$> l).
Proof.
  induction 1 as [|x l Hx _ IH]; intros Hl; [constructor|].
  inversion_clear Hl as [|? ? Hx' Hl']. rewrite fmap_cons. constructor; [|by apply IH].
  intros (y & Hy & Hin)%list_elem_of_fmap. rewrite Forall_forall in Hl'.
  specialize (Hl' y Hin). unfold MaxUint64 in *.
  apply nonceBytes_inj in Hy as [_ ->]; unfold in_u64; try lia; done.
Qed.

Lemma newNonceSource_spec size rnd s :
  entropy rnd → newNonceSource size rnd = Ok s →
  counter s = 0 ∧ len (prefix s) + nonceCounterSize = size.
Proof.
  unfold newNonceSource. intros Hr. case_if as E; [done|].
  destruct (rnd _) as [p|] eqn:Ep; [|done]. intros [= <-]. apply Hr in Ep. cbn. lia.
Qed.

(** Any number of goroutines may draw nonces from one source at the same
    time, in any interleaving of their loads and compare-and-swaps: the nonces
    they are given are pairwise distinct and all have the size the cipher asks
    for, and the counter never wraps around. *)
Theorem nonces_unique (size : Z) (rnd : Z → option (list byte)) (s : nonceSource)
    (goroutines : nat) (m : Atomic.mem) :
  entropy rnd → newNonceSource size rnd = Ok s →
  rtc Atomic.step (Atomic.initial (counter s) (replicate goroutines (false, nonceUpdate))) m →
  NoDup (nonceBytes (prefix s) <$> Atomic.results m) ∧
  Forall (λ n, len n = size) (nonceBytes (prefix s) <$> Atomic.results m) ∧
  Forall (λ c, 0 < c ≤ MaxUint64) (Atomic.results m).
Proof.
  intros He [Hc Hp]%newNonceSource_spec Hr; [|done]. rewrite Hc in Hr.
  destruct (Atomic.counter_results 0 goroutines nonceUpdate m) as [Hn Hb]; try done.
  { intros a b. unfold nonceUpdate. case_if as E; naive_solver. }
  split_and!; [by apply NoDup_nonceBytes| |done].
  apply Forall_fmap, Forall_true. intros c. cbn. by rewrite nonceBytes_len.
Qed.

(** For each of the five algorithms, two parties that construct it from the
    same secret understand each other: as long as the sender's counter is not
    exhausted encryption succeeds, and decrypting its output with the same
    additional data gives the plaintext back, whatever has been encrypted
    before.  The nonce in front of the ciphertext is the next one of the
    source. *)
Theorem encrypt_decrypt_roundtrip (a : algorithm) (secret : list byte)
    (rnd rnd' : Z → option (list byte)) (sender receiver : IEncryption)
    (c : Z) (plaintext aad : list byte) :
  entropy rnd → entropy rnd' →
  newEncryption a secret rnd = Ok sender → newEncryption a secret rnd' = Ok receiver →
  0 ≤ c < MaxUint64 →
  let sender := sender <| nonce ::= (fun s => s <| counter := c |>) |> in
  ∃ sender' data,
    Encrypt sender plaintext aad = (sender', Ok data) ∧
    Decrypt receiver data aad = Ok plaintext ∧
    take (Z.to_nat (aead_nonceSize a)) data = nonceBytes (prefix (nonce sender)) (c + 1) ∧
    counter (nonce sender') = c + 1.
Proof.
  intros He He' Hs Hr Hc. rewrite newEncryption_cipher in Hs, Hr. destruct sender as [al k [p c0]].
  apply newCipher_spec in Hs as (Ha & Hkey & (Hw1 & Hw2 & Hw3) & Hc0); [|done]. cbn in *. subst.
  apply newCipher_spec in Hr as (<- & Hk & Hwr & _); [|done]. rewrite <- Hk in *.
  set (s := mkEnc (alg receiver) (ekey receiver) (mkNonce p c)).
  destruct (Encrypt_spec s plaintext aad) as (_ & Hl & He1).
  { unfold wfe, in_u64, MaxUint64 in *. cbn. split_and!; try done; lia. }
  { cbn. lia. }
  cbn in He1, Hl. eexists _, _. split_and!; [exact He1| | |done].
  - apply Decrypt_sealed; [apply Hwr|done].
  - rewrite take_app_length'; [done|]. unfold len in Hl. lia.
Qed.

End Encryption.

(** ** An instance of the laws

    A toy cipher that puts a readable tag in front of the plaintext, to show the
    laws can hold. *)

Definition pad (n : Z) (l : list byte) : list byte :=
  take (Z.to_nat n) (l ++ replicate (Z.to_nat n) Byte.x00).

Lemma pad_len n l : 0 ≤ n → len (pad n l) = n.
Proof.
  intros. unfold pad, len. rewrite length_take, length_app, length_replicate. lia.
Qed.

(** A self-delimiting encoding: every byte is marked. *)
Definition putChunk (c : list byte) : list byte := (c ≫= λ b, [Byte.x01; b]) ++ [Byte.x00].

Fixpoint getChunk (l : list byte) : option (list byte * list byte) :=
  match l with
  | Byte.x00 :: l => Some ([], l)
  | Byte.x01 :: b :: l => '(c, rest) ← getChunk l; Some (b :: c, rest)
  | _ => None
  end.

Lemma getChunk_put c l : getChunk (putChunk c ++ l) = Some (c, l).
Proof.
  unfold putChunk. induction c as [|b c IH]; [done|]. rewrite bind_cons. cbn [app getChunk].
  by rewrite IH.
Qed.

Lemma putChunk_len c : len c < len (putChunk c).
Proof.
  unfold putChunk. rewrite len_app. induction c as [|b c IH]; [done|].
  rewrite bind_cons, len_app, len_cons. change (len [Byte.x01; b]) with 2. lia.
Qed.

Definition cryptoExample : Crypto := {|
  hkdf512 s n := if 0 <=? n then Some (pad n s) else None;
  hkdf256 s salt info n := if 0 <=? n then Some (pad n (reverse info ++ salt ++ s)) else None;
  cipher_ok a k := true;
  aead_keySize a := match a with ASCON_128A => 16 | _ => 32 end;
  aead_nonceSize a :=
    match a with ASCON_128A => 16 | XCHACHA20_POLY1305 => 24 | _ => 12 end;
  aead_seal a k n p ad := putChunk (k ++ n ++ ad) ++ p;
  aead_open a k n c ad :=
    '(tag, p) ← getChunk c; if bool_decide (tag = k ++ n ++ ad) then Some p else None
|}.

Lemma cryptoExample_laws : CryptoLaws cryptoExample.
Proof.
  split; cbn; intros.
  - rewrite getChunk_put. cbn. by rewrite bool_decide_eq_true_2.
  - rewrite len_app. pose proof (putChunk_len (k ++ n ++ ad)).
    pose proof (len_nonneg (k ++ n ++ ad)). lia.
  - destruct a; lia.
  - done.
  - done.
  - done.
  - destruct a; lia.
  - case_all; simplify_eq. by apply pad_len.
  - case_if as E; [eauto|lia].
  - case_all; simplify_eq. by apply pad_len.
  - case_if as E; [eauto|lia].
Qed.

Definition rndExample (fill : byte) (n : Z) : option (list byte) :=
  if 0 <=? n then Some (replicate (Z.to_nat n) fill) else None.

Lemma rndExample_entropy fill : entropy (rndExample fill).
Proof.
  intros n p. unfold rndExample. case_if as E; [|done]. intros [= <-].
  unfold len. rewrite length_replicate. lia.
Qed.

(** Two goroutines of which one loses the race and retries. *)
Lemma nonces_unique_witness :
  ∃ s m, newNonceSource 12 (rndExample Byte.x61) = Ok s ∧
    (nonceBytes (prefix s) <$> Atomic.results m)
      = [bytes_of "aaaa" ++ be_encode 8 1; bytes_of "aaaa" ++ be_encode 8 2] ∧
    NoDup (nonceBytes (prefix s) <$> Atomic.results m).
Proof.
  set (t s := Atomic.mkThread nonceUpdate false s).
  set (m := Atomic.mkMem 2 [t (Atomic.Won 0 1); t (Atomic.Won 1 2)] [(0, 1); (1, 2)]).
  exists (mkNonce (bytes_of "aaaa") 0), m. split; [reflexivity|]. split; [vm_compute; reflexivity|].
  apply (nonces_unique 12 (rndExample Byte.x61) (mkNonce (bytes_of "aaaa") 0) 2 m).
  - apply rndExample_entropy.
  - reflexivity.
  - eapply rtc_l; [apply (Atomic.step_load _ 0 (t Atomic.Start)); reflexivity|].
    eapply rtc_l; [apply (Atomic.step_load _ 1 (t Atomic.Start)); reflexivity|].
    eapply rtc_l; [apply (Atomic.step_cas _ 0 (t (Atomic.Loaded 0)) 0 1); reflexivity|].
    eapply rtc_l; [apply (Atomic.step_retry _ 1 (t (Atomic.Loaded 0)) 0 1); try reflexivity; discriminate|].
    eapply rtc_l; [apply (Atomic.step_load _ 1 (t Atomic.Start)); reflexivity|].
    eapply rtc_l; [apply (Atomic.step_cas _ 1 (t (Atomic.Loaded 1)) 1 2); reflexivity|].
    apply rtc_refl.
Defined.

Lemma encrypt_decrypt_roundtrip_witness :
  let _ := cryptoExample in
  match newEncryption ASCON_128A (bytes_of "secret") (rndExample Byte.x61),
        newEncryption ASCON_128A (bytes_of "secret") (rndExample Byte.x62) with
  | Ok sender, Ok receiver =>
      let sender := sender <| nonce ::= (fun s => s <| counter := 41 |>) |> in
      ∃ sender' data,
        Encrypt sender (bytes_of "hello") (bytes_of "ad") = (sender', Ok data) ∧
        Decrypt receiver data (bytes_of "ad") = Ok (bytes_of "hello") ∧
        take 16 data = bytes_of "aaaaaaaa" ++ be_encode 8 42 ∧
        counter (nonce sender') = 42
  | _, _ => False
  end.
Proof.
  intros C.
  destruct (newEncryption ASCON_128A (bytes_of "secret") (rndExample Byte.x61)) as [s|] eqn:Es;
    [|discriminate].
  destruct (newEncryption ASCON_128A (bytes_of "secret") (rndExample Byte.x62)) as [r|] eqn:Er;
    [|discriminate].
  assert (Hp : prefix (nonce s) = bytes_of "aaaaaaaa") by (vm_compute in Es; by inversion Es).
  assert (H := @encrypt_decrypt_roundtrip cryptoExample cryptoExample_laws ASCON_128A
    (bytes_of "secret") _ _ s r 41 (bytes_of "hello") (bytes_of "ad")
    (rndExample_entropy _) (rndExample_entropy _) Es Er ltac:(unfold MaxUint64; lia)).
  destruct H as (s' & d & H1 & H2 & H3 & H4). exists s', d.
  split; [exact H1|]. split; [exact H2|]. split; [|exact H4].
  rewrite <- Hp. exact H3.
Defined.

End Encryption.
