(* ===== verification/Handshake.v ===== *)
(** * Handshake.v: identities, transcripts and key derivation
    (src/peer/handshake.go, src/peer/psk.go)

    HKDF is a member of [Crypto]; SHA-256 and Ed25519 are members of the class
    [Signatures] below.  A Go string is its bytes. *)

From S2P Require Import Prelude Encryption.
From Stdlib Require Import ZArith Lia String.
From stdpp Require Import base list option strings numbers gmap.

Local Open Scope Z_scope.
Local Open Scope go_scope.

(** crypto/sha256 and crypto/ed25519. *)
Class Signatures := {
  sha256 : list byte → list byte;
  ed_newKeyFromSeed : list byte → list byte;
  ed_public : list byte → list byte;
  ed_sign : list byte → list byte → list byte;
  ed_verify : list byte → list byte → list byte → bool
}.

Definition ed_PublicKeySize : Z := 32.
Definition ed_PrivateKeySize : Z := 64.
Definition ed_SignatureSize : Z := 64.
Definition ed_SeedSize : Z := 32.

Class SignatureLaws (S : Signatures) : Prop := {
  sha256_len m : len (sha256 m) = 32;
  ed_newKey_len seed : len seed = ed_SeedSize → len (ed_newKeyFromSeed seed) = ed_PrivateKeySize;
  ed_newKey_seed seed :
    len seed = ed_SeedSize → take (Z.to_nat ed_SeedSize) (ed_newKeyFromSeed seed) = seed;
  ed_public_len seed :
    len seed = ed_SeedSize → len (ed_public (ed_newKeyFromSeed seed)) = ed_PublicKeySize;
  ed_sign_len k m : len k = ed_PrivateKeySize → len (ed_sign k m) = ed_SignatureSize;
  ed_verify_sign seed m :
    len seed = ed_SeedSize →
    let k := ed_newKeyFromSeed seed in ed_verify (ed_public k) m (ed_sign k m) = true
}.

Module Handshake.
Section Handshake.
Context `{C : !Crypto} `{S : !Signatures}.

Definition HandshakeNonceSize : Z := 32.
Definition HandshakeKeySize : Z := 32.
Definition MinPreSharedKeySize : Z := 32.
Definition MaxClientIDLength : Z := 128.

(** ** psk.go *)

Record PreSharedKey := mkPSK {
  ClientID : string;
  Key : list byte;
  ServerPublicKey : list byte
}.

(** One character of [^[A-Za-z0-9_-]+$]. *)
Definition clientIDChar (b : byte) : bool :=
  let c := byte_val b in
  ((65 <=? c) && (c <=? 90)) || ((97 <=? c) && (c <=? 122)) ||
  ((48 <=? c) && (c <=? 57)) || (c =? 95) || (c =? 45).

Definition clientIDPattern (s : string) : bool :=
  (0 <? slen s) && forallb clientIDChar (bytes_of s).

Definition ValidateClientID (clientID : string) : result unit :=
  if (slen clientID =? 0) || (MaxClientIDLength <? slen clientID)
  then Err "client ID must be between 1 and 128 bytes"
  else if negb (clientIDPattern clientID)
  then Err "client ID must use letters, digits, underscore, or hyphen"
  else Ok ().

Definition ValidateClientCredentials (clientID : string) (key : list byte) : result unit :=
  _ ← ValidateClientID clientID;
  guard_err (len key <? MinPreSharedKeySize) "pre-shared key must be at least 32 bytes".

Definition Validate (p : PreSharedKey) : result unit :=
  _ ← ValidateClientCredentials (ClientID p) (Key p);
  guard_err (negb (len (ServerPublicKey p) =? ed_PublicKeySize))
    "server public key must be 32 bytes".

(** The interface a server resolves client identities with. *)
Definition KeyProvider : Type := string → result (list byte).

Definition StaticKeyring : Type := gmap string (list byte).

Definition StaticKeyring_Key (k : StaticKeyring) : KeyProvider := fun clientID =>
  match k !! clientID with
  | None => Err "unknown client"
  | Some key => Ok key
  end.

(** ** handshake.go *)

(** [hex.EncodeToString]. *)
Definition hexDigit (n : Z) : byte := byte_of (if n <? 10 then 48 + n else 87 + n).
Definition hexEncode (l : list byte) : list byte :=
  l ≫= (fun b => [hexDigit (Z.shiftr (byte_val b) 4); hexDigit (Z.land (byte_val b) 15)]).

(** [publicKey] is [None] when the value is not an [ed25519.PublicKey]. *)
Definition ServerIDFromPublicKey (publicKey : option (list byte)) : result string :=
  match publicKey with
  | None => Err "invalid public key type"
  | Some k =>
      if negb (len k =? ed_PublicKeySize) then Err "invalid Ed25519 public key"
      else Ok (String.string_of_list_byte (hexEncode (sha256 k)))
  end.

(** The fields one after the other, each behind its length in 32 bits. *)
Definition encodeHandshakeFields (fields : list (list byte)) : list byte :=
  fields ≫= (fun field => be_encode 4 (u32 (len field)) ++ field).

Definition validateHandshakeKeyContext (masterKey : list byte)
    (roomID clientID serverID : string) (clientNonce : list byte) : result unit :=
  _ ← ValidateClientCredentials clientID masterKey;
  _ ← guard_err ((slen roomID =? 0) || (slen serverID =? 0))
        "room ID and server ID must not be empty";
  guard_err (negb (len clientNonce =? HandshakeNonceSize)) "client nonce must be 32 bytes".

Definition deriveHandshakeKey (masterKey salt info : list byte) : result (list byte) :=
  match hkdf256 masterKey salt info HandshakeKeySize with
  | None => Err "derive handshake key"
  | Some key => Ok key
  end.

Definition clientHelloInfo (roomID clientID serverID : string) (clientNonce : list byte)
  : list byte :=
  encodeHandshakeFields
    [bytes_of "telekit/client-hello-key/v1"; bytes_of roomID; bytes_of clientID;
     bytes_of serverID; clientNonce; bytes_of "client-to-server"].

Definition DeriveClientHelloKey (masterKey : list byte) (roomID clientID serverID : string)
    (clientNonce : list byte) : result (list byte) :=
  _ ← validateHandshakeKeyContext masterKey roomID clientID serverID clientNonce;
  deriveHandshakeKey masterKey clientNonce (clientHelloInfo roomID clientID serverID clientNonce).

Definition serverHelloInfo (roomID clientID serverID : string)
    (clientNonce serverNonce : list byte) : list byte :=
  encodeHandshakeFields
    [bytes_of "telekit/server-hello-key/v1"; bytes_of roomID; bytes_of clientID;
     bytes_of serverID; clientNonce; serverNonce; bytes_of "server-to-client"].

Definition DeriveServerHelloKey (masterKey : list byte) (roomID clientID serverID : string)
    (clientNonce serverNonce : list byte) : result (list byte) :=
  _ ← validateHandshakeKeyContext masterKey roomID clientID serverID clientNonce;
  _ ← guard_err (negb (len serverNonce =? HandshakeNonceSize)) "server nonce must be 32 bytes";
  deriveHandshakeKey masterKey serverNonce
    (serverHelloInfo roomID clientID serverID clientNonce serverNonce).

Definition validateServerHelloTranscript (roomID clientID serverID : string)
    (clientNonce serverNonce clientEphemeralKey serverEphemeralKey sessionSalt : list byte)
  : result unit :=
  _ ← guard_err ((slen roomID =? 0) || (slen clientID =? 0) || (slen serverID =? 0))
        "handshake identities must not be empty";
  _ ← guard_err (negb (len clientNonce =? HandshakeNonceSize)
                 || negb (len serverNonce =? HandshakeNonceSize))
        "handshake nonces must be 32 bytes";
  _ ← guard_err (negb (len clientEphemeralKey =? HandshakeKeySize)
                 || negb (len serverEphemeralKey =? HandshakeKeySize))
        "X25519 public keys must be 32 bytes";
  guard_err (negb (len sessionSalt =? HandshakeNonceSize)) "session salt must be 32 bytes".

Definition serverHelloTranscript (roomID clientID serverID : string)
    (clientNonce serverNonce clientEphemeralKey serverEphemeralKey sessionSalt : list byte)
  : list byte :=
  encodeHandshakeFields
    [bytes_of "telekit/server-hello/v3"; bytes_of roomID; bytes_of clientID;
     bytes_of serverID; clientNonce; serverNonce; clientEphemeralKey; serverEphemeralKey;
     sessionSalt].

Definition SignServerHello (privateKey : list byte) (roomID clientID serverID : string)
    (clientNonce serverNonce clientEphemeralKey serverEphemeralKey sessionSalt : list byte)
  : result (list byte) :=
  if negb (len privateKey =? ed_PrivateKeySize) then Err "invalid Ed25519 private key"
  else
    let canonicalKey := ed_newKeyFromSeed (take (Z.to_nat ed_SeedSize) privateKey) in
    if negb (bool_decide (canonicalKey = privateKey)) then Err "invalid Ed25519 private key"
    else
      _ ← validateServerHelloTranscript roomID clientID serverID clientNonce serverNonce
            clientEphemeralKey serverEphemeralKey sessionSalt;
      Ok (ed_sign privateKey
            (serverHelloTranscript roomID clientID serverID clientNonce serverNonce
               clientEphemeralKey serverEphemeralKey sessionSalt)).

Definition VerifyServerHello (publicKey : list byte) (roomID clientID serverID : string)
    (clientNonce serverNonce clientEphemeralKey serverEphemeralKey sessionSalt signature : list byte)
  : bool :=
  if negb (len publicKey =? ed_PublicKeySize) || negb (len signature =? ed_SignatureSize)
  then false
  else match validateServerHelloTranscript roomID clientID serverID clientNonce serverNonce
               clientEphemeralKey serverEphemeralKey sessionSalt with
       | Err _ => false
       | Ok _ =>
           ed_verify publicKey
             (serverHelloTranscript roomID clientID serverID clientNonce serverNonce
                clientEphemeralKey serverEphemeralKey sessionSalt) signature
       end.

(** ** psk.go: DeriveSessionKey *)

Definition sessionInfo (roomID clientID serverID : string)
    (clientNonce serverNonce clientEphemeralKey serverEphemeralKey : list byte) : list byte :=
  encodeHandshakeFields
    [bytes_of "telekit/session/v3"; bytes_of roomID; bytes_of clientID; bytes_of serverID;
     clientNonce; serverNonce; clientEphemeralKey; serverEphemeralKey].

Definition DeriveSessionKey (masterKey sharedSecret salt : list byte)
    (roomID clientID serverID : string)
    (clientNonce serverNonce clientEphemeralKey serverEphemeralKey : list byte)
  : result (list byte) :=
  _ ← ValidateClientCredentials clientID masterKey;
  _ ← guard_err ((slen roomID =? 0) || (slen serverID =? 0))
        "room ID and server ID must not be empty";
  _ ← guard_err (negb (len salt =? HandshakeNonceSize)) "session salt must be 32 bytes";
  _ ← guard_err (negb (len clientNonce =? HandshakeNonceSize)
                 || negb (len serverNonce =? HandshakeNonceSize))
        "handshake nonces must be 32 bytes";
  _ ← guard_err (negb (len sharedSecret =? HandshakeKeySize))
        "X25519 shared secret must be 32 bytes";
  _ ← guard_err (negb (len clientEphemeralKey =? HandshakeKeySize)
                 || negb (len serverEphemeralKey =? HandshakeKeySize))
        "X25519 public keys must be 32 bytes";
  let keyMaterial := encodeHandshakeFields [masterKey; sharedSecret] in
  let info := sessionInfo roomID clientID serverID clientNonce serverNonce
                clientEphemeralKey serverEphemeralKey in
  match hkdf256 keyMaterial salt info 32 with
  | None => Err "hkdf: entropy limit reached"
  | Some key => Ok key
  end.

(** ** The encoding of fields is injective *)

Definition short (l : list byte) : Prop := len l < 2 ^ 32.

Lemma field_inj f1 f2 r1 r2 :
  short f1 → short f2 →
  be_encode 4 (u32 (len f1)) ++ f1 ++ r1 = be_encode 4 (u32 (len f2)) ++ f2 ++ r2 →
  f1 = f2 ∧ r1 = r2.
Proof.
  unfold short. intros H1 H2 H.
  pose proof (len_nonneg f1). pose proof (len_nonneg f2).
  apply app_inj_1 in H as [Hl H]; [|by rewrite !be_encode_length].
  unfold u32 in Hl. rewrite !Z.mod_small in Hl by lia.
  apply (be_encode_inj 4) in Hl; [|lia..].
  apply app_inj_1 in H; [done|]. unfold len in Hl. lia.
Qed.

Lemma encodeHandshakeFields_inj fs1 fs2 :
  Forall short fs1 → Forall short fs2 →
  encodeHandshakeFields fs1 = encodeHandshakeFields fs2 → fs1 = fs2.
Proof.
  intros H1. revert fs2. induction H1 as [|f1 fs1 Hf1 _ IH]; intros [|f2 fs2] H2 H.
  - done.
  - by destruct (be_encode 4 (u32 (len f2))) eqn:E; apply (f_equal length) in E;
      rewrite be_encode_length in E.
  - by destruct (be_encode 4 (u32 (len f1))) eqn:E; apply (f_equal length) in E;
      rewrite be_encode_length in E.
  - inversion_clear H2. unfold encodeHandshakeFields in H. rewrite !bind_cons, <- !app_assoc in H.
    apply field_inj in H as [-> H]; [|done..]. f_equal. by apply IH.
Qed.

Lemma short_fields_len fs n :
  Forall (λ f, len f ≤ n) fs → 0 ≤ n →
  len (encodeHandshakeFields fs) ≤ (4 + n) * len fs.
Proof.
  intros H Hn. induction H as [|f fs Hf _ IH]; [unfold len; simpl; lia|].
  unfold encodeHandshakeFields in *. rewrite bind_cons, !len_app, len_cons.
  assert (len (be_encode 4 (u32 (len f))) = 4) as -> by (unfold len; by rewrite be_encode_length).
  lia.
Qed.

(** ** What the validations accept *)

Definition credentials_valid (clientID : string) (key : list byte) : Prop :=
  0 < slen clientID ≤ 128 ∧
  forallb clientIDChar (bytes_of clientID) = true ∧
  32 ≤ len key.

Lemma ValidateClientCredentials_ok clientID key :
  ValidateClientCredentials clientID key = Ok () ↔ credentials_valid clientID key.
Proof.
  unfold ValidateClientCredentials, credentials_valid, ValidateClientID, clientIDPattern.
  rewrite bind_ok_unit, guard_ok, Z.ltb_ge. unfold MaxClientIDLength, MinPreSharedKeySize.
  pose proof (len_nonneg (bytes_of clientID)) as Hl. fold (slen clientID) in Hl.
  destruct (slen clientID =? 0) eqn:E0; b2p; [simpl; split; [by intros [? _]|lia]|].
  destruct (128 <? slen clientID) eqn:E1; b2p; [simpl; split; [by intros [? _]|lia]|].
  rewrite (proj2 (Z.ltb_lt _ _)) by lia. simpl.
  destruct (forallb clientIDChar (bytes_of clientID)); simpl.
  - split; [intros [_ ?]; lia|intros (_ & _ & ?); done].
  - split; [by intros [? _]|by intros (_ & ? & _)].
Qed.

Definition transcript_valid (roomID clientID serverID : string)
    (clientNonce serverNonce clientEphemeralKey serverEphemeralKey sessionSalt : list byte) : Prop :=
  0 < slen roomID ∧ 0 < slen clientID ∧ 0 < slen serverID ∧
  len clientNonce = 32 ∧ len serverNonce = 32 ∧
  len clientEphemeralKey = 32 ∧ len serverEphemeralKey = 32 ∧ len sessionSalt = 32.

Lemma slen_pos s : (slen s =? 0) = false ↔ 0 < slen s.
Proof. rewrite Z.eqb_neq. pose proof (len_nonneg (bytes_of s)). unfold slen. lia. Qed.

Lemma validateServerHelloTranscript_ok r c s cn sn ce se salt :
  validateServerHelloTranscript r c s cn sn ce se salt = Ok () ↔
  transcript_valid r c s cn sn ce se salt.
Proof.
  unfold validateServerHelloTranscript, transcript_valid.
  rewrite !bind_ok_unit, !guard_ok, !orb_false_iff, !slen_pos, !negb_false_iff, !Z.eqb_eq.
  unfold HandshakeNonceSize, HandshakeKeySize. tauto.
Qed.

Context `{L : !CryptoLaws C} `{SL : !SignatureLaws S}.

Lemma hkdf256_ok s salt info n :
  0 < n ≤ 64 → ∃ k, hkdf256 s salt info n = Some k ∧ len k = n.
Proof.
  intros Hn. destruct (hkdf256_total s salt info n Hn) as [k Hk].
  exists k. split; [done|by eapply hkdf256_len].
Qed.

(** ** Signatures *)

Lemma SignServerHello_ok k r c s cn sn ce se salt sig :
  SignServerHello k r c s cn sn ce se salt = Ok sig ↔
  len k = 64 ∧ ed_newKeyFromSeed (take 32 k) = k ∧
  transcript_valid r c s cn sn ce se salt ∧
  sig = ed_sign k (serverHelloTranscript r c s cn sn ce se salt).
Proof.
  unfold SignServerHello, ed_PrivateKeySize. change (Z.to_nat ed_SeedSize) with 32%nat.
  case_if as E; [split; [done|by intros (? & _)]|].
  case_if as E1; [split; [done|by intros (_ & ? & _)]|].
  rewrite bind_ok_unit, validateServerHelloTranscript_ok. split; [intros [? [= <-]]; done|].
  intros (_ & _ & ? & ->). done.
Qed.

Lemma VerifyServerHello_true pk r c s cn sn ce se salt sig :
  VerifyServerHello pk r c s cn sn ce se salt sig = true ↔
  len pk = 32 ∧ len sig = 64 ∧ transcript_valid r c s cn sn ce se salt ∧
  ed_verify pk (serverHelloTranscript r c s cn sn ce se salt) sig = true.
Proof.
  unfold VerifyServerHello, ed_PublicKeySize, ed_SignatureSize.
  rewrite <- validateServerHelloTranscript_ok.
  destruct (len pk =? 32) eqn:E1; b2p; [|split; [done|by intros (? & _)]].
  destruct (len sig =? 64) eqn:E2; b2p; [|split; [done|by intros (_ & ? & _)]].
  cbn [negb orb]. destruct (validateServerHelloTranscript _ _ _ _ _ _ _ _) as [[]|];
    [|split; [done|by intros (_ & _ & ? & _)]].
  split; [done|by intros (_ & _ & _ & ?)].
Qed.

Lemma signed_verifies k r c s cn sn ce se salt sig :
  SignServerHello k r c s cn sn ce se salt = Ok sig →
  VerifyServerHello (ed_public k) r c s cn sn ce se salt sig = true.
Proof.
  intros (Hk & Hc & Ht & ->)%SignServerHello_ok.
  assert (Hs : len (take 32 k) = ed_SeedSize).
  { unfold len in *. rewrite length_take. change ed_SeedSize with 32. lia. }
  apply VerifyServerHello_true. rewrite <- Hc at 1 3. split_and!; [| |done|].
  - by apply ed_public_len.
  - by apply ed_sign_len.
  - rewrite <- Hc at 2. by apply ed_verify_sign.
Qed.

(** The signature on a ServerHello.  Signing succeeds exactly for a private
    key that is the canonical expansion of its own seed and a well-formed
    transcript, and what it returns is accepted by the verifier who holds the
    matching public key and sees the same transcript.  The verifier accepts
    nothing but an Ed25519 signature of the well-formed transcript it was
    given. *)
Theorem server_hello_signature (k pk : list byte) (r c s : string)
    (cn sn ce se salt sig : list byte) :
  (is_ok (SignServerHello k r c s cn sn ce se salt) = true ↔
     len k = 64 ∧ ed_newKeyFromSeed (take 32 k) = k ∧ transcript_valid r c s cn sn ce se salt) ∧
  (SignServerHello k r c s cn sn ce se salt = Ok sig →
     VerifyServerHello (ed_public k) r c s cn sn ce se salt sig = true) ∧
  (VerifyServerHello pk r c s cn sn ce se salt sig = true →
     transcript_valid r c s cn sn ce se salt ∧
     ed_verify pk (serverHelloTranscript r c s cn sn ce se salt) sig = true).
Proof.
  split_and!.
  - destruct (SignServerHello k r c s cn sn ce se salt) as [x|e] eqn:E.
    + apply SignServerHello_ok in E. tauto.
    + split; [done|]. intros (H1 & H2 & H3).
      assert (SignServerHello k r c s cn sn ce se salt
        = Ok (ed_sign k (serverHelloTranscript r c s cn sn ce se salt))) as E'
        by (by apply SignServerHello_ok). congruence.
  - apply signed_verifies.
  - intros (_ & _ & ? & ?)%VerifyServerHello_true. done.
Qed.

(** ** Key derivation *)

Lemma deriveHandshakeKey_total k salt info :
  ∃ key, deriveHandshakeKey k salt info = Ok key ∧ len key = 32.
Proof.
  unfold deriveHandshakeKey, HandshakeKeySize.
  destruct (hkdf256_ok k salt info 32) as (key & -> & ?); [lia|eauto].
Qed.

Lemma validateHandshakeKeyContext_ok k r c s cn :
  validateHandshakeKeyContext k r c s cn = Ok () ↔
  credentials_valid c k ∧ 0 < slen r ∧ 0 < slen s ∧ len cn = 32.
Proof.
  unfold validateHandshakeKeyContext.
  rewrite !bind_ok_unit, !guard_ok, ValidateClientCredentials_ok, orb_false_iff, !slen_pos,
    negb_false_iff, Z.eqb_eq. unfold HandshakeNonceSize. tauto.
Qed.

(** A derivation that succeeds exactly when [P] holds, with a key of 32 bytes. *)
Definition derives (P : Prop) (d : result (list byte)) : Prop :=
  (∀ key, d = Ok key → P ∧ len key = 32) ∧ (P → is_ok d = true).

(** The validations of a derivation amount to [P]; [f] is what follows them. *)
Lemma guarded_derives (P : Prop) (d f : result (list byte)) :
  (∀ key, d = Ok key ↔ P ∧ f = Ok key) → (∃ key, f = Ok key ∧ len key = 32) → derives P d.
Proof.
  intros Hd (key & Hf & Hk). split.
  - intros key' [HP Hf']%Hd. split; [done|congruence].
  - intros HP. by rewrite (proj2 (Hd key)).
Qed.

Lemma derives_ok P d : derives P d → P → ∃ key, d = Ok key ∧ len key = 32.
Proof. intros [H1 H2] HP%H2. destruct d as [key|]; [|done]. exists key. split; [done|by apply H1]. Qed.

Definition identified (k : list byte) (r c s : string) : Prop :=
  credentials_valid c k ∧ 0 < slen r ∧ 0 < slen s.

Lemma client_hello_key_derives k r c s cn :
  derives (identified k r c s ∧ len cn = 32) (DeriveClientHelloKey k r c s cn).
Proof.
  apply (guarded_derives _ _ (deriveHandshakeKey k cn (clientHelloInfo r c s cn)));
    [intros key|apply deriveHandshakeKey_total].
  unfold DeriveClientHelloKey, identified.
  rewrite bind_ok_unit, validateHandshakeKeyContext_ok. tauto.
Qed.

Lemma server_hello_key_derives k r c s cn sn :
  derives (identified k r c s ∧ len cn = 32 ∧ len sn = 32) (DeriveServerHelloKey k r c s cn sn).
Proof.
  apply (guarded_derives _ _ (deriveHandshakeKey k sn (serverHelloInfo r c s cn sn)));
    [intros key|apply deriveHandshakeKey_total].
  unfold DeriveServerHelloKey, identified. rewrite !bind_ok_unit, validateHandshakeKeyContext_ok,
    guard_ok, negb_false_iff, Z.eqb_eq. change HandshakeNonceSize with 32. tauto.
Qed.

Lemma session_key_derives k ss salt r c s cn sn ce se :
  derives (identified k r c s ∧ len salt = 32 ∧ len cn = 32 ∧ len sn = 32 ∧ len ss = 32 ∧
           len ce = 32 ∧ len se = 32) (DeriveSessionKey k ss salt r c s cn sn ce se).
Proof.
  destruct (hkdf256_ok (encodeHandshakeFields [k; ss]) salt
    (sessionInfo r c s cn sn ce se) 32) as (key & Hkey & ?); [lia|].
  apply (guarded_derives _ _ (Ok key)); [intros key'|eauto].
  unfold DeriveSessionKey, identified. rewrite !bind_ok_unit, ValidateClientCredentials_ok, !guard_ok,
    !orb_false_iff, !negb_false_iff, !Z.eqb_eq, !slen_pos, Hkey.
  change HandshakeNonceSize with 32. change HandshakeKeySize with 32. tauto.
Qed.

(** The three key derivations succeed exactly when the credentials are
    well formed (a client ID of 1 to 128 letters, digits, underscores or
    hyphens and a pre-shared key of at least 32 bytes), the room and the server
    are named, and every nonce, salt and X25519 value has 32 bytes; the key they
    return has 32 bytes. *)
Theorem key_derivation_total (k ss salt cn sn ce se : list byte) (r c s : string) :
  let ids := credentials_valid c k ∧ 0 < slen r ∧ 0 < slen s in
  derives (ids ∧ len cn = 32) (DeriveClientHelloKey k r c s cn) ∧
  derives (ids ∧ len cn = 32 ∧ len sn = 32) (DeriveServerHelloKey k r c s cn sn) ∧
  derives (ids ∧ len salt = 32 ∧ len cn = 32 ∧ len sn = 32 ∧ len ss = 32 ∧
           len ce = 32 ∧ len se = 32) (DeriveSessionKey k ss salt r c s cn sn ce se).
Proof.
  split_and!; [apply client_hello_key_derives|apply server_hello_key_derives
              |apply session_key_derives].
Qed.

End Handshake.
(** ** An instance of the laws *)

Definition sigExample : Signatures := {|
  sha256 m := Encryption.pad 32 m;
  ed_newKeyFromSeed seed := seed ++ seed;
  ed_public k := drop 32 k;
  ed_sign k m := Encryption.pad 64 (drop 32 k ++ reverse m);
  ed_verify pk m sig := bool_decide (sig = Encryption.pad 64 (pk ++ reverse m))
|}.

Lemma sigExample_laws : SignatureLaws sigExample.
Proof.
  split; cbn -[Encryption.pad]; unfold ed_SeedSize, ed_PrivateKeySize, ed_PublicKeySize,
    ed_SignatureSize; intros.
  - by apply Encryption.pad_len.
  - rewrite len_app. lia.
  - change (Z.to_nat 32) with 32%nat. apply take_app_length'. unfold len in H. lia.
  - rewrite drop_app_length'; [done|]. unfold len in H. lia.
  - by apply Encryption.pad_len.
  - apply bool_decide_eq_true_2. done.
Qed.

Definition demo32 (b : byte) : list byte := replicate 32 b.

(** A hello signed with a concrete key and verified with its public half. *)
Lemma server_hello_signature_witness :
  let _ := sigExample in
  let k := ed_newKeyFromSeed (demo32 Byte.x01) in
  let a := demo32 Byte.x02 in
  match SignServerHello k "room" "client" "server" a a a a a with
  | Ok sig => VerifyServerHello (ed_public k) "room" "client" "server" a a a a a sig = true
  | Err _ => False
  end.
Proof.
  intros S k a.
  destruct (SignServerHello k "room" "client" "server" a a a a a) as [sig|] eqn:E; [|discriminate].
  exact (proj1 (proj2 (@server_hello_signature sigExample sigExample_laws k (ed_public k)
    "room" "client" "server" a a a a a sig)) E).
Defined.

Lemma key_derivation_total_witness :
  let _ := Encryption.cryptoExample in
  let a := demo32 Byte.x02 in
  ∃ key, DeriveSessionKey a a a "room" "client-1" "server" a a a a = Ok key ∧ len key = 32.
Proof.
  intros C a.
  destruct (@key_derivation_total Encryption.cryptoExample Encryption.cryptoExample_laws a a a a a a a
    "room" "client-1" "server") as (_ & _ & H).
  apply (@derives_ok _ _ H). vm_compute. repeat split; discriminate.
Defined.

End Handshake.
