(* ===== verification/Codec.v ===== *)
(** * Codec.v: the signaling codec
    (src/peer/codec.go, src/peer/marshal.go, src/peer/types.go)

    A message is a header and a payload, each serialised with encoding/gob.  The
    payload is always encrypted, the header when the message asks for it; both
    are bound to their place by additional authenticated data.

    encoding/gob is the class [Gob] and the WebRTC structs are the types of the
    class [WebRTC]; [any] is the type of dynamic values. *)

From S2P Require Import Prelude Encryption.
From Stdlib Require Import ZArith Lia String.
From stdpp Require Import base list option strings numbers gmap.

Local Open Scope Z_scope.
Local Open Scope go_scope.

(** github.com/pion/webrtc/v4: the two structs and the fields the code reads. *)
Class WebRTC := {
  SessionDescription : Type;
  ICECandidateInit : Type;
  Candidate : ICECandidateInit → string;
  SDPMid : ICECandidateInit → option string;
  UsernameFragment : ICECandidateInit → option string;
  any : Type
}.

(** encoding/gob for values of type [T].  [gob_encode v] is what the encoder
    writes to the buffer and whether it succeeds; [gob_stable v] holds of the
    values gob transmits unchanged (it does not distinguish a pointer to a zero
    value from a nil pointer). *)
Class Gob (T : Type) := {
  gob_encode : T → list byte * bool;
  gob_decode : list byte → option T;
  gob_stable : T → Prop
}.

Class GobLaws {T : Type} (G : Gob T) : Prop := {
  gob_roundtrip v : gob_stable v → (gob_encode v).2 = true →
    gob_decode (gob_encode v).1 = Some v;
  gob_nonempty v : (gob_encode v).2 = true → (gob_encode v).1 ≠ []
}.

(** The extra facts about a slice of byte slices: it can always be encoded, and
    the bytes are in the stream. *)
Class GobChunks (G : Gob (list (list byte))) : Prop := {
  gob_chunks_laws :: GobLaws G;
  gob_chunks_ok v : (gob_encode v).2 = true;
  gob_chunks_stable v : gob_stable v;
  gob_chunks_len v c : c ∈ v → len c ≤ len (gob_encode v).1
}.

Module Codec.
Section Codec.
Context `{C : !Crypto} `{W : !WebRTC}.

(** ** types.go *)

Definition ICECandidateSize (candidate : option ICECandidateInit) : Z :=
  match candidate with
  | None => 0
  | Some c =>
      let size := slen (Candidate c) in
      let size := match SDPMid c with Some m => size + slen m | None => size end in
      let size := match UsernameFragment c with Some u => size + slen u | None => size end in
      size + 16
  end.

Definition MessageType : Type := string.

Definition MessageTypeClientHello : MessageType := "client_hello".
Definition MessageTypeServerHello : MessageType := "server_hello".
Definition MessageTypeOffer : MessageType := "offer".
Definition MessageTypeAnswer : MessageType := "answer".
Definition MessageTypeICE : MessageType := "ice".
Definition MessageTypeTransportSelect : MessageType := "transport_select".
Definition MessageTypeICEOffer : MessageType := "ice_offer".
Definition MessageTypeICEAnswer : MessageType := "ice_answer".
Definition MessageTypeDisconnect : MessageType := "disconnect".

Record Header := mkHeader {
  Type_ : MessageType;
  SourceId : string;
  TargetId : string;
  Sequence : Z;
  HandshakeNonce : list byte;
  Metadata : gmap string any
}.

Record Payload := mkPayload {
  SDP : option SessionDescription;
  ICE : option ICECandidateInit;
  SessionSalt : list byte;
  ClientNonce : list byte;
  ServerNonce : list byte;
  ClientEphemeralKey : list byte;
  ServerEphemeralKey : list byte;
  Signature : list byte;
  HandshakeRoomID : string;
  HandshakeClientID : string;
  Timestamp : list byte;
  Transports : list string;
  Transport : string;
  ICEUsername : string;
  ICEPassword : string;
  ICECandidates : list string;
  Data : option any
}.

Record Message := mkMessage {
  MHeader : option Header;
  MPayload : option Payload;
  MEncrypt : bool
}.

(** The zero values [Header{}] and [Payload{}]. *)
Definition emptyHeader : Header := mkHeader EmptyString EmptyString EmptyString 0 [] ∅.
Definition emptyPayload : Payload :=
  mkPayload None None [] [] [] [] [] [] EmptyString EmptyString [] [] EmptyString EmptyString
    EmptyString [] None.

(** ** marshal.go: the encoder's error is discarded *)

Context `{GH : !Gob Header} `{GP : !Gob Payload} `{GC : !Gob (list (list byte))}.

Definition Header_Marshal (h : Header) : list byte := (gob_encode h).1.
Definition Header_Unmarshal (data : list byte) : result Header :=
  match gob_decode data with Some h => Ok h | None => Err "gob: decode" end.
Definition Payload_Marshal (p : Payload) : list byte := (gob_encode p).1.
Definition Payload_Unmarshal (data : list byte) : result Payload :=
  match gob_decode data with Some p => Ok p | None => Err "gob: decode" end.

(** ** codec.go *)

Definition ENCRYPT_PARTIALY : byte := Byte.x00.
Definition ENCRYPT_GLOBALLY : byte := Byte.x01.
Definition INDEX_PACKET_LENGTH : Z := 3.
Definition maxSignalingPacketSize : Z := Z.shiftl 16 20.

Inductive aadDomain := aadDomainData | aadDomainHeader | aadDomainPayload.

Definition domainByte (d : aadDomain) : byte :=
  match d with
  | aadDomainData => Byte.x01
  | aadDomainHeader => Byte.x02
  | aadDomainPayload => Byte.x03
  end.

Record Codec := mkCodec {
  secret : list byte;
  typ : string;
  encryptionKit : option Encryption.IEncryption;
  additionalData : list byte;
  dataAAD : list byte;
  headerAAD : list byte
}.

#[export] Instance eta_codec : Eta Codec := fun e =>
  mkCodec (secret e) (typ e) (encryptionKit e) (additionalData e) (dataAAD e) (headerAAD e).

Definition createEncryptKit (encryptionType : string) (secret : list byte)
    (rnd : Z → option (list byte)) : result Encryption.IEncryption :=
  if bool_decide (encryptionType = algorithmName AES_256_GCM)
  then Encryption.NewAES256GCM secret rnd
  else if bool_decide (encryptionType = algorithmName ASCON_128A)
  then Encryption.NewAscon128a secret rnd
  else if bool_decide (encryptionType = algorithmName CAMELLIA_256)
  then Encryption.NewCamellia256GCM secret rnd
  else if bool_decide (encryptionType = algorithmName CHACHA20_POLY1305)
  then Encryption.NewChaCha20Poly1305 secret rnd
  else if bool_decide (encryptionType = algorithmName XCHACHA20_POLY1305)
  then Encryption.NewXChaCha20Poly1305 secret rnd
  else Err "unknown encryption type".

Definition buildAdditionalData (aad : list byte) (domain : aadDomain) (context : list byte)
  : list byte :=
  [Byte.x02] ++                               (* protocol version *)
  [Byte.x00] ++                               (* reserved for future use *)
  [domainByte domain] ++                      (* cryptographic domain *)
  replicate 15 Byte.x00 ++                    (* reserved for future use *)
  [byte_of (len aad)] ++                      (* length of user-defined AAD *)
  aad ++                                      (* content of user-defined AAD *)
  be_encode 4 (u32 (len context)) ++
  context.

Definition additionalDataFor (e : Codec) (domain : aadDomain) (context : list byte) : list byte :=
  match context, domain with
  | [], aadDomainData => dataAAD e
  | [], aadDomainHeader => headerAAD e
  | _, _ => buildAdditionalData (additionalData e) domain context
  end.

Definition NewCodec (encryptionType : string) (secret additionalData : list byte)
    (rnd : Z → option (list byte)) : result Codec :=
  if 64 <? len additionalData then Err "additional data is too long, maximum is 64"
  else
    encryptionKit ← createEncryptKit encryptionType secret rnd;
    Ok (mkCodec secret encryptionType (Some encryptionKit) additionalData
          (buildAdditionalData additionalData aadDomainData [])
          (buildAdditionalData additionalData aadDomainHeader [])).

Definition UpdateSecret (e : Codec) (encryptionType : string) (newSecret : list byte)
    (rnd : Z → option (list byte)) : Codec * result unit :=
  if bool_decide (typ e = encryptionType) && bool_decide (secret e = newSecret) then (e, Ok ())
  else match createEncryptKit encryptionType newSecret rnd with
       | Err err => (e, Err err)
       | Ok kit =>
           (e <| encryptionKit := Some kit |> <| secret := newSecret |>
              <| typ := encryptionType |>, Ok ())
       end.

Definition GetSecret (e : Codec) : string * list byte := (typ e, secret e).

Definition encodeWithEncryption (e : Codec) (data : list byte) (domain : aadDomain)
    (context : list byte) : Codec * result (list byte) :=
  if len data =? 0 then (e, Err "message data is empty")
  else match encryptionKit e with
       | None => (e, Err "encryption kit is not set")
       | Some kit =>
           let finalAAD := additionalDataFor e domain context in
           let '(kit, r) := Encryption.Encrypt kit data finalAAD in
           (e <| encryptionKit := Some kit |>, r)
       end.

Definition EncodeWithEncryption (e : Codec) (data : list byte) : Codec * result (list byte) :=
  encodeWithEncryption e data aadDomainData [].

Definition decodeWithDecryption (e : Codec) (data : list byte) (domain : aadDomain)
    (context : list byte) (maxDecodedSize : Z) : result (list byte) :=
  if len data =? 0 then Err "data is empty"
  else match encryptionKit e with
       | None => Err "encryption kit is not set"
       | Some kit =>
           let finalAAD := additionalDataFor e domain context in
           dataBytes ← Encryption.Decrypt kit data finalAAD;
           if (0 <? maxDecodedSize) && (maxDecodedSize <? len dataBytes)
           then Err "decrypted data exceeds the limit"
           else Ok dataBytes
       end.

Definition DecodeWithDecryption (e : Codec) (data : list byte) : result (list byte) :=
  decodeWithDecryption e data aadDomainData [] maxSignalingPacketSize.

Definition DecodeWithDecryptionLimit (e : Codec) (data : list byte) (maxDecodedSize : Z)
  : result (list byte) :=
  decodeWithDecryption e data aadDomainData [] maxDecodedSize.

(** The message is updated in place: missing parts are filled in. *)
Definition EncodeMessage (e : Codec) (m : option Message)
  : Codec * option Message * result (list byte) :=
  match m with
  | None => (e, None, Err "message is nil")
  | Some m =>
      let header := default emptyHeader (MHeader m) in
      let payload := default emptyPayload (MPayload m) in
      let m' := Some (mkMessage (Some header) (Some payload) (MEncrypt m)) in
      let plainHeaderBytes := Header_Marshal header in
      let '(e, rh) :=
        if MEncrypt m then encodeWithEncryption e plainHeaderBytes aadDomainHeader []
        else (e, Ok plainHeaderBytes) in
      match rh with
      | Err err => (e, m', Err err)
      | Ok headerBytes =>
          let '(e, rp) :=
            encodeWithEncryption e (Payload_Marshal payload) aadDomainPayload plainHeaderBytes in
          match rp with
          | Err err => (e, m', Err err)
          | Ok payloadBytes =>
              let dataChunks :=
                [headerBytes; payloadBytes;
                 [if MEncrypt m then ENCRYPT_GLOBALLY else ENCRYPT_PARTIALY]] in
              let '(buf, ok) := gob_encode dataChunks in
              (e, m', if ok then Ok buf else Err "gob: encode")
          end
      end
  end.

Definition validateDataChunks (h p flag : list byte) : result unit :=
  if (len h =? 0) || (len p =? 0) then Err "message contains an empty header or payload"
  else match flag with
       | [f] => guard_err (negb (bool_decide (f = ENCRYPT_PARTIALY))
                           && negb (bool_decide (f = ENCRYPT_GLOBALLY)))
                  "message contains an invalid encryption flag"
       | _ => Err "message contains an invalid encryption flag"
       end.

(** The three chunks of a packet and whether its header is encrypted: the checks
    [DecodeMessageHeader] and [DecodeMessage] start with. *)
Definition decodeChunks (data : list byte) : result (list byte * list byte * bool) :=
  if len data =? 0 then Err "data is empty"
  else if maxSignalingPacketSize <? len data then Err "signaling packet is too large"
  else match gob_decode data with
       | None => Err "gob: decode"
       | Some [h; p; flag] =>
           _ ← validateDataChunks h p flag;
           Ok (h, p, bool_decide (head flag = Some ENCRYPT_GLOBALLY))
       | Some _ => Err "invalid message length"
       end.

(** The bytes of the header, decrypted when they are encrypted. *)
Definition decodeHeaderBytes (e : Codec) (h : list byte) (encrypted : bool) : result (list byte) :=
  if encrypted then decodeWithDecryption e h aadDomainHeader [] maxSignalingPacketSize else Ok h.

Definition DecodeMessageHeader (e : Codec) (data : list byte) : result Header :=
  '(h, _, encrypted) ← decodeChunks data;
  headerBytes ← decodeHeaderBytes e h encrypted;
  Header_Unmarshal headerBytes.

Definition DecodeMessage (e : Codec) (data : list byte) : result Message :=
  '(h, p, isGloballyEncrypt) ← decodeChunks data;
  headerBytes ← decodeHeaderBytes e h isGloballyEncrypt;
  header ← Header_Unmarshal headerBytes;
  payloadBytes ← decodeWithDecryption e p aadDomainPayload headerBytes maxSignalingPacketSize;
  payload ← Payload_Unmarshal payloadBytes;
  Ok (mkMessage (Some header) (Some payload) isGloballyEncrypt).

(** ** Additional authenticated data *)

Lemma domainByte_inj d1 d2 : domainByte d1 = domainByte d2 → d1 = d2.
Proof. by destruct d1, d2. Qed.

Lemma buildAdditionalData_inj a1 d1 c1 a2 d2 c2 :
  len a1 ≤ 64 → len a2 ≤ 64 → len c1 < 2 ^ 32 → len c2 < 2 ^ 32 →
  buildAdditionalData a1 d1 c1 = buildAdditionalData a2 d2 c2 →
  a1 = a2 ∧ d1 = d2 ∧ c1 = c2.
Proof.
  intros Ha1 Ha2 Hc1 Hc2. unfold buildAdditionalData. cbn [app replicate].
  intros [= Hd Hl H]. apply domainByte_inj in Hd.
  pose proof (len_nonneg a1). pose proof (len_nonneg a2).
  apply (f_equal byte_val) in Hl. rewrite !byte_val_of in Hl.
  unfold u8 in Hl. rewrite !Z.mod_small in Hl by lia.
  apply app_inj_1 in H as [-> H]; [|unfold len in Hl; lia].
  by injection H as _ _ _ _ ->.
Qed.

(** ** The invariant of a codec *)

Record wfc (e : Codec) (kit : Encryption.IEncryption) : Prop := {
  wfc_kit : encryptionKit e = Some kit;
  wfc_wfe : Encryption.wfe kit;
  wfc_typ : typ e = algorithmName (Encryption.alg kit);
  wfc_key : Encryption.ekey kit = Encryption.derivedKey (Encryption.alg kit) (secret e);
  wfc_aad : len (additionalData e) ≤ 64;
  wfc_data : dataAAD e = buildAdditionalData (additionalData e) aadDomainData [];
  wfc_header : headerAAD e = buildAdditionalData (additionalData e) aadDomainHeader []
}.

(** The cached values are what the function computes. *)
Lemma additionalDataFor_build e kit d c :
  wfc e kit → additionalDataFor e d c = buildAdditionalData (additionalData e) d c.
Proof. intros []. by destruct c, d. Qed.

Lemma algorithmName_inj a b : algorithmName a = algorithmName b → a = b.
Proof. by destruct a, b. Qed.

Lemma createEncryptKit_name a sec rnd :
  createEncryptKit (algorithmName a) sec rnd = Encryption.newEncryption a sec rnd.
Proof. by destruct a. Qed.

Lemma createEncryptKit_inv t sec rnd kit :
  createEncryptKit t sec rnd = Ok kit → ∃ a, t = algorithmName a.
Proof. unfold createEncryptKit. case_ifs; eauto. done. Qed.

Context `{L : !CryptoLaws C}.

Lemma createEncryptKit_spec t sec rnd kit :
  Encryption.entropy rnd → createEncryptKit t sec rnd = Ok kit →
  t = algorithmName (Encryption.alg kit) ∧ Encryption.wfe kit ∧
  Encryption.ekey kit = Encryption.derivedKey (Encryption.alg kit) sec ∧
  Encryption.counter (Encryption.nonce kit) = 0.
Proof.
  intros Hr Hk. destruct (createEncryptKit_inv _ _ _ _ Hk) as [a ->].
  rewrite createEncryptKit_name, Encryption.newEncryption_cipher in Hk.
  apply Encryption.newCipher_spec in Hk as (-> & -> & ? & ?); done.
Qed.

Lemma NewCodec_wfc t sec aad rnd e :
  Encryption.entropy rnd → NewCodec t sec aad rnd = Ok e →
  (∃ kit, wfc e kit) ∧ typ e = t ∧ secret e = sec ∧ additionalData e = aad ∧
  ∃ kit, encryptionKit e = Some kit ∧ Encryption.counter (Encryption.nonce kit) = 0.
Proof.
  intros Hr. unfold NewCodec. case_if as E; [done|].
  destruct (createEncryptKit t sec rnd) as [kit|] eqn:Ek; [|done]. intros [= <-]. cbn.
  apply createEncryptKit_spec in Ek as (? & ? & ? & ?); [|done].
  split; [exists kit; by split|eauto 10].
Qed.

Lemma UpdateSecret_wfc e kit t sec rnd :
  Encryption.entropy rnd → wfc e kit →
  (∃ kit', wfc (UpdateSecret e t sec rnd).1 kit') ∧
  additionalData (UpdateSecret e t sec rnd).1 = additionalData e.
Proof.
  intros Hr Hw. unfold UpdateSecret. case_if as E; [by eauto|].
  destruct (createEncryptKit t sec rnd) as [k'|] eqn:Ek; [|by eauto].
  apply createEncryptKit_spec in Ek as (? & ? & ? & _); [|done]. destruct Hw.
  split; [exists k'; by split|done].
Qed.

(** How many nonces the codec has used for its current key. *)
Definition noncesUsed (e : Codec) : Z :=
  match encryptionKit e with
  | Some kit => Encryption.counter (Encryption.nonce kit)
  | None => MaxUint64
  end.

Record same_keys (e f : Codec) : Prop := {
  same_typ : typ e = typ f;
  same_secret : secret e = secret f;
  same_aad : additionalData e = additionalData f
}.

(** A failed encryption leaves the key, a successful one advances the nonce. *)
Lemma encode_wfc e kit data d c :
  wfc e kit →
  let e' := (encodeWithEncryption e data d c).1 in
  (∃ kit', wfc e' kit') ∧ same_keys e' e.
Proof.
  intros Hw. unfold encodeWithEncryption.
  assert (Hs : same_keys e e) by done.
  case_if as E; [by eauto|]. rewrite (wfc_kit _ _ Hw).
  pose proof (wfc_wfe _ _ Hw) as (Hc & Hp & Hn).
  destruct (decide (Encryption.counter (Encryption.nonce kit) < MaxUint64)) as [Hlt|Hge].
  - destruct (Encryption.Encrypt_spec kit data (additionalDataFor e d c)) as (Hk & _ & ->);
      [by split_and!|done|]. destruct Hw. cbn. split; [eexists; by split|done].
  - rewrite Encryption.Encrypt_unfold. unfold Encryption.sealWith, Encryption.next,
      Encryption.nonceUpdate. rewrite <- Hp, Z.eqb_refl, (proj2 (Z.eqb_eq _ _)).
    + cbn. destruct Hw. destruct kit. split; [eexists; by split|done].
    + unfold in_u64, MaxUint64 in *. lia.
Qed.

Lemma encode_decode e f ke kf data d c :
  wfc e ke → wfc f kf → same_keys e f → data ≠ [] → noncesUsed e < MaxUint64 →
  ∃ e' ct, encodeWithEncryption e data d c = (e', Ok ct) ∧
    (∃ ke', wfc e' ke') ∧ same_keys e' f ∧ noncesUsed e' = noncesUsed e + 1 ∧
    len data < len ct ∧
    ∀ mx, mx ≤ 0 ∨ len data ≤ mx → decodeWithDecryption f ct d c mx = Ok data.
Proof.
  intros He Hf [Ht Hs Ha] Hd Hn.
  destruct (encode_wfc e ke data d c He) as [Hw [T1 S1 A1]]. revert Hw T1 S1 A1.
  unfold noncesUsed in *. rewrite (wfc_kit _ _ He) in *.
  unfold encodeWithEncryption, decodeWithDecryption.
  rewrite (wfc_kit _ _ He), (wfc_kit _ _ Hf).
  rewrite (additionalDataFor_build _ _ _ _ He), (additionalDataFor_build _ _ _ _ Hf), <- Ha.
  rewrite (proj2 (Z.eqb_neq _ _)) by by rewrite len_0.
  destruct (Encryption.Encrypt_spec ke data (buildAdditionalData (additionalData e) d c))
    as (_ & Hl & ->); [apply He|done|]. intros Hw T1 S1 A1.
  eexists _, _. split; [done|]. split; [done|]. split; [split; cbn in *; congruence|].
  split; [done|]. rewrite len_app. clear Hw T1 S1 A1.
  pose proof (wfc_typ _ _ He) as T1. rewrite Ht, (wfc_typ _ _ Hf) in T1.
  apply algorithmName_inj in T1.
  pose proof (wfc_key _ _ He) as K1. rewrite Hs, <- T1, <- (wfc_key _ _ Hf) in K1.
  set (n := Encryption.nonceBytes _ _) in *. set (aad := buildAdditionalData _ _ _).
  pose proof (aead_seal_len (Encryption.alg ke) (Encryption.ekey ke) n data aad).
  pose proof (len_nonneg n). pose proof (len_nonneg data). split; [lia|]. intros mx Hmx.
  rewrite (proj2 (Z.eqb_neq _ _)) by lia.
  rewrite <- T1, K1 in *. rewrite Encryption.Decrypt_sealed; [|apply Hf|done].
  cbn [mbind result_bind].
  destruct (0 <? mx) eqn:E1, (mx <? len data) eqn:E2; b2p; try done. lia.
Qed.

(** ** Reachable codecs *)

(** Decoding depends on the keys only. *)
Lemma decode_same e f ke kf data d c n :
  wfc e ke → wfc f kf → same_keys e f →
  decodeWithDecryption e data d c n = decodeWithDecryption f data d c n.
Proof.
  intros He Hf [Ht Hs Ha]. unfold decodeWithDecryption.
  rewrite (additionalDataFor_build _ _ _ _ He), (additionalDataFor_build _ _ _ _ Hf), Ha.
  rewrite (wfc_kit _ _ He), (wfc_kit _ _ Hf), !Encryption.Decrypt_unfold. unfold Encryption.openWith.
  rewrite (wfc_typ _ _ He), (wfc_typ _ _ Hf) in Ht. apply algorithmName_inj in Ht.
  by rewrite (wfc_key _ _ He), (wfc_key _ _ Hf), Ht, Hs.
Qed.

Lemma DecodeMessage_same e f ke kf data :
  wfc e ke → wfc f kf → same_keys e f → DecodeMessage e data = DecodeMessage f data.
Proof.
  intros He Hf Hs. unfold DecodeMessage. destruct (decodeChunks data) as [[[h p] enc]|]; [|done].
  cbn [mbind result_bind].
  assert (decodeHeaderBytes e h enc = decodeHeaderBytes f h enc) as ->
    by (destruct enc; [by apply (decode_same e f ke kf)|done]).
  destruct (decodeHeaderBytes f h enc); [|done]. cbn [mbind result_bind].
  destruct (Header_Unmarshal _); [|done]. cbn [mbind result_bind].
  by rewrite (decode_same e f ke kf).
Qed.

Inductive reachable : Codec → Prop :=
| reach_new t sec aad rnd e :
    Encryption.entropy rnd → NewCodec t sec aad rnd = Ok e → reachable e
| reach_update e t sec rnd :
    Encryption.entropy rnd → reachable e → reachable (UpdateSecret e t sec rnd).1
| reach_encode e data d c : reachable e → reachable (encodeWithEncryption e data d c).1
| reach_message e m : reachable e → reachable (EncodeMessage e m).1.1.

Lemma EncodeMessage_wfc e kit m :
  wfc e kit → (∃ kit', wfc (EncodeMessage e m).1.1 kit') ∧ same_keys (EncodeMessage e m).1.1 e.
Proof.
  intros Hw. assert (Hs : same_keys e e) by done.
  destruct m as [m|]; cbn [EncodeMessage]; [|by eauto].
  set (h := default emptyHeader (MHeader m)). set (p := default emptyPayload (MPayload m)).
  assert (Hh : ∀ e1 r1, (if MEncrypt m then encodeWithEncryption e (Header_Marshal h) aadDomainHeader []
                         else (e, Ok (Header_Marshal h))) = (e1, r1) →
               (∃ kit', wfc e1 kit') ∧ same_keys e1 e).
  { intros e1 r1. case_if as E; [|intros [= <- _]; by eauto]. intros He1.
    pose proof (encode_wfc e kit (Header_Marshal h) aadDomainHeader [] Hw) as H. by rewrite He1 in H. }
  destruct (if MEncrypt m then _ else _) as [e1 r1]. specialize (Hh e1 r1 eq_refl).
  destruct r1 as [hb|]; [|done]. destruct Hh as [[k1 Hk1] [Ht1 Hs1 Ha1]].
  pose proof (encode_wfc e1 k1 (Payload_Marshal p) aadDomainPayload (Header_Marshal h) Hk1) as H.
  destruct (encodeWithEncryption e1 _ _ _) as [e2 r2]. destruct H as [Hk2 [Ht2 Hs2 Ha2]]. cbn in *.
  assert (same_keys e2 e) by (split; congruence).
  destruct r2; [|done]. by destruct (gob_encode _).
Qed.

Lemma reachable_wfc e : reachable e → ∃ kit, wfc e kit.
Proof.
  induction 1 as [t sec aad rnd e Hr He|e t sec rnd Hr _ [kit Hk]|e data d c _ [kit Hk]|e m _ [kit Hk]].
  - by apply NewCodec_wfc in He as [? _].
  - by eapply UpdateSecret_wfc.
  - by eapply encode_wfc.
  - by eapply EncodeMessage_wfc.
Qed.

(** Whatever has been done to them before, two codecs give the cipher the
    same additional data only for the same user-defined data, the same
    cryptographic domain and the same context: a header is never accepted as a
    payload or a data frame, and a payload only together with its own header.
    The cached values behave as the computed ones. *)
Theorem additional_data_binding (e1 e2 : Codec) (d1 d2 : aadDomain) (c1 c2 : list byte) :
  reachable e1 → reachable e2 → len c1 < 2 ^ 32 → len c2 < 2 ^ 32 →
  additionalDataFor e1 d1 c1 = additionalDataFor e2 d2 c2 →
  additionalData e1 = additionalData e2 ∧ d1 = d2 ∧ c1 = c2.
Proof.
  intros [k1 H1]%reachable_wfc [k2 H2]%reachable_wfc Hc1 Hc2.
  rewrite (additionalDataFor_build _ _ _ _ H1), (additionalDataFor_build _ _ _ _ H2).
  apply buildAdditionalData_inj; [apply H1|apply H2|done..].
Qed.

(** [UpdateSecret] on a codec that has been used.  The current type and
    secret change nothing, in particular not the nonce counter; an unknown type
    or a failing constructor changes nothing and reports the error; otherwise
    the codec has the new secret and a fresh nonce counter, keeps its additional
    data, and decrypts what any codec with that secret encrypts. *)
Theorem update_secret_correct (e : Codec) (t : string) (sec : list byte)
    (rnd : Z → option (list byte)) :
  reachable e → Encryption.entropy rnd →
  let '(e', r) := UpdateSecret e t sec rnd in
  (GetSecret e = (t, sec) → e' = e ∧ r = Ok ()) ∧
  (GetSecret e ≠ (t, sec) →
     match createEncryptKit t sec rnd with
     | Err err => e' = e ∧ r = Err err
     | Ok _ => r = Ok () ∧ GetSecret e' = (t, sec) ∧ noncesUsed e' = 0 ∧
         additionalData e' = additionalData e ∧
         ∀ f data d c, reachable f → GetSecret f = (t, sec) →
           additionalData f = additionalData e → data ≠ [] → noncesUsed f < MaxUint64 →
           ∃ ct, (encodeWithEncryption f data d c).2 = Ok ct ∧
                 decodeWithDecryption e' ct d c 0 = Ok data
     end).
Proof.
  intros Hre Hr. destruct (UpdateSecret e t sec rnd) as [e' r] eqn:E.
  assert (Hre' : reachable e').
  { change e' with (e', r).1. rewrite <- E. by constructor. }
  unfold UpdateSecret, GetSecret in *.
  destruct (bool_decide (typ e = t)) eqn:Et, (bool_decide (secret e = sec)) eqn:Es; b2p; cbn [andb] in E;
    (split; [intros [= ? ?]; first [congruence|split; congruence]|]; intros Hne); [congruence|..].
  all: destruct (createEncryptKit t sec rnd) as [kit|err] eqn:Ek; simplify_eq; [|done].
  all: apply createEncryptKit_spec in Ek as (_ & _ & _ & Hc); [|done].
  all: split_and!; try done.
  all: intros f data d c [kf Hf]%reachable_wfc [= Hft Hfs] Hfa Hd Hn;
    destruct (reachable_wfc _ Hre') as [ke He];
    destruct (encode_decode f _ kf ke data d c Hf He ltac:(by split) Hd Hn)
      as (f' & ct & -> & _ & _ & _ & _ & Hdec); exists ct; split; [done|apply Hdec; by left].
Qed.

(** ** Messages *)

Context `{GHL : !GobLaws GH} `{GPL : !GobLaws GP} `{GCL : !GobChunks GC}.

Lemma decodeChunks_encoded h p (flag : bool) :
  h ≠ [] → p ≠ [] →
  let data := (gob_encode [h; p; [if flag then ENCRYPT_GLOBALLY else ENCRYPT_PARTIALY]]).1 in
  len data ≤ maxSignalingPacketSize →
  decodeChunks data = Ok (h, p, flag) ∧
  len h ≤ maxSignalingPacketSize ∧ len p ≤ maxSignalingPacketSize.
Proof.
  intros Hh Hp. set (chunks := [h; p; _]). intros data Hd.
  pose proof (gob_chunks_len chunks h ltac:(set_solver)) as Lh.
  pose proof (gob_chunks_len chunks p ltac:(set_solver)) as Lp. fold data in Lh, Lp.
  split; [|lia]. unfold decodeChunks.
  rewrite (proj2 (Z.eqb_neq _ _)) by (rewrite len_0; apply gob_nonempty, gob_chunks_ok).
  rewrite (proj2 (Z.ltb_ge _ _)) by lia.
  unfold data. rewrite gob_roundtrip by auto using gob_chunks_stable, gob_chunks_ok.
  unfold chunks, validateDataChunks. rewrite !(proj2 (Z.eqb_neq _ _)) by by rewrite len_0.
  by destruct flag.
Qed.

(** Encoding the header, encrypted or not. *)
Lemma header_roundtrip e f ke kf hb (enc : bool) :
  wfc e ke → wfc f kf → same_keys e f → hb ≠ [] → noncesUsed e < MaxUint64 →
  ∃ e1 ct,
    (if enc then encodeWithEncryption e hb aadDomainHeader [] else (e, Ok hb)) = (e1, Ok ct) ∧
    noncesUsed e1 ≤ noncesUsed e + 1 ∧ (∃ k1, wfc e1 k1) ∧ same_keys e1 f ∧ ct ≠ [] ∧
    (len ct ≤ maxSignalingPacketSize → decodeHeaderBytes f ct enc = Ok hb).
Proof.
  intros He Hf Hs Hb Hn. destruct enc.
  2: { exists e, hb. split_and!; eauto; lia. }
  destruct (encode_decode e f ke kf hb aadDomainHeader [])
    as (e1 & ct & E & Hw1 & Hs1 & Hn1 & Hlt & Hd); auto.
  exists e1, ct. split_and!; try done; [lia| |].
  - intros ->. pose proof (len_nonneg hb). rewrite len_nil in Hlt. lia.
  - intros Hct. apply Hd. lia.
Qed.

Lemma message_encode_decode e f ke kf m :
  let header := default emptyHeader (MHeader m) in
  let payload := default emptyPayload (MPayload m) in
  let m' := mkMessage (Some header) (Some payload) (MEncrypt m) in
  wfc e ke → wfc f kf → same_keys e f → noncesUsed e + 1 < MaxUint64 →
  gob_stable header → (gob_encode header).2 = true →
  gob_stable payload → (gob_encode payload).2 = true →
  ∃ e' data,
    EncodeMessage e (Some m) = (e', Some m', Ok data) ∧
    (len data ≤ maxSignalingPacketSize →
     DecodeMessage f data = Ok m' ∧ DecodeMessageHeader f data = Ok header).
Proof.
  intros header payload m' He Hf Hs Hn Hsh Hoh Hsp Hop.
  destruct (header_roundtrip e f ke kf (Header_Marshal header) (MEncrypt m))
    as (e1 & hb & Eh & Hn1 & [k1 Hw1] & Hs1 & Hhb & Hdh); auto;
    [by apply gob_nonempty|lia|].
  destruct (encode_decode e1 f k1 kf (Payload_Marshal payload) aadDomainPayload
    (Header_Marshal header)) as (e2 & pb & Ep & _ & _ & _ & Hlt & Hdp); auto;
    [by apply gob_nonempty|lia|].
  assert (Hpb : pb ≠ []).
  { intros ->. pose proof (len_nonneg (Payload_Marshal payload)). rewrite len_nil in Hlt. lia. }
  set (chunks := [hb; pb; [if MEncrypt m then ENCRYPT_GLOBALLY else ENCRYPT_PARTIALY]]).
  exists e2, (gob_encode chunks).1. split.
  - unfold EncodeMessage. fold header payload m'. rewrite Eh, Ep. fold chunks.
    pose proof (gob_chunks_ok chunks) as Hok. destruct (gob_encode chunks) as [buf ok].
    cbn in *. by rewrite Hok.
  - intros Hlen. destruct (decodeChunks_encoded hb pb (MEncrypt m)) as (Hc & Lh & Lp); try done.
    unfold DecodeMessage, DecodeMessageHeader. unfold chunks. rewrite Hc. cbn [mbind result_bind].
    rewrite (Hdh Lh). cbn [mbind result_bind].
    unfold Header_Unmarshal, Header_Marshal. rewrite gob_roundtrip by done.
    cbn [mbind result_bind]. unfold Header_Marshal in Hdp. rewrite Hdp by lia.
    cbn [mbind result_bind].
    unfold Payload_Unmarshal, Payload_Marshal. by rewrite gob_roundtrip.
Qed.

(** A message encoded by one codec is decoded by every codec with the same
    algorithm, secret and additional data, whatever else either of them has
    done.  As long as two nonces are left, encoding succeeds in both modes; the
    missing parts of the message are filled in; and if the packet is not larger
    than the receiver's limit, [DecodeMessage] returns exactly the message and
    [DecodeMessageHeader] its header. *)
Theorem message_roundtrip (e f : Codec) (m : Message) :
  let header := default emptyHeader (MHeader m) in
  let payload := default emptyPayload (MPayload m) in
  let m' := mkMessage (Some header) (Some payload) (MEncrypt m) in
  reachable e → reachable f → GetSecret e = GetSecret f → additionalData e = additionalData f →
  noncesUsed e + 1 < MaxUint64 →
  gob_stable header → (gob_encode header).2 = true →
  gob_stable payload → (gob_encode payload).2 = true →
  ∃ e' data,
    EncodeMessage e (Some m) = (e', Some m', Ok data) ∧
    (len data ≤ maxSignalingPacketSize →
     DecodeMessage f data = Ok m' ∧ DecodeMessageHeader f data = Ok header).
Proof.
  intros header payload m' [ke He]%reachable_wfc [kf Hf]%reachable_wfc [= Ht Hs] Ha.
  by apply (message_encode_decode e f ke kf m).
Qed.

End Codec.

(** ** Instances of the laws

    A serialisation that marks every byte, for the three types. *)

#[local] Instance webrtcExample : WebRTC := {|
  SessionDescription := string;
  ICECandidateInit := string;
  Candidate c := c;
  SDPMid _ := None;
  UsernameFragment _ := None;
  any := string
|}.

Definition putChunks (v : list (list byte)) : list byte := Byte.x02 :: (v ≫= Encryption.putChunk).

Fixpoint getChunks (l acc : list byte) : option (list (list byte)) :=
  match l with
  | [] => Some []
  | Byte.x00 :: l => v ← getChunks l []; Some (reverse acc :: v)
  | Byte.x01 :: b :: l => getChunks l (b :: acc)   (* [acc]: the current chunk, reversed *)
  | _ => None
  end.

Lemma getChunks_put c l acc :
  getChunks (Encryption.putChunk c ++ l) acc = v ← getChunks l []; Some ((reverse acc ++ c) :: v).
Proof.
  unfold Encryption.putChunk. revert acc.
  induction c as [|b c IH]; intros acc; [by rewrite app_nil_r|].
  rewrite bind_cons. cbn [app getChunks]. rewrite IH. by rewrite reverse_cons, <- app_assoc.
Qed.

Lemma getChunks_putChunks v : getChunks (v ≫= Encryption.putChunk) [] = Some v.
Proof.
  induction v as [|c v IH]; [done|]. rewrite bind_cons, getChunks_put, IH. done.
Qed.

#[local] Instance gobChunksExample : Gob (list (list byte)) := {|
  gob_encode v := (putChunks v, true);
  gob_decode l := match l with _ :: l => getChunks l [] | [] => None end;
  gob_stable _ := True
|}.

Lemma putChunks_len v c : c ∈ v → len c ≤ len (v ≫= Encryption.putChunk).
Proof.
  induction 1 as [c v|c y v _ IH]; rewrite bind_cons, len_app.
  - pose proof (Encryption.putChunk_len c). pose proof (len_nonneg (v ≫= Encryption.putChunk)). lia.
  - pose proof (len_nonneg (Encryption.putChunk y)). lia.
Qed.

Lemma gobChunksExample_laws : GobChunks gobChunksExample.
Proof.
  split; [split|..]; try done.
  - intros v _ _. apply getChunks_putChunks.
  - intros v c Hc%putChunks_len. change (len c ≤ len (putChunks v)).
    unfold putChunks. rewrite len_cons. lia.
Qed.

(** Structs as the chunks of their fields. *)
Definition gobVia {T} (to : T → list (list byte)) (from : list (list byte) → option T)
    (st : T → Prop) : Gob T := {|
  gob_encode v := (putChunks (to v), true);
  gob_decode l := match l with _ :: l => getChunks l [] ≫= from | [] => None end;
  gob_stable := st
|}.

Lemma gobVia_laws {T} to from (st : T → Prop) :
  (∀ v, st v → from (to v) = Some v) → GobLaws (gobVia to from st).
Proof.
  intros H. split; cbn; [|done]. intros v Hv _. rewrite getChunks_putChunks. by apply H.
Qed.

Definition str (l : list byte) : string := String.string_of_list_byte l.

#[local] Instance gobHeaderExample : Gob Header := gobVia
  (λ h, [bytes_of (Type_ h); bytes_of (SourceId h); bytes_of (TargetId h);
         be_encode 8 (Sequence h); HandshakeNonce h])
  (λ v, match v with
        | [t; s; d; n; hn] => Some (mkHeader (str t) (str s) (str d) (be_decode n) hn ∅)
        | _ => None
        end)
  (λ h, in_u64 (Sequence h) ∧ Metadata h = ∅).

Lemma gobHeaderExample_laws : GobLaws gobHeaderExample.
Proof.
  apply gobVia_laws. intros [t s d n hn md] [Hn Hm]. cbn -[be_encode str bytes_of] in *. subst.
  rewrite be_decode_encode, Z.mod_small by exact Hn. unfold str, bytes_of.
  by rewrite !String.string_of_list_byte_of_string.
Qed.

#[local] Instance gobPayloadExample : Gob Payload := gobVia
  (λ p, [SessionSalt p; ClientNonce p; ServerNonce p; bytes_of (HandshakeRoomID p);
         bytes_of (HandshakeClientID p); bytes_of (Transport p)])
  (λ v, match v with
        | [a; b; c; r; i; t] =>
            Some (mkPayload None None a b c [] [] [] (str r) (str i) [] [] (str t)
                    EmptyString EmptyString [] None)
        | _ => None
        end)
  (λ p, p = mkPayload None None (SessionSalt p) (ClientNonce p) (ServerNonce p) [] [] []
              (HandshakeRoomID p) (HandshakeClientID p) [] [] (Transport p)
              EmptyString EmptyString [] None).

Lemma gobPayloadExample_laws : GobLaws gobPayloadExample.
Proof.
  apply gobVia_laws. intros p Hp. cbv beta iota. unfold str, bytes_of.
  rewrite !String.string_of_list_byte_of_string. by rewrite <- Hp.
Qed.

#[local] Existing Instance Encryption.cryptoExample.
#[local] Existing Instance Encryption.cryptoExample_laws.
#[local] Existing Instance gobChunksExample_laws.
#[local] Existing Instance gobHeaderExample_laws.
#[local] Existing Instance gobPayloadExample_laws.

Definition demoCodec (fill : byte) : Codec :=
  match NewCodec "aes-256-gcm" (bytes_of "secret") (bytes_of "aad") (Encryption.rndExample fill) with
  | Ok e => e
  | Err _ => mkCodec [] EmptyString None [] [] []
  end.

Lemma demoCodec_reachable fill : reachable (demoCodec fill).
Proof.
  apply (reach_new "aes-256-gcm" (bytes_of "secret") (bytes_of "aad") (Encryption.rndExample fill));
    [apply Encryption.rndExample_entropy|reflexivity].
Qed.

Lemma additional_data_binding_witness :
  additionalDataFor (demoCodec Byte.x61) aadDomainPayload (bytes_of "ctx") =
    additionalDataFor (demoCodec Byte.x62) aadDomainPayload (bytes_of "ctx") ∧
  additionalData (demoCodec Byte.x61) = additionalData (demoCodec Byte.x62).
Proof.
  assert (H : additionalDataFor (demoCodec Byte.x61) aadDomainPayload (bytes_of "ctx") =
    additionalDataFor (demoCodec Byte.x62) aadDomainPayload (bytes_of "ctx")) by (vm_compute; reflexivity).
  split; [exact H|].
  apply (additional_data_binding (demoCodec Byte.x61) (demoCodec Byte.x62) aadDomainPayload
    aadDomainPayload (bytes_of "ctx") (bytes_of "ctx") (demoCodec_reachable _)
    (demoCodec_reachable _) eq_refl eq_refl H).
Defined.

Lemma update_secret_correct_witness :
  let '(e', r) := UpdateSecret (demoCodec Byte.x61) "ascon-128a" (bytes_of "other")
                    (Encryption.rndExample Byte.x63) in
  r = Ok () ∧ GetSecret e' = ("ascon-128a"%string, bytes_of "other") ∧ noncesUsed e' = 0.
Proof.
  pose proof (update_secret_correct (demoCodec Byte.x61) "ascon-128a" (bytes_of "other")
    (Encryption.rndExample Byte.x63) (demoCodec_reachable _) (Encryption.rndExample_entropy _)) as H.
  destruct (UpdateSecret _ _ _ _) as [e' r]. destruct H as [_ H].
  destruct H as (H1 & H2 & H3 & _); [discriminate|]. split; [exact H1|]. split; [exact H2|exact H3].
Defined.

Definition demoMessage : Message :=
  mkMessage (Some (mkHeader MessageTypeOffer "client" "server" 7 (bytes_of "nonce") ∅)) None true.

Lemma message_roundtrip_witness :
  ∃ e' data m',
    EncodeMessage (demoCodec Byte.x61) (Some demoMessage) = (e', Some m', Ok data) ∧
    MPayload m' = Some emptyPayload ∧
    (len data ≤ maxSignalingPacketSize → DecodeMessage (demoCodec Byte.x62) data = Ok m').
Proof.
  destruct (message_roundtrip (demoCodec Byte.x61) (demoCodec Byte.x62) demoMessage
    (demoCodec_reachable _) (demoCodec_reachable _) eq_refl eq_refl)
    as (e' & data & H1 & H2); [vm_compute; reflexivity|repeat split; discriminate|reflexivity..|].
  eexists e', data, _. split; [exact H1|]. split; [reflexivity|]. intros Hl. apply (H2 Hl).
Defined.

End Codec.
