(* ===== verification/Channel.v ===== *)
(** * Channel.v: the protected data and signaling channels
    (src/peer/data_channel.go, src/peer/signaling_channel.go)

    A session key gives one key per direction and per kind of traffic.  A data
    frame carries its sequence number in the clear; the number and the direction
    are authenticated, and the receiver's replay window is consulted after
    authentication.  A nil channel behaves as one without codecs. *)

From S2P Require Import Prelude Atomic Replay Encryption Handshake Codec.
From Stdlib Require Import ZArith Lia String.
From stdpp Require Import base list option strings numbers relations.

Local Open Scope Z_scope.
Local Open Scope go_scope.

Module Channel.
Section Channel.
Context `{C : !Crypto}.

Definition DataFrameSequenceSize : Z := 8.
Definition ErrDataFrameReplay : string := "data frame sequence was replayed".
Definition DataFrameApplication : Z := 1.
Definition DataFrameHeartbeat : Z := 2.
Definition DataRoleClient : Z := 1.
Definition DataRoleServer : Z := 2.
Definition dataClientToServer : Z := 1.
Definition dataServerToClient : Z := 2.

(** ** data_channel.go *)

Record DataChannel := mkDataChannel {
  sendCodec : option Codec.Codec;
  receiveCodec : option Codec.Codec;
  sendDirection : Z;
  receiveDirection : Z;
  sendSequence : Z;
  receiveWindow : Replay.ReplayWindow
}.

#[export] Instance eta_datachannel : Eta DataChannel := fun c =>
  mkDataChannel (sendCodec c) (receiveCodec c) (sendDirection c) (receiveDirection c)
    (sendSequence c) (receiveWindow c).

Definition dataKeyInfo (direction : Z) : list byte :=
  Handshake.encodeHandshakeFields [bytes_of "telekit/data/v1"; [byte_of direction]].

Definition deriveDataKey (sessionKey : list byte) (direction : Z) : result (list byte) :=
  if len sessionKey =? 0 then Err "session key is empty"
  else if negb (direction =? dataClientToServer) && negb (direction =? dataServerToClient)
  then Err "invalid data direction"
  else match hkdf256 sessionKey [] (dataKeyInfo direction) 32 with
       | None => Err "derive data key"
       | Some key => Ok key
       end.

Definition dataFrameContext (direction sequence : Z) : list byte :=
  byte_of direction :: be_encode 8 sequence.

(** The directions of a role. *)
Definition dataDirections (role : Z) : option (Z * Z) :=
  if role =? DataRoleClient then Some (dataClientToServer, dataServerToClient)
  else if role =? DataRoleServer then Some (dataServerToClient, dataClientToServer)
  else None.

Definition NewDataChannel (encryptionType : string) (sessionKey additionalData : list byte)
    (role : Z) (rnd1 rnd2 : Z → option (list byte)) : result DataChannel :=
  match dataDirections role with
  | None => Err "invalid data channel role"
  | Some (sendDirection, receiveDirection) =>
      sendKey ← deriveDataKey sessionKey sendDirection;
      receiveKey ← deriveDataKey sessionKey receiveDirection;
      sendCodec ← Codec.NewCodec encryptionType sendKey additionalData rnd1;
      receiveCodec ← Codec.NewCodec encryptionType receiveKey additionalData rnd2;
      Ok (mkDataChannel (Some sendCodec) (Some receiveCodec) sendDirection receiveDirection
            0 Replay.zeroWindow)
  end.

(** One round of the compare-and-swap loop on the sequence number. *)
Definition sequenceUpdate (current : Z) : option Z :=
  if current =? MaxUint64 then None else Some (current + 1).

Definition sealFrame (c : DataChannel) (frameType : Z) (plaintext : list byte)
  : DataChannel * result (Z * list byte) :=
  match sendCodec c with
  | None => (c, Err "data channel is not initialized")
  | Some codec =>
      if negb (frameType =? DataFrameApplication) && negb (frameType =? DataFrameHeartbeat)
      then (c, Err "unexpected data frame type")
      else
        let frame := byte_of frameType :: plaintext in
        match sequenceUpdate (sendSequence c) with
        | None => (c, Err "data frame sequence exhausted")
        | Some sequence =>
            let c := c <| sendSequence := sequence |> in
            let '(codec, r) :=
              Codec.encodeWithEncryption codec frame Codec.aadDomainData
                (dataFrameContext (sendDirection c) sequence) in
            let c := c <| sendCodec := Some codec |> in
            (c, ciphertext ← r; Ok (sequence, ciphertext))
        end
  end.

Definition Seal (c : DataChannel) (plaintext : list byte) : DataChannel * result (Z * list byte) :=
  sealFrame c DataFrameApplication plaintext.

Definition SealHeartbeat (c : DataChannel) : DataChannel * result (Z * list byte) :=
  sealFrame c DataFrameHeartbeat [].

Definition OpenFrame (c : DataChannel) (sequence : Z) (ciphertext : list byte)
    (maxDecodedSize : Z) : DataChannel * result (Z * list byte) :=
  match receiveCodec c with
  | None => (c, Err "data channel is not initialized")
  | Some codec =>
      if sequence =? 0 then (c, Err "data frame sequence is zero")
      else match Codec.decodeWithDecryption codec ciphertext Codec.aadDomainData
                   (dataFrameContext (receiveDirection c) sequence) maxDecodedSize with
           | Err err => (c, Err err)
           | Ok [] => (c, Err "unexpected data frame type")
           | Ok (b :: rest) =>
               let frameType := byte_val b in
               if negb (frameType =? DataFrameApplication) && negb (frameType =? DataFrameHeartbeat)
               then (c, Err "unexpected data frame type")
               else if (frameType =? DataFrameHeartbeat) && negb (len (b :: rest) =? 1)
               then (c, Err "unexpected data frame type")
               else
                 let '(w, ok) := Replay.Accept (receiveWindow c) sequence in
                 let c := c <| receiveWindow := w |> in
                 if negb ok then (c, Err ErrDataFrameReplay)
                 else (c, Ok (frameType, rest))
           end
  end.

Definition Open (c : DataChannel) (sequence : Z) (ciphertext : list byte) (maxDecodedSize : Z)
  : DataChannel * result (list byte) :=
  let '(c, r) := OpenFrame c sequence ciphertext maxDecodedSize in
  (c, '(frameType, plaintext) ← r;
      if negb (frameType =? DataFrameApplication) then Err "unexpected data frame type"
      else Ok plaintext).

(** ** signaling_channel.go *)

Context `{W : !WebRTC}.
Context `{GH : !Gob Codec.Header} `{GP : !Gob Codec.Payload} `{GC : !Gob (list (list byte))}.

Definition signalingClientToServer : Z := 1.
Definition signalingServerToClient : Z := 2.

Record SignalingChannel := mkSignalingChannel {
  sSendCodec : option Codec.Codec;
  sReceiveCodec : option Codec.Codec;
  sSessionKey : list byte
}.

#[export] Instance eta_signalingchannel : Eta SignalingChannel := fun c =>
  mkSignalingChannel (sSendCodec c) (sReceiveCodec c) (sSessionKey c).

Definition signalingKeyInfo (direction : Z) : list byte :=
  Handshake.encodeHandshakeFields [bytes_of "telekit/signaling/v1"; [byte_of direction]].

Definition deriveSignalingKey (sessionKey : list byte) (direction : Z) : result (list byte) :=
  if len sessionKey =? 0 then Err "session key is empty"
  else if negb (direction =? signalingClientToServer) && negb (direction =? signalingServerToClient)
  then Err "invalid signaling direction"
  else match hkdf256 sessionKey [] (signalingKeyInfo direction) Handshake.HandshakeKeySize with
       | None => Err "derive signaling key"
       | Some key => Ok key
       end.

Definition signalingDirections (role : Z) : option (Z * Z) :=
  if role =? DataRoleClient then Some (signalingClientToServer, signalingServerToClient)
  else if role =? DataRoleServer then Some (signalingServerToClient, signalingClientToServer)
  else None.

Definition NewSignalingChannel (encryptionType : string) (sessionKey additionalData : list byte)
    (role : Z) (rnd1 rnd2 : Z → option (list byte)) : result SignalingChannel :=
  match signalingDirections role with
  | None => Err "invalid signaling channel role"
  | Some (sendDirection, receiveDirection) =>
      sendKey ← deriveSignalingKey sessionKey sendDirection;
      receiveKey ← deriveSignalingKey sessionKey receiveDirection;
      sendCodec ← Codec.NewCodec encryptionType sendKey additionalData rnd1;
      receiveCodec ← Codec.NewCodec encryptionType receiveKey additionalData rnd2;
      Ok (mkSignalingChannel (Some sendCodec) (Some receiveCodec) sessionKey)
  end.

Definition EncodeMessage (c : SignalingChannel) (message : option Codec.Message)
  : SignalingChannel * option Codec.Message * result (list byte) :=
  match sSendCodec c with
  | None => (c, message, Err "signaling channel is not initialized")
  | Some codec =>
      let '(codec, message, r) := Codec.EncodeMessage codec message in
      (c <| sSendCodec := Some codec |>, message, r)
  end.

Definition DecodeMessage (c : SignalingChannel) (data : list byte) : result Codec.Message :=
  match sReceiveCodec c with
  | None => Err "signaling channel is not initialized"
  | Some codec => Codec.DecodeMessage codec data
  end.

Definition SessionKey (c : SignalingChannel) : list byte := sSessionKey c.

(** ** Invariants *)

Context `{L : !CryptoLaws C}.

(** A codec with the given algorithm, key and additional data. *)
Definition keyed (t : string) (aad : list byte) (k : result (list byte))
    (oe : option Codec.Codec) : Prop :=
  ∃ e kit, oe = Some e ∧ Codec.wfc e kit ∧ Codec.typ e = t ∧ k = Ok (Codec.secret e) ∧
           Codec.additionalData e = aad.

Lemma NewCodec_keyed t k aad rnd e :
  Encryption.entropy rnd → Codec.NewCodec t k aad rnd = Ok e →
  keyed t aad (Ok k) (Some e) ∧ Codec.noncesUsed e = 0.
Proof.
  intros Hr He. apply Codec.NewCodec_wfc in He as ([kit Hk] & ? & ? & ? & kit' & Hk' & Hc); [|done].
  split; [exists e, kit; split_and!; congruence || done|].
  unfold Codec.noncesUsed. by rewrite Hk'.
Qed.

Lemma keyed_same t aad k e f :
  keyed t aad k (Some e) → keyed t aad k (Some f) → Codec.same_keys e f.
Proof. intros (? & ? & [= <-] & _ & ? & ? & ?) (? & ? & [= <-] & _ & ? & ? & ?). split; congruence. Qed.

(** Every use of the sending codec follows a step of the sequence number. *)
Record wfd (t : string) (sk aad : list byte) (role : Z) (c : DataChannel) (acc : list Z) : Prop := {
  wfd_dirs : dataDirections role = Some (sendDirection c, receiveDirection c);
  wfd_send : keyed t aad (deriveDataKey sk (sendDirection c)) (sendCodec c);
  wfd_receive : keyed t aad (deriveDataKey sk (receiveDirection c)) (receiveCodec c);
  wfd_seq : in_u64 (sendSequence c);
  wfd_nonces : ∀ e, sendCodec c = Some e → Codec.noncesUsed e ≤ sendSequence c;
  wfd_window : Replay.refines (receiveWindow c) acc
}.

Lemma NewDataChannel_wfd t sk aad role rnd1 rnd2 c :
  Encryption.entropy rnd1 → Encryption.entropy rnd2 →
  NewDataChannel t sk aad role rnd1 rnd2 = Ok c →
  wfd t sk aad role c [] ∧ sendSequence c = 0.
Proof.
  intros H1 H2. unfold NewDataChannel. destruct (dataDirections role) as [[d d']|] eqn:Ed; [|done].
  destruct (deriveDataKey sk d) as [k|] eqn:Ek; [|done]. cbn [mbind result_bind].
  destruct (deriveDataKey sk d') as [k'|] eqn:Ek'; [|done]. cbn [mbind result_bind].
  destruct (Codec.NewCodec t k aad rnd1) as [e|] eqn:Ee; [|done]. cbn [mbind result_bind].
  destruct (Codec.NewCodec t k' aad rnd2) as [e'|] eqn:Ee'; [|done]. cbn [mbind result_bind].
  intros [= <-]. apply NewCodec_keyed in Ee as [He Hn]; [|done].
  apply NewCodec_keyed in Ee' as [He' _]; [|done].
  split; [|done]. split; cbn; rewrite ?Ek, ?Ek'; try done.
  - intros ? [= <-]. lia.
  - apply Replay.refines_zero.
Qed.

Lemma sequenceUpdate_some a b : sequenceUpdate a = Some b → a ≠ MaxUint64 ∧ b = a + 1.
Proof. unfold sequenceUpdate. case_if as E; [done|]. intros [= <-]. done. Qed.

Lemma noncesUsed_encode e kit data d x :
  Codec.wfc e kit →
  Codec.noncesUsed (Codec.encodeWithEncryption e data d x).1 ≤ Codec.noncesUsed e + 1.
Proof.
  intros Hw. pose proof (Codec.wfc_wfe _ _ Hw) as (_ & _ & Hc).
  assert (Hu : Codec.noncesUsed e = Encryption.counter (Encryption.nonce kit)).
  { unfold Codec.noncesUsed. by rewrite (Codec.wfc_kit _ _ Hw). }
  destruct (decide (data = [])) as [->|Hd].
  { change (Codec.noncesUsed e ≤ Codec.noncesUsed e + 1). lia. }
  destruct (decide (Codec.noncesUsed e < MaxUint64)) as [Hlt|Hge].
  - destruct (Codec.encode_decode e e kit kit data d x) as (e' & ct & -> & _ & _ & Hn & _); try done.
    cbn. lia.
  - destruct (Codec.encode_wfc e kit data d x Hw) as [[kit' Hk'] _].
    unfold Codec.noncesUsed at 1. rewrite (Codec.wfc_kit _ _ Hk').
    pose proof (Codec.wfc_wfe _ _ Hk') as (_ & _ & Hc'). unfold in_u64, MaxUint64 in *. lia.
Qed.

Lemma sealFrame_wfd t sk aad role c acc ft p :
  wfd t sk aad role c acc → wfd t sk aad role (sealFrame c ft p).1 acc.
Proof.
  intros Hw. pose proof Hw as [Hd Hs Hr Hq Hn Hwin]. unfold sealFrame.
  destruct Hs as (e & kit & He & Hk & Ht & Hkey & Ha). rewrite He.
  case_if as E; [done|]. destruct (sequenceUpdate (sendSequence c)) as [q|] eqn:Eq; [|done].
  apply sequenceUpdate_some in Eq as [Hmax ->].
  pose proof (noncesUsed_encode e kit (byte_of ft :: p) Codec.aadDomainData
    (dataFrameContext (sendDirection c) (sendSequence c + 1)) Hk) as Hnu.
  destruct (Codec.encode_wfc e kit (byte_of ft :: p) Codec.aadDomainData
    (dataFrameContext (sendDirection c) (sendSequence c + 1)) Hk) as [[kit' Hk'] [Ht' Hs' Ha']].
  cbn. destruct (Codec.encodeWithEncryption e _ _ _) as [e' r]. cbn in *.
  split; cbn; try done.
  - exists e', kit'. split_and!; congruence || done.
  - unfold in_u64, MaxUint64 in *. lia.
  - intros ? [= <-]. specialize (Hn e He). lia.
Qed.

(** What [OpenFrame] does to the state: only the window moves, and only when the
    frame is accepted. *)
Lemma Accept_refused w s : (Replay.Accept w s).2 = false → (Replay.Accept w s).1 = w.
Proof. unfold Replay.Accept. case_ifs; cbn; done. Qed.

Lemma OpenFrame_inv c s ct mx :
  let '(c', r) := OpenFrame c s ct mx in
  match r with
  | Ok (ft, p) =>
      Replay.Accept (receiveWindow c) s = (receiveWindow c', true) ∧
      c' = c <| receiveWindow := receiveWindow c' |> ∧
      ∃ e b, receiveCodec c = Some e ∧ byte_val b = ft ∧
        (ft = DataFrameApplication ∨ ft = DataFrameHeartbeat ∧ p = []) ∧
        Codec.decodeWithDecryption e ct Codec.aadDomainData
          (dataFrameContext (receiveDirection c) s) mx = Ok (b :: p)
  | Err _ => c' = c
  end.
Proof.
  unfold OpenFrame. destruct (receiveCodec c) as [e|] eqn:Ee; [|done].
  case_if as E; [done|].
  destruct (Codec.decodeWithDecryption e ct _ _ mx) as [[|b p]|] eqn:Ed; try done.
  destruct (byte_val b =? DataFrameApplication) eqn:E1, (byte_val b =? DataFrameHeartbeat) eqn:E2;
    b2p; cbn [negb andb]; try done; try case_if as E3; try done;
    pose proof (Accept_refused (receiveWindow c) s) as Hacc;
    destruct (Replay.Accept (receiveWindow c) s) as [w []]; cbn in *;
    try (rewrite Hacc by done; by destruct c);
    (split_and!; [done|by destruct c|]); exists e, b; split_and!; auto.
  all: right; split; [done|]. all: rewrite len_cons in *; apply len_0; lia.
Qed.

Lemma OpenFrame_wfd t sk aad role c acc s ct mx :
  in_u64 s → wfd t sk aad role c acc →
  let '(c', r) := OpenFrame c s ct mx in
  wfd t sk aad role c' (if is_ok r then s :: acc else acc) ∧ (is_ok r = true → s ∉ acc).
Proof.
  intros Hs Hw. pose proof (OpenFrame_inv c s ct mx) as Hi.
  destruct (OpenFrame c s ct mx) as [c' [[ft p]|]]; cbn in *; [|by subst].
  destruct Hi as (Ha & Hc' & _).
  destruct (Replay.Accept_step _ _ s (wfd_window _ _ _ _ _ _ Hw) Hs) as [Hb Href].
  rewrite Ha in Hb, Href. cbn in Hb, Href. rewrite <- Hb in Href. split.
  - destruct Hw. rewrite Hc'. by split.
  - intros _. symmetry in Hb. unfold Replay.spec_accept in Hb. b2p. done.
Qed.

(** The channels an endpoint can be in, whatever the network delivers. *)
Inductive reach (t : string) (sk aad : list byte) (role : Z) : DataChannel → Prop :=
| reach_channel rnd1 rnd2 c :
    Encryption.entropy rnd1 → Encryption.entropy rnd2 →
    NewDataChannel t sk aad role rnd1 rnd2 = Ok c → reach t sk aad role c
| reach_seal c ft p : reach t sk aad role c → reach t sk aad role (sealFrame c ft p).1
| reach_open c s ct mx :
    in_u64 s → reach t sk aad role c → reach t sk aad role (OpenFrame c s ct mx).1.

Lemma reach_wfd t sk aad role c : reach t sk aad role c → ∃ acc, wfd t sk aad role c acc.
Proof.
  induction 1 as [rnd1 rnd2 c H1 H2 Hc|c ft p _ [acc Hw]|c s ct mx Hs _ [acc Hw]].
  - exists []. by apply NewDataChannel_wfd in Hc as [? _].
  - exists acc. by apply sealFrame_wfd.
  - pose proof (OpenFrame_wfd _ _ _ _ _ _ s ct mx Hs Hw) as H.
    destruct (OpenFrame c s ct mx) as [c' r]. exists (if is_ok r then s :: acc else acc). apply H.
Qed.

Definition peer (role : Z) : Z := if role =? DataRoleClient then DataRoleServer else DataRoleClient.

Lemma dataDirections_peer role d d' :
  dataDirections role = Some (d, d') → dataDirections (peer role) = Some (d', d).
Proof. unfold dataDirections, peer. case_ifs; naive_solver. Qed.

(** A sealed frame, and what the peer's codec makes of it. *)
Lemma seal_decode t sk aad role c s acc acc' ft p :
  wfd t sk aad role c acc → wfd t sk aad (peer role) s acc' →
  ft = DataFrameApplication ∨ ft = DataFrameHeartbeat → sendSequence c < MaxUint64 →
  ∃ c' ct e,
    sealFrame c ft p = (c', Ok (sendSequence c + 1, ct)) ∧
    receiveCodec s = Some e ∧ len p + 1 < len ct ∧
    ∀ mx, mx ≤ 0 ∨ len p + 1 ≤ mx →
      Codec.decodeWithDecryption e ct Codec.aadDomainData
        (dataFrameContext (receiveDirection s) (sendSequence c + 1)) mx = Ok (byte_of ft :: p).
Proof.
  intros Hc Hs Hft Hq. pose proof (dataDirections_peer _ _ _ (wfd_dirs _ _ _ _ _ _ Hc)) as Hd.
  rewrite (wfd_dirs _ _ _ _ _ _ Hs) in Hd. injection Hd as Hd1 Hd2.
  pose proof (wfd_send _ _ _ _ _ _ Hc) as Hkc. pose proof (wfd_receive _ _ _ _ _ _ Hs) as Hks.
  rewrite Hd2 in Hks. pose proof Hkc as (e & ke & He & Hwe & _).
  pose proof Hks as (f & kf & Hf & Hwf & _). rewrite He in Hkc. rewrite Hf in Hks.
  destruct (Codec.encode_decode e f ke kf (byte_of ft :: p) Codec.aadDomainData
    (dataFrameContext (sendDirection c) (sendSequence c + 1))) as (e' & ct & Hec & _ & _ & _ & Hlen & Hdec);
    [done|done|by eapply keyed_same|done| |].
  { pose proof (wfd_nonces _ _ _ _ _ _ Hc e He). lia. }
  unfold sealFrame, sequenceUpdate. rewrite He, (proj2 (Z.eqb_neq _ MaxUint64)) by lia.
  cbn [update]. replace (negb _ && negb _) with false by (by destruct Hft as [-> | ->]).
  cbn. rewrite Hec. rewrite len_cons in Hlen. eexists _, ct, f. split_and!; [done|done|done|].
  intros mx Hmx. rewrite Hd2. apply Hdec. rewrite len_cons. done.
Qed.

(** A frame sealed by one end of a session is opened by the other, at any
    point of their lives: sealing succeeds until the sequence numbers run out
    and uses the next number; the peer gets the frame type and the plaintext if
    its window accepts the number (the first time it arrives, unless it is more
    than 63 behind), and a replay error otherwise; only the window of the
    receiver changes. *)
Theorem data_frame_roundtrip (t : string) (sk aad : list byte) (role : Z) (c s : DataChannel)
    (ft mx : Z) (p : list byte) :
  reach t sk aad role c → reach t sk aad (peer role) s →
  ft = DataFrameApplication ∨ ft = DataFrameHeartbeat ∧ p = [] →
  sendSequence c < MaxUint64 → mx ≤ 0 ∨ len p + 1 ≤ mx →
  let sequence := sendSequence c + 1 in
  ∃ c' ct,
    sealFrame c ft p = (c', Ok (sequence, ct)) ∧
    let '(w, accepted) := Replay.Accept (receiveWindow s) sequence in
    OpenFrame s sequence ct mx =
      (s <| receiveWindow := w |>,
       if accepted then Ok (ft, p) else Err ErrDataFrameReplay).
Proof.
  intros [acc Hc]%reach_wfd [acc' Hs]%reach_wfd Hft Hq Hmx sequence.
  destruct (seal_decode _ _ _ _ _ _ _ _ ft p Hc Hs) as (c' & ct & e & Hseal & He & _ & Hdec);
    [tauto|done|].
  exists c', ct. split; [done|]. unfold OpenFrame. rewrite He. fold sequence in Hdec |- *.
  pose proof (wfd_seq _ _ _ _ _ _ Hc) as Hr. unfold in_u64 in Hr.
  rewrite (proj2 (Z.eqb_neq sequence 0)) by (unfold sequence; lia). rewrite (Hdec mx Hmx).
  assert (Hb : byte_val (byte_of ft) = ft) by (destruct Hft as [-> |[-> _]]; reflexivity).
  rewrite Hb. replace (negb _ && negb _) with false by (by destruct Hft as [-> |[-> _]]).
  replace ((ft =? DataFrameHeartbeat) && _) with false by (by destruct Hft as [-> |[-> ->]]).
  destruct (Replay.Accept (receiveWindow s) sequence) as [w []]; done.
Qed.

(** ** At most once *)

(** The results of a sequence of calls of [OpenFrame]. *)
Fixpoint runOpen (c : DataChannel) (l : list (Z * list byte * Z)) : list (result (Z * list byte)) :=
  match l with
  | [] => []
  | (s, ct, mx) :: l => let '(c, r) := OpenFrame c s ct mx in r :: runOpen c l
  end.

Lemma runOpen_refused t sk aad role c acc l j s ct mx r :
  wfd t sk aad role c acc → Forall (λ x, in_u64 x.1.1) l → s ∈ acc →
  l !! j = Some (s, ct, mx) → runOpen c l !! j = Some r → is_ok r = false.
Proof.
  intros Hw Hl. revert c acc j Hw. induction Hl as [|[[s0 ct0] mx0] l Hs0 _ IH];
    intros c acc j Hw Hin Hj Hr; [done|]. cbn [runOpen] in Hr.
  pose proof (OpenFrame_wfd _ _ _ _ _ _ s0 ct0 mx0 Hs0 Hw) as Hi.
  destruct (OpenFrame c s0 ct0 mx0) as [c' r0]. destruct Hi as [Hw' Hfresh].
  destruct j as [|j]; simplify_eq/=.
  - destruct (is_ok r); [|done]. by destruct Hfresh.
  - eapply (IH c' _ j Hw'); [|done..]. destruct (is_ok r0); [by right|done].
Qed.

(** C15: however the network duplicates, reorders or forges frames, an endpoint
    delivers at most one frame per sequence number: of two calls of [OpenFrame]
    with the same number, at any distance, at most one succeeds.  A call that
    fails leaves the channel as it was, so forged frames cannot suppress
    genuine ones. *)
Theorem frames_at_most_once (t : string) (sk aad : list byte) (role : Z) (c : DataChannel)
    (l : list (Z * list byte * Z)) :
  reach t sk aad role c → Forall (λ x, in_u64 x.1.1) l →
  (∀ i j s x y r1 r2, (i < j)%nat →
     l !! i = Some (s, x.1, x.2) → l !! j = Some (s, y.1, y.2) →
     runOpen c l !! i = Some r1 → runOpen c l !! j = Some r2 →
     is_ok r1 && is_ok r2 = false) ∧
  (∀ s ct mx c' err, OpenFrame c s ct mx = (c', Err err) → c' = c).
Proof.
  intros [acc Hw]%reach_wfd Hl. split.
  2: { intros s ct mx c' err H. pose proof (OpenFrame_inv c s ct mx) as Hi. by rewrite H in Hi. }
  revert c acc Hw. induction Hl as [|[[s0 ct0] mx0] l Hs0 Hl IH];
    intros c acc Hw i j s x y r1 r2 Hij Hi Hj Hr1 Hr2; [done|]. cbn [runOpen] in Hr1, Hr2.
  pose proof (OpenFrame_wfd _ _ _ _ _ _ s0 ct0 mx0 Hs0 Hw) as Ho.
  destruct (OpenFrame c s0 ct0 mx0) as [c' r0]. destruct Ho as [Hw' Hfresh].
  destruct j as [|j]; [lia|]. destruct i as [|i]; simplify_eq/=.
  - destruct (is_ok r1) eqn:E; [|done]. cbn.
    eapply (runOpen_refused _ _ _ _ c' (s :: acc) l j s); eauto. left.
  - apply (IH c' _ Hw' i j s x y); auto. lia.
Qed.

(** ** Authenticity *)

(** The frames a sequence of [sealFrame] calls sends: number, type, plaintext. *)
Fixpoint runSeal (c : DataChannel) (l : list (Z * list byte)) : list (Z * Z * list byte) :=
  match l with
  | [] => []
  | (ft, p) :: l =>
      let '(c, r) := sealFrame c ft p in
      match r with
      | Ok (sequence, _) => (sequence, ft, p) :: runSeal c l
      | Err _ => runSeal c l
      end
  end.

(** What is authenticated and encrypted for a frame. *)
Definition frameRecord (aad : list byte) (direction : Z) (f : Z * Z * list byte)
  : list byte * list byte :=
  let '(sequence, ft, p) := f in
  (Codec.buildAdditionalData aad Codec.aadDomainData (dataFrameContext direction sequence),
   byte_of ft :: p).

(** [ct] is not a forgery: if the cipher accepts it at all, then for additional
    data and a plaintext that were sealed. *)
Definition no_forgery (e : Codec.Codec) (ct : list byte) (sealed : list (list byte * list byte))
  : Prop :=
  ∀ kit, Codec.encryptionKit e = Some kit →
    let a := Encryption.alg kit in
    let n := Z.to_nat (aead_nonceSize a) in
    ∀ ad p, aead_open a (Encryption.ekey kit) (take n ct) (drop n ct) ad = Some p →
      (ad, p) ∈ sealed.

Lemma decode_opens e kit ct d x mx p :
  Codec.wfc e kit → Codec.decodeWithDecryption e ct d x mx = Ok p →
  let a := Encryption.alg kit in
  let n := Z.to_nat (aead_nonceSize a) in
  aead_open a (Encryption.ekey kit) (take n ct) (drop n ct)
    (Codec.buildAdditionalData (Codec.additionalData e) d x) = Some p.
Proof.
  intros Hw. unfold Codec.decodeWithDecryption. case_if as E; [done|].
  rewrite (Codec.wfc_kit _ _ Hw), (Codec.additionalDataFor_build _ _ _ _ Hw), Encryption.Decrypt_unfold.
  unfold Encryption.openWith. case_if as E1; [done|].
  destruct (aead_open _ _ _ _ _) as [q|]; [|done]. cbn. case_if as E2; [done|]. by intros [= <-].
Qed.

Lemma runSeal_valid t sk aad role c acc l f :
  wfd t sk aad role c acc → f ∈ runSeal c l →
  in_u64 f.1.1 ∧ (f.1.2 = DataFrameApplication ∨ f.1.2 = DataFrameHeartbeat).
Proof.
  revert c. induction l as [|[ft p] l IH]; intros c Hw Hf; [by apply not_elem_of_nil in Hf|].
  cbn [runSeal] in Hf. pose proof (sealFrame_wfd _ _ _ _ _ _ ft p Hw) as Hw'.
  destruct (sealFrame c ft p) as [c' [[q ct]|err]] eqn:Es; cbn in Hw'; [|by apply (IH c')].
  apply elem_of_cons in Hf as [-> |Hf]; [|by apply (IH c')]. cbn.
  revert Es. unfold sealFrame. destruct (sendCodec c) as [e|]; [|done].
  case_if as E; [done|]. destruct (sequenceUpdate _) as [q'|] eqn:Eq; [|done]. cbn.
  destruct (Codec.encodeWithEncryption _ _ _ _) as [e' [ct'|]]; [|done].
  intros [= <- <- <-]. split; [apply (wfd_seq _ _ _ _ _ _ Hw')|].
  destruct (ft =? DataFrameApplication) eqn:E1, (ft =? DataFrameHeartbeat) eqn:E2; b2p; auto. done.
Qed.

Lemma dataFrameContext_inj d s1 s2 :
  in_u64 s1 → in_u64 s2 → dataFrameContext d s1 = dataFrameContext d s2 → s1 = s2.
Proof.
  intros H1 H2 H%(f_equal tail). change (be_encode 8 s1 = be_encode 8 s2) in H.
  by apply (be_encode_inj 8) in H.
Qed.

Lemma dataFrameContext_len d s : len (dataFrameContext d s) = 9.
Proof. unfold dataFrameContext, len. cbn [length]. by rewrite be_encode_length. Qed.

(** C14: authenticity.  Let the peer have sealed the frames [runSeal c l].  If a
    ciphertext that is not a forgery under the receiving key is opened with some
    sequence number, then the peer sealed a frame with exactly that number, that
    type and that plaintext: frames can be neither altered, nor renumbered, nor
    reflected to the side that sent them. *)
Theorem frames_authentic (t : string) (sk aad : list byte) (role : Z) (c s s' : DataChannel)
    (e : Codec.Codec) (l : list (Z * list byte)) (sequence mx ft : Z) (ct p : list byte) :
  reach t sk aad role c → reach t sk aad (peer role) s → in_u64 sequence →
  receiveCodec s = Some e →
  no_forgery e ct (frameRecord aad (sendDirection c) <$> runSeal c l) →
  OpenFrame s sequence ct mx = (s', Ok (ft, p)) →
  (sequence, ft, p) ∈ runSeal c l.
Proof.
  intros [acc Hc]%reach_wfd [acc' Hs]%reach_wfd Hq He Hnf Ho.
  pose proof (OpenFrame_inv s sequence ct mx) as Hi. rewrite Ho in Hi.
  destruct Hi as (_ & _ & e' & b & He' & Hb & _ & Hd). rewrite He in He'. injection He' as <-.
  pose proof (dataDirections_peer _ _ _ (wfd_dirs _ _ _ _ _ _ Hc)) as Hdir.
  rewrite (wfd_dirs _ _ _ _ _ _ Hs) in Hdir. injection Hdir as _ Hdir.
  pose proof (wfd_receive _ _ _ _ _ _ Hs) as (f & kit & Hf & Hw & _ & _ & Ha).
  rewrite He in Hf. injection Hf as <-.
  apply (decode_opens _ _ _ _ _ _ _ Hw) in Hd. apply (Hnf kit (Codec.wfc_kit _ _ Hw)) in Hd.
  apply list_elem_of_fmap in Hd as ([[q ft'] p'] & Heq & Hin).
  pose proof (runSeal_valid _ _ _ _ _ _ _ _ Hc Hin) as [Hq' Hft']. cbn in Hq', Hft'.
  apply pair_equal_spec in Heq as [Hctx Hpb]. injection Hpb as Hb' ->. rewrite Hdir, Ha in Hctx.
  apply Codec.buildAdditionalData_inj in Hctx as (_ & _ & Hctx);
    [|rewrite <- Ha; apply Hw|rewrite <- Ha; apply Hw|by rewrite dataFrameContext_len..].
  apply dataFrameContext_inj in Hctx as ->; [|done..].
  assert (ft = ft') as -> by (rewrite <- Hb, Hb'; destruct Hft' as [-> | ->]; reflexivity). done.
Qed.

(** ** Sequence numbers under concurrency *)

(** Goroutines that send on one channel at the same time get pairwise
    distinct sequence numbers, in any interleaving of their compare-and-swap
    loops, and the contexts their frames are bound to are pairwise distinct; the
    number never wraps around. *)
Theorem sequences_unique (c : DataChannel) (goroutines : nat) (m : Atomic.mem) :
  in_u64 (sendSequence c) →
  rtc Atomic.step (Atomic.initial (sendSequence c) (replicate goroutines (false, sequenceUpdate))) m →
  NoDup (Atomic.results m) ∧
  NoDup (dataFrameContext (sendDirection c) <$> Atomic.results m) ∧
  Forall (λ q, sendSequence c < q ≤ MaxUint64) (Atomic.results m).
Proof.
  intros Hq Hr. unfold in_u64 in Hq.
  destruct (Atomic.counter_results (sendSequence c) goroutines sequenceUpdate m) as [Hn Hb]; try done.
  { apply sequenceUpdate_some. } { unfold MaxUint64. lia. }
  split_and!; [done| |done]. revert Hb. induction Hn as [|q l Hq' _ IH]; intros Hb; [constructor|].
  inversion_clear Hb as [|? ? Hq1 Hl]. rewrite fmap_cons. constructor; [|by apply IH].
  intros (q2 & Heq & Hin)%list_elem_of_fmap. rewrite Forall_forall in Hl. specialize (Hl q2 Hin).
  unfold MaxUint64 in *. apply dataFrameContext_inj in Heq as ->; unfold in_u64; try lia. done.
Qed.

(** ** Signaling *)

Record wfs (t : string) (sk aad : list byte) (role : Z) (c : SignalingChannel) : Prop := {
  wfs_send : ∃ d d', signalingDirections role = Some (d, d') ∧
    keyed t aad (deriveSignalingKey sk d) (sSendCodec c) ∧
    keyed t aad (deriveSignalingKey sk d') (sReceiveCodec c);
  wfs_key : sSessionKey c = sk
}.

Lemma NewSignalingChannel_wfs t sk aad role rnd1 rnd2 c :
  Encryption.entropy rnd1 → Encryption.entropy rnd2 →
  NewSignalingChannel t sk aad role rnd1 rnd2 = Ok c → wfs t sk aad role c.
Proof.
  intros H1 H2. unfold NewSignalingChannel.
  destruct (signalingDirections role) as [[d d']|] eqn:Ed; [|done].
  destruct (deriveSignalingKey sk d) as [k|] eqn:Ek; [|done]. cbn [mbind result_bind].
  destruct (deriveSignalingKey sk d') as [k'|] eqn:Ek'; [|done]. cbn [mbind result_bind].
  destruct (Codec.NewCodec t k aad rnd1) as [e|] eqn:Ee; [|done]. cbn [mbind result_bind].
  destruct (Codec.NewCodec t k' aad rnd2) as [e'|] eqn:Ee'; [|done]. cbn [mbind result_bind].
  intros [= <-]. apply NewCodec_keyed in Ee as [He _]; [|done].
  apply NewCodec_keyed in Ee' as [He' _]; [|done].
  split; [|done]. exists d, d'. rewrite Ek, Ek'. done.
Qed.

Lemma EncodeMessage_wfs t sk aad role c m :
  wfs t sk aad role c → wfs t sk aad role (EncodeMessage c m).1.1.
Proof.
  intros [(d & d' & Hd & (e & kit & He & Hw & Ht & Hk & Ha) & Hr) Hsk]. unfold EncodeMessage. rewrite He.
  destruct (Codec.EncodeMessage_wfc e kit m Hw) as [[kit' Hw'] [Ht' Hs' Ha']].
  destruct (Codec.EncodeMessage e m) as [[e' m'] r]. cbn in *.
  split; [|done]. exists d, d'. split_and!; try done. exists e', kit'. split_and!; congruence || done.
Qed.

(** The states of a signaling channel. *)
Inductive sreach (t : string) (sk aad : list byte) (role : Z) : SignalingChannel → Prop :=
| sreach_new rnd1 rnd2 c :
    Encryption.entropy rnd1 → Encryption.entropy rnd2 →
    NewSignalingChannel t sk aad role rnd1 rnd2 = Ok c → sreach t sk aad role c
| sreach_encode c m : sreach t sk aad role c → sreach t sk aad role (EncodeMessage c m).1.1.

Lemma sreach_wfs t sk aad role c : sreach t sk aad role c → wfs t sk aad role c.
Proof. induction 1; eauto using NewSignalingChannel_wfs, EncodeMessage_wfs. Qed.

Lemma signalingDirections_peer role d d' :
  signalingDirections role = Some (d, d') → signalingDirections (peer role) = Some (d', d).
Proof. unfold signalingDirections, peer. case_ifs; naive_solver. Qed.

Definition sendNonces (c : SignalingChannel) : Z :=
  match sSendCodec c with Some e => Codec.noncesUsed e | None => MaxUint64 end.

Context `{GHL : !GobLaws GH} `{GPL : !GobLaws GP} `{GCL : !GobChunks GC}.

(** The two ends of a signaling channel understand each other.  Channels
    made for opposite roles from the same session key, at any point of their
    lives: a message that gob can transmit is encoded, and the peer decodes the
    packet, if it is within the size limit, to the same message. *)
Theorem signaling_roundtrip (t : string) (sk aad : list byte) (role : Z)
    (c s : SignalingChannel) (m : Codec.Message) :
  let header := default Codec.emptyHeader (Codec.MHeader m) in
  let payload := default Codec.emptyPayload (Codec.MPayload m) in
  let m' := Codec.mkMessage (Some header) (Some payload) (Codec.MEncrypt m) in
  sreach t sk aad role c → sreach t sk aad (peer role) s → sendNonces c + 1 < MaxUint64 →
  gob_stable header → (gob_encode header).2 = true →
  gob_stable payload → (gob_encode payload).2 = true →
  ∃ c' data,
    EncodeMessage c (Some m) = (c', Some m', Ok data) ∧
    (len data ≤ Codec.maxSignalingPacketSize → DecodeMessage s data = Ok m').
Proof.
  intros header payload m' [(d & d' & Hd & Hsend & _) _]%sreach_wfs
    [(d1 & d2 & Hd1 & _ & Hrecv) _]%sreach_wfs Hn Hh1 Hh2 Hp1 Hp2.
  apply signalingDirections_peer in Hd. rewrite Hd in Hd1. injection Hd1 as <- <-.
  pose proof Hsend as (e & ke & He & Hwe & _). pose proof Hrecv as (f & kf & Hf & Hwf & _).
  rewrite He in Hsend. rewrite Hf in Hrecv. unfold sendNonces in Hn. rewrite He in Hn.
  destruct (Codec.message_encode_decode e f ke kf m Hwe Hwf (keyed_same _ _ _ _ _ Hsend Hrecv) Hn
    Hh1 Hh2 Hp1 Hp2) as (e' & data & Henc & Hdec).
  unfold EncodeMessage, DecodeMessage. rewrite He, Hf, Henc.
  eexists _, data. split; [done|]. intros Hl. apply (Hdec Hl).
Qed.

(** ** Separation of all derived keys and signatures *)

(** Everything the program feeds to HKDF as info or signs. *)
Inductive context :=
| CtxClientHello (roomID clientID serverID : string) (clientNonce : list byte)
| CtxServerHello (roomID clientID serverID : string) (clientNonce serverNonce : list byte)
| CtxTranscript (roomID clientID serverID : string)
    (clientNonce serverNonce clientEphemeralKey serverEphemeralKey sessionSalt : list byte)
| CtxSession (roomID clientID serverID : string)
    (clientNonce serverNonce clientEphemeralKey serverEphemeralKey : list byte)
| CtxData (direction : Z)
| CtxSignaling (direction : Z).

Definition contextBytes (x : context) : list byte :=
  match x with
  | CtxClientHello r c s cn => Handshake.clientHelloInfo r c s cn
  | CtxServerHello r c s cn sn => Handshake.serverHelloInfo r c s cn sn
  | CtxTranscript r c s cn sn ce se salt => Handshake.serverHelloTranscript r c s cn sn ce se salt
  | CtxSession r c s cn sn ce se => Handshake.sessionInfo r c s cn sn ce se
  | CtxData d => dataKeyInfo d
  | CtxSignaling d => signalingKeyInfo d
  end.

(** Strings and byte slices whose length fits the 32-bit length field. *)
Definition context_short (x : context) : Prop :=
  let short := Forall Handshake.short in
  match x with
  | CtxClientHello r c s cn => short [bytes_of r; bytes_of c; bytes_of s; cn]
  | CtxServerHello r c s cn sn => short [bytes_of r; bytes_of c; bytes_of s; cn; sn]
  | CtxTranscript r c s cn sn ce se salt =>
      short [bytes_of r; bytes_of c; bytes_of s; cn; sn; ce; se; salt]
  | CtxSession r c s cn sn ce se => short [bytes_of r; bytes_of c; bytes_of s; cn; sn; ce; se]
  | CtxData d | CtxSignaling d => d = 1 ∨ d = 2
  end.

Definition contextFields (x : context) : list (list byte) :=
  match x with
  | CtxClientHello r c s cn =>
      [bytes_of "telekit/client-hello-key/v1"; bytes_of r; bytes_of c; bytes_of s; cn;
       bytes_of "client-to-server"]
  | CtxServerHello r c s cn sn =>
      [bytes_of "telekit/server-hello-key/v1"; bytes_of r; bytes_of c; bytes_of s; cn; sn;
       bytes_of "server-to-client"]
  | CtxTranscript r c s cn sn ce se salt =>
      [bytes_of "telekit/server-hello/v3"; bytes_of r; bytes_of c; bytes_of s; cn; sn; ce; se; salt]
  | CtxSession r c s cn sn ce se =>
      [bytes_of "telekit/session/v3"; bytes_of r; bytes_of c; bytes_of s; cn; sn; ce; se]
  | CtxData d => [bytes_of "telekit/data/v1"; [byte_of d]]
  | CtxSignaling d => [bytes_of "telekit/signaling/v1"; [byte_of d]]
  end.

Lemma contextFields_short x : context_short x → Forall Handshake.short (contextFields x).
Proof.
  destruct x; cbn -[bytes_of]; intros H; rewrite ?Forall_cons in *;
    destruct_and?; split_and?; first [assumption|constructor|reflexivity].
Qed.

Lemma direction_byte_inj d1 d2 :
  d1 = 1 ∨ d1 = 2 → d2 = 1 ∨ d2 = 2 → byte_of d1 = byte_of d2 → d1 = d2.
Proof. by intros [-> | ->] [-> | ->]. Qed.

(** No two uses of key material collide.  The byte strings the program
    passes to HKDF as context or signs (client hello key, server hello key,
    signed transcript, session key, data keys, signaling keys) are equal only for
    the same use with the same arguments: rooms, clients, servers, nonces,
    ephemeral keys, salts and directions. *)
Theorem key_contexts_separated (x y : context) :
  context_short x → context_short y → contextBytes x = contextBytes y → x = y.
Proof.
  intros Hx Hy H.
  assert (Hf : contextFields x = contextFields y).
  { apply Handshake.encodeHandshakeFields_inj; [by apply contextFields_short..|].
    by destruct x, y. }
  clear H. destruct x, y; cbn [contextFields] in Hf; try discriminate Hf;
    apply (f_equal tail) in Hf; cbn [tail] in Hf.
  1-4: injection Hf; intros; f_equal; auto using bytes_of_inj.
  all: injection Hf as Hf; f_equal; by apply direction_byte_inj.
Qed.

End Channel.

(** ** Concrete channels *)

#[local] Existing Instance Encryption.cryptoExample.
#[local] Existing Instance Encryption.cryptoExample_laws.
#[local] Existing Instance Codec.webrtcExample.
#[local] Existing Instance Codec.gobChunksExample.
#[local] Existing Instance Codec.gobHeaderExample.
#[local] Existing Instance Codec.gobPayloadExample.
#[local] Existing Instance Codec.gobChunksExample_laws.
#[local] Existing Instance Codec.gobHeaderExample_laws.
#[local] Existing Instance Codec.gobPayloadExample_laws.

Definition demoKey : list byte := bytes_of "session key".
Definition demoAAD : list byte := bytes_of "aad".

Definition demoChannel (role : Z) (fill1 fill2 : byte) : DataChannel :=
  match NewDataChannel "chacha20-poly1305" demoKey demoAAD role
          (Encryption.rndExample fill1) (Encryption.rndExample fill2) with
  | Ok c => c
  | Err _ => mkDataChannel None None 0 0 0 Replay.zeroWindow
  end.

Definition demoClient : DataChannel := demoChannel DataRoleClient Byte.x61 Byte.x62.
Definition demoServer : DataChannel := demoChannel DataRoleServer Byte.x63 Byte.x64.

Lemma demoClient_reach : reach "chacha20-poly1305" demoKey demoAAD DataRoleClient demoClient.
Proof.
  apply (reach_channel _ _ _ _ (Encryption.rndExample Byte.x61) (Encryption.rndExample Byte.x62));
    [apply Encryption.rndExample_entropy..|vm_compute; reflexivity].
Qed.

Lemma demoServer_reach : reach "chacha20-poly1305" demoKey demoAAD (peer DataRoleClient) demoServer.
Proof.
  apply (reach_channel _ _ _ _ (Encryption.rndExample Byte.x63) (Encryption.rndExample Byte.x64));
    [apply Encryption.rndExample_entropy..|vm_compute; reflexivity].
Qed.

Lemma data_frame_roundtrip_witness :
  ∃ c' ct,
    Seal demoClient (bytes_of "hello") = (c', Ok (1, ct)) ∧
    (OpenFrame demoServer 1 ct 100).2 = Ok (1, bytes_of "hello").
Proof.
  destruct (data_frame_roundtrip "chacha20-poly1305" demoKey demoAAD DataRoleClient demoClient
    demoServer DataFrameApplication 100 (bytes_of "hello") demoClient_reach demoServer_reach
    (or_introl eq_refl)) as (c' & ct & H1 & H2).
  - vm_compute. reflexivity.
  - right. vm_compute. discriminate.
  - exists c', ct. split; [exact H1|]. revert H2.
    change (sendSequence demoClient + 1) with 1.
    change (Replay.Accept (receiveWindow demoServer) 1) with (Replay.mkReplayWindow 1 1, true).
    cbv beta iota. intros ->. reflexivity.
Defined.

(** The ciphertext of the first frame a client sends. *)
Definition demoFrame : list byte :=
  match (Seal demoClient (bytes_of "hi")).2 with Ok (_, ct) => ct | Err _ => [] end.

(** A frame delivered twice. *)
Lemma frames_at_most_once_witness :
  let rs := runOpen demoServer [(1, demoFrame, 0); (1, demoFrame, 0)] in
  rs !! 0%nat = Some (Ok (1, bytes_of "hi")) ∧
  (∀ r, rs !! 1%nat = Some r → is_ok r = false).
Proof.
  intros rs. split; [vm_compute; reflexivity|]. intros r Hr.
  destruct (frames_at_most_once "chacha20-poly1305" demoKey demoAAD (peer DataRoleClient) demoServer
    [(1, demoFrame, 0); (1, demoFrame, 0)] demoServer_reach) as [H _].
  - repeat constructor; vm_compute; discriminate.
  - apply (H 0%nat 1%nat 1 (demoFrame, 0) (demoFrame, 0) (Ok (1, bytes_of "hi")) r);
      [lia|reflexivity|reflexivity|vm_compute; reflexivity|exact Hr].
Defined.

Lemma demoFrame_no_forgery e :
  receiveCodec demoServer = Some e →
  no_forgery e demoFrame
    (frameRecord demoAAD (sendDirection demoClient) <$> runSeal demoClient [(1, bytes_of "hi")]).
Proof.
  intros He kit Hk a n ad p Hopen.
  assert (Hkit : Some kit = (receiveCodec demoServer ≫= Codec.encryptionKit))
    by (rewrite He; simpl; congruence).
  vm_compute in Hkit. injection Hkit as ->. subst a n. cbn -[demoFrame] in Hopen.
  destruct (Encryption.getChunk _) as [[tag q]|] eqn:Eg; [|done]. cbn in Hopen.
  case_bool_decide as Htag; [|done]. injection Hopen as ->.
  vm_compute in Eg. injection Eg as <- <-. vm_compute in Htag. simplify_eq/=.
  apply list_elem_of_singleton. vm_compute. reflexivity.
Qed.

Lemma frames_authentic_witness :
  ∃ s', OpenFrame demoServer 1 demoFrame 0 = (s', Ok (1, bytes_of "hi")) ∧
        (1, 1, bytes_of "hi") ∈ runSeal demoClient [(1, bytes_of "hi")].
Proof.
  destruct (receiveCodec demoServer) as [e|] eqn:He; [|discriminate].
  assert (Ho : OpenFrame demoServer 1 demoFrame 0 =
    ((OpenFrame demoServer 1 demoFrame 0).1, Ok (1, bytes_of "hi"))) by (vm_compute; reflexivity).
  eexists. split; [exact Ho|].
  apply (frames_authentic "chacha20-poly1305" demoKey demoAAD DataRoleClient demoClient demoServer
    _ e [(1, bytes_of "hi")] 1 0 1 demoFrame (bytes_of "hi") demoClient_reach demoServer_reach
    ltac:(by vm_compute) He (demoFrame_no_forgery e He) Ho).
Defined.

(** A sender that loses the race and retries. *)
Lemma sequences_unique_witness :
  ∃ m, Atomic.results m = [2; 1] ∧ NoDup (dataFrameContext 1 <$> Atomic.results m).
Proof.
  set (t s := Atomic.mkThread sequenceUpdate false s).
  set (m := Atomic.mkMem 2 [t (Atomic.Won 1 2); t (Atomic.Won 0 1)] [(0, 1); (1, 2)]).
  exists m. split; [reflexivity|].
  apply (sequences_unique demoClient 2 m); [by vm_compute|].
  eapply rtc_l; [apply (Atomic.step_load _ 0 (t Atomic.Start)); reflexivity|].
  eapply rtc_l; [apply (Atomic.step_load _ 1 (t Atomic.Start)); reflexivity|].
  eapply rtc_l; [apply (Atomic.step_cas _ 1 (t (Atomic.Loaded 0)) 0 1); reflexivity|].
  eapply rtc_l; [apply (Atomic.step_retry _ 0 (t (Atomic.Loaded 0)) 0 1); try reflexivity; discriminate|].
  eapply rtc_l; [apply (Atomic.step_load _ 0 (t Atomic.Start)); reflexivity|].
  eapply rtc_l; [apply (Atomic.step_cas _ 0 (t (Atomic.Loaded 1)) 1 2); reflexivity|].
  apply rtc_refl.
Defined.

Definition demoSignaling (role : Z) (fill1 fill2 : byte) : SignalingChannel :=
  match NewSignalingChannel "ascon-128a" demoKey demoAAD role
          (Encryption.rndExample fill1) (Encryption.rndExample fill2) with
  | Ok c => c
  | Err _ => mkSignalingChannel None None []
  end.

Lemma demoSignaling_reach role f1 f2 :
  role = DataRoleClient ∨ role = DataRoleServer →
  sreach "ascon-128a" demoKey demoAAD role (demoSignaling role f1 f2).
Proof.
  intros Hr. apply (sreach_new _ _ _ _ (Encryption.rndExample f1) (Encryption.rndExample f2));
    [apply Encryption.rndExample_entropy..|destruct Hr as [-> | ->]; reflexivity].
Qed.

Lemma signaling_roundtrip_witness :
  let c := demoSignaling DataRoleServer Byte.x61 Byte.x62 in
  let s := demoSignaling DataRoleClient Byte.x63 Byte.x64 in
  ∃ c' data m',
    EncodeMessage c (Some Codec.demoMessage) = (c', Some m', Ok data) ∧
    Codec.MHeader m' = Codec.MHeader Codec.demoMessage ∧
    (len data ≤ Codec.maxSignalingPacketSize → DecodeMessage s data = Ok m').
Proof.
  intros c s.
  destruct (signaling_roundtrip "ascon-128a" demoKey demoAAD DataRoleServer c s Codec.demoMessage
    (demoSignaling_reach _ _ _ (or_intror eq_refl)) (demoSignaling_reach _ _ _ (or_introl eq_refl)))
    as (c' & data & H1 & H2); [vm_compute; reflexivity|repeat split; discriminate|reflexivity..|].
  eexists c', data, _. split; [exact H1|]. split; [reflexivity|exact H2].
Defined.

Lemma key_contexts_separated_witness :
  contextBytes (CtxData 1) = contextBytes (CtxData (3 - 2)) ∧ CtxData 1 = CtxData (3 - 2).
Proof.
  split; [reflexivity|].
  apply (key_contexts_separated (CtxData 1) (CtxData (3 - 2))); [by left|by left|reflexivity].
Defined.

End Channel.
