(* ===== verification/Stream.v ===== *)
(** * Stream.v: application data over a transport
    (src/peer/server/write.go, src/peer/client/write.go,
    the readers of src/peer/server/conn.go and src/peer/client/connect.go)

    [Write] cuts the data into frames that fit the frame limit and writes each,
    behind its length and sequence number, to the transport.  The reader parses
    the stream, opens the frames and appends the plaintext to the receive buffer.

    The transport is seen through two functions: [accepts k] tells whether the
    [k]-th write succeeds, [current k] what the [k]-th test that the transport is
    still the connection's answers.  The client's code is the server's without a
    byte budget ([None]). *)

From S2P Require Import Prelude Replay Buffer Encryption Codec Channel.
From Stdlib Require Import ZArith Lia String.
From stdpp Require Import base list option strings numbers.

Local Open Scope Z_scope.
Local Open Scope go_scope.

Module Stream.
Section Stream.
Context `{C : !Crypto}.
Import Channel.

(** ** Writing *)

(** The frame limit: the transport's, if it has one and it is smaller. *)
Definition maxFrameSize (configured transportMaxFrameSize : Z) : Z :=
  if (0 <? transportMaxFrameSize) && (transportMaxFrameSize <? configured)
  then transportMaxFrameSize else configured.

(** [p[i:j]]. *)
Definition slice_range (p : list byte) (i j : Z) : option (list byte) :=
  if (0 <=? i) && (i <=? j) && (j <=? len p)
  then Some (take (Z.to_nat (j - i)) (drop (Z.to_nat i) p)) else None.

(** A frame on the wire. *)
Definition frameBytes (sequence : Z) (ciphertext : list byte) : list byte :=
  be_encode 8 (u64 (len ciphertext)) ++ be_encode 8 sequence ++ ciphertext.

(** The inner loop: seal [p[off:end]], halving the piece until it fits.  [None]
    is a panic (or the end of the fuel). *)
Fixpoint sealFit (fuel : nat) (c : DataChannel) (p : list byte) (off end_ limit : Z)
  : option (DataChannel * result (Z * list byte)) :=
  match fuel with
  | O => None
  | S fuel =>
      chunk ← slice_range p off end_;
      let '(c, r) := Seal c chunk in
      match r with
      | Err err => Some (c, Err err)
      | Ok (sequence, ciphertext) =>
          if len ciphertext <=? limit then Some (c, Ok (end_, frameBytes sequence ciphertext))
          else if end_ - off <=? 1 then Some (c, Err "encoded frame exceeds configured limit")
          else sealFit fuel c p off (off + Z.quot (end_ - off) 2) limit
      end
  end.

(** The outer loop, from offset [off] and the [k]-th write on: the frames
    written, and the values [Write] returns. *)
Fixpoint writeLoop (fuel : nat) (c : DataChannel) (p : list byte) (off limit : Z)
    (accepts : nat → bool) (k : nat)
  : option (DataChannel * list (list byte) * (Z * option string)) :=
  match fuel with
  | O => None
  | S fuel =>
      if len p <=? off then Some (c, [], (len p, None))
      else
        let end_ := Z.min (off + limit - 64) (len p) in
        '(c, r) ← sealFit (S (Z.to_nat (end_ - off))) c p off end_ limit;
        match r with
        | Err err => Some (c, [], (off, Some err))
        | Ok (end_, frame) =>
            if negb (accepts k) then Some (c, [], (off, Some "transport write failed"%string))
            else
              '(c, frames, res) ← writeLoop fuel c p end_ limit accepts (S k);
              Some (c, frame :: frames, res)
        end
  end.

Definition Write (connected timedOut : bool) (c : DataChannel) (p : list byte) (limit : Z)
    (accepts : nat → bool) : option (DataChannel * list (list byte) * (Z * option string)) :=
  if negb connected then Some (c, [], (0, Some "transport not connected"%string))
  else if timedOut then Some (c, [], (0, Some "deadline exceeded"%string))
  else if len p =? 0 then Some (c, [], (0, None))
  else writeLoop (S (length p)) c p 0 limit accepts 0.

Definition sendHeartbeat (connected : bool) (c : DataChannel) (accepts : bool)
  : DataChannel * list (list byte) * option string :=
  if negb connected then (c, [], Some "transport not connected"%string)
  else
    let '(c, r) := SealHeartbeat c in
    match r with
    | Err err => (c, [], Some err)
    | Ok (sequence, ciphertext) =>
        if accepts then (c, [frameBytes sequence ciphertext], None)
        else (c, [], Some "transport write failed"%string)
    end.

(** ** Reading *)

Record reader := mkReader {
  dataChannel : DataChannel;
  bufferBudget : option Buffer.ByteBudget;
  recvBuf : Buffer.RecvBuffer;
  lastTransportRead : Z
}.

#[export] Instance eta_reader : Eta reader :=
  fun r => mkReader (dataChannel r) (bufferBudget r) (recvBuf r) (lastTransportRead r).

(** How an iteration ends: the loop goes on with the rest of the input, or breaks
    (and closes the connection). *)
Inductive iteration :=
| Continue (r : reader) (rest : list byte)
| Break (r : reader) (reason : string).

(** The end of an iteration, after a frame has been opened. *)
Definition deliver (maxFrame now : Z) (current : bool) (r : reader)
    (opened : result (Z * list byte)) (rest : list byte) : iteration :=
  match opened with
  | Err err => Break r err
  | Ok (frameType, raw) =>
      if maxFrame <? len raw then Break r "frame too large"
      else if negb current then Break r "stale transport"
      else
        let r := r <| lastTransportRead := now |> in
        if frameType =? DataFrameHeartbeat then Continue r rest
        else
          let '(rb, b, res) := Buffer.Write (recvBuf r) (bufferBudget r) raw in
          let r := r <| recvBuf := rb |> <| bufferBudget := b |> in
          match res with
          | Err err => Break r err
          | Ok _ => Continue r rest
          end
  end.

(** One iteration of [readTransport]; [input] is what the stream still holds. *)
Definition readStep (maxFrame now : Z) (current1 current2 : bool) (r : reader) (input : list byte)
  : option iteration :=
  if len input <? 8 then Some (Break r "EOF")
  else if negb current1 then Some (Break r "stale transport")
  else
    let length_ := be_decode (take 8 input) in
    let input := drop 8 input in
    if length_ =? 0 then Some (Break r "empty frame")
    else if maxFrame <? length_ then Some (Break r "frame too large")
    else if len input <? DataFrameSequenceSize then Some (Break r "EOF")
    else
      let sequence := be_decode (take 8 input) in
      let input := drop 8 input in
      let '(b, ok) := Buffer.Reserve (bufferBudget r) length_ in
      let r := r <| bufferBudget := b |> in
      if negb ok then Some (Break r "buffer budget exceeded")
      else if len input <? length_ then
        b ← Buffer.Release (bufferBudget r) length_;
        Some (Break (r <| bufferBudget := b |>) "EOF")
      else
        let frame := take (Z.to_nat length_) input in
        let rest := drop (Z.to_nat length_) input in
        let '(dc, opened) := OpenFrame (dataChannel r) sequence frame maxFrame in
        let r := r <| dataChannel := dc |> in
        b ← Buffer.Release (bufferBudget r) length_;
        Some (deliver maxFrame now current2 (r <| bufferBudget := b |>) opened rest).

(** The loop, up to the break. *)
Fixpoint readTransport (fuel : nat) (maxFrame now : Z) (current : nat → bool) (k : nat)
    (r : reader) (input : list byte) : option (reader * string) :=
  match fuel with
  | O => None
  | S fuel =>
      it ← readStep maxFrame now (current k) (current (S k)) r input;
      match it with
      | Break r reason => Some (r, reason)
      | Continue r rest => readTransport fuel maxFrame now current (S (S k)) r rest
      end
  end.

(** [errors.Is(err, peer.ErrDataFrameReplay)]. *)
Definition is_replay (opened : result (Z * list byte)) : bool :=
  match opened with Err err => bool_decide (err = ErrDataFrameReplay) | Ok _ => false end.

(** One iteration of [readRawTransport], for one packet of a packet transport.  A
    replayed packet is skipped. *)
Definition readRawStep (maxFrame now : Z) (current1 current2 : bool) (r : reader)
    (packet : list byte) : option iteration :=
  let n := len packet in
  if n <? 8 then Some (Break r "short packet")
  else if negb current1 then Some (Break r "stale transport")
  else
    let length_ := be_decode (take 8 packet) in
    if length_ =? 0 then Some (Break r "empty frame")
    else if (n <? 8 + DataFrameSequenceSize) || (maxFrame <? length_)
            || negb (length_ =? n - 8 - DataFrameSequenceSize)
    then Some (Break r "malformed packet")
    else
      let '(b, ok) := Buffer.Reserve (bufferBudget r) length_ in
      let r := r <| bufferBudget := b |> in
      if negb ok then Some (Break r "buffer budget exceeded")
      else
        let sequence := be_decode (take 8 (drop 8 packet)) in
        let '(dc, opened) := OpenFrame (dataChannel r) sequence (drop 16 packet) maxFrame in
        let r := r <| dataChannel := dc |> in
        b ← Buffer.Release (bufferBudget r) length_;
        let r := r <| bufferBudget := b |> in
        if is_replay opened then Some (Continue r [])
        else Some (deliver maxFrame now current2 r opened []).

(** The loop over the packets that arrive. *)
Fixpoint readRawTransport (maxFrame now : Z) (current : nat → bool) (k : nat)
    (r : reader) (packets : list (list byte)) : option (reader * string) :=
  match packets with
  | [] => Some (r, "EOF"%string)
  | packet :: packets =>
      it ← readRawStep maxFrame now (current k) (current (S k)) r packet;
      match it with
      | Break r reason => Some (r, reason)
      | Continue r _ => readRawTransport maxFrame now current (S (S k)) r packets
      end
  end.

(** ** Lemmas *)

Context `{L : !CryptoLaws C}.

Lemma sealFrame_seq c ft p :
  in_u64 (sendSequence c) →
  let '(c', r) := sealFrame c ft p in
  sendSequence c ≤ sendSequence c' ∧ receiveWindow c' = receiveWindow c ∧
  match r with Ok (q, _) => q = sendSequence c + 1 ∧ q = sendSequence c' | Err _ => True end.
Proof.
  intros Hq. unfold sealFrame. destruct (sendCodec c) as [e|]; [|split_and!; done || lia].
  case_if as E; [split_and!; done || lia|].
  destruct (sequenceUpdate (sendSequence c)) as [q|] eqn:Eq; [|split_and!; done || lia].
  apply sequenceUpdate_some in Eq as [_ ->]. cbn.
  destruct (Codec.encodeWithEncryption _ _ _ _) as [e' [ct|]]; cbn; split_and!; done || lia.
Qed.

Lemma slice_range_ok p i j :
  0 ≤ i ≤ j → j ≤ len p →
  slice_range p i j = Some (take (Z.to_nat (j - i)) (drop (Z.to_nat i) p)).
Proof.
  intros H1 H2. unfold slice_range.
  rewrite (proj2 (Z.leb_le 0 i)), (proj2 (Z.leb_le i j)), (proj2 (Z.leb_le j (len p))) by lia. done.
Qed.

(** The inner loop returns, and what it returns is a sealed piece. *)
Lemma sealFit_spec t sk aad role acc c p off end_ limit fuel :
  wfd t sk aad role c acc → 0 ≤ off < end_ → end_ ≤ len p → end_ - off < Z.of_nat fuel →
  ∃ c' r, sealFit fuel c p off end_ limit = Some (c', r) ∧
    wfd t sk aad role c' acc ∧ sendSequence c ≤ sendSequence c' ∧
    ∀ e frame, r = Ok (e, frame) →
      off < e ≤ end_ ∧ ∃ c0 q ct,
        wfd t sk aad role c0 acc ∧ sendSequence c ≤ sendSequence c0 ∧
        Seal c0 (take (Z.to_nat (e - off)) (drop (Z.to_nat off) p)) = (c', Ok (q, ct)) ∧
        frame = frameBytes q ct ∧ len ct ≤ limit.
Proof.
  revert c end_. induction fuel as [|fuel IH]; intros c end_ Hw Ho He Hf; [lia|].
  cbn [sealFit]. rewrite slice_range_ok by lia. cbn [mbind option_bind].
  set (chunk := take _ _). pose proof (sealFrame_wfd _ _ _ _ _ _ DataFrameApplication chunk Hw) as Hw'.
  pose proof (sealFrame_seq c DataFrameApplication chunk (wfd_seq _ _ _ _ _ _ Hw)) as Hseq.
  unfold Seal at 1. destruct (sealFrame c DataFrameApplication chunk) as [c' [[q ct]|err]] eqn:Es;
    cbn in Hw'; destruct Hseq as (Hmono & _ & Hq).
  2: { exists c', (Err err). split_and!; done. }
  case_if as E1.
  - exists c', (Ok (end_, frameBytes q ct)). split_and!; [done..|]. intros e frame [= <- <-].
    split; [lia|]. exists c, q, ct. split_and!; [done|lia|exact Es|done|lia].
  - case_if as E2; [eexists _, _; split_and!; done|].
    assert (Hh : off < off + Z.quot (end_ - off) 2 < end_).
    { rewrite Z.quot_div_nonneg by lia. pose proof (Z.div_pos (end_ - off) 2).
      pose proof (Z.div_mod (end_ - off) 2). pose proof (Z.mod_pos_bound (end_ - off) 2). lia. }
    destruct (IH c' (off + Z.quot (end_ - off) 2) Hw') as (c2 & r & -> & Hw2 & Hm2 & Hr); [lia..|].
    exists c2, r. split_and!; [done|done|lia|]. intros e frame Hok.
    destruct (Hr e frame Hok) as (He' & c0 & q0 & ct0 & H1 & H2 & H3 & H4 & H5).
    split; [lia|]. exists c0, q0, ct0. split_and!; done || lia.
Qed.

(** *** The budget around a frame *)

Definition room (b : option Buffer.ByteBudget) (n : Z) : Prop :=
  match b with
  | None => True
  | Some b => 0 ≤ Buffer.used b ∧ Buffer.used b + n ≤ Buffer.limit b < 2 ^ 62
  end.

Definition spend (b : option Buffer.ByteBudget) (n : Z) : option Buffer.ByteBudget :=
  match b with
  | None => None
  | Some b => Some (Buffer.mkBudget (Buffer.limit b) (Buffer.used b + n))
  end.

Lemma room_spend b n m : 0 ≤ n → 0 ≤ m → room b (n + m) → room (spend b n) m.
Proof. destruct b as [[l u]|]; cbn; lia. Qed.

Lemma room_le b n m : m ≤ n → room b n → room b m.
Proof. destruct b as [[l u]|]; cbn; lia. Qed.

Lemma spend_0 b : spend b 0 = b.
Proof. destruct b as [[l u]|]; cbn; rewrite ?Z.add_0_r; done. Qed.

Lemma spend_add b n m : spend (spend b n) m = spend b (n + m).
Proof. destruct b as [[l u]|]; cbn; rewrite ?Z.add_assoc; done. Qed.

Lemma Reserve_room b n : 0 ≤ n → room b n → Buffer.Reserve b n = (spend b n, true).
Proof.
  intros Hn Hr. destruct b as [[l u]|]; [|done]. cbn in *. unfold Buffer.reserveUpdate.
  case_if as E; [replace n with 0 by lia; by rewrite Z.add_0_r|].
  intval. cbn. rewrite (proj2 (Z.ltb_ge _ _)) by lia. done.
Qed.

Lemma Release_spend b n : 0 ≤ n → room b n → Buffer.Release (spend b n) n = Some b.
Proof.
  intros Hn Hr. destruct b as [[l u]|]; [|done]. cbn in *. unfold Buffer.releaseUpdate.
  case_if as E; [replace n with 0 by lia; by rewrite Z.add_0_r|]. cbn.
  replace (u + n - n) with u by lia. intval.
  rewrite (proj2 (Z.ltb_ge _ _)) by lia. done.
Qed.

Definition extend (rb : Buffer.RecvBuffer) (data : list byte) : Buffer.RecvBuffer :=
  Buffer.mkRecv (Buffer.buf rb ++ data) (Buffer.closed rb) (Buffer.deadline rb) (Buffer.rlimit rb).

Lemma recv_Write_ok rb b data :
  Buffer.closed rb = false → len data ≤ Buffer.rlimit rb - len (Buffer.buf rb) →
  room b (len data) →
  Buffer.Write rb b data = (extend rb data, spend b (len data), Ok ()).
Proof.
  intros Hc Hl Hr. unfold Buffer.Write. rewrite Hc, (proj2 (Z.ltb_ge _ _)) by lia.
  rewrite Reserve_room by (done || apply len_nonneg). by destruct rb.
Qed.

Lemma Accept_above w q :
  in_u64 (Replay.highest w) → in_u64 q → Replay.highest w < q →
  ∃ w', Replay.Accept w q = (w', true) ∧ Replay.highest w' = q.
Proof.
  unfold in_u64. intros Hh Hq Hlt. unfold Replay.Accept.
  rewrite (proj2 (Z.eqb_neq q 0)) by lia.
  case_if as E; [by eexists|]. rewrite (proj2 (Z.ltb_lt _ _)) by lia.
  eexists. split; [done|]. by case_ifs.
Qed.

(** ** One frame *)

Lemma frameBytes_parse q ct rest :
  in_u64 q → len ct < 2 ^ 63 →
  let input := frameBytes q ct ++ rest in
  len input = 16 + len ct + len rest ∧ be_decode (take 8 input) = len ct ∧
  be_decode (take 8 (drop 8 input)) = q ∧ drop 8 (drop 8 input) = ct ++ rest.
Proof.
  intros Hq Hl. unfold frameBytes. rewrite <- !app_assoc. cbv zeta.
  pose proof (len_nonneg ct).
  rewrite (take_app_length' (be_encode 8 _)), (drop_app_length' (be_encode 8 _))
    by by rewrite be_encode_length.
  rewrite (take_app_length' (be_encode 8 q)), (drop_app_length' (be_encode 8 q))
    by by rewrite be_encode_length.
  rewrite !be_decode_encode, !len_app. split_and!; [unfold len; rewrite !be_encode_length; lia| |by apply Z.mod_small|done].
  intval. apply Z.mod_small. lia.
Qed.

(** Reader [r] is the peer of a sender whose frames up to [q] it may have seen. *)
Record ready (t : string) (sk aad : list byte) (role : Z) (r : reader) (q n : Z) : Prop := {
  ready_wfd : ∃ acc, wfd t sk aad role (dataChannel r) acc;
  ready_seq : Replay.highest (receiveWindow (dataChannel r)) ≤ q;
  ready_open : Buffer.closed (recvBuf r) = false;
  ready_size : n ≤ Buffer.rlimit (recvBuf r) - len (Buffer.buf (recvBuf r))
}.

(** What is left after reading [data] with the frame numbered [q]. *)
Definition after_data (r r' : reader) (data : list byte) : Prop :=
  recvBuf r' = extend (recvBuf r) data ∧ bufferBudget r' = spend (bufferBudget r) (len data).

Lemma OpenFrame_sealed t sk aad role c0 acc r q0 n chunk c' q ct mx :
  wfd t sk aad role c0 acc → ready t sk aad (peer role) r q0 n → q0 ≤ sendSequence c0 →
  Seal c0 chunk = (c', Ok (q, ct)) → len ct ≤ mx →
  len chunk + 1 < len ct ∧ in_u64 q ∧ q = sendSequence c' ∧
  ∃ dc, OpenFrame (dataChannel r) q ct mx = (dc, Ok (DataFrameApplication, chunk)) ∧
    (∃ acc', wfd t sk aad (peer role) dc acc') ∧ Replay.highest (receiveWindow dc) = q.
Proof.
  intros Hc [[acc' Hr] Hh _ _] Hq0 Hs Hmx.
  pose proof (sealFrame_wfd _ _ _ _ _ _ DataFrameApplication chunk Hc) as Hc'.
  pose proof (sealFrame_seq c0 DataFrameApplication chunk (wfd_seq _ _ _ _ _ _ Hc)) as Hseq.
  unfold Seal in Hs. rewrite Hs in Hc', Hseq. cbn in Hc'. destruct Hseq as (_ & _ & Hq1 & Hq2).
  pose proof (wfd_seq _ _ _ _ _ _ Hc') as Hu. rewrite <- Hq2 in Hu.
  pose proof (wfd_seq _ _ _ _ _ _ Hc) as Hu0.
  destruct (seal_decode _ _ _ _ _ _ _ _ DataFrameApplication chunk Hc Hr) as (c2 & ct2 & e & Hs2 & He & Hl & Hdec);
    [by left|unfold in_u64, MaxUint64 in *; lia|].
  rewrite Hs2 in Hs. injection Hs as -> _ ->. rewrite <- Hq1 in Hdec.
  destruct (Accept_above (receiveWindow (dataChannel r)) q) as (w & Ha & Hw);
    [apply (wfd_window _ _ _ _ _ _ Hr)|done|lia|].
  assert (Ho : OpenFrame (dataChannel r) q ct mx =
    ((dataChannel r) <| receiveWindow := w |>, Ok (DataFrameApplication, chunk))).
  { unfold OpenFrame. rewrite He, (proj2 (Z.eqb_neq q 0)), (Hdec mx) by (unfold in_u64 in *; lia).
    change (byte_val (byte_of DataFrameApplication)) with DataFrameApplication.
    cbn [negb andb]. change (DataFrameApplication =? DataFrameApplication) with true.
    change (DataFrameApplication =? DataFrameHeartbeat) with false. cbn. by rewrite Ha. }
  split_and!; [done|done|done|]. eexists. split; [exact Ho|]. split; [|done].
  pose proof (OpenFrame_wfd _ _ _ _ _ _ q ct mx Hu Hr) as Hf. rewrite Ho in Hf.
  eexists. exact (proj1 Hf).
Qed.

(** The reader's iteration on a frame of application data. *)
Lemma readStep_frame t sk aad role c0 acc r q0 n chunk c' q ct maxFrame now :
  wfd t sk aad role c0 acc → ready t sk aad (peer role) r q0 n → q0 ≤ sendSequence c0 →
  Seal c0 chunk = (c', Ok (q, ct)) → len ct ≤ maxFrame < 2 ^ 63 → len chunk ≤ n →
  room (bufferBudget r) maxFrame →
  ∃ r', (∀ rest, readStep maxFrame now true true r (frameBytes q ct ++ rest)
                 = Some (Continue r' rest)) ∧
    ready t sk aad (peer role) r' (sendSequence c') (n - len chunk) ∧ after_data r r' chunk.
Proof.
  intros Hc Hr Hq0 Hs Hmax Hn Hroom.
  destruct (OpenFrame_sealed _ _ _ _ _ _ _ _ _ _ _ _ _ maxFrame Hc Hr Hq0 Hs)
    as (Hl & Hu & Hqc & dc & Ho & Hdc & Hh); [lia|].
  destruct Hr as [_ _ Hcl Hsz]. pose proof (len_nonneg chunk).
  exists (mkReader dc (spend (bufferBudget r) (len chunk)) (extend (recvBuf r) chunk) now).
  split; [intros rest|split; [|done]; split; cbn; [done|lia|done|rewrite len_app; lia]].
  pose proof (len_nonneg rest).
  destruct (frameBytes_parse q ct rest Hu) as (P1 & P2 & P3 & P4); [lia|].
  unfold readStep. rewrite P1, P2, P3, P4. rewrite (proj2 (Z.ltb_ge _ 8)) by lia. cbn [negb].
  rewrite (proj2 (Z.eqb_neq _ _)), (proj2 (Z.ltb_ge maxFrame _)) by lia.
  assert (Hd : len (drop 8 (frameBytes q ct ++ rest)) = 8 + len ct + len rest).
  { unfold len in *. rewrite length_drop. lia. }
  rewrite Hd. unfold DataFrameSequenceSize. rewrite (proj2 (Z.ltb_ge _ 8)) by lia.
  assert (Hrm : room (bufferBudget r) (len ct)) by (eapply room_le; [|exact Hroom]; lia).
  rewrite Reserve_room by (done || lia). cbn [negb update].
  rewrite len_app, (proj2 (Z.ltb_ge _ (len ct))) by lia.
  rewrite take_app_length', drop_app_length' by (unfold len; lia). cbn. rewrite Ho. cbn.
  rewrite Release_spend by (done || lia). cbn.
  rewrite (proj2 (Z.ltb_ge maxFrame _)) by lia.
  change (DataFrameApplication =? DataFrameHeartbeat) with false. cbn.
  rewrite recv_Write_ok; [done|done|lia|eapply room_le; [|exact Hroom]; lia].
Qed.

Lemma take_drop_split (p : list byte) (i j k : Z) :
  0 ≤ i ≤ j → j ≤ k →
  take (Z.to_nat (j - i)) (drop (Z.to_nat i) p) ++ take (Z.to_nat (k - j)) (drop (Z.to_nat j) p)
  = take (Z.to_nat (k - i)) (drop (Z.to_nat i) p).
Proof.
  intros H1 H2. replace (Z.to_nat j) with (Z.to_nat i + Z.to_nat (j - i))%nat by lia.
  rewrite <- drop_drop. set (l := drop (Z.to_nat i) p).
  replace (Z.to_nat (k - i)) with (Z.to_nat (j - i) + Z.to_nat (k - j))%nat by lia.
  apply take_take_drop.
Qed.

(** ** The loops together *)

Lemma after_data_trans r1 r2 r3 d1 d2 :
  after_data r1 r2 d1 → after_data r2 r3 d2 → after_data r1 r3 (d1 ++ d2).
Proof.
  intros [H1 H2] [H3 H4]. split.
  - rewrite H3, H1. unfold extend. cbn. by rewrite app_assoc.
  - by rewrite H4, H2, spend_add, len_app.
Qed.

Lemma readTransport_end fuel maxFrame now current k r :
  (0 < fuel)%nat → readTransport fuel maxFrame now current k r [] = Some (r, "EOF"%string).
Proof. destruct fuel; [lia|]. reflexivity. Qed.

(** The frames of a run of the writer bring the reader from [r] to [r']. *)
Definition reads (maxFrame now : Z) (r r' : reader) (frames : list (list byte)) : Prop :=
  ∀ fuel k, (length frames < fuel)%nat →
    readTransport fuel maxFrame now (λ _, true) k r (concat frames) = Some (r', "EOF"%string).

Lemma writeLoop_delivers t sk aad role acc p limit maxFrame now accepts fuel c off k r q :
  wfd t sk aad role c acc → ready t sk aad (peer role) r q (len p - off) → q ≤ sendSequence c →
  64 < limit ≤ maxFrame → maxFrame < 2 ^ 62 → 0 ≤ off ≤ len p → len p - off < Z.of_nat fuel →
  room (bufferBudget r) (len p - off + maxFrame) →
  ∃ c' frames n err r', writeLoop fuel c p off limit accepts k = Some (c', frames, (n, err)) ∧
    off ≤ n ≤ len p ∧ (err = None → n = len p) ∧ reads maxFrame now r r' frames ∧
    ready t sk aad (peer role) r' (sendSequence c') (len p - n) ∧
    after_data r r' (take (Z.to_nat (n - off)) (drop (Z.to_nat off) p)).
Proof.
  intros Hw Hr Hq Hlim Hmax. revert c off k r q Hw Hr Hq.
  induction fuel as [|fuel IH]; intros c off k r q Hw Hr Hq Hoff Hf Hroom; [lia|]. cbn [writeLoop].
  assert (Hstop : ∀ c' n, n = off → wfd t sk aad role c' acc → sendSequence c ≤ sendSequence c' →
    off ≤ n ≤ len p ∧ reads maxFrame now r r [] ∧
    ready t sk aad (peer role) r (sendSequence c') (len p - n) ∧
    after_data r r (take (Z.to_nat (n - off)) (drop (Z.to_nat off) p))).
  { intros c' n -> _ Hm. rewrite Z.sub_diag. split_and!; [lia|lia| | |].
    - intros fuel' k' Hf'. by apply readTransport_end.
    - destruct Hr. split; done || lia.
    - unfold after_data, extend. rewrite take_0, app_nil_r, spend_0. by destruct (recvBuf r). }
  case_if as E.
  { destruct (Hstop c (len p) ltac:(lia) Hw ltac:(lia)) as (H1 & H2 & H3 & H4).
    exists c, [], (len p), None, r. split_and!; done || lia. }
  destruct (sealFit_spec _ _ _ _ _ c p off (Z.min (off + limit - 64) (len p)) limit
    (S (Z.to_nat (Z.min (off + limit - 64) (len p) - off))) Hw) as (c1 & res & -> & Hw1 & Hm1 & Hres);
    [lia..|]. cbn [mbind option_bind].
  destruct res as [[e frame]|err].
  2: { destruct (Hstop c1 off eq_refl Hw1 Hm1) as (H1 & H2 & H3 & H4).
       exists c1, [], off, (Some err), r. split_and!; done || lia. }
  destruct (accepts k); cbn [negb].
  2: { destruct (Hstop c1 off eq_refl Hw1 Hm1) as (H1 & H2 & H3 & H4).
       eexists c1, [], off, (Some _), r. split_and!; done || lia. }
  destruct (Hres e frame eq_refl) as (He & c0 & q0 & ct & Hw0 & Hm0 & Hseal & -> & Hct).
  set (chunk := take (Z.to_nat (e - off)) (drop (Z.to_nat off) p)) in *.
  assert (Hlen : len chunk = e - off).
  { unfold chunk, len in *. rewrite length_take, length_drop. lia. }
  destruct (readStep_frame t sk aad role c0 acc r q (len p - off) chunk c1 q0 ct maxFrame now)
    as (r1 & Hstep & Hr1 & Ha1); [done|done|lia|done|lia|lia|eapply room_le; [|exact Hroom]; lia|].
  replace (len p - off - len chunk) with (len p - e) in Hr1 by lia.
  destruct (IH c1 e (S k) r1 (sendSequence c1) Hw1 Hr1)
    as (c2 & frames & n & err & r2 & Hloop & Hn & Herr & Hreads & Hr2 & Ha2); [lia..| |].
  { rewrite (proj2 Ha1). apply room_spend; [lia|lia|].
    eapply room_le; [|exact Hroom]. lia. }
  rewrite Hloop. cbn [mbind option_bind].
  exists c2, (frameBytes q0 ct :: frames), n, err, r2. split_and!; [done|lia|lia|done| |done|].
  - intros [|fuel'] k' Hf'; cbn [length] in Hf'; [lia|]. cbn [readTransport concat].
    rewrite Hstep. cbn [mbind option_bind]. apply Hreads. lia.
  - rewrite <- (take_drop_split p off e n) by lia. by eapply after_data_trans.
Qed.


(** The reader for packet transports does with a packet that holds one whole
    frame what the stream reader does with the same bytes, with the one intended
    difference: a replayed frame is skipped, where the stream reader gives up. *)
Theorem packet_reader_agrees (maxFrame now : Z) (current1 current2 : bool) (r : reader)
    (packet : list byte) :
  16 ≤ len packet → be_decode (take 8 packet) = len packet - 16 → len packet - 16 ≤ maxFrame →
  readRawStep maxFrame now current1 current2 r packet =
  match readStep maxFrame now current1 current2 r packet with
  | Some (Break r' err) =>
      Some (if decide (err = ErrDataFrameReplay) then Continue r' [] else Break r' err)
  | it => it
  end.
Proof.
  intros Hlen Hdec Hmax. unfold readRawStep, readStep, DataFrameSequenceSize. rewrite Hdec.
  rewrite (proj2 (Z.ltb_ge (len packet) 8)) by lia.
  destruct current1; [|done]. cbn [negb]. case_if as E0; [done|].
  assert (Hd8 : len (drop 8 packet) = len packet - 8) by (unfold len in *; rewrite length_drop; lia).
  assert (Hd16 : len (drop 8 (drop 8 packet)) = len packet - 16)
    by (unfold len in *; rewrite !length_drop; lia).
  rewrite Hd8, Hd16, !(proj2 (Z.ltb_ge _ _)) by lia.
  rewrite (proj2 (Z.eqb_eq (len packet - 16) (len packet - 8 - 8))) by lia. cbn [negb orb].
  destruct (Buffer.Reserve _ _) as [b ok]. destruct ok; [|done]. cbn [negb].
  rewrite drop_drop. change (8 + 8)%nat with 16%nat.
  rewrite (take_ge (drop 16 packet)), (drop_ge (drop 16 packet))
    by (unfold len in *; rewrite length_drop; lia).
  cbn. destruct (OpenFrame _ _ _ _) as [dc opened]. cbn.
  destruct (Buffer.Release _ _) as [b'|]; [|done]. cbn.
  destruct opened as [[ft raw]|err]; cbn [is_replay deliver].
  - case_ifs; try done. destruct (Buffer.Write _ _ _) as [[rb b2] [[]|err]] eqn:Ew; [done|]. cbn.
    destruct (decide (err = ErrDataFrameReplay)) as [->|]; [|done].
    revert Ew. unfold Buffer.Write. case_ifs; try done. destruct (Buffer.Reserve _ _) as [? []]; done.
  - destruct (decide (err = ErrDataFrameReplay)); [by rewrite bool_decide_eq_true_2|].
    by rewrite bool_decide_eq_false_2.
Qed.

(** A transport that asks for frames of less than 64 bytes makes [Write] slice
    with a negative bound: it panics. *)
Lemma small_limit_panics c p limit accepts :
  limit < 64 → p ≠ [] → Write true false c p limit accepts = None.
Proof.
  intros Hlim Hp. unfold Write. cbn [negb].
  assert (Hl : 0 < len p) by (pose proof (len_nonneg p); pose proof (len_0 p); destruct (decide (len p = 0)); tauto || lia).
  rewrite (proj2 (Z.eqb_neq _ _)) by lia. cbn [writeLoop].
  rewrite (proj2 (Z.leb_gt _ _)) by lia. cbn [sealFit]. unfold slice_range.
  by rewrite (proj2 (Z.leb_gt 0 (Z.min (0 + limit - 64) (len p)))) by lia.
Qed.

(** ** Completion *)

(** Nonce and tag take at most 63 bytes, as they do for all five ciphers. *)
Definition small_overhead : Prop :=
  ∀ a k n x ad, len n = aead_nonceSize a → len n + len (aead_seal a k n x ad) ≤ len x + 63.

Lemma Seal_fits t sk aad role c acc chunk :
  small_overhead → wfd t sk aad role c acc → sendSequence c < MaxUint64 →
  ∃ c' ct, Seal c chunk = (c', Ok (sendSequence c + 1, ct)) ∧ len ct ≤ len chunk + 64 ∧
    wfd t sk aad role c' acc ∧ sendSequence c' = sendSequence c + 1.
Proof.
  intros Hov Hc Hq. pose proof (wfd_send _ _ _ _ _ _ Hc) as (e & kit & He & Hk & _).
  pose proof (sealFrame_wfd _ _ _ _ _ _ DataFrameApplication chunk Hc) as Hw'.
  pose proof (wfd_nonces _ _ _ _ _ _ Hc e He) as Hn. unfold Codec.noncesUsed in Hn.
  rewrite (Codec.wfc_kit _ _ Hk) in Hn.
  revert Hw'. unfold Seal, sealFrame, sequenceUpdate.
  rewrite He, (proj2 (Z.eqb_neq _ MaxUint64)) by lia. cbn [update].
  change (negb _ && negb _) with false. cbv iota.
  set (fr := byte_of DataFrameApplication :: chunk).
  assert (Hfr : len fr = len chunk + 1) by apply len_cons. clearbody fr.
  pose proof (len_nonneg chunk). unfold Codec.encodeWithEncryption.
  rewrite (proj2 (Z.eqb_neq (len fr) 0)), (Codec.wfc_kit _ _ Hk) by lia.
  set (aad' := Codec.additionalDataFor e _ _).
  destruct (Encryption.Encrypt_spec kit fr aad') as (_ & Hl & ->); [apply Hk|lia|].
  cbn. intros Hw'. eexists _, _. split_and!; [done| |done|done].
  rewrite len_app. pose proof (Hov _ (Encryption.ekey kit) _ fr aad' Hl) as Hov'. cbn in Hov'. lia.
Qed.

Lemma writeLoop_completes t sk aad role acc p limit fuel c off k :
  small_overhead → wfd t sk aad role c acc → 64 < limit → 0 ≤ off ≤ len p →
  len p - off < Z.of_nat fuel → sendSequence c + (len p - off) ≤ MaxUint64 →
  ∃ c' frames, writeLoop fuel c p off limit (λ _, true) k = Some (c', frames, (len p, None)).
Proof.
  intros Hov Hw Hlim. revert c off k Hw. induction fuel as [|fuel IH];
    intros c off k Hw Hoff Hf Hq; [lia|]. cbn [writeLoop]. case_if as E; [by eauto|].
  set (e := Z.min (off + limit - 64) (len p)). cbn [sealFit].
  rewrite slice_range_ok by (unfold e; lia). cbn [mbind option_bind].
  set (chunk := take _ _).
  assert (Hlen : len chunk = e - off).
  { unfold chunk, e, len in *. rewrite length_take, length_drop. lia. }
  destruct (Seal_fits _ _ _ _ c acc chunk Hov Hw) as (c' & ct & -> & Hct & Hw' & Hs'); [lia|].
  rewrite (proj2 (Z.leb_le (len ct) limit)) by (unfold e in *; lia). cbn [mbind option_bind negb].
  destruct (IH c' e (S k) Hw') as (c2 & frames & ->); [unfold e; lia..|]. cbn. eauto.
Qed.

(** With the overhead of the real ciphers, a frame limit above 64 and a
    working transport, [Write] writes everything in one call, as long as there is
    a sequence number for every byte. *)
Theorem write_completes (t : string) (sk aad : list byte) (role : Z) (c : DataChannel)
    (p : list byte) (limit : Z) :
  small_overhead → reach t sk aad role c → 64 < limit → sendSequence c + len p ≤ MaxUint64 →
  ∃ c' frames, Write true false c p limit (λ _, true) = Some (c', frames, (len p, None)).
Proof.
  intros Hov [acc Hc]%reach_wfd Hlim Hq. unfold Write. cbn [negb]. pose proof (len_nonneg p).
  case_if as E; [rewrite E; eauto|].
  destruct (writeLoop_completes t sk aad role acc p limit (S (length p)) c 0 0)
    as (c' & frames & ->); try done; try lia; [unfold len; lia|]. eauto.
Qed.

End Stream.

(** ** Concrete instances *)

#[local] Existing Instance Encryption.cryptoExample.
#[local] Existing Instance Encryption.cryptoExample_laws.

Definition demoReader : reader :=
  mkReader Channel.demoServer (Some (Buffer.NewByteBudget 100000)) Buffer.NewRecvBuffer 0.


(** A genuine packet. *)
Lemma packet_reader_agrees_witness :
  readRawStep 1024 5 true true demoReader (frameBytes 1 Channel.demoFrame) =
  readStep 1024 5 true true demoReader (frameBytes 1 Channel.demoFrame).
Proof.
  rewrite (packet_reader_agrees 1024 5 true true demoReader (frameBytes 1 Channel.demoFrame));
    [|vm_compute; discriminate|vm_compute; reflexivity|vm_compute; discriminate].
  vm_compute. reflexivity.
Defined.

(** A toy cipher with a tag of one byte. *)
Definition checksum (l : list byte) : byte :=
  byte_of (foldl (fun acc b => (acc * 7 + byte_val b) mod 251) 0 l).

Definition compactExample : Crypto := {|
  hkdf512 := @hkdf512 Encryption.cryptoExample;
  hkdf256 := @hkdf256 Encryption.cryptoExample;
  cipher_ok := @cipher_ok Encryption.cryptoExample;
  aead_keySize := @aead_keySize Encryption.cryptoExample;
  aead_nonceSize := @aead_nonceSize Encryption.cryptoExample;
  aead_seal a k n p ad := checksum (k ++ n ++ p ++ ad) :: p;
  aead_open a k n c ad :=
    match c with
    | t :: p => if bool_decide (t = checksum (k ++ n ++ p ++ ad)) then Some p else None
    | [] => None
    end
|}.

Lemma compactExample_laws : CryptoLaws compactExample.
Proof.
  destruct Encryption.cryptoExample_laws. split; try done; intros; cbn.
  - by rewrite bool_decide_eq_true_2.
  - rewrite len_cons. lia.
Qed.

Lemma compactExample_overhead : @small_overhead compactExample.
Proof. intros a k n x ad ->. cbn. rewrite len_cons. destruct a; cbn; lia. Qed.

Definition compactClient : Channel.DataChannel :=
  match @Channel.NewDataChannel compactExample "chacha20-poly1305" Channel.demoKey Channel.demoAAD
          Channel.DataRoleClient (Encryption.rndExample Byte.x61) (Encryption.rndExample Byte.x62) with
  | Ok c => c
  | Err _ => Channel.demoClient
  end.

Lemma write_completes_witness :
  let p := replicate 900 Byte.x41 in
  ∃ c' frames, @Write compactExample true false compactClient p 400 (λ _, true)
    = Some (c', frames, (900, None)).
Proof.
  intros p. change 900 with (len p).
  apply (@write_completes compactExample compactExample_laws "chacha20-poly1305" Channel.demoKey
    Channel.demoAAD Channel.DataRoleClient compactClient p 400 compactExample_overhead).
  - apply (@Channel.reach_channel compactExample _ _ _ _ (Encryption.rndExample Byte.x61)
      (Encryption.rndExample Byte.x62)); [apply Encryption.rndExample_entropy..|vm_compute; reflexivity].
  - lia.
  - vm_compute. discriminate.
Defined.

End Stream.
