(* ===== verification/Hello.v ===== *)
(** * Hello.v: the handshake between client and server
    (src/peer/client/hello.go; src/peer/server/hello.go, security.go, limits.go,
    close.go, and the connection table of conn.go and listen.go)

    The server's connections are objects that other goroutines hold pointers to:
    they live in a heap [conns] indexed by pointers, and [connections] maps a
    client to the pointer of its current connection.  The hello callback runs
    under [helloMu].  X25519, RFC 3339 times and the LRU cache are classes of
    parameters; the time and the random draws of a call are arguments. *)

From S2P Require Import Prelude GoFloat Replay Buffer Encryption Handshake Codec Channel.
From Stdlib Require Import ZArith Lia String.
From stdpp Require Import base list option strings numbers gmap.

Local Open Scope Z_scope.
Local Open Scope go_scope.

(** crypto/ecdh with the curve X25519. *)
Class KeyExchange := {
  x_public : list byte → list byte;
  x_ecdh : list byte → list byte → option (list byte)
}.

Class KeyExchangeLaws (K : KeyExchange) : Prop := {
  x_public_len a : len (x_public a) = 32;
  x_ecdh_len a p s : x_ecdh a p = Some s → len s = 32;
  x_ecdh_comm a b : x_ecdh a (x_public b) = x_ecdh b (x_public a);
  x_ecdh_honest a b : len a = 32 → len b = 32 → is_Some (x_ecdh a (x_public b))
}.

(** [X25519().NewPublicKey]: only the length is checked. *)
Definition x_newPublicKey (p : list byte) : bool := len p =? 32.

(** [X25519().GenerateKey]: 32 bytes of the reader. *)
Definition x_generateKey (rnd : Z → option (list byte)) : option (list byte) := rnd 32.

(** Times in RFC 3339 format with nanoseconds. *)
Class TimeFormat := {
  formatTime : Z → list byte;
  parseTime : list byte → option Z
}.

Class TimeFormatLaws (T : TimeFormat) : Prop := {
  parse_format t : parseTime (formatTime t) = Some t
}.

(** github.com/hashicorp/golang-lru: a cache that may forget. *)
Class LRU := {
  lru : Type;
  lru_new : Z → lru;
  lru_view : lru → gmap string Z;
  lru_get : lru → string → lru * option Z;
  lru_add : lru → string → Z → lru
}.

Class LRULaws (R : LRU) : Prop := {
  lru_get_value c k : (lru_get c k).2 = lru_view c !! k;
  lru_get_view c k : lru_view (lru_get c k).1 = lru_view c;
  lru_add_same c k v : lru_view (lru_add c k v) !! k = Some v;
  lru_add_other c k v k' t : k' ≠ k →
    lru_view (lru_add c k v) !! k' = Some t → lru_view c !! k' = Some t
}.

Module Hello.
Section Hello.
Context `{C : !Crypto} `{S : !Signatures} `{K : !KeyExchange} `{T : !TimeFormat} `{R : !LRU}.
Context `{W : !WebRTC}.
Context `{GH : !Gob Codec.Header} `{GP : !Gob Codec.Payload} `{GC : !Gob (list (list byte))}.

(** The zero value [&peer.Codec{}], which can only read plain headers. *)
Definition zeroCodec : Codec.Codec := Codec.mkCodec [] EmptyString None [] [] [].

Definition plainHeader (typ source target : string) (nonce : list byte) : Codec.Header :=
  Codec.mkHeader typ source target 0 nonce ∅.

(** ** The client *)

Record Client := mkClient {
  clientId : string;
  psk : Handshake.PreSharedKey;
  c_roomId : string;
  c_encryptionType : string;
  c_encryptionAAD : list byte
}.

Record clientHandshake := mkClientHandshake {
  ch_nonce : list byte;
  ch_privateKey : list byte;
  ch_publicKey : list byte;
  ch_message : list byte
}.

Record serverHandshake := mkServerHandshake {
  sh_serverID : string;
  sh_codec : Channel.SignalingChannel;
  sh_dataChannel : Channel.DataChannel;
  sh_transports : list string
}.

(** What the calls of one function draw from [crypto/rand]: [rnd n] is a read of
    [n] bytes. *)
Record clientDraws := mkClientDraws {
  cd_nonce : Z → option (list byte);
  cd_privateKey : Z → option (list byte);
  cd_rnd : Z → option (list byte)
}.

Definition some_or {A} (o : option A) (e : string) : result A :=
  match o with Some a => Ok a | None => Err e end.

Definition buildClientHello (c : Client) (now : Z) (d : clientDraws) : result clientHandshake :=
  nonce ← some_or (cd_nonce d Handshake.HandshakeNonceSize) "random source failed";
  privateKey ← some_or (x_generateKey (cd_privateKey d)) "random source failed";
  let publicKey := x_public privateKey in
  serverID ← Handshake.ServerIDFromPublicKey (Some (Handshake.ServerPublicKey (psk c)));
  handshakeKey ← Handshake.DeriveClientHelloKey (Handshake.Key (psk c)) (c_roomId c) (clientId c)
                   serverID nonce;
  handshakeCodec ← Codec.NewCodec (c_encryptionType c) handshakeKey (c_encryptionAAD c) (cd_rnd d);
  let message := Codec.mkMessage
    (Some (plainHeader Codec.MessageTypeClientHello (clientId c) EmptyString nonce))
    (Some (Codec.mkPayload None None [] nonce [] publicKey [] [] (c_roomId c) (clientId c)
             (formatTime now) [] EmptyString EmptyString EmptyString [] None))
    false in
  let '(_, _, encoded) := Codec.EncodeMessage handshakeCodec (Some message) in
  dataBytes ← encoded;
  Ok (mkClientHandshake nonce privateKey publicKey dataBytes).

(** [None] is the dereference of a missing header or payload, which [DecodeMessage]
    never returns. *)
Definition parts (m : Codec.Message) : result (Codec.Header * Codec.Payload) :=
  match Codec.MHeader m, Codec.MPayload m with
  | Some h, Some p => Ok (h, p)
  | _, _ => Err "nil pointer"
  end.

Definition handleServerHello (c : Client) (data : list byte) (attempt : clientHandshake)
    (rnd rnd1 rnd2 rnd3 rnd4 : Z → option (list byte)) : result serverHandshake :=
  header ← Codec.DecodeMessageHeader zeroCodec data;
  expectedServerID ← Handshake.ServerIDFromPublicKey (Some (Handshake.ServerPublicKey (psk c)));
  _ ← guard_err (negb (bool_decide (Codec.SourceId header = expectedServerID))
                 || negb (bool_decide (Codec.TargetId header = clientId c))
                 || negb (bool_decide (Codec.Type_ header = Codec.MessageTypeServerHello)))
        "unexpected server hello";
  _ ← guard_err (negb (len (Codec.HandshakeNonce header) =? Handshake.HandshakeNonceSize))
        "invalid server hello nonce";
  handshakeKey ← Handshake.DeriveServerHelloKey (Handshake.Key (psk c)) (c_roomId c) (clientId c)
                   expectedServerID (ch_nonce attempt) (Codec.HandshakeNonce header);
  handshakeCodec ← Codec.NewCodec (c_encryptionType c) handshakeKey (c_encryptionAAD c) rnd;
  msg ← Codec.DecodeMessage handshakeCodec data;
  '(h, p) ← parts msg;
  _ ← guard_err (bool_decide (Codec.SourceId h = EmptyString)
                 || negb (bool_decide (Codec.TargetId h = clientId c))
                 || negb (bool_decide (Codec.Type_ h = Codec.MessageTypeServerHello)))
        "unexpected server hello";
  _ ← guard_err (negb (bool_decide (Codec.SourceId h = expectedServerID)))
        "server identity does not match pinned public key";
  _ ← guard_err (negb (len (Codec.SessionSalt p) =? Handshake.HandshakeNonceSize)
                 || negb (len (Codec.ServerNonce p) =? Handshake.HandshakeNonceSize))
        "invalid server handshake values";
  _ ← guard_err (negb (bool_decide (Codec.HandshakeNonce h = Codec.ServerNonce p)))
        "server hello nonce does not match authenticated payload";
  _ ← guard_err (negb (bool_decide (Codec.ClientNonce p = ch_nonce attempt)))
        "server hello is not bound to the current client hello";
  _ ← guard_err (negb (bool_decide (Codec.ClientEphemeralKey p = ch_publicKey attempt)))
        "server hello is not bound to the current client key";
  _ ← guard_err (negb (Handshake.VerifyServerHello (Handshake.ServerPublicKey (psk c)) (c_roomId c)
                         (clientId c) (Codec.SourceId h) (Codec.ClientNonce p) (Codec.ServerNonce p)
                         (Codec.ClientEphemeralKey p) (Codec.ServerEphemeralKey p)
                         (Codec.SessionSalt p) (Codec.Signature p)))
        "invalid server identity signature";
  _ ← guard_err (negb (x_newPublicKey (Codec.ServerEphemeralKey p)))
        "invalid server X25519 public key";
  sharedSecret ← some_or (x_ecdh (ch_privateKey attempt) (Codec.ServerEphemeralKey p))
                   "invalid server X25519 public key";
  sessionKey ← Handshake.DeriveSessionKey (Handshake.Key (psk c)) sharedSecret (Codec.SessionSalt p)
                 (c_roomId c) (clientId c) (Codec.SourceId h) (ch_nonce attempt)
                 (Codec.ServerNonce p) (ch_publicKey attempt) (Codec.ServerEphemeralKey p);
  sessionCodec ← Channel.NewSignalingChannel (c_encryptionType c) sessionKey (c_encryptionAAD c)
                   Channel.DataRoleClient rnd1 rnd2;
  dataChannel ← Channel.NewDataChannel (c_encryptionType c) sessionKey (c_encryptionAAD c)
                  Channel.DataRoleClient rnd3 rnd4;
  Ok (mkServerHandshake (Codec.SourceId h) sessionCodec dataChannel (Codec.Transports p)).

(** ** The server *)

(** transports.ICEDescription *)
Record ICEDescription := mkICEDescription {
  UsernameFragment : string;
  Password : string;
  Candidates : list string
}.

(** transports.ITransport with its optional interfaces. *)
Record ITransport := mkTransport {
  Name : string;
  PacketMode : bool;
  TransportFrameSize : Z
}.

Record Connection := mkConnection {
  sourceId : string;
  codec : Channel.SignalingChannel;
  handshakeCodec : Codec.Codec;
  sessionSalt : list byte;
  clientNonce : list byte;
  serverNonce : list byte;
  clientEphemeralKey : list byte;
  serverEphemeralKey : list byte;
  transportConn : option nat;        (* the transport, by its identity *)
  dataChannel : option Channel.DataChannel;
  lastTransportRead : Z;
  established : bool;
  closed : bool;
  iceAgent : option nat;
  selectedTransport : string;
  transportMaxFrameSize : Z;
  pendingICEOffer : option ICEDescription;
  recvBuf : Buffer.RecvBuffer;
  signalSend : Z;
  signalRecv : Replay.ReplayWindow;
  pendingLease : bool;
  totalLease : bool;
  handshakeTimer : bool;             (* the timer is set *)
  closeDone : bool                   (* closeOnce has run *)
}.

#[export] Instance eta_connection : Eta Connection := fun c =>
  mkConnection (sourceId c) (codec c) (handshakeCodec c) (sessionSalt c) (clientNonce c)
    (serverNonce c) (clientEphemeralKey c) (serverEphemeralKey c) (transportConn c) (dataChannel c)
    (lastTransportRead c) (established c) (closed c) (iceAgent c) (selectedTransport c)
    (transportMaxFrameSize c) (pendingICEOffer c) (recvBuf c) (signalSend c) (signalRecv c)
    (pendingLease c) (totalLease c) (handshakeTimer c) (closeDone c).

Record Options := mkOptions {
  LRUSize : Z;
  ReplayProtection : Z;
  ClockSkew : Z;
  KeyProvider : Handshake.KeyProvider;
  IdentityKey : list byte;
  Transports : list ITransport;
  EncryptionType : string;
  EncryptionAAD : list byte;
  MaxFrameSize : Z;
  ReceiveBufferSize : Z;
  MaxBufferedBytes : Z;
  MaxPendingICE : Z;
  MaxPendingICEBytes : Z;
  MaxConnections : Z;
  MaxPendingHandshakes : Z;
  HandshakeTimeout : Z;
  HeartbeatInterval : Z;
  HeartbeatTimeout : Z;
  HelloRateLimit : GoFloat.float64;
  HelloRateBurst : Z;
  OnNewClientJoin : option (gmap string nat → string → bool)
}.

Record Server := mkServer {
  serverId : string;
  roomId : string;
  options : Options;
  nonceCache : lru;
  conns : gmap nat Connection;       (* the heap *)
  connections : gmap string nat;
  acceptCh : list nat;
  serverClosed : bool;               (* closeCh is closed *)
  agentsOpen : gset nat;             (* the ICE agents and transports that exist *)
  transportsOpen : gset nat;
  bufferBudget : option Buffer.ByteBudget;
  totalConnections : Z;
  pendingHandshakes : Z
}.

#[export] Instance eta_server : Eta Server := fun s =>
  mkServer (serverId s) (roomId s) (options s) (nonceCache s) (conns s) (connections s)
    (acceptCh s) (serverClosed s) (agentsOpen s) (transportsOpen s) (bufferBudget s) (totalConnections s) (pendingHandshakes s).

(** *** limits.go *)

Definition counterUpdate (limit current : Z) : option Z :=
  if limit <=? current then None else Some (current + 1).

Definition reserveCounter (counter limit : Z) : Z * bool :=
  match counterUpdate limit counter with
  | None => (counter, false)
  | Some c => (c, true)
  end.

Definition reserveConnection (s : Server) : Server * bool :=
  let '(t, ok) := reserveCounter (totalConnections s) (MaxConnections (options s)) in
  let s := s <| totalConnections := t |> in
  if negb ok then (s, false)
  else
    let '(p, ok) := reserveCounter (pendingHandshakes s) (MaxPendingHandshakes (options s)) in
    let s := s <| pendingHandshakes := p |> in
    if negb ok then (s <| totalConnections ::= (λ n, n - 1) |>, false) else (s, true).

Definition updateConn (s : Server) (i : nat) (f : Connection → Connection) : Server :=
  s <| conns ::= alter f i |>.

Definition stopHandshakeTimer (s : Server) (i : nat) : Server :=
  updateConn s i (λ c, c <| handshakeTimer := false |>).

Definition startHandshakeTimer (s : Server) (i : nat) : Server :=
  updateConn s i (λ c, if negb (handshakeTimer c) && negb (closed c)
                       then c <| handshakeTimer := true |> else c).

(** [if c.pendingLease.Swap(false) { c.owner.pendingHandshakes.Add(-1) }] *)
Definition releasePending (s : Server) (i : nat) : Server :=
  match conns s !! i with
  | Some c =>
      if pendingLease c then
        (updateConn s i (λ c, c <| pendingLease := false |>))
          <| pendingHandshakes ::= (λ n, n - 1) |>
      else s
  | None => s
  end.

Definition releaseTotal (s : Server) (i : nat) : Server :=
  match conns s !! i with
  | Some c =>
      if totalLease c then
        (updateConn s i (λ c, c <| totalLease := false |>))
          <| totalConnections ::= (λ n, n - 1) |>
      else s
  | None => s
  end.

Definition releaseLease (s : Server) (i : nat) : Server :=
  releaseTotal (releasePending (stopHandshakeTimer s i) i) i.

(** *** conn.go *)

Definition isCurrent (s : Server) (i : nat) : bool :=
  match conns s !! i with
  | Some c => negb (closed c) && bool_decide (connections s !! sourceId c = Some i)
  | None => false
  end.

Definition removeCurrent (s : Server) (i : nat) : Server :=
  match conns s !! i with
  | Some c =>
      if bool_decide (connections s !! sourceId c = Some i)
      then s <| connections ::= delete (sourceId c) |> else s
  | None => s
  end.

Definition setConnection (s : Server) (i : nat) : Server * bool :=
  if serverClosed s then (s, false)
  else match conns s !! i with
       | Some c =>
           if closed c then (s, false)
           else (s <| connections ::= <[sourceId c := i]> |>, true)
       | None => (s, false)
       end.

Definition markEstablished (s : Server) (i : nat) (expectedAgent expectedTransport : option nat)
  : Server * bool :=
  match conns s !! i with
  | Some c =>
      if closed c || negb (bool_decide (iceAgent c = expectedAgent))
         || negb (bool_decide (transportConn c = expectedTransport)) || negb (isCurrent s i)
      then (s, false)
      else
        let s := updateConn s i (λ c, c <| established := true |>) in
        (stopHandshakeTimer (releasePending s i) i, true)
  | None => (s, false)
  end.

(** *** close.go; [None] is the panic of an over-released budget *)

(** Closing an object that may be nil. *)
Definition closeOne (o : option nat) (live : gset nat) : gset nat :=
  match o with Some x => live ∖ {[x]} | None => live end.

Lemma closeOne_elem o live (x : nat) : x ∈ closeOne o live ↔ x ∈ live ∧ o ≠ Some x.
Proof.
  destruct o as [y|]; cbn; [|by split; [intros ?|intros [? _]]].
  rewrite elem_of_difference, elem_of_singleton.
  split; (intros [? Hne]; split; [done|]); [intros [= ->]|intros ->]; done.
Qed.

(** The transport and the agent are taken out of the connection and closed. *)
Definition releaseTransport (s : Server) (i : nat) : Server :=
  match conns s !! i with
  | Some c =>
      (updateConn s i (λ c, c <| transportConn := None |> <| dataChannel := None |>
                              <| iceAgent := None |>))
        <| transportsOpen ::= closeOne (transportConn c) |>
        <| agentsOpen ::= closeOne (iceAgent c) |>
  | None => s
  end.

Definition Connection_Close (s : Server) (i : nat) : option Server :=
  match conns s !! i with
  | None => Some s
  | Some c =>
      let s := updateConn s i (λ c, c <| closed := true |>) in
      if closeDone c then Some s
      else
        '(rb, b) ← Buffer.Close (recvBuf c) (bufferBudget s);
        let s := updateConn s i (λ c, c <| established := false |> <| recvBuf := rb |>
                                        <| closeDone := true |>) in
        let s := s <| bufferBudget := b |> in
        Some (releaseTransport (releaseLease (removeCurrent s i) i) i)
  end.

(** *** security.go *)

Definition nonceKey (nonce : list byte) : string := String.string_of_list_byte nonce.

(** [time.Time.Sub] saturates. *)
Definition timeSub (a b : Z) : Z := Z.max (- 2 ^ 63) (Z.min (2 ^ 63 - 1) (a - b)).

(** Times are in nanoseconds, the cache holds milliseconds; the clock is read
    once for the test and once for the entry. *)
Definition isNonceAvailable (s : Server) (now now' : Z) (nonce : list byte) : Server * bool :=
  let '(cache, hit) := lru_get (nonceCache s) (nonceKey nonce) in
  let s := s <| nonceCache := cache |> in
  let recent :=
    match hit with
    | Some t => timeSub now (t * 1000000) <? ReplayProtection (options s)
    | None => false
    end in
  if recent then (s, false)
  else (s <| nonceCache ::= (λ c, lru_add c (nonceKey nonce) (now' / 1000000)) |>, true).

Definition createRandomHandshakeValue (rnd : Z → option (list byte)) : result (list byte) :=
  some_or (rnd Handshake.HandshakeNonceSize) "random source failed".

Definition isClientIdValid (clientId : string) : bool := is_ok (Handshake.ValidateClientID clientId).

(** *** hello.go *)

(** The connection is waiting for its transport. *)
Definition pendingSession (c : Connection) : bool :=
  negb (closed c) && bool_decide (transportConn c = None)
  && bool_decide (selectedTransport c = EmptyString).

Definition errReplayedClientHello : string := "client hello nonce was replayed".

Definition prepareClientHello (s : Server) (now now' : Z) (existing : option nat)
    (nonce ephemeral : list byte) : option (Server * result bool) :=
  let duplicate :=
    match existing ≫= λ i, conns s !! i with
    | Some c => pendingSession c && bool_decide (clientNonce c = nonce)
                && bool_decide (clientEphemeralKey c = ephemeral)
    | None => false
    end in
  if duplicate then Some (s, Ok true)
  else
    let '(s, fresh) := isNonceAvailable s now now' nonce in
    if negb fresh then Some (s, Err errReplayedClientHello)
    else match existing with
         | Some i => s ← Connection_Close s i; Some (s, Ok false)
         | None => Some (s, Ok false)
         end.

(** The clock and the random values one hello uses. *)
Record serverDraws := mkServerDraws {
  sd_now : Z;                        (* the clock skew test *)
  sd_nonceNow : Z;                   (* the test of the nonce cache *)
  sd_nonceStored : Z;                (* the entry of the nonce cache *)
  sd_rnd : Z → option (list byte);
  sd_salt : Z → option (list byte);
  sd_nonce : Z → option (list byte);
  sd_helloRnd : Z → option (list byte);
  sd_privateKey : Z → option (list byte);
  sd_rnd1 : Z → option (list byte);
  sd_rnd2 : Z → option (list byte);
  sd_rnd3 : Z → option (list byte);
  sd_rnd4 : Z → option (list byte)
}.

(** The checks of [handleClientHello], which change nothing: the header, the
    payload and the client's key, or nothing for a message of another type. *)
Definition checkClientHello (s : Server) (d : serverDraws) (data : list byte)
  : result (option (Codec.Header * Codec.Payload * list byte)) :=
  header ← Codec.DecodeMessageHeader zeroCodec data;
  if bool_decide (Codec.TargetId header = EmptyString)
     && bool_decide (Codec.Type_ header = Codec.MessageTypeClientHello)
  then
    let id := Codec.SourceId header in
    _ ← guard_err (negb (len (Codec.HandshakeNonce header) =? Handshake.HandshakeNonceSize))
          "invalid client hello nonce";
    _ ← guard_err (negb (isClientIdValid id)) "rejected due to server restrictions";
    key ← KeyProvider (options s) id;
    _ ← Handshake.ValidateClientCredentials id key;
    handshakeKey ← Handshake.DeriveClientHelloKey key (roomId s) id (serverId s)
                     (Codec.HandshakeNonce header);
    handshakeCodec ← Codec.NewCodec (EncryptionType (options s)) handshakeKey
                       (EncryptionAAD (options s)) (sd_rnd d);
    message ← Codec.DecodeMessage handshakeCodec data;
    '(_, p) ← parts message;
    _ ← guard_err (negb (bool_decide (Codec.HandshakeRoomID p = roomId s))
                   || negb (bool_decide (Codec.HandshakeClientID p = id)))
          "client proof is not bound to room and client identity";
    _ ← guard_err (negb (x_newPublicKey (Codec.ClientEphemeralKey p)))
          "invalid client X25519 public key";
    _ ← guard_err (negb (len (Codec.ClientNonce p) =? Handshake.HandshakeNonceSize))
          "received invalid nonce";
    _ ← guard_err (negb (bool_decide (Codec.HandshakeNonce header = Codec.ClientNonce p)))
          "client hello nonce does not match authenticated payload";
    timestamp ← some_or (parseTime (Codec.Timestamp p)) "invalid timestamp";
    let delta := timeSub (sd_now d) timestamp in
    _ ← guard_err ((ClockSkew (options s) <? delta) || (delta <? - ClockSkew (options s)))
          "timestamp is outside allowed clock skew";
    Ok (Some (header, p, key))
  else Ok None.

(** The session a hello is answered with. *)
Definition newSession (s : Server) (d : serverDraws) (id : string) (key nonce ephemeral : list byte)
  : result Connection :=
  sessionSalt ← createRandomHandshakeValue (sd_salt d);
  serverNonce ← createRandomHandshakeValue (sd_nonce d);
  serverHelloKey ← Handshake.DeriveServerHelloKey key (roomId s) id (serverId s) nonce serverNonce;
  serverHelloCodec ← Codec.NewCodec (EncryptionType (options s)) serverHelloKey
                       (EncryptionAAD (options s)) (sd_helloRnd d);
  serverPrivateKey ← some_or (x_generateKey (sd_privateKey d)) "random source failed";
  let serverPublicKey := x_public serverPrivateKey in
  sharedSecret ← some_or (x_ecdh serverPrivateKey ephemeral) "invalid client X25519 public key";
  sessionKey ← Handshake.DeriveSessionKey key sharedSecret sessionSalt (roomId s) id (serverId s)
                 nonce serverNonce ephemeral serverPublicKey;
  codec ← Channel.NewSignalingChannel (EncryptionType (options s)) sessionKey
            (EncryptionAAD (options s)) Channel.DataRoleServer (sd_rnd1 d) (sd_rnd2 d);
  dataChannel ← Channel.NewDataChannel (EncryptionType (options s)) sessionKey
                  (EncryptionAAD (options s)) Channel.DataRoleServer (sd_rnd3 d) (sd_rnd4 d);
  Ok (mkConnection id codec serverHelloCodec sessionSalt nonce serverNonce ephemeral serverPublicKey
        None (Some dataChannel) 0 false false None EmptyString 0 None
        (Buffer.NewRecvBufferWithLimit (ReceiveBufferSize (options s))) 0 Replay.zeroWindow
        true true false false).

(** The outer [None] is a panic, the inner one the nil connection. *)
Definition handleClientHello (s : Server) (d : serverDraws) (data : list byte)
  : option (Server * result (option nat)) :=
  match checkClientHello s d data with
  | Err e => Some (s, Err e)
  | Ok None => Some (s, Ok None)
  | Ok (Some (header, p, key)) =>
      let id := Codec.SourceId header in
      let existing := connections s !! id in
      '(s, reuse) ← prepareClientHello s (sd_nonceNow d) (sd_nonceStored d) existing
                      (Codec.ClientNonce p) (Codec.ClientEphemeralKey p);
      match reuse with
      | Err _ => Some (s, Err "received replayed nonce")
      | Ok true => Some (s, Ok existing)
      | Ok false =>
          if match OnNewClientJoin (options s) with
             | Some join => negb (join (connections s) id)
             | None => false
             end
          then Some (s, Err "rejected due to server policy")
          else
            let '(s, reserved) := reserveConnection s in
            if negb reserved
            then Some (s, Err "server connection or pending-handshake limit reached")
            else match newSession s d id key (Codec.ClientNonce p) (Codec.ClientEphemeralKey p) with
                 | Err e => Some (s <| pendingHandshakes ::= (λ n, n - 1) |>
                                    <| totalConnections ::= (λ n, n - 1) |>, Err e)
                 | Ok conn =>
                     let i := fresh (dom (conns s)) in
                     Some (s <| conns ::= <[i := conn]> |>, Ok (Some i))
                 end
      end
  end.

Definition serverHelloMessage (s : Server) (c : Connection) (signature : list byte) : Codec.Message :=
  Codec.mkMessage
    (Some (plainHeader Codec.MessageTypeServerHello (serverId s) (sourceId c) (serverNonce c)))
    (Some (Codec.mkPayload None None (sessionSalt c) (clientNonce c) (serverNonce c)
             (clientEphemeralKey c) (serverEphemeralKey c) signature EmptyString EmptyString []
             (Name <$> Transports (options s)) EmptyString EmptyString EmptyString [] None))
    false.

(** The message it publishes, or the error; [publish] is the signaling server. *)
Definition sendServerHello (s : Server) (i : nat) (publish : list byte → bool)
  : Server * result (list byte) :=
  match conns s !! i with
  | None => (s, Err "client session is nil")
  | Some c =>
      match Handshake.SignServerHello (IdentityKey (options s)) (roomId s) (sourceId c) (serverId s)
              (clientNonce c) (serverNonce c) (clientEphemeralKey c) (serverEphemeralKey c)
              (sessionSalt c) with
      | Err e => (s, Err e)
      | Ok signature =>
          let '(hc, _, encoded) :=
            Codec.EncodeMessage (handshakeCodec c) (Some (serverHelloMessage s c signature)) in
          let s := updateConn s i (λ c, c <| handshakeCodec := hc |>) in
          match encoded with
          | Err e => (s, Err e)
          | Ok dataBytes =>
              if publish dataBytes then (s, Ok dataBytes) else (s, Err "publish failed")
          end
      end
  end.

(** *** listen.go: the callback of hello messages

    [allow] is the verdict of the rate limiter; the published answer is part of
    the result. *)
Definition onHello (s : Server) (allow : bool) (d : serverDraws) (publish : list byte → bool)
    (data : list byte) : option (Server * option (list byte)) :=
  if negb allow then Some (s, None)
  else
    '(s, r) ← handleClientHello s d data;
    match r with
    | Ok (Some i) =>
        let '(s, ok) := setConnection s i in
        if negb ok then s ← Connection_Close s i; Some (s, None)
        else
          let s := startHandshakeTimer s i in
          let '(s, sent) := sendServerHello s i publish in
          match sent with
          | Ok answer => Some (s, Some answer)
          | Err _ => s ← Connection_Close s i; Some (s, None)
          end
    | _ => Some (s, None)
    end.

End Hello.
End Hello.
