(* ===== verification/HelloProofs.v ===== *)
(** * HelloProofs.v: what the handshake of Hello.v guarantees

    [handshake_completes] runs the three messages from one end to the other;
    [handshake_authenticated] starts from what the client accepts, whatever the
    network delivered. *)

From S2P Require Import Prelude GoFloat Replay Buffer Encryption Handshake Codec Channel Hello.
From Stdlib Require Import ZArith Lia String.
From stdpp Require Import base list option strings numbers gmap.

Local Open Scope Z_scope.
Local Open Scope go_scope.

(** encoding/gob transmits structs of strings, integers and byte slices; nil
    pointers, maps and interfaces are left out of the stream. *)
Class GobPlain `{WebRTC} (GH : Gob Codec.Header) (GP : Gob Codec.Payload) : Prop := {
  gob_header_laws :: GobLaws GH;
  gob_payload_laws :: GobLaws GP;
  gob_plain_header (h : Codec.Header) : Codec.Metadata h = ∅ → in_u64 (Codec.Sequence h) →
    gob_stable h ∧ (gob_encode h).2 = true;
  gob_plain_payload (p : Codec.Payload) :
    Codec.SDP p = None → Codec.ICE p = None → Codec.Data p = None →
    gob_stable p ∧ (gob_encode p).2 = true
}.

Module HelloProofs.
Import Hello.
Section HelloProofs.
Context `{C : !Crypto} `{S : !Signatures} `{K : !KeyExchange} `{T : !TimeFormat} `{R : !LRU}.
Context `{W : !WebRTC}.
Context `{GH : !Gob Codec.Header} `{GP : !Gob Codec.Payload} `{GC : !Gob (list (list byte))}.
Context `{L : !CryptoLaws C} `{KL : !KeyExchangeLaws K}.

(** A random source that does not fail. *)
Definition source (rnd : Z → option (list byte)) : Prop :=
  Encryption.entropy rnd ∧ ∀ n, 0 ≤ n → is_Some (rnd n).

Lemma some_or_ok {A} (o : option A) e a : some_or o e = Ok a ↔ o = Some a.
Proof. destruct o; simpl; split; congruence. Qed.

Lemma source_draw rnd n : source rnd → 0 ≤ n → ∃ l, rnd n = Some l ∧ len l = n.
Proof. intros [He Hs] Hn. destruct (Hs n Hn) as [l Hl]. eauto. Qed.

Lemma NewCodec_total a k aad rnd :
  len aad ≤ 64 → source rnd → ∃ e, Codec.NewCodec (algorithmName a) k aad rnd = Ok e.
Proof.
  intros Ha [_ Hs]. unfold Codec.NewCodec. rewrite (proj2 (Z.ltb_ge _ _)) by done.
  rewrite Codec.createEncryptKit_name.
  pose proof (Encryption.newEncryption_total a k rnd Hs) as H.
  destruct (Encryption.newEncryption a k rnd); [cbn; eauto|done].
Qed.

Lemma guard_pass {A} b e (f : unit → result A) : b = false → guard_err b e ≫= f = f ().
Proof. by intros ->. Qed.

Lemma bool_decide_refl {A} `{EqDecision A} (x : A) : bool_decide (x = x) = true.
Proof. by apply bool_decide_eq_true. Qed.

(** [pass] discharges the guard in front by computation, the hypotheses and
    arithmetic. *)
Ltac pass :=
  rewrite guard_pass by
    (cbn; rewrite ?bool_decide_refl;
     repeat match goal with H : len ?l = _ |- context [len ?l] => rewrite H end; reflexivity).

(** ** Plain headers need no key *)

Lemma plain_header f g data m h :
  Codec.DecodeMessage f data = Ok m → Codec.MEncrypt m = false → Codec.MHeader m = Some h →
  Codec.DecodeMessageHeader g data = Ok h.
Proof.
  unfold Codec.DecodeMessage, Codec.DecodeMessageHeader.
  destruct (Codec.decodeChunks data) as [[[hb pb] enc]|]; [|done]. cbn [mbind result_bind].
  unfold Codec.decodeHeaderBytes. destruct enc.
  { destruct (Codec.decodeWithDecryption _ _ _ _ _); [|done]. cbn [mbind result_bind].
    destruct (Codec.Header_Unmarshal _); [|done]. cbn [mbind result_bind].
    destruct (Codec.decodeWithDecryption _ _ _ _ _); [|done]. cbn [mbind result_bind].
    destruct (Codec.Payload_Unmarshal _); [|done]. by intros [= <-]. }
  cbn [mbind result_bind]. destruct (Codec.Header_Unmarshal _); [|done]. cbn [mbind result_bind].
  destruct (Codec.decodeWithDecryption _ _ _ _ _); [|done]. cbn [mbind result_bind].
  destruct (Codec.Payload_Unmarshal _); [|done]. cbn. by intros [= <-] _ [= ->].
Qed.

Context `{GL : !GobPlain GH GP} `{GCL : !GobChunks GC}.

(** One plain message between codecs of the same key. *)
Lemma hello_transfer a k aad rnd rnd' e f h p :
  Encryption.entropy rnd → Encryption.entropy rnd' →
  Codec.NewCodec (algorithmName a) k aad rnd = Ok e →
  Codec.NewCodec (algorithmName a) k aad rnd' = Ok f →
  Codec.Metadata h = ∅ → in_u64 (Codec.Sequence h) →
  Codec.SDP p = None → Codec.ICE p = None → Codec.Data p = None →
  let m := Codec.mkMessage (Some h) (Some p) false in
  ∃ e' data, Codec.EncodeMessage e (Some m) = (e', Some m, Ok data) ∧
    (len data ≤ Codec.maxSignalingPacketSize →
     Codec.DecodeMessage f data = Ok m ∧ Codec.DecodeMessageHeader zeroCodec data = Ok h).
Proof.
  intros Hr Hr' He Hf Hm Hs H1 H2 H3 m.
  apply Channel.NewCodec_keyed in He as [He Hn]; [|done].
  apply Channel.NewCodec_keyed in Hf as [Hf _]; [|done].
  pose proof (Channel.keyed_same _ _ _ _ _ He Hf) as Hsame.
  destruct He as (? & ke & [= <-] & He & _). destruct Hf as (? & kf & [= <-] & Hf & _).
  destruct (gob_plain_header h Hm Hs) as [? ?]. destruct (gob_plain_payload p H1 H2 H3) as [? ?].
  destruct (Codec.message_encode_decode e f ke kf m He Hf Hsame) as (e' & data & Henc & Hdec);
    try done; [rewrite Hn; unfold MaxUint64; lia|].
  exists e', data. split; [done|]. intros [Hd _]%Hdec. split; [done|].
  by apply (plain_header f _ data m).
Qed.

(** ** Both ends are configured for each other *)

Context `{SL : !SignatureLaws S} `{TL : !TimeFormatLaws T}.

Record configured (a : algorithm) (c : Client) (s : Server) : Prop := {
  cf_room : c_roomId c = roomId s;
  cf_room_named : 0 < slen (roomId s);
  cf_credentials : Handshake.credentials_valid (clientId c) (Handshake.Key (psk c));
  cf_key : KeyProvider (options s) (clientId c) = Ok (Handshake.Key (psk c));
  cf_pinned : Handshake.ServerPublicKey (psk c) = ed_public (IdentityKey (options s));
  cf_identity : len (IdentityKey (options s)) = 64;
  cf_canonical : ed_newKeyFromSeed (take 32 (IdentityKey (options s))) = IdentityKey (options s);
  cf_serverId : Handshake.ServerIDFromPublicKey (Some (ed_public (IdentityKey (options s))))
                  = Ok (serverId s);
  cf_clientType : c_encryptionType c = algorithmName a;
  cf_serverType : EncryptionType (options s) = algorithmName a;
  cf_aad : c_encryptionAAD c = EncryptionAAD (options s);
  cf_aad_len : len (EncryptionAAD (options s)) ≤ 64
}.

Lemma ServerID_named pk id : Handshake.ServerIDFromPublicKey (Some pk) = Ok id → 0 < slen id.
Proof.
  unfold Handshake.ServerIDFromPublicKey. case_if as E; [done|]. intros [= <-].
  unfold slen, bytes_of. rewrite String.list_byte_of_string_of_list_byte.
  pose proof (sha256_len pk) as Hl. destruct (sha256 pk) as [|x l]; [done|].
  unfold Handshake.hexEncode. rewrite bind_cons. cbn [app]. rewrite len_cons.
  pose proof (len_nonneg (Handshake.hexDigit (Z.land (byte_val x) 15) :: (l ≫= λ b,
    [Handshake.hexDigit (Z.shiftr (byte_val b) 4); Handshake.hexDigit (Z.land (byte_val b) 15)]))).
  lia.
Qed.

Lemma configured_identified a c s :
  configured a c s →
  Handshake.identified (Handshake.Key (psk c)) (roomId s) (clientId c) (serverId s).
Proof. intros []. split_and!; [done..|by eapply ServerID_named]. Qed.

(** The messages of the handshake. *)
Definition helloPayload (room id : string) (nonce public timestamp : list byte) : Codec.Payload :=
  Codec.mkPayload None None [] nonce [] public [] [] room id timestamp [] EmptyString EmptyString
    EmptyString [] None.

(** The client's hello passes the server's checks. *)
Lemma client_hello_accepted a c s now d sd :
  configured a c s → source (cd_nonce d) → source (cd_privateKey d) → source (cd_rnd d) →
  source (sd_rnd sd) → - ClockSkew (options s) ≤ timeSub (sd_now sd) now ≤ ClockSkew (options s) →
  ∃ nonce private data,
    buildClientHello c now d = Ok (mkClientHandshake nonce private (x_public private) data) ∧
    len nonce = 32 ∧ len private = 32 ∧
    (len data ≤ Codec.maxSignalingPacketSize →
     checkClientHello s sd data =
       Ok (Some (plainHeader Codec.MessageTypeClientHello (clientId c) EmptyString nonce,
                 helloPayload (roomId s) (clientId c) nonce (x_public private) (formatTime now),
                 Handshake.Key (psk c)))).
Proof.
  intros Hc Hn Hp Hr Hr' Hskew.
  destruct (source_draw _ 32 Hn) as (nonce & En & Ln); [lia|].
  destruct (source_draw _ 32 Hp) as (private & Ep & Lp); [lia|].
  destruct (Handshake.derives_ok _ _ (Handshake.client_hello_key_derives (Handshake.Key (psk c))
    (roomId s) (clientId c) (serverId s) nonce)) as (k & Ek & _);
    [split; [by eapply configured_identified|done]|].
  destruct (NewCodec_total a k (EncryptionAAD (options s)) (cd_rnd d)) as [e Ee];
    [apply Hc|done|].
  destruct (NewCodec_total a k (EncryptionAAD (options s)) (sd_rnd sd)) as [f Ef];
    [apply Hc|done|].
  destruct (hello_transfer a k _ _ _ e f
    (plainHeader Codec.MessageTypeClientHello (clientId c) EmptyString nonce)
    (helloPayload (roomId s) (clientId c) nonce (x_public private) (formatTime now))
    (proj1 Hr) (proj1 Hr') Ee Ef) as (e' & data & Henc & Hdec); try done.
  exists nonce, private, data. split_and!; try done.
  - unfold buildClientHello, x_generateKey. change Handshake.HandshakeNonceSize with 32.
    rewrite En, Ep. cbn [some_or mbind result_bind].
    rewrite (cf_pinned _ _ _ Hc), (cf_serverId _ _ _ Hc). cbn [mbind result_bind].
    rewrite (cf_room _ _ _ Hc), Ek. cbn [mbind result_bind].
    rewrite (cf_clientType _ _ _ Hc), (cf_aad _ _ _ Hc), Ee. cbn [mbind result_bind].
    unfold helloPayload in Henc. by rewrite Henc.
  - intros [Hd Hh]%Hdec. unfold checkClientHello. rewrite Hh. cbn [mbind result_bind].
    cbn [Codec.TargetId Codec.Type_ Codec.SourceId Codec.HandshakeNonce plainHeader].
    rewrite !bool_decide_refl. cbn [andb]. pass.
    pose proof (cf_credentials _ _ _ Hc) as Hcred%Handshake.ValidateClientCredentials_ok.
    pose proof Hcred as Hid. unfold Handshake.ValidateClientCredentials in Hid.
    apply bind_ok_unit in Hid as [Hid _].
    unfold isClientIdValid. rewrite Hid. pass.
    rewrite (cf_key _ _ _ Hc). cbn [mbind result_bind]. rewrite Hcred. cbn [mbind result_bind].
    rewrite Ek. cbn [mbind result_bind]. rewrite (cf_serverType _ _ _ Hc), Ef.
    cbn [mbind result_bind]. rewrite Hd. cbn [mbind result_bind parts Codec.MHeader Codec.MPayload].
    pass. rewrite guard_pass by (unfold x_newPublicKey; cbn; by rewrite x_public_len).
    pass. pass. cbn [Codec.Timestamp helloPayload]. rewrite parse_format.
    cbn [some_or mbind result_bind].
    rewrite guard_pass; [done|]. rewrite (proj2 (Z.ltb_ge _ _)), (proj2 (Z.ltb_ge _ _)) by lia. done.
Qed.

(** ** The session of the server *)

(** Both channels of one end, made from the session key [sk]. *)
Record opened (t : string) (aad sk : list byte) (role : Z) (sc : Channel.SignalingChannel)
    (dc : Channel.DataChannel) : Prop := {
  op_signaling : Channel.sreach t sk aad role sc;
  op_data : Channel.reach t sk aad role dc
}.

Record entropies (d : serverDraws) : Prop := {
  ent_salt : Encryption.entropy (sd_salt d);
  ent_nonce : Encryption.entropy (sd_nonce d);
  ent_hello : Encryption.entropy (sd_helloRnd d);
  ent_1 : Encryption.entropy (sd_rnd1 d);
  ent_2 : Encryption.entropy (sd_rnd2 d);
  ent_3 : Encryption.entropy (sd_rnd3 d);
  ent_4 : Encryption.entropy (sd_rnd4 d)
}.

(** What [newSession] puts into a connection. *)
Record session_of (s : Server) (d : serverDraws) (id : string) (key nonce ephemeral : list byte)
    (conn : Connection) (private secret sk : list byte) : Prop := {
  so_id : sourceId conn = id;
  so_nonce : clientNonce conn = nonce;
  so_ephemeral : clientEphemeralKey conn = ephemeral;
  so_private : x_generateKey (sd_privateKey d) = Some private;
  so_public : serverEphemeralKey conn = x_public private;
  so_secret : x_ecdh private ephemeral = Some secret;
  so_key : Handshake.DeriveSessionKey key secret (sessionSalt conn) (roomId s) id (serverId s) nonce
             (serverNonce conn) ephemeral (x_public private) = Ok sk;
  so_open : ∃ dc, dataChannel conn = Some dc ∧
    opened (EncryptionType (options s)) (EncryptionAAD (options s)) sk Channel.DataRoleServer
      (codec conn) dc;
  so_hello : ∃ hk, Handshake.DeriveServerHelloKey key (roomId s) id (serverId s) nonce
                     (serverNonce conn) = Ok hk ∧
    Codec.NewCodec (EncryptionType (options s)) hk (EncryptionAAD (options s)) (sd_helloRnd d)
      = Ok (handshakeCodec conn);
  so_leases : pendingLease conn = true ∧ totalLease conn = true ∧ closed conn = false ∧
              closeDone conn = false ∧ established conn = false ∧ transportConn conn = None ∧
              iceAgent conn = None ∧ selectedTransport conn = EmptyString;
  so_buffer : recvBuf conn = Buffer.NewRecvBufferWithLimit (ReceiveBufferSize (options s))
}.

Lemma newSession_inv s d id key nonce eph conn :
  entropies d → newSession s d id key nonce eph = Ok conn →
  ∃ private secret sk, session_of s d id key nonce eph conn private secret sk.
Proof.
  intros Hd. unfold newSession.
  intros (salt & Hsalt & H)%bind_ok.
  apply bind_ok in H as (sn & Hsn & H).
  apply bind_ok in H as (hk & Hhk & H).
  apply bind_ok in H as (hc & Hhc & H).
  apply bind_ok in H as (private & Hpriv%some_or_ok & H).
  apply bind_ok in H as (secret & Hsec%some_or_ok & H).
  apply bind_ok in H as (sk & Hsk & H).
  apply bind_ok in H as (sc & Hsc & H).
  apply bind_ok in H as (dc & Hdc & [= <-]).
  exists private, secret, sk. split; cbn; try done.
  - exists dc. split; [done|]. destruct Hd.
    split; [by apply (Channel.sreach_new _ _ _ _ (sd_rnd1 d) (sd_rnd2 d))
           |by apply (Channel.reach_channel _ _ _ _ (sd_rnd3 d) (sd_rnd4 d))].
  - by exists hk.
Qed.

Lemma derived_session_key k ss salt r c s cn sn ce se sk :
  Handshake.DeriveSessionKey k ss salt r c s cn sn ce se = Ok sk →
  Handshake.identified k r c s ∧ len salt = 32 ∧ len cn = 32 ∧ len sn = 32 ∧ len ss = 32 ∧
  len ce = 32 ∧ len se = 32 ∧ len sk = 32.
Proof.
  intros H%(proj1 (Handshake.session_key_derives k ss salt r c s cn sn ce se)). tauto.
Qed.

Lemma channel_keys_total sk d :
  len sk = 32 → d = 1 ∨ d = 2 →
  (∃ k, Channel.deriveSignalingKey sk d = Ok k) ∧ (∃ k, Channel.deriveDataKey sk d = Ok k).
Proof.
  intros Hk Hd. unfold Channel.deriveSignalingKey, Channel.deriveDataKey. rewrite Hk.
  destruct (Handshake.hkdf256_ok sk [] (Channel.signalingKeyInfo d) 32) as (k1 & E1 & _); [lia|].
  destruct (Handshake.hkdf256_ok sk [] (Channel.dataKeyInfo d) 32) as (k2 & E2 & _); [lia|].
  change Handshake.HandshakeKeySize with 32. rewrite E1, E2. destruct Hd as [-> | ->]; cbn; eauto.
Qed.

Lemma channels_total a sk aad role rnd1 rnd2 :
  len sk = 32 → len aad ≤ 64 → role = Channel.DataRoleClient ∨ role = Channel.DataRoleServer →
  source rnd1 → source rnd2 →
  (∃ c, Channel.NewSignalingChannel (algorithmName a) sk aad role rnd1 rnd2 = Ok c) ∧
  (∃ c, Channel.NewDataChannel (algorithmName a) sk aad role rnd1 rnd2 = Ok c).
Proof.
  intros Hk Ha Hrole H1 H2.
  destruct (channel_keys_total sk 1 Hk) as [[k1 E1] [k2 E2]]; [by left|].
  destruct (channel_keys_total sk 2 Hk) as [[k3 E3] [k4 E4]]; [by right|].
  unfold Channel.NewSignalingChannel, Channel.NewDataChannel.
  assert (Hc : ∀ k rnd, rnd = rnd1 ∨ rnd = rnd2 →
    ∃ e, Codec.NewCodec (algorithmName a) k aad rnd = Ok e)
    by (intros k rnd [-> | ->]; by apply NewCodec_total).
  destruct (Hc k1 rnd1) as [? C1]; [by left|]. destruct (Hc k1 rnd2) as [? C2]; [by right|].
  destruct (Hc k2 rnd1) as [? C3]; [by left|]. destruct (Hc k2 rnd2) as [? C4]; [by right|].
  destruct (Hc k3 rnd1) as [? C5]; [by left|]. destruct (Hc k3 rnd2) as [? C6]; [by right|].
  destruct (Hc k4 rnd1) as [? C7]; [by left|]. destruct (Hc k4 rnd2) as [? C8]; [by right|].
  destruct Hrole as [-> | ->];
    [change (Channel.signalingDirections Channel.DataRoleClient) with (Some (1, 2));
     change (Channel.dataDirections Channel.DataRoleClient) with (Some (1, 2))
    |change (Channel.signalingDirections Channel.DataRoleServer) with (Some (2, 1));
     change (Channel.dataDirections Channel.DataRoleServer) with (Some (2, 1))];
    cbv beta iota; rewrite E1, E2, E3, E4; cbn [mbind result_bind];
    rewrite ?C1, ?C3, ?C5, ?C7; cbn [mbind result_bind];
    rewrite ?C2, ?C4, ?C6, ?C8; cbn [mbind result_bind]; eauto.
Qed.

Lemma channels_opened a sk aad role rnd1 rnd2 rnd3 rnd4 :
  len sk = 32 → len aad ≤ 64 → role = Channel.DataRoleClient ∨ role = Channel.DataRoleServer →
  source rnd1 → source rnd2 → source rnd3 → source rnd4 →
  ∃ sc dc,
    Channel.NewSignalingChannel (algorithmName a) sk aad role rnd1 rnd2 = Ok sc ∧
    Channel.NewDataChannel (algorithmName a) sk aad role rnd3 rnd4 = Ok dc ∧
    opened (algorithmName a) aad sk role sc dc.
Proof.
  intros Hk Ha Hr H1 H2 H3 H4.
  destruct (channels_total a sk aad role rnd1 rnd2) as [[sc Hsc] _]; [done..|].
  destruct (channels_total a sk aad role rnd3 rnd4) as [_ [dc Hdc]]; [done..|].
  exists sc, dc. split_and!; try done.
  split; [apply (Channel.sreach_new _ _ _ _ rnd1 rnd2)|apply (Channel.reach_channel _ _ _ _ rnd3 rnd4)];
    unfold source in *; tauto.
Qed.

Record sources (d : serverDraws) : Prop := {
  src_rnd : source (sd_rnd d);
  src_salt : source (sd_salt d);
  src_nonce : source (sd_nonce d);
  src_hello : source (sd_helloRnd d);
  src_private : source (sd_privateKey d);
  src_1 : source (sd_rnd1 d);
  src_2 : source (sd_rnd2 d);
  src_3 : source (sd_rnd3 d);
  src_4 : source (sd_rnd4 d)
}.

Lemma sources_entropies d : sources d → entropies d.
Proof. intros []. split; unfold source in *; tauto. Qed.

Lemma newSession_total a c s d nonce priv :
  configured a c s → sources d → len nonce = 32 → len priv = 32 →
  ∃ conn, newSession s d (clientId c) (Handshake.Key (psk c)) nonce (x_public priv) = Ok conn.
Proof.
  intros Hc [] Hn Hp. unfold newSession, createRandomHandshakeValue, x_generateKey.
  change Handshake.HandshakeNonceSize with 32.
  destruct (source_draw (sd_salt d) 32) as (salt & -> & ?); [done|lia|].
  destruct (source_draw (sd_nonce d) 32) as (sn & -> & ?); [done|lia|].
  destruct (source_draw (sd_privateKey d) 32) as (private & -> & ?); [done|lia|].
  cbn [some_or mbind result_bind].
  pose proof (configured_identified _ _ _ Hc) as Hid.
  destruct (Handshake.derives_ok _ _ (Handshake.server_hello_key_derives (Handshake.Key (psk c))
    (roomId s) (clientId c) (serverId s) nonce sn)) as (hk & -> & _); [done|].
  cbn [mbind result_bind]. rewrite (cf_serverType _ _ _ Hc).
  destruct (NewCodec_total a hk _ (sd_helloRnd d) (cf_aad_len _ _ _ Hc)) as [hc ->]; [done|].
  cbn [mbind result_bind].
  destruct (x_ecdh_honest private priv) as [secret Hs]; [done..|]. rewrite Hs.
  cbn [some_or mbind result_bind]. pose proof (x_ecdh_len _ _ _ Hs).
  destruct (Handshake.derives_ok _ _ (Handshake.session_key_derives (Handshake.Key (psk c)) secret
    salt (roomId s) (clientId c) (serverId s) nonce sn (x_public priv) (x_public private)))
    as (sk & -> & Hsk); [split_and!; auto using x_public_len|].
  cbn [mbind result_bind].
  destruct (channels_opened a sk (EncryptionAAD (options s)) Channel.DataRoleServer (sd_rnd1 d)
    (sd_rnd2 d) (sd_rnd3 d) (sd_rnd4 d)) as (sc & dc & -> & -> & _);
    [done|apply Hc|by right|done..|]. cbn [mbind result_bind]. eauto.
Qed.

(** The random sources of [handleServerHello]. *)
Record answer_sources (rnd rnd1 rnd2 rnd3 rnd4 : Z → option (list byte)) : Prop := {
  as_rnd : source rnd;
  as_1 : source rnd1;
  as_2 : source rnd2;
  as_3 : source rnd3;
  as_4 : source rnd4
}.

Lemma session_transcript_valid s d id key nonce eph conn private secret sk :
  session_of s d id key nonce eph conn private secret sk →
  Handshake.transcript_valid (roomId s) (sourceId conn) (serverId s) (clientNonce conn)
    (serverNonce conn) (clientEphemeralKey conn) (serverEphemeralKey conn) (sessionSalt conn).
Proof.
  intros []. apply derived_session_key in so_key0 as ((Hcred & ? & ?) & ? & ? & ? & _ & ? & ? & _).
  unfold Handshake.transcript_valid. destruct Hcred as [? _].
  rewrite so_id0, so_nonce0, so_ephemeral0, so_public0. split_and!; done || lia.
Qed.

Lemma session_signed a c s d nonce priv conn private secret sk :
  configured a c s →
  session_of s d (clientId c) (Handshake.Key (psk c)) nonce (x_public priv) conn private secret sk →
  ∃ sig, Handshake.SignServerHello (IdentityKey (options s)) (roomId s) (sourceId conn) (serverId s)
    (clientNonce conn) (serverNonce conn) (clientEphemeralKey conn) (serverEphemeralKey conn)
    (sessionSalt conn) = Ok sig.
Proof.
  intros Hc Hso. eexists. apply Handshake.SignServerHello_ok.
  split_and!; [apply Hc|apply Hc|by eapply session_transcript_valid|done].
Qed.

(** The server's answer passes the client's checks. *)
Lemma answer_accepted a c s d nonce priv msg conn private secret sk sig f hello
    rnd rnd1 rnd2 rnd3 rnd4 sc dc hk :
  configured a c s →
  session_of s d (clientId c) (Handshake.Key (psk c)) nonce (x_public priv) conn private secret sk →
  Handshake.SignServerHello (IdentityKey (options s)) (roomId s) (sourceId conn) (serverId s)
    (clientNonce conn) (serverNonce conn) (clientEphemeralKey conn) (serverEphemeralKey conn)
    (sessionSalt conn) = Ok sig →
  Handshake.DeriveServerHelloKey (Handshake.Key (psk c)) (roomId s) (clientId c) (serverId s) nonce
    (serverNonce conn) = Ok hk →
  Codec.NewCodec (algorithmName a) hk (EncryptionAAD (options s)) rnd = Ok f →
  Codec.DecodeMessage f hello = Ok (serverHelloMessage s conn sig) →
  Codec.DecodeMessageHeader zeroCodec hello =
    Ok (plainHeader Codec.MessageTypeServerHello (serverId s) (sourceId conn) (serverNonce conn)) →
  Channel.NewSignalingChannel (algorithmName a) sk (EncryptionAAD (options s))
    Channel.DataRoleClient rnd1 rnd2 = Ok sc →
  Channel.NewDataChannel (algorithmName a) sk (EncryptionAAD (options s))
    Channel.DataRoleClient rnd3 rnd4 = Ok dc →
  handleServerHello c hello (mkClientHandshake nonce priv (x_public priv) msg)
    rnd rnd1 rnd2 rnd3 rnd4
  = Ok (mkServerHandshake (serverId s) sc dc (Name <$> Transports (options s))).
Proof.
  intros Hc Hso Hsig Hhk Hf Hm Hh Hsc Hdc.
  destruct Hso as [Hid Hcn Hce _ Hse Hsec Hsk _ _ _ _].
  apply Handshake.signed_verifies in Hsig.
  apply derived_session_key in Hsk as Hlen. destruct Hlen as ((_ & _ & Hnamed) & Ls & Ln & Lsn & _).
  unfold handleServerHello. rewrite Hh. cbn [mbind result_bind].
  rewrite (cf_pinned _ _ _ Hc), (cf_serverId _ _ _ Hc). cbn [mbind result_bind].
  cbn [Codec.TargetId Codec.Type_ Codec.SourceId Codec.HandshakeNonce plainHeader].
  rewrite Hid in *. pass. pass.
  cbn [ch_nonce]. rewrite (cf_room _ _ _ Hc), Hhk. cbn [mbind result_bind].
  rewrite (cf_clientType _ _ _ Hc), (cf_aad _ _ _ Hc), Hf. cbn [mbind result_bind].
  rewrite Hm. cbn [mbind result_bind parts Codec.MHeader Codec.MPayload serverHelloMessage].
  rewrite guard_pass.
  2:{ cbn. rewrite Hid, !bool_decide_refl.
      destruct (serverId s); [by unfold slen in Hnamed; cbn in Hnamed|done]. }
  pass. pass. pass. rewrite guard_pass by (cbn; by rewrite Hcn, bool_decide_refl).
  rewrite guard_pass by (cbn; by rewrite Hce, bool_decide_refl).
  rewrite guard_pass by (cbn; by rewrite Hsig).
  rewrite guard_pass by (unfold x_newPublicKey; cbn; by rewrite Hse, x_public_len).
  cbn [ch_privateKey ch_publicKey Codec.ServerEphemeralKey]. rewrite Hse, x_ecdh_comm, Hsec.
  cbn [some_or mbind result_bind Codec.SessionSalt Codec.SourceId plainHeader Codec.ServerNonce].
  rewrite Hsk. cbn [mbind result_bind]. rewrite Hsc. cbn [mbind result_bind]. by rewrite Hdc.
Qed.

(** The server's answer is signed, encoded, and accepted by the client, and both
    ends hold channels of the same session key. *)
Lemma server_hello_accepted a c s d nonce priv msg conn private secret sk rnd rnd1 rnd2 rnd3 rnd4 :
  configured a c s → sources d → answer_sources rnd rnd1 rnd2 rnd3 rnd4 → len nonce = 32 →
  session_of s d (clientId c) (Handshake.Key (psk c)) nonce (x_public priv) conn private secret sk →
  ∃ sig hc hello,
    Handshake.SignServerHello (IdentityKey (options s)) (roomId s) (sourceId conn) (serverId s)
      (clientNonce conn) (serverNonce conn) (clientEphemeralKey conn) (serverEphemeralKey conn)
      (sessionSalt conn) = Ok sig ∧
    Codec.EncodeMessage (handshakeCodec conn) (Some (serverHelloMessage s conn sig))
      = (hc, Some (serverHelloMessage s conn sig), Ok hello) ∧
    (len hello ≤ Codec.maxSignalingPacketSize →
     ∃ sh, handleServerHello c hello (mkClientHandshake nonce priv (x_public priv) msg)
             rnd rnd1 rnd2 rnd3 rnd4 = Ok sh ∧
       sh_serverID sh = serverId s ∧ sh_transports sh = Name <$> Transports (options s) ∧
       opened (algorithmName a) (EncryptionAAD (options s)) sk Channel.DataRoleClient
         (sh_codec sh) (sh_dataChannel sh)).
Proof.
  intros Hc Hd [] Hn Hso. destruct (session_signed _ _ _ _ _ _ _ _ _ _ Hc Hso) as [sig Hsig].
  pose proof Hso as [_ _ _ _ _ _ Hsk _ (hk & Hhk & Hhc) _ _].
  rewrite (cf_serverType _ _ _ Hc) in Hhc.
  destruct (NewCodec_total a hk (EncryptionAAD (options s)) rnd (cf_aad_len _ _ _ Hc)) as [f Hf]; [done|].
  destruct (hello_transfer a hk _ _ _ (handshakeCodec conn) f
    (plainHeader Codec.MessageTypeServerHello (serverId s) (sourceId conn) (serverNonce conn))
    (default Codec.emptyPayload (Codec.MPayload (serverHelloMessage s conn sig)))
    (proj1 (src_hello _ Hd)) (proj1 as_rnd0) Hhc Hf) as (hc & hello & Henc & Hdec); try done.
  exists sig, hc, hello. split_and!; [done..|]. intros [Hm Hh]%Hdec.
  destruct (channels_opened a sk (EncryptionAAD (options s)) Channel.DataRoleClient rnd1 rnd2 rnd3 rnd4)
    as (sc & dc & Hsc & Hdc & Hop); [by eapply derived_session_key|apply Hc|by left|done..|].
  eexists. split; [by eapply answer_accepted|done].
Qed.

(** ** The callback of the server *)

Context `{RL : !LRULaws R}.

Lemma isNonceAvailable_fresh s now now' nonce :
  lru_view (nonceCache s) !! nonceKey nonce = None →
  ∃ cache, isNonceAvailable s now now' nonce = (s <| nonceCache := cache |>, true).
Proof.
  intros H. unfold isNonceAvailable. pose proof (lru_get_value (nonceCache s) (nonceKey nonce)) as Hg.
  destruct (lru_get (nonceCache s) (nonceKey nonce)) as [cache hit]. cbn in Hg. subst hit.
  rewrite H. cbn. eauto.
Qed.

(** There is room for one more connection, and the policy lets the client in. *)
Record admits (s : Server) (id : string) : Prop := {
  ad_open : serverClosed s = false;
  ad_new : connections s !! id = None;
  ad_total : totalConnections s < MaxConnections (options s);
  ad_pending : pendingHandshakes s < MaxPendingHandshakes (options s);
  ad_join : ∀ join, OnNewClientJoin (options s) = Some join → join (connections s) id = true
}.

Lemma reserveConnection_room s :
  totalConnections s < MaxConnections (options s) →
  pendingHandshakes s < MaxPendingHandshakes (options s) →
  reserveConnection s = (s <| totalConnections ::= (λ n, n + 1) |>
                           <| pendingHandshakes ::= (λ n, n + 1) |>, true).
Proof.
  intros H1 H2. unfold reserveConnection, reserveCounter, counterUpdate.
  rewrite (proj2 (Z.leb_gt _ _)) by done. cbn. by rewrite (proj2 (Z.leb_gt _ _)) by done.
Qed.

(** A hello that passes the checks, from a client the server admits. *)
Lemma handleClientHello_new s d data h p key conn :
  checkClientHello s d data = Ok (Some (h, p, key)) → admits s (Codec.SourceId h) →
  lru_view (nonceCache s) !! nonceKey (Codec.ClientNonce p) = None →
  newSession s d (Codec.SourceId h) key (Codec.ClientNonce p) (Codec.ClientEphemeralKey p) = Ok conn →
  ∃ s', handleClientHello s d data = Some (s', Ok (Some (fresh (dom (conns s))))) ∧
    conns s' = <[fresh (dom (conns s)) := conn]> (conns s) ∧
    serverClosed s' = false ∧ options s' = options s ∧ roomId s' = roomId s ∧
    serverId s' = serverId s.
Proof.
  intros Hcheck [] Hfresh Hs. unfold handleClientHello. rewrite Hcheck, ad_new0.
  unfold prepareClientHello. cbn [mbind option_bind].
  destruct (isNonceAvailable_fresh s (sd_nonceNow d) (sd_nonceStored d) _ Hfresh) as [cache ->].
  cbn [negb mbind option_bind]. cbn [options connections update].
  assert (match OnNewClientJoin (options s) with
          | Some join => negb (join (connections s) (Codec.SourceId h)) | None => false end = false) as ->.
  { destruct (OnNewClientJoin (options s)) as [join|] eqn:Ej; [|done]. by rewrite ad_join0. }
  rewrite reserveConnection_room by done. cbn [negb].
  change (newSession _ d (Codec.SourceId h) key _ _) with
    (newSession s d (Codec.SourceId h) key (Codec.ClientNonce p) (Codec.ClientEphemeralKey p)).
  rewrite Hs. eexists. split; [reflexivity|]. by split_and!.
Qed.

(** The rest of the callback: the connection becomes current and is answered. *)
Lemma onHello_answer s d publish data s1 i conn sig hc hello :
  handleClientHello s d data = Some (s1, Ok (Some i)) →
  conns s1 !! i = Some conn → closed conn = false → serverClosed s1 = false →
  Handshake.SignServerHello (IdentityKey (options s1)) (roomId s1) (sourceId conn) (serverId s1)
    (clientNonce conn) (serverNonce conn) (clientEphemeralKey conn) (serverEphemeralKey conn)
    (sessionSalt conn) = Ok sig →
  Codec.EncodeMessage (handshakeCodec conn) (Some (serverHelloMessage s1 conn sig))
    = (hc, Some (serverHelloMessage s1 conn sig), Ok hello) →
  publish hello = true →
  ∃ s' conn', onHello s true d publish data = Some (s', Some hello) ∧
    connections s' !! sourceId conn = Some i ∧ conns s' !! i = Some conn' ∧
    codec conn' = codec conn ∧ dataChannel conn' = dataChannel conn ∧
    clientNonce conn' = clientNonce conn ∧ pendingLease conn' = pendingLease conn.
Proof.
  intros Hh Hi Hcl Hsc Hsig Henc Hp. unfold onHello. rewrite Hh. cbn [negb mbind option_bind].
  unfold setConnection. rewrite Hsc, Hi, Hcl. cbn [negb].
  unfold sendServerHello, startHandshakeTimer, updateConn. cbn [conns update].
  rewrite lookup_alter, decide_True, Hi by done. cbn [fmap option_fmap option_map].
  rewrite Hcl. destruct (handshakeTimer conn) eqn:Et; cbn [negb andb];
    cbn [sourceId clientNonce serverNonce clientEphemeralKey serverEphemeralKey sessionSalt
         handshakeCodec options roomId serverId update]; rewrite Hsig.
  - unfold serverHelloMessage in *. cbn [serverId options update] in *.
    rewrite Henc, Hp. eexists _, _. split; [reflexivity|].
    cbn. rewrite lookup_insert_eq, lookup_alter, decide_True, lookup_alter, decide_True, Hi by done.
    cbn. rewrite Et. by split_and!.
  - unfold serverHelloMessage in *.
    cbn [serverId options update sourceId serverNonce sessionSalt clientNonce clientEphemeralKey
         serverEphemeralKey] in *.
    rewrite Henc, Hp. eexists _, _. split; [reflexivity|].
    cbn. rewrite lookup_insert_eq, lookup_alter, decide_True, lookup_alter, decide_True, Hi by done.
    cbn. rewrite Et, Hcl. by split_and!.
Qed.

(** C7: the handshake works.  A client and a server that are configured for each
    other (the pinned key belongs to the server's identity, both know the
    pre-shared key, same room, algorithm and additional data): the client's hello
    can be built; the server, if it admits the client, its clock agrees within the
    allowed skew and the nonce is new, makes a connection the current one of the
    client and publishes an answer; the client accepts the answer, learns the
    server's identity and transports, and the signaling and data channels of the
    two ends are made from the same session key in opposite roles. *)
Theorem handshake_completes (a : algorithm) (c : Client) (s : Server) (now : Z) (d : clientDraws)
    (sd : serverDraws) (rnd rnd1 rnd2 rnd3 rnd4 : Z → option (list byte))
    (publish : list byte → bool) :
  configured a c s → sources sd → answer_sources rnd rnd1 rnd2 rnd3 rnd4 →
  source (cd_nonce d) → source (cd_privateKey d) → source (cd_rnd d) →
  - ClockSkew (options s) ≤ timeSub (sd_now sd) now ≤ ClockSkew (options s) →
  admits s (clientId c) → (∀ m, publish m = true) →
  ∃ attempt, buildClientHello c now d = Ok attempt ∧
  (len (ch_message attempt) ≤ Codec.maxSignalingPacketSize →
   lru_view (nonceCache s) !! nonceKey (ch_nonce attempt) = None →
   ∃ s' i conn dc sk hello,
     onHello s true sd publish (ch_message attempt) = Some (s', Some hello) ∧
     connections s' !! clientId c = Some i ∧ conns s' !! i = Some conn ∧
     dataChannel conn = Some dc ∧
     opened (algorithmName a) (EncryptionAAD (options s)) sk Channel.DataRoleServer (codec conn) dc ∧
     (len hello ≤ Codec.maxSignalingPacketSize →
      ∃ sh, handleServerHello c hello attempt rnd rnd1 rnd2 rnd3 rnd4 = Ok sh ∧
        sh_serverID sh = serverId s ∧ sh_transports sh = Name <$> Transports (options s) ∧
        opened (algorithmName a) (EncryptionAAD (options s)) sk Channel.DataRoleClient
          (sh_codec sh) (sh_dataChannel sh))).
Proof.
  intros Hc Hsd Has Hn Hp Hr Hskew Had Hpub.
  destruct (client_hello_accepted a c s now d sd) as (nonce & priv & msg & Hb & Ln & Lp & Hcheck);
    [done..|apply Hsd|done|].
  exists (mkClientHandshake nonce priv (x_public priv) msg). split; [done|]. cbn. intros Hlen Hfresh.
  specialize (Hcheck Hlen).
  destruct (newSession_total a c s sd nonce priv) as [conn Hconn]; [done..|].
  destruct (newSession_inv _ _ _ _ _ _ _ (sources_entropies _ Hsd) Hconn)
    as (private & secret & sk & Hso).
  destruct (handleClientHello_new _ _ _ _ _ _ conn Hcheck) as (s1 & Hh & H1 & H2 & H3 & H4 & H5);
    [done..|].
  destruct (server_hello_accepted a c s sd nonce priv msg conn private secret sk rnd rnd1 rnd2 rnd3
    rnd4) as (sig & hc & hello & Hsig & Henc & Hacc); [done..|].
  pose proof Hso as [Hid _ _ _ _ _ _ (dc & Hdc & Hop) _ (Hl1 & Hl2 & Hl3 & _) _].
  destruct (onHello_answer s sd publish msg s1 _ conn sig hc hello Hh) as
    (s' & conn' & Hon & Hcur & Hi & Hcod & Hdc' & _); try done.
  { by rewrite H1, lookup_insert_eq. }
  { by rewrite H3, H4, H5. }
  { unfold serverHelloMessage in *. by rewrite H3, H5. }
  exists s', (fresh (dom (conns s))), conn', dc, sk, hello.
  rewrite (cf_serverType _ _ _ Hc) in Hop. rewrite <- Hid.
  split_and!; congruence || done.
Qed.

(** ** What the client accepts *)

(** The answer the client accepted: its values, and what was computed from them. *)
Record accepted (c : Client) (attempt : clientHandshake) (sh : serverHandshake)
    (rnd1 rnd2 rnd3 rnd4 : Z → option (list byte)) (p : Codec.Payload) (secret sk : list byte) : Prop := {
  acc_identity : Handshake.ServerIDFromPublicKey (Some (Handshake.ServerPublicKey (psk c)))
                   = Ok (sh_serverID sh);
  acc_verified : Handshake.VerifyServerHello (Handshake.ServerPublicKey (psk c)) (c_roomId c)
    (clientId c) (sh_serverID sh) (ch_nonce attempt) (Codec.ServerNonce p) (ch_publicKey attempt)
    (Codec.ServerEphemeralKey p) (Codec.SessionSalt p) (Codec.Signature p) = true;
  acc_secret : x_ecdh (ch_privateKey attempt) (Codec.ServerEphemeralKey p) = Some secret;
  acc_key : Handshake.DeriveSessionKey (Handshake.Key (psk c)) secret (Codec.SessionSalt p)
    (c_roomId c) (clientId c) (sh_serverID sh) (ch_nonce attempt) (Codec.ServerNonce p)
    (ch_publicKey attempt) (Codec.ServerEphemeralKey p) = Ok sk;
  acc_signaling : Channel.NewSignalingChannel (c_encryptionType c) sk (c_encryptionAAD c)
    Channel.DataRoleClient rnd1 rnd2 = Ok (sh_codec sh);
  acc_data : Channel.NewDataChannel (c_encryptionType c) sk (c_encryptionAAD c)
    Channel.DataRoleClient rnd3 rnd4 = Ok (sh_dataChannel sh)
}.

Lemma handleServerHello_inv c data attempt rnd rnd1 rnd2 rnd3 rnd4 sh :
  handleServerHello c data attempt rnd rnd1 rnd2 rnd3 rnd4 = Ok sh →
  ∃ p secret sk, accepted c attempt sh rnd1 rnd2 rnd3 rnd4 p secret sk.
Proof.
  unfold handleServerHello.
  intros (header & Hh & H)%bind_ok.
  apply bind_ok in H as (sid & Hsid & H).
  apply bind_ok_unit in H as [_ H]. apply bind_ok_unit in H as [_ H].
  apply bind_ok in H as (hk & _ & H). apply bind_ok in H as (e & _ & H).
  apply bind_ok in H as (m & _ & H). apply bind_ok in H as ([h p] & _ & H).
  apply bind_ok_unit in H as [_ H].
  apply bind_ok_unit in H as [Hs H]. apply guard_ok in Hs. b2p.
  apply bind_ok_unit in H as [_ H]. apply bind_ok_unit in H as [_ H].
  apply bind_ok_unit in H as [Hn H]. apply guard_ok in Hn. b2p.
  apply bind_ok_unit in H as [Hk H]. apply guard_ok in Hk. b2p.
  apply bind_ok_unit in H as [Hv H]. apply guard_ok in Hv. b2p.
  apply bind_ok_unit in H as [_ H].
  apply bind_ok in H as (secret & Hsec%some_or_ok & H).
  apply bind_ok in H as (sk & Hsk & H).
  apply bind_ok in H as (sc & Hsc & H).
  apply bind_ok in H as (dc & Hdc & [= <-]).
  exists p, secret, sk. rewrite <- Hs, <- Hn, <- Hk in *. split; cbn; congruence || done.
Qed.

(** The values a signed transcript fixes. *)
Lemma transcript_inj r c s cn sn ce se salt r' c' s' cn' sn' ce' se' salt' :
  slen r < 2 ^ 32 → slen c < 2 ^ 32 → slen s < 2 ^ 32 →
  slen r' < 2 ^ 32 → slen c' < 2 ^ 32 → slen s' < 2 ^ 32 →
  Handshake.transcript_valid r c s cn sn ce se salt →
  Handshake.transcript_valid r' c' s' cn' sn' ce' se' salt' →
  Handshake.serverHelloTranscript r c s cn sn ce se salt =
    Handshake.serverHelloTranscript r' c' s' cn' sn' ce' se' salt' →
  r = r' ∧ c = c' ∧ s = s' ∧ cn = cn' ∧ sn = sn' ∧ ce = ce' ∧ se = se' ∧ salt = salt'.
Proof.
  intros ?????? (_ & _ & _ & ? & ? & ? & ? & ?) (_ & _ & _ & ? & ? & ? & ? & ?) Heq.
  apply Handshake.encodeHandshakeFields_inj in Heq.
  2,3: repeat constructor; unfold Handshake.short, slen in *; (done || lia).
  injection Heq as ?%bytes_of_inj ?%bytes_of_inj ?%bytes_of_inj. by split_and!.
Qed.

(** The transcript a connection is signed with. *)
Definition transcript_of (s : Server) (conn : Connection) : list byte :=
  Handshake.serverHelloTranscript (roomId s) (sourceId conn) (serverId s) (clientNonce conn)
    (serverNonce conn) (clientEphemeralKey conn) (serverEphemeralKey conn) (sessionSalt conn).

(** A connection the server made for some hello with the key of its client. *)
Definition issued (s : Server) (conn : Connection) : Prop :=
  ∃ d id key nonce ephemeral,
    entropies d ∧ KeyProvider (options s) id = Ok key ∧
    newSession s d id key nonce ephemeral = Ok conn.

Lemma issued_session s conn :
  issued s conn →
  ∃ d key private secret sk, KeyProvider (options s) (sourceId conn) = Ok key ∧
    session_of s d (sourceId conn) key (clientNonce conn) (clientEphemeralKey conn) conn
      private secret sk.
Proof.
  intros (d & id & key & nonce & eph & Hd & Hk & Hs).
  destruct (newSession_inv _ _ _ _ _ _ _ Hd Hs) as (private & secret & sk & Hso).
  pose proof Hso as [Hid Hn He _ _ _ _ _ _ _ _]. exists d, key, private, secret, sk.
  rewrite Hid, Hn, He. done.
Qed.


End HelloProofs.
(** ** Instances of the laws *)

Definition x_add (x y : byte) : byte := byte_of (byte_val x + byte_val y).

#[local] Instance x25519Example : KeyExchange := {|
  x_public a := Encryption.pad 32 a;
  x_ecdh a p := Some (zip_with x_add (Encryption.pad 32 a) (Encryption.pad 32 p))
|}.

Lemma pad_pad n l : 0 ≤ n → Encryption.pad n (Encryption.pad n l) = Encryption.pad n l.
Proof.
  intros Hn. unfold Encryption.pad at 1. apply take_app_length'.
  pose proof (Encryption.pad_len n l Hn) as H. unfold len in H. lia.
Qed.

Lemma x_add_comm l k : zip_with x_add l k = zip_with x_add k l.
Proof.
  revert k. induction l as [|x l IH]; intros [|y k]; try done. cbn. f_equal; [|apply IH].
  unfold x_add. f_equal. lia.
Qed.

Lemma x25519Example_laws : KeyExchangeLaws x25519Example.
Proof.
  split; cbn -[Encryption.pad]; intros.
  - by apply Encryption.pad_len.
  - simplify_eq. unfold len. rewrite length_zip_with.
    pose proof (Encryption.pad_len 32 a). pose proof (Encryption.pad_len 32 p). unfold len in *. lia.
  - f_equal. rewrite !pad_pad by done. apply x_add_comm.
  - eauto.
Qed.

#[local] Instance timeExample : TimeFormat := {|
  formatTime t := (if t <? 0 then Byte.x2d else Byte.x2b) :: replicate (Z.to_nat (Z.abs t)) Byte.x31;
  parseTime l := match l with
                 | [] => None
                 | s :: l => Some (if bool_decide (s = Byte.x2d) then - len l else len l)
                 end
|}.

Lemma timeExample_laws : TimeFormatLaws timeExample.
Proof.
  split. intros t. cbn. unfold len. rewrite length_replicate.
  destruct (t <? 0) eqn:E; b2p; case_bool_decide; (done || f_equal; lia).
Qed.

(** A cache that never forgets. *)
#[local] Instance lruExample : LRU := {|
  lru := gmap string Z;
  lru_new _ := ∅;
  lru_view c := c;
  lru_get c k := (c, c !! k);
  lru_add c k v := <[k := v]> c
|}.

Lemma lruExample_laws : LRULaws lruExample.
Proof.
  split; cbn; intros; try done; [by rewrite lookup_insert_eq|].
  match goal with H : _ ≠ _ |- _ => by rewrite lookup_insert_ne in * by done end.
Qed.

#[local] Existing Instance Codec.webrtcExample.
#[local] Existing Instance Codec.gobHeaderExample.
#[local] Existing Instance Codec.gobChunksExample.

Definition strings (l : list string) : list byte := Codec.putChunks (bytes_of <$> l).
Definition unstrings (l : list byte) : option (list string) :=
  match l with _ :: l => option_map (map Codec.str) (Codec.getChunks l []) | [] => None end.

Lemma str_bytes s : Codec.str (bytes_of s) = s.
Proof. apply String.string_of_list_byte_of_string. Qed.

Lemma unstrings_strings l : unstrings (strings l) = Some l.
Proof.
  unfold unstrings, strings, Codec.putChunks. rewrite Codec.getChunks_putChunks. cbn. f_equal.
  induction l as [|x l IH]; [done|]. cbn. by rewrite str_bytes, IH.
Qed.

#[local] Instance gobPayloadFull : Gob Codec.Payload := Codec.gobVia
  (λ p, [Codec.SessionSalt p; Codec.ClientNonce p; Codec.ServerNonce p; Codec.ClientEphemeralKey p;
         Codec.ServerEphemeralKey p; Codec.Signature p; bytes_of (Codec.HandshakeRoomID p);
         bytes_of (Codec.HandshakeClientID p); Codec.Timestamp p; strings (Codec.Transports p);
         bytes_of (Codec.Transport p); bytes_of (Codec.ICEUsername p); bytes_of (Codec.ICEPassword p);
         strings (Codec.ICECandidates p)])
  (λ v, match v with
        | [a; b; c; d; e; f; g; h; i; j; k; l; m; n] =>
            ts ← unstrings j; cs ← unstrings n;
            Some (Codec.mkPayload None None a b c d e f (Codec.str g) (Codec.str h) i ts
                    (Codec.str k) (Codec.str l) (Codec.str m) cs None)
        | _ => None
        end)
  (λ p, Codec.SDP p = None ∧ Codec.ICE p = None ∧ Codec.Data p = None).

Lemma gobPlainExample : GobPlain Codec.gobHeaderExample gobPayloadFull.
Proof.
  split; [exact Codec.gobHeaderExample_laws| |done|done].
  apply Codec.gobVia_laws. intros [] (H1 & H2 & H3). cbn -[bytes_of Codec.str strings unstrings] in *.
  subst. rewrite !unstrings_strings. cbn -[bytes_of Codec.str]. by rewrite !str_bytes.
Qed.

Lemma rndExample_source fill : source (Encryption.rndExample fill).
Proof.
  split; [apply Encryption.rndExample_entropy|]. intros n Hn. unfold Encryption.rndExample.
  rewrite (proj2 (Z.leb_le _ _)) by done. eauto.
Qed.

#[local] Existing Instance Encryption.cryptoExample.
#[local] Existing Instance Handshake.sigExample.

Definition demoIdentity : list byte := ed_newKeyFromSeed (Handshake.demo32 Byte.x01).

Definition demoClient : Client :=
  mkClient "alice" (Handshake.mkPSK "alice" (Handshake.demo32 Byte.x02) (ed_public demoIdentity))
    "room" "aes-256-gcm" (bytes_of "aad").

Definition demoOptions : Options :=
  mkOptions 100 300000000000 30000000000
    (λ id, if bool_decide (id = "alice"%string) then Ok (Handshake.demo32 Byte.x02) else Err "unknown")
    demoIdentity [mkTransport "quic" false 0] "aes-256-gcm" (bytes_of "aad") 1024 4096 65536 8 4096 4 2
    30000000000 5000000000 15000000000 (GoFloat.f64_of_Z 100) 200 None.

Definition demoServerId : string :=
  match Handshake.ServerIDFromPublicKey (Some (ed_public demoIdentity)) with
  | Ok id => id | Err _ => EmptyString
  end.

Definition demoServer : Server :=
  mkServer demoServerId "room" demoOptions ∅ ∅ ∅ [] false ∅ ∅ (Some (Buffer.NewByteBudget 65536)) 0 0.

Definition demoDraws : clientDraws :=
  mkClientDraws (Encryption.rndExample Byte.x61) (Encryption.rndExample Byte.x62)
    (Encryption.rndExample Byte.x63).

Definition demoServerDraws : serverDraws :=
  let r := Encryption.rndExample in
  mkServerDraws 1005 1006 1007 (r Byte.x64) (r Byte.x65) (r Byte.x66) (r Byte.x67) (r Byte.x68)
    (r Byte.x69) (r Byte.x6a) (r Byte.x6b) (r Byte.x6c).

Lemma demo_configured : configured AES_256_GCM demoClient demoServer.
Proof. split; try done; vm_compute; repeat split; discriminate || done. Qed.

Lemma demo_sources : sources demoServerDraws.
Proof. split; apply rndExample_source. Qed.

Definition demoAttempt : clientHandshake :=
  match buildClientHello demoClient 1000 demoDraws with
  | Ok a => a | Err _ => mkClientHandshake [] [] [] []
  end.

Definition demoAnswer : list byte :=
  match onHello demoServer true demoServerDraws (λ _, true) (ch_message demoAttempt) with
  | Some (_, Some hello) => hello
  | _ => []
  end.

Lemma handshake_completes_witness :
  let r := Encryption.rndExample in
  buildClientHello demoClient 1000 demoDraws = Ok demoAttempt ∧
  ∃ sh, handleServerHello demoClient demoAnswer demoAttempt (r Byte.x6d) (r Byte.x6e) (r Byte.x6f)
          (r Byte.x70) (r Byte.x71) = Ok sh ∧ sh_transports sh = ["quic"%string].
Proof.
  intros r.
  destruct (@handshake_completes _ _ _ _ _ _ _ _ _ Encryption.cryptoExample_laws x25519Example_laws
    gobPlainExample Codec.gobChunksExample_laws Handshake.sigExample_laws timeExample_laws
    lruExample_laws AES_256_GCM demoClient demoServer 1000 demoDraws demoServerDraws
    (r Byte.x6d) (r Byte.x6e) (r Byte.x6f) (r Byte.x70) (r Byte.x71) (λ _, true)
    demo_configured demo_sources) as (attempt & Hb & Hrest).
  - split; apply rndExample_source.
  - apply rndExample_source.
  - apply rndExample_source.
  - apply rndExample_source.
  - vm_compute. split; discriminate.
  - split; done.
  - done.
  - assert (attempt = demoAttempt) as -> by (unfold demoAttempt; rewrite Hb; reflexivity).
    split; [exact Hb|].
    destruct Hrest as (s' & i & conn & dc & sk & hello & Hon & _ & _ & _ & _ & Hacc);
      [vm_compute; discriminate|reflexivity|].
    assert (hello = demoAnswer) as -> by (unfold demoAnswer; rewrite Hon; reflexivity).
    destruct Hacc as (sh & Hsh & _ & Ht & _); [vm_compute; discriminate|].
    exists sh. split; [exact Hsh|exact Ht].
Defined.

(** The same exchange with a verifier that accepts one transcript only: the one
    the server signed. *)
Definition demoConn : option Connection :=
  match newSession demoServer demoServerDraws "alice" (Handshake.demo32 Byte.x02)
          (ch_nonce demoAttempt) (ch_publicKey demoAttempt) with
  | Ok c => Some c
  | Err _ => None
  end.

Definition sigOnce : Signatures := {|
  sha256 := @sha256 Handshake.sigExample;
  ed_newKeyFromSeed := @ed_newKeyFromSeed Handshake.sigExample;
  ed_public := @ed_public Handshake.sigExample;
  ed_sign := @ed_sign Handshake.sigExample;
  ed_verify pk m sig :=
    bool_decide (Some m = transcript_of demoServer <$> demoConn) &&
    @ed_verify Handshake.sigExample pk m sig
|}.

Lemma sigOnce_sound pk m sig :
  @ed_verify sigOnce pk m sig = true →
  ∃ conn, conn ∈ option_list demoConn ∧ m = transcript_of demoServer conn.
Proof.
  unfold sigOnce, ed_verify. intros [Hv _]%andb_true_iff. apply bool_decide_eq_true_1 in Hv.
  destruct demoConn as [conn|]; [|done]. exists conn. split; [left|].
  by apply (inj Some) in Hv.
Qed.

Lemma demo_issued : Forall (λ conn, issued demoServer conn ∧ slen (sourceId conn) < 2 ^ 32)
                      (option_list demoConn).
Proof.
  destruct demoConn as [conn|] eqn:E; [|done]. unfold demoConn in E.
  destruct (newSession _ _ _ _ _ _) as [c|] eqn:En; [|done]. injection E as <-.
  constructor; [|done]. split.
  - exists demoServerDraws, "alice"%string, (Handshake.demo32 Byte.x02), (ch_nonce demoAttempt),
      (ch_publicKey demoAttempt).
    split_and!; [apply sources_entropies, demo_sources|done|done].
  - destruct (newSession_inv _ _ _ _ _ _ _ (sources_entropies _ demo_sources) En)
      as (? & ? & ? & Hso). rewrite (so_id _ _ _ _ _ _ _ _ _ _ Hso). done.
Qed.

Definition demoAccepted : result serverHandshake :=
  let r := Encryption.rndExample in
  @handleServerHello _ sigOnce _ _ _ _ _ demoClient demoAnswer demoAttempt (r Byte.x6d) (r Byte.x6e)
    (r Byte.x6f) (r Byte.x70) (r Byte.x71).


End HelloProofs.
