(* ===== verification/Server.v ===== *)
(** * Server.v: the life of the server's connections
    (src/peer/server: new.go, listen.go, conn.go, close.go, limits.go, listener.go,
    transport.go; ValidateICEDescriptionLimits of src/transports/ice.go)

    The server as a machine: a [world] is the server with the goroutines it has
    started, an [op] is one step of one of them (a signaling callback, a piece of
    [handleICEOffer] between two external calls, half an iteration of a reader, a
    tick of a monitor, a timer) or a call of the application.  What the network,
    pion/ice and the transports answer is part of the operation.  [exec] is the
    step; [None] is a panic. *)

From S2P Require Import Prelude GoFloat Replay Buffer Encryption Handshake Codec Channel Hello.
From Stdlib Require Import ZArith Lia String.
From stdpp Require Import base list option strings numbers gmap.

Local Open Scope Z_scope.
Local Open Scope go_scope.

Module Server.
Import Hello.
Section Server.
Context `{C : !Crypto} `{S : !Signatures} `{K : !KeyExchange} `{T : !TimeFormat} `{R : !LRU}.
Context `{W : !WebRTC}.
Context `{GH : !Gob Codec.Header} `{GP : !Gob Codec.Payload} `{GC : !Gob (list (list byte))}.

(** ** transport.go and transports/ice.go *)

Definition findTransport (available : list ITransport) (wanted : string) : option ITransport :=
  list_find (λ t, Name t = wanted) available ≫= λ p, Some p.2.

Definition containsTransport (available : list ITransport) (wanted : string) : bool :=
  bool_decide (is_Some (findTransport available wanted)).

(** The loop over the candidates, with [total] bytes so far. *)
Fixpoint candidatesFit (candidates : list string) (maxBytes total : Z) : bool :=
  match candidates with
  | [] => true
  | candidate :: candidates =>
      if maxBytes - total <? slen candidate then false
      else candidatesFit candidates maxBytes (total + slen candidate)
  end.

Definition ValidateICEDescriptionLimits (description : ICEDescription) (maxCandidates maxBytes : Z)
  : result unit :=
  _ ← guard_err ((maxCandidates <? 1) || (maxBytes <? 1)) "invalid ICE description limits";
  _ ← guard_err (maxCandidates <? len (Candidates description)) "too many candidates";
  let total := slen (UsernameFragment description) + slen (Password description) in
  _ ← guard_err (maxBytes <? total) "ICE description too large";
  guard_err (negb (candidatesFit (Candidates description) maxBytes total)) "ICE description too large".

(** ** new.go *)

Definition DEFAULT_REPLAY_PROTECTION : Z := 5 * 60 * 1000000000.
Definition DEFAULT_LRU_SIZE : Z := 100000.
Definition DEFAULT_MAX_FRAME_SIZE : Z := Z.shiftl 4 20.
Definition DEFAULT_MAX_PENDING_ICE : Z := 128.
Definition DEFAULT_MAX_PENDING_ICE_BYTES : Z := Z.shiftl 256 10.
Definition DEFAULT_HANDSHAKE_TIMEOUT : Z := 30 * 1000000000.
Definition DEFAULT_MAX_CONNECTIONS : Z := 1024.
Definition DEFAULT_MAX_HANDSHAKES : Z := 256.
Definition DEFAULT_MAX_BUFFERED : Z := Z.shiftl 256 20.
Definition DEFAULT_HEARTBEAT_INTERVAL : Z := 5 * 1000000000.
Definition DEFAULT_HEARTBEAT_TIMEOUT : Z := 15 * 1000000000.

(** What the caller passes besides the options of the running server: the two
    ways to give transports (nil pointers are possible), whether the key provider
    and the signaling server are set. *)
Record Config := mkConfig {
  c_options : Options;
  c_transport : option ITransport;
  c_transports : list (option ITransport);
  c_keyProvider : bool;
  c_signaling : bool;
  c_room : string
}.

Definition orDefault (v d : Z) : Z := if v =? 0 then d else v.

(** The loop over the transports: none is nil, unnamed or a duplicate. *)
Fixpoint transportsOk (seen : list string) (l : list (option ITransport)) : result (list ITransport) :=
  match l with
  | [] => Ok []
  | None :: _ => Err "unsupported server transport"
  | Some t :: l =>
      _ ← guard_err (bool_decide (Name t = EmptyString)) "unsupported server transport";
      _ ← guard_err (bool_decide (Name t ∈ seen)) "duplicate server transport";
      rest ← transportsOk (Name t :: seen) l;
      Ok (t :: rest)
  end.

(** [quic] is transportquic.New(). *)
Definition chooseTransports (quic : ITransport) (c : Config) : result (list (option ITransport)) :=
  match c_transport c with
  | Some t =>
      if negb (len (c_transports c) =? 0)
      then Err "server transport and transports cannot both be set"
      else Ok [Some t]
  | None => if len (c_transports c) =? 0 then Ok [Some quic] else Ok (c_transports c)
  end.

Definition withDefaults (o : Options) (ts : list ITransport) : Options :=
  mkOptions (orDefault (LRUSize o) DEFAULT_LRU_SIZE)
    (orDefault (ReplayProtection o) DEFAULT_REPLAY_PROTECTION)
    (orDefault (ClockSkew o) (30 * 1000000000))
    (KeyProvider o) (IdentityKey o) ts
    (if bool_decide (EncryptionType o = EmptyString) then algorithmName CHACHA20_POLY1305
     else EncryptionType o)
    (if len (EncryptionAAD o) =? 0 then bytes_of "telekit/v1" else EncryptionAAD o)
    (orDefault (MaxFrameSize o) DEFAULT_MAX_FRAME_SIZE)
    (orDefault (ReceiveBufferSize o) Buffer.DefaultReceiveBufferSize)
    (orDefault (MaxBufferedBytes o) DEFAULT_MAX_BUFFERED)
    (orDefault (MaxPendingICE o) DEFAULT_MAX_PENDING_ICE)
    (orDefault (MaxPendingICEBytes o) DEFAULT_MAX_PENDING_ICE_BYTES)
    (orDefault (MaxConnections o) DEFAULT_MAX_CONNECTIONS)
    (orDefault (MaxPendingHandshakes o) DEFAULT_MAX_HANDSHAKES)
    (orDefault (HandshakeTimeout o) DEFAULT_HANDSHAKE_TIMEOUT)
    (orDefault (HeartbeatInterval o) DEFAULT_HEARTBEAT_INTERVAL)
    (orDefault (HeartbeatTimeout o) DEFAULT_HEARTBEAT_TIMEOUT)
    (if GoFloat.feq (HelloRateLimit o) (GoFloat.f64_of_Z 0) then GoFloat.f64_of_Z 100
     else HelloRateLimit o)
    (orDefault (HelloRateBurst o) 200)
    (OnNewClientJoin o).

Definition limitsInvalid (o : Options) : bool :=
  (MaxFrameSize o <? 1024) || (ReceiveBufferSize o <? MaxFrameSize o)
  || (MaxBufferedBytes o <? ReceiveBufferSize o) || (MaxPendingICE o <? 1)
  || (MaxPendingICEBytes o <? 1) || (MaxConnections o <? 1) || (MaxPendingHandshakes o <? 1)
  || (MaxConnections o <? MaxPendingHandshakes o) || (HandshakeTimeout o <=? 0)
  || (HeartbeatInterval o <=? 0) || (HeartbeatTimeout o <=? 0)
  || GoFloat.fle (HelloRateLimit o) (GoFloat.f64_of_Z 0) || (HelloRateBurst o <? 1).

(** [lru.New] refuses a size that is not positive. *)
Definition NewServer (quic : ITransport) (c : Config) : result Server :=
  let o := c_options c in
  _ ← guard_err (bool_decide (c_room c = EmptyString)) "room ID is not set";
  _ ← guard_err (negb (c_signaling c)) "signaling server adapter is not set";
  _ ← guard_err (negb (c_keyProvider c)) "pre-shared key provider is required";
  _ ← guard_err (negb (len (IdentityKey o) =? ed_PrivateKeySize))
        "Ed25519 server identity key is required";
  _ ← guard_err (negb (bool_decide
                   (ed_newKeyFromSeed (take (Z.to_nat ed_SeedSize) (IdentityKey o)) = IdentityKey o)))
        "invalid Ed25519 server identity key";
  chosen ← chooseTransports quic c;
  ts ← transportsOk [] chosen;
  let o := withDefaults o ts in
  _ ← guard_err (limitsInvalid o) "invalid server resource limits";
  _ ← guard_err (LRUSize o <=? 0) "must provide a positive size";
  serverID ← Handshake.ServerIDFromPublicKey (Some (ed_public (IdentityKey o)));
  Ok (mkServer serverID (c_room c) o (lru_new (LRUSize o)) ∅ ∅ [] false ∅ ∅
        (Some (Buffer.NewByteBudget (MaxBufferedBytes o))) 0 0).

(** ** conn.go *)

Definition selectedTransportForSetup (s : Server) (i : nat) : string * bool :=
  match conns s !! i with
  | Some c =>
      let available := negb (closed c) && bool_decide (iceAgent c = None)
                       && bool_decide (transportConn c = None) in
      (selectedTransport c,
       available && negb (bool_decide (selectedTransport c = EmptyString)) && isCurrent s i)
  | None => (EmptyString, false)
  end.

(** An agent that is not accepted is closed. *)
Definition installICEAgent (s : Server) (i agent : nat) : Server * bool :=
  match conns s !! i with
  | Some c =>
      if negb (closed c) && bool_decide (iceAgent c = None) && bool_decide (transportConn c = None)
         && isCurrent s i
      then (updateConn s i (λ c, c <| iceAgent := Some agent |>), true)
      else (s <| agentsOpen ::= closeOne (Some agent) |>, false)
  | None => (s <| agentsOpen ::= closeOne (Some agent) |>, false)
  end.

Definition ownsICEAgent (s : Server) (i agent : nat) : bool :=
  match conns s !! i with
  | Some c => negb (closed c) && bool_decide (iceAgent c = Some agent) && isCurrent s i
  | None => false
  end.

(** A transport that is not accepted is closed. *)
Definition installTransport (s : Server) (i agent conn : nat) (maxFrameSize : Z) : Server * bool :=
  match conns s !! i with
  | Some c =>
      if negb (closed c) && bool_decide (iceAgent c = Some agent)
         && bool_decide (transportConn c = None) && bool_decide (is_Some (dataChannel c))
         && isCurrent s i
      then (updateConn s i (λ c, c <| transportConn := Some conn |>
                                   <| transportMaxFrameSize := maxFrameSize |>), true)
      else (s <| transportsOpen ::= closeOne (Some conn) |>, false)
  | None => (s <| transportsOpen ::= closeOne (Some conn) |>, false)
  end.

(** A connection has one data channel, until it is closed. *)
Definition isCurrentTransport (s : Server) (i conn : nat) : bool :=
  match conns s !! i with
  | Some c => negb (closed c) && bool_decide (transportConn c = Some conn)
              && bool_decide (is_Some (dataChannel c)) && isCurrent s i
  | None => false
  end.

(** ** listen.go: the callback of offer messages

    The second component is the offer a goroutine [handleICEOffer] is started
    with. *)

Definition onTransportSelect (s : Server) (i : nat) (c : Connection) (transport : string)
  : Server * option ICEDescription :=
  if negb (containsTransport (Transports (options s)) transport) then (s, None)
  else if closed c then (s, None)
  else
    let select c := if bool_decide (selectedTransport c = EmptyString)
                    then c <| selectedTransport := transport |> else c in
    (updateConn s i (λ c, (select c) <| pendingICEOffer := None |>), pendingICEOffer c).

Definition onICEOffer (s : Server) (i : nat) (c : Connection) (p : Codec.Payload)
  : Server * option ICEDescription :=
  let offer := mkICEDescription (Codec.ICEUsername p) (Codec.ICEPassword p) (Codec.ICECandidates p) in
  if bool_decide (Codec.ICEUsername p = EmptyString) || bool_decide (Codec.ICEPassword p = EmptyString)
     || (len (Codec.ICECandidates p) =? 0) then (s, None)
  else if negb (is_ok (ValidateICEDescriptionLimits offer (MaxPendingICE (options s))
                         (MaxPendingICEBytes (options s)))) then (s, None)
  else if closed c then (s, None)
  else if bool_decide (selectedTransport c = EmptyString)
  then (updateConn s i (λ c, c <| pendingICEOffer := Some offer |>), None)
  else (s, Some offer).

Definition onOffer (s : Server) (data : list byte) : option (Server * option (nat * ICEDescription)) :=
  match Codec.DecodeMessageHeader zeroCodec data with
  | Err _ => Some (s, None)
  | Ok header =>
      if negb (bool_decide (Codec.TargetId header = serverId s)) then Some (s, None)
      else match connections s !! Codec.SourceId header with
           | None => Some (s, None)
           | Some i =>
               match conns s !! i with
               | None => Some (s, None)
               | Some c =>
                   match Channel.DecodeMessage (codec c) data ≫= parts with
                   | Err _ => Some (s, None)
                   | Ok (h, p) =>
                       let '(w, fresh) := Replay.Accept (signalRecv c) (Codec.Sequence h) in
                       let s := updateConn s i (λ c, c <| signalRecv := w |>) in
                       if negb fresh || negb (isCurrent s i) then Some (s, None)
                       else if bool_decide (Codec.Type_ h = Codec.MessageTypeDisconnect)
                       then s ← Connection_Close s i; Some (s, None)
                       else
                         let '(s, spawn) :=
                           if bool_decide (Codec.Type_ h = Codec.MessageTypeTransportSelect)
                           then onTransportSelect s i c (Codec.Transport p)
                           else if bool_decide (Codec.Type_ h = Codec.MessageTypeICEOffer)
                           then onICEOffer s i c p
                           else (s, None) in
                         Some (s, (λ offer, (i, offer)) <$> spawn)
                   end
               end
           end
  end.

Definition sendICEAnswer (s : Server) (i : nat) (description : ICEDescription)
    (publish : list byte → bool) : Server * bool :=
  if negb (is_ok (ValidateICEDescriptionLimits description (MaxPendingICE (options s))
                    (MaxPendingICEBytes (options s)))) then (s, false)
  else match conns s !! i with
       | None => (s, false)
       | Some c =>
           let sequence := u64 (signalSend c + 1) in
           let message := Codec.mkMessage
             (Some (Codec.mkHeader Codec.MessageTypeICEAnswer (serverId s) (sourceId c) sequence [] ∅))
             (Some (Codec.mkPayload None None [] [] [] [] [] [] EmptyString EmptyString [] [] EmptyString
                      (UsernameFragment description) (Password description) (Candidates description)
                      None))
             false in
           let '(sc, _, encoded) := Channel.EncodeMessage (codec c) (Some message) in
           let s := updateConn s i (λ c, c <| signalSend := sequence |> <| codec := sc |>) in
           match encoded with
           | Err _ => (s, false)
           | Ok data => (s, publish data)
           end
       end.

(** ** listen.go: handleICEOffer

    Where the goroutine stands; [agent] and [conn] are the objects it holds. *)

Inductive stage :=
| AtSelect (remote : ICEDescription)
| AtNewAgent (name : string) (remote : ICEDescription)
| AtInstall (name : string) (agent : nat) (remote : ICEDescription)
| AtRelay (name : string) (agent : nat) (remote : ICEDescription)
| AtGather (name : string) (agent : nat) (remote : ICEDescription)
| AtGathered (name : string) (agent : nat) (remote description : ICEDescription)
| AtAnswer (name : string) (agent : nat) (remote description : ICEDescription)
| AtAccept (name : string) (agent : nat) (remote : ICEDescription)
| AtConnected (name : string) (agent : nat)
| AtDial (t : ITransport) (agent : nat)
| AtAttach (t : ITransport) (agent conn : nat)
| AtEstablish (t : ITransport) (agent conn : nat)
| AtHandOver (conn : nat).

(** What the outside answers in one step: whether the call succeeded, the identity
    of the object it returned, the gathered description, the time, and whether the
    signaling server publishes. *)
Record answer := mkAnswer {
  a_ok : bool;
  a_new : nat;
  a_description : ICEDescription;
  a_now : Z;
  a_publish : list byte → bool
}.

(** [_ = conn.Close(); return] *)
Definition closeReturn (s : Server) (i : nat) : option (Server * option stage) :=
  s ← Connection_Close s i; Some (s, None).

Definition closeAgent (s : Server) (agent : nat) : Server :=
  s <| agentsOpen ::= closeOne (Some agent) |>.

(** The select of the last step: the channel takes the connection, the server is
    closed, or the channel is full.  Go chooses when the first two are possible. *)
Definition handOver (s : Server) (i conn : nat) (choice : bool) : option (Server * option stage) :=
  if negb (isCurrentTransport s i conn) then closeReturn s i
  else if (len (acceptCh s) <? MaxConnections (options s)) && (negb (serverClosed s) || choice)
  then Some (s <| acceptCh ::= (λ l, l ++ [i]) |>, None)
  else closeReturn s i.

(** One step; [None] as the new stage is the return of the goroutine.  The ICE
    connection of [AcceptICE] belongs to its agent. *)
Definition advance (s : Server) (i : nat) (st : stage) (a : answer) : option (Server * option stage) :=
  match st with
  | AtSelect remote =>
      let '(name, ok) := selectedTransportForSetup s i in
      Some (s, if ok then Some (AtNewAgent name remote) else None)
  | AtNewAgent name remote =>
      if a_ok a
      then Some (s <| agentsOpen ::= (λ l, {[a_new a]} ∪ l) |>, Some (AtInstall name (a_new a) remote))
      else closeReturn s i
  | AtInstall name agent remote =>
      let '(s, ok) := installICEAgent s i agent in
      Some (s, if ok then Some (AtRelay name agent remote) else None)
  | AtRelay name agent remote =>
      if a_ok a then Some (s, Some (AtGather name agent remote)) else closeReturn s i
  | AtGather name agent remote =>
      if a_ok a then Some (s, Some (AtGathered name agent remote (a_description a)))
      else if ownsICEAgent s i agent then closeReturn s i
      else Some (closeAgent s agent, None)
  | AtGathered name agent remote description =>
      if negb (ownsICEAgent s i agent) then Some (closeAgent s agent, None)
      else if negb (is_ok (ValidateICEDescriptionLimits description (MaxPendingICE (options s))
                             (MaxPendingICEBytes (options s)))) then closeReturn s i
      else Some (s, Some (AtAnswer name agent remote description))
  | AtAnswer name agent remote description =>
      if negb (ownsICEAgent s i agent) then Some (s, None)
      else
        let '(s, ok) := sendICEAnswer s i description (a_publish a) in
        if ok then Some (s, Some (AtAccept name agent remote)) else closeReturn s i
  | AtAccept name agent remote =>
      if a_ok a then Some (s, Some (AtConnected name agent)) else closeReturn s i
  | AtConnected name agent =>
      if negb (ownsICEAgent s i agent) then Some (s, None)
      else match findTransport (Transports (options s)) name with
           | None => closeReturn s i
           | Some t => Some (s, Some (AtDial t agent))
           end
  | AtDial t agent =>
      if a_ok a
      then Some (s <| transportsOpen ::= (λ l, {[a_new a]} ∪ l) |>, Some (AtAttach t agent (a_new a)))
      else closeReturn s i
  | AtAttach t agent conn =>
      let '(s, ok) := installTransport s i agent conn (TransportFrameSize t) in
      Some (s, if ok then Some (AtEstablish t agent conn) else None)
  | AtEstablish t agent conn =>
      let s := updateConn s i (λ c, c <| lastTransportRead := a_now a |>) in
      let '(s, ok) := markEstablished s i (Some agent) (Some conn) in
      if ok then Some (s, Some (AtHandOver conn)) else closeReturn s i
  | AtHandOver conn => handOver s i conn (a_ok a)
  end.

(** ** The machine *)

(** A reader of a connection, with the bytes it has reserved for the frame it is
    reading. *)
Record reader := mkReader {
  r_conn : nat;
  r_transport : nat;
  r_held : option Z
}.

Record world := mkWorld {
  server : Server;
  setups : gmap nat (nat * stage);
  readers : gmap nat reader;
  monitors : gmap nat (nat * nat)
}.

#[export] Instance eta_world : Eta world :=
  fun w => mkWorld (server w) (setups w) (readers w) (monitors w).

(** What [OpenFrame] and its checks made of a frame: an error, a replayed packet
    (packet mode skips it), a heartbeat, data. *)
Inductive frame := FrameBad | FrameReplay | FrameHeartbeat | FrameData (raw : list byte).

Inductive op :=
| OHello (allow : bool) (d : serverDraws) (publish : list byte → bool) (data : list byte)
| OOffer (data : list byte)
| OSetup (j : nat) (a : answer)
| OReadHead (j : nat) (length : option Z)   (* [None]: the transport failed *)
| OReadBody (j : nat) (f : frame) (now : Z)
| OMonitor (j : nat) (now : Z) (sent : bool)
| OTimer (i : nat)
| OClose (i : nat)
| ORead (i : nat) (now size : Z)
| OAccept
| OServerClose.

Definition stop_reader (w : world) (j : nat) (i : nat) : option world :=
  s ← Connection_Close (server w) i;
  Some (w <| server := s |> <| readers ::= delete j |>).

(** The first half of an iteration: the header, its checks, the reservation. *)
Definition readHead (w : world) (j : nat) (r : reader) (length : option Z) : option world :=
  let s := server w in
  match length with
  | None => stop_reader w j (r_conn r)
  | Some n =>
      if negb (isCurrentTransport s (r_conn r) (r_transport r)) || (n <=? 0)
         || (MaxFrameSize (options s) <? n) then stop_reader w j (r_conn r)
      else
        let '(b, ok) := Buffer.Reserve (bufferBudget s) n in
        let w := w <| server := s <| bufferBudget := b |> |> in
        if ok then Some (w <| readers ::= <[j := mkReader (r_conn r) (r_transport r) (Some n)]> |>)
        else stop_reader w j (r_conn r)
  end.

(** The second half: the frame has been read and opened. *)
Definition readBody (w : world) (j : nat) (r : reader) (n : Z) (f : frame) (now : Z) : option world :=
  b ← Buffer.Release (bufferBudget (server w)) n;
  let i := r_conn r in
  let s := (server w) <| bufferBudget := b |> in
  let w := w <| server := s |> <| readers ::= <[j := mkReader i (r_transport r) None]> |> in
  match f with
  | FrameBad => stop_reader w j i
  | FrameReplay => Some w
  | FrameHeartbeat =>
      if negb (isCurrentTransport s i (r_transport r)) then stop_reader w j i
      else Some (w <| server := updateConn s i (λ c, c <| lastTransportRead := now |>) |>)
  | FrameData raw =>
      if (MaxFrameSize (options s) <? len raw) || negb (isCurrentTransport s i (r_transport r))
      then stop_reader w j i
      else match conns s !! i with
           | None => Some w
           | Some c =>
               let '(rb, b, res) := Buffer.Write (recvBuf c) (bufferBudget s) raw in
               let s := updateConn s i (λ c, c <| lastTransportRead := now |> <| recvBuf := rb |>) in
               let w := w <| server := s <| bufferBudget := b |> |> in
               if is_ok res then Some w else stop_reader w j i
           end
  end.

Definition monitorTick (w : world) (j i conn : nat) (now : Z) (sent : bool) : option world :=
  let s := server w in
  let stop s := Some (w <| server := s |> <| monitors ::= delete j |>) in
  if negb (isCurrentTransport s i conn) then stop s
  else match conns s !! i with
       | None => stop s
       | Some c =>
           if (HeartbeatTimeout (options s) <=? timeSub now (lastTransportRead c)) || negb sent
           then s ← Connection_Close s i; stop s
           else Some w
       end.

Definition Server_Close (s : Server) : option Server :=
  let s := s <| serverClosed := true |> in
  s ← foldl (λ s i, s ← s; Connection_Close s i) (Some s) (map_to_list (connections s)).*2;
  Some (s <| connections := ∅ |>).

(** A goroutine that establishes its connection starts a reader and a monitor. *)
Definition setupStep (w : world) (j i : nat) (st : stage) (a : answer) : option world :=
  '(s, next) ← advance (server w) i st a;
  let w := w <| server := s |> in
  match next with
  | None => Some (w <| setups ::= delete j |>)
  | Some st' =>
      let w := w <| setups ::= <[j := (i, st')]> |> in
      match st' with
      | AtHandOver conn =>
          Some (w <| readers ::= (λ m, <[fresh (dom m) := mkReader i conn None]> m) |>
                  <| monitors ::= (λ m, <[fresh (dom m) := (i, conn)]> m) |>)
      | _ => Some w
      end
  end.

Definition exec (w : world) (o : op) : option world :=
  let s := server w in
  match o with
  | OHello allow d publish data =>
      '(s, _) ← onHello s allow d publish data; Some (w <| server := s |>)
  | OOffer data =>
      '(s, spawn) ← onOffer s data;
      let w := w <| server := s |> in
      match spawn with
      | None => Some w
      | Some (i, offer) =>
          Some (w <| setups ::= (λ m, <[fresh (dom m) := (i, AtSelect offer)]> m) |>)
      end
  | OSetup j a =>
      match setups w !! j with
      | None => Some w
      | Some (i, st) => setupStep w j i st a
      end
  | OReadHead j length =>
      match readers w !! j with
      | Some r => if bool_decide (r_held r = None) then readHead w j r length else Some w
      | None => Some w
      end
  | OReadBody j f now =>
      match readers w !! j with
      | Some r => match r_held r with Some n => readBody w j r n f now | None => Some w end
      | None => Some w
      end
  | OMonitor j now sent =>
      match monitors w !! j with
      | Some (i, conn) => monitorTick w j i conn now sent
      | None => Some w
      end
  | OTimer i =>
      match conns s !! i with
      | Some c => if pendingLease c then s ← Connection_Close s i; Some (w <| server := s |>) else Some w
      | None => Some w
      end
  | OClose i => s ← Connection_Close s i; Some (w <| server := s |>)
  | ORead i now size =>
      match conns s !! i with
      | Some c =>
          '(rb, b, _) ← Buffer.Read (recvBuf c) (bufferBudget s) now size;
          Some (w <| server := (updateConn s i (λ c, c <| recvBuf := rb |>)) <| bufferBudget := b |> |>)
      | None => Some w
      end
  | OAccept => Some (w <| server := if serverClosed s then s else s <| acceptCh ::= tail |> |>)
  | OServerClose => s ← Server_Close s; Some (w <| server := s |>)
  end.

Definition run (w : world) (os : list op) : option world :=
  foldl (λ w o, w ← w; exec w o) (Some w) os.

Definition start (s : Server) : world := mkWorld s ∅ ∅ ∅.

End Server.
End Server.
