(* ===== verification/ServerProofs.v ===== *)
(** * ServerProofs.v: invariants of the server machine of Server.v

    The invariants speak of the part of the server that the life of a connection
    touches, its [view]; most operations change a connection without changing the
    view. *)

From S2P Require Import Prelude GoFloat Replay Buffer Encryption Handshake Codec Channel Hello HelloProofs Server.
From Stdlib Require Import ZArith Lia String.
From stdpp Require Import base list option strings numbers gmap.

Local Open Scope Z_scope.
Local Open Scope go_scope.

Module ServerProofs.
Import Hello Server.
Section ServerProofs.
Context `{C : !Crypto} `{S : !Signatures} `{K : !KeyExchange} `{T : !TimeFormat} `{R : !LRU}.
Context `{W : !WebRTC}.
Context `{GH : !Gob Codec.Header} `{GP : !Gob Codec.Payload} `{GC : !Gob (list (list byte))}.

(** ** The view *)

Record core := mkCore {
  k_id : string;
  k_closed : bool;
  k_done : bool;
  k_established : bool;
  k_agent : option nat;
  k_transport : option nat;
  k_channel : bool;
  k_buf : Buffer.RecvBuffer;
  k_pending : bool;
  k_total : bool
}.

Definition coreOf (c : Connection) : core :=
  mkCore (sourceId c) (closed c) (closeDone c) (established c) (iceAgent c) (transportConn c)
    (bool_decide (is_Some (dataChannel c))) (recvBuf c) (pendingLease c) (totalLease c).

Record view := mkView {
  v_options : Options;
  v_ids : string * string;
  v_cache : lru;
  v_cores : gmap nat core;
  v_table : gmap string nat;
  v_accept : list nat;
  v_agents : gset nat;
  v_transports : gset nat;
  v_budget : option Buffer.ByteBudget;
  v_total : Z;
  v_pending : Z
}.

#[export] Instance eta_view : Eta view := fun v =>
  mkView (v_options v) (v_ids v) (v_cache v) (v_cores v) (v_table v) (v_accept v) (v_agents v) (v_transports v)
    (v_budget v) (v_total v) (v_pending v).

Definition viewOf (s : Server) : view :=
  mkView (options s) (serverId s, roomId s) (nonceCache s) (coreOf <$> conns s) (connections s) (acceptCh s) (agentsOpen s)
    (transportsOpen s) (bufferBudget s) (totalConnections s) (pendingHandshakes s).

(** ** The invariant *)

(** The options and names of the server, and what is known of its nonce cache. *)
Context (opts : Options) (ids : string * string) (CacheOk : lru → Prop).

(** A connection is open, waiting for its transport or established, or closed for
    good. *)
Record core_ok (k : core) : Prop := {
  ko_done : k_done k = k_closed k;
  ko_total : k_total k = negb (k_closed k);
  ko_pending : k_pending k = negb (k_closed k) && negb (k_established k);
  ko_channel : k_channel k = negb (k_closed k);
  ko_established : k_established k = true → is_Some (k_transport k);
  ko_closed : k_closed k = true →
    k_established k = false ∧ k_agent k = None ∧ k_transport k = None ∧ Buffer.buf (k_buf k) = [];
  ko_buf_closed : Buffer.closed (k_buf k) = k_closed k;
  ko_limit : 0 < Buffer.rlimit (k_buf k) < 2 ^ 62;
  ko_len : len (Buffer.buf (k_buf k)) ≤ Buffer.rlimit (k_buf k)
}.

Definition buffered (k : core) : Z := len (Buffer.buf (k_buf k)).

(** [held] bytes of the budget, the agents [A] and the transports [D] are in the
    hands of goroutines, and connection [X] is not in the table yet. *)
Record vinv (X : option nat) (held : Z) (A D : nat → Prop) (v : view) : Prop := {
  vi_options : v_options v = opts;
  vi_ids : v_ids v = ids;
  vi_cache : CacheOk (v_cache v);
  vi_core : ∀ i k, v_cores v !! i = Some k → core_ok k;
  vi_live : ∀ i k, v_cores v !! i = Some k → k_closed k = false → X ≠ Some i →
    v_table v !! k_id k = Some i;
  vi_table : ∀ id i, v_table v !! id = Some i →
    ∃ k, v_cores v !! i = Some k ∧ k_id k = id ∧ k_closed k = false;
  vi_total : v_total v = msum (λ k, count (k_total k)) (v_cores v);
  vi_total_max : v_total v ≤ MaxConnections (v_options v);
  vi_pending : v_pending v = msum (λ k, count (k_pending k)) (v_cores v);
  vi_pending_max : v_pending v ≤ MaxPendingHandshakes (v_options v);
  vi_budget : ∃ b, v_budget v = Some b ∧ Buffer.used b = msum buffered (v_cores v) + held ∧
    Buffer.used b ≤ Buffer.limit b < 2 ^ 62;
  vi_budget_limit : ∀ b, v_budget v = Some b → Buffer.limit b = MaxBufferedBytes (v_options v);
  vi_held : 0 ≤ held;
  vi_agents : ∀ a, a ∈ v_agents v → (∃ i k, v_cores v !! i = Some k ∧ k_agent k = Some a) ∨ A a;
  vi_transports : ∀ t, t ∈ v_transports v →
    (∃ i k, v_cores v !! i = Some k ∧ k_transport k = Some t) ∨ D t;
  vi_size : ReceiveBufferSize (v_options v) < 2 ^ 62;
  vi_frame : MaxFrameSize (v_options v) < 2 ^ 62;
  vi_accept : len (v_accept v) ≤ MaxConnections (v_options v);
  vi_accepted : ∀ i, i ∈ v_accept v → is_Some (v_cores v !! i)
}.

Lemma cores_buffered_nonneg k : 0 ≤ buffered k.
Proof. apply len_nonneg. Qed.

Lemma cores_lookup s i c : conns s !! i = Some c → v_cores (viewOf s) !! i = Some (coreOf c).
Proof. intros H. cbn. by rewrite lookup_fmap, H. Qed.

Lemma cores_inv s i k :
  v_cores (viewOf s) !! i = Some k → ∃ c, conns s !! i = Some c ∧ k = coreOf c.
Proof. cbn. rewrite lookup_fmap_Some. intros (c & <- & ?). eauto. Qed.

Lemma cores_alter (m : gmap nat Connection) i f c :
  m !! i = Some c → coreOf <$> alter f i m = <[i := coreOf (f c)]> (coreOf <$> m).
Proof.
  intros Hi. apply map_eq. intros j. rewrite lookup_fmap, lookup_alter.
  destruct (decide (i = j)) as [<-|Hne].
  - by rewrite lookup_insert_eq, Hi.
  - by rewrite lookup_insert_ne, lookup_fmap by done.
Qed.

(** Changing what the view does not show. *)
Lemma view_same s i f :
  (∀ c, conns s !! i = Some c → coreOf (f c) = coreOf c) → viewOf (updateConn s i f) = viewOf s.
Proof.
  intros Hf. unfold viewOf, updateConn. cbn. f_equal. apply map_eq. intros j.
  rewrite !lookup_fmap, lookup_alter. destruct (decide (i = j)) as [<-|]; [|done].
  destruct (conns s !! i) as [c|] eqn:Hi; [|done]. cbn. by rewrite Hf.
Qed.

(** ** Changing an open connection *)

Lemma vinv_update X held A D v i k k' held' A' D' agents transports b total pending :
  vinv X held A D v → v_cores v !! i = Some k → core_ok k' →
  k_id k' = k_id k → k_closed k' = k_closed k →
  total = v_total v - count (k_total k) + count (k_total k') →
  pending = v_pending v - count (k_pending k) + count (k_pending k') →
  total ≤ MaxConnections (v_options v) → pending ≤ MaxPendingHandshakes (v_options v) →
  (∃ x, b = Some x ∧ Buffer.limit x = MaxBufferedBytes (v_options v) ∧
     Buffer.used x ≤ Buffer.limit x < 2 ^ 62 ∧
     Buffer.used x = msum buffered (v_cores v) - buffered k + buffered k' + held') → 0 ≤ held' →
  (∀ a, a ∈ agents → (a ∈ v_agents v ∧ (A a → A' a) ∧ k_agent k ≠ Some a) ∨ k_agent k' = Some a ∨ A' a) →
  (∀ t, t ∈ transports →
     (t ∈ v_transports v ∧ (D t → D' t) ∧ k_transport k ≠ Some t) ∨ k_transport k' = Some t ∨ D' t) →
  vinv X held' A' D' (mkView (v_options v) (v_ids v) (v_cache v) (<[i := k']> (v_cores v)) (v_table v) (v_accept v) agents
                      transports b total pending).
Proof.
  intros [] Hi Hk' Hid Hcl -> -> Ht Hp (x & -> & Hlim & Hx & Hu) Hh Ha Hd.
  assert (Hlook : ∀ j k0, <[i := k']> (v_cores v) !! j = Some k0 →
    (j = i ∧ k0 = k') ∨ (j ≠ i ∧ v_cores v !! j = Some k0)).
  { intros j k0 Hj. destruct (decide (j = i)) as [->|]; [left|right].
    - rewrite lookup_insert_eq in Hj. by injection Hj as <-.
    - by rewrite lookup_insert_ne in Hj. }
  assert (Hkeep : ∀ P, (∃ j k0, v_cores v !! j = Some k0 ∧ P k0) → ¬ P k →
    (∃ j k0, <[i := k']> (v_cores v) !! j = Some k0 ∧ P k0)).
  { intros P (j & k0 & Hj & HP) HQ. exists j, k0. rewrite lookup_insert_ne; [done|].
    intros ->. destruct HQ. congruence. }
  split; cbn; try done.
  - intros j k0 [[-> ->]|[_ Hj]]%Hlook; eauto.
  - intros j k0 [[-> ->]|[_ Hj]]%Hlook; [|eauto]. rewrite Hid, Hcl. by apply vi_live0.
  - intros id j (k0 & Hj & Hid0 & Hc0)%vi_table0. destruct (decide (j = i)) as [->|Hne].
    + exists k'. rewrite lookup_insert_eq. split_and!; congruence.
    + exists k0. by rewrite lookup_insert_ne.
  - rewrite (msum_update _ _ _ k), vi_total0 by done. lia.
  - rewrite (msum_update _ _ _ k), vi_pending0 by done. lia.
  - exists x. rewrite (msum_update _ _ _ k) by done. split_and!; done || lia.
  - by intros ? [= <-].
  - intros a [(Hin & HA & Hne)|[Hk|HA]]%Ha; [|left; exists i, k'; by rewrite lookup_insert_eq|by right].
    destruct (vi_agents0 a Hin) as [Hex|?]; [|by auto].
    left. by apply (Hkeep (λ k0, k_agent k0 = Some a)).
  - intros t [(Hin & HD & Hne)|[Hk|HD]]%Hd; [|left; exists i, k'; by rewrite lookup_insert_eq|by right].
    destruct (vi_transports0 t Hin) as [Hex|?]; [|by auto].
    left. by apply (Hkeep (λ k0, k_transport k0 = Some t)).
  - intros j Hj%vi_accepted0. destruct (decide (j = i)) as [->|Hne];
      [rewrite lookup_insert_eq; eauto|by rewrite lookup_insert_ne].
Qed.

(** ** Closing a connection *)

Definition closedCore (k : core) (rb : Buffer.RecvBuffer) : core :=
  mkCore (k_id k) true true false None None false rb false false.

Definition closedTable (i : nat) (id : string) (table : gmap string nat) : gmap string nat :=
  if bool_decide (table !! id = Some i) then delete id table else table.

Definition closedView (v : view) (i : nat) (k : core) (rb : Buffer.RecvBuffer)
    (b : option Buffer.ByteBudget) : view :=
  mkView (v_options v) (v_ids v) (v_cache v) (<[i := closedCore k rb]> (v_cores v)) (closedTable i (k_id k) (v_table v))
    (v_accept v) (closeOne (k_agent k) (v_agents v)) (closeOne (k_transport k) (v_transports v)) b
    (v_total v - count (k_total k)) (v_pending v - count (k_pending k)).

(** What [Close] leaves alone. *)
Record same_server (s s' : Server) : Prop := {
  ss_options : options s' = options s;
  ss_cache : nonceCache s' = nonceCache s;
  ss_id : serverId s' = serverId s;
  ss_room : roomId s' = roomId s;
  ss_closed : serverClosed s' = serverClosed s
}.

Lemma same_server_refl s : same_server s s.
Proof. done. Qed.

Lemma same_server_trans s1 s2 s3 : same_server s1 s2 → same_server s2 s3 → same_server s1 s3.
Proof. intros [] []. split; congruence. Qed.

(** One step on connection [i]: the connection becomes [c], the view [v]. *)
Record moves (s s' : Server) (i : nat) (c : Connection) (v : view) : Prop := {
  mv_conn : conns s' !! i = Some c;
  mv_view : viewOf s' = v;
  mv_same : same_server s s'
}.

Lemma updateConn_moves s i f c :
  conns s !! i = Some c →
  moves s (updateConn s i f) i (f c) ((viewOf s) <| v_cores ::= <[i := coreOf (f c)]> |>).
Proof.
  intros Hi. split; [|unfold viewOf, updateConn; cbn; by rewrite (cores_alter _ _ _ c)|done].
  unfold updateConn. cbn. by rewrite lookup_alter, decide_True, Hi.
Qed.

Lemma releasePending_moves s i c :
  conns s !! i = Some c →
  moves s (releasePending s i) i (c <| pendingLease := false |>)
    ((viewOf s) <| v_cores ::= <[i := coreOf (c <| pendingLease := false |>)]> |>
                <| v_pending ::= (λ n, n - count (pendingLease c)) |>).
Proof.
  intros Hi. unfold releasePending. rewrite Hi. destruct (pendingLease c) eqn:E.
  - pose proof (updateConn_moves s i (λ c, c <| pendingLease := false |>) c Hi) as [H1 H2 H3].
    split; [done|by unfold viewOf in *; cbn in *; injection H2 as ->|done].
  - assert (c <| pendingLease := false |> = c) as -> by (destruct c; cbn in *; by subst).
    split; [done| |done]. unfold viewOf. cbn. rewrite insert_id by (by rewrite lookup_fmap, Hi).
    by rewrite Z.sub_0_r.
Qed.

Lemma releaseTotal_moves s i c :
  conns s !! i = Some c →
  moves s (releaseTotal s i) i (c <| totalLease := false |>)
    ((viewOf s) <| v_cores ::= <[i := coreOf (c <| totalLease := false |>)]> |>
                <| v_total ::= (λ n, n - count (totalLease c)) |>).
Proof.
  intros Hi. unfold releaseTotal. rewrite Hi. destruct (totalLease c) eqn:E.
  - pose proof (updateConn_moves s i (λ c, c <| totalLease := false |>) c Hi) as [H1 H2 H3].
    split; [done|by unfold viewOf in *; cbn in *; injection H2 as ->|done].
  - assert (c <| totalLease := false |> = c) as -> by (destruct c; cbn in *; by subst).
    split; [done| |done]. unfold viewOf. cbn. rewrite insert_id by (by rewrite lookup_fmap, Hi).
    by rewrite Z.sub_0_r.
Qed.

Lemma removeCurrent_moves s i c :
  conns s !! i = Some c →
  moves s (removeCurrent s i) i c ((viewOf s) <| v_table ::= closedTable i (sourceId c) |>).
Proof.
  intros Hi. unfold removeCurrent, closedTable. rewrite Hi. cbn.
  by destruct (bool_decide (connections s !! sourceId c = Some i)).
Qed.

Lemma releaseTransport_moves s i c :
  conns s !! i = Some c →
  let c' := c <| transportConn := None |> <| dataChannel := None |> <| iceAgent := None |> in
  moves s (releaseTransport s i) i c'
    ((viewOf s) <| v_cores ::= <[i := coreOf c']> |> <| v_agents ::= closeOne (iceAgent c) |>
                <| v_transports ::= closeOne (transportConn c) |>).
Proof.
  intros Hi c'. unfold releaseTransport. rewrite Hi.
  pose proof (updateConn_moves s i (λ c, c <| transportConn := None |> <| dataChannel := None |>
    <| iceAgent := None |>) c Hi) as [H1 H2 H3].
  split; [done|by unfold viewOf in *; cbn in *; injection H2 as ->|done].
Qed.

Lemma Close_view s i c rb b :
  conns s !! i = Some c → closeDone c = false →
  Buffer.Close (recvBuf c) (bufferBudget s) = Some (rb, b) →
  ∃ s', Connection_Close s i = Some s' ∧ viewOf s' = closedView (viewOf s) i (coreOf c) rb b ∧
        same_server s s'.
Proof.
  intros Hi Hd Hb. unfold Connection_Close. rewrite Hi, Hd.
  change (bufferBudget (updateConn s i _)) with (bufferBudget s). rewrite Hb. cbn [mbind option_bind]. eexists. split; [reflexivity|].
  destruct (updateConn_moves s i (λ c, c <| closed := true |>) c Hi) as [I1 V1 S1].
  destruct (updateConn_moves _ i (λ c, c <| established := false |> <| recvBuf := rb |>
    <| closeDone := true |>) _ I1) as [I2 V2 S2].
  match type of I2 with conns ?x !! _ = _ => set (s2 := x) in * end.
  set (s3 := s2 <| bufferBudget := b |>).
  assert (I3 : conns s3 !! i = conns s2 !! i) by done. rewrite I2 in I3.
  assert (V3 : viewOf s3 = (viewOf s2) <| v_budget := b |>) by done.
  assert (S3 : same_server s2 s3) by done.
  destruct (removeCurrent_moves s3 i _ I3) as [I4 V4 S4].
  destruct (updateConn_moves _ i (λ c, c <| handshakeTimer := false |>) _ I4) as [I5 V5 S5].
  destruct (releasePending_moves _ i _ I5) as [I6 V6 S6].
  destruct (releaseTotal_moves _ i _ I6) as [I7 V7 S7].
  destruct (releaseTransport_moves _ i _ I7) as [_ V8 S8].
  split; [|eauto 10 using same_server_trans].
  unfold releaseLease, stopHandshakeTimer. rewrite V8, V7, V6, V5, V4, V3, V2, V1.
  unfold closedView, closedCore. cbn. by rewrite !insert_insert_eq.
Qed.

(** ** Closing keeps the invariant *)

Lemma Buffer_Close_ok X held A D s i c :
  vinv X held A D (viewOf s) → conns s !! i = Some c →
  ∃ rb b x y, Buffer.Close (recvBuf c) (bufferBudget s) = Some (rb, b) ∧
    bufferBudget s = Some x ∧ b = Some y ∧ Buffer.limit y = Buffer.limit x ∧
    Buffer.used y = Buffer.used x - buffered (coreOf c) ∧ Buffer.used y ≤ Buffer.limit y ∧
    Buffer.closed rb = true ∧ Buffer.buf rb = [] ∧ Buffer.rlimit rb = Buffer.rlimit (recvBuf c).
Proof.
  intros [] Hi. destruct vi_budget0 as (x & Hx & Hu & Hl). cbn in Hx.
  pose proof (vi_core0 _ _ (cores_lookup _ _ _ Hi)) as [].
  pose proof (msum_ge buffered _ i _ (λ j k _, cores_buffered_nonneg k) (cores_lookup _ _ _ Hi)) as Hge.
  pose proof (cores_buffered_nonneg (coreOf c)). cbn in *. unfold buffered in *. cbn in *.
  unfold Buffer.Close. rewrite ko_buf_closed0. destruct (closed c) eqn:Ec.
  - destruct (ko_closed0 eq_refl) as (_ & _ & _ & Hb). rewrite Hb, len_nil.
    eexists (recvBuf c), _, x, x. rewrite Hx. split_and!; try done; lia.
  - destruct (Buffer.Release_spec (bufferBudget s) (len (Buffer.buf (recvBuf c)))
      (len (Buffer.buf (recvBuf c)))) as (b' & Hr & Hm); [|lia|].
    { intros z Hz. rewrite Hx in Hz. injection Hz as <-. lia. }
    cbn. rewrite Hr. cbn. rewrite Hx in Hm. destruct b' as [y|]; [|done]. cbn in Hm.
    eexists _, _, x, y. rewrite Hx. split_and!; done || lia.
Qed.

Lemma closedCore_ok k rb :
  core_ok k → Buffer.closed rb = true → Buffer.buf rb = [] → Buffer.rlimit rb = Buffer.rlimit (k_buf k) →
  core_ok (closedCore k rb).
Proof.
  intros [] H1 H2 H3. split; cbn; try done.
  - by rewrite H3.
  - rewrite H2, len_nil, H3. lia.
Qed.

Lemma closedTable_Some i id m id' j :
  closedTable i id m !! id' = Some j ↔ m !! id' = Some j ∧ (id' = id → j ≠ i).
Proof.
  unfold closedTable. destruct (bool_decide (m !! id = Some i)) eqn:E; b2p.
  - rewrite lookup_delete_Some. split.
    + intros [Hne Hj]. split; [done|]. intros ->. done.
    + intros [Hj Hne]. split; [|done]. intros ->. apply Hne; congruence.
  - split; [|by intros [? _]]. intros Hj. split; [done|]. intros -> ->. done.
Qed.

Lemma closedView_inv X held A D v i k rb b x y :
  vinv X held A D v → v_cores v !! i = Some k → core_ok (closedCore k rb) → Buffer.buf rb = [] →
  v_budget v = Some x → b = Some y → Buffer.limit y = Buffer.limit x →
  Buffer.used y = Buffer.used x - buffered k → Buffer.used y ≤ Buffer.limit y →
  vinv X held A D (closedView v i k rb b).
Proof.
  intros [] Hi Hok Hbuf Hx -> Hlim Hused Hle.
  assert (Hlook : ∀ j k0, <[i := closedCore k rb]> (v_cores v) !! j = Some k0 →
    (j = i ∧ k0 = closedCore k rb) ∨ (j ≠ i ∧ v_cores v !! j = Some k0)).
  { intros j k0 Hj. destruct (decide (j = i)) as [->|]; [left|right].
    - rewrite lookup_insert_eq in Hj. by injection Hj as <-.
    - by rewrite lookup_insert_ne in Hj. }
  assert (Hkeep : ∀ P, (∃ j k0, v_cores v !! j = Some k0 ∧ P k0) → ¬ P k →
    (∃ j k0, <[i := closedCore k rb]> (v_cores v) !! j = Some k0 ∧ P k0)).
  { intros P (j & k0 & Hj & HP) HQ. exists j, k0. rewrite lookup_insert_ne; [done|].
    intros ->. destruct HQ. congruence. }
  destruct vi_budget0 as (x' & Hx' & Hu & Hl). rewrite Hx in Hx'. injection Hx' as <-.
  assert (∀ b, 0 ≤ count b) as Hc by (intros []; cbn; lia).
  split; cbn; try done.
  - intros j k0 [[-> ->]|[_ Hj]]%Hlook; eauto.
  - intros j k0 [[-> ->]|[Hne Hj]]%Hlook Hcl HX; [done|]. apply closedTable_Some. auto.
  - intros id j [Ht Hne]%closedTable_Some. destruct (vi_table0 _ _ Ht) as (k0 & Hk0 & Hid0 & ?).
    exists k0. rewrite lookup_insert_ne; [done|]. intros ->. apply Hne; congruence.
  - rewrite (msum_update _ _ _ k), vi_total0 by done. cbn. lia.
  - pose proof (Hc (k_total k)). lia.
  - rewrite (msum_update _ _ _ k), vi_pending0 by done. cbn. lia.
  - pose proof (Hc (k_pending k)). lia.
  - exists y. rewrite (msum_update _ _ _ k) by done. unfold buffered in *. cbn.
    rewrite Hbuf, len_nil. split_and!; done || lia.
  - intros ? [= <-]. rewrite Hlim. by apply vi_budget_limit0.
  - intros a [Hin Hne]%closeOne_elem. destruct (vi_agents0 a Hin) as [Hex|?]; [|by right].
    left. by apply (Hkeep (λ k0, k_agent k0 = Some a)).
  - intros t [Hin Hne]%closeOne_elem. destruct (vi_transports0 t Hin) as [Hex|?]; [|by right].
    left. by apply (Hkeep (λ k0, k_transport k0 = Some t)).
  - intros j Hj%vi_accepted0. destruct (decide (j = i)) as [->|Hne];
      [rewrite lookup_insert_eq; eauto|by rewrite lookup_insert_ne].
Qed.

(** The result of closing connection [i]. *)
Record closes (s s' : Server) (i : nat) : Prop := {
  cl_same : same_server s s';
  cl_closed : ∀ k, v_cores (viewOf s') !! i = Some k → k_closed k = true;
  cl_table : ∀ id j, connections s' !! id = Some j → connections s !! id = Some j
}.

Lemma Close_inv X held A D s i :
  vinv X held A D (viewOf s) →
  ∃ s', Connection_Close s i = Some s' ∧ vinv X held A D (viewOf s') ∧ closes s s' i.
Proof.
  intros HI. destruct (conns s !! i) as [c|] eqn:Hi.
  2:{ exists s. unfold Connection_Close. rewrite Hi. split_and!; [done|done|].
      split; [done| |done]. cbn. rewrite lookup_fmap, Hi. done. }
  pose proof (vi_core _ _ _ _ _ HI _ _ (cores_lookup _ _ _ Hi)) as Hok.
  destruct (closeDone c) eqn:Hd.
  - assert (Hc : closed c = true) by (destruct Hok as [H1 _ _ _ _ _ _ _ _]; cbn in H1; congruence).
    exists (updateConn s i (λ c, c <| closed := true |>)). unfold Connection_Close. rewrite Hi, Hd.
    assert (Hv : viewOf (updateConn s i (λ c, c <| closed := true |>)) = viewOf s).
    { apply view_same. intros c0 Hc0. rewrite Hi in Hc0. injection Hc0 as <-.
      unfold coreOf. cbn. by rewrite Hc. }
    rewrite Hv. split_and!; [done|done|]. split; [done| |done].
    rewrite Hv. intros k Hk. rewrite (cores_lookup _ _ _ Hi) in Hk. by injection Hk as <-.
  - destruct (Buffer_Close_ok _ _ _ _ _ _ _ HI Hi)
      as (rb & b & x & y & Hb & Hx & Hy & H1 & H2 & H3 & H4 & H5 & H6).
    destruct (Close_view s i c rb b Hi Hd Hb) as (s' & Hs' & Hv & Hsame).
    exists s'. rewrite Hv. split_and!; [done| |split; [done| |]].
    + eapply closedView_inv; try done; [by apply cores_lookup|by apply closedCore_ok].
    + rewrite Hv. cbn. rewrite lookup_insert_eq. by intros k [= <-].
    + intros id j Hj. assert (Ht : v_table (viewOf s') !! id = Some j) by done.
      rewrite Hv in Ht. by apply closedTable_Some in Ht as [? _].
Qed.

(** A connection that was closed before it entered the table. *)
Lemma vinv_drop x held A D v :
  vinv (Some x) held A D v → (∀ k, v_cores v !! x = Some k → k_closed k = true) →
  vinv None held A D v.
Proof.
  intros [] Hx. split; try done. intros i k Hi Hc _. apply vi_live0; [done..|].
  intros [= ->]. rewrite (Hx _ Hi) in Hc. done.
Qed.

(** Closing what is in the table empties it. *)
Lemma closeAll_inv held A D l s :
  vinv None held A D (viewOf s) →
  ∃ s', foldl (λ s i, s ← s; Connection_Close s i) (Some s) l = Some s' ∧
    vinv None held A D (viewOf s') ∧ same_server s s' ∧
    ∀ id j, connections s' !! id = Some j → connections s !! id = Some j ∧ j ∉ l.
Proof.
  revert s. induction l as [|i l IH]; intros s HI.
  { exists s. split_and!; try done. intros id j Hj. split; [done|]. apply not_elem_of_nil. }
  destruct (Close_inv _ _ _ _ _ i HI) as (s1 & H1 & HI1 & [Hs Hc Ht]).
  destruct (IH s1 HI1) as (s' & H2 & HI' & Hs' & Ht'). exists s'.
  cbn. rewrite H1. split_and!; [done|done|by eapply same_server_trans|].
  intros id j Hj. destruct (Ht' id j Hj) as [Hj1 Hn]. split; [by apply Ht|].
  apply not_elem_of_cons. split; [|done]. intros ->.
  destruct (vi_table _ _ _ _ _ HI1 _ _ Hj1) as (k & Hk & _ & Hcl). by rewrite (Hc _ Hk) in Hcl.
Qed.

Lemma Server_Close_inv held A D s :
  vinv None held A D (viewOf s) →
  ∃ s', Server_Close s = Some s' ∧ vinv None held A D (viewOf s') ∧ options s' = options s ∧
    nonceCache s' = nonceCache s ∧ connections s' = ∅.
Proof.
  intros HI. unfold Server_Close. set (s0 := s <| serverClosed := true |>).
  destruct (closeAll_inv held A D ((map_to_list (connections s0)).*2) s0 HI)
    as (s' & -> & HI' & Hs & Ht).
  assert (He : connections s' = ∅).
  { apply map_eq. intros id. rewrite lookup_empty. apply eq_None_not_Some. intros [j Hj].
    destruct (Ht _ _ Hj) as [Hj' Hn]. apply Hn, list_elem_of_fmap. exists (id, j).
    split; [done|by apply elem_of_map_to_list]. }
  cbn [mbind option_bind]. eexists. split; [reflexivity|].
  assert (s' <| connections := ∅ |> = s') as -> by (rewrite <- He; by destruct s').
  split_and!; [done|by apply Hs..|done].
Qed.

(** ** The hello callback *)

Definition freshCore (o : Options) (id : string) : core :=
  mkCore id false false false None None true
    (Buffer.NewRecvBufferWithLimit (ReceiveBufferSize o)) true true.

Lemma newSession_core s d id key nonce eph conn :
  newSession s d id key nonce eph = Ok conn → coreOf conn = freshCore (options s) id.
Proof.
  unfold newSession. intros (salt & _ & H)%bind_ok.
  apply bind_ok in H as (sn & _ & H). apply bind_ok in H as (hk & _ & H).
  apply bind_ok in H as (hc & _ & H). apply bind_ok in H as (private & _ & H).
  apply bind_ok in H as (secret & _ & H). apply bind_ok in H as (sk & _ & H).
  apply bind_ok in H as (sc & _ & H). apply bind_ok in H as (dc & _ & [= <-]).
  done.
Qed.

Lemma freshCore_ok o id : ReceiveBufferSize o < 2 ^ 62 → core_ok (freshCore o id).
Proof.
  intros Hs. split; cbn; try done; rewrite ?len_nil; unfold Buffer.DefaultReceiveBufferSize;
    case_ifs; lia.
Qed.

Lemma vinv_insert held A D v i id :
  vinv None held A D v → v_cores v !! i = None →
  v_total v < MaxConnections (v_options v) → v_pending v < MaxPendingHandshakes (v_options v) →
  vinv (Some i) held A D
    (v <| v_cores ::= <[i := freshCore (v_options v) id]> |> <| v_total ::= (λ n, n + 1) |>
       <| v_pending ::= (λ n, n + 1) |>).
Proof.
  intros [] Hi Ht Hp.
  assert (Hne : ∀ j k, v_cores v !! j = Some k →
    <[i := freshCore (v_options v) id]> (v_cores v) !! j = Some k).
  { intros j k Hj. rewrite lookup_insert_ne; [done|]. intros ->. congruence. }
  assert (Hlook : ∀ j k0, <[i := freshCore (v_options v) id]> (v_cores v) !! j = Some k0 →
    (j = i ∧ k0 = freshCore (v_options v) id) ∨ (v_cores v !! j = Some k0)).
  { intros j k0 Hj. destruct (decide (j = i)) as [->|]; [left|right].
    - rewrite lookup_insert_eq in Hj. by injection Hj as <-.
    - by rewrite lookup_insert_ne in Hj. }
  split; cbn; try done.
  - intros j k [[-> ->]|Hj]%Hlook; [by apply freshCore_ok|eauto].
  - intros j k [[-> ->]|Hj]%Hlook Hc HX; [done|]. by apply vi_live0.
  - intros id' j (k & Hk & ? & ?)%vi_table0. exists k. auto.
  - rewrite msum_insert by done. cbn. lia.
  - lia.
  - rewrite msum_insert by done. cbn. lia.
  - lia.
  - destruct vi_budget0 as (b & ? & ? & ?). exists b. rewrite msum_insert by done.
    split_and!; [done|unfold buffered at 1; cbn; rewrite len_nil; lia|lia..].
  - intros a [(j & k & Hj & ?)|?]%vi_agents0; [left; eauto|by right].
  - intros t [(j & k & Hj & ?)|?]%vi_transports0; [left; eauto|by right].
  - intros j [k Hk]%vi_accepted0. rewrite (Hne _ _ Hk). eauto.
Qed.

(** What [handleClientHello] hands to the callback: a connection that is current,
    or a new one whose client has none. *)
Definition handed (held : Z) (A D : nat → Prop) (s : Server) (i : nat) : Prop :=
  ∃ X k, vinv X held A D (viewOf s) ∧ v_cores (viewOf s) !! i = Some k ∧
    (X = None ∧ connections s !! k_id k = Some i ∨ X = Some i ∧ connections s !! k_id k = None).

(** The cache remains what it is known to be when a nonce is stored at [now]. *)
Definition cache_step (now : Z) : Prop :=
  ∀ c k, CacheOk c → CacheOk (lru_get c k).1 ∧
    CacheOk (lru_add (lru_get c k).1 k (now / 1000000)).

Lemma isNonceAvailable_inv X held A D s now now' nonce :
  cache_step now' → vinv X held A D (viewOf s) →
  let s' := (isNonceAvailable s now now' nonce).1 in
  vinv X held A D (viewOf s') ∧ options s' = options s ∧ serverClosed s' = serverClosed s ∧
  connections s' = connections s.
Proof.
  intros Hc HI. unfold isNonceAvailable.
  destruct (Hc (nonceCache s) (nonceKey nonce) (vi_cache _ _ _ _ _ HI)) as [Hg Ha].
  destruct (lru_get _ _) as [cache hit]. case_if as E; (split; [|done]); destruct HI; by split.
Qed.

Lemma prepareClientHello_inv held A D s now now' existing nonce eph :
  cache_step now' → vinv None held A D (viewOf s) →
  ∃ s' r, prepareClientHello s now now' existing nonce eph = Some (s', r) ∧
    vinv None held A D (viewOf s') ∧ options s' = options s ∧ serverClosed s' = serverClosed s ∧
    (∀ id j, connections s' !! id = Some j → connections s !! id = Some j) ∧
    (r = Ok true → connections s' = connections s) ∧
    (r = Ok false → ∀ id j, connections s' !! id = Some j → existing ≠ Some j).
Proof.
  intros Hcache HI. unfold prepareClientHello.
  destruct (match existing ≫= λ i, conns s !! i with Some c => _ | None => false end).
  { exists s, (Ok true). by split_and!. }
  destruct (isNonceAvailable_inv _ _ _ _ _ now now' nonce Hcache HI) as (HI1 & Ho & Hc & Htab).
  destruct (isNonceAvailable s now now' nonce) as [s1 [|]]; cbn in HI1, Ho, Hc, Htab; cbn [negb].
  2:{ exists s1, (Err errReplayedClientHello). rewrite Ho, Hc, Htab. by split_and!. }
  destruct existing as [i|].
  - destruct (Close_inv _ _ _ _ _ i HI1) as (s' & -> & HI' & [Hs Hcl Ht]). cbn.
    exists s', (Ok false). rewrite (ss_options _ _ Hs), (ss_closed _ _ Hs), Ho, Hc.
    split_and!; try done; [intros id j Hj; rewrite <- Htab; by apply Ht|].
    intros _ id j Hj [= ->]. destruct (vi_table _ _ _ _ _ HI' _ _ Hj) as (k & Hk & _ & Hkc).
    by rewrite (Hcl _ Hk) in Hkc.
  - exists s1, (Ok false). rewrite Ho, Hc, Htab. by split_and!.
Qed.

Lemma reserveConnection_view s :
  let '(s', ok) := reserveConnection s in
  options s' = options s ∧ serverClosed s' = serverClosed s ∧ connections s' = connections s ∧
  conns s' = conns s ∧
  if ok then totalConnections s < MaxConnections (options s) ∧
             pendingHandshakes s < MaxPendingHandshakes (options s) ∧
             viewOf s' = (viewOf s) <| v_total ::= (λ n, n + 1) |> <| v_pending ::= (λ n, n + 1) |>
  else viewOf s' = viewOf s.
Proof.
  unfold reserveConnection, reserveCounter, counterUpdate.
  destruct (MaxConnections (options s) <=? totalConnections s) eqn:E1; cbn; b2p; [done|].
  destruct (MaxPendingHandshakes (options s) <=? pendingHandshakes s) eqn:E2; cbn; b2p; [|done].
  unfold viewOf. cbn. split_and!; try done. f_equal; lia.
Qed.

Lemma handleClientHello_inv held A D s d data :
  cache_step (sd_nonceStored d) → vinv None held A D (viewOf s) →
  ∃ s' r, handleClientHello s d data = Some (s', r) ∧ options s' = options s ∧
    serverClosed s' = serverClosed s ∧
    match r with Ok (Some i) => handed held A D s' i | _ => vinv None held A D (viewOf s') end.
Proof.
  intros Hcache HI. unfold handleClientHello.
  destruct (checkClientHello s d data) as [[[[h p] key]|]|e]; [|by eauto 10..].
  destruct (prepareClientHello_inv held A D s (sd_nonceNow d) (sd_nonceStored d)
    (connections s !! Codec.SourceId h) (Codec.ClientNonce p) (Codec.ClientEphemeralKey p) Hcache HI)
    as (s1 & r & -> & HI1 & Ho1 & Hc1 & Hsub & Htrue & Hfalse). cbn [mbind option_bind].
  destruct r as [[|]|e]; [| |by eauto 10].
  - exists s1, (Ok (connections s !! Codec.SourceId h)). split_and!; try done.
    rewrite <- (Htrue eq_refl). destruct (connections s1 !! Codec.SourceId h) as [i|] eqn:Ei; [|done].
    destruct (vi_table _ _ _ _ _ HI1 _ _ Ei) as (k & Hk & Hid & _).
    exists None, k. split_and!; try done. left. split; [done|by rewrite Hid].
  - case_if as Ej; [by eauto 10|].
    pose proof (reserveConnection_view s1) as Hr.
    destruct (reserveConnection s1) as [s2 [|]]; destruct Hr as (Ho2 & Hc2 & Ht2 & Hcs2 & Hr); cbn [negb].
    2:{ exists s2. eexists. rewrite Hr, Ho2, Hc2. split_and!; done || congruence. }
    destruct Hr as (Hlt1 & Hlt2 & Hv2).
    destruct (newSession s2 d _ key _ _) as [conn|e] eqn:Hs.
    2:{ eexists _, _. split; [reflexivity|]. cbn. rewrite Ho2, Hc2. split_and!; try done.
        replace (viewOf _) with (viewOf s1); [done|]. unfold viewOf in *. cbn in *.
        injection Hv2 as ? ? ? ? ? ? ? ? ? ? ?. f_equal; congruence || lia. }
    eexists _, _. split; [reflexivity|]. cbn [options serverClosed update]. rewrite Ho2, Hc2.
    split_and!; try done. apply newSession_core in Hs. rewrite Ho2 in Hs.
    set (i := fresh (dom (conns s2))).
    assert (Hfresh : v_cores (viewOf s1) !! i = None).
    { cbn. rewrite lookup_fmap, <- Hcs2. unfold i. rewrite (proj1 (not_elem_of_dom _ _)); [done|].
      apply is_fresh. }
    exists (Some i), (freshCore (options s1) (Codec.SourceId h)). split_and!.
    + pose proof (vinv_insert held A D (viewOf s1) i (Codec.SourceId h) HI1 Hfresh Hlt1 Hlt2) as Hins.
      replace (viewOf _) with ((viewOf s1) <| v_cores ::= <[i := freshCore (v_options (viewOf s1))
        (Codec.SourceId h)]> |> <| v_total ::= (λ n, n + 1) |> <| v_pending ::= (λ n, n + 1) |>);
        [done|]. unfold viewOf in *. cbn in *. injection Hv2 as ? ? ? ? ? ? ? ? ? ? ?.
      rewrite fmap_insert, Hs. f_equal; congruence.
    + cbn. by rewrite fmap_insert, Hs, lookup_insert_eq.
    + right. split; [done|]. cbn. rewrite Ht2. apply eq_None_not_Some. intros [j Hj].
      apply (Hfalse eq_refl _ _ Hj). by apply Hsub.
Qed.

(** A connection that is handed over enters the table or is closed. *)
Lemma setConnection_inv held A D s i :
  handed held A D s i →
  let '(s', ok) := setConnection s i in
  options s' = options s ∧
  if ok then vinv None held A D (viewOf s')
  else ∃ X, vinv X held A D (viewOf s') ∧ (X = None ∨ X = Some i).
Proof.
  intros (X & k & HI & Hk & HX). unfold setConnection.
  assert (HX' : X = None ∨ X = Some i) by (destruct HX as [[-> _]|[-> _]]; auto).
  destruct (serverClosed s); [by eauto|].
  destruct (cores_inv _ _ _ Hk) as (c & Hi & ->). rewrite Hi.
  destruct (closed c) eqn:Hc; [by eauto|]. split; [done|]. destruct HX as [[-> Ht]|[-> Ht]].
  - replace (viewOf _) with (viewOf s); [done|]. unfold viewOf. cbn. by rewrite insert_id.
  - destruct HI. split; cbn; try done.
    + intros j k0 Hj Hc0 _. destruct (decide (j = i)) as [->|Hne].
      * cbn in Hk. rewrite Hk in Hj. injection Hj as <-. by rewrite lookup_insert_eq.
      * rewrite lookup_insert_ne; [by apply vi_live0; [..|congruence]|]. intros Heq.
        pose proof (vi_live0 _ _ Hj Hc0 ltac:(congruence)) as Hl. cbn in Hl, Ht. congruence.
    + intros id j Hj. destruct (decide (id = sourceId c)) as [->|Hne].
      * rewrite lookup_insert_eq in Hj. injection Hj as <-. eauto.
      * rewrite lookup_insert_ne in Hj by done. by apply vi_table0.
Qed.

Lemma sendServerHello_view s i publish :
  viewOf (sendServerHello s i publish).1 = viewOf s ∧
  options (sendServerHello s i publish).1 = options s.
Proof.
  unfold sendServerHello. destruct (conns s !! i) as [c|] eqn:Hi; [|done].
  destruct (Handshake.SignServerHello _ _ _ _ _ _ _ _ _) as [sig|]; [|done].
  destruct (Codec.EncodeMessage _ _) as [[hc m] [data|]]; [destruct (publish data)|]; cbn [fst];
    (split; [by apply view_same|done]).
Qed.

Lemma startHandshakeTimer_view s i : viewOf (startHandshakeTimer s i) = viewOf s.
Proof.
  apply view_same. intros c _. by destruct (negb (handshakeTimer c) && negb (closed c)).
Qed.

Lemma onHello_inv held A D s allow d publish data :
  cache_step (sd_nonceStored d) → vinv None held A D (viewOf s) →
  ∃ s' r, onHello s allow d publish data = Some (s', r) ∧ vinv None held A D (viewOf s').
Proof.
  intros Hcache HI. unfold onHello. destruct allow; cbn [negb]; [|by eauto].
  destruct (handleClientHello_inv held A D s d data Hcache HI) as (s1 & r & -> & _ & _ & Hr).
  cbn [mbind option_bind]. destruct r as [[i|]|e]; [|by eauto..].
  pose proof (setConnection_inv _ _ _ _ _ Hr) as Hset.
  destruct (setConnection s1 i) as [s2 [|]]; destruct Hset as [_ Hset]; cbn [negb].
  - pose proof (startHandshakeTimer_view s2 i) as Hv.
    destruct (sendServerHello_view (startHandshakeTimer s2 i) i publish) as [Hv' _].
    destruct (sendServerHello _ _ _) as [s3 [answer|e]]; cbn in Hv';
      rewrite <- Hv, <- Hv' in Hset; [by eauto|]. destruct (Close_inv _ _ _ _ _ i Hset) as (s4 & -> & ? & _).
    cbn. eauto.
  - destruct Hset as (X & HI2 & HX). destruct (Close_inv _ _ _ _ _ i HI2) as (s3 & -> & HI3 & Hcl).
    cbn. eexists _, _. split; [done|]. destruct HX as [-> | ->]; [done|].
    eapply vinv_drop; [done|apply Hcl].
Qed.

(** ** The offer callback *)

Lemma onTransportSelect_view s i c transport :
  viewOf (onTransportSelect s i c transport).1 = viewOf s.
Proof.
  unfold onTransportSelect. case_ifs; try done. cbn [fst]. apply view_same.
  intros c0 _. by destruct (bool_decide (selectedTransport c0 = EmptyString)).
Qed.

Lemma onICEOffer_view s i c p : viewOf (onICEOffer s i c p).1 = viewOf s.
Proof. unfold onICEOffer. case_ifs; try done. cbn [fst]. by apply view_same. Qed.

Lemma onOffer_inv held A D s data :
  vinv None held A D (viewOf s) →
  ∃ s' spawn, onOffer s data = Some (s', spawn) ∧ vinv None held A D (viewOf s').
Proof.
  intros HI. unfold onOffer. destruct (Codec.DecodeMessageHeader _ _) as [header|]; [|by eauto].
  case_if as E1; [by eauto|]. destruct (connections s !! _) as [i|]; [|by eauto].
  destruct (conns s !! i) as [c|] eqn:Hi; [|by eauto].
  destruct (Channel.DecodeMessage _ _ ≫= parts) as [[h p]|]; [|by eauto].
  destruct (Replay.Accept (signalRecv c) (Codec.Sequence h)) as [w fresh].
  set (s1 := updateConn s i (λ c, c <| signalRecv := w |>)).
  assert (Hv : viewOf s1 = viewOf s) by (by apply view_same).
  rewrite <- Hv in HI. case_if as E2; [by eauto|]. case_if as E3.
  { destruct (Close_inv _ _ _ _ _ i HI) as (s2 & -> & ? & _). cbn. eauto. }
  pose proof (onTransportSelect_view s1 i c (Codec.Transport p)) as Hsel.
  pose proof (onICEOffer_view s1 i c p) as Hoff.
  destruct (bool_decide (Codec.Type_ h = Codec.MessageTypeTransportSelect)).
  { destruct (onTransportSelect _ _ _ _) as [s2 sp]. cbn in Hsel. rewrite <- Hsel in HI. eauto. }
  destruct (bool_decide (Codec.Type_ h = Codec.MessageTypeICEOffer)); [|by eauto].
  destruct (onICEOffer _ _ _ _) as [s2 sp]. cbn in Hoff. rewrite <- Hoff in HI. eauto.
Qed.

(** ** The goroutines that set up a connection *)

Lemma vinv_mono X held A D A' D' v :
  (∀ a, A a → A' a) → (∀ t, D t → D' t) → vinv X held A D v → vinv X held A' D' v.
Proof.
  intros HA HD []. split; try done.
  - intros a [?|?]%vi_agents0; auto.
  - intros t [?|?]%vi_transports0; auto.
Qed.

Definition st_agent (st : stage) : option nat :=
  match st with AtInstall _ a _ => Some a | _ => None end.
Definition st_transport (st : stage) : option nat :=
  match st with AtAttach _ _ t => Some t | _ => None end.

Lemma vinv_agents X held A D A' v agents :
  vinv X held A D v →
  (∀ a, a ∈ agents → (a ∈ v_agents v ∧ (A a → A' a)) ∨ A' a) →
  vinv X held A' D (v <| v_agents := agents |>).
Proof.
  intros [] Ha. split; cbn; try done.
  intros a [[Hin HA]|?]%Ha; [|by right]. destruct (vi_agents0 a Hin); auto.
Qed.

Lemma vinv_transports X held A D D' v transports :
  vinv X held A D v →
  (∀ a, a ∈ transports → (a ∈ v_transports v ∧ (D a → D' a)) ∨ D' a) →
  vinv X held A D' (v <| v_transports := transports |>).
Proof.
  intros [] Ha. split; cbn; try done.
  intros a [[Hin HA]|?]%Ha; [|by right]. destruct (vi_transports0 a Hin); auto.
Qed.

(** A change of an open connection that leaves its buffer and its total lease and
    takes over what a goroutine held. *)
Lemma vinv_adjust X held A D v i k k' A' D' pending :
  vinv X held A D v → v_cores v !! i = Some k → core_ok k' →
  k_id k' = k_id k → k_closed k' = k_closed k → k_buf k' = k_buf k →
  pending = v_pending v - count (k_pending k) + count (k_pending k') → pending ≤ v_pending v →
  (∀ a, A a ∨ k_agent k = Some a → A' a ∨ k_agent k' = Some a) →
  (∀ t, D t ∨ k_transport k = Some t → D' t ∨ k_transport k' = Some t) →
  vinv X held A' D' (v <| v_cores ::= <[i := k']> |> <| v_pending := pending |>).
Proof.
  intros HI Hi Hk' Hid Hcl Hbuf Hp Hle HA HD. pose proof HI as [].
  pose proof (vi_core0 _ _ Hi) as Hk. destruct vi_budget0 as (x & ? & ? & ?).
  apply (vinv_update X held A D v i k); try done.
  - rewrite (ko_total _ Hk), (ko_total _ Hk'), Hcl. cbn [v_total update]. lia.
  - lia.
  - exists x. assert (buffered k' = buffered k) as -> by (unfold buffered; by rewrite Hbuf).
    split_and!; [done|by apply vi_budget_limit0|lia..].
  - intros a Ha. destruct (decide (k_agent k' = Some a)) as [?|Hne]; [by right; left|].
    destruct (decide (k_agent k = Some a)) as [Hka|]; [destruct (HA a) as [?|?]; auto|].
    left. split_and!; [done| |done]. intros HAa. destruct (HA a) as [?|?]; [by left|done|done].
  - intros a Ha. destruct (decide (k_transport k' = Some a)) as [?|Hne]; [by right; left|].
    destruct (decide (k_transport k = Some a)) as [Hka|]; [destruct (HD a) as [?|?]; auto|].
    left. split_and!; [done| |done]. intros HDa. destruct (HD a) as [?|?]; [by left|done|done].
Qed.

Lemma installICEAgent_inv held A D s i agent :
  vinv None held (λ a, A a ∨ agent = a) D (viewOf s) →
  vinv None held A D (viewOf (installICEAgent s i agent).1).
Proof.
  intros HI.
  assert (Hfail : vinv None held A D (viewOf (s <| agentsOpen ::= closeOne (Some agent) |>))).
  { apply (vinv_agents _ _ _ _ A _ (closeOne (Some agent) (agentsOpen s)) HI).
    intros a [Hin Hne]%closeOne_elem. left. split; [done|]. intros [? | ->]; done. }
  unfold installICEAgent. destruct (conns s !! i) as [c|] eqn:Hi; [|done].
  case_if as E; [|done]. cbn [fst].
  destruct (updateConn_moves s i (λ c, c <| iceAgent := Some agent |>) c Hi) as [_ -> _].
  pose proof (vi_core _ _ _ _ _ HI _ _ (cores_lookup _ _ _ Hi)) as Hk.
  eapply (vinv_adjust None held _ D (viewOf s) i (coreOf c) _ A D); try done.
  - by apply cores_lookup.
  - destruct Hk. split; cbn in *; try done. congruence.
  - cbn. lia.
  - cbn. intros a [[? | ->]|?]; [by left|by right|congruence].
Qed.

Lemma installTransport_inv held A D s i agent conn size :
  vinv None held A (λ t, D t ∨ conn = t) (viewOf s) →
  vinv None held A D (viewOf (installTransport s i agent conn size).1).
Proof.
  intros HI.
  assert (Hfail : vinv None held A D (viewOf (s <| transportsOpen ::= closeOne (Some conn) |>))).
  { apply (vinv_transports _ _ _ _ D _ (closeOne (Some conn) (transportsOpen s)) HI).
    intros a [Hin Hne]%closeOne_elem. left. split; [done|]. intros [? | ->]; done. }
  unfold installTransport. destruct (conns s !! i) as [c|] eqn:Hi; [|done].
  case_if as E; [|done]. cbn [fst].
  destruct (updateConn_moves s i (λ c, c <| transportConn := Some conn |>
    <| transportMaxFrameSize := size |>) c Hi) as [_ -> _].
  pose proof (vi_core _ _ _ _ _ HI _ _ (cores_lookup _ _ _ Hi)) as Hk.
  eapply (vinv_adjust None held A _ (viewOf s) i (coreOf c) _ A D); try done.
  - by apply cores_lookup.
  - destruct Hk. split; cbn in *; try done; congruence.
  - cbn. lia.
  - cbn. intros t [[? | ->]|?]; [by left|by right|congruence].
Qed.

Lemma markEstablished_inv held A D s i agent conn :
  vinv None held A D (viewOf s) →
  vinv None held A D (viewOf (markEstablished s i agent (Some conn)).1).
Proof.
  intros HI. unfold markEstablished. destruct (conns s !! i) as [c|] eqn:Hi; [|done].
  case_if as E; [done|]. cbn [fst].
  destruct (updateConn_moves s i (λ c, c <| established := true |>) c Hi) as [I1 V1 _].
  destruct (releasePending_moves _ i _ I1) as [I2 V2 _].
  unfold stopHandshakeTimer. rewrite view_same by done. rewrite V2, V1.
  pose proof (vi_core _ _ _ _ _ HI _ _ (cores_lookup _ _ _ Hi)) as Hk.
  pose proof (vinv_adjust None held A D (viewOf s) i (coreOf c)
    (coreOf (c <| established := true |> <| pendingLease := false |>)) A D
    (pendingHandshakes s - count (pendingLease c)) HI) as Hadj.
  cbn in *. rewrite insert_insert_eq. apply Hadj; try done.
  - by rewrite lookup_fmap, Hi.
  - destruct Hk. b2p. split; cbn in *; try done; [by rewrite andb_false_r|congruence].
  - lia.
  - destruct (pendingLease c); cbn; lia.
Qed.

Lemma sendICEAnswer_view s i description publish :
  viewOf (sendICEAnswer s i description publish).1 = viewOf s.
Proof.
  unfold sendICEAnswer. case_if as E; [done|]. destruct (conns s !! i) as [c|]; [|done].
  destruct (Channel.EncodeMessage _ _) as [[sc m] [data|]]; cbn [fst]; by apply view_same.
Qed.

(** After a step the goroutine holds what its new stage says. *)
Definition stepped (held : Z) (A D : nat → Prop) (r : option (Server * option stage)) : Prop :=
  ∃ s' next, r = Some (s', next) ∧
    vinv None held (λ x, A x ∨ (next ≫= st_agent) = Some x)
      (λ x, D x ∨ (next ≫= st_transport) = Some x) (viewOf s').

Lemma stepped_free held A D s next :
  vinv None held A D (viewOf s) → stepped held A D (Some (s, next)).
Proof.
  intros HI. exists s, next. split; [done|]. eapply vinv_mono; [| |done]; intros; by left.
Qed.

Lemma closeReturn_stepped held A D s i :
  vinv None held A D (viewOf s) → stepped held A D (closeReturn s i).
Proof.
  intros HI. unfold closeReturn. destruct (Close_inv _ _ _ _ _ i HI) as (s' & -> & HI' & _).
  by apply stepped_free.
Qed.

Lemma closeAgent_stepped held A D s agent :
  vinv None held A D (viewOf s) → stepped held A D (Some (closeAgent s agent, None)).
Proof.
  intros HI. apply stepped_free.
  apply (vinv_agents _ _ A _ A _ (closeOne (Some agent) (agentsOpen s)) HI).
  intros a [Hin _]%closeOne_elem. by left.
Qed.

Lemma handOver_stepped held A D s i conn choice :
  vinv None held A D (viewOf s) → stepped held A D (handOver s i conn choice).
Proof.
  intros HI. unfold handOver. case_if as E1; [by apply closeReturn_stepped|].
  case_if as E2; [|by apply closeReturn_stepped]. apply stepped_free. destruct HI.
  split; try done; cbn in *.
  - rewrite len_app, len_cons, len_nil. lia.
  - intros j [Hj|Hj%list_elem_of_singleton]%elem_of_app; [by apply vi_accepted0|subst j].
    unfold isCurrentTransport in E1. rewrite lookup_fmap.
    destruct (conns s !! i); [by eexists|done].
Qed.

Lemma newAgent_stepped held A D s x st :
  vinv None held A D (viewOf s) → st_agent st = Some x → st_transport st = None →
  stepped held A D (Some (s <| agentsOpen ::= (λ l, {[x]} ∪ l) |>, Some st)).
Proof.
  intros HI H1 H2. eexists _, _. split; [done|]. cbn. rewrite H1, H2.
  apply (vinv_agents _ _ A D (λ y, A y ∨ Some x = Some y) _ ({[x]} ∪ agentsOpen s)) in HI as H.
  - eapply vinv_mono; [| |exact H]; [done|]. intros; by left.
  - intros y [->%elem_of_singleton|Hy]%elem_of_union; [by right; right|]. left. split; [done|by left].
Qed.

Lemma newTransport_stepped held A D s x st :
  vinv None held A D (viewOf s) → st_agent st = None → st_transport st = Some x →
  stepped held A D (Some (s <| transportsOpen ::= (λ l, {[x]} ∪ l) |>, Some st)).
Proof.
  intros HI H1 H2. eexists _, _. split; [done|]. cbn. rewrite H1, H2.
  apply (vinv_transports _ _ A D (λ y, D y ∨ Some x = Some y) _ ({[x]} ∪ transportsOpen s)) in HI as H.
  - eapply vinv_mono; [| |exact H]; [|done]. intros; by left.
  - intros y [->%elem_of_singleton|Hy]%elem_of_union; [by right; right|]. left. split; [done|by left].
Qed.

Lemma advance_stepped held A D s i st a :
  vinv None held (λ x, A x ∨ st_agent st = Some x) (λ x, D x ∨ st_transport st = Some x) (viewOf s) →
  stepped held A D (advance s i st a).
Proof.
  intros HI.
  assert (Hfree : st_agent st = None → st_transport st = None → vinv None held A D (viewOf s)).
  { intros H1 H2. rewrite H1, H2 in HI. eapply vinv_mono; [| |done]; intros ? [?|?]; done. }
  destruct st as [remote|name remote|name agent remote|name agent remote|name agent remote
    |name agent remote desc|name agent remote desc|name agent remote|name agent|t agent
    |t agent conn|t agent conn|conn]; cbn [advance];
    try specialize (Hfree eq_refl eq_refl).
  - destruct (selectedTransportForSetup s i) as [name ok]. by apply stepped_free.
  - case_if as E; [by apply newAgent_stepped|by apply closeReturn_stepped].
  - assert (HI' : vinv None held A D (viewOf (installICEAgent s i agent).1)).
    { apply installICEAgent_inv. eapply vinv_mono; [| |done]; cbn; [|intros ? [?|?]; done].
      intros x [?|[= ->]]; auto. }
    destruct (installICEAgent s i agent) as [s' ok]. by apply stepped_free.
  - case_if as E; [by apply stepped_free|by apply closeReturn_stepped].
  - case_ifs; [by apply stepped_free|by apply closeReturn_stepped|by apply closeAgent_stepped].
  - case_ifs; [by apply closeAgent_stepped|by apply closeReturn_stepped|by apply stepped_free].
  - case_if as E; [by apply stepped_free|].
    pose proof (sendICEAnswer_view s i desc (a_publish a)) as Hv.
    destruct (sendICEAnswer s i desc (a_publish a)) as [s' [|]]; cbn in Hv; rewrite <- Hv in Hfree;
      [by apply stepped_free|by apply closeReturn_stepped].
  - case_if as E; [by apply stepped_free|by apply closeReturn_stepped].
  - case_if as E; [by apply stepped_free|].
    destruct (findTransport _ _); [by apply stepped_free|by apply closeReturn_stepped].
  - case_if as E; [by apply newTransport_stepped|by apply closeReturn_stepped].
  - assert (HI' : vinv None held A D (viewOf (installTransport s i agent conn (TransportFrameSize t)).1)).
    { apply installTransport_inv. eapply vinv_mono; [| |done]; cbn; [intros ? [?|?]; done|].
      intros x [?|[= ->]]; auto. }
    destruct (installTransport s i agent conn (TransportFrameSize t)) as [s' ok]. by apply stepped_free.
  - set (s1 := updateConn s i (λ c, c <| lastTransportRead := a_now a |>)).
    assert (Hv : viewOf s1 = viewOf s) by (by apply view_same). rewrite <- Hv in Hfree.
    apply (markEstablished_inv _ _ _ _ i (Some agent) conn) in Hfree.
    destruct (markEstablished s1 i (Some agent) (Some conn)) as [s2 [|]];
      [by apply stepped_free|by apply closeReturn_stepped].
  - by apply handOver_stepped.
Qed.

(** ** The budget *)

Lemma vinv_budget X held A D v held' x y :
  vinv X held A D v → v_budget v = Some x → Buffer.limit y = Buffer.limit x →
  Buffer.used y = Buffer.used x - held + held' → Buffer.used y ≤ Buffer.limit y → 0 ≤ held' →
  vinv X held' A D (v <| v_budget := Some y |>).
Proof.
  intros [] Hx Hl Hu Hle Hh. destruct vi_budget0 as (x' & Hx' & ? & ?).
  rewrite Hx in Hx'. injection Hx' as <-. split; cbn; try done.
  - exists y. split_and!; done || lia.
  - intros ? [= <-]. rewrite Hl. by apply vi_budget_limit0.
Qed.

(** A connection whose buffer was read or written, with the budget. *)
Lemma vinv_buffer held A D s i c f rb b :
  vinv None held A D (viewOf s) → conns s !! i = Some c →
  coreOf (f c) = mkCore (sourceId c) (closed c) (closeDone c) (established c) (iceAgent c)
    (transportConn c) (bool_decide (is_Some (dataChannel c))) rb (pendingLease c) (totalLease c) →
  Buffer.closed rb = Buffer.closed (recvBuf c) → Buffer.rlimit rb = Buffer.rlimit (recvBuf c) →
  len (Buffer.buf rb) ≤ Buffer.rlimit rb → (closed c = true → Buffer.buf rb = []) →
  Buffer.moved (bufferBudget s) b (len (Buffer.buf (recvBuf c))) (len (Buffer.buf rb)) →
  vinv None held A D (viewOf ((updateConn s i f) <| bufferBudget := b |>)).
Proof.
  intros HI Hi Hf Hcl Hlim Hlen Hempty Hm. pose proof HI as [].
  destruct (updateConn_moves s i f c Hi) as [_ V _].
  change (viewOf ((updateConn s i f) <| bufferBudget := b |>)) with
    ((viewOf (updateConn s i f)) <| v_budget := b |>). rewrite V, Hf.
  pose proof (vi_core0 _ _ (cores_lookup _ _ _ Hi)) as []. cbn in *.
  destruct vi_budget0 as (x & Hx & Hu & Hl). rewrite Hx in Hm. destruct b as [y|]; [|done]. cbn in Hm.
  apply (vinv_update None held A D (viewOf s) i (coreOf c)); try done; cbn.
  - by rewrite lookup_fmap, Hi.
  - split; cbn in *; try done; try congruence.
    intros H. destruct (ko_closed0 H) as (? & ? & ? & _). auto.
  - lia.
  - lia.
  - exists y. unfold buffered in *. cbn. split_and!; [done|rewrite (proj1 Hm); by apply vi_budget_limit0|lia..].
  - intros a Ha. destruct (decide (iceAgent c = Some a)); [by right; left|by left].
  - intros t Ht. destruct (decide (transportConn c = Some t)); [by right; left|by left].
Qed.

(** The two calls on a receive buffer, from the specification of Buffer.v. *)
Lemma buffer_covers X held A D s i c :
  vinv X held A D (viewOf s) → conns s !! i = Some c →
  Buffer.covers (bufferBudget s) (len (Buffer.buf (recvBuf c))) ∧
  Buffer.wfc (Buffer.mkConn (recvBuf c) (Buffer.buf (recvBuf c)) []).
Proof.
  intros [] Hi. pose proof (vi_core0 _ _ (cores_lookup _ _ _ Hi)) as [].
  pose proof (msum_ge buffered _ i _ (λ j k _, cores_buffered_nonneg k) (cores_lookup _ _ _ Hi)) as Hge.
  destruct vi_budget0 as (x & Hx & Hu & Hl). unfold buffered in Hge at 1. cbn in *. split; [|by split].
  intros z Hz. rewrite Hx in Hz. injection Hz as <-. lia.
Qed.

Lemma Write_inv held A D s i c raw f :
  vinv None held A D (viewOf s) → conns s !! i = Some c →
  (∀ rb, coreOf (f rb c) = mkCore (sourceId c) (closed c) (closeDone c) (established c) (iceAgent c)
    (transportConn c) (bool_decide (is_Some (dataChannel c))) rb (pendingLease c) (totalLease c)) →
  let '(rb, b, _) := Buffer.Write (recvBuf c) (bufferBudget s) raw in
  vinv None held A D (viewOf ((updateConn s i (f rb)) <| bufferBudget := b |>)).
Proof.
  intros HI Hi Hf. destruct (buffer_covers _ _ _ _ _ _ _ HI Hi) as [Hcov Hwf].
  destruct (Buffer.conn_step_spec _ _ (Buffer.BWrite 0 raw) Hwf Hcov) as (c' & b' & Hs & Hwf' & Hm).
  cbn [Buffer.conn_step Buffer.rb] in Hs.
  assert (Hw : ∀ rb b r, Buffer.Write (recvBuf c) (bufferBudget s) raw = (rb, b, r) →
    Buffer.closed rb = Buffer.closed (recvBuf c) ∧ Buffer.rlimit rb = Buffer.rlimit (recvBuf c) ∧
    (Buffer.closed (recvBuf c) = true → rb = recvBuf c)).
  { intros rb b r. unfold Buffer.Write. case_if as E1; [by intros [= <- <- <-]|].
    case_if as E2; [by intros [= <- <- <-]|]. destruct (Buffer.Reserve _ _) as [b0 [|]]; cbn;
      by intros [= <- <- <-]. }
  destruct (Buffer.Write _ _ _) as [[rb b] r]. injection Hs as <- <-. cbn in *.
  destruct (Hw _ _ _ eq_refl) as (H1 & H2 & H3).
  pose proof (vi_core _ _ _ _ _ HI _ _ (cores_lookup _ _ _ Hi)) as Hk.
  apply (vinv_buffer held A D s i c (f rb) rb); try done; [by apply Hwf'|].
  intros Hc. rewrite H3; [by apply (ko_closed _ Hk)|]. pose proof (ko_buf_closed _ Hk) as Hb.
  cbn in Hb. congruence.
Qed.

Lemma Read_inv held A D s i c now size :
  vinv None held A D (viewOf s) → conns s !! i = Some c →
  ∃ rb b out, Buffer.Read (recvBuf c) (bufferBudget s) now size = Some (rb, b, out) ∧
    vinv None held A D (viewOf ((updateConn s i (λ c, c <| recvBuf := rb |>)) <| bufferBudget := b |>)).
Proof.
  intros HI Hi. destruct (buffer_covers _ _ _ _ _ _ _ HI Hi) as [Hcov Hwf].
  destruct (Buffer.conn_step_spec _ _ (Buffer.BRead 0 now size) Hwf Hcov) as (c' & b' & Hs & Hwf' & Hm).
  cbn [Buffer.conn_step Buffer.rb] in Hs.
  assert (Hr : ∀ rb b out, Buffer.Read (recvBuf c) (bufferBudget s) now size = Some (rb, b, out) →
    Buffer.closed rb = Buffer.closed (recvBuf c) ∧ Buffer.rlimit rb = Buffer.rlimit (recvBuf c) ∧
    (Buffer.buf (recvBuf c) = [] → Buffer.buf rb = [])).
  { intros rb b out. unfold Buffer.Read. case_if as E1; [by intros [= <- <- <-]|].
    destruct (Buffer.Release _ _); [|done]. cbn. intros [= <- <- <-]. cbn. split_and!; try done.
    intros ->. by rewrite drop_nil. }
  destruct (Buffer.Read _ _ _ _) as [[[rb b] out]|]; [|done]. cbn in Hs. injection Hs as <- <-.
  destruct (Hr _ _ _ eq_refl) as (H1 & H2 & H3).
  pose proof (vi_core _ _ _ _ _ HI _ _ (cores_lookup _ _ _ Hi)) as Hk.
  exists rb, b, out. split; [done|].
  apply (vinv_buffer held A D s i c _ rb); try done; [by apply Hwf'|].
  intros Hc. apply H3. by apply (ko_closed _ Hk).
Qed.

(** ** The machine *)

Definition reader_held (r : reader) : Z := default 0 (r_held r).

(** A goroutine in the map holds the agent, or the transport. *)
Definition holds (f : stage → option nat) (m : gmap nat (nat * stage)) (x : nat) : Prop :=
  ∃ j p, m !! j = Some p ∧ f p.2 = Some x.

Record winv (w : world) : Prop := {
  wi_view : vinv None (msum reader_held (readers w)) (holds st_agent (setups w))
              (holds st_transport (setups w)) (viewOf (server w));
  wi_held : ∀ j r, readers w !! j = Some r → 0 ≤ reader_held r
}.

(** The other goroutines, and the one that steps. *)
Lemma holds_split f (m : gmap nat (nat * stage)) j p x :
  m !! j = Some p → holds f m x → holds f (delete j m) x ∨ f p.2 = Some x.
Proof.
  intros Hj (j' & p' & Hj' & Hf). destruct (decide (j' = j)) as [->|Hne].
  - right. congruence.
  - left. exists j', p'. by rewrite lookup_delete_ne.
Qed.

Lemma holds_join f (m : gmap nat (nat * stage)) j i next x :
  holds f (delete j m) x ∨ (next ≫= f) = Some x →
  holds f (match next with Some st => <[j := (i, st)]> m | None => delete j m end) x.
Proof.
  intros [(j' & p & Hj' & Hf)|Hn].
  - apply lookup_delete_Some in Hj' as [Hne Hj']. exists j', p. split; [|done].
    destruct next; [by rewrite lookup_insert_ne|by rewrite lookup_delete_ne].
  - destruct next as [st|]; [|done]. exists j, (i, st). by rewrite lookup_insert_eq.
Qed.

Lemma winv_server w s :
  winv w → vinv None (msum reader_held (readers w)) (holds st_agent (setups w))
             (holds st_transport (setups w)) (viewOf s) → winv (w <| server := s |>).
Proof. intros [] ?. by split. Qed.

Lemma winv_close w i :
  winv w → ∃ s, Connection_Close (server w) i = Some s ∧ winv (w <| server := s |>).
Proof.
  intros Hw. destruct (Close_inv _ _ _ _ _ i (wi_view _ Hw)) as (s & Hs & HI & _).
  exists s. split; [done|by apply winv_server].
Qed.

Lemma setupStep_inv w j i st a :
  winv w → setups w !! j = Some (i, st) → ∃ w', setupStep w j i st a = Some w' ∧ winv w'.
Proof.
  intros [HI Hh] Hj. unfold setupStep.
  destruct (advance_stepped (msum reader_held (readers w)) (holds st_agent (delete j (setups w)))
    (holds st_transport (delete j (setups w))) (server w) i st a) as (s' & next & -> & HI').
  { eapply vinv_mono; [| |done]; intros x Hx; by apply (holds_split _ _ _ (i, st)). }
  cbn [mbind option_bind].
  assert (Hv : vinv None (msum reader_held (readers w))
    (holds st_agent (match next with Some st => <[j := (i, st)]> (setups w) | None => delete j (setups w) end))
    (holds st_transport (match next with Some st => <[j := (i, st)]> (setups w) | None => delete j (setups w) end))
    (viewOf s')) by (eapply vinv_mono; [| |done]; intros x Hx; by apply holds_join).
  destruct next as [st'|]; [|eexists; split; [done|]; by split].
  destruct st'; eexists; (split; [done|]); try by split.
  assert (Hnew : readers w !! fresh (dom (readers w)) = None)
    by apply not_elem_of_dom, is_fresh.
  split; cbn.
  - by rewrite msum_insert.
  - intros j' r Hr. destruct (decide (j' = fresh (dom (readers w)))) as [->|Hne].
    + rewrite lookup_insert_eq in Hr. by injection Hr as <-.
    + rewrite lookup_insert_ne in Hr by done. by apply (Hh j').
Qed.

Lemma winv_reader w j r r' s held' :
  winv w → readers w !! j = Some r → 0 ≤ reader_held r' →
  held' = msum reader_held (readers w) - reader_held r + reader_held r' →
  vinv None held' (holds st_agent (setups w)) (holds st_transport (setups w)) (viewOf s) →
  winv (w <| server := s |> <| readers ::= <[j := r']> |>).
Proof.
  intros [HI Hh] Hj Hr' -> Hv. split; cbn.
  - by rewrite (msum_update _ _ _ r).
  - intros j' r0 Hr0. destruct (decide (j' = j)) as [->|Hne].
    + rewrite lookup_insert_eq in Hr0. by injection Hr0 as <-.
    + rewrite lookup_insert_ne in Hr0 by done. by apply (Hh j').
Qed.

(** A reader stops when it holds nothing. *)
Lemma stop_reader_inv w j r i :
  winv w → readers w !! j = Some r → r_held r = None → ∃ w', stop_reader w j i = Some w' ∧ winv w'.
Proof.
  intros Hw Hj Hn. unfold stop_reader. destruct (winv_close w i Hw) as (s & -> & [HI Hh]).
  cbn. eexists. split; [done|]. cbn in *. split; cbn.
  - rewrite (msum_delete _ _ j r) in HI by done. unfold reader_held in HI at 1. by rewrite Hn in HI.
  - intros j' r' [_ Hr]%lookup_delete_Some. by apply (Hh j').
Qed.

Lemma winv_budget_covers w j r n :
  winv w → readers w !! j = Some r → r_held r = Some n → 0 ≤ n ∧ Buffer.covers (bufferBudget (server w)) n.
Proof.
  intros [[] Hh] Hj Hr. pose proof (Hh _ _ Hj) as H0. unfold reader_held in H0. rewrite Hr in H0.
  split; [done|]. destruct vi_budget0 as (x & Hx & Hu & Hl).
  pose proof (msum_ge reader_held _ j r Hh Hj) as Hge. unfold reader_held in Hge at 1. rewrite Hr in Hge.
  pose proof (msum_nonneg buffered (v_cores (viewOf (server w))) (λ _ k _, cores_buffered_nonneg k)).
  intros y Hy. cbn in Hx. rewrite Hx in Hy. injection Hy as <-. cbn in *. lia.
Qed.

Lemma readHead_inv w j r length :
  winv w → readers w !! j = Some r → r_held r = None →
  ∃ w', readHead w j r length = Some w' ∧ winv w'.
Proof.
  intros Hw Hj Hn. unfold readHead. destruct length as [n|]; [|by eapply stop_reader_inv].
  case_if as E; [by eapply stop_reader_inv|]. b2p.
  pose proof (wi_view _ Hw) as HI. pose proof (vi_budget _ _ _ _ _ HI) as (x & Hx & Hu & Hl).
  pose proof (vi_held _ _ _ _ _ HI) as Hh0. pose proof (vi_frame _ _ _ _ _ HI) as Hf. cbn in Hx, Hu, Hf.
  pose proof (msum_nonneg buffered (v_cores (viewOf (server w))) (λ _ k _, cores_buffered_nonneg k)) as Hb.
  assert (Hcov : Buffer.covers (Some x) 0) by (intros y [= <-]; cbn in *; lia).
  pose proof (Buffer.Reserve_spec (Some x) 0 n Hcov ltac:(lia) ltac:(lia)) as HR. rewrite Hx.
  destruct (Buffer.Reserve (Some x) n) as [b [|]].
  - destruct b as [y|]; [|done]. cbn in HR.
    eexists. split; [done|].
    apply (winv_reader w j r _ _ (msum reader_held (readers w) + n)); try done.
    + cbn. lia.
    + unfold reader_held at 3 4. rewrite Hn. cbn. lia.
    + apply (vinv_budget _ (msum reader_held (readers w)) _ _ (viewOf (server w)) _ x y);
        cbn; done || lia.
  - eapply (stop_reader_inv _ j r); [|done|done]. apply winv_server; [done|].
    subst b. replace (viewOf _) with (viewOf (server w)); [done|]. unfold viewOf. cbn. by rewrite Hx.
Qed.

Lemma readBody_inv w j r n f now :
  winv w → readers w !! j = Some r → r_held r = Some n →
  ∃ w', readBody w j r n f now = Some w' ∧ winv w'.
Proof.
  intros Hw Hj Hn. unfold readBody. destruct (winv_budget_covers w j r n Hw Hj Hn) as [H0 Hc].
  pose proof (wi_view _ Hw) as HI. pose proof (vi_budget _ _ _ _ _ HI) as (x & Hx & Hu & Hl).
  cbn in Hx. destruct (Buffer.Release_spec (bufferBudget (server w)) n n Hc) as (b & -> & Hm); [lia|].
  cbn [mbind option_bind]. rewrite Hx in Hm. destruct b as [y|]; [|done]. cbn in Hm.
  set (s := (server w) <| bufferBudget := Some y |>).
  set (w1 := w <| server := s |> <| readers ::= <[j := mkReader (r_conn r) (r_transport r) None]> |>).
  assert (Hge : n ≤ msum reader_held (readers w)).
  { pose proof (msum_ge reader_held _ j r (wi_held _ Hw) Hj) as Hge. unfold reader_held in Hge at 1.
    by rewrite Hn in Hge. }
  assert (Hw1 : winv w1).
  { apply (winv_reader w j r _ _ (msum reader_held (readers w) - n)); try done.
    - unfold reader_held at 3 4. rewrite Hn. cbn. lia.
    - apply (vinv_budget _ (msum reader_held (readers w)) _ _ (viewOf (server w)) _ x y);
        cbn; done || lia. }
  assert (Hj1 : readers w1 !! j = Some (mkReader (r_conn r) (r_transport r) None))
    by (cbn; by rewrite lookup_insert_eq).
  destruct f as [| | |raw]; [by eapply stop_reader_inv|by eauto|..].
  - case_if as E; [by eapply stop_reader_inv|]. eexists. split; [done|].
    apply winv_server; [done|]. rewrite view_same by done. apply Hw1.
  - case_if as E; [by eapply stop_reader_inv|]. destruct (conns s !! r_conn r) as [c|] eqn:Hi; [|by eauto].
    pose proof (Write_inv _ _ _ s (r_conn r) c raw
      (λ rb c, c <| lastTransportRead := now |> <| recvBuf := rb |>) (wi_view _ Hw1) Hi (λ _, eq_refl))
      as Hwr. destruct (Buffer.Write _ _ _) as [[rb b] res].
    assert (Hw2 : winv (w1 <| server := (updateConn s (r_conn r) (λ c, c <| lastTransportRead := now |>
      <| recvBuf := rb |>)) <| bufferBudget := b |> |>)) by (by apply winv_server).
    destruct (is_ok res); [by eauto|]. by eapply stop_reader_inv.
Qed.

Lemma monitorTick_inv w j i conn now sent :
  winv w → ∃ w', monitorTick w j i conn now sent = Some w' ∧ winv w'.
Proof.
  intros Hw.
  assert (Hstop : ∀ s, winv (w <| server := s |>) →
    winv (w <| server := s |> <| monitors ::= delete j |>)) by (intros s []; by split).
  assert (Hsame : w <| server := server w |> = w) by (by destruct w).
  unfold monitorTick. case_if as E1; [eexists; split; [done|]; apply Hstop; by rewrite Hsame|].
  destruct (conns (server w) !! i) as [c|]; [|eexists; split; [done|]; apply Hstop; by rewrite Hsame].
  case_if as E2; [|by eauto]. destruct (winv_close w i Hw) as (s & -> & ?). cbn. eexists. split; [done|]. by apply Hstop.
Qed.

Definition op_ok (o : op) : Prop :=
  match o with OHello _ d _ _ => cache_step (sd_nonceStored d) | _ => True end.

Lemma exec_inv w o : op_ok o → winv w → ∃ w', exec w o = Some w' ∧ winv w'.
Proof.
  intros Hop Hw. pose proof (wi_view _ Hw) as HI.
  destruct o as [allow d publish data|data|j a|j length|j f now|j now sent|i|i|i now size| |]; cbn [exec].
  - destruct (onHello_inv _ _ _ _ allow d publish data Hop HI) as (s & r & -> & ?). 
    eexists. split; [done|by apply winv_server].
  - destruct (onOffer_inv _ _ _ _ data HI) as (s & [[i offer]|] & -> & Hs); 
      [|eexists; split; [done|by apply winv_server]].
    eexists. split; [done|]. destruct Hw. split; [|done]. cbn.
    eapply vinv_mono; [| |done]; intros x (j & p & Hj & Hf); exists j, p;
      (split; [|done]); rewrite lookup_insert_ne; try done;
      intros <-; by rewrite (proj1 (not_elem_of_dom _ _) (is_fresh _)) in Hj.
  - destruct (setups w !! j) as [[i st]|] eqn:Hj; [|by eauto]. by apply setupStep_inv.
  - destruct (readers w !! j) as [r|] eqn:Hj; [|by eauto].
    case_bool_decide; [|by eauto]. by apply readHead_inv.
  - destruct (readers w !! j) as [r|] eqn:Hj; [|by eauto].
    destruct (r_held r) as [n|] eqn:Hr; [|by eauto]. by apply readBody_inv.
  - destruct (monitors w !! j) as [[i conn]|]; [|by eauto]. by apply monitorTick_inv.
  - destruct (conns (server w) !! i) as [c|]; [|by eauto]. destruct (pendingLease c); [|by eauto].
    destruct (winv_close w i Hw) as (s & -> & ?). by eexists.
  - destruct (winv_close w i Hw) as (s & -> & ?). by eexists.
  - destruct (conns (server w) !! i) as [c|] eqn:Hi; [|by eauto].
    destruct (Read_inv _ _ _ _ _ _ now size HI Hi) as (rb & b & out & -> & ?). 
    eexists. split; [done|by apply winv_server].
  - eexists. split; [done|]. apply winv_server; [done|]. destruct (serverClosed (server w)); [done|].
    destruct HI. split; cbn in *; try done.
    + destruct (acceptCh (server w)); [done|]. cbn. rewrite len_cons in vi_accept0. lia.
    + intros i Hi. apply vi_accepted0. destruct (acceptCh (server w)); [done|]. by right.
  - destruct (Server_Close_inv _ _ _ _ HI) as (s & -> & ? & _).
    eexists. split; [done|by apply winv_server].
Qed.

Lemma run_inv w os : Forall op_ok os → winv w → ∃ w', run w os = Some w' ∧ winv w'.
Proof.
  intros Hos. unfold run. revert w. induction Hos as [|o os Ho _ IH]; intros w Hw; [by eauto|].
  cbn. destruct (exec_inv w o Ho Hw) as (w' & -> & Hw'). by apply IH.
Qed.

End ServerProofs.

Section ServerTheorems.
Context `{C : !Crypto} `{S : !Signatures} `{K : !KeyExchange} `{T : !TimeFormat} `{R : !LRU}.
Context `{W : !WebRTC}.
Context `{GH : !Gob Codec.Header} `{GP : !Gob Codec.Payload} `{GC : !Gob (list (list byte))}.

(** ** A new server *)

Lemma NewServer_ok quic cfg s :
  NewServer quic cfg = Ok s →
  limitsInvalid (options s) = false ∧ conns s = ∅ ∧ connections s = ∅ ∧ acceptCh s = [] ∧
  agentsOpen s = ∅ ∧ transportsOpen s = ∅ ∧ totalConnections s = 0 ∧ pendingHandshakes s = 0 ∧
  bufferBudget s = Some (Buffer.NewByteBudget (MaxBufferedBytes (options s))) ∧
  nonceCache s = lru_new (LRUSize (options s)).
Proof.
  unfold NewServer. intros [_ H]%bind_ok_unit.
  do 4 apply bind_ok_unit in H as [_ H].
  apply bind_ok in H as (chosen & _ & H). apply bind_ok in H as (ts & _ & H).
  apply bind_ok_unit in H as [Hl H]. apply bind_ok_unit in H as [_ H].
  apply bind_ok in H as (id & _ & [= <-]). by apply guard_ok in Hl.
Qed.

Lemma start_inv (CacheOk : lru → Prop) quic cfg s :
  NewServer quic cfg = Ok s → MaxBufferedBytes (options s) < 2 ^ 62 → CacheOk (nonceCache s) →
  winv (options s) (serverId s, roomId s) CacheOk (start s).
Proof.
  intros (Hl & H1 & H2 & H3 & H4 & H5 & H6 & H7 & H8 & H9)%NewServer_ok Hb Hc.
  unfold limitsInvalid in Hl. b2p. split; [|done]. cbn.
  assert (Hv : v_cores (viewOf s) = ∅) by (cbn; by rewrite H1, fmap_empty).
  split; rewrite ?Hv; cbn [viewOf v_options v_cache v_table v_accept v_agents v_transports v_budget
    v_total v_pending]; rewrite ?H2, ?H3, ?H4, ?H5, ?H6, ?H7, ?H8, ?msum_empty, ?len_nil;
    try done; try lia.
  - eexists. split; [done|]. cbn. lia.
  - by intros ? [= <-].
  - intros i Hi. by apply elem_of_nil in Hi.
Qed.


(** Who owns what is open. *)
Lemma winv_open o n Q w i c :
  winv o n Q w → conns (server w) !! i = Some c → iceAgent c ≠ None ∨ transportConn c ≠ None →
  closed c = false.
Proof.
  intros [[] _] Hi Hne. destruct (closed c) eqn:E; [|done].
  destruct (ko_closed _ (vi_core0 _ _ (cores_lookup _ _ _ Hi)) E) as (_ & ? & ? & _). cbn in *. tauto.
Qed.

Lemma winv_agents o n Q w a :
  winv o n Q w → a ∈ agentsOpen (server w) →
  (∃ i c, conns (server w) !! i = Some c ∧ closed c = false ∧ iceAgent c = Some a) ∨
  (∃ j i name remote, setups w !! j = Some (i, AtInstall name a remote)).
Proof.
  intros Hw Ha. destruct (vi_agents _ _ _ _ _ _ _ _ (wi_view _ _ _ _ Hw) a Ha)
    as [(i & k & (c & Hi & ->)%cores_inv & Hk)|(j & [i st] & Hj & Hk)]; cbn in Hk.
  - left. exists i, c. split_and!; [done| |done]. eapply winv_open; [done..|]. left. congruence.
  - right. destruct st; try done. injection Hk as ->. eauto.
Qed.

Lemma winv_transports o n Q w t :
  winv o n Q w → t ∈ transportsOpen (server w) →
  (∃ i c, conns (server w) !! i = Some c ∧ closed c = false ∧ transportConn c = Some t) ∨
  (∃ j i tr agent, setups w !! j = Some (i, AtAttach tr agent t)).
Proof.
  intros Hw Ha. destruct (vi_transports _ _ _ _ _ _ _ _ (wi_view _ _ _ _ Hw) t Ha)
    as [(i & k & (c & Hi & ->)%cores_inv & Hk)|(j & [i st] & Hj & Hk)]; cbn in Hk.
  - left. exists i, c. split_and!; [done| |done]. eapply winv_open; [done..|]. right. congruence.
  - right. destruct st; try done. injection Hk as ->. eauto.
Qed.

(** C10: nothing leaks.  In every state the server can reach, an ICE agent that has
    not been closed belongs to an open connection or to a goroutine that is about
    to install it, and a transport likewise; a closed connection keeps no agent,
    transport, channel, lease or buffered byte.  So when the goroutines have
    returned and no connection is in the table, as after [Close], every agent and
    transport is closed. *)
Theorem server_no_leak (quic : ITransport) (cfg : Config) (s : Server) (os : list op) (w : world) :
  NewServer quic cfg = Ok s → MaxBufferedBytes (options s) < 2 ^ 62 →
  run (start s) os = Some w →
  let s' := server w in
  (∀ a, a ∈ agentsOpen s' →
     (∃ i c, conns s' !! i = Some c ∧ closed c = false ∧ iceAgent c = Some a) ∨
     (∃ j i name remote, setups w !! j = Some (i, AtInstall name a remote))) ∧
  (∀ t, t ∈ transportsOpen s' →
     (∃ i c, conns s' !! i = Some c ∧ closed c = false ∧ transportConn c = Some t) ∨
     (∃ j i tr agent, setups w !! j = Some (i, AtAttach tr agent t))) ∧
  (∀ i c, conns s' !! i = Some c → closed c = true →
     iceAgent c = None ∧ transportConn c = None ∧ dataChannel c = None ∧
     pendingLease c = false ∧ totalLease c = false ∧ Buffer.buf (recvBuf c) = []) ∧
  (setups w = ∅ → connections s' = ∅ → agentsOpen s' = ∅ ∧ transportsOpen s' = ∅).
Proof.
  intros Hs Hb Hrun. destruct (run_inv (options s) (serverId s, roomId s) (λ _, True) (start s) os) as (w' & Hw & Hinv).
  { apply Forall_true. by intros []. }
  { by apply (start_inv _ quic cfg). }
  rewrite Hrun in Hw. injection Hw as <-. pose proof (wi_view _ _ _ _ Hinv) as []. intros s'.
  split_and!; [intros a; by eapply winv_agents|intros t; by eapply winv_transports|..].
  - intros i c Hi Hcl. destruct (vi_core0 _ _ (cores_lookup _ _ _ Hi)). cbn in *. rewrite Hcl in *.
    destruct (ko_closed0 eq_refl) as (_ & ? & ? & ?). split_and!; try done.
    destruct (dataChannel c); [|done]. apply bool_decide_eq_false in ko_channel0. by destruct ko_channel0.
  - intros He Ht.
    assert (Hall : ∀ i c, conns s' !! i = Some c → closed c ≠ false).
    { intros i c Hi E. pose proof (vi_live0 i (coreOf c) (cores_lookup _ _ _ Hi) E ltac:(done)) as Hl.
      cbn in Hl. unfold s' in Ht. by rewrite Ht in Hl. }
    split; apply set_eq; intros x; (split; [|set_solver]); intros Hx.
    + destruct (winv_agents _ _ _ _ _ Hinv Hx) as [(i & c & Hi & Hcl & _)|(j & i & n & r & Hj)];
        [by apply (Hall _ _ Hi) in Hcl|by rewrite He in Hj].
    + destruct (winv_transports _ _ _ _ _ Hinv Hx) as [(i & c & Hi & Hcl & _)|(j & i & n & r & Hj)];
        [by apply (Hall _ _ Hi) in Hcl|by rewrite He in Hj].
Qed.

(** ** Replayed hellos *)

Context `{L : !CryptoLaws C} `{RL : !LRULaws R}.

(** What the checks of one hello say does not depend on the draws of the call,
    only on the clock. *)
Lemma checkClientHello_same s s' d d' data h p key h' p' key' :
  options s' = options s → serverId s' = serverId s → roomId s' = roomId s →
  Encryption.entropy (sd_rnd d) → Encryption.entropy (sd_rnd d') →
  checkClientHello s d data = Ok (Some (h, p, key)) →
  checkClientHello s' d' data = Ok (Some (h', p', key')) →
  h' = h ∧ p' = p ∧ ∃ ts, parseTime (Codec.Timestamp p) = Some ts ∧
    - ClockSkew (options s) ≤ timeSub (sd_now d) ts ≤ ClockSkew (options s) ∧
    - ClockSkew (options s) ≤ timeSub (sd_now d') ts ≤ ClockSkew (options s).
Proof.
  intros Ho Hi Hr He He' H H'. unfold checkClientHello in H, H'.
  destruct (Codec.DecodeMessageHeader zeroCodec data) as [hd|]; [|done]. cbn [mbind result_bind] in H, H'.
  destruct (bool_decide (Codec.TargetId hd = EmptyString)
    && bool_decide (Codec.Type_ hd = Codec.MessageTypeClientHello)); [|done]. rewrite Ho, Hi, Hr in H'.
  do 2 (apply bind_ok_unit in H as [_ H]; apply bind_ok_unit in H' as [_ H']).
  destruct (KeyProvider (options s) (Codec.SourceId hd)) as [k|]; [|done]. cbn [mbind result_bind] in H, H'.
  apply bind_ok_unit in H as [_ H]; apply bind_ok_unit in H' as [_ H'].
  destruct (Handshake.DeriveClientHelloKey _ _ _ _ _) as [hk|]; [|done]. cbn [mbind result_bind] in H, H'.
  apply bind_ok in H as (e & Hec & H). apply bind_ok in H' as (e' & Hec' & H').
  apply Channel.NewCodec_keyed in Hec as [Hec _]; [|done].
  apply Channel.NewCodec_keyed in Hec' as [Hec' _]; [|done].
  pose proof (Channel.keyed_same _ _ _ _ _ Hec Hec') as Hsame.
  destruct Hec as (? & kit & [= <-] & Hw & _). destruct Hec' as (? & kit' & [= <-] & Hw' & _).
  rewrite <- (Codec.DecodeMessage_same e e' kit kit' data Hw Hw' Hsame) in H'.
  destruct (Codec.DecodeMessage e data) as [m|]; [|done]. cbn [mbind result_bind] in H, H'.
  destruct (parts m) as [[h0 p0]|]; [|done]. cbn [mbind result_bind] in H, H'.
  do 4 (apply bind_ok_unit in H as [_ H]; apply bind_ok_unit in H' as [_ H']).
  destruct (parseTime (Codec.Timestamp p0)) as [ts|] eqn:Ets; [|done]. cbn [some_or mbind result_bind] in H, H'.
  apply bind_ok_unit in H as [Hg [= <- <- <-]].
  apply bind_ok_unit in H' as [Hg' [= <- <- <-]].
  apply guard_ok in Hg, Hg'. b2p. split_and!; try done. exists ts. split_and!; done || lia.
Qed.

Lemma checkClientHello_kind s s' d d' data x :
  checkClientHello s d data = Ok (Some x) → checkClientHello s' d' data ≠ Ok None.
Proof.
  unfold checkClientHello. destruct (Codec.DecodeMessageHeader zeroCodec data) as [hd|]; [|done].
  cbn [mbind result_bind].
  destruct (bool_decide (Codec.TargetId hd = EmptyString)
    && bool_decide (Codec.Type_ hd = Codec.MessageTypeClientHello)); [|done].
  intros _ H. do 2 apply bind_ok_unit in H as [_ H].
  apply bind_ok in H as (k & _ & H). apply bind_ok_unit in H as [_ H].
  do 3 (apply bind_ok in H as (? & _ & H)). apply bind_ok in H as ([h0 p0] & _ & H).
  do 4 apply bind_ok_unit in H as [_ H]. apply bind_ok in H as (ts & _ & H).
  by apply bind_ok_unit in H as [_ H].
Qed.

Lemma winv_cache o n Q Q' w : winv o n Q w → Q' (nonceCache (server w)) → winv o n Q' w.
Proof. intros [[] ?] ?. split; [|done]. by split. Qed.

(** The cache has no entry for the nonce older than [t0]. *)
Definition nonce_since (nonce : list byte) (t0 : Z) (c : lru) : Prop :=
  ∀ t, lru_view c !! nonceKey nonce = Some t → t0 ≤ t.

Lemma nonce_since_step nonce t0 now :
  t0 ≤ now / 1000000 → cache_step (nonce_since nonce t0) now.
Proof.
  intros Ht c k Hc. unfold nonce_since in *. rewrite lru_get_view. split; [done|].
  intros t H. destruct (decide (nonceKey nonce = k)) as [<-|Hne].
  - rewrite lru_add_same in H. by injection H as <-.
  - apply lru_add_other in H; [|done]. rewrite lru_get_view in H. by apply Hc.
Qed.

(** A nonce of the cache that is recent enough is refused. *)
Lemma isNonceAvailable_refused s now now' nonce t :
  lru_view (nonceCache s) !! nonceKey nonce = Some t →
  now - t * 1000000 < ReplayProtection (options s) → - 2 ^ 63 < ReplayProtection (options s) →
  let '(s', ok) := isNonceAvailable s now now' nonce in
  ok = false ∧ conns s' = conns s ∧ connections s' = connections s.
Proof.
  intros Ht Hrec Hmin. unfold isNonceAvailable.
  pose proof (lru_get_value (nonceCache s) (nonceKey nonce)) as Hg.
  destruct (lru_get (nonceCache s) (nonceKey nonce)) as [cache hit]. cbn in Hg. rewrite Hg, Ht. cbn.
  assert ((timeSub now (t * 1000000) <? ReplayProtection (options s)) = true) as ->; [|done].
  apply Z.ltb_lt. unfold timeSub. lia.
Qed.


(** ** The goroutines end *)

(** The steps a setup goroutine has left. *)
Definition left (st : stage) : nat :=
  match st with
  | AtSelect _ => 13
  | AtNewAgent _ _ => 12
  | AtInstall _ _ _ => 11
  | AtRelay _ _ _ => 10
  | AtGather _ _ _ => 9
  | AtGathered _ _ _ _ => 8
  | AtAnswer _ _ _ _ => 7
  | AtAccept _ _ _ => 6
  | AtConnected _ _ => 5
  | AtDial _ _ => 4
  | AtAttach _ _ _ => 3
  | AtEstablish _ _ _ => 2
  | AtHandOver _ => 1
  end%nat.

(** The steps the schedule [os] gives to goroutine [j]. *)
Definition isSetup (j : nat) (o : op) : Prop := match o with OSetup j' _ => j' = j | _ => False end.

#[local] Instance isSetup_dec j o : Decision (isSetup j o).
Proof. destruct o; cbn; apply _. Defined.

Definition turns (j : nat) (os : list op) : nat := length (filter (isSetup j) os).

Lemma closeReturn_ends s i s' n : closeReturn s i = Some (s', n) → n = None.
Proof. unfold closeReturn. destruct (Connection_Close s i); cbn; congruence. Qed.

Lemma advance_left s i st a s' st' :
  advance s i st a = Some (s', Some st') → left st = Datatypes.S (left st').
Proof.
  intros H. destruct st; cbn [advance] in H; try unfold handOver in H;
    repeat first
      [ match type of H with context [let '(_, _) := ?e in _] => destruct e end
      | match type of H with context [if ?b then _ else _] => destruct b end
      | match type of H with context [match findTransport ?a ?b with _ => _ end] =>
          destruct (findTransport a b) end
      | match type of H with closeReturn _ _ = _ => apply closeReturn_ends in H end ];
    try discriminate; by injection H as <- <-.
Qed.

Lemma setupStep_left w j i st a w' :
  setupStep w j i st a = Some w' →
  setups w' !! j = None ∨ ∃ st', setups w' !! j = Some (i, st') ∧ left st = Datatypes.S (left st').
Proof.
  unfold setupStep. destruct (advance (server w) i st a) as [[s [st'|]]|] eqn:E; cbn; [| |done].
  - apply advance_left in E. intros H. right. exists st'. split; [|done].
    destruct st'; injection H as <-; cbn; by rewrite lookup_insert_eq.
  - intros [= <-]. left. cbn. by rewrite lookup_delete_eq.
Qed.

Lemma stop_reader_setups w j i w' : stop_reader w j i = Some w' → setups w' = setups w.
Proof. unfold stop_reader. destruct (Connection_Close _ _); cbn; [|done]. by intros [= <-]. Qed.

Lemma readHead_setups w j r length w' : readHead w j r length = Some w' → setups w' = setups w.
Proof.
  unfold readHead. destruct length as [n|]; [|apply stop_reader_setups].
  case_if as E; [apply stop_reader_setups|].
  destruct (Buffer.Reserve _ _) as [b ok]. destruct ok; [by intros [= <-]|].
  intros Hw. by apply stop_reader_setups in Hw.
Qed.

Lemma readBody_setups w j r n f now w' : readBody w j r n f now = Some w' → setups w' = setups w.
Proof.
  unfold readBody. destruct (Buffer.Release _ _) as [b|]; [|done]. cbn [mbind option_bind].
  destruct f as [| | |raw]; try (intros Hw; by apply stop_reader_setups in Hw || by injection Hw as <-).
  - case_if as E; intros Hw; [by apply stop_reader_setups in Hw|by injection Hw as <-].
  - case_if as E; [intros Hw; by apply stop_reader_setups in Hw|].
    destruct (conns _ !! _) as [c|]; [|by intros [= <-]].
    destruct (Buffer.Write _ _ _) as [[rb b'] res]. destruct (is_ok res); [by intros [= <-]|].
    intros Hw. by apply stop_reader_setups in Hw.
Qed.

Lemma monitorTick_setups w j i conn now sent w' :
  monitorTick w j i conn now sent = Some w' → setups w' = setups w.
Proof.
  unfold monitorTick. case_if as E; [by intros [= <-]|].
  destruct (conns _ !! _) as [c|]; [|by intros [= <-]].
  case_if as E2; [|by intros [= <-]]. destruct (Connection_Close _ _); cbn; [|done]. by intros [= <-].
Qed.

(** A goroutine takes steps of its own only. *)
Lemma exec_setups w o w' j :
  exec w o = Some w' → ¬ isSetup j o → is_Some (setups w !! j) → setups w' !! j = setups w !! j.
Proof.
  intros H Ho [p Hp].
  destruct o as [allow d publish data|data|j' a|j' length|j' f now|j' now sent|i|i|i now size| |];
    cbn [exec] in H.
  - destruct (onHello _ _ _ _ _) as [[]|]; [|done]. by injection H as <-.
  - destruct (onOffer _ _) as [[s [[i offer]|]]|]; [| |done]; injection H as <-; [|done].
    cbn. rewrite lookup_insert_ne; [done|].
    intros <-. by rewrite (proj1 (not_elem_of_dom _ _) (is_fresh _)) in Hp.
  - cbn in Ho. destruct (setups w !! j') as [[i st]|]; [|by injection H as <-].
    unfold setupStep in H. destruct (advance _ _ _ _) as [[s [st'|]]|]; [| |done].
    + cbn [mbind option_bind] in H. destruct st'; injection H as <-; cbn; by rewrite lookup_insert_ne.
    + injection H as <-. cbn. by rewrite lookup_delete_ne.
  - destruct (readers w !! j'); [|by injection H as <-].
    case_bool_decide; [by rewrite (readHead_setups _ _ _ _ _ H)|by injection H as <-].
  - destruct (readers w !! j') as [r|]; [|by injection H as <-].
    destruct (r_held r); [by rewrite (readBody_setups _ _ _ _ _ _ _ H)|by injection H as <-].
  - destruct (monitors w !! j') as [[i conn]|]; [|by injection H as <-].
    by rewrite (monitorTick_setups _ _ _ _ _ _ _ H).
  - destruct (conns _ !! i) as [c|]; [|by injection H as <-].
    destruct (pendingLease c); [|by injection H as <-].
    destruct (Connection_Close _ _); [|done]. by injection H as <-.
  - destruct (Connection_Close _ _); [|done]. by injection H as <-.
  - destruct (conns _ !! i) as [c|]; [|by injection H as <-].
    destruct (Buffer.Read _ _ _ _) as [[[rb b] out]|]; [|done]. by injection H as <-.
  - by injection H as <-.
  - destruct (Server_Close _); [|done]. by injection H as <-.
Qed.

Lemma setup_bounded o n Q w j os i st :
  (∀ x, op_ok Q x) → winv o n Q w → setups w !! j = Some (i, st) → (left st ≤ turns j os)%nat →
  ∃ os1 os2 w1, os = os1 ++ os2 ∧ run w os1 = Some w1 ∧ setups w1 !! j = None.
Proof.
  intros Hok. revert w st. induction os as [|x os IH]; intros w st Hw Hj Hn.
  { destruct st; cbn in Hn; lia. }
  destruct (exec_inv _ _ _ w x (Hok x) Hw) as (w' & Hx & Hw').
  assert (Hrun : ∀ l, run w (x :: l) = run w' l) by (intros l; unfold run; cbn; by rewrite Hx).
  assert (Hdone : setups w' !! j = None ∨ ∃ st', setups w' !! j = Some (i, st') ∧ (left st' ≤ turns j os)%nat).
  { unfold turns in Hn. rewrite filter_cons in Hn. case_decide as Hs.
    - destruct x as [| |j' a| | | | | | | |]; try done. cbn in Hs. subst j'.
      cbn [exec] in Hx. rewrite Hj in Hx. cbn in Hn.
      apply setupStep_left in Hx as [?|(st' & ? & ?)]; [by left|right]. exists st'. split; [done|].
      unfold turns. lia.
    - right. exists st. split; [|done]. by rewrite (exec_setups _ _ _ _ Hx Hs ltac:(eauto)). }
  destruct Hdone as [?|(st' & Hj' & Hn')].
  - exists [x], os, w'. by rewrite Hrun.
  - destruct (IH w' st' Hw' Hj' Hn') as (os1 & os2 & w1 & -> & ? & ?).
    exists (x :: os1), os2, w1. by rewrite Hrun.
Qed.

Lemma stop_reader_gone w j i w' : stop_reader w j i = Some w' → readers w' !! j = None.
Proof.
  unfold stop_reader. destruct (Connection_Close _ _); cbn; [|done]. intros [= <-]. cbn.
  by rewrite lookup_delete_eq.
Qed.

Lemma closed_not_current s i c conn :
  conns s !! i = Some c → closed c = true → isCurrentTransport s i conn = false.
Proof. unfold isCurrentTransport. by intros -> ->. Qed.


End ServerTheorems.

(** ** A run of the machine *)

#[local] Existing Instance Encryption.cryptoExample.
#[local] Existing Instance Handshake.sigExample.
#[local] Existing Instance HelloProofs.x25519Example.
#[local] Existing Instance HelloProofs.timeExample.
#[local] Existing Instance HelloProofs.lruExample.
#[local] Existing Instance Codec.webrtcExample.
#[local] Existing Instance Codec.gobHeaderExample.
#[local] Existing Instance HelloProofs.gobPayloadFull.
#[local] Existing Instance Codec.gobChunksExample.

Definition demoConfig : Config :=
  mkConfig HelloProofs.demoOptions None [Some (mkTransport "quic" false 0)] true true "room".

Lemma demo_new : NewServer (mkTransport "quic" false 0) demoConfig = Ok HelloProofs.demoServer.
Proof. vm_compute. reflexivity. Qed.

Definition demoHello : op :=
  OHello true HelloProofs.demoServerDraws (λ _, true) (ch_message HelloProofs.demoAttempt).

(** What the client sends on the session: its choice of a transport, its offer. *)
Definition demoMessages : list (list byte) :=
  let r := Encryption.rndExample in
  let message type sequence transport user password candidates := Codec.mkMessage
    (Some (Codec.mkHeader type "alice" HelloProofs.demoServerId sequence [] ∅))
    (Some (Codec.mkPayload None None [] [] [] [] [] [] EmptyString EmptyString [] [] transport
             user password candidates None)) false in
  match handleServerHello HelloProofs.demoClient HelloProofs.demoAnswer HelloProofs.demoAttempt
          (r Byte.x6d) (r Byte.x6e) (r Byte.x6f) (r Byte.x70) (r Byte.x71) with
  | Err _ => []
  | Ok sh =>
      let '(sc, _, m1) := Channel.EncodeMessage (sh_codec sh)
        (Some (message Codec.MessageTypeTransportSelect 1 "quic"%string EmptyString EmptyString [])) in
      let '(_, _, m2) := Channel.EncodeMessage sc
        (Some (message Codec.MessageTypeICEOffer 2 EmptyString "user"%string "password"%string
                 ["candidate"%string])) in
      match m1, m2 with Ok d1, Ok d2 => [d1; d2] | _, _ => [] end
  end.

Definition demoDescription : ICEDescription := mkICEDescription "u" "p" ["c"%string].

Definition demoAnswers : answer := mkAnswer true 7 demoDescription 2000 (λ _, true).

(** The server after the operations. *)
Definition demoWorld (os : list op) : world :=
  match run (start HelloProofs.demoServer) os with
  | Some w => w
  | None => start HelloProofs.demoServer
  end.

Lemma demo_run os :
  match run (start HelloProofs.demoServer) os with Some _ => true | None => false end = true →
  run (start HelloProofs.demoServer) os = Some (demoWorld os).
Proof. unfold demoWorld. by destruct (run (start HelloProofs.demoServer) os). Qed.

Definition demoOffers : list op := demoHello :: (OOffer <$> demoMessages).

Definition demoSetup : list op := demoOffers ++ replicate 13 (OSetup 0 demoAnswers).


Lemma server_no_leak_witness :
  let s := server (demoWorld demoSetup) in
  let s' := server (demoWorld (demoSetup ++ [OServerClose])) in
  agentsOpen s = {[7%nat]} ∧ transportsOpen s = {[7%nat]} ∧ agentsOpen s' = ∅ ∧ transportsOpen s' = ∅.
Proof.
  intros s s'. split; [vm_compute; reflexivity|]. split; [vm_compute; reflexivity|].
  destruct (server_no_leak _ demoConfig HelloProofs.demoServer (demoSetup ++ [OServerClose])
    (demoWorld (demoSetup ++ [OServerClose])) demo_new eq_refl) as (_ & _ & _ & H).
  - apply demo_run. vm_compute. reflexivity.
  - apply H; vm_compute; reflexivity.
Defined.


(** The hello is accepted, the connection closed, and the hello replayed. *)
Definition demoChecked : option (Codec.Header * Codec.Payload * list byte) :=
  match checkClientHello HelloProofs.demoServer HelloProofs.demoServerDraws
          (ch_message HelloProofs.demoAttempt) with
  | Ok x => x
  | Err _ => None
  end.

Lemma demo_checked x :
  demoChecked = Some x →
  checkClientHello HelloProofs.demoServer HelloProofs.demoServerDraws
    (ch_message HelloProofs.demoAttempt) = Ok (Some x).
Proof.
  unfold demoChecked. generalize (checkClientHello HelloProofs.demoServer HelloProofs.demoServerDraws
    (ch_message HelloProofs.demoAttempt)). intros [y|e] H; [by subst|done].
Qed.

Definition demoReplay : list op := [demoHello; OClose 0].


End ServerProofs.
