(* ===== verification/Mux.v ===== *)
(** * Mux.v: the stream multiplexer of the p2pssh example
    (src/example/p2pssh/streammux/mux.go)

    A session carries many streams over one connection.  Streams are objects: the
    session's table, the accept queue and the application hold pointers to them, so
    they live in a [heap].  An [endp] is a session with its goroutines (the read
    loop, calls of [Write] and [Close] in progress), an [op] one step of one of
    them; [exec] runs a step of one end of a connection.  A [wire] is one direction
    of the connection: it takes bytes in order until a write fails, and then takes
    no more.  The fields [got] and [ended] of an [endp] record what its streams
    have returned and which of them the peer has closed; no step depends on them.
    MuxProofs.v has the proofs. *)

From S2P Require Import Prelude.
From Stdlib Require Import ZArith Lia String.
From stdpp Require Import base list option strings numbers gmap.

Local Open Scope Z_scope.
Local Open Scope go_scope.

Module Mux.

Definition frameOpen : Z := 1.
Definition frameData : Z := 2.
Definition frameClose : Z := 3.

Definition headerSize : nat := 13.
Definition defaultMaxPayload : Z := Z.shiftl 32 10.
Definition defaultBufferSize : Z := Z.shiftl 8 20.
Definition acceptQueueSize : Z := 128.

Definition ErrClosed : string := "stream mux closed".

(** ** recvBuffer *)

Record recvBuffer := mkRecvBuffer {
  buf : list byte;
  r_closed : bool;
  deadline : option Z;               (* [None] is the zero time *)
  limit : Z
}.

#[export] Instance eta_recvBuffer : Eta recvBuffer := fun b =>
  mkRecvBuffer (buf b) (r_closed b) (deadline b) (limit b).

Definition newRecvBuffer (limit : Z) : recvBuffer :=
  mkRecvBuffer [] false None (if limit <=? 0 then defaultBufferSize else limit).

Definition recv_Write (b : recvBuffer) (data : list byte) : recvBuffer * result unit :=
  if r_closed b then (b, Err "io: read/write on closed pipe")
  else if limit b - len (buf b) <? len data then (b, Err "receive buffer full")
  else (b <| buf ::= (λ l, l ++ data) |>, Ok tt).

(** A read into [size] bytes at time [now]; [None] if it has to wait. *)
Definition recv_Read (b : recvBuffer) (now size : Z) : recvBuffer * option (result (list byte)) :=
  if len (buf b) =? 0 then
    if r_closed b then (b, Some (Err "EOF"))
    else match deadline b with
         | Some t => if t - now <=? 0 then (b, Some (Err "i/o timeout")) else (b, None)
         | None => (b, None)
         end
  else
    let n := Z.to_nat size in
    (b <| buf ::= drop n |>, Some (Ok (take n (buf b)))).

Definition recv_SetDeadline (b : recvBuffer) (t : option Z) : recvBuffer := b <| deadline := t |>.

Definition closeEOF (b : recvBuffer) : recvBuffer := b <| r_closed := true |>.

Definition abort (b : recvBuffer) : recvBuffer := b <| r_closed := true |> <| buf := [] |>.

(** ** Streams and sessions *)

Record Stream := mkStream {
  id : Z;
  recv : recvBuffer;
  s_done : bool;                     (* closeOnce has run, done is closed *)
  writeDeadline : option Z
}.

#[export] Instance eta_stream : Eta Stream := fun s =>
  mkStream (id s) (recv s) (s_done s) (writeDeadline s).

Record Session := mkSession {
  maxPayload : Z;
  bufferSize : Z;
  nextID : Z;
  heap : gmap nat Stream;            (* the stream objects *)
  streams : gmap Z nat;
  err : option string;
  acceptCh : list nat;
  done : bool
}.

#[export] Instance eta_session : Eta Session := fun s =>
  mkSession (maxPayload s) (bufferSize s) (nextID s) (heap s) (streams s) (err s) (acceptCh s) (done s).

Definition newSession (firstID : Z) : Session :=
  mkSession defaultMaxPayload defaultBufferSize firstID ∅ ∅ None [] false.

Definition NewClient : Session := newSession 1.
Definition NewServer : Session := newSession 2.

Definition newStream (s : Session) (id : Z) : Stream :=
  mkStream id (newRecvBuffer (bufferSize s)) false None.

Definition updateStream (s : Session) (x : nat) (f : Stream → Stream) : Session :=
  s <| heap ::= alter f x |>.

(** The new object and its place in the table, or the error of a closed session
    (the object is then dropped). *)
Definition addStream (s : Session) (st : Stream) : Session * result nat :=
  match err s with
  | Some e => (s, Err e)
  | None =>
      let x := fresh (dom (heap s)) in
      (s <| heap ::= <[x := st]> |> <| streams ::= <[id st := x]> |>, Ok x)
  end.

Definition removeStream (s : Session) (i : Z) : Session := s <| streams ::= delete i |>.

Definition getStream (s : Session) (i : Z) : option nat := streams s !! i.

Definition abortLocal (st : Stream) : Stream :=
  if s_done st then st else st <| s_done := true |> <| recv ::= abort |>.

Definition closeRemote (st : Stream) : Stream :=
  if s_done st then st else st <| s_done := true |> <| recv ::= closeEOF |>.

Definition closeErr (s : Session) : option string := err s.

Definition closeWithError (s : Session) (e : string) : Session :=
  if done s then s
  else
    let all := (map_to_list (streams s)).*2 in
    s <| err := Some e |> <| streams := ∅ |>
      <| heap ::= map_imap (λ x st, Some (if bool_decide (x ∈ all) then abortLocal st else st)) |>
      <| done := true |>.

(** ** Frames on the wire *)

Record wire := mkWire {
  bytes : list byte;                 (* all the connection has taken *)
  consumed : nat;                    (* of these, read by the other end *)
  broken : bool                      (* a write has failed *)
}.

#[export] Instance eta_wire : Eta wire := fun w => mkWire (bytes w) (consumed w) (broken w).

Definition inbox (w : wire) : list byte := drop (consumed w) (bytes w).

(** The calls of [writer.Write] have the outcomes [outs] (how many bytes were
    taken, whether an error was returned), and succeed when the list is over.  The
    bytes taken, the error, and the outcomes left. *)
Fixpoint writeFull (outs : list (nat * bool)) (data : list byte)
  : list byte * option string * list (nat * bool) :=
  match data, outs with
  | [], _ => ([], None, outs)
  | _, [] => (data, None, [])
  | _, (n, fails) :: outs =>
      let n := Nat.min n (length data) in
      if fails then (take n data, Some "write failed"%string, outs)
      else if (n =? 0)%nat then ([], Some "short write"%string, outs)
      else
        let '(more, e, outs) := writeFull outs (drop n data) in
        (take n data ++ more, e, outs)
  end.

Definition header (typ i : Z) (payload : list byte) : list byte :=
  byte_of typ :: be_encode 8 i ++ be_encode 4 (u32 (len payload)).

(** [late]: the test of [done] was made before the session was closed. *)
Definition writeFrame (s : Session) (w : wire) (typ i : Z) (payload : list byte) (late : bool)
    (outs : list (nat * bool)) : Session * wire * result unit :=
  if maxPayload s <? len payload then (s, w, Err "stream mux payload too large")
  else if done s && negb late then (s, w, Err (default ErrClosed (closeErr s)))
  else if broken w then (closeWithError s "write failed", w, Err "write failed")
  else
    let '(taken, e, outs) := writeFull outs (header typ i payload) in
    let w := w <| bytes ::= (λ l, l ++ taken) |> in
    match e with
    | Some e => (closeWithError s e, w <| broken := true |>, Err e)
    | None =>
        if len payload =? 0 then (s, w, Ok tt)
        else
          let '(taken, e, _) := writeFull outs payload in
          let w := w <| bytes ::= (λ l, l ++ taken) |> in
          match e with
          | Some e => (closeWithError s e, w <| broken := true |>, Err e)
          | None => (s, w, Ok tt)
          end
    end.

(** What the read loop finds in its inbox. *)
Inductive parsed :=
| NeedMore
| TooLarge
| Frame (typ i : Z) (payload : list byte) (size : nat).

Definition readFrame (max : Z) (l : list byte) : parsed :=
  if (length l <? headerSize)%nat then NeedMore
  else
    let length_ := be_decode (take 4 (drop 9 l)) in
    if u32 max <? length_ then TooLarge
    else
      let n := Z.to_nat length_ in
      if (length l <? headerSize + n)%nat then NeedMore
      else Frame (be_decode (take 1 l)) (be_decode (take 8 (drop 1 l))) (take n (drop headerSize l))
             (headerSize + n).

(** ** The goroutines of one end *)

Inductive readerState := Reading | Enqueueing (x : nat) | Stopped.

(** A call of [Stream.Close] in progress: it has aborted the buffer, and has then
    taken the stream out of the table. *)
Inductive closePhase := AtRemove | AtFrame.

Record endp := mkEndp {
  session : Session;
  reader : readerState;
  writers : gmap nat (nat * list byte);  (* calls of Write: stream, what is left *)
  closing : gmap nat closePhase;
  got : gmap nat (list byte);        (* history: what Read has returned, per stream *)
  ended : gset nat                   (* history: the streams the peer has closed *)
}.

#[export] Instance eta_endp : Eta endp := fun e =>
  mkEndp (session e) (reader e) (writers e) (closing e) (got e) (ended e).

Definition newEndp (s : Session) : endp := mkEndp s Reading ∅ ∅ ∅ ∅.

Inductive op :=
| ODial (cancelled cancelledLate late : bool) (outs : list (nat * bool))
| OAccept
| OWrite (x : nat) (p : list byte) (now : Z)
| OWriteChunk (j : nat) (late : bool) (outs : list (nat * bool))
| ORead (x : nat) (now size : Z)
| OClose (x : nat)
| OCloseStep (x : nat) (late : bool) (outs : list (nat * bool))
| OReadFrame (late : bool) (outs : list (nat * bool))
| OReadError
| OEnqueue (choice : bool)
| OSessionClose
| OSetReadDeadline (x : nat) (t : option Z)
| OSetWriteDeadline (x : nat) (t : option Z).

(** The first part of [Stream.Close]. *)
Definition closeBegin (e : endp) (x : nat) : endp :=
  match heap (session e) !! x with
  | Some st =>
      if s_done st then e
      else e <| session ::= (λ s, updateStream s x abortLocal) |> <| closing ::= <[x := AtRemove]> |>
  | None => e
  end.

(** A context that is cancelled after the frame was written closes the stream. *)
Definition Dial (e : endp) (out : wire) (cancelled cancelledLate late : bool)
    (outs : list (nat * bool)) : endp * wire :=
  if cancelled then (e, out)
  else
    let s := session e in
    let i := u64 (u64 (nextID s + 2) - 2) in
    let s := s <| nextID := u64 (nextID s + 2) |> in
    match addStream s (newStream s i) with
    | (s, Err _) => (e <| session := s |>, out)
    | (s, Ok x) =>
        let '(s, out, r) := writeFrame s out frameOpen i [] late outs in
        match r with
        | Err _ => (e <| session := updateStream (removeStream s i) x abortLocal |>, out)
        | Ok _ =>
            let e := e <| session := s |> in
            (if cancelledLate then closeBegin e x else e, out)
        end
    end.

Definition writeTimedOut (st : Stream) (now : Z) : bool :=
  match writeDeadline st with Some t => t <? now | None => false end.

(** The tests of [Stream.Write]; the loop follows in steps. *)
Definition writeBegin (e : endp) (x : nat) (p : list byte) (now : Z) : endp :=
  match heap (session e) !! x with
  | Some st =>
      if s_done st then e
      else if writeTimedOut st now then e
      else e <| writers ::= (λ m, <[fresh (dom m) := (x, p)]> m) |>
  | None => e
  end.

(** One iteration of the loop. *)
Definition writeChunk (e : endp) (out : wire) (j : nat) (x : nat) (rest : list byte) (late : bool)
    (outs : list (nat * bool)) : endp * wire :=
  match rest, heap (session e) !! x with
  | [], _ | _, None => (e <| writers ::= delete j |>, out)
  | _, Some st =>
      let n := Z.to_nat (maxPayload (session e)) in
      let '(s, out, r) :=
        writeFrame (session e) out frameData (id st) (take n rest) late outs in
      let e := e <| session := s |> in
      (if is_ok r then e <| writers ::= <[j := (x, drop n rest)]> |> else e <| writers ::= delete j |>,
       out)
  end.

Definition streamRead (e : endp) (x : nat) (now size : Z) : endp :=
  match heap (session e) !! x with
  | Some st =>
      let '(b, r) := recv_Read (recv st) now size in
      let e := e <| session ::= (λ s, updateStream s x (λ st, st <| recv := b |>)) |> in
      match r with
      | Some (Ok p) => e <| got ::= (λ g, <[x := default [] (g !! x) ++ p]> g) |>
      | _ => e
      end
  | None => e
  end.

Definition closeStep (e : endp) (out : wire) (x : nat) (late : bool) (outs : list (nat * bool))
  : endp * wire :=
  match closing e !! x, heap (session e) !! x with
  | Some AtRemove, Some st =>
      (e <| session ::= (λ s, removeStream s (id st)) |> <| closing ::= <[x := AtFrame]> |>, out)
  | Some AtFrame, Some st =>
      let '(s, out, _) := writeFrame (session e) out frameClose (id st) [] late outs in
      (e <| session := s |> <| closing ::= delete x |>, out)
  | _, _ => (e, out)
  end.

(** The switch of the read loop. *)
Definition handleFrame (e : endp) (out : wire) (typ i : Z) (payload : list byte) (late : bool)
    (outs : list (nat * bool)) : endp * wire :=
  let s := session e in
  if typ =? frameOpen then
    match addStream s (newStream s i) with
    | (s, Err _) => (e <| session := s |> <| reader := Stopped |>, out)
    | (s, Ok x) => (e <| session := s |> <| reader := Enqueueing x |>, out)
    end
  else if typ =? frameData then
    match getStream s i with
    | None => (e, out)
    | Some x =>
        match heap s !! x with
        | None => (e, out)
        | Some st =>
            let '(b, r) := recv_Write (recv st) payload in
            match r with
            | Ok _ => (e <| session := updateStream s x (λ st, st <| recv := b |>) |>, out)
            | Err _ =>
                let '(s, out) :=
                  if s_done st then (s, out)
                  else
                    let s := removeStream (updateStream s x abortLocal) (id st) in
                    let '(s, out, _) := writeFrame s out frameClose (id st) [] late outs in
                    (s, out) in
                (e <| session := closeWithError s "receive buffer" |> <| reader := Stopped |>, out)
            end
        end
    end
  else if typ =? frameClose then
    match getStream s i with
    | None => (e, out)
    | Some x =>
        let wasDone := match heap s !! x with Some st => s_done st | None => true end in
        let e := e <| session := updateStream (removeStream s i) x closeRemote |> in
        (if wasDone then e else e <| ended ::= (λ l, {[x]} ∪ l) |>, out)
    end
  else (e <| session := closeWithError s "unknown stream mux frame type" |> <| reader := Stopped |>, out).

(** An iteration of the read loop: [out] is the wire it may answer on, [inc] the
    one it reads. *)
Definition readLoop (e : endp) (out inc : wire) (late : bool) (outs : list (nat * bool))
  : endp * wire * wire :=
  match readFrame (maxPayload (session e)) (inbox inc) with
  | NeedMore => (e, out, inc)
  | TooLarge =>
      (e <| session ::= (λ s, closeWithError s "stream mux frame too large") |> <| reader := Stopped |>,
       out, inc)
  | Frame typ i payload size =>
      let '(e, out) := handleFrame e out typ i payload late outs in
      (e, out, inc <| consumed ::= (λ n, (n + size)%nat) |>)
  end.

(** The select after an open frame; [choice] decides when both cases are ready. *)
Definition enqueue (e : endp) (x : nat) (choice : bool) : endp :=
  let s := session e in
  let room := len (acceptCh s) <? acceptQueueSize in
  if room && (negb (done s) || choice)
  then e <| session := s <| acceptCh ::= (λ l, l ++ [x]) |> |> <| reader := Reading |>
  else if done s
  then e <| session := updateStream s x abortLocal |> <| reader := Stopped |>
  else e.

Definition exec (e : endp) (out inc : wire) (o : op) : endp * wire * wire :=
  match o with
  | ODial c cl late outs => (Dial e out c cl late outs, inc)
  | OAccept => (e <| session ::= (λ s, s <| acceptCh ::= tail |>) |>, out, inc)
  | OWrite x p now => (writeBegin e x p now, out, inc)
  | OWriteChunk j late outs =>
      match writers e !! j with
      | Some (x, rest) => (writeChunk e out j x rest late outs, inc)
      | None => (e, out, inc)
      end
  | ORead x now size => (streamRead e x now size, out, inc)
  | OClose x => (closeBegin e x, out, inc)
  | OCloseStep x late outs => (closeStep e out x late outs, inc)
  | OReadFrame late outs =>
      match reader e with Reading => readLoop e out inc late outs | _ => (e, out, inc) end
  | OReadError =>
      match reader e with
      | Reading => (e <| session ::= (λ s, closeWithError s "read failed") |> <| reader := Stopped |>, out, inc)
      | _ => (e, out, inc)
      end
  | OEnqueue choice => match reader e with Enqueueing x => (enqueue e x choice, out, inc) | _ => (e, out, inc) end
  | OSessionClose => (e <| session ::= (λ s, closeWithError s ErrClosed) |>, out, inc)
  | OSetReadDeadline x t =>
      (e <| session ::= (λ s, updateStream s x (λ st, st <| recv ::= (λ b, recv_SetDeadline b t) |>)) |>, out, inc)
  | OSetWriteDeadline x t =>
      (e <| session ::= (λ s, updateStream s x (λ st, st <| writeDeadline := t |>)) |>, out, inc)
  end.

(** ** A connection between a client and a server *)

Record world := mkWorld {
  client : endp;
  server : endp;
  c2s : wire;
  s2c : wire
}.

Definition start : world :=
  mkWorld (newEndp NewClient) (newEndp NewServer) (mkWire [] 0 false) (mkWire [] 0 false).

(** [true] is a step of the client. *)
Definition step (w : world) (o : bool * op) : world :=
  if o.1 then
    let '(e, out, inc) := exec (client w) (c2s w) (s2c w) o.2 in mkWorld e (server w) out inc
  else
    let '(e, out, inc) := exec (server w) (s2c w) (c2s w) o.2 in mkWorld (client w) e inc out.

Definition run (os : list (bool * op)) : world := foldl step start os.

End Mux.
