(* ===== verification/MuxProofs.v ===== *)
(** * MuxProofs.v: the streams of a session do not mix or lose bytes

    The frames both ends put on the wires are determined by the bytes there.  An
    invariant of the connection says which frames an end may send for a stream and
    relates what a stream has received to the frames the read loop has handled. *)

From S2P Require Import Prelude Mux.
From Stdlib Require Import ZArith Lia String.
From stdpp Require Import base list option strings numbers gmap.

Local Open Scope Z_scope.
Local Open Scope go_scope.

Module MuxProofs.
Import Mux.

(** ** Frames and the bytes of a wire *)

Record frame := mkFrame {
  f_type : Z;
  f_id : Z;
  f_payload : list byte
}.

Definition enc (f : frame) : list byte := header (f_type f) (f_id f) (f_payload f) ++ f_payload f.

Record frame_ok (f : frame) : Prop := {
  fo_type : f_type f = frameOpen ∨ f_type f = frameData ∨ f_type f = frameClose;
  fo_id : in_u64 (f_id f);
  fo_payload : len (f_payload f) ≤ defaultMaxPayload
}.

(** The complete frames at the beginning of [l]. *)
Fixpoint parseAll (fuel : nat) (l : list byte) : list frame :=
  match fuel with
  | O => []
  | S fuel =>
      match readFrame defaultMaxPayload l with
      | Frame t i p size => mkFrame t i p :: parseAll fuel (drop size l)
      | _ => []
      end
  end.

Definition frames (l : list byte) : list frame := parseAll (length l) l.

Lemma header_length t i p : length (header t i p) = headerSize.
Proof. done. Qed.

Lemma enc_length f : length (enc f) = (headerSize + length (f_payload f))%nat.
Proof. unfold enc. by rewrite length_app, header_length. Qed.

Lemma header_fields t i p rest :
  let l := header t i p ++ rest in
  take 1 l = [byte_of t] ∧ take 8 (drop 1 l) = be_encode 8 i ∧
  take 4 (drop 9 l) = be_encode 4 (u32 (len p)) ∧ drop headerSize l = rest.
Proof. done. Qed.

Lemma u32_small z : 0 ≤ z < 2 ^ 32 → u32 z = z.
Proof. apply Z.mod_small. Qed.

Lemma readFrame_enc f rest :
  frame_ok f →
  readFrame defaultMaxPayload (enc f ++ rest) =
    Frame (f_type f) (f_id f) (f_payload f) (length (enc f)).
Proof.
  intros [Ht Hi Hp]. rewrite enc_length. unfold enc. rewrite <- app_assoc.
  destruct (header_fields (f_type f) (f_id f) (f_payload f) (f_payload f ++ rest)) as (H1 & H2 & H3 & H4).
  unfold readFrame. rewrite H1, H2, H3, H4, !be_decode_encode.
  pose proof (len_nonneg (f_payload f)). change defaultMaxPayload with 32768 in *.
  rewrite (u32_small (len _)) by lia. rewrite Z.mod_small by (cbn; lia).
  rewrite !length_app, header_length. unfold len in *.
  assert ((u32 32768 <? Z.of_nat (length (f_payload f))) = false) as -> by (apply Z.ltb_ge; change (u32 32768) with 32768; lia).
  rewrite Nat2Z.id.
  assert ((headerSize + (length (f_payload f) + length rest) <? headerSize)%nat = false) as ->
    by (apply Nat.ltb_ge; lia).
  assert ((headerSize + (length (f_payload f) + length rest) <? headerSize + length (f_payload f))%nat = false) as ->
    by (apply Nat.ltb_ge; lia).
  f_equal.
  - unfold be_decode. cbn. rewrite byte_val_of. unfold u8, frameOpen, frameData, frameClose in *.
    destruct Ht as [-> | [-> | ->]]; done.
  - apply Z.mod_small. exact Hi.
  - by rewrite take_app_length.
Qed.

Lemma readFrame_partial f k :
  frame_ok f → (k < length (enc f))%nat → readFrame defaultMaxPayload (take k (enc f)) = NeedMore.
Proof.
  intros Hf Hk. pose proof (enc_length f) as Hl. unfold readFrame.
  rewrite length_take. destruct (Nat.min k (length (enc f)) <? headerSize)%nat eqn:E; [done|].
  apply Nat.ltb_ge in E. destruct Hf as [Ht Hi Hp].
  assert (Hd : take 4 (drop 9 (take k (enc f))) = be_encode 4 (u32 (len (f_payload f)))).
  { rewrite <- (take_drop k (enc f)) in Hl.
    destruct (header_fields (f_type f) (f_id f) (f_payload f) (f_payload f)) as (_ & _ & H3 & _).
    rewrite <- H3. change (header _ _ _ ++ _) with (enc f). rewrite skipn_firstn_comm, take_take.
    f_equal. unfold headerSize in E. lia. }
  rewrite Hd, be_decode_encode. pose proof (len_nonneg (f_payload f)). change defaultMaxPayload with 32768 in *.
  rewrite (u32_small (len _)) by lia. rewrite Z.mod_small by (cbn; lia). unfold len in *.
  assert ((u32 32768 <? Z.of_nat (length (f_payload f))) = false) as -> by (apply Z.ltb_ge; change (u32 32768) with 32768; lia).
  rewrite Nat2Z.id. assert ((Nat.min k (length (enc f)) <? headerSize + length (f_payload f))%nat = true) as ->; [|done].
  apply Nat.ltb_lt. lia.
Qed.

Lemma readFrame_nil m : readFrame m [] = NeedMore.
Proof. done. Qed.

(** What a wire carries: whole frames, and a piece of one more if a write failed. *)
Definition carries (w : wire) (fs : list frame) : Prop :=
  ∃ tail, bytes w = concat (enc <$> fs) ++ tail ∧
    (tail = [] ∨ broken w = true ∧ ∃ f k, frame_ok f ∧ tail = take k (enc f) ∧ (k < length (enc f))%nat).

Definition incomplete (tail : list byte) : Prop :=
  readFrame defaultMaxPayload tail = NeedMore.

Lemma carries_incomplete w fs :
  carries w fs → ∃ tail, bytes w = concat (enc <$> fs) ++ tail ∧ incomplete tail.
Proof.
  intros (tail & Hb & [-> | (_ & f & k & Hf & -> & Hk)]); eexists; (split; [exact Hb|]);
    [apply readFrame_nil|by apply readFrame_partial].
Qed.

Lemma frames_concat fuel fs tail :
  Forall frame_ok fs → incomplete tail → (length (concat (enc <$> fs) ++ tail) ≤ fuel)%nat →
  parseAll fuel (concat (enc <$> fs) ++ tail) = fs.
Proof.
  intros Hf Ht. revert fuel. induction Hf as [|f fs Hf _ IH]; intros fuel Hl.
  - destruct fuel; [done|]. cbn. by rewrite Ht.
  - cbn [fmap list_fmap concat] in *. rewrite <- app_assoc in *.
    rewrite length_app, enc_length in Hl. destruct fuel; [unfold headerSize in Hl; lia|].
    cbn [parseAll]. rewrite readFrame_enc by done. rewrite drop_app_length, IH; [by destruct f|].
    unfold headerSize in Hl. lia.
Qed.

Lemma carries_frames w fs : carries w fs → Forall frame_ok fs → frames (bytes w) = fs.
Proof.
  intros (tail & -> & Ht)%carries_incomplete Hf. unfold frames. by apply frames_concat.
Qed.

(** ** Writing a frame *)

Lemma writeFull_spec outs data taken e outs' :
  writeFull outs data = (taken, e, outs') →
  (∃ k, taken = take k data) ∧ (e = None → taken = data).
Proof.
  revert data taken e outs'. induction outs as [|[n fails] outs IH]; intros data taken e outs' H.
  - destruct data; cbn in H; injection H as <- <- <-; (split; [|done]);
      [by exists 0%nat|eexists; by rewrite firstn_all].
  - destruct data as [|b data]; cbn [writeFull] in H.
    { injection H as <- <- <-. split; [by exists 0%nat|done]. }
    set (d := b :: data) in *. set (k := Nat.min n (length d)) in *.
    destruct fails; [injection H as <- <- <-; split; [by eexists|done]|].
    destruct (k =? 0)%nat; [injection H as <- <- <-; split; [by exists 0%nat|done]|].
    destruct (writeFull outs (drop k d)) as [[more e'] outs''] eqn:E. injection H as <- <- <-.
    apply IH in E as [[j ->] Hall]. split.
    + exists (k + j)%nat. by rewrite <- take_take_drop.
    + intros He. rewrite (Hall He). apply take_drop.
Qed.

Lemma closeWithError_payload s e : maxPayload (closeWithError s e) = maxPayload s.
Proof. unfold closeWithError. by destruct (done s). Qed.

(** The session after a call that may have closed it. *)
Definition maybe_closed (s s' : Session) : Prop := s' = s ∨ ∃ e, s' = closeWithError s e.

Lemma carries_ext w w' fs : bytes w' = bytes w → broken w' = broken w → carries w fs → carries w' fs.
Proof. unfold carries. by intros -> ->. Qed.

Lemma carries_write w fs f k :
  broken w = false → carries w fs → frame_ok f →
  (k < length (enc f))%nat →
  carries (w <| bytes ::= (λ l, l ++ take k (enc f)) |> <| broken := true |>) fs.
Proof.
  intros Hb (tail & Ht & [-> | (E & _)]) Hf Hk; [|congruence].
  exists (take k (enc f)). cbn. rewrite Ht, app_nil_r. split; [done|]. right. eauto 6.
Qed.

Lemma carries_whole w fs f b :
  broken w = false → carries w fs →
  carries (w <| bytes ::= (λ l, l ++ enc f) |> <| broken := b |>) (fs ++ [f]).
Proof.
  intros Hb (tail & Ht & [-> | (E & _)]); [|congruence].
  exists []. cbn. rewrite Ht, app_nil_r, fmap_app, concat_app. cbn. split; [by rewrite !app_nil_r|by left].
Qed.

Lemma carries_sent w fs f :
  broken w = false → carries w fs → carries (w <| bytes ::= (λ l, l ++ enc f) |>) (fs ++ [f]).
Proof. intros Hb Hc. pose proof (carries_whole w fs f false Hb Hc). destruct w. cbn in *. by subst. Qed.

(** A frame is put on the wire as a whole, or a part of it and nothing after. *)
Lemma writeFrame_spec s w f late outs s' w' r fs :
  maxPayload s = defaultMaxPayload → frame_ok f → carries w fs →
  writeFrame s w (f_type f) (f_id f) (f_payload f) late outs = (s', w', r) →
  maybe_closed s s' ∧ consumed w' = consumed w ∧
  (r ≠ Ok tt ∧ carries w' fs ∨ carries w' (fs ++ [f])) ∧ (r = Ok tt → s' = s).
Proof.
  intros Hm Hf Hc. unfold writeFrame. rewrite Hm.
  assert ((defaultMaxPayload <? len (f_payload f)) = false) as -> by (apply Z.ltb_ge, Hf).
  destruct (done s && negb late).
  { intros [= <- <- <-]. split_and!; [by left|done|by left|done]. }
  destruct (broken w) eqn:Hb.
  { intros [= <- <- <-]. split_and!; [by right; eexists|done|by left|done]. }
  destruct (writeFull outs (header (f_type f) (f_id f) (f_payload f))) as [[taken e] outs1] eqn:E1.
  apply writeFull_spec in E1 as [[k ->] Hall].
  set (h := header (f_type f) (f_id f) (f_payload f)) in *.
  assert (Hpart : ∀ p, (length p ≤ length (enc f))%nat → p = take (length p) (enc f) →
    carries (w <| bytes ::= (λ l, l ++ p) |> <| broken := true |>) fs ∨
    carries (w <| bytes ::= (λ l, l ++ p) |> <| broken := true |>) (fs ++ [f])).
  { intros p Hp Hpre. rewrite Hpre. destruct (decide (length p = length (enc f))) as [E|].
    - right. rewrite firstn_all2 by lia. by apply carries_whole.
    - left. apply carries_write; [done..|lia]. }
  assert (Hh : enc f = h ++ f_payload f) by done. clearbody h.
  destruct e as [e|].
  { intros [= <- <- <-]. split_and!; [by right; eexists|done| |done].
    destruct (Hpart (take k h)) as [?|?]; [| |by left|by right].
    - rewrite Hh, length_take, length_app. lia.
    - rewrite Hh, length_take, take_app_le by lia. by rewrite <- take_take, firstn_all. }
  specialize (Hall eq_refl). rewrite Hall in *.
  destruct (len (f_payload f) =? 0) eqn:Hz.
  { apply Z.eqb_eq, len_0 in Hz. intros [= <- <- <-]. split_and!; [by left|done| |done]. right.
    replace h with (enc f) by (by rewrite Hh, Hz, app_nil_r).
    by apply carries_sent. }
  destruct (writeFull outs1 (f_payload f)) as [[taken2 e2] outs2] eqn:E2.
  apply writeFull_spec in E2 as [[k2 ->] Hall2].
  destruct e2 as [e2|].
  { intros [= <- <- <-]. split_and!; [by right; eexists|done| |done].
    destruct (Hpart (h ++ take k2 (f_payload f))) as [Hx|Hx];
      [| |left; split; [done|]|right]; try (eapply carries_ext, Hx; cbn; by rewrite ?app_assoc).
    - rewrite Hh, !length_app, length_take. lia.
    - rewrite Hh, length_app, take_app_add. f_equal. by rewrite length_take, <- take_take, firstn_all. }
  specialize (Hall2 eq_refl). intros [= <- <- <-]. split_and!; [by left|done| |done]. right.
  eapply carries_ext, (carries_sent w fs f Hb Hc); cbn -[enc]; [|done]. by rewrite Hall2, Hh, app_assoc.
Qed.

(** ** The content of a stream *)

(** The data frames of stream [k] up to its first close frame. *)
Fixpoint content (k : Z) (fs : list frame) : list byte :=
  match fs with
  | [] => []
  | f :: fs =>
      if bool_decide (f_id f = k) then
        if f_type f =? frameClose then []
        else if f_type f =? frameData then f_payload f ++ content k fs
        else content k fs
      else content k fs
  end.

Definition closes (k : Z) (f : frame) : Prop := f_id f = k ∧ f_type f = frameClose.

Definition closed_in (k : Z) (fs : list frame) : Prop := Exists (closes k) fs.

Lemma content_open k fs gs :
  ¬ closed_in k fs → content k (fs ++ gs) = content k fs ++ content k gs.
Proof.
  induction fs as [|f fs IH]; intros Hc; [done|]. cbn.
  assert (¬ closed_in k fs) as Hc' by (intros ?; apply Hc; by right).
  rewrite (IH Hc'). case_bool_decide as E; [|done].
  destruct (f_type f =? frameClose) eqn:Et; [|by destruct (f_type f =? frameData); rewrite <- ?app_assoc].
  apply Z.eqb_eq in Et. destruct Hc. left. done.
Qed.

Lemma content_closed k fs gs : closed_in k fs → content k (fs ++ gs) = content k fs.
Proof.
  induction 1 as [f fs [E Ht]|f fs _ IH]; cbn.
  - by rewrite bool_decide_eq_true_2, Ht by exact E.
  - rewrite IH. done.
Qed.

#[export] Instance closed_in_dec k fs : Decision (closed_in k fs).
Proof. unfold closed_in. apply Exists_dec. intros f. unfold closes. apply _. Defined.

Lemma content_prefix k fs gs : content k fs `prefix_of` content k (fs ++ gs).
Proof.
  destruct (decide (closed_in k fs)).
  - by rewrite content_closed.
  - rewrite content_open by done. by eexists.
Qed.

(** Frames of other streams do not matter. *)
Lemma content_other k fs : (∀ f, f ∈ fs → f_id f = k → f_type f = frameOpen) → content k fs = [].
Proof.
  induction fs as [|f fs IH]; intros Hf; [done|]. cbn.
  assert (content k fs = []) as -> by (apply IH; intros g Hg; apply Hf; by right).
  case_bool_decide as E; [|done]. rewrite (Hf f) by (done || left). done.
Qed.

Lemma content_snoc k fs f :
  f_id f ≠ k ∨ f_type f = frameOpen → content k (fs ++ [f]) = content k fs.
Proof.
  intros Hf. destruct (decide (closed_in k fs)); [by rewrite content_closed|].
  rewrite content_open by done. rewrite (content_other k [f]); [by rewrite app_nil_r|].
  intros g ->%list_elem_of_singleton ?. by destruct Hf.
Qed.

Lemma closed_in_snoc k fs f : f_id f ≠ k → closed_in k (fs ++ [f]) → closed_in k fs.
Proof.
  unfold closed_in. rewrite Exists_app. intros Hne [?|H]; [done|].
  apply Exists_cons in H as [[? _]|H]; [done|by apply Exists_nil in H].
Qed.

(** The streams that frames open. *)
Definition opens (fs : list frame) : list Z := f_id <$> filter (λ f, f_type f = frameOpen) fs.

Lemma opens_app fs gs : opens (fs ++ gs) = opens fs ++ opens gs.
Proof. unfold opens. by rewrite filter_app, fmap_app. Qed.

Lemma opens_snoc_other fs f : f_type f ≠ frameOpen → opens (fs ++ [f]) = opens fs.
Proof.
  intros Hf. rewrite opens_app. unfold opens at 2. rewrite filter_cons_False by done. by rewrite app_nil_r.
Qed.

Lemma opens_snoc fs f : f_type f = frameOpen → opens (fs ++ [f]) = opens fs ++ [f_id f].
Proof. intros Hf. rewrite opens_app. unfold opens at 2. by rewrite filter_cons_True by done. Qed.

Lemma opens_in k fs f : f ∈ fs → f_type f = frameOpen → f_id f = k → k ∈ opens fs.
Proof. intros Hf Ht <-. apply list_elem_of_fmap. exists f. split; [done|]. by apply list_elem_of_filter. Qed.

(** ** The invariant of one end

    [fs] are the frames the end has sent, [hs] those of its peer it has handled.
    Streams of parity [p] are its own. *)

Record stream_ok (hs : list frame) (table : gmap Z nat) (r : list byte) (x : nat) (over : Prop)
    (st : Stream) : Prop := {
  so_done : r_closed (recv st) = s_done st;
  so_open : s_done st = false →
    table !! id st = Some x ∧ r ++ buf (recv st) = content (id st) hs ∧ ¬ closed_in (id st) hs;
  so_over : over →
    s_done st = true ∧ r ++ buf (recv st) = content (id st) hs ∧ closed_in (id st) hs;
  so_aborted : s_done st = true → ¬ over →
    buf (recv st) = [] ∧ r `prefix_of` content (id st) hs
}.

Definition known (fs hs : list frame) (k : Z) : Prop := k ∈ opens fs ∨ k ∈ opens hs.

Definition read_from (e : endp) (x : nat) : list byte := default [] (got e !! x).

Record half (p N : Z) (X : option nat) (e : endp) (out inc : wire) (fs hs : list frame) : Prop := {
  hf_payload : maxPayload (session e) = defaultMaxPayload;
  hf_out : carries out fs;
  hf_frames : Forall frame_ok fs;
  hf_in : consumed inc = length (concat (enc <$> hs));
  hf_next : nextID (session e) mod 2 = p ∧ 0 ≤ nextID (session e) ≤ N;
  hf_opens : ∀ k, k ∈ opens fs → k mod 2 = p ∧ k < nextID (session e);
  hf_nodup : NoDup (opens fs);
  hf_known : ∀ l f l', fs = l ++ f :: l' → f_type f ≠ frameOpen → known l hs (f_id f);
  hf_table : ∀ k x, streams (session e) !! k = Some x →
    ∃ st, heap (session e) !! x = Some st ∧ id st = k;
  hf_ids : ∀ x y st st', heap (session e) !! x = Some st → heap (session e) !! y = Some st' →
    id st = id st' → x = y;
  hf_heap : ∀ x st, heap (session e) !! x = Some st →
    in_u64 (id st) ∧ (id st mod 2 = p ∧ id st < nextID (session e) ∨ id st ∈ opens hs);
  hf_live : ∀ x st, heap (session e) !! x = Some st → s_done st = false → Some x ≠ X →
    known fs hs (id st);
  hf_writers : ∀ j x rest, writers e !! j = Some (x, rest) →
    ∃ st, heap (session e) !! x = Some st ∧ known fs hs (id st);
  hf_closing : ∀ x ph, closing e !! x = Some ph →
    ∃ st, heap (session e) !! x = Some st ∧ known fs hs (id st) ∧ s_done st = true;
  hf_fresh : ∀ x, heap (session e) !! x = None → got e !! x = None ∧ x ∉ ended e;
  hf_data : ∀ x st, heap (session e) !! x = Some st →
    stream_ok hs (streams (session e)) (read_from e x) x (x ∈ ended e) st
}.

(** Steps that only close, fill or drain streams and remove them from the table. *)
Record evolves (allowed : Z → Prop) (e e' : endp) : Prop := {
  ev_payload : maxPayload (session e') = maxPayload (session e);
  ev_next : nextID (session e') = nextID (session e);
  ev_heap : ∀ x st', heap (session e') !! x = Some st' →
    ∃ st, heap (session e) !! x = Some st ∧ id st' = id st ∧ (s_done st = true → s_done st' = true);
  ev_keep : ∀ x, heap (session e') !! x = None → heap (session e) !! x = None;
  ev_table : ∀ k x, streams (session e') !! k = Some x → streams (session e) !! k = Some x;
  ev_writers : ∀ j x rest, writers e' !! j = Some (x, rest) →
    (∃ rest', writers e !! j = Some (x, rest')) ∨
    ∃ st, heap (session e) !! x = Some st ∧ allowed (id st);
  ev_closing : ∀ x ph, closing e' !! x = Some ph →
    is_Some (closing e !! x) ∨
    ∃ st, heap (session e') !! x = Some st ∧ allowed (id st) ∧ s_done st = true;
  ev_fresh : ∀ x, heap (session e) !! x = None → got e' !! x = got e !! x ∧ (x ∈ ended e' → x ∈ ended e)
}.

Lemma known_mono fs hs fs' hs' k : fs `prefix_of` fs' → hs `prefix_of` hs' → known fs hs k → known fs' hs' k.
Proof.
  intros [l ->] [l' ->]. unfold known. rewrite !opens_app, !elem_of_app. tauto.
Qed.

(** Such a step may also handle a frame. *)
Lemma half_handles p N X e e' out inc inc' fs hs hs' :
  half p N X e out inc fs hs → hs `prefix_of` hs' → consumed inc' = length (concat (enc <$> hs')) →
  evolves (known fs hs') e e' →
  (∀ x st, heap (session e') !! x = Some st →
     stream_ok hs' (streams (session e')) (read_from e' x) x (x ∈ ended e') st) →
  half p N X e' out inc' fs hs'.
Proof.
  intros [] Hpre Hcon [] Hdata.
  assert (Hk : ∀ l k, known l hs k → known l hs' k) by (intros l k; by apply known_mono).
  assert (Hkeep : ∀ x st, heap (session e) !! x = Some st → ∃ st', heap (session e') !! x = Some st' ∧ id st' = id st).
  { intros x st Hx. destruct (heap (session e') !! x) as [st'|] eqn:E; [|by rewrite ev_keep0 in Hx].
    destruct (ev_heap0 _ _ E) as (st0 & H0 & Hid & _). rewrite Hx in H0. injection H0 as <-. eauto. }
  split; try done; rewrite ?ev_payload0, ?ev_next0; try done.
  - intros l f l' Hl Hf. by apply Hk, (hf_known0 l f l').
  - intros k x Hx. destruct (hf_table0 k x (ev_table0 _ _ Hx)) as (st & Hst & Hid).
    destruct (Hkeep _ _ Hst) as (st' & ? & ?). exists st'. split; [done|congruence].
  - intros x y st st' (s1 & H1 & E1 & _)%ev_heap0 (s2 & H2 & E2 & _)%ev_heap0 Hid.
    apply (hf_ids0 x y s1 s2 H1 H2). congruence.
  - intros x st (s1 & H1 & -> & _)%ev_heap0. destruct (hf_heap0 x s1 H1) as [? [?|Ho]]; (split; [done|]); [by left|].
    right. destruct Hpre as [l ->]. rewrite opens_app, elem_of_app. by left.
  - intros x st (s1 & H1 & -> & Hd)%ev_heap0 Hdone HX. apply Hk, (hf_live0 x s1 H1); [|done].
    destruct (s_done s1); [|done]. by rewrite Hd in Hdone.
  - intros j x rest Hj.
    assert (∃ st, heap (session e) !! x = Some st ∧ known fs hs' (id st)) as (st & Hst & Hst').
    { destruct (ev_writers0 _ _ _ Hj) as [[rest' Hw]|?]; [|done].
      destruct (hf_writers0 _ _ _ Hw) as (st & ? & ?). eauto. }
    destruct (Hkeep _ _ Hst) as (st' & ? & Hid). exists st'. by rewrite Hid.
  - intros x ph Hj. destruct (ev_closing0 _ _ Hj) as [[ph' Hc]|?]; [|done].
    destruct (hf_closing0 _ _ Hc) as (st & Hst & Hst2 & Hd).
    destruct (Hkeep _ _ Hst) as (st' & Hst' & Hid). exists st'. rewrite Hid. split_and!; [done|auto|].
    destruct (ev_heap0 _ _ Hst') as (st0 & H0 & _ & Hd'). rewrite Hst in H0. injection H0 as <-. auto.
  - intros x Hx%ev_keep0. destruct (ev_fresh0 x Hx) as [-> He]. destruct (hf_fresh0 x Hx). split; [done|]. auto.
Qed.

Lemma half_evolves p N X e e' out inc fs hs :
  half p N X e out inc fs hs → evolves (known fs hs) e e' →
  (∀ x st, heap (session e') !! x = Some st →
     stream_ok hs (streams (session e')) (read_from e' x) x (x ∈ ended e') st) →
  half p N X e' out inc fs hs.
Proof. intros Hh He Hd. eapply half_handles; [exact Hh|done|apply Hh|done|done]. Qed.

(** What aborting does to a stream that is in order. *)
Lemma abort_ok hs table table' r x over st :
  stream_ok hs table r x over st → stream_ok hs table' r x over (abortLocal st).
Proof.
  intros []. unfold abortLocal. destruct (s_done st) eqn:E.
  - split; rewrite ?E in *; try done.
  - destruct (so_open0 eq_refl) as (? & Hb & ?). split; cbn; try done.
    + intros [? _]%so_over0. done.
    + intros _ _. split; [done|]. rewrite <- Hb. by eexists.
Qed.

Lemma close_heap s e x :
  heap (closeWithError s e) !! x =
    (λ st, if negb (done s) && bool_decide (x ∈ (map_to_list (streams s)).*2) then abortLocal st else st)
      <$> heap s !! x.
Proof.
  unfold closeWithError. destruct (done s); cbn.
  - by rewrite option_fmap_id.
  - rewrite map_lookup_imap. by destruct (heap s !! x).
Qed.

Lemma in_table (m : gmap Z nat) k x : m !! k = Some x → x ∈ (map_to_list m).*2.
Proof. intros H. apply list_elem_of_fmap. exists (k, x). split; [done|]. by apply elem_of_map_to_list. Qed.

Lemma abort_frame st : id (abortLocal st) = id st ∧ s_done (abortLocal st) = true.
Proof. unfold abortLocal. by destruct (s_done st) eqn:E. Qed.

Lemma half_close p N X e out inc fs hs er :
  half p N X e out inc fs hs →
  half p N X (e <| session ::= (λ s, closeWithError s er) |>) out inc fs hs.
Proof.
  intros Hh. eapply half_evolves; [exact Hh| |].
  - split; cbn; try done.
    + by unfold closeWithError; destruct (done (session e)).
    + by unfold closeWithError; destruct (done (session e)).
    + intros x st'. rewrite close_heap. destruct (heap (session e) !! x) as [st|]; [|done].
      cbn. intros [= <-]. exists st. case_if as E; [destruct (abort_frame st)|]; by split_and!.
    + intros x. rewrite close_heap. by destruct (heap (session e) !! x).
    + intros k x. unfold closeWithError. destruct (done (session e)); [done|]. cbn. by rewrite lookup_empty.
    + intros j x rest ?. left. eauto.
    + intros x ph ?. left. eauto.
  - intros x st'. cbn. rewrite close_heap. destruct (heap (session e) !! x) as [st|] eqn:Hx; [|done].
    cbn. intros [= <-]. pose proof (hf_data _ _ _ _ _ _ _ _ Hh x st Hx) as Hd.
    destruct (done (session e)) eqn:Hdone; cbn.
    + unfold closeWithError. by rewrite Hdone.
    + case_bool_decide as E; [by eapply abort_ok|].
      destruct Hd. split; try done. intros Hs. destruct (so_open0 Hs) as (Ht & _). by apply in_table in Ht.
Qed.

(** ** Sending *)

Definition may_send (p : Z) (e : endp) (fs hs : list frame) (f : frame) : Prop :=
  frame_ok f ∧
  (f_type f ≠ frameOpen ∧ known fs hs (f_id f) ∨
   f_type f = frameOpen ∧ f_id f mod 2 = p ∧ f_id f < nextID (session e) ∧ f_id f ∉ opens fs).

Lemma snoc_split (fs : list frame) f l g l' :
  fs ++ [f] = l ++ g :: l' → l = fs ∧ g = f ∧ l' = [] ∨ ∃ l2, l' = l2 ++ [f] ∧ fs = l ++ g :: l2.
Proof.
  destruct l' as [|y l' _] using rev_ind.
  - intros [-> [= ->]]%app_inj_tail. by left.
  - rewrite app_comm_cons, app_assoc. intros [-> [= ->]]%app_inj_tail. right. eauto.
Qed.

Lemma half_out p N X e out out' inc fs hs :
  half p N X e out inc fs hs → carries out' fs → half p N X e out' inc fs hs.
Proof. intros [] ?. by split. Qed.

Lemma half_extend p N X e out out' inc fs hs f :
  half p N X e out inc fs hs → may_send p e fs hs f → carries out' (fs ++ [f]) →
  half p N X e out' inc (fs ++ [f]) hs.
Proof.
  intros [] [Hf Hm] Hc.
  assert (Hk : ∀ k, known fs hs k → known (fs ++ [f]) hs k)
    by (intros k; apply known_mono; [by eexists|done]).
  split; try done.
  - apply Forall_app. split; [done|]. by constructor.
  - destruct Hm as [[Ht _]|(Ht & Hp & Hn & _)].
    + by rewrite opens_snoc_other.
    + rewrite opens_snoc by done. intros k [?| ->%list_elem_of_singleton]%elem_of_app; [by apply hf_opens0|done].
  - destruct Hm as [[Ht _]|(Ht & _ & _ & Hnew)].
    + by rewrite opens_snoc_other.
    + rewrite opens_snoc by done. apply NoDup_app. split_and!; [done| |apply NoDup_singleton].
      by intros k Hk' ->%list_elem_of_singleton.
  - intros l g l' [(-> & -> & ->)|(l2 & -> & Hl)]%snoc_split Hg.
    + destruct Hm as [[_ ?]|[? _]]; [done|congruence].
    + by apply (hf_known0 l g l2).
  - intros x st Hx Hd HX. by apply Hk, (hf_live0 x).
  - intros j x rest (st & ? & ?)%hf_writers0. eauto.
  - intros x ph (st & ? & ? & ?)%hf_closing0. eauto.
Qed.

Lemma half_send p N X e out inc fs hs f late outs s' out' r :
  half p N X e out inc fs hs → may_send p e fs hs f →
  writeFrame (session e) out (f_type f) (f_id f) (f_payload f) late outs = (s', out', r) →
  ∃ fs', fs `prefix_of` fs' ∧ half p N X (e <| session := s' |>) out' inc fs' hs ∧
    consumed out' = consumed out ∧ (r = Ok tt → fs' = fs ++ [f] ∧ s' = session e) ∧
    maybe_closed (session e) s'.
Proof.
  intros Hh Hm Hw.
  destruct (writeFrame_spec _ _ _ _ _ _ _ _ fs (hf_payload _ _ _ _ _ _ _ _ Hh) (proj1 Hm)
    (hf_out _ _ _ _ _ _ _ _ Hh) Hw) as (Hcl & Hcon & Hc & Hok).
  assert (Hs : ∀ out fs, half p N X e out inc fs hs → half p N X (e <| session := s' |>) out inc fs hs).
  { intros o l Hl. destruct Hcl as [-> |[er ->]]; [by destruct e|by apply half_close]. }
  destruct Hc as [[Hr Hc]|Hc].
  - exists fs. split_and!; [done| |done|done|done]. apply Hs. by eapply half_out.
  - exists (fs ++ [f]). split_and!; [by eexists| |done|by intros ?%Hok|done]. apply Hs. by eapply half_extend.
Qed.

(** ** Steps on one stream *)

(** One stream [x] changes to [f st], and may leave the table. *)
Lemma half_handles_at p N X e e' out inc inc' fs hs hs' x st f :
  half p N X e out inc fs hs → heap (session e) !! x = Some st →
  hs `prefix_of` hs' → consumed inc' = length (concat (enc <$> hs')) →
  heap (session e') = alter f x (heap (session e)) →
  maxPayload (session e') = maxPayload (session e) → nextID (session e') = nextID (session e) →
  (streams (session e') = streams (session e) ∨
   streams (session e') = delete (id st) (streams (session e))) →
  id (f st) = id st → (s_done st = true → s_done (f st) = true) →
  (∀ y, y ≠ x → got e' !! y = got e !! y ∧ (y ∈ ended e' ↔ y ∈ ended e)) →
  writers e' = writers e →
  (∀ y ph, closing e' !! y = Some ph →
     is_Some (closing e !! y) ∨ y = x ∧ known fs hs' (id st) ∧ s_done (f st) = true) →
  (∀ y st' t r ov, y ≠ x → id st' ≠ id st → stream_ok hs t r y ov st' → stream_ok hs' t r y ov st') →
  stream_ok hs' (streams (session e')) (read_from e' x) x (x ∈ ended e') (f st) →
  half p N X e' out inc' fs hs'.
Proof.
  intros Hh Hx Hpre Hcon Hheap Hmp Hnx Htab Hid Hdone Hother Hwr Hcl Hrest Hok.
  assert (Hl : ∀ y st', heap (session e') !! y = Some st' →
    y = x ∧ st' = f st ∨ y ≠ x ∧ heap (session e) !! y = Some st').
  { intros y st' Hy. rewrite Hheap in Hy. destruct (decide (y = x)) as [->|Hne].
    - rewrite lookup_alter, decide_True, Hx in Hy by done. injection Hy as <-. by left.
    - rewrite lookup_alter_ne in Hy by done. by right. }
  eapply half_handles; [exact Hh|done|done| |].
  - split; try done.
    + intros y st' [[-> ->]|[Hne Hy]]%Hl; eauto.
    + intros y. rewrite Hheap. destruct (decide (y = x)) as [->|Hne].
      * rewrite lookup_alter, decide_True, Hx by done. done.
      * by rewrite lookup_alter_ne.
    + intros k y Hk. destruct Htab as [Ht|Ht]; rewrite Ht in Hk; [done|].
      by apply lookup_delete_Some in Hk as [_ ?].
    + intros j y rest Hj. rewrite Hwr in Hj. eauto.
    + intros y ph [?|(-> & Hk & Hd)]%Hcl; [by left|right]. exists (f st). rewrite Hheap, Hid.
      by rewrite lookup_alter, decide_True, Hx by done.
    + intros y Hy. destruct (Hother y) as [? ?]; [congruence|]. tauto.
  - intros y st' [[-> ->]|[Hne Hy]]%Hl; [done|].
    assert (Hids : id st' ≠ id st)
      by (intros E; destruct Hne; by apply (hf_ids _ _ _ _ _ _ _ _ Hh y x st' st)).
    apply Hrest; [done..|]. pose proof (hf_data _ _ _ _ _ _ _ _ Hh y st' Hy) as [].
    destruct (Hother y Hne) as [Hg He]. unfold read_from in *. rewrite Hg. split; rewrite ?He; try done.
    intros Hd. destruct (so_open0 Hd) as (Ht & ?). split; [|done].
    destruct Htab as [-> | ->]; [done|]. by rewrite lookup_delete_ne.
Qed.

Lemma half_update p N X e e' out inc fs hs x st f :
  half p N X e out inc fs hs → heap (session e) !! x = Some st →
  heap (session e') = alter f x (heap (session e)) →
  maxPayload (session e') = maxPayload (session e) → nextID (session e') = nextID (session e) →
  (streams (session e') = streams (session e) ∨
   streams (session e') = delete (id st) (streams (session e))) →
  id (f st) = id st → (s_done st = true → s_done (f st) = true) →
  (∀ y, y ≠ x → got e' !! y = got e !! y ∧ (y ∈ ended e' ↔ y ∈ ended e)) →
  writers e' = writers e →
  (∀ y ph, closing e' !! y = Some ph →
     is_Some (closing e !! y) ∨ y = x ∧ known fs hs (id st) ∧ s_done (f st) = true) →
  stream_ok hs (streams (session e')) (read_from e' x) x (x ∈ ended e') (f st) →
  half p N X e' out inc fs hs.
Proof. intros Hh **. eapply half_handles_at; try done; apply Hh. Qed.

Lemma closeBegin_inv p N e out inc fs hs x :
  half p N None e out inc fs hs → half p N None (closeBegin e x) out inc fs hs.
Proof.
  intros Hh. unfold closeBegin. destruct (heap (session e) !! x) as [st|] eqn:Hx; [|done].
  destruct (s_done st) eqn:Hd; [done|].
  eapply (half_update _ _ _ _ _ _ _ _ _ x st abortLocal Hh Hx); cbn; try done.
  - by left.
  - by apply abort_frame.
  - by rewrite Hd.
  - intros y ph. destruct (decide (y = x)) as [->|Hne].
    + intros _. right. split_and!; [done|by apply (hf_live _ _ _ _ _ _ _ _ Hh x)|by apply abort_frame].
    + rewrite lookup_insert_ne by done. eauto.
  - eapply abort_ok, (hf_data _ _ _ _ _ _ _ _ Hh x st Hx).
Qed.

Lemma writeBegin_inv p N e out inc fs hs x d now :
  half p N None e out inc fs hs → half p N None (writeBegin e x d now) out inc fs hs.
Proof.
  intros Hh. unfold writeBegin. destruct (heap (session e) !! x) as [st|] eqn:Hx; [|done].
  destruct (s_done st) eqn:Hd; [done|]. destruct (writeTimedOut st now); [done|].
  eapply half_evolves; [exact Hh| |apply Hh]. split; cbn; try done; eauto.
  intros j y rest. destruct (decide (j = fresh (dom (writers e)))) as [->|Hne].
  - rewrite lookup_insert_eq. intros [= <- <-]. right. exists st. split; [done|].
    by apply (hf_live _ _ _ _ _ _ _ _ Hh x).
  - rewrite lookup_insert_ne by done. eauto.
Qed.

Lemma streamRead_inv p N e out inc fs hs x now size :
  half p N None e out inc fs hs → half p N None (streamRead e x now size) out inc fs hs.
Proof.
  intros Hh. unfold streamRead. destruct (heap (session e) !! x) as [st|] eqn:Hx; [|done].
  destruct (recv_Read (recv st) now size) as [b r] eqn:Hr.
  pose proof (hf_data _ _ _ _ _ _ _ _ Hh x st Hx) as Hok.
  assert (Hcase : b = recv st ∧ (∀ q, r ≠ Some (Ok q)) ∨
    ∃ n, b = (recv st) <| buf ::= drop n |> ∧ r = Some (Ok (take n (buf (recv st)))) ∧ buf (recv st) ≠ []).
  { unfold recv_Read in Hr. destruct (len (buf (recv st)) =? 0) eqn:E.
    - left. destruct (r_closed (recv st)); [by injection Hr as <- <-|].
      destruct (deadline (recv st)); [case_all|]; by injection Hr as <- <-.
    - apply Z.eqb_neq in E. right. injection Hr as <- <-. eexists. split_and!; [done|done|].
      intros E'. by rewrite E' in E. }
  destruct Hcase as [[-> Hno]|(n & -> & -> & Hne)].
  - assert (Heq : half p N None (e <| session ::= (λ s, updateStream s x (λ st0, st0 <| recv := recv st |>)) |>) out inc fs hs).
    { eapply (half_update _ _ _ _ _ _ _ _ _ x st (λ st0, st0 <| recv := recv st |>) Hh Hx); cbn; try done; eauto.
      by destruct st. }
    destruct r as [[q|]|]; [by destruct (Hno q)|exact Heq|exact Heq].
  - eapply (half_update _ _ _ _ _ _ _ _ _ x st (λ st0, st0 <| recv := (recv st) <| buf ::= drop n |> |>) Hh Hx);
      cbn; try done; eauto.
    + intros y Hy. by rewrite lookup_insert_ne.
    + unfold read_from. cbn. rewrite lookup_insert_eq. cbn.
      destruct Hok. unfold read_from in *.
      assert (Ha : ∀ l, (default [] (got e !! x) ++ take n (buf (recv st))) ++ drop n (buf (recv st)) = l
        ↔ default [] (got e !! x) ++ buf (recv st) = l) by (intros l; by rewrite <- app_assoc, take_drop).
      split; cbn; try done.
      * intros ?%so_open0. by rewrite Ha.
      * intros ?%so_over0. by rewrite Ha.
      * intros Hd Hov. destruct (so_aborted0 Hd Hov) as [? _]. done.
Qed.

(** A step that may send a frame. *)
Definition sends (p N : Z) (X : option nat) (e : endp) (out out' inc : wire) (fs hs : list frame) : Prop :=
  ∃ fs', fs `prefix_of` fs' ∧ half p N X e out' inc fs' hs ∧ consumed out' = consumed out.

Lemma sends_none p N X e out inc fs hs : half p N X e out inc fs hs → sends p N X e out out inc fs hs.
Proof. intros ?. exists fs. done. Qed.

(** Only the goroutines in progress change. *)
Lemma half_goroutines p N X e e' out inc fs hs :
  half p N X e out inc fs hs → session e' = session e → got e' = got e → ended e' = ended e →
  (∀ j x rest, writers e' !! j = Some (x, rest) → ∃ rest', writers e !! j = Some (x, rest')) →
  (∀ x ph, closing e' !! x = Some ph → is_Some (closing e !! x)) →
  half p N X e' out inc fs hs.
Proof.
  intros Hh Hs Hg He Hw Hc. eapply half_evolves; [exact Hh| |].
  - split; rewrite ?Hs, ?Hg, ?He; try done; eauto.
  - unfold read_from. rewrite Hs, Hg, He. apply Hh.
Qed.

Lemma closeStep_inv p N e out inc fs hs x late outs :
  half p N None e out inc fs hs →
  let '(e', out') := closeStep e out x late outs in sends p N None e' out out' inc fs hs.
Proof.
  intros Hh. unfold closeStep. destruct (closing e !! x) as [ph|] eqn:Hc; [|by apply sends_none].
  destruct (hf_closing _ _ _ _ _ _ _ _ Hh x ph Hc) as (st & Hx & Hk & Hdone). rewrite Hx.
  destruct ph.
  - apply sends_none. eapply (half_update _ _ _ _ _ _ _ _ _ x st (λ st, st) Hh Hx); cbn; try done.
    + symmetry. apply alter_id. done.
    + by right.
    + intros y ph. destruct (decide (y = x)) as [->|Hne]; [eauto|]. rewrite lookup_insert_ne by done. eauto.
    + pose proof (hf_data _ _ _ _ _ _ _ _ Hh x st Hx) as []. split; try done.
      by rewrite Hdone.
  - destruct (writeFrame _ _ _ _ _ _ _) as [[s' out'] r] eqn:Hw.
    destruct (half_send _ _ _ _ _ _ _ _ (mkFrame frameClose (id st) []) late outs s' out' r Hh) as (fs' & ? & Hh' & ? & _);
      [|exact Hw|].
    { split; [split; cbn; [by right; right|by apply (hf_heap _ _ _ _ _ _ _ _ Hh x st)|done]|left; done]. }
    exists fs'. split_and!; [done| |done]. eapply half_goroutines; [exact Hh'|done|done|done|by eauto|].
    intros y ph Hy. cbn in *. apply lookup_delete_Some in Hy as [_ ?]. eauto.
Qed.

Lemma writeChunk_inv p N e out inc fs hs j x rest late outs :
  half p N None e out inc fs hs → writers e !! j = Some (x, rest) →
  let '(e', out') := writeChunk e out j x rest late outs in sends p N None e' out out' inc fs hs.
Proof.
  intros Hh Hj. unfold writeChunk.
  assert (Hdel : ∀ e out fs, half p N None e out inc fs hs → half p N None (e <| writers ::= delete j |>) out inc fs hs).
  { intros e0 o l H0. eapply half_goroutines; [exact H0|done..| |by eauto].
    intros j' y r Hy. cbn in Hy. apply lookup_delete_Some in Hy as [_ ?]. eauto. }
  destruct rest as [|b rest]; [by apply sends_none, Hdel|]. set (l := b :: rest) in *. clearbody l.
  destruct (hf_writers _ _ _ _ _ _ _ _ Hh j x l Hj) as (st & Hx & Hk). rewrite Hx.
  destruct (writeFrame _ _ _ _ _ _ _) as [[s' out'] r] eqn:Hw.
  destruct (half_send _ _ _ _ _ _ _ _ (mkFrame frameData (id st) (take (Z.to_nat (maxPayload (session e))) l))
    late outs s' out' r Hh) as (fs' & ? & Hh' & ? & _); [|exact Hw|].
  { split; [split; cbn|by left]; [by right; left|by apply (hf_heap _ _ _ _ _ _ _ _ Hh x st)|].
    unfold len. rewrite (hf_payload _ _ _ _ _ _ _ _ Hh), length_take. change defaultMaxPayload with 32768. lia. }
  exists fs'. split_and!; [done| |done]. destruct (is_ok r); [|by apply Hdel].
  eapply half_goroutines; [exact Hh'|done..| |by eauto].
  intros j' y r' Hy. cbn in Hy. destruct (decide (j' = j)) as [->|Hne].
  - rewrite lookup_insert_eq in Hy. injection Hy as <- <-. eauto.
  - rewrite lookup_insert_ne in Hy by done. eauto.
Qed.

(** ** New streams *)

(** What an end knows of the frames [gs] its peer has sent, of which it has handled
    [hs]. *)
Record peer (p : Z) (inc : wire) (fs hs gs : list frame) : Prop := {
  pe_prefix : hs `prefix_of` gs;
  pe_wire : carries inc gs;
  pe_frames : Forall frame_ok gs;
  pe_parity : ∀ k, k ∈ opens gs → k mod 2 ≠ p;
  pe_nodup : NoDup (opens gs);
  pe_known : ∀ l f l', gs = l ++ f :: l' → f_type f ≠ frameOpen →
    f_id f ∈ opens l ∨ f_id f ∈ opens fs
}.

Lemma opens_prefix fs gs k : fs `prefix_of` gs → k ∈ opens fs → k ∈ opens gs.
Proof. intros [l ->]. rewrite opens_app, elem_of_app. by left. Qed.

(** A stream no frame has been seen of. *)
Lemma unseen_content k hs :
  (∀ l f l', hs = l ++ f :: l' → f_type f ≠ frameOpen → f_id f ≠ k) →
  content k hs = [] ∧ ¬ closed_in k hs.
Proof.
  intros Hu. assert (Hin : ∀ f, f ∈ hs → f_type f ≠ frameOpen → f_id f ≠ k).
  { intros f (l & l' & ->)%list_elem_of_split Ht. by eapply Hu. }
  split.
  - apply content_other. intros f Hf Hid. destruct (decide (f_type f = frameOpen)); [done|].
    by apply Hin in Hf.
  - intros (f & Hf & Hid & Ht)%Exists_exists. by apply Hin in Hf; [|rewrite Ht].
Qed.

Lemma half_next p N N' e out inc fs hs n :
  half p N None e out inc fs hs → nextID (session e) ≤ n ≤ N' → n mod 2 = p →
  half p N' None (e <| session ::= (λ s, s <| nextID := n |>) |>) out inc fs hs.
Proof.
  intros [] Hn Hp. destruct hf_next0 as [Hp0 Hn0]. split; cbn; try done.
  - lia.
  - intros k [? ?]%hf_opens0. lia.
  - intros x st [? [?|?]]%hf_heap0; (split; [done|]); [left; lia|by right].
Qed.

Lemma half_new p N X e out inc fs hs s i x :
  half p N None e out inc fs hs → in_u64 i →
  i mod 2 = p ∧ i < nextID (session e) ∨ i ∈ opens hs →
  (X = Some x ∨ known fs hs i) →
  (∀ y st, heap (session e) !! y = Some st → id st ≠ i) →
  content i hs = [] ∧ ¬ closed_in i hs →
  addStream (session e) (newStream (session e) i) = (s, Ok x) →
  half p N X (e <| session := s |>) out inc fs hs ∧
  heap s !! x = Some (newStream (session e) i) ∧ nextID s = nextID (session e).
Proof.
  intros Hh Hi Hmine HX Hnew [Hc Hcl] Ha. unfold addStream in Ha.
  destruct (err (session e)); [done|]. injection Ha as <- <-.
  set (y := fresh (dom (heap (session e)))).
  assert (Hy : heap (session e) !! y = None) by (apply not_elem_of_dom, is_fresh).
  assert (Hl : ∀ z st, <[y := newStream (session e) i]> (heap (session e)) !! z = Some st →
    z = y ∧ st = newStream (session e) i ∨ z ≠ y ∧ heap (session e) !! z = Some st).
  { intros z st. destruct (decide (z = y)) as [->|Hne].
    - rewrite lookup_insert_eq. intros [= <-]. by left.
    - rewrite lookup_insert_ne by done. by right. }
  assert (Hk : ∀ z st, heap (session e) !! z = Some st →
    <[y := newStream (session e) i]> (heap (session e)) !! z = Some st).
  { intros z st Hz. rewrite lookup_insert_ne; [done|]. intros <-. congruence. }
  split; [|by cbn; rewrite lookup_insert_eq].
  destruct (hf_fresh _ _ _ _ _ _ _ _ Hh y Hy) as [Hg He].
  destruct Hh. split; cbn; try done.
  - intros k z. destruct (decide (k = i)) as [->|Hne].
    + rewrite lookup_insert_eq. intros [= <-]. exists (newStream (session e) i). by rewrite lookup_insert_eq.
    + rewrite lookup_insert_ne by done. intros (st & ? & ?)%hf_table0. eauto.
  - intros a b st st' [[-> ->]|[? Ha]]%Hl [[-> ->]|[? Hb]]%Hl; cbn; intros Hid; try done.
    + by destruct (Hnew _ _ Hb).
    + by destruct (Hnew _ _ Ha).
    + by apply (hf_ids0 a b st st').
  - intros z st [[-> ->]|[? Hz]]%Hl; [done|]. by apply (hf_heap0 z).
  - intros z st [[-> ->]|[? Hz]]%Hl Hd Hne; [|by apply (hf_live0 z)]. cbn. by destruct HX as [-> |?].
  - intros j z rest (st & ? & ?)%hf_writers0. eauto.
  - intros z ph (st & ? & ? & ?)%hf_closing0. eauto.
  - intros z. destruct (decide (z = y)) as [->|Hne]; [by rewrite lookup_insert_eq|].
    rewrite lookup_insert_ne by done. apply hf_fresh0.
  - intros z st [[-> ->]|[Hne Hz]]%Hl.
    + unfold read_from. cbn. rewrite Hg. split; cbn; try done.
      intros _. rewrite lookup_insert_eq. done.
    + destruct (hf_data0 z st Hz). split; try done. intros Hd. destruct (so_open0 Hd) as (? & ?).
      split; [|done]. rewrite lookup_insert_ne; [done|]. intros E. by destruct (Hnew _ _ Hz).
Qed.

Lemma closed_lookup s s' x st :
  maybe_closed s s' → heap s !! x = Some st → ∃ st', heap s' !! x = Some st' ∧ id st' = id st.
Proof.
  intros [-> |[e ->]] Hx; [eauto|]. rewrite close_heap, Hx. cbn. eexists. split; [done|].
  case_if as E; [apply abort_frame|done].
Qed.

Lemma half_announced p N X e out inc fs hs x st :
  half p N (Some X) e out inc fs hs → heap (session e) !! x = Some st → X = x →
  s_done st = true ∨ known fs hs (id st) → half p N None e out inc fs hs.
Proof.
  intros [] Hx -> Hst. split; try done. intros y st' Hy Hd _. destruct (decide (y = x)) as [->|Hne].
  - rewrite Hx in Hy. injection Hy as <-. destruct Hst; [congruence|done].
  - apply (hf_live0 y); [done..|congruence].
Qed.

Lemma half_bound p N N' X e out inc fs hs :
  half p N X e out inc fs hs → N ≤ N' → half p N' X e out inc fs hs.
Proof. intros [] ?. split; try done. lia. Qed.

Lemma Dial_inv p N e out inc fs hs gs c cl late outs :
  half p N None e out inc fs hs → peer p inc fs hs gs → N + 2 < 2 ^ 64 →
  let '(e', out') := Dial e out c cl late outs in sends p (N + 2) None e' out out' inc fs hs.
Proof.
  intros Hh Hp HN. unfold Dial.
  destruct c; [apply sends_none; eapply half_bound; [exact Hh|lia]|].
  pose proof (hf_next _ _ _ _ _ _ _ _ Hh) as [Hpar Hn]. set (n := nextID (session e)) in *.
  rewrite !(u64_small (n + 2)) by (unfold in_u64; lia). replace (n + 2 - 2) with n by lia.
  rewrite (u64_small n) by (unfold in_u64; lia).
  assert (H1 : half p (N + 2) None (e <| session ::= (λ s, s <| nextID := n + 2 |>) |>) out inc fs hs).
  { apply (half_next _ N); [done|lia|]. rewrite <- Hpar. replace (n + 2) with (n + 1 * 2) by lia. apply Z_mod_plus_full. }
  set (e1 := e <| session ::= (λ s, s <| nextID := n + 2 |>) |>) in *.
  change ((session e) <| nextID := n + 2 |>) with (session e1).
  destruct (addStream (session e1) (newStream (session e1) n)) as [s [x|er]] eqn:Ha.
  2:{ assert (s = session e1) as -> by (unfold addStream in Ha; destruct (err (session e1)); congruence).
      by apply sends_none. }
  assert (Hout : ∀ k, k ∈ opens hs → k mod 2 ≠ p)
    by (intros k Hk; eapply (pe_parity _ _ _ _ _ Hp), opens_prefix; [apply Hp|done]).
  destruct (half_new p (N + 2) (Some x) e1 out inc fs hs s n x) as (H2 & Hx & Hnx); try done.
  { unfold in_u64. lia. }
  { left. cbn. lia. }
  { by left. }
  { intros y st Hy. cbn in Hy. destruct (hf_heap _ _ _ _ _ _ _ _ Hh y st Hy) as (_ & [?|Hk%Hout]); [lia|].
    intros E. by rewrite E in Hk. }
  { apply unseen_content. intros l f l' -> Ht E. destruct (pe_prefix _ _ _ _ _ Hp) as [r Hr].
    rewrite <- app_assoc in Hr. destruct (pe_known _ _ _ _ _ Hp _ _ _ Hr Ht) as [Hk|Hk]; rewrite E in Hk.
    - eapply Hout; [|exact Hpar]. rewrite opens_app, elem_of_app. by left.
    - apply (hf_opens _ _ _ _ _ _ _ _ Hh) in Hk. lia. }
  destruct (writeFrame s out frameOpen n [] late outs) as [[s' out'] r] eqn:Hw.
  destruct (half_send _ _ _ _ _ _ _ _ (mkFrame frameOpen n []) late outs s' out' r H2)
    as (fs' & Hfs & H3 & Hcon & Hok & Hmc); [|exact Hw|].
  { split; [split; cbn; [by left|unfold in_u64; lia|done]|]. right. cbn. split_and!; [done|done| |].
    - rewrite Hnx. cbn. lia.
    - intros Hk%(hf_opens _ _ _ _ _ _ _ _ Hh). lia. }
  cbn in H3. destruct r as [[]|er].
  - destruct (Hok eq_refl) as [-> ->]. exists (fs ++ [mkFrame frameOpen n []]). split_and!; [done| |done].
    assert (half p (N + 2) None (e <| session := s |>) out' inc (fs ++ [mkFrame frameOpen n []]) hs) as H4.
    { eapply half_announced; [exact H3|exact Hx|done|]. right. left. rewrite opens_snoc by done.
      apply elem_of_app. right. by left. }
    destruct cl; [by apply closeBegin_inv|done].
  - exists fs'. split_and!; [done| |done].
    destruct (closed_lookup _ _ x _ Hmc Hx) as (st & Hst & Hid). cbn in Hid.
    apply (half_announced _ _ x _ _ _ _ _ x (abortLocal st)); [|cbn|done|left; apply abort_frame].
    + eapply (half_update _ _ _ _ _ _ _ _ _ x st abortLocal H3 Hst); cbn; try done.
      * right. by rewrite Hid.
      * apply abort_frame.
      * intros _. apply abort_frame.
      * eauto.
      * eapply abort_ok, (hf_data _ _ _ _ _ _ _ _ H3 x st Hst).
    + by rewrite lookup_alter, decide_True, Hst.
Qed.

(** ** The read loop *)

Lemma stream_ok_other hs f t r x ov st :
  f_id f ≠ id st ∨ f_type f = frameOpen ∨ s_done st = true →
  stream_ok hs t r x ov st → stream_ok (hs ++ [f]) t r x ov st.
Proof.
  intros Hf []. split; try done.
  - intros Hd. destruct (so_open0 Hd) as (? & Hc & Hcl).
    assert (f_id f ≠ id st ∨ f_type f = frameOpen) as Hf'
      by (destruct Hf as [?|[?|?]]; [by left|by right|congruence]).
    rewrite content_snoc by done. split_and!; [done|done|]. intros Hcl'. destruct Hcl.
    unfold closed_in in *. apply Exists_app in Hcl' as [?|Hx]; [done|].
    apply Exists_cons in Hx as [[? Ht]|Hx]; [|by apply Exists_nil in Hx].
    destruct Hf' as [?|Ht']; [done|]. by rewrite Ht' in Ht.
  - intros Ho. destruct (so_over0 Ho) as (? & Hc & Hcl). rewrite content_closed by done.
    split_and!; [done|done|]. apply Exists_app. by left.
  - intros Hd Ho. destruct (so_aborted0 Hd Ho) as [? Hp]. split; [done|].
    etrans; [exact Hp|]. apply content_prefix.
Qed.

(** A frame that changes nothing. *)
Lemma half_ignores p N e out inc inc' fs hs f :
  half p N None e out inc fs hs → consumed inc' = length (concat (enc <$> hs ++ [f])) →
  f_type f = frameOpen ∨ streams (session e) !! f_id f = None ∨
    (∃ x st, heap (session e) !! x = Some st ∧ id st = f_id f ∧ s_done st = true) →
  half p N None e out inc' fs (hs ++ [f]).
Proof.
  intros Hh Hcon Hf. eapply half_handles; [exact Hh|by eexists|done| |].
  - split; try done; eauto.
  - intros x st Hx. pose proof (hf_data _ _ _ _ _ _ _ _ Hh x st Hx) as Hd.
    apply stream_ok_other; [|done]. destruct (s_done st) eqn:E; [by right; right|].
    destruct Hf as [?|[Ht|(y & st' & Hy & Hid & Hdone)]]; [by right; left|left..]; intros Eid.
    + destruct (so_open _ _ _ _ _ _ Hd E) as (Htab & _). congruence.
    + assert (y = x) as -> by (apply (hf_ids _ _ _ _ _ _ _ _ Hh y x st' st); congruence).
      rewrite Hx in Hy. injection Hy as <-. congruence.
Qed.

Lemma content_data hs f :
  f_type f = frameData → ¬ closed_in (f_id f) hs →
  content (f_id f) (hs ++ [f]) = content (f_id f) hs ++ f_payload f ∧ ¬ closed_in (f_id f) (hs ++ [f]).
Proof.
  intros Ht Hc. rewrite content_open by done. cbn. rewrite bool_decide_eq_true_2, Ht by done. cbn.
  rewrite app_nil_r. split; [done|]. unfold closed_in. rewrite Exists_app. intros [?|H]; [done|].
  apply Exists_cons in H as [[_ E]|H]; [by rewrite Ht in E|by apply Exists_nil in H].
Qed.

Lemma content_close hs f :
  f_type f = frameClose → content (f_id f) (hs ++ [f]) = content (f_id f) hs ∧ closed_in (f_id f) (hs ++ [f]).
Proof.
  intros Ht. split.
  - destruct (decide (closed_in (f_id f) hs)); [by apply content_closed|]. rewrite content_open by done.
    cbn. rewrite bool_decide_eq_true_2, Ht by done. by rewrite app_nil_r.
  - apply Exists_app. right. by left.
Qed.

(** The next frame of the peer. *)
Definition next_frame (p : Z) (inc inc' : wire) (fs hs gs : list frame) (f : frame) : Prop :=
  peer p inc fs hs gs ∧ hs ++ [f] `prefix_of` gs ∧ consumed inc' = length (concat (enc <$> hs ++ [f])).

Lemma handle_open p N e out inc inc' fs hs gs f :
  half p N None e out inc fs hs → next_frame p inc inc' fs hs gs f → f_type f = frameOpen →
  let s := session e in
  match addStream s (newStream s (f_id f)) with
  | (s, Err _) => half p N None (e <| session := s |>) out inc' fs (hs ++ [f])
  | (s, Ok x) => half p N None (e <| session := s |>) out inc' fs (hs ++ [f])
  end.
Proof.
  intros Hh (Hp & Hpre & Hcon) Ht s.
  assert (H1 : half p N None e out inc' fs (hs ++ [f])) by (eapply half_ignores; eauto).
  destruct (addStream s (newStream s (f_id f))) as [s' [x|er]] eqn:Ha.
  2:{ unfold addStream in Ha. destruct (err s); [|done]. injection Ha as <- _. by destruct e. }
  destruct Hpre as [l Hl]. pose proof (pe_nodup _ _ _ _ _ Hp) as Hnd. rewrite Hl, opens_app, opens_snoc in Hnd by done.
  assert (Hnew : f_id f ∉ opens hs).
  { intros Hk. apply NoDup_app in Hnd as (Hnd & _). apply NoDup_app in Hnd as (_ & Hnd & _).
    by apply (Hnd _ Hk), list_elem_of_singleton. }
  assert (Hpar : f_id f mod 2 ≠ p).
  { apply (pe_parity _ _ _ _ _ Hp). rewrite Hl, opens_app, opens_snoc, !elem_of_app by done. left. right. by left. }
  assert (Ho : f_id f ∈ opens (hs ++ [f])) by (rewrite opens_snoc, elem_of_app by done; right; by left).
  apply (half_new p N None e out inc' fs (hs ++ [f]) s' (f_id f) x H1); try done.
  - pose proof (pe_frames _ _ _ _ _ Hp) as Hf. rewrite Hl, !Forall_app in Hf.
    destruct Hf as [[_ Hf] _]. apply Forall_cons in Hf as [[] _]. done.
  - by right.
  - right. by right.
  - intros y st Hy E. destruct (hf_heap _ _ _ _ _ _ _ _ Hh y st Hy) as (_ & [[? _]|?]); congruence.
  - apply unseen_content. intros l1 g l2 E Hg Hid.
    apply snoc_split in E as [(-> & -> & ->)|(l3 & -> & ->)]; [done|].
    rewrite <- !app_assoc in Hl. cbn in Hl. destruct (pe_known _ _ _ _ _ Hp _ _ _ Hl Hg) as [Hk|Hk]; rewrite Hid in Hk.
    + apply Hnew. rewrite opens_app, elem_of_app. by left.
    + apply (hf_opens _ _ _ _ _ _ _ _ Hh) in Hk as [? _]. done.
Qed.

Lemma half_reader p N X e out inc fs hs rd :
  half p N X e out inc fs hs → half p N X (e <| reader := rd |>) out inc fs hs.
Proof. intros Hh. eapply half_goroutines; [exact Hh|done..|eauto|eauto]. Qed.

Lemma recv_Write_cases b data b' r :
  recv_Write b data = (b', r) →
  r = Ok tt ∧ r_closed b = false ∧ b' = b <| buf ::= (λ l, l ++ data) |> ∨ b' = b ∧ ∃ e, r = Err e.
Proof. unfold recv_Write. case_all; intros [= <- <-]; eauto. Qed.

(** The stream is taken out of the table and aborted, or was closed before. *)
Lemma handle_refused p N e out inc inc' fs hs f x st late outs :
  half p N None e out inc fs hs → consumed inc' = length (concat (enc <$> hs ++ [f])) →
  f_type f = frameData → heap (session e) !! x = Some st → id st = f_id f →
  let '(s, out') :=
    if s_done st then (session e, out)
    else
      let s := removeStream (updateStream (session e) x abortLocal) (id st) in
      let '(s, out, _) := writeFrame s out frameClose (id st) [] late outs in
      (s, out) in
  sends p N None (e <| session := closeWithError s "receive buffer" |>) out out' inc' fs (hs ++ [f]).
Proof.
  intros Hh Hcon Ht Hx Hid. destruct (s_done st) eqn:Hd.
  { apply sends_none. apply (half_close _ _ _ e). eapply half_ignores; [exact Hh|done|]. right. right. eauto. }
  pose proof (hf_data _ _ _ _ _ _ _ _ Hh x st Hx) as Hok.
  set (s := removeStream (updateStream (session e) x abortLocal) (id st)).
  assert (H1 : half p N None (e <| session := s |>) out inc' fs (hs ++ [f])).
  { eapply (half_handles_at _ _ _ e _ _ _ _ _ hs _ x st abortLocal); cbn; try done; eauto.
    - by eexists.
    - apply abort_frame.
    - intros _. apply abort_frame.
    - intros y st' t r ov _ Hne Hs. apply stream_ok_other; [left; congruence|done].
    - apply stream_ok_other; [by right; right; apply abort_frame|]. by eapply abort_ok. }
  destruct (writeFrame s out frameClose (id st) [] late outs) as [[s' out'] r] eqn:Hw.
  destruct (half_send _ _ _ _ _ _ _ _ (mkFrame frameClose (id st) []) late outs s' out' r H1) as (fs' & ? & H2 & ? & _);
    [|exact Hw|].
  { split; [split; cbn; [by right; right|by apply (hf_heap _ _ _ _ _ _ _ _ Hh x st)|done]|]. left. split; [done|].
    apply (known_mono fs hs); [done|by eexists|]. by apply (hf_live _ _ _ _ _ _ _ _ Hh x). }
  cbv zeta. rewrite Hw. exists fs'. split_and!; [done| |done]. exact (half_close _ _ _ _ _ _ _ _ "receive buffer" H2).
Qed.

Lemma handle_data p N e out inc inc' fs hs f late outs :
  half p N None e out inc fs hs → consumed inc' = length (concat (enc <$> hs ++ [f])) →
  f_type f = frameData →
  let '(e', out') := handleFrame e out frameData (f_id f) (f_payload f) late outs in
  sends p N None e' out out' inc' fs (hs ++ [f]).
Proof.
  intros Hh Hcon Ht. unfold handleFrame, getStream. cbn.
  destruct (streams (session e) !! f_id f) as [x|] eqn:Htab.
  2:{ apply sends_none. eapply half_ignores; [exact Hh|done|]. right. by left. }
  destruct (hf_table _ _ _ _ _ _ _ _ Hh _ _ Htab) as (st & Hx & Hid). rewrite Hx.
  pose proof (hf_data _ _ _ _ _ _ _ _ Hh x st Hx) as Hok.
  destruct (recv_Write (recv st) (f_payload f)) as [b r] eqn:Hw.
  destruct (recv_Write_cases _ _ _ _ Hw) as [(-> & Hcl & ->)|(-> & er & ->)].
  - apply sends_none. rewrite (so_done _ _ _ _ _ _ Hok) in Hcl.
    destruct (so_open _ _ _ _ _ _ Hok Hcl) as (_ & Hc & Hnc). rewrite Hid in Hc, Hnc.
    destruct (content_data hs f Ht Hnc) as [Hc' Hnc'].
    eapply (half_handles_at _ _ _ e _ _ _ _ _ hs _ x st
      (λ st0, st0 <| recv := (recv st) <| buf ::= (λ l, l ++ f_payload f) |> |>)); cbn; try done; eauto.
    + by eexists.
    + intros y st' t r ov _ Hne Hs. apply stream_ok_other; [left; congruence|done].
    + split; cbn; rewrite ?Hid, ?Hc'; try done.
      * by rewrite (so_done _ _ _ _ _ _ Hok).
      * intros _. rewrite app_assoc. unfold read_from in *. cbn in *. by rewrite Hc.
      * intros [? _]%(so_over _ _ _ _ _ _ Hok). congruence.
      * intros. congruence.
  - pose proof (handle_refused p N e out inc inc' fs hs f x st late outs Hh Hcon Ht Hx Hid) as Hr.
    destruct (if s_done st then _ else _) as [s out']. destruct Hr as (fs' & ? & H2 & ?).
    exists fs'. split_and!; [done| |done]. by apply (half_reader _ _ _ _ _ _ _ _ Stopped) in H2.
Qed.

Lemma handle_close p N e out inc inc' fs hs f late outs :
  half p N None e out inc fs hs → consumed inc' = length (concat (enc <$> hs ++ [f])) →
  f_type f = frameClose →
  let '(e', out') := handleFrame e out frameClose (f_id f) (f_payload f) late outs in
  sends p N None e' out out' inc' fs (hs ++ [f]).
Proof.
  intros Hh Hcon Ht. unfold handleFrame, getStream. cbn.
  destruct (streams (session e) !! f_id f) as [x|] eqn:Htab.
  2:{ apply sends_none. eapply half_ignores; [exact Hh|done|]. right. by left. }
  destruct (hf_table _ _ _ _ _ _ _ _ Hh _ _ Htab) as (st & Hx & Hid). rewrite Hx.
  pose proof (hf_data _ _ _ _ _ _ _ _ Hh x st Hx) as Hok. apply sends_none.
  destruct (content_close hs f Ht) as [Hc Hcl].
  assert (Hid' : id (closeRemote st) = id st) by (unfold closeRemote; by destruct (s_done st)).
  assert (Hd' : s_done (closeRemote st) = true) by (unfold closeRemote; by destruct (s_done st) eqn:?).
  destruct (s_done st) eqn:Hd.
  - eapply (half_handles_at _ _ _ e _ _ _ _ _ hs _ x st closeRemote); cbn; try done; eauto.
    + by eexists.
    + right. by rewrite Hid.
    + intros y st' t r ov _ Hne Hs. apply stream_ok_other; [left; congruence|done].
    + assert (closeRemote st = st) as -> by (unfold closeRemote; by rewrite Hd).
      apply stream_ok_other; [by right; right|]. destruct Hok. split; try done. by rewrite Hd.
  - eapply (half_handles_at _ _ _ e _ _ _ _ _ hs _ x st closeRemote); cbn; try done; eauto.
    + by eexists.
    + right. by rewrite Hid.
    + intros y Hne. split; [done|]. rewrite elem_of_union, elem_of_singleton. tauto.
    + intros y st' t r ov _ Hne Hs. apply stream_ok_other; [left; congruence|done].
    + destruct (so_open _ _ _ _ _ _ Hok Hd) as (_ & Hb & _). rewrite Hid in Hb. unfold read_from in *. cbn.
      unfold closeRemote in *. rewrite Hd in *. split; cbn; rewrite ?Hid, ?Hc; try done.
      intros _ Hno. destruct Hno. apply elem_of_union_l, elem_of_singleton. done.
Qed.

Lemma handleFrame_inv p N e out inc inc' fs hs gs f late outs :
  half p N None e out inc fs hs → next_frame p inc inc' fs hs gs f → frame_ok f →
  let '(e', out') := handleFrame e out (f_type f) (f_id f) (f_payload f) late outs in
  sends p N None e' out out' inc' fs (hs ++ [f]).
Proof.
  intros Hh Hn [[Ht|[Ht|Ht]] _ _].
  - pose proof (handle_open p N e out inc inc' fs hs gs f Hh Hn Ht) as Ho.
    unfold handleFrame. rewrite Ht. cbn. cbn in Ho.
    destruct (addStream _ _) as [s [x|er]]; apply sends_none; exact (half_reader _ _ _ _ _ _ _ _ _ Ho).
  - rewrite Ht. eapply handle_data; [exact Hh|apply Hn|done].
  - rewrite Ht. eapply handle_close; [exact Hh|apply Hn|done].
Qed.

Lemma inbox_spec p N X e out inc fs hs gs :
  half p N X e out inc fs hs → peer p inc fs hs gs →
  ∃ us tail, gs = hs ++ us ∧ inbox inc = concat (enc <$> us) ++ tail ∧ incomplete tail.
Proof.
  intros Hh Hp. destruct (carries_incomplete _ _ (pe_wire _ _ _ _ _ Hp)) as (tail & Hb & Ht).
  destruct (pe_prefix _ _ _ _ _ Hp) as [us ->]. exists us, tail. split_and!; [done| |done].
  unfold inbox. rewrite (hf_in _ _ _ _ _ _ _ _ Hh), Hb, fmap_app, concat_app, <- app_assoc.
  apply drop_app_length.
Qed.

(** What a step of one end does: it may send frames and may handle one. *)
Definition stepped (p N : Z) (e : endp) (out out' inc inc' : wire) (fs hs gs : list frame) : Prop :=
  ∃ fs' hs', fs `prefix_of` fs' ∧ hs' `prefix_of` gs ∧ half p N None e out' inc' fs' hs' ∧
    consumed out' = consumed out ∧ bytes inc' = bytes inc ∧ broken inc' = broken inc.

Lemma sends_stepped p N e out out' inc fs hs gs :
  sends p N None e out out' inc fs hs → hs `prefix_of` gs → stepped p N e out out' inc inc fs hs gs.
Proof. intros (fs' & ? & ? & ?) ?. exists fs', hs. by split_and!. Qed.

Lemma readLoop_inv p N e out inc fs hs gs late outs :
  half p N None e out inc fs hs → peer p inc fs hs gs →
  let '(e', out', inc') := readLoop e out inc late outs in stepped p N e' out out' inc inc' fs hs gs.
Proof.
  intros Hh Hp. unfold readLoop. rewrite (hf_payload _ _ _ _ _ _ _ _ Hh).
  destruct (inbox_spec _ _ _ _ _ _ _ _ _ Hh Hp) as (us & tail & Hgs & -> & Ht).
  destruct us as [|f us].
  - cbn [fmap list_fmap concat app]. rewrite Ht. by apply sends_stepped; [apply sends_none|apply Hp].
  - assert (Hf : frame_ok f).
    { pose proof (pe_frames _ _ _ _ _ Hp) as H. rewrite Hgs, Forall_app in H. destruct H as [_ H].
      by apply Forall_cons in H as [? _]. }
    cbn [fmap list_fmap concat]. rewrite <- app_assoc, readFrame_enc by done.
    set (inc' := inc <| consumed ::= (λ n, (n + length (enc f))%nat) |>).
    assert (Hpre : hs ++ [f] `prefix_of` gs) by (exists us; by rewrite Hgs, <- app_assoc).
    pose proof (handleFrame_inv p N e out inc inc' fs hs gs f late outs Hh) as Hi.
    destruct (handleFrame e out (f_type f) (f_id f) (f_payload f) late outs) as [e' out'].
    destruct Hi as (fs' & ? & ? & ?); [|done|by exists fs', (hs ++ [f])].
    split_and!; [done|done|]. cbn. rewrite (hf_in _ _ _ _ _ _ _ _ Hh), fmap_app, concat_app, length_app.
    cbn. by rewrite app_nil_r.
Qed.

Lemma half_stream p N e out inc fs hs x f :
  half p N None e out inc fs hs →
  (∀ st, id (f st) = id st ∧ s_done (f st) = s_done st ∧ buf (recv (f st)) = buf (recv st) ∧
     r_closed (recv (f st)) = r_closed (recv st)) →
  half p N None (e <| session ::= (λ s, updateStream s x f) |>) out inc fs hs.
Proof.
  intros Hh Hf. destruct (heap (session e) !! x) as [st|] eqn:Hx.
  - destruct (Hf st) as (H1 & H2 & H3 & H4).
    eapply (half_update _ _ _ _ _ _ _ _ _ x st f Hh Hx); cbn; try done; eauto.
    pose proof (hf_data _ _ _ _ _ _ _ _ Hh x st Hx) as [].
    split; rewrite ?H1, ?H2, ?H3, ?H4; done.
  - assert (e <| session ::= (λ s, updateStream s x f) |> = e) as ->; [|done].
    destruct e as [[] ? ? ? ? ?]. unfold updateStream. cbn in *. do 2 f_equal.
    apply map_eq. intros y. destruct (decide (y = x)) as [->|Hne].
    + rewrite lookup_alter, decide_True by done. by rewrite Hx.
    + by rewrite lookup_alter_ne.
Qed.

Lemma half_accept p N e out inc fs hs f :
  half p N None e out inc fs hs → half p N None (e <| session ::= (λ s, s <| acceptCh ::= f |>) |>) out inc fs hs.
Proof. intros []. by split. Qed.

Lemma abort_half p N e out inc fs hs x :
  half p N None e out inc fs hs →
  half p N None (e <| session ::= (λ s, updateStream s x abortLocal) |>) out inc fs hs.
Proof.
  intros Hh. destruct (heap (session e) !! x) as [st|] eqn:Hx.
  - eapply (half_update _ _ _ _ _ _ _ _ _ x st abortLocal Hh Hx); cbn; try done; eauto.
    + apply abort_frame.
    + intros _. apply abort_frame.
    + eapply abort_ok, (hf_data _ _ _ _ _ _ _ _ Hh x st Hx).
  - eapply half_evolves; [exact Hh| |]; unfold updateStream; cbn; rewrite alter_id by (by intros ?; rewrite Hx).
    + split; try done; eauto.
    + apply Hh.
Qed.

Lemma mux_exec_inv p N e out inc fs hs gs o :
  half p N None e out inc fs hs → peer p inc fs hs gs → N + 2 < 2 ^ 64 →
  let '(e', out', inc') := exec e out inc o in stepped p (N + 2) e' out out' inc inc' fs hs gs.
Proof.
  intros Hh Hp HN. pose proof (pe_prefix _ _ _ _ _ Hp) as Hpre.
  assert (Hh' : half p (N + 2) None e out inc fs hs) by (eapply half_bound; [exact Hh|lia]).
  assert (Hid : ∀ e', half p (N + 2) None e' out inc fs hs → stepped p (N + 2) e' out out inc inc fs hs gs)
    by (intros e' ?; by apply sends_stepped; [apply sends_none|]).
  destruct o as [c cl late outs| |x d now|j late outs|x now size|x|x late outs|late outs| |choice| |x t|x t];
    cbn [exec].
  - pose proof (Dial_inv p N e out inc fs hs gs c cl late outs Hh Hp HN) as Hd.
    destruct (Dial e out c cl late outs). by apply sends_stepped.
  - by apply Hid, half_accept.
  - by apply Hid, writeBegin_inv.
  - destruct (writers e !! j) as [[x rest]|] eqn:Hj; [|by apply Hid].
    pose proof (writeChunk_inv p (N + 2) e out inc fs hs j x rest late outs Hh' Hj) as Hd.
    destruct (writeChunk e out j x rest late outs). by apply sends_stepped.
  - by apply Hid, streamRead_inv.
  - by apply Hid, closeBegin_inv.
  - pose proof (closeStep_inv p (N + 2) e out inc fs hs x late outs Hh') as Hd.
    destruct (closeStep e out x late outs). by apply sends_stepped.
  - destruct (reader e); [by apply readLoop_inv|by apply Hid..].
  - destruct (reader e); [|by apply Hid..]. by apply Hid, half_reader, half_close.
  - destruct (reader e) as [|x|]; [by apply Hid| |by apply Hid]. apply Hid. unfold enqueue.
    case_all; [|..|done].
    + by apply half_reader, half_accept.
    + exact (half_reader _ _ _ _ _ _ _ _ _ (abort_half _ _ _ _ _ _ _ x Hh')).
  - by apply Hid, half_close.
  - by apply Hid, half_stream.
  - by apply Hid, half_stream.
Qed.

(** ** Both ends *)

Definition endOf (b : bool) (w : world) : endp := if b then client w else server w.
Definition outOf (b : bool) (w : world) : wire := if b then c2s w else s2c w.
Definition parity (b : bool) : Z := if b then 1 else 0.

Definition side (N : Z) (b : bool) (w : world) (fs hs : list frame) : Prop :=
  half (parity b) N None (endOf b w) (outOf b w) (outOf (negb b) w) fs hs.

Definition winv (N : Z) (w : world) : Prop :=
  ∃ F H : bool → list frame, ∀ b, side N b w (F b) (H b) ∧ H b `prefix_of` F (negb b).

Lemma half_peer N b w F H :
  (∀ b, side N b w (F b) (H b) ∧ H b `prefix_of` F (negb b)) →
  peer (parity b) (outOf (negb b) w) (F b) (H b) (F (negb b)).
Proof.
  intros Hw. destruct (Hw b) as [_ Hpre]. destruct (Hw (negb b)) as [Hs Hpre'].
  rewrite negb_involutive in Hpre'. destruct Hs. split; try done.
  - intros k [Hk _]%hf_opens0. destruct b; cbn in *; lia.
  - intros l f l' Hl Ht. destruct (hf_known0 l f l' Hl Ht) as [?|?]; [by left|right]. by eapply opens_prefix.
Qed.

Lemma step_inv N w o : winv N w → N + 2 < 2 ^ 64 → winv (N + 2) (step w o).
Proof.
  intros (F & H & Hw) HN. destruct o as [b o].
  pose proof (half_peer N b w F H Hw) as Hp. destruct (Hw b) as [Hb _]. destruct (Hw (negb b)) as [Hnb Hnpre].
  pose proof (mux_exec_inv _ _ _ _ _ _ _ _ o Hb Hp HN) as He.
  destruct (exec (endOf b w) (outOf b w) (outOf (negb b) w) o) as [[e' out'] inc'] eqn:Hx.
  destruct He as (fs' & hs' & Hfs & Hhs & Hh & Hcon & Hby & Hbr).
  assert (Hstep : endOf b (step w (b, o)) = e' ∧ outOf b (step w (b, o)) = out' ∧
    outOf (negb b) (step w (b, o)) = inc' ∧ endOf (negb b) (step w (b, o)) = endOf (negb b) w).
  { unfold step. destruct b; cbn in *; rewrite Hx; done. }
  destruct Hstep as (E1 & E2 & E3 & E4).
  exists (λ c, if Bool.eqb c b then fs' else F c), (λ c, if Bool.eqb c b then hs' else H c).
  assert (Hnb' : side (N + 2) (negb b) (step w (b, o)) (F (negb b)) (H (negb b))).
  { unfold side in *. rewrite negb_involutive in *. rewrite E4, E2, E3. destruct Hnb. split; try done.
    - eapply carries_ext; [..|exact hf_out0]; done.
    - by rewrite Hcon.
    - destruct hf_next0. lia. }
  assert (Hb' : side (N + 2) b (step w (b, o)) fs' hs') by (unfold side; by rewrite E1, E2, E3).
  assert (Hpre' : H (negb b) `prefix_of` fs') by (rewrite negb_involutive in Hnpre; by etrans).
  intros c. destruct b, c; cbn in *; done.
Qed.

Lemma mux_start_inv : winv 2 start.
Proof.
  exists (λ _, []), (λ _, []). intros b. split; [|done]. unfold side.
  destruct b; (split; cbn; try done); try (by exists []; split; [done|left]); try lia;
    try apply NoDup_nil_2; try (intros; set_solver).
  all: intros l f l' E; by destruct l.
Qed.

Lemma mux_run_inv os : 2 + 2 * len os < 2 ^ 64 → winv (2 + 2 * len os) (run os).
Proof.
  induction os as [|o os IH] using rev_ind; intros Hl; [apply mux_start_inv|].
  unfold run. rewrite foldl_snoc. rewrite len_app in *. change (len [o]) with 1 in *.
  replace (2 + 2 * (len os + 1)) with (2 + 2 * len os + 2) by lia. apply step_inv; [apply IH; lia|lia].
Qed.


(** ** A write completes *)

Lemma writeFull_succeeds data : writeFull [] data = (data, None, []).
Proof. by destruct data. Qed.

(** A connection that takes everything. *)
Lemma writeFrame_succeeds s w f late :
  maxPayload s = defaultMaxPayload → frame_ok f → done s = false → broken w = false →
  writeFrame s w (f_type f) (f_id f) (f_payload f) late [] = (s, w <| bytes ::= (λ l, l ++ enc f) |>, Ok tt).
Proof.
  intros Hm Hf Hd Hb. unfold writeFrame. rewrite Hm, Hd, Hb, writeFull_succeeds.
  assert ((defaultMaxPayload <? len (f_payload f)) = false) as -> by (apply Z.ltb_ge, Hf). cbn [andb].
  destruct (len (f_payload f) =? 0) eqn:Hz.
  - apply Z.eqb_eq, len_0 in Hz. unfold enc. by rewrite Hz, app_nil_r.
  - rewrite writeFull_succeeds. unfold enc. destruct w. cbn -[header]. by rewrite app_assoc.
Qed.

Definition writing (b : bool) (w : world) (j x : nat) (rest : list byte) (st : Stream) : Prop :=
  writers (endOf b w) !! j = Some (x, rest) ∧ heap (session (endOf b w)) !! x = Some st ∧
  done (session (endOf b w)) = false ∧ broken (outOf b w) = false.

Lemma chunk_step N w b j x rest st n :
  n = Z.to_nat defaultMaxPayload →
  winv N w → N + 2 < 2 ^ 64 → writing b w j x rest st → rest ≠ [] →
  let w' := step w (b, OWriteChunk j false []) in
  writing b w' j x (drop n rest) st ∧
  frames (bytes (outOf b w')) = frames (bytes (outOf b w)) ++ [mkFrame frameData (id st) (take n rest)].
Proof.
  intros En Hw HN (Hj & Hx & Hd & Hb) Hne w'. pose proof (step_inv N w (b, OWriteChunk j false []) Hw HN) as Hw'.
  destruct Hw as (F & H & Hw). destruct (Hw b) as [Hs _].
  set (f := mkFrame frameData (id st) (take n rest)).
  assert (Hf : frame_ok f).
  { split; cbn; [by right; left|by apply (hf_heap _ _ _ _ _ _ _ _ Hs x st)|].
    unfold len. rewrite length_take, En. change defaultMaxPayload with 32768. lia. }
  assert (Hexec : exec (endOf b w) (outOf b w) (outOf (negb b) w) (OWriteChunk j false []) =
    ((endOf b w) <| writers ::= <[j := (x, drop n rest)]> |>,
     (outOf b w) <| bytes ::= (λ l, l ++ enc f) |>, outOf (negb b) w)).
  { cbn [exec]. rewrite Hj. unfold writeChunk. destruct rest as [|y rest]; [done|]. rewrite Hx.
    rewrite (hf_payload _ _ _ _ _ _ _ _ Hs), <- En.
    pose proof (writeFrame_succeeds (session (endOf b w)) (outOf b w) f false (hf_payload _ _ _ _ _ _ _ _ Hs) Hf Hd Hb) as Hwf.
    cbn [f_type f_id f_payload f] in Hwf. rewrite Hwf. cbn [is_ok]. by destruct (endOf b w). }
  assert (Hends : endOf b w' = (endOf b w) <| writers ::= <[j := (x, drop n rest)]> |> ∧
    outOf b w' = (outOf b w) <| bytes ::= (λ l, l ++ enc f) |>).
  { unfold w', step. destruct b; cbn [fst snd endOf outOf negb] in *; by rewrite Hexec. }
  destruct Hends as [He Ho]. split.
  - unfold writing. rewrite He, Ho. cbn -[enc]. by rewrite lookup_insert_eq.
  - rewrite (carries_frames _ _ (hf_out _ _ _ _ _ _ _ _ Hs) (hf_frames _ _ _ _ _ _ _ _ Hs)), Ho.
    apply carries_frames.
    + apply carries_sent; [done|apply Hs].
    + apply Forall_app. split; [apply Hs|by constructor].
Qed.

Lemma step_idle w b j late outs n :
  writers (endOf b w) !! j = None → foldl step w (replicate n (b, OWriteChunk j late outs)) = w.
Proof.
  intros Hj. induction n as [|n IH]; [done|]. cbn [replicate foldl].
  assert (step w (b, OWriteChunk j late outs) = w) as ->; [|done].
  destruct w, b; unfold step; cbn [fst snd exec endOf client server] in *; by rewrite Hj.
Qed.

(** The last step of a write finds nothing left. *)
Lemma step_written w b j x late outs :
  writers (endOf b w) !! j = Some (x, []) →
  let w' := step w (b, OWriteChunk j late outs) in
  writers (endOf b w') !! j = None ∧ outOf b w' = outOf b w.
Proof.
  intros Hj. unfold step. destruct b; cbn [fst snd exec endOf outOf] in *; rewrite Hj; cbn;
    by rewrite lookup_delete_eq.
Qed.

(** The chunks a write is cut into. *)
Lemma chunks_written N w b j x rest st m n :
  n = Z.to_nat defaultMaxPayload → winv N w → N + 2 * Z.of_nat m < 2 ^ 64 → writing b w j x rest st →
  (length rest ≤ m * n)%nat → ¬ closed_in (id st) (frames (bytes (outOf b w))) →
  let w' := foldl step w (replicate (S m) (b, OWriteChunk j false [])) in
  writers (endOf b w') !! j = None ∧
  content (id st) (frames (bytes (outOf b w'))) = content (id st) (frames (bytes (outOf b w))) ++ rest.
Proof.
  intros En. revert N w rest. induction m as [|m IH]; intros N w rest Hw HN Hwr Hl Hc.
  - assert (rest = []) as -> by (apply nil_length_inv; lia). destruct Hwr as (Hj & _).
    destruct (step_written w b j x false [] Hj) as [? Ho]. cbn [replicate foldl]. by rewrite Ho, app_nil_r.
  - destruct (decide (rest = [])) as [->|Hne].
    + destruct Hwr as (Hj & _). destruct (step_written w b j x false [] Hj) as [Hn Ho].
      rewrite replicate_S. cbn [foldl]. rewrite step_idle by done. by rewrite Ho, app_nil_r.
    + destruct (chunk_step N w b j x rest st n En Hw ltac:(lia) Hwr Hne) as [Hwr' Hf].
      rewrite replicate_S. cbn [foldl]. set (w1 := step w (b, OWriteChunk j false [])) in *.
      set (f := mkFrame frameData (id st) (take n rest)) in *.
      destruct (content_data (frames (bytes (outOf b w))) f eq_refl Hc) as [Hc1 Hc2].
      destruct (IH (N + 2) w1 (drop n rest)) as [IH1 IH2];
        [apply step_inv; [done|lia]|lia|done|rewrite length_drop; lia|by rewrite Hf|].
      split; [done|]. rewrite IH2, Hf. change (id st) with (f_id f). rewrite Hc1, <- app_assoc. f_equal.
      apply take_drop.
Qed.

(** A call of [Stream.Write] on a connection that takes everything ends and
    sends all it was given.  In every reachable state, a call that has [rest] left
    on an open session, whose stream has not sent its close frame, is finished after
    one step per chunk and one more, and the content of the stream on the wire has
    grown by exactly [rest]. *)
Theorem mux_write_completes (os : list (bool * op)) (b : bool) (j x m : nat) (rest : list byte) (st : Stream) :
  let w := run os in
  2 + 2 * len os + 2 * Z.of_nat m < 2 ^ 64 → len rest ≤ Z.of_nat m * defaultMaxPayload →
  writers (endOf b w) !! j = Some (x, rest) → heap (session (endOf b w)) !! x = Some st →
  done (session (endOf b w)) = false → broken (outOf b w) = false →
  ¬ closed_in (id st) (frames (bytes (outOf b w))) →
  let w' := run (os ++ replicate (S m) (b, OWriteChunk j false [])) in
  writers (endOf b w') !! j = None ∧
  content (id st) (frames (bytes (outOf b w'))) = content (id st) (frames (bytes (outOf b w))) ++ rest.
Proof.
  intros w HN Hl Hj Hx Hd Hb Hc. unfold run. rewrite foldl_app.
  apply (chunks_written (2 + 2 * len os) w b j x rest st m (Z.to_nat defaultMaxPayload)); try done.
  - apply mux_run_inv. lia.
  - unfold len in Hl. change defaultMaxPayload with 32768 in *. lia.
Qed.


(** ** A run *)

(** The client opens two streams and the server accepts them. *)
Definition demoOpen : list (bool * op) :=
  let dial := (true, ODial false false false []) in
  let read := (false, OReadFrame false []) in
  [dial; read; (false, OEnqueue true); dial; read; (false, OEnqueue true)].

Definition demoText : list byte := bytes_of "hello".

(** The client writes on the first stream and closes it; the server reads. *)
Definition demoRun : list (bool * op) :=
  demoOpen ++
  [(true, OWrite 0 demoText 0); (true, OWriteChunk 0 false []); (true, OWriteChunk 0 false []);
   (true, OClose 0); (true, OCloseStep 0 false []); (true, OCloseStep 0 false []);
   (false, OReadFrame false []); (false, ORead 0 0 3); (false, OReadFrame false [])].


Lemma mux_write_completes_witness :
  let os := demoOpen ++ [(true, OWrite 0 demoText 0)] in
  let w := run (os ++ replicate 2 (true, OWriteChunk 0 false [])) in
  writers (endOf true w) !! 0%nat = None ∧ content 1 (frames (bytes (outOf true w))) = demoText.
Proof.
  intros os w.
  destruct (heap (session (endOf true (run os))) !! 0%nat) as [st|] eqn:Hx; [|vm_compute in Hx; discriminate Hx].
  assert (Hid : match heap (session (endOf true (run os))) !! 0%nat with Some st => id st = 1 | None => True end)
    by (vm_compute; reflexivity).
  rewrite Hx in Hid.
  assert (Hopen : ¬ closed_in 1 (frames (bytes (outOf true (run os))))).
  { apply (bool_decide_eq_false_1 (closed_in 1 (frames (bytes (outOf true (run os)))))). vm_compute. reflexivity. }
  assert (Hnone : content 1 (frames (bytes (outOf true (run os)))) = []) by (vm_compute; reflexivity).
  destruct (mux_write_completes os true 0 0 1 demoText st) as [H1 H2];
    [vm_compute; reflexivity|vm_compute; discriminate|vm_compute; reflexivity|exact Hx|vm_compute; reflexivity
    |vm_compute; reflexivity|rewrite Hid; exact Hopen|].
  split; [exact H1|]. rewrite Hid, Hnone in H2. exact H2.
Defined.

(** Closing a stream while data for it arrives closes the whole session: [Close]
    has aborted the buffer and not yet removed the stream from the table, the read
    loop finds it there and fails to write to the buffer.  The second stream of the
    session is aborted although nobody touched it. *)
Lemma close_race_closes_session :
  let os := demoOpen ++ [(true, OWrite 0 demoText 0); (true, OWriteChunk 0 false [])] in
  let w := run (os ++ [(false, OClose 0); (false, OReadFrame false [])]) in
  (done (session (server (run os))) = false) ∧ done (session (server w)) = true ∧
  (s_done <$> heap (session (server w)) !! 1%nat) = Some true.
Proof. vm_compute. done. Qed.

End MuxProofs.
