(* ===== verification/Client.v ===== *)
(** * Client.v: the life of the client's connection
    (src/peer/client: new.go, connect.go, conn.go, disconnect.go, reconnect.go)

    The client as a machine: a [world] is the client with its goroutines, called
    threads here, an [op] is a call of the application, a signaling message for the
    attempt that has subscribed to it, or one step of a thread between two
    operations on shared state.  What the network, pion/ice and the transport answer
    is part of the step.  Signaling channels, data channels and receive buffers are
    objects that threads hold pointers to, so they live in heaps.  [exec] is the
    step; [None] is a panic. *)

From S2P Require Import Prelude GoFloat Replay Buffer Encryption Handshake Codec Channel Hello Server Threads.
From Stdlib Require Import ZArith Lia String.
From stdpp Require Import base list option strings numbers gmap.

Local Open Scope Z_scope.
Local Open Scope go_scope.

Module Client.
Import Threads.
Section Client.
Context `{C : !Crypto} `{S : !Signatures} `{K : !KeyExchange} `{T : !TimeFormat}.
Context `{W : !WebRTC}.
Context `{GH : !Gob Codec.Header} `{GP : !Gob Codec.Payload} `{GC : !Gob (list (list byte))}.

(** ** new.go *)

Definition DEFAULT_TIMEOUT : Z := 30 * 1000000000.
Definition DEFAULT_MAX_FRAME_SIZE : Z := Z.shiftl 4 20.
Definition DEFAULT_MAX_PENDING_ICE : Z := 128.
Definition DEFAULT_MAX_PENDING_ICE_BYTES : Z := Z.shiftl 256 10.
Definition DEFAULT_HEARTBEAT_INTERVAL : Z := 5 * 1000000000.
Definition DEFAULT_HEARTBEAT_TIMEOUT : Z := 15 * 1000000000.

Record Options := mkOptions {
  Timeout : Z;
  HeartbeatInterval : Z;
  HeartbeatTimeout : Z;
  Transport : option Hello.ITransport;
  MaxFrameSize : Z;
  ReceiveBufferSize : Z;
  MaxPendingICE : Z;
  MaxPendingICEBytes : Z;
  EncryptionAAD : list byte;
  EncryptionType : string
}.

Record Client := mkClient {
  config : Hello.Client;             (* identity, keys, room and cipher *)
  options : Options;
  transport : Hello.ITransport;      (* options.Transport, which is not nil *)
  serverId : string;
  codec : option nat;
  signalSend : Z;
  signalRecv : Replay.ReplayWindow;
  transportConn : option nat;
  dataChannel : option nat;
  lastTransportRead : Z;
  reconnectGeneration : Z;
  manualDisconnect : bool;
  iceAgent : option nat;
  recvBuf : nat;
  connected : bool;
  connecting : bool;
  sessions : gmap nat Channel.SignalingChannel;  (* the heaps *)
  channels : gmap nat Channel.DataChannel;
  buffers : gmap nat Buffer.RecvBuffer;
  agentsOpen : gset nat;             (* the ICE agents and transports that exist *)
  transportsOpen : gset nat
}.

#[export] Instance eta_client : Eta Client := fun c =>
  mkClient (config c) (options c) (transport c) (serverId c) (codec c) (signalSend c) (signalRecv c)
    (transportConn c) (dataChannel c) (lastTransportRead c) (reconnectGeneration c)
    (manualDisconnect c) (iceAgent c) (recvBuf c) (connected c) (connecting c) (sessions c)
    (channels c) (buffers c) (agentsOpen c) (transportsOpen c).

Definition withDefaults (o : Options) : Options :=
  mkOptions (Server.orDefault (Timeout o) DEFAULT_TIMEOUT)
    (Server.orDefault (HeartbeatInterval o) DEFAULT_HEARTBEAT_INTERVAL)
    (Server.orDefault (HeartbeatTimeout o) DEFAULT_HEARTBEAT_TIMEOUT)
    (Transport o)
    (Server.orDefault (MaxFrameSize o) DEFAULT_MAX_FRAME_SIZE)
    (Server.orDefault (ReceiveBufferSize o) Buffer.DefaultReceiveBufferSize)
    (Server.orDefault (MaxPendingICE o) DEFAULT_MAX_PENDING_ICE)
    (Server.orDefault (MaxPendingICEBytes o) DEFAULT_MAX_PENDING_ICE_BYTES)
    (if len (EncryptionAAD o) =? 0 then bytes_of "telekit/v1" else EncryptionAAD o)
    (if bool_decide (EncryptionType o = EmptyString) then algorithmName CHACHA20_POLY1305
     else EncryptionType o).

(** [quic] is transportquic.New(); of the API, which may be nil, the client keeps the
    room; the options of a nil pointer are all zero. *)
Definition NewClient (quic : Hello.ITransport) (psk : Handshake.PreSharedKey) (api : option string)
    (o : Options) : result Client :=
  _ ← Handshake.Validate psk;
  room ← Hello.some_or api "API is nil";
  let o := withDefaults o in
  let t := default quic (Transport o) in
  _ ← guard_err (bool_decide (Hello.Name t = EmptyString)) "client transport name is empty";
  _ ← guard_err ((HeartbeatInterval o <=? 0) || (HeartbeatTimeout o <=? 0) || (MaxFrameSize o <? 1024)
                 || (ReceiveBufferSize o <? MaxFrameSize o) || (MaxPendingICE o <? 1)
                 || (MaxPendingICEBytes o <? 1)) "invalid client resource limits";
  Ok (mkClient
        (Hello.mkClient (Handshake.ClientID psk) psk room (EncryptionType o) (EncryptionAAD o))
        o t EmptyString None 0 Replay.zeroWindow None None 0 0 false None 0 false false ∅ ∅
        {[0%nat := Buffer.NewRecvBufferWithLimit (ReceiveBufferSize o)]} ∅ ∅).

(** ** conn.go *)

Definition installICEAgent (c : Client) (agent : nat) : Client * bool :=
  if negb (manualDisconnect c) && bool_decide (iceAgent c = None) && bool_decide (transportConn c = None)
  then (c <| iceAgent := Some agent |>, true)
  else (c <| agentsOpen ::= Hello.closeOne (Some agent) |>, false).

Definition setTransportConn (c : Client) (agent conn channel : nat) : Client * bool :=
  if negb (manualDisconnect c) && bool_decide (iceAgent c = Some agent)
     && bool_decide (transportConn c = None)
  then (c <| transportConn := Some conn |> <| dataChannel := Some channel |>, true)
  else (c <| transportsOpen ::= Hello.closeOne (Some conn) |>, false).

Definition isCurrentTransport (c : Client) (conn channel : nat) : bool :=
  bool_decide (transportConn c = Some conn) && bool_decide (dataChannel c = Some channel).

(** ** Messages of the session *)

Definition sessionPayload (transport user password : string) (candidates : list string) : Codec.Payload :=
  Codec.mkPayload None None [] [] [] [] [] [] EmptyString EmptyString [] [] transport user password
    candidates None.

(** The message is encrypted by the channel [codec] points to at this moment. *)
Definition publishMessage (c : Client) (typ : Codec.MessageType) (p : Codec.Payload)
    (publish : list byte → bool) : Client * result unit :=
  match codec c ≫= λ n, (λ sc, (n, sc)) <$> sessions c !! n with
  | None => (c, Err "signaling session is not established")
  | Some (n, sc) =>
      if bool_decide (serverId c = EmptyString) then (c, Err "signaling session is not established")
      else
        let sequence := u64 (signalSend c + 1) in
        let c := c <| signalSend := sequence |> in
        let message := Codec.mkMessage
          (Some (Codec.mkHeader typ (Hello.clientId (config c)) (serverId c) sequence [] ∅)) (Some p) false in
        let '(sc, _, encoded) := Channel.EncodeMessage sc (Some message) in
        let c := c <| sessions ::= <[n := sc]> |> in
        match encoded with
        | Err e => (c, Err e)
        | Ok data => (c, if publish data then Ok tt else Err "publish failed")
        end
  end.

Definition publishTransportSelect (c : Client) (publish : list byte → bool) : Client * result unit :=
  publishMessage c Codec.MessageTypeTransportSelect
    (sessionPayload (Hello.Name (transport c)) EmptyString EmptyString []) publish.

Definition validDescription (c : Client) (d : Hello.ICEDescription) : bool :=
  is_ok (Server.ValidateICEDescriptionLimits d (MaxPendingICE (options c)) (MaxPendingICEBytes (options c))).

Definition publishICEOffer (c : Client) (d : Hello.ICEDescription) (publish : list byte → bool)
  : Client * result unit :=
  if negb (validDescription c d) then (c, Err "ICE description")
  else publishMessage c Codec.MessageTypeICEOffer
         (sessionPayload EmptyString (Hello.UsernameFragment d) (Hello.Password d) (Hello.Candidates d)) publish.

Definition publishDisconnect (c : Client) (publish : list byte → bool) : Client :=
  (publishMessage c Codec.MessageTypeDisconnect
     (sessionPayload EmptyString EmptyString EmptyString []) publish).1.

(** ** Threads *)

(** Where [connectWithContext] stands; [agent] and [conn] are objects it holds. *)
Inductive stage :=
| SGuard
| SReset
| SBuffer
| SHello
| SSubscribe
| SPublish
| SWaitHello
| STransport
| SSelect
| SRelay
| SNewAgent
| SInstall (agent : nat)
| SGather (agent : nat)
| SOffer (agent : nat) (d : Hello.ICEDescription)
| SWaitAnswer (agent : nat)
| SDialICE (agent : nat)
| SDial (agent : nat)
| SAttach (agent conn : nat)
| SSpawn (conn : nat)
| SConnected
| SReturn.

(** One call: [by] is the generation of the reconnect loop that made it, if any. *)
Record attempt := mkAttempt {
  by_ : option Z;
  preserve : bool;                   (* preserveReceiveBuffer *)
  hello : option Hello.clientHandshake;
  listening : bool;                  (* it has subscribed to hello messages *)
  helloCh : option Hello.serverHandshake;
  session : option nat;
  peerID : string;
  names : list string;
  awaiting : bool;                   (* it has subscribed to answers *)
  answers : option Hello.ICEDescription;
  at_ : stage
}.

#[export] Instance eta_attempt : Eta attempt := fun a =>
  mkAttempt (by_ a) (preserve a) (hello a) (listening a) (helloCh a) (session a) (peerID a) (names a)
    (awaiting a) (answers a) (at_ a).

Definition newAttempt (g : option Z) (keep : bool) : attempt :=
  mkAttempt g keep None false None None EmptyString [] false None SGuard.

(** Where [disconnect] stands, and what follows it: the return of [Disconnect], the
    end of an attempt that failed, the connect of [Reconnect]. *)
Inductive phase :=
| PGeneration
| PPublish
| PDown
| PBuffer
| PDetach
| PClose (conn agent : option nat).

Inductive cont := KReturn | KFailed (g : option Z) | KReconnect.

(** Where [finishTransport] stands after it has detached the transport. *)
Inductive finish := FDown | FReset | FClose | FGeneration.

Inductive thread :=
| TConnect (a : attempt)
| TReconnect (g : Z)                 (* the head of the reconnect loop *)
| TConnected (g : Z)                 (* its call returned nil *)
| TFailed (g : Z)                    (* its call returned an error *)
| TSleep (g : Z)
| TDisconnect (k : cont) (closeBuffer : bool) (p : phase)
| TRead (conn channel buf : nat) (body : bool)
| TMonitor (conn channel : nat)
| TFinish (conn : nat) (agent : option nat) (p : finish).

(** What the outside answers in one step. *)
Record answer := mkAnswer {
  a_ok : bool;
  a_new : nat;
  a_description : Hello.ICEDescription;
  a_now : Z;
  a_draws : Hello.clientDraws;
  a_publish : list byte → bool;
  a_frame : Server.frame
}.

(** A step leaves the client, the thread (unless it has returned), and the threads
    it has started. *)
Definition outcome : Type := Client * option thread * list thread.

Definition goes (c : Client) (t : thread) : option outcome := Some (c, Some t, []).
Definition returns (c : Client) : option outcome := Some (c, None, []).

(** The return of [connectWithContext] to its caller. *)
Definition returned (g : option Z) (ok : bool) : option thread :=
  match g with
  | None => None
  | Some g => Some (if ok then TConnected g else TFailed g)
  end.

(** An error after the guard: the deferred calls disconnect. *)
Definition fails (c : Client) (a : attempt) : option outcome :=
  goes c (TDisconnect (KFailed (by_ a)) (negb (preserve a)) PPublish).

Definition continue (c : Client) (a : attempt) (st : stage) : option outcome :=
  goes c (TConnect (a <| at_ := st |>)).

(** The half of [connectWithContext] that sets up ICE and the transport. *)
Definition dialStep (c : Client) (a : attempt) (w : answer) : option outcome :=
  match at_ a with
  | SRelay => if a_ok w then continue c a SNewAgent else fails c a
  | SNewAgent =>
      if a_ok w then continue (c <| agentsOpen ::= (λ l, {[a_new w]} ∪ l) |>) a (SInstall (a_new w))
      else fails c a
  | SInstall agent =>
      let '(c, ok) := installICEAgent c agent in
      if ok then continue c a (SGather agent) else fails c a
  | SGather agent =>
      if negb (a_ok w) || negb (validDescription c (a_description w)) then fails c a
      else continue c a (SOffer agent (a_description w))
  | SOffer agent d =>
      let '(c, r) := publishICEOffer c d (a_publish w) in
      if is_ok r then continue c a (SWaitAnswer agent) else fails c a
  | SWaitAnswer agent =>
      if negb (a_ok w) then fails c a
      else continue c a (match answers a with Some _ => SDialICE agent | None => SWaitAnswer agent end)
  | SDialICE agent => if a_ok w then continue c a (SDial agent) else fails c a
  | SDial agent =>
      if a_ok w then continue (c <| transportsOpen ::= (λ l, {[a_new w]} ∪ l) |>) a (SAttach agent (a_new w))
      else fails c a
  | SAttach agent conn =>
      match session a with
      | None => None
      | Some n =>
          let '(c, ok) := setTransportConn c agent conn n in
          if ok then continue c a (SSpawn conn) else fails c a
      end
  | SSpawn conn =>
      match session a with
      | None => None
      | Some n =>
          Some (c <| lastTransportRead := a_now w |>, Some (TConnect (a <| at_ := SConnected |>)),
                [TRead conn n (recvBuf c) false; TMonitor conn n])
      end
  | SConnected => continue (c <| connected := true |>) a SReturn
  | SReturn => Some (c <| connecting := false |>, returned (by_ a) true, [])
  | _ => None
  end.

Definition connectStep (c : Client) (a : attempt) (w : answer) : option outcome :=
  match at_ a with
  | SGuard =>
      if connected c || connecting c then Some (c, returned (by_ a) false, [])
      else continue (c <| connecting := true |>) a SReset
  | SReset =>
      continue (c <| serverId := EmptyString |> <| codec := None |> <| signalSend := 0 |>
                  <| signalRecv := Replay.Reset (signalRecv c) |>) a SBuffer
  | SBuffer =>
      rb ← buffers c !! recvBuf c;
      if Buffer.IsClosed rb then
        let n := fresh (dom (buffers c)) in
        continue (c <| buffers ::= <[n := Buffer.NewRecvBufferWithLimit (ReceiveBufferSize (options c))]> |>
                    <| recvBuf := n |>) a SHello
      else
        '(rb, _) ← Buffer.Reset rb None;
        continue (c <| buffers ::= <[recvBuf c := rb]> |>) a SHello
  | SHello =>
      match Hello.buildClientHello (config c) (a_now w) (a_draws w) with
      | Err _ => fails c a
      | Ok h => continue c (a <| hello := Some h |>) SSubscribe
      end
  | SSubscribe => if a_ok w then continue c (a <| listening := true |>) SPublish else fails c a
  | SPublish => if a_ok w then continue c a SWaitHello else fails c a
  | SWaitHello =>
      if negb (a_ok w) then fails c a
      else match helloCh a with
           | None => continue c a SWaitHello
           | Some sh =>
               let n := fresh (dom (sessions c) ∪ dom (channels c)) in
               let c := c <| sessions ::= <[n := Hello.sh_codec sh]> |>
                          <| channels ::= <[n := Hello.sh_dataChannel sh]> |>
                          <| codec := Some n |> <| serverId := Hello.sh_serverID sh |> in
               continue c (a <| helloCh := None |> <| session := Some n |>
                             <| peerID := Hello.sh_serverID sh |> <| names := Hello.sh_transports sh |>)
                 STransport
           end
  | STransport =>
      if negb (bool_decide (Hello.Name (transport c) ∈ names a)) || negb (a_ok w) then fails c a
      else continue c (a <| awaiting := true |>) SSelect
  | SSelect =>
      let '(c, r) := publishTransportSelect c (a_publish w) in
      if is_ok r then continue c a SRelay else fails c a
  | _ => dialStep c a w
  end.

(** The callbacks of the two subscriptions. *)
Definition onServerHello (c : Client) (a : attempt) (data : list byte)
    (rnd rnd1 rnd2 rnd3 rnd4 : Z → option (list byte)) : attempt :=
  match hello a with
  | Some h =>
      if negb (listening a) then a
      else match Hello.handleServerHello (config c) data h rnd rnd1 rnd2 rnd3 rnd4, helloCh a with
           | Ok sh, None => a <| helloCh := Some sh |>
           | _, _ => a
           end
  | None => a
  end.

Definition onICEAnswer (c : Client) (a : attempt) (data : list byte) : Client * attempt :=
  match session a ≫= λ n, sessions c !! n with
  | Some sc =>
      if negb (awaiting a) then (c, a)
      else match Channel.DecodeMessage sc data ≫= Hello.parts with
           | Err _ => (c, a)
           | Ok (h, p) =>
               if negb (bool_decide (Codec.SourceId h = peerID a))
                  || negb (bool_decide (Codec.TargetId h = Hello.clientId (config c))) then (c, a)
               else
                 let '(win, fresh) := Replay.Accept (signalRecv c) (Codec.Sequence h) in
                 let c := c <| signalRecv := win |> in
                 let d := Hello.mkICEDescription (Codec.ICEUsername p) (Codec.ICEPassword p)
                            (Codec.ICECandidates p) in
                 if negb fresh || negb (bool_decide (Codec.Type_ h = Codec.MessageTypeICEAnswer))
                    || bool_decide (Codec.ICEUsername p = EmptyString)
                    || bool_decide (Codec.ICEPassword p = EmptyString) || negb (validDescription c d)
                 then (c, a)
                 else (c, match answers a with None => a <| answers := Some d |> | Some _ => a end)
           end
  | None => (c, a)
  end.

(** ** disconnect.go *)

Definition disconnectStep (c : Client) (k : cont) (closeBuffer : bool) (p : phase) (w : answer)
  : option outcome :=
  let next c p := goes c (TDisconnect k closeBuffer p) in
  match p with
  | PGeneration => next (c <| reconnectGeneration ::= (λ g, u64 (g + 1)) |>) PPublish
  | PPublish => next (if connected c then publishDisconnect c (a_publish w) else c) PDown
  | PDown => next (c <| connected := false |>) PBuffer
  | PBuffer =>
      rb ← buffers c !! recvBuf c;
      '(rb, _) ← (if closeBuffer then Buffer.Close rb None else Buffer.Reset rb None);
      next (c <| buffers ::= <[recvBuf c := rb]> |>) PDetach
  | PDetach =>
      next (c <| transportConn := None |> <| dataChannel := None |> <| codec := None |>
              <| serverId := EmptyString |> <| iceAgent := None |>)
        (PClose (transportConn c) (iceAgent c))
  | PClose conn agent =>
      let c := c <| transportsOpen ::= Hello.closeOne conn |> <| agentsOpen ::= Hello.closeOne agent |> in
      match k with
      | KReturn => returns c
      | KFailed g => Some (c <| connecting := false |>, returned g false, [])
      | KReconnect =>
          if a_ok w then goes (c <| manualDisconnect := false |>) (TConnect (newAttempt None false))
          else returns c
      end
  end.

(** ** finishTransport and the goroutines of a transport *)

Definition finishTransport (c : Client) (conn channel : nat) : option outcome :=
  if negb (isCurrentTransport c conn channel) then returns c
  else goes (c <| transportConn := None |> <| dataChannel := None |> <| iceAgent := None |>)
         (TFinish conn (iceAgent c) FDown).

Definition finishStep (c : Client) (conn : nat) (agent : option nat) (p : finish) : option outcome :=
  match p with
  | FDown => goes (c <| connected := false |>) (TFinish conn agent FReset)
  | FReset =>
      rb ← buffers c !! recvBuf c;
      '(rb, _) ← Buffer.Reset rb None;
      goes (c <| buffers ::= <[recvBuf c := rb]> |>) (TFinish conn agent FClose)
  | FClose =>
      goes (c <| transportsOpen ::= Hello.closeOne (Some conn) |> <| agentsOpen ::= Hello.closeOne agent |>)
        (TFinish conn agent FGeneration)
  | FGeneration =>
      let g := u64 (reconnectGeneration c + 1) in
      let c := c <| reconnectGeneration := g |> in
      if manualDisconnect c then returns c else goes c (TReconnect g)
  end.

(** Half an iteration of [readTransport]: the header ([a_ok]: it was read and is
    valid), then the frame. *)
Definition readStep (c : Client) (conn channel buf : nat) (body : bool) (w : answer) : option outcome :=
  if negb body then
    if negb (a_ok w) || negb (isCurrentTransport c conn channel) then finishTransport c conn channel
    else goes c (TRead conn channel buf true)
  else
    match a_frame w with
    | Server.FrameBad => finishTransport c conn channel
    | Server.FrameReplay => goes c (TRead conn channel buf false)
    | Server.FrameHeartbeat =>
        if negb (isCurrentTransport c conn channel) then finishTransport c conn channel
        else goes (c <| lastTransportRead := a_now w |>) (TRead conn channel buf false)
    | Server.FrameData raw =>
        if (MaxFrameSize (options c) <? len raw) || negb (isCurrentTransport c conn channel)
        then finishTransport c conn channel
        else
          rb ← buffers c !! buf;
          let '(rb, _, r) := Buffer.Write rb None raw in
          let c := c <| lastTransportRead := a_now w |> <| buffers ::= <[buf := rb]> |> in
          if is_ok r then goes c (TRead conn channel buf false) else finishTransport c conn channel
    end.

(** A tick; [a_ok]: the heartbeat was sent. *)
Definition monitorStep (c : Client) (conn channel : nat) (w : answer) : option outcome :=
  if negb (isCurrentTransport c conn channel) then returns c
  else if (HeartbeatTimeout (options c) <=? Hello.timeSub (a_now w) (lastTransportRead c)) || negb (a_ok w)
  then finishTransport c conn channel
  else goes c (TMonitor conn channel).

(** ** reconnect.go *)

Definition stale (c : Client) (g : Z) : bool := manualDisconnect c || negb (reconnectGeneration c =? g).

Definition threadStep (c : Client) (t : thread) (w : answer) : option outcome :=
  match t with
  | TConnect a => connectStep c a w
  | TReconnect g =>
      if stale c g || connected c then returns c else goes c (TConnect (newAttempt (Some g) true))
  | TConnected g =>
      if reconnectGeneration c =? g then returns c else goes c (TDisconnect KReturn true PPublish)
  | TFailed g => if stale c g then returns c else goes c (TSleep g)
  | TSleep g => goes c (TReconnect g)
  | TDisconnect k cb p => disconnectStep c k cb p w
  | TRead conn ch buf body => readStep c conn ch buf body w
  | TMonitor conn ch => monitorStep c conn ch w
  | TFinish conn agent p => finishStep c conn agent p
  end.

(** ** The machine *)

Record world := mkWorld {
  client : Client;
  threads : gmap nat thread
}.

Inductive op :=
| OConnect
| ODisconnect
| OReconnect
| OStep (i : nat) (w : answer)
| OServerHello (i : nat) (data : list byte) (rnd rnd1 rnd2 rnd3 rnd4 : Z → option (list byte))
| OICEAnswer (i : nat) (data : list byte)
| ORead (now size : Z)
| OSetReadDeadline (d : option Z).

Definition exec (w : world) (o : op) : option world :=
  let c := client w in
  let m := threads w in
  match o with
  | OConnect =>
      Some (mkWorld (c <| manualDisconnect := false |>) (spawn m (TConnect (newAttempt None false))))
  | ODisconnect =>
      Some (mkWorld (c <| manualDisconnect := true |>) (spawn m (TDisconnect KReturn true PGeneration)))
  | OReconnect =>
      Some (mkWorld (c <| manualDisconnect := true |>) (spawn m (TDisconnect KReconnect true PGeneration)))
  | OStep i ans =>
      match m !! i with
      | None => Some w
      | Some t =>
          '(c, t, new) ← threadStep c t ans;
          let m := match t with Some t => <[i := t]> m | None => delete i m end in
          Some (mkWorld c (foldl spawn m new))
      end
  | OServerHello i data rnd rnd1 rnd2 rnd3 rnd4 =>
      match m !! i with
      | Some (TConnect a) =>
          Some (mkWorld c (<[i := TConnect (onServerHello c a data rnd rnd1 rnd2 rnd3 rnd4)]> m))
      | _ => Some w
      end
  | OICEAnswer i data =>
      match m !! i with
      | Some (TConnect a) =>
          let '(c, a) := onICEAnswer c a data in Some (mkWorld c (<[i := TConnect a]> m))
      | _ => Some w
      end
  | ORead now size =>
      rb ← buffers c !! recvBuf c;
      '(rb, _, _) ← Buffer.Read rb None now size;
      Some (mkWorld (c <| buffers ::= <[recvBuf c := rb]> |>) m)
  | OSetReadDeadline d =>
      rb ← buffers c !! recvBuf c;
      Some (mkWorld (c <| buffers ::= <[recvBuf c := Buffer.SetDeadline rb d]> |>) m)
  end.

Definition run (w : world) (os : list op) : option world := foldl (λ w o, w ← w; exec w o) (Some w) os.

Definition start (c : Client) : world := mkWorld c ∅.

End Client.
End Client.
