(* ===== verification/ClientProofs.v ===== *)
(** * ClientProofs.v: invariants of the client machine of Client.v

    An operation moves one thread and may change the client; [moves] says what such
    a move must respect for the invariant of the machine to be kept, so that each
    operation is checked on its own. *)

From S2P Require Import Prelude GoFloat Replay Buffer Encryption Handshake Codec Channel Hello HelloProofs Server Threads Client.
From Stdlib Require Import ZArith Lia String.
From stdpp Require Import base list option strings numbers gmap.

Local Open Scope Z_scope.
Local Open Scope go_scope.

Module ClientProofs.
Import Threads Client.
Section ClientProofs.
Context `{C : !Crypto} `{S : !Signatures} `{K : !KeyExchange} `{T : !TimeFormat}.
Context `{W : !WebRTC}.
Context `{GH : !Gob Codec.Header} `{GP : !Gob Codec.Payload} `{GC : !Gob (list (list byte))}.

(** ** What a thread holds and what it owes *)

(** Between the guard of [connectWithContext] and its last deferred call. *)
Definition inAttempt (t : thread) : bool :=
  match t with
  | TConnect a => match at_ a with SGuard => false | _ => true end
  | TDisconnect (KFailed _) _ _ => true
  | _ => false
  end.

Definition heldAgent (t : thread) : option nat :=
  match t with
  | TConnect a => match at_ a with SInstall agent => Some agent | _ => None end
  | TDisconnect _ _ (PClose _ agent) => agent
  | TFinish _ agent p => match p with FGeneration => None | _ => agent end
  | _ => None
  end.

Definition heldTransport (t : thread) : option nat :=
  match t with
  | TConnect a => match at_ a with SAttach _ conn => Some conn | _ => None end
  | TDisconnect _ _ (PClose conn _) => conn
  | TFinish conn _ p => match p with FGeneration => None | _ => Some conn end
  | _ => None
  end.

(** The attempt that has installed an agent attaches a transport or disconnects. *)
Definition cleans (t : thread) : bool :=
  match t with
  | TConnect a =>
      match at_ a with
      | SGather _ | SOffer _ _ | SWaitAnswer _ | SDialICE _ | SDial _ | SAttach _ _ => true
      | _ => false
      end
  | TDisconnect (KFailed _) _ p => match p with PClose _ _ => false | _ => true end
  | _ => false
  end.

(** The goroutines of an attached transport are about to be started, or are its
    reader and its monitor. *)
Definition spawns (conn ch : nat) (t : thread) : Prop :=
  match t with
  | TConnect a => match at_ a with SSpawn conn' => conn' = conn ∧ session a = Some ch | _ => False end
  | _ => False
  end.

Definition reads (conn ch : nat) (t : thread) : Prop :=
  match t with TRead conn' ch' _ _ => conn' = conn ∧ ch' = ch | _ => False end.

Definition monitors (conn ch : nat) (t : thread) : Prop :=
  match t with TMonitor conn' ch' => conn' = conn ∧ ch' = ch | _ => False end.

(** The stages that use the session have one; a reader's buffer exists. *)
Definition needsSession (st : stage) : bool :=
  match st with
  | SGuard | SReset | SBuffer | SHello | SSubscribe | SPublish | SWaitHello => false
  | _ => true
  end.

Definition thread_ok (c : Client) (t : thread) : Prop :=
  match t with
  | TConnect a => needsSession (at_ a) = true → is_Some (session a)
  | TRead _ _ buf _ => is_Some (buffers c !! buf)
  | _ => True
  end.

(** ** The invariant *)

Definition watched (m : gmap nat thread) (conn ch : nat) : Prop :=
  some_thread m (spawns conn ch) ∨
  (some_thread m (reads conn ch) ∧ some_thread m (monitors conn ch)).

Record inv (c : Client) (m : gmap nat thread) : Prop := {
  iv_buf : is_Some (buffers c !! recvBuf c);
  iv_threads : ∀ i t, m !! i = Some t → thread_ok c t;
  iv_connecting : connecting c = true ↔ some_thread m (λ t, inAttempt t = true);
  iv_unique : ∀ i j t u, m !! i = Some t → m !! j = Some u →
    inAttempt t = true → inAttempt u = true → i = j;
  iv_agents : ∀ a, a ∈ agentsOpen c → iceAgent c = Some a ∨ some_thread m (λ t, heldAgent t = Some a);
  iv_transports : ∀ d, d ∈ transportsOpen c →
    transportConn c = Some d ∨ some_thread m (λ t, heldTransport t = Some d);
  iv_channel : transportConn c = None ↔ dataChannel c = None;
  iv_watched : ∀ conn ch, isCurrentTransport c conn ch = true → watched m conn ch;
  iv_cleaned : iceAgent c ≠ None → transportConn c = None → some_thread m (λ t, cleans t = true)
}.

(** ** Moving one thread *)

Record moves (c c' : Client) (t : thread) (t' : option thread) (new : list thread) : Prop := {
  mv_buf : is_Some (buffers c' !! recvBuf c');
  mv_bufs : ∀ n, is_Some (buffers c !! n) → is_Some (buffers c' !! n);
  mv_ok : ∀ u, t' = Some u ∨ u ∈ new → thread_ok c' u;
  mv_new : ∀ u, u ∈ new → inAttempt u = false;
  mv_connecting :
    (connecting c' = connecting c ∧ (now t' (λ t, inAttempt t = true) ↔ inAttempt t = true)) ∨
    (connecting c = false ∧ connecting c' = true ∧ now t' (λ t, inAttempt t = true)) ∨
    (connecting c' = false ∧ inAttempt t = true ∧ ¬ now t' (λ t, inAttempt t = true));
  mv_agents : ∀ a, a ∈ agentsOpen c' →
    iceAgent c' = Some a ∨ now t' (λ t, heldAgent t = Some a) ∨
    (a ∈ agentsOpen c ∧ iceAgent c ≠ Some a ∧ heldAgent t ≠ Some a);
  mv_transports : ∀ d, d ∈ transportsOpen c' →
    transportConn c' = Some d ∨ now t' (λ t, heldTransport t = Some d) ∨
    (d ∈ transportsOpen c ∧ transportConn c ≠ Some d ∧ heldTransport t ≠ Some d);
  mv_channel : transportConn c' = None ↔ dataChannel c' = None;
  mv_watched : ∀ conn ch, isCurrentTransport c' conn ch = true →
    now t' (spawns conn ch) ∨
    (Exists (reads conn ch) new ∧ Exists (monitors conn ch) new) ∨
    (isCurrentTransport c conn ch = true ∧ (spawns conn ch t → now t' (spawns conn ch)) ∧
     (reads conn ch t → now t' (reads conn ch)) ∧ (monitors conn ch t → now t' (monitors conn ch)));
  mv_cleaned : iceAgent c' ≠ None → transportConn c' = None →
    now t' (λ t, cleans t = true) ∨ (iceAgent c ≠ None ∧ transportConn c = None ∧ cleans t = false)
}.

Lemma moves_inv c c' m i t t' new :
  inv c m → m !! i = Some t → moves c c' t t' new → inv c' (after m i t' new).
Proof.
  intros HI Hi HM.
  assert (Hnew : ∀ u, u ∈ new → inAttempt u = true → False).
  { intros u Hin Hu. by rewrite (mv_new _ _ _ _ _ HM) in Hu. }
  split.
  - apply HM.
  - intros j u [[Hne Hj]|[[-> ->]|[_ Hin]]]%after_inv; [|apply HM; auto..].
    pose proof (iv_threads _ _ HI _ _ Hj) as Hu. destruct u; cbn in *; try done. by apply HM.
  - destruct (mv_connecting _ _ _ _ _ HM) as [(-> & Hat)|[(Hc & -> & Ht)|(-> & Ht & Hn)]].
    + rewrite (iv_connecting _ _ HI). split.
      * intros Hs. eapply after_other; [done..|]. by rewrite Hat.
      * intros (j & u & [[Hne Hj]|[[-> ->]|[_ Hin]]]%after_inv & Hu); [by exists j, u| |].
        -- exists i, t. split; [done|]. apply Hat. by exists u.
        -- by destruct (Hnew u).
    + split; [|done]. intros _. by apply after_now.
    + split; [done|]. intros (j & u & [[Hne Hj]|[[-> ->]|[_ Hin]]]%after_inv & Hu).
      * destruct Hne. by eapply (iv_unique _ _ HI).
      * destruct Hn. by exists u.
      * by destruct (Hnew u).
  - assert (Hex : ∀ j u, j ≠ i → m !! j = Some u → inAttempt u = true →
      now t' (λ t, inAttempt t = true) → False).
    { intros j u Hne Hj Hu Hn.
      destruct (mv_connecting _ _ _ _ _ HM) as [(_ & Hat)|[(Hc & _)|(_ & _ & Ht)]]; [|..|done].
      - destruct Hne. apply Hat in Hn. by eapply (iv_unique _ _ HI).
      - apply not_true_iff_false in Hc. destruct Hc. apply (iv_connecting _ _ HI). by exists j, u. }
    intros j k u v [[Hj ?]|[[-> ->]|[_ Hin]]]%after_inv [[Hk ?]|[[-> Hv]|[_ Hin']]]%after_inv Hu Hv';
      try (exfalso; by eapply Hnew).
    + by eapply (iv_unique _ _ HI).
    + exfalso. eapply (Hex j u); [done..|]. by exists v.
    + exfalso. eapply (Hex k v); [done..|]. by exists u.
    + done.
  - intros a [?|[?|(Hin & H1 & H2)]]%(mv_agents _ _ _ _ _ HM); [by left|right; by apply after_now|].
    destruct (iv_agents _ _ HI _ Hin) as [?|Hs]; [done|right]. eapply after_other; [done..|]. done.
  - intros a [?|[?|(Hin & H1 & H2)]]%(mv_transports _ _ _ _ _ HM); [by left|right; by apply after_now|].
    destruct (iv_transports _ _ HI _ Hin) as [?|Hs]; [done|right]. eapply after_other; [done..|]. done.
  - apply HM.
  - intros conn ch [Hn|[[Hr Hm]|(Hcur & Hs & Hr & Hm)]]%(mv_watched _ _ _ _ _ HM).
    + left. by apply after_now.
    + right. split; by apply spawn_new.
    + destruct (iv_watched _ _ HI _ _ Hcur) as [Hw|[Hw1 Hw2]]; [left|right; split];
        (eapply after_other; [done..|]; done).
  - intros H1 H2. destruct (mv_cleaned _ _ _ _ _ HM H1 H2) as [Hn|(H3 & H4 & H5)]; [by apply after_now|].
    eapply after_other; [done|by apply (iv_cleaned _ _ HI)|]. congruence.
Qed.

(** ** Each step is such a move *)

(** What a step may rely on. *)
Record ready (c : Client) (t : thread) : Prop := {
  rd_buf : is_Some (buffers c !! recvBuf c);
  rd_ok : thread_ok c t;
  rd_connecting : inAttempt t = true → connecting c = true;
  rd_channel : transportConn c = None ↔ dataChannel c = None
}.

Definition steps (c : Client) (t : thread) (o : option outcome) : Prop :=
  ∃ c' t' new, o = Some (c', t', new) ∧ moves c c' t t' new.

(** What the invariant does not speak of. *)
Record same (c c' : Client) : Prop := {
  sm_conn : transportConn c' = transportConn c;
  sm_channel : dataChannel c' = dataChannel c;
  sm_agent : iceAgent c' = iceAgent c;
  sm_connecting : connecting c' = connecting c;
  sm_agents : agentsOpen c' = agentsOpen c;
  sm_transports : transportsOpen c' = transportsOpen c;
  sm_buf : is_Some (buffers c !! recvBuf c) → is_Some (buffers c' !! recvBuf c');
  sm_bufs : ∀ n, is_Some (buffers c !! n) → is_Some (buffers c' !! n)
}.

(** The invariant sees no difference between the threads. *)
Definition alike (t u : thread) : Prop :=
  inAttempt u = inAttempt t ∧ heldAgent u = heldAgent t ∧ heldTransport u = heldTransport t ∧
  cleans u = cleans t.

Definition idle (t : thread) : Prop :=
  inAttempt t = false ∧ heldAgent t = None ∧ heldTransport t = None ∧ cleans t = false.

Lemma idle_alike t u : idle t → idle u → alike t u.
Proof. intros (R1 & R2 & R3 & R4) (U1 & U2 & U3 & U4). unfold alike. split_and!; congruence. Qed.

Lemma same_current c c' conn ch :
  same c c' → isCurrentTransport c' conn ch = isCurrentTransport c conn ch.
Proof. intros []. unfold isCurrentTransport. by rewrite sm_conn0, sm_channel0. Qed.

Lemma quiet c c' t u :
  ready c t → same c c' → thread_ok c' u → alike t u →
  (∀ conn ch, isCurrentTransport c conn ch = true → (spawns conn ch t → spawns conn ch u) ∧
     (reads conn ch t → reads conn ch u) ∧ (monitors conn ch t → monitors conn ch u)) →
  steps c t (goes c' u).
Proof.
  intros HR HS Hok Hrole Hw. eexists _, _, _. split; [reflexivity|].
  pose proof (λ conn ch, same_current c c' conn ch HS) as Hcur.
  destruct HS as [E1 E2 E3 E4 E5 E6 B1 B2]. destruct Hrole as (R1 & R2 & R3 & R4).
  unfold now. split.
  - apply B1, HR.
  - done.
  - intros v [[= <-]|Hv%elem_of_nil]; done.
  - intros v Hv%elem_of_nil. done.
  - left. split; [done|]. rewrite <- R1. split; [by intros (v & [= <-] & ?)|by eexists].
  - intros a Ha. rewrite E3, E5 in *. rewrite <- R2.
    destruct (decide (iceAgent c = Some a)); [by left|].
    destruct (decide (heldAgent u = Some a)); [right; left; by eexists|by right; right].
  - intros a Ha. rewrite E1, E6 in *. rewrite <- R3.
    destruct (decide (transportConn c = Some a)); [by left|].
    destruct (decide (heldTransport u = Some a)); [right; left; by eexists|by right; right].
  - rewrite E1, E2. apply HR.
  - intros conn ch. rewrite Hcur. intros Hc. right; right.
    destruct (Hw _ _ Hc) as (W1 & W2 & W3). split_and!; [done|..]; intros; eexists; eauto.
  - rewrite E1, E3. intros H1 H2. rewrite <- R4.
    destruct (cleans u) eqn:E; [left; by eexists|by right].
Qed.

(** A thread that holds nothing and watches nothing returns. *)
Lemma retires c c' t u :
  ready c t → same c c' → idle t →
  (∀ u', u = Some u' → idle u' ∧ thread_ok c' u') →
  (∀ conn ch, isCurrentTransport c conn ch = true → ¬ spawns conn ch t ∧ ¬ reads conn ch t ∧
     ¬ monitors conn ch t) →
  steps c t (Some (c', u, [])).
Proof.
  intros HR HS Hrole Hu Hw. destruct u as [u|].
  - destruct (Hu u eq_refl) as [H1 H2]. apply quiet; [done..|by apply idle_alike|].
    intros conn ch (W1 & W2 & W3)%Hw. done.
  - eexists _, _, _. split; [reflexivity|].
    pose proof (λ conn ch, same_current c c' conn ch HS) as Hcur.
    destruct HS as [E1 E2 E3 E4 E5 E6 B1 B2]. destruct Hrole as (R1 & R2 & R3 & R4).
    unfold now. rewrite ?E1, ?E2, ?E3, ?E4, ?E5, ?E6, ?R1, ?R2, ?R3, ?R4.
    split; rewrite ?E1, ?E2, ?E3, ?E4, ?E5, ?E6, ?R1, ?R2, ?R3, ?R4.
    + apply B1, HR.
    + done.
    + intros v [?|Hv%elem_of_nil]; done.
    + intros v Hv%elem_of_nil. done.
    + left. split; [done|]. by split; [intros (? & ? & ?)|].
    + intros a Ha. destruct (decide (iceAgent c = Some a)); [by left|by right; right].
    + intros a Ha. destruct (decide (transportConn c = Some a)); [by left|by right; right].
    + apply HR.
    + intros conn ch. rewrite Hcur. intros Hc. right; right.
      destruct (Hw _ _ Hc) as (W1 & W2 & W3). by split_and!.
    + by right.
Qed.

Lemma same_refl c : same c c.
Proof. by split. Qed.

Lemma publishMessage_same c typ p publish : same c (publishMessage c typ p publish).1.
Proof.
  unfold publishMessage. destruct (codec c ≫= _) as [[n sc]|]; [|apply same_refl].
  case_if as E; [apply same_refl|]. destruct (Channel.EncodeMessage _ _) as [[sc' x] [data|e]]; by split.
Qed.

Lemma publishICEOffer_same c d publish : same c (publishICEOffer c d publish).1.
Proof. unfold publishICEOffer. case_if as E; [apply same_refl|apply publishMessage_same]. Qed.

(** An attempt that fails has closed what it held. *)
Lemma gives_up c c' a :
  ready c (TConnect a) → inAttempt (TConnect a) = true →
  (∀ conn ch, ¬ spawns conn ch (TConnect a)) →
  same c (c' <| agentsOpen := agentsOpen c |> <| transportsOpen := transportsOpen c |>) →
  agentsOpen c' = Hello.closeOne (heldAgent (TConnect a)) (agentsOpen c) →
  transportsOpen c' = Hello.closeOne (heldTransport (TConnect a)) (transportsOpen c) →
  steps c (TConnect a) (fails c' a).
Proof.
  intros HR Hat Hsp HS HA HT. eexists _, _, _. split; [reflexivity|].
  pose proof (λ conn ch, same_current _ _ conn ch HS) as Hcur.
  destruct HS as [E1 E2 E3 E4 _ _ B1 B2]. cbn in E1, E2, E3, E4, B1, B2. unfold now. split.
  - apply B1, HR.
  - done.
  - intros v [[= <-]|Hv%elem_of_nil]; done.
  - intros v Hv%elem_of_nil. done.
  - left. split; [done|]. rewrite Hat. split; [done|by eexists].
  - intros x. rewrite E3, HA, Hello.closeOne_elem. intros [Hx Hne].
    destruct (decide (iceAgent c = Some x)); [by left|by right; right].
  - intros x. rewrite E1, HT, Hello.closeOne_elem. intros [Hx Hne].
    destruct (decide (transportConn c = Some x)); [by left|by right; right].
  - rewrite E1, E2. apply HR.
  - intros conn ch Hc. right; right. rewrite <- Hcur. split_and!; try done.
    intros Hx. by destruct (Hsp conn ch).
  - intros _ _. left. by eexists.
Qed.

Lemma fails_quietly c c' a :
  ready c (TConnect a) → inAttempt (TConnect a) = true → same c c' →
  heldAgent (TConnect a) = None → heldTransport (TConnect a) = None →
  (∀ conn ch, ¬ spawns conn ch (TConnect a)) →
  steps c (TConnect a) (fails c' a).
Proof.
  intros HR Hat HS HA HT Hsp. pose proof HS as []. apply gives_up; [done..| | |].
  - by split.
  - by rewrite HA.
  - by rewrite HT.
Qed.

Lemma continues c c' a a' st :
  ready c (TConnect a) → same c c' → alike (TConnect a) (TConnect (a' <| at_ := st |>)) →
  (needsSession st = true → is_Some (session a')) → (∀ conn ch, ¬ spawns conn ch (TConnect a)) →
  steps c (TConnect a) (continue c' a' st).
Proof.
  intros HR HS Ha Hs Hsp. apply quiet; try done. intros conn ch _. split_and!; try done.
  intros Hx. by destruct (Hsp conn ch).
Qed.

Lemma Reset_None rb : ∃ rb', Buffer.Reset rb None = Some (rb', None).
Proof. unfold Buffer.Reset. cbn. case_if as E; eauto. Qed.

Lemma Close_None rb : ∃ rb', Buffer.Close rb None = Some (rb', None).
Proof. unfold Buffer.Close. cbn. case_if as E; eauto. Qed.

Lemma insert_some {A} (m : gmap nat A) i j x : is_Some (m !! j) → is_Some (<[i := x]> m !! j).
Proof.
  intros H. destruct (decide (j = i)) as [->|Hne]; [rewrite lookup_insert_eq; eauto|].
  by rewrite lookup_insert_ne.
Qed.

(** A new value for a buffer of the heap, which may become the current one. *)
Lemma same_buffer c n rb : same c (c <| buffers ::= <[n := rb]> |>).
Proof. split; try done; cbn; intros; by apply insert_some. Qed.

Lemma same_new_buffer c n rb : same c (c <| buffers ::= <[n := rb]> |> <| recvBuf := n |>).
Proof. split; try done; cbn; intros; [rewrite lookup_insert_eq; eauto|by apply insert_some]. Qed.

Local Ltac plain := first [done | apply same_refl | by intros ? ? [] | by split | intros; cbn; tauto].

Local Ltac kept :=
  intros x Hx;
  match goal with |- ?o = Some x ∨ _ => destruct (decide (o = Some x)); [by left|by right; right] end.

Lemma begins c a w :
  ready c (TConnect a) → at_ a = SGuard → steps c (TConnect a) (connectStep c a w).
Proof.
  intros HR Ha. unfold connectStep, dialStep. rewrite Ha. destruct (connected c || connecting c) eqn:E.
  - apply retires; [done|apply same_refl|by unfold idle; cbn; rewrite Ha| |].
    + intros u Hu. destruct (by_ a); simplify_eq/=. done.
    + intros conn ch _. cbn. rewrite Ha. tauto.
  - apply orb_false_iff in E as [_ Ec]. eexists _, _, _. split; [reflexivity|].
    destruct HR as [B _ _ HC]. unfold now. split; cbn; try done.
    + intros v [[= <-]|Hv%elem_of_nil]; done.
    + intros v Hv%elem_of_nil. done.
    + right; left. split_and!; [done..|by eexists].
    + rewrite ?Ha. kept.
    + rewrite ?Ha. kept.
    + intros conn ch Hc. rewrite Ha. right; right. tauto.
    + intros H1 H2. rewrite Ha. by right.
Qed.

Lemma makes_agent c a w :
  ready c (TConnect a) → at_ a = SNewAgent → steps c (TConnect a) (connectStep c a w).
Proof.
  intros HR Ha. unfold connectStep, dialStep. rewrite Ha. destruct (a_ok w).
  - eexists _, _, _. split; [reflexivity|]. destruct HR as [B O R HC]. cbn in O, R. rewrite Ha in O, R.
    unfold now. split; cbn; rewrite ?Ha; try done.
    + by intros v [[= <-]|Hv%elem_of_nil].
    + intros v Hv%elem_of_nil. done.
    + left. split; [done|]. by split; [|by eexists].
    + intros x [->%elem_of_singleton|Hx]%elem_of_union; [right; left; by eexists|].
      destruct (decide (iceAgent c = Some x)); [by left|by right; right].
    + kept.
    + intros conn ch Hc. right; right. tauto.
    + intros H1 H2. by right.
  - apply fails_quietly; cbn; rewrite ?Ha; plain.
Qed.

Lemma makes_transport c a agent w :
  ready c (TConnect a) → at_ a = SDial agent → steps c (TConnect a) (connectStep c a w).
Proof.
  intros HR Ha. unfold connectStep, dialStep. rewrite Ha. destruct (a_ok w).
  - eexists _, _, _. split; [reflexivity|]. destruct HR as [B O R HC]. cbn in O, R. rewrite Ha in O, R.
    unfold now. split; cbn; rewrite ?Ha; try done.
    + by intros v [[= <-]|Hv%elem_of_nil].
    + intros v Hv%elem_of_nil. done.
    + left. split; [done|]. by split; [|by eexists].
    + kept.
    + intros x [->%elem_of_singleton|Hx]%elem_of_union; [right; left; by eexists|].
      destruct (decide (transportConn c = Some x)); [by left|by right; right].
    + intros conn ch Hc. right; right. tauto.
    + intros _ _. left. by eexists.
  - apply fails_quietly; cbn; rewrite ?Ha; plain.
Qed.

Lemma installs_agent c a agent w :
  ready c (TConnect a) → at_ a = SInstall agent → steps c (TConnect a) (connectStep c a w).
Proof.
  intros HR Ha. unfold connectStep, dialStep, installICEAgent. rewrite Ha. case_if as E.
  - b2p. eexists _, _, _. split; [reflexivity|]. destruct HR as [B O R HC]. cbn in O, R. rewrite Ha in O, R.
    unfold now. split; cbn; rewrite ?Ha; try done.
    + by intros v [[= <-]|Hv%elem_of_nil].
    + intros v Hv%elem_of_nil. done.
    + left. split; [done|]. by split; [|by eexists].
    + intros x Hx. destruct (decide (x = agent)) as [->|Hne]; [by left|]. right; right. split_and!; congruence.
    + kept.
    + intros conn ch Hc. right; right. tauto.
    + intros _ _. left. by eexists.
  - apply gives_up; cbn; rewrite ?Ha; plain.
Qed.

Lemma attaches c a agent conn w :
  ready c (TConnect a) → at_ a = SAttach agent conn → steps c (TConnect a) (connectStep c a w).
Proof.
  intros HR Ha. unfold connectStep, dialStep, setTransportConn. rewrite Ha.
  destruct (session a) as [n|] eqn:Hn; cycle 1.
  { destruct HR as [_ O _ _]. cbn in O. rewrite Ha, Hn in O. by destruct (O eq_refl). }
  case_if as E.
  - b2p. eexists _, _, _. split; [reflexivity|]. destruct HR as [B O R HC]. cbn in O, R. rewrite Ha in O, R.
    unfold now. split; cbn; rewrite ?Ha; try done.
    + by intros v [[= <-]|Hv%elem_of_nil].
    + intros v Hv%elem_of_nil. done.
    + left. split; [done|]. by split; [|by eexists].
    + kept.
    + intros x Hx. destruct (decide (x = conn)) as [->|Hne]; [by left|]. right; right. split_and!; congruence.
    + intros conn' ch Hc. left. eexists. split; [done|]. cbn.
      unfold isCurrentTransport in Hc. cbn in Hc. b2p. split; congruence.
  - apply gives_up; cbn; rewrite ?Ha; plain.
Qed.

Lemma starts c a conn w :
  ready c (TConnect a) → at_ a = SSpawn conn → steps c (TConnect a) (connectStep c a w).
Proof.
  intros HR Ha. unfold connectStep, dialStep. rewrite Ha. destruct HR as [B O R HC]. cbn in O, R. rewrite Ha in O, R.
  destruct (session a) as [n|] eqn:Hn; [|by destruct (O eq_refl)].
  eexists _, _, _. split; [reflexivity|]. unfold now. split; cbn; rewrite ?Ha; try done.
  - intros v [[= <-]|[->|[->|Hv%elem_of_nil]%elem_of_cons]%elem_of_cons]; try done. cbn. by rewrite Hn.
  - by intros v [->|[->|Hv%elem_of_nil]%elem_of_cons]%elem_of_cons.
  - left. split; [done|]. by split; [|by eexists].
  - kept.
  - kept.
  - intros conn' ch Hc.
    destruct (decide (conn = conn' ∧ n = ch)) as [[-> ->]|Hne].
    + right; left. split; [by left|by right; left].
    + right; right. split_and!; [done| |done..]. rewrite Hn. intros [? [= ?]]. by destruct Hne.
  - intros H1 H2. by right.
Qed.

Lemma ends_attempt c a w :
  ready c (TConnect a) → at_ a = SReturn → steps c (TConnect a) (connectStep c a w).
Proof.
  intros HR Ha. unfold connectStep, dialStep. rewrite Ha. destruct HR as [B O R HC]. cbn in O, R. rewrite Ha in O, R.
  eexists _, _, _. split; [reflexivity|].
  assert (Hr : ∀ u, returned (by_ a) true = Some u → ∃ g, u = TConnected g).
  { intros u Hu. destruct (by_ a); simplify_eq/=. eauto. }
  unfold now. split; cbn; rewrite ?Ha; try done.
  - intros v [Hv|Hv%elem_of_nil]; [|done]. by destruct (Hr _ Hv) as [g ->].
  - by intros v Hv%elem_of_nil.
  - right; right. split_and!; [done..|]. intros (u & Hu & Hat). by destruct (Hr _ Hu) as [g ->].
  - kept.
  - kept.
  - intros conn ch Hc. right; right. tauto.
  - intros H1 H2. by right.
Qed.

Lemma connectStep_moves c a w : ready c (TConnect a) → steps c (TConnect a) (connectStep c a w).
Proof.
  intros HR. destruct (at_ a) eqn:Ha; eauto using begins, makes_agent, makes_transport, installs_agent,
    attaches, starts, ends_attempt; pose proof HR as [B O R HC]; cbn in O, R;
    rewrite Ha in O, R; cbn in O; unfold connectStep, dialStep; rewrite Ha;
    try (destruct (a_ok w); [|by apply fails_quietly; cbn; rewrite ?Ha; plain]); cbn [negb];
    try (apply continues; unfold alike; cbn; rewrite ?Ha; first [done|by split|plain]; fail).
  - destruct B as [rb Hrb]. rewrite Hrb. cbn [mbind option_bind]. case_if as E.
    + apply continues; unfold alike; cbn; rewrite ?Ha; plain || apply same_new_buffer.
    + destruct (Reset_None rb) as [rb' ->]. cbn [mbind option_bind].
      apply continues; unfold alike; cbn; rewrite ?Ha; plain || apply same_buffer.
  - destruct (Hello.buildClientHello _ _ _) as [h|e];
      [apply continues|apply fails_quietly]; unfold alike; cbn; rewrite ?Ha; plain.
  - destruct (helloCh a) as [sh|]; apply continues; unfold alike; cbn; rewrite ?Ha; plain || by split || eauto.
  - case_if as E; [apply fails_quietly|apply continues]; unfold alike; cbn; rewrite ?Ha; plain.
  - destruct (publishTransportSelect c (a_publish w)) as [c' r] eqn:E.
    assert (HS : same c c') by (pose proof (publishMessage_same c Codec.MessageTypeTransportSelect
      (sessionPayload (Hello.Name (transport c)) EmptyString EmptyString []) (a_publish w)) as HS;
      unfold publishTransportSelect in E; by rewrite E in HS).
    case_if as E'; [apply continues|apply fails_quietly]; unfold alike; cbn; rewrite ?Ha; plain.
  - case_if as E; [apply fails_quietly|apply continues]; unfold alike; cbn; rewrite ?Ha; plain.
  - destruct (publishICEOffer c d (a_publish w)) as [c' r] eqn:E.
    assert (HS : same c c') by (pose proof (publishICEOffer_same c d (a_publish w)) as HS; by rewrite E in HS).
    case_if as E'; [apply continues|apply fails_quietly]; unfold alike; cbn; rewrite ?Ha; plain.
  - destruct (answers a); apply continues; unfold alike; cbn; rewrite ?Ha; plain.
Qed.

(** ** The other threads *)

Lemma detaches c k cb w :
  ready c (TDisconnect k cb PDetach) →
  steps c (TDisconnect k cb PDetach) (disconnectStep c k cb PDetach w).
Proof.
  intros [B O R HC]. eexists _, _, _. split; [reflexivity|]. unfold now. split; cbn; try done.
  - by intros v [[= <-]|Hv%elem_of_nil].
  - by intros v Hv%elem_of_nil.
  - left. split; [done|]. 
    destruct k; (split; [by intros (v & [= <-] & Hv)|]); first [done|intros _; by eexists].
  - intros x Hx. right. destruct (decide (iceAgent c = Some x)); [left; by eexists|by right].
  - intros x Hx. right. destruct (decide (transportConn c = Some x)); [left; by eexists|by right].
Qed.

Lemma closes c k cb conn agent w :
  ready c (TDisconnect k cb (PClose conn agent)) →
  steps c (TDisconnect k cb (PClose conn agent)) (disconnectStep c k cb (PClose conn agent) w).
Proof.
  intros [B O R HC]. unfold steps.
  assert (∃ c' t', disconnectStep c k cb (PClose conn agent) w = Some (c', t', []) ∧
    buffers c' = buffers c ∧ recvBuf c' = recvBuf c ∧ iceAgent c' = iceAgent c ∧
    transportConn c' = transportConn c ∧ dataChannel c' = dataChannel c ∧
    agentsOpen c' = Hello.closeOne agent (agentsOpen c) ∧
    transportsOpen c' = Hello.closeOne conn (transportsOpen c) ∧
    connecting c' = (match k with KFailed _ => false | _ => connecting c end) ∧
    (∀ u, t' = Some u → idle u ∧ thread_ok c' u)) as (c' & t' & -> & E1 & E2 & E3 & E4 & E5 & E6 & E7 & E8 & Hu).
  { destruct k as [|g|]; cbn; [|destruct g|destruct (a_ok w)]; eexists _, _; split; try reflexivity;
      split_and!; try done; by intros u [= <-]. }
  eexists c', t', []. split; [done|]. unfold now.
  split; rewrite ?E1, ?E2, ?E3, ?E4, ?E5, ?E6, ?E7; unfold isCurrentTransport; rewrite ?E4, ?E5; cbn; try done.
  - intros v [Hv|Hv%elem_of_nil]; [by apply Hu|done].
  - by intros v Hv%elem_of_nil.
  - rewrite E8. destruct k as [|g|]; [left|right; right|left]; split_and!; try done;
      [split|..|split]; try done; intros (u & [(Hi & _) _]%Hu & Hv); congruence.
  - intros x [Hx Hne]%Hello.closeOne_elem. destruct (decide (iceAgent c = Some x)); [by left|by right; right].
  - intros x [Hx Hne]%Hello.closeOne_elem. destruct (decide (transportConn c = Some x)); [by left|by right; right].
  - intros conn' ch Hc. right; right. tauto.
  - intros Hx1 Hx2. right. split_and!; try done. by destruct k.
Qed.

Lemma disconnectStep_moves c k cb p w :
  ready c (TDisconnect k cb p) → steps c (TDisconnect k cb p) (disconnectStep c k cb p w).
Proof.
  intros HR. destruct p; auto using detaches, closes; cbn [disconnectStep].
  - apply quiet; unfold alike; destruct k; plain.
  - apply quiet; unfold alike; try done.
    case_if as E; [apply publishMessage_same|apply same_refl].
  - apply quiet; unfold alike; destruct k; plain.
  - destruct (rd_buf _ _ HR) as [rb Hrb]. rewrite Hrb. cbn [mbind option_bind].
    assert (∃ rb', (if cb then Buffer.Close rb None else Buffer.Reset rb None) = Some (rb', None)) as [rb' ->].
    { destruct cb; [apply Close_None|apply Reset_None]. }
    cbn [mbind option_bind]. apply quiet; unfold alike; try done.
    apply same_buffer.
Qed.

(** A transport that is finished is handed to the thread that closes it; a thread
    of another transport returns. *)
Lemma finishTransport_moves c c0 t conn ch :
  ready c0 t → same c0 c → idle t → (∀ conn ch, ¬ spawns conn ch t) →
  (∀ conn' ch', reads conn' ch' t ∨ monitors conn' ch' t → conn' = conn ∧ ch' = ch) →
  steps c0 t (finishTransport c conn ch).
Proof.
  intros HR HS Hid Hsp Hw. unfold finishTransport.
  rewrite (same_current _ _ conn ch HS). destruct (isCurrentTransport c0 conn ch) eqn:E; cbn [negb].
  - pose proof HS as [E1 E2 E3 E4 E5 E6 B1 B2]. destruct HR as [B O R HC]. destruct Hid as (I1 & I2 & I3 & I4).
    unfold isCurrentTransport in E. b2p. eexists _, _, _. split; [reflexivity|].
    unfold now. split; cbn; rewrite ?E1, ?E2, ?E3, ?E4, ?E5, ?E6, ?I1, ?I2, ?I3, ?I4; try done.
    + by apply B1.
    + by intros v [[= <-]|Hv%elem_of_nil].
    + by intros v Hv%elem_of_nil.
    + left. split; [done|]. by split; [intros (v & [= <-] & Hv)|].
    + intros x Hx. right. destruct (decide (iceAgent c0 = Some x)); [left; by eexists|by right].
    + intros x Hx. right. destruct (decide (conn = x)) as [->|]; [left; by eexists|right].
      split_and!; [done|congruence|done].
  - apply retires; try done. intros conn' ch' Hc. split; [apply Hsp|].
    split; intros Hx; (destruct (Hw conn' ch') as [-> ->]; [by auto|]); congruence.
Qed.

Lemma readStep_moves c conn ch buf body w :
  ready c (TRead conn ch buf body) → steps c (TRead conn ch buf body) (readStep c conn ch buf body w).
Proof.
  intros HR.
  assert (HF : ∀ c', same c c' → steps c (TRead conn ch buf body) (finishTransport c' conn ch)).
  { intros c' HS. apply finishTransport_moves; try done; [by intros ? ? []|].
    intros conn' ch' [[-> ->]|[]]. done. }
  assert (HG : ∀ c' b, same c c' → steps c (TRead conn ch buf body) (goes c' (TRead conn ch buf b))).
  { intros c' b HS. apply quiet; try done. apply HS, HR. }
  unfold readStep. case_if as E1.
  - case_if as E2; [apply HF, same_refl|apply HG, same_refl].
  - destruct (a_frame w) as [| | |raw]; auto using same_refl.
    + case_if as E2; auto using same_refl. apply HG. by split.
    + case_if as E2; auto using same_refl.
      destruct (rd_ok _ _ HR) as [rb Hrb]. rewrite Hrb. cbn [mbind option_bind].
      destruct (Buffer.Write rb None raw) as [[rb' x] r].
      assert (HS : same c (c <| lastTransportRead := a_now w |> <| buffers ::= <[buf := rb']> |>)).
      { split; try done; cbn; intros; by apply insert_some. }
      case_if as E3; auto.
Qed.

Lemma monitorStep_moves c conn ch w :
  ready c (TMonitor conn ch) → steps c (TMonitor conn ch) (monitorStep c conn ch w).
Proof.
  intros HR. unfold monitorStep. case_if as E1.
  - apply retires; try done. intros conn' ch' Hc. cbn. split_and!; try tauto.
    intros [-> ->]. by rewrite Hc in E1.
  - case_if as E2.
    + apply finishTransport_moves; try done; [by intros ? ? []|].
      intros conn' ch' [[]|[-> ->]]. done.
    + apply quiet; plain.
Qed.

Lemma finishStep_moves c conn agent p :
  ready c (TFinish conn agent p) → steps c (TFinish conn agent p) (finishStep c conn agent p).
Proof.
  intros HR. destruct p; cbn [finishStep].
  - apply quiet; plain.
  - destruct (rd_buf _ _ HR) as [rb Hrb]. rewrite Hrb. cbn [mbind option_bind].
    destruct (Reset_None rb) as [rb' ->]. cbn [mbind option_bind]. apply quiet; plain || apply same_buffer.
  - destruct HR as [B O R HC]. eexists _, _, _. split; [reflexivity|]. unfold now. split; cbn; try done.
    + by intros v [[= <-]|Hv%elem_of_nil].
    + by intros v Hv%elem_of_nil.
    + left. split; [done|]. by split; [intros (v & [= <-] & Hv)|].
    + intros x [Hx Hne]%Hello.closeOne_elem. destruct (decide (iceAgent c = Some x)); [by left|by right; right].
    + intros x [Hx Hne]%elem_of_difference. destruct (decide (transportConn c = Some x)); [by left|].
      right; right. split_and!; [done..|]. intros [= ->]. by apply Hne, elem_of_singleton.
    + intros conn' ch Hc. right; right. tauto.
    + by right.
  - case_if as E; [apply retires|apply quiet]; plain.
Qed.

Lemma threadStep_moves c t w : ready c t → steps c t (threadStep c t w).
Proof.
  intros HR. destruct t; cbn [threadStep]; auto using connectStep_moves, disconnectStep_moves,
    readStep_moves, monitorStep_moves, finishStep_moves;
    try case_if as E; first [apply retires; by plain | apply quiet; plain].
Qed.

(** ** The machine *)

Lemma inv_ready c m i t : inv c m → m !! i = Some t → ready c t.
Proof.
  intros HI Hi. split; try apply HI; [by apply (iv_threads _ _ HI i)|].
  intros Ht. apply (iv_connecting _ _ HI). by exists i, t.
Qed.

Lemma spawn_inv c c' m t : inv c m → same c c' → idle t → thread_ok c' t → inv c' (spawn m t).
Proof.
  intros HI HS (I1 & I2 & I3 & I4) Hok.
  pose proof (λ conn ch, same_current _ _ conn ch HS) as Hcur.
  destruct HS as [E1 E2 E3 E4 E5 E6 B1 B2].
  assert (Hex : ∀ P, some_thread m P → some_thread (spawn m t) P).
  { intros P (j & u & Hj & Hu). exists j, u. split; [|done]. apply spawn_lookup. by right. }
  split; rewrite ?E1, ?E2, ?E3, ?E4, ?E5, ?E6.
  - apply B1, HI.
  - intros j u [[-> ->]|Hj]%spawn_lookup; [done|]. pose proof (iv_threads _ _ HI _ _ Hj) as Hu.
    destruct u; cbn in *; auto.
  - rewrite (iv_connecting _ _ HI). split; [apply Hex|].
    intros (j & u & [[-> ->]|Hj]%spawn_lookup & Hu); [congruence|by exists j, u].
  - intros j k u v [[-> ->]|Hj]%spawn_lookup [[-> ->]|Hk]%spawn_lookup Hu Hv; try congruence.
    by eapply (iv_unique _ _ HI).
  - intros a [?|?]%(iv_agents _ _ HI); auto.
  - intros a [?|?]%(iv_transports _ _ HI); auto.
  - apply HI.
  - intros conn ch. rewrite Hcur. intros [?|[? ?]]%(iv_watched _ _ HI); [left|right; split]; auto.
  - intros H1 H2. apply Hex. by apply (iv_cleaned _ _ HI).
Qed.

Lemma same_inv c c' m : inv c m → same c c' → inv c' m.
Proof.
  intros HI HS. pose proof (λ conn ch, same_current _ _ conn ch HS) as Hcur.
  destruct HS as [E1 E2 E3 E4 E5 E6 B1 B2].
  split; rewrite ?E1, ?E2, ?E3, ?E4, ?E5, ?E6; try apply HI.
  - apply B1, HI.
  - intros j u Hj. pose proof (iv_threads _ _ HI _ _ Hj) as Hu. destruct u; cbn in *; auto.
  - intros conn ch. rewrite Hcur. apply HI.
Qed.

(** A message for an attempt changes none of what the invariant sees. *)
Lemma message_inv c c' m i a a' :
  inv c m → m !! i = Some (TConnect a) → same c c' → at_ a' = at_ a → session a' = session a →
  inv c' (<[i := TConnect a']> m).
Proof.
  intros HI Hi HS Ha Hs. pose proof (inv_ready _ _ _ _ HI Hi) as HR.
  destruct (quiet c c' (TConnect a) (TConnect a')) as (? & ? & ? & [= <- <- <-] & HM); try done.
  - cbn. rewrite Ha, Hs. apply (rd_ok _ _ HR).
  - unfold alike. cbn. by rewrite Ha.
  - intros conn ch _. cbn. rewrite Ha, Hs. tauto.
  - by apply (moves_inv _ _ _ _ _ _ _ HI Hi) in HM.
Qed.

Lemma onICEAnswer_same c a data c' a' :
  onICEAnswer c a data = (c', a') → same c c' ∧ at_ a' = at_ a ∧ session a' = session a.
Proof.
  unfold onICEAnswer. intros H. repeat case_match; simplify_eq; split_and!; plain.
Qed.

Lemma client_exec_inv w o :
  inv (client w) (threads w) → ∃ w', exec w o = Some w' ∧ inv (client w') (threads w').
Proof.
  intros HI. destruct w as [c m]. cbn in HI. destruct o as [| | |i ans|i data r r1 r2 r3 r4|i data|t n|d]; cbn.
  1-3: eexists; (split; [reflexivity|]); cbn; eapply spawn_inv; [done|..]; plain.
  - destruct (m !! i) as [t|] eqn:Hi; [|eauto].
    destruct (threadStep_moves c t ans (inv_ready _ _ _ _ HI Hi)) as (c' & t' & new & -> & HM).
    cbn. eexists. split; [reflexivity|]. by apply (moves_inv _ _ _ _ _ _ _ HI Hi).
  - destruct (m !! i) as [[a| | | | | | | |]|] eqn:Hi; eauto. eexists. split; [reflexivity|]. cbn.
    eapply message_inv; [done..|apply same_refl| |];
      unfold onServerHello; repeat case_match; done.
  - destruct (m !! i) as [[a| | | | | | | |]|] eqn:Hi; eauto.
    destruct (onICEAnswer c a data) as [c' a'] eqn:E. eexists. split; [reflexivity|]. cbn.
    apply onICEAnswer_same in E as (HS & Ha & Hs). by eapply message_inv.
  - destruct (iv_buf _ _ HI) as [rb Hrb]. rewrite Hrb. cbn [mbind option_bind].
    unfold Buffer.Read. case_if as E; cbn; (eexists; split; [reflexivity|]); cbn;
      apply (same_inv c); done || apply same_buffer.
  - destruct (iv_buf _ _ HI) as [rb Hrb]. rewrite Hrb. cbn. eexists. split; [reflexivity|]. cbn.
    apply (same_inv c); done || apply same_buffer.
Qed.

Lemma client_run_inv w os :
  inv (client w) (threads w) → ∃ w', run w os = Some w' ∧ inv (client w') (threads w').
Proof.
  unfold run. revert w. induction os as [|o os IH]; intros w HI; [eauto|].
  destruct (client_exec_inv w o HI) as (w' & Hw & HI'). cbn [foldl mbind option_bind]. rewrite Hw. by apply IH.
Qed.

Lemma client_start_inv quic psk api o c : NewClient quic psk api o = Ok c → inv c ∅.
Proof.
  unfold NewClient. intros (v & _ & H)%bind_ok. apply bind_ok in H as (room & _ & H). cbv zeta in H.
  do 2 apply bind_ok_unit in H as [_ H].
  injection H as <-. split; cbn; try done.
  split; [done|]. by intros (i & t & Hi & _).
Qed.

(** With no goroutine left, everything has been closed. *)
Lemma closed_all c m :
  inv c m → m = ∅ →
  agentsOpen c = ∅ ∧ transportsOpen c = ∅ ∧ iceAgent c = None ∧ transportConn c = None ∧
  connecting c = false.
Proof.
  intros HI ->. assert (Hno : ∀ P, ¬ some_thread (∅ : gmap nat thread) P) by (by intros P (i & t & Hi & _)).
  assert (Ht : transportConn c = None).
  { destruct (transportConn c) as [d|] eqn:Hd; [|done]. destruct (dataChannel c) as [ch|] eqn:Hch.
    - destruct (iv_watched _ _ HI d ch) as [[]%Hno|[[]%Hno _]]. unfold isCurrentTransport.
      by rewrite Hd, Hch, !bool_decide_true.
    - apply (iv_channel _ _ HI) in Hch. congruence. }
  assert (Ha : iceAgent c = None).
  { destruct (iceAgent c) eqn:E; [|done].
    destruct (Hno _ (iv_cleaned _ _ HI ltac:(congruence) Ht)). }
  split_and!; [..|done|done|].
  - apply set_eq. intros x. split; [|set_solver]. intros [?|[]%Hno]%(iv_agents _ _ HI). congruence.
  - apply set_eq. intros x. split; [|set_solver]. intros [?|[]%Hno]%(iv_transports _ _ HI). congruence.
  - apply not_true_iff_false. intros []%(iv_connecting _ _ HI)%Hno.
Qed.

(** A reader or a monitor of another transport leaves the client alone. *)
Lemma stale_harmless c t conn ch w :
  reads conn ch t ∨ monitors conn ch t → isCurrentTransport c conn ch = false →
  ∃ t', threadStep c t w = Some (c, t', []).
Proof.
  intros [Ht|Ht] Hcur; destruct t; try done; destruct Ht as [-> ->]; cbn;
    unfold readStep, monitorStep, finishTransport; rewrite Hcur, ?orb_true_r; [|by eexists].
  destruct body; cbn [negb]; [|by eexists]. destruct (a_frame w); try by eexists.
  rewrite orb_true_r. by eexists.
Qed.



(** ** The end of the goroutines after Disconnect *)

(** Where a goroutine waits for the context, the network or a tick, or would
    connect again. *)
Definition waits (t : thread) : bool :=
  match t with
  | TConnect a => match at_ a with SWaitHello | SWaitAnswer _ => true | _ => false end
  | TDisconnect KReconnect _ (PClose _ _) => true
  | TRead _ _ _ false | TMonitor _ _ => true
  | _ => false
  end.

(** Each operation is a step of a live goroutine, and what a goroutine waits for
    fails: the context is done, the transport is closed. *)
Fixpoint winding (w : world) (os : list op) : Prop :=
  match os with
  | [] => True
  | OStep i ans :: os =>
      ∃ t w', threads w !! i = Some t ∧ (waits t = true → a_ok ans = false) ∧
        exec w (OStep i ans) = Some w' ∧ winding w' os
  | _ => False
  end.

(** The steps a goroutine and those it starts can still take. *)
Definition stageWeight (st : stage) : Z :=
  match st with
  | SGuard => 40 | SReset => 39 | SBuffer => 38 | SHello => 37 | SSubscribe => 36 | SPublish => 35
  | SWaitHello => 34 | STransport => 33 | SSelect => 32 | SRelay => 31 | SNewAgent => 30
  | SInstall _ => 29 | SGather _ => 28 | SOffer _ _ => 27 | SWaitAnswer _ => 26 | SDialICE _ => 25
  | SDial _ => 24 | SAttach _ _ => 23 | SSpawn _ => 22 | SConnected => 9 | SReturn => 8
  end.

Definition weight (t : thread) : Z :=
  match t with
  | TConnect a => stageWeight (at_ a)
  | TReconnect _ | TFailed _ => 1
  | TSleep _ => 2
  | TConnected _ => 7
  | TDisconnect _ _ p =>
      match p with PGeneration => 7 | PPublish => 6 | PDown => 5 | PBuffer => 4 | PDetach => 3
                 | PClose _ _ => 2 end
  | TRead _ _ _ body => if body then 6 else 5
  | TMonitor _ _ => 5
  | TFinish _ _ p => match p with FDown => 4 | FReset => 3 | FClose => 2 | FGeneration => 1 end
  end.

Definition weights (ts : list thread) : Z := foldr (λ t n, weight t + n) 0 ts.

Lemma weight_bounds t : 1 ≤ weight t ≤ 40.
Proof.
  destruct t as [a| | | | |? ? []|? ? ? []| |? ? []]; cbn; try lia. destruct (at_ a); cbn; lia.
Qed.

(** One step with the client told to disconnect. *)
Definition winds (c : Client) (t : thread) (o : option outcome) : Prop :=
  ∀ c' t' new, o = Some (c', t', new) →
    manualDisconnect c' = true ∧ match t' with Some u => weight u | None => 0 end + weights new < weight t.

Lemma winds_goes c t c' u :
  manualDisconnect c' = true → weight u < weight t → winds c t (goes c' u).
Proof. intros H1 H2 ? ? ? [= <- <- <-]. split; [done|]. cbn. lia. Qed.

Lemma winds_returns c t c' : manualDisconnect c' = true → winds c t (returns c').
Proof. intros H1 ? ? ? [= <- <- <-]. split; [done|]. cbn. pose proof (weight_bounds t). lia. Qed.

Lemma winds_fails c c' a :
  manualDisconnect c' = true → 6 < stageWeight (at_ a) → winds c (TConnect a) (fails c' a).
Proof. intros H1 H2. by apply winds_goes. Qed.

Lemma winds_continue c c' a a' st :
  manualDisconnect c' = true → stageWeight st < stageWeight (at_ a) →
  winds c (TConnect a) (continue c' a' st).
Proof. intros H1 H2. by apply winds_goes. Qed.

Lemma winds_bind {A} c t (o : option A) f : (∀ x, o = Some x → winds c t (f x)) → winds c t (o ≫= f).
Proof. intros H. destruct o as [x|]; [by apply H|]. by intros ? ? ?. Qed.

Lemma publishMessage_manual c typ p publish :
  manualDisconnect (publishMessage c typ p publish).1 = manualDisconnect c.
Proof.
  unfold publishMessage. destruct (codec c ≫= _) as [[n sc]|]; [|done].
  case_if as E; [done|]. by destruct (Channel.EncodeMessage _ _) as [[sc' x] [data|e]].
Qed.

Lemma connectStep_winds c a w :
  manualDisconnect c = true → (waits (TConnect a) = true → a_ok w = false) →
  winds c (TConnect a) (connectStep c a w).
Proof.
  intros Hm Hw. unfold connectStep, dialStep. cbn in Hw.
  assert (Hf : 6 < stageWeight (at_ a)) by (destruct (at_ a); cbn; lia).
  destruct (at_ a) eqn:Ha; rewrite ?Hw by done; cbn [negb];
    repeat match goal with
    | |- winds _ _ (if ?b then _ else _) => destruct b
    | |- winds _ _ (_ ≫= _) => apply winds_bind; intros
    | x : (Buffer.RecvBuffer * option Buffer.ByteBudget)%type |- _ => destruct x
    | |- winds _ _ (fails _ _) => apply winds_fails; [done|by rewrite Ha]
    | |- winds _ _ (continue _ _ _) => apply winds_continue; [done|by rewrite Ha]
    | |- winds _ _ None => by intros ? ? ?
    end.
  - intros ? ? ? [= <- <- <-]. split; [done|]. cbn. rewrite Ha. by destruct (by_ a).
  - destruct (Hello.buildClientHello _ _ _);
      [apply winds_continue|apply winds_fails]; done || by rewrite Ha.
  - pose proof (publishMessage_manual c Codec.MessageTypeTransportSelect
      (sessionPayload (Hello.Name (transport c)) EmptyString EmptyString []) (a_publish w)) as Hp.
    unfold publishTransportSelect. destruct (publishMessage _ _ _ _) as [c' r]. cbn in Hp.
    case_if as E; [apply winds_continue|apply winds_fails]; congruence || by rewrite Ha.
  - unfold installICEAgent. rewrite Hm. cbn. apply winds_fails; [done|by rewrite Ha].
  - assert (Hp : manualDisconnect (publishICEOffer c d (a_publish w)).1 = true).
    { unfold publishICEOffer. case_if as E; [done|]. by rewrite publishMessage_manual. }
    destruct (publishICEOffer c d (a_publish w)) as [c' r]. cbn in Hp.
    case_if as E; [apply winds_continue|apply winds_fails]; congruence || by rewrite Ha.
  - destruct (session a); [|by intros ? ? ?]. unfold setTransportConn. rewrite Hm. cbn.
    apply winds_fails; [done|by rewrite Ha].
  - destruct (session a); [|by intros ? ? ?]. intros ? ? ? [= <- <- <-]. split; [done|]. cbn. by rewrite Ha.
  - intros ? ? ? [= <- <- <-]. split; [done|]. cbn. rewrite Ha. by destruct (by_ a).
Qed.

Lemma disconnectStep_winds c k cb p w :
  manualDisconnect c = true → (waits (TDisconnect k cb p) = true → a_ok w = false) →
  winds c (TDisconnect k cb p) (disconnectStep c k cb p w).
Proof.
  intros Hm Hw. destruct p; cbn [disconnectStep];
    try (by apply winds_goes); cbn [mbind].
  - apply winds_goes; [|done]. case_if as E; [|done]. unfold publishDisconnect. by rewrite publishMessage_manual.
  - apply winds_bind. intros rb _. apply winds_bind. intros [rb' x] _. by apply winds_goes.
  - destruct k as [|g|]; [by apply winds_returns| |].
    + intros ? ? ? [= <- <- <-]. split; [done|]. by destruct g.
    + rewrite Hw by done. by apply winds_returns.
Qed.

Lemma finishTransport_winds c c' t conn ch :
  manualDisconnect c' = true → 4 < weight t → winds c t (finishTransport c' conn ch).
Proof.
  intros Hm Ht. unfold finishTransport. case_if as E; [by apply winds_returns|by apply winds_goes].
Qed.

Lemma threadStep_winds c t w :
  manualDisconnect c = true → (waits t = true → a_ok w = false) → winds c t (threadStep c t w).
Proof.
  intros Hm Hw. destruct t as [a|g|g|g|g|k cb p|conn ch buf body|conn ch|conn agent p]; cbn [threadStep];
    auto using connectStep_winds, disconnectStep_winds.
  - unfold stale. rewrite Hm. by apply winds_returns.
  - case_if as E; [by apply winds_returns|by apply winds_goes].
  - unfold stale. rewrite Hm. by apply winds_returns.
  - by apply winds_goes.
  - unfold readStep. destruct body; cbn [negb]; [|rewrite Hw by done; by apply finishTransport_winds].
    destruct (a_frame w); try (case_if as E); try by apply finishTransport_winds || apply winds_goes.
    apply winds_bind. intros rb _. destruct (Buffer.Write rb None raw) as [[rb' x] r].
    case_if as E'; [by apply winds_goes|by apply finishTransport_winds].
  - unfold monitorStep. case_if as E; [by apply winds_returns|]. rewrite Hw, orb_true_r by done.
    by apply finishTransport_winds.
  - destruct p; cbn [finishStep]; try by apply winds_goes.
    + apply winds_bind. intros rb _. apply winds_bind. intros [rb' x] _. by apply winds_goes.
    + cbn. rewrite Hm. by apply winds_returns.
Qed.

Definition potential (w : world) : Z := msum weight (threads w).

Lemma wind_step w i ans t w' :
  manualDisconnect (client w) = true → threads w !! i = Some t → (waits t = true → a_ok ans = false) →
  exec w (OStep i ans) = Some w' →
  manualDisconnect (client w') = true ∧ potential w' < potential w.
Proof.
  intros Hm Hi Hw. cbn. rewrite Hi.
  destruct (threadStep (client w) t ans) as [[[c' t'] new]|] eqn:E; [|done].
  destruct (threadStep_winds _ t ans Hm Hw _ _ _ E) as [Hm' Hlt].
  intros [= <-]. split; [done|]. unfold potential. cbn.
  change (foldl spawn _ new) with (after (threads w) i t' new). rewrite (msum_after _ _ _ t) by done.
  unfold weights in Hlt. lia.
Qed.

Lemma potential_nonneg w : 0 ≤ potential w.
Proof. apply msum_nonneg. intros i t _. pose proof (weight_bounds t). lia. Qed.

Lemma potential_size w : potential w ≤ 40 * Z.of_nat (size (threads w)).
Proof.
  unfold potential. generalize (threads w). apply map_ind.
  - by rewrite msum_empty.
  - intros i t m Hi IH. rewrite msum_insert, map_size_insert_None by done.
    pose proof (weight_bounds t). lia.
Qed.

Lemma winding_bound w os :
  manualDisconnect (client w) = true → winding w os → len os ≤ potential w.
Proof.
  revert w. induction os as [|o os IH]; intros w Hm Hw.
  - rewrite len_nil. apply potential_nonneg.
  - destruct o; try done. destruct Hw as (t & w' & Hi & Ha & Hx & Hw).
    destruct (wind_step _ _ _ _ _ Hm Hi Ha Hx) as [Hm' Hlt]. specialize (IH w' Hm' Hw).
    rewrite len_cons. lia.
Qed.

Definition refusal : answer :=
  mkAnswer false 0 (Hello.mkICEDescription EmptyString EmptyString []) 0
    (Hello.mkClientDraws (λ _, None) (λ _, None) (λ _, None)) (λ _, false) Server.FrameBad.

Lemma winding_exists w :
  inv (client w) (threads w) → manualDisconnect (client w) = true →
  ∃ os w', winding w os ∧ run w os = Some w' ∧ threads w' = ∅ ∧ inv (client w') (threads w').
Proof.
  remember (potential w) as n eqn:Hn. assert (Hn0 : 0 ≤ n) by (subst; apply potential_nonneg).
  revert w Hn. induction n as [n IH] using (well_founded_induction (Z.lt_wf 0)). intros w -> HI Hm.
  destruct (decide (threads w = ∅)) as [He|Hne].
  - by exists [], w.
  - apply map_choose in Hne as (i & t & Hi).
    destruct (client_exec_inv w (OStep i refusal) HI) as (w1 & Hx & HI1).
    destruct (wind_step w i refusal t w1) as [Hm1 Hlt]; [done..|].
    destruct (IH (potential w1)) with (w := w1) as (os & w' & H1 & H2 & H3 & H4);
      [pose proof (potential_nonneg w1); lia|apply potential_nonneg|done..|].
    exists (OStep i refusal :: os), w'. split_and!; [|by unfold run in *; cbn [foldl mbind option_bind]; rewrite Hx|done..].
    cbn [winding]. by exists t, w1.
Qed.

(** C20: Disconnect brings every goroutine to its end.  Once the client has been
    told to disconnect, from any state it can reach, when what the goroutines wait
    for fails (the context ends, the closed transport returns an error) and the
    application does not connect again: the goroutines take at most forty steps
    each altogether, in any order, and they can all be run until none is left;
    then every ICE agent and transport has been closed. *)
Theorem disconnect_ends (quic : Hello.ITransport) (psk : Handshake.PreSharedKey) (api : option string)
    (o : Options) (c : Client) (os0 : list op) (w : world) :
  NewClient quic psk api o = Ok c → run (start c) os0 = Some w → manualDisconnect (client w) = true →
  (∀ os, winding w os → len os ≤ 40 * Z.of_nat (size (threads w))) ∧
  (∃ os w', winding w os ∧ run w os = Some w' ∧ threads w' = ∅ ∧
     agentsOpen (client w') = ∅ ∧ transportsOpen (client w') = ∅ ∧
     transportConn (client w') = None ∧ iceAgent (client w') = None).
Proof.
  intros Hc%client_start_inv Hw Hm. destruct (client_run_inv (start c) os0 Hc) as (w0 & Hw0 & HI).
  rewrite Hw in Hw0. apply (inj Some) in Hw0 as <-. split.
  - intros os Hos. pose proof (winding_bound _ _ Hm Hos). pose proof (potential_size w). lia.
  - destruct (winding_exists w HI Hm) as (os & w' & H1 & H2 & H3 & H4).
    exists os, w'. destruct (closed_all _ _ H4 H3) as (? & ? & ? & ? & _). by split_and!.
Qed.

End ClientProofs.

(** ** Runs of the machine *)

#[local] Existing Instance Encryption.cryptoExample.
#[local] Existing Instance Handshake.sigExample.
#[local] Existing Instance HelloProofs.x25519Example.
#[local] Existing Instance HelloProofs.timeExample.
#[local] Existing Instance HelloProofs.lruExample.
#[local] Existing Instance Codec.webrtcExample.
#[local] Existing Instance Codec.gobHeaderExample.
#[local] Existing Instance HelloProofs.gobPayloadFull.
#[local] Existing Instance Codec.gobChunksExample.

Definition demoQuic : Hello.ITransport := Hello.mkTransport "quic" false 0.

Definition demoOptions : Options := mkOptions 0 0 0 None 0 0 0 0 (bytes_of "aad") "aes-256-gcm".

Definition demoClient : Client :=
  match NewClient demoQuic (Hello.psk HelloProofs.demoClient) (Some "room"%string) demoOptions with
  | Ok c => c
  | Err _ => mkClient HelloProofs.demoClient demoOptions demoQuic EmptyString None 0 Replay.zeroWindow None None
               0 0 false None 0 false false ∅ ∅ ∅ ∅ ∅
  end.

Lemma client_demo_new : NewClient demoQuic (Hello.psk HelloProofs.demoClient) (Some "room"%string) demoOptions = Ok demoClient.
Proof. vm_compute. reflexivity. Qed.

(** The server's side of a session: its new state, its hello and its ICE answer. *)
Definition serverSide (s : Hello.Server) (d : Hello.clientDraws) (sd : Hello.serverDraws)
  : option (Hello.Server * list byte * list byte) :=
  match Hello.buildClientHello HelloProofs.demoClient 1000 d with
  | Err _ => None
  | Ok attempt =>
      match Hello.onHello s true sd (λ _, true) (Hello.ch_message attempt) with
      | Some (s, Some hello) =>
          i ← Hello.connections s !! "alice"%string;
          conn ← Hello.conns s !! i;
          let message := Codec.mkMessage
            (Some (Codec.mkHeader Codec.MessageTypeICEAnswer HelloProofs.demoServerId "alice" 1 [] ∅))
            (Some (sessionPayload EmptyString "user" "password" ["candidate"%string])) false in
          let '(_, _, encoded) := Channel.EncodeMessage (Hello.codec conn) (Some message) in
          match encoded with Ok data => Some (s, hello, data) | Err _ => None end
      | _ => None
      end
  end.

Definition demoAnswer (d : Hello.clientDraws) (ok : bool) (n : nat) : answer :=
  mkAnswer ok n (Hello.mkICEDescription "u" "p" ["c"%string]) 1000 d (λ _, true) Server.FrameHeartbeat.

Definition demoSteps (d : Hello.clientDraws) (i k n : nat) : list op :=
  replicate k (OStep i (demoAnswer d true n)).

(** A call of [connectWithContext] by thread [i] up to the start of the goroutines
    of its transport [n]. *)
Definition demoSession (d : Hello.clientDraws) (side : option (Hello.Server * list byte * list byte)) (i n : nat)
  : list op :=
  let r := Encryption.rndExample in
  match side with
  | None => []
  | Some (_, hello, data) =>
      demoSteps d i 6 n
      ++ [OServerHello i hello (r Byte.x6d) (r Byte.x6e) (r Byte.x6f) (r Byte.x70) (r Byte.x71)]
      ++ demoSteps d i 8 n ++ [OICEAnswer i data] ++ demoSteps d i 5 n
  end.

Definition demoFirst : option (Hello.Server * list byte * list byte) :=
  serverSide HelloProofs.demoServer HelloProofs.demoDraws HelloProofs.demoServerDraws.

(** A second session, with other random draws. *)
Definition demoDraws2 : Hello.clientDraws :=
  let r := Encryption.rndExample in Hello.mkClientDraws (r Byte.x81) (r Byte.x82) (r Byte.x83).

Definition demoSecond : option (Hello.Server * list byte * list byte) :=
  let r := Encryption.rndExample in
  '(s, _, _) ← demoFirst;
  serverSide s demoDraws2
    (Hello.mkServerDraws 1005 1006 1007 (r Byte.x84) (r Byte.x85) (r Byte.x86) (r Byte.x87) (r Byte.x88)
       (r Byte.x89) (r Byte.x8a) (r Byte.x8b) (r Byte.x8c)).

Definition demoStart : list op := OConnect :: demoSession HelloProofs.demoDraws demoFirst 0 7.

Definition demoConnected : list op := demoStart ++ demoSteps HelloProofs.demoDraws 0 2 7.

Definition demoFails (i : nat) : op := OStep i (demoAnswer HelloProofs.demoDraws false 7).

Definition demoWorld (os : list op) : world :=
  match run (start demoClient) os with Some w => w | None => start demoClient end.

Lemma client_demo_run os :
  match run (start demoClient) os with Some _ => true | None => false end = true →
  run (start demoClient) os = Some (demoWorld os).
Proof. unfold demoWorld. by destruct (run (start demoClient) os). Qed.

Definition demoDisconnected : list op := demoConnected ++ ODisconnect :: demoSteps HelloProofs.demoDraws 3 6 0.



Lemma disconnect_ends_witness :
  let w := demoWorld (demoConnected ++ [ODisconnect]) in
  size (threads w) = 3%nat ∧
  (∀ os, winding w os → len os ≤ 40 * Z.of_nat (size (threads w))) ∧
  ∃ os w', winding w os ∧ run w os = Some w' ∧ threads w' = ∅ ∧
    agentsOpen (client w') = ∅ ∧ transportsOpen (client w') = ∅ ∧
    transportConn (client w') = None ∧ iceAgent (client w') = None.
Proof.
  intros w. split; [vm_compute; reflexivity|].
  apply (disconnect_ends _ _ _ _ demoClient (demoConnected ++ [ODisconnect]) w client_demo_new).
  - apply client_demo_run. vm_compute. reflexivity.
  - vm_compute. reflexivity.
Defined.

(** A transport fails between the start of its goroutines and [setIsConnected(true)]:
    its reader clears the connection, the attempt then marks the client as
    connected, so the reconnect loop ends; the client stays connected without a
    transport and refuses to connect. *)
Lemma early_failure_strands_client :
  let w := demoWorld (demoStart ++ replicate 5 (demoFails 1) ++ demoSteps HelloProofs.demoDraws 0 2 7
                      ++ [demoFails 1; demoFails 2]) in
  threads w = ∅ ∧ connected (client w) = true ∧ transportConn (client w) = None ∧
  ∃ w', run w [OConnect; demoFails 0] = Some w' ∧ threads w' = ∅ ∧ connected (client w') = true.
Proof.
  intros w. split; [vm_compute; reflexivity|]. split; [vm_compute; reflexivity|].
  split; [vm_compute; reflexivity|].
  exists (mkWorld ((client w) <| manualDisconnect := false |>) ∅).
  split; vm_compute; [reflexivity|split; reflexivity].
Qed.

(** The reader of the first transport has detached it when the application calls
    [Reconnect]; the rest of its [finishTransport] runs after the new connection is
    up: it marks the client as not connected and starts a reconnect loop, whose
    attempt fails and disconnects the new transport. *)
Lemma old_reader_tears_down :
  let reconnected := demoConnected ++ [demoFails 1; demoFails 2; OReconnect] ++ demoSteps demoDraws2 2 6 8
                     ++ demoSession demoDraws2 demoSecond 2 8 ++ demoSteps demoDraws2 2 2 8 in
  let w := demoWorld reconnected in
  let w' := demoWorld (reconnected ++ demoSteps demoDraws2 1 9 9 ++ demoFails 1 :: demoSteps demoDraws2 1 5 9) in
  transportConn (client w) = Some 8%nat ∧ connected (client w) = true ∧
  transportConn (client w') = None ∧ transportsOpen (client w') = ∅.
Proof. vm_compute. split_and!; reflexivity. Qed.

End ClientProofs.
