(* ===== verification/Signaling.v ===== *)
(** * Signaling.v: names of rooms and message types, and how adapters route them
    (src/signaling/types.go; the topics of src/signaling/mqtt/utils.go,
    src/signaling/nats/utils.go and src/signaling/centrifugo/utils.go; the reconnect
    delay of src/signaling/nats/new.go)

    Every adapter maps a room and a message type to one broker topic below a
    configured prefix; the validation of the three parts is what keeps topics apart
    and free of the broker's wildcards. *)

From S2P Require Import Prelude GoString.
From Stdlib Require Import ZArith Lia String Ascii.
From stdpp Require Import base list option strings numbers.

Local Open Scope Z_scope.
Local Open Scope go_scope.

Module Signaling.

Definition MaxRoomIDLength : Z := 128.
Definition MaxMessageTypeLength : Z := 32.
Definition MaxRoutePrefixLength : Z := 128.

(** [A-Za-z0-9_-] *)
Definition nameChar (c : ascii) : bool :=
  let n := Z.of_nat (nat_of_ascii c) in
  ((65 <=? n) && (n <=? 90)) || ((97 <=? n) && (n <=? 122)) || ((48 <=? n) && (n <=? 57))
  || (n =? 95) || (n =? 45).

(** The pattern of rooms and of message types. *)
Definition roomPattern (s : string) : bool :=
  negb (bool_decide (s = EmptyString)) && GoString.all nameChar s.

Definition ValidateRoomID (roomID : string) : result unit :=
  _ ← guard_err ((slen roomID =? 0) || (MaxRoomIDLength <? slen roomID)) "invalid room ID length";
  guard_err (negb (roomPattern roomID)) "invalid room ID".

Definition ValidateRoutePrefix (prefix : string) (separator : ascii) : result unit :=
  _ ← guard_err ((slen prefix =? 0) || (MaxRoutePrefixLength <? slen prefix)) "invalid route prefix length";
  _ ← guard_err (negb (Ascii.eqb separator "/") && negb (Ascii.eqb separator ".")
                 && negb (Ascii.eqb separator ":")) "unsupported route prefix separator";
  guard_err (negb (forallb roomPattern (GoString.Split prefix separator))) "invalid route prefix".

Definition ValidateMessageType (typ : string) : result unit :=
  _ ← guard_err ((slen typ =? 0) || (MaxMessageTypeLength <? slen typ)) "invalid signaling message type length";
  guard_err (negb (roomPattern typ)) "invalid signaling message type".

(** [fmt.Sprintf] with the separator of the broker between three strings. *)
Definition route (separator : ascii) (base roomID typ : string) : string :=
  base +:+ String separator (roomID +:+ String separator typ).

Definition mqttTopic : string → string → string → string := route "/".
Definition natsSubject : string → string → string → string := route ".".
Definition centrifugoTopic : string → string → string → string := route ":".

(** The loop of the NATS reconnect delay; [None] when [fuel] is used up. *)
Fixpoint delayLoop (fuel : nat) (attempt maxDelay i delay : Z) : option Z :=
  match fuel with
  | O => None
  | S fuel =>
      if (i <? attempt) && (delay <? maxDelay) then
        if Z.quot maxDelay 2 <? delay then Some maxDelay
        else delayLoop fuel attempt maxDelay (i64 (i + 1)) (i64 (delay * 2))
      else if maxDelay <? delay then Some maxDelay
      else Some delay
  end.

Definition reconnectDelay (minDelay maxDelay attempt : Z) : option Z :=
  delayLoop 64 attempt maxDelay 1 minDelay.

(** ** Lemmas *)

Lemma roomPattern_one s sep :
  roomPattern s = true → nameChar sep = false → GoString.Split s sep = [s].
Proof.
  intros [_ H]%andb_true_iff Hs. apply GoString.Split_one. revert H. apply GoString.all_impl.
  intros c Hc. apply negb_true_iff, Ascii.eqb_neq. intros ->. congruence.
Qed.

Lemma ValidateRoomID_ok r : ValidateRoomID r = Ok () → roomPattern r = true ∧ slen r ≤ 128.
Proof.
  intros [H1 H2]%bind_ok_unit. apply guard_ok in H1, H2. unfold MaxRoomIDLength in H1.
  apply negb_false_iff in H2. b2p. done.
Qed.

Lemma ValidateMessageType_ok t : ValidateMessageType t = Ok () → roomPattern t = true ∧ slen t ≤ 32.
Proof.
  intros [H1 H2]%bind_ok_unit. apply guard_ok in H1, H2. unfold MaxMessageTypeLength in H1.
  apply negb_false_iff in H2. b2p. done.
Qed.

Lemma separator_plain sep :
  negb (Ascii.eqb sep "/") && negb (Ascii.eqb sep ".") && negb (Ascii.eqb sep ":") = false →
  nameChar sep = false.
Proof.
  intros H. apply andb_false_iff in H as [[H|H]%andb_false_iff|H];
    apply negb_false_iff, Ascii.eqb_eq in H as ->; reflexivity.
Qed.

Lemma ValidateRoutePrefix_ok p sep :
  ValidateRoutePrefix p sep = Ok () →
  forallb roomPattern (GoString.Split p sep) = true ∧ nameChar sep = false ∧ slen p ≤ 128.
Proof.
  intros [H1 [H2 H3]%bind_ok_unit]%bind_ok_unit. apply guard_ok in H1, H2, H3.
  apply separator_plain in H2. apply negb_false_iff in H3. unfold MaxRoutePrefixLength in H1. b2p. done.
Qed.

(** The segments of a route. *)
Lemma route_split sep p r t :
  roomPattern r = true → roomPattern t = true → nameChar sep = false →
  GoString.Split (route sep p r t) sep = GoString.Split p sep ++ [r; t].
Proof.
  intros Hr Ht Hs. unfold route. rewrite !GoString.Split_app.
  by rewrite (roomPattern_one r), (roomPattern_one t).
Qed.

Lemma slen_cons c t : slen (String c t) = 1 + slen t.
Proof.
  unfold slen, bytes_of. change (String.list_byte_of_string (String c t)) with
    (byte_of_ascii c :: String.list_byte_of_string t). rewrite len_cons. lia.
Qed.

Lemma slen_app s t : slen (s +:+ t) = slen s + slen t.
Proof.
  induction s as [|c s IH]; [done|]. change (String c s +:+ t) with (String c (s +:+ t)).
  rewrite !slen_cons, IH. lia.
Qed.

(** Routes keep rooms apart.  For a prefix, a room and a message type that
    [ValidateRoutePrefix], [ValidateRoomID] and [ValidateMessageType] accept, the
    topic has the segments of the prefix, then the room, then the type, each of them
    made of letters, digits, underscores and hyphens only, so without the wildcards
    of any broker; two such topics are the same only when prefix, room and type are;
    and a topic is at most 290 bytes long. *)
Theorem routes_separate (sep : ascii) (p r t p' r' t' : string) :
  ValidateRoutePrefix p sep = Ok () → ValidateRoomID r = Ok () → ValidateMessageType t = Ok () →
  ValidateRoutePrefix p' sep = Ok () → ValidateRoomID r' = Ok () → ValidateMessageType t' = Ok () →
  GoString.Split (route sep p r t) sep = GoString.Split p sep ++ [r; t] ∧
  forallb roomPattern (GoString.Split (route sep p r t) sep) = true ∧
  (route sep p r t = route sep p' r' t' → p = p' ∧ r = r' ∧ t = t') ∧
  slen (route sep p r t) ≤ 290.
Proof.
  intros (Hp & Hs & Lp)%ValidateRoutePrefix_ok [Hr Lr]%ValidateRoomID_ok [Ht Lt]%ValidateMessageType_ok
    (Hp' & _ & _)%ValidateRoutePrefix_ok [Hr' _]%ValidateRoomID_ok [Ht' _]%ValidateMessageType_ok.
  rewrite route_split by done. split_and!; [done| | |].
  - rewrite forallb_app, Hp. cbn. by rewrite Hr, Ht.
  - intros H. apply (f_equal (λ s, GoString.Split s sep)) in H. rewrite !route_split in H by done.
    change [r; t] with ([r] ++ [t]) in H. change [r'; t'] with ([r'] ++ [t']) in H.
    rewrite !(assoc_L (++)) in H. apply app_inj_2 in H as [H [= ->]]; [|done].
    apply app_inj_2 in H as [H [= ->]]; [|done]. split_and!; [|done..]. by eapply GoString.Split_inj.
  - unfold route. rewrite slen_app, slen_cons, slen_app, slen_cons. lia.
Qed.

Lemma routes_separate_witness :
  mqttTopic "sensors/telekit" "room1" "offer" = "sensors/telekit/room1/offer"%string ∧
  GoString.Split (mqttTopic "sensors/telekit" "room1" "offer") "/" =
    ["sensors"; "telekit"; "room1"; "offer"]%string.
Proof.
  split; [reflexivity|].
  destruct (routes_separate "/" "sensors/telekit" "room1" "offer" "telekit" "room2" "hello") as [H _];
    [vm_compute; reflexivity..|]. exact H.
Defined.

(** ** Reconnect delays *)

Lemma delayLoop_spec fuel attempt maxDelay i delay :
  0 < delay → 0 < maxDelay < 2 ^ 63 → delay < 2 ^ 63 → 0 ≤ i → attempt < 2 ^ 63 → i ≤ 64 →
  maxDelay < delay * 2 ^ (Z.of_nat fuel - 1) → (0 < fuel)%nat → i + Z.of_nat fuel ≤ 65 →
  delayLoop fuel attempt maxDelay i delay = Some (Z.min maxDelay (delay * 2 ^ Z.max 0 (attempt - i))).
Proof.
  revert i delay. induction fuel as [|fuel IH]; intros i delay Hd Hm Hd' Hi Ha Hi' Hf Hn Hs; [lia|].
  cbn [delayLoop]. assert (Hone : ∀ k, 0 ≤ k → 1 ≤ 2 ^ k) by (intros k Hk; pose proof (Z.pow_pos_nonneg 2 k); lia).
  case_if as E; b2p.
  - assert (Hexp : 2 ^ Z.max 0 (attempt - i) = 2 * 2 ^ Z.max 0 (attempt - (i + 1))).
    { rewrite <- Z.pow_succ_r by lia. f_equal. lia. }
    rewrite Z.quot_div_nonneg by lia. case_if as E'; b2p.
    + f_equal. rewrite Hexp. pose proof (Hone (Z.max 0 (attempt - (i + 1))) ltac:(lia)).
      pose proof (Z.mul_succ_div_gt maxDelay 2 ltac:(lia)). nia.
    + pose proof (Z.mul_div_le maxDelay 2 ltac:(lia)). rewrite !i64_small by (unfold in_i64; lia).
      destruct fuel as [|fuel].
      { cbn in Hf. lia. }
      rewrite IH; try lia.
      * f_equal. rewrite Hexp. lia.
      * replace (Z.of_nat (S (S fuel)) - 1) with (Z.succ (Z.of_nat (S fuel) - 1)) in Hf by lia.
        rewrite Z.pow_succ_r in Hf by lia. lia.
  - assert (Z.max 0 (attempt - i) = 0 ∨ maxDelay ≤ delay) as [Hz|Hle] by lia.
    + rewrite Hz. case_if as E'; b2p; f_equal; lia.
    + pose proof (Hone (Z.max 0 (attempt - i)) ltac:(lia)). case_if as E'; b2p; f_equal; nia.
Qed.

(** The NATS reconnect delay: for accepted settings the delay of an attempt is the
    minimum doubled for every attempt before it, capped at the maximum; the loop
    ends and no multiplication overflows. *)
Lemma reconnect_delay_exact minDelay maxDelay attempt :
  0 < minDelay ≤ maxDelay → maxDelay < 2 ^ 63 → attempt < 2 ^ 63 →
  reconnectDelay minDelay maxDelay attempt =
    Some (Z.min maxDelay (minDelay * 2 ^ Z.max 0 (attempt - 1))).
Proof.
  intros Hd Hm Ha. apply delayLoop_spec; lia.
Qed.

End Signaling.
