(* ===== verification/Broker.v ===== *)
(** * Broker.v: the room-scoped WebSocket broker
    (src/signaling/websocket/broker/broker.go)

    The broker as a machine: a [world] is the broker with its goroutines, an HTTP
    handler per connection and a writer per admitted client; a step runs one of
    them between two operations on shared state (a critical section, an atomic
    operation, a channel operation).  Rooms and clients are shared by pointer, so
    they live in heaps.  What the network answers is part of the step.  The loop
    around the compare-and-swap of [enqueue] is one atomic operation. *)

From S2P Require Import Prelude GoString Signaling Threads.
From Stdlib Require Import ZArith Lia String Ascii.
From stdpp Require Import base list option strings numbers gmap.

Local Open Scope Z_scope.
Local Open Scope go_scope.

Module Broker.
Import Threads.

Record roomState := mkRoom {
  closed : bool;
  clients : gset nat
}.

#[export] Instance eta_room : Eta roomState := fun r => mkRoom (closed r) (clients r).

(** A message of some type; the channel [send] is a list of at most
    [queueMessages] messages. *)
Definition outboundMessage : Type := Z * list byte.

Record brokerClient := mkClient {
  open : bool;                       (* the connection *)
  send : list outboundMessage;
  done : bool;
  queuedBytes : Z;
  maxQueueBytes : Z
}.

#[export] Instance eta_client : Eta brokerClient := fun c =>
  mkClient (open c) (send c) (done c) (queuedBytes c) (maxQueueBytes c).

Record Broker := mkBroker {
  rooms : gmap string nat;
  ipCounts : gmap string Z;
  roomCounts : gmap string Z;
  connectionsPerRoom : Z;
  connectionsPerIP : Z;
  queueMessages : Z;
  queueBytes : Z;
  states : gmap nat roomState;       (* the heaps *)
  peers : gmap nat brokerClient
}.

#[export] Instance eta_broker : Eta Broker := fun b =>
  mkBroker (rooms b) (ipCounts b) (roomCounts b) (connectionsPerRoom b) (connectionsPerIP b)
    (queueMessages b) (queueBytes b) (states b) (peers b).

(** The options that the model depends on. *)
Inductive BrokerOption :=
| WithConnectionLimits (perRoom perIP : Z)
| WithClientQueueLimits (messages bytes : Z).

Definition applyOption (b : Broker) (o : BrokerOption) : Broker :=
  match o with
  | WithConnectionLimits perRoom perIP =>
      let b := if 0 <? perRoom then b <| connectionsPerRoom := perRoom |> else b in
      if 0 <? perIP then b <| connectionsPerIP := perIP |> else b
  | WithClientQueueLimits messages bytes =>
      let b := if 0 <? messages then b <| queueMessages := messages |> else b in
      if 0 <? bytes then b <| queueBytes := bytes |> else b
  end.

Definition NewBroker (opts : list BrokerOption) : Broker :=
  foldl applyOption (mkBroker ∅ ∅ ∅ 256 32 64 (Z.shiftl 16 20) ∅ ∅) opts.

Definition remoteIP (remoteAddr : string) : string :=
  match GoString.SplitHostPort remoteAddr with Ok (host, _) => host | Err _ => remoteAddr end.

(** ** Counts *)

Definition get (m : gmap string Z) (k : string) : Z := default 0 (m !! k).

Definition reserve (b : Broker) (roomID ip : string) : Broker * bool :=
  let roomCount := get (roomCounts b) roomID in
  let ipCount := get (ipCounts b) ip in
  if (connectionsPerRoom b <=? roomCount) || (connectionsPerIP b <=? ipCount) then (b, false)
  else (b <| roomCounts ::= <[roomID := roomCount + 1]> |> <| ipCounts ::= <[ip := ipCount + 1]> |>, true).

Definition decrease (m : gmap string Z) (k : string) : gmap string Z :=
  match m !! k with
  | Some n => if n <=? 1 then delete k m else <[k := n - 1]> m
  | None => m
  end.

Definition release (b : Broker) (roomID ip : string) : Broker :=
  b <| ipCounts ::= (λ m, decrease m ip) |> <| roomCounts ::= (λ m, decrease m roomID) |>.

(** ** Rooms *)

Definition updateRoom (b : Broker) (room : nat) (f : roomState → roomState) : Broker :=
  b <| states ::= alter f room |>.

(** The room ID has been validated by the handler. *)
Definition ensureRoom (b : Broker) (roomID : string) : Broker * nat :=
  match rooms b !! roomID with
  | Some room => (b, room)
  | None =>
      let room := fresh (dom (states b)) in
      (b <| states ::= <[room := mkRoom false ∅]> |> <| rooms ::= <[roomID := room]> |>, room)
  end.

(** [replaceRoom], and the second half of [Broker.remove]. *)
Definition replaceRoom (b : Broker) (roomID : string) (room : nat) : Broker :=
  if bool_decide (rooms b !! roomID = Some room) then b <| rooms ::= delete roomID |> else b.

Definition room_add (b : Broker) (room client : nat) : Broker * bool :=
  match states b !! room with
  | Some r =>
      if closed r then (b, false)
      else (updateRoom b room (λ r, r <| clients ::= (λ s, {[client]} ∪ s) |>), true)
  | None => (b, false)
  end.

Definition room_remove (b : Broker) (room client : nat) : Broker * bool :=
  match states b !! room with
  | Some r =>
      let left := clients r ∖ {[client]} in
      let empty := bool_decide (left = ∅) in
      (updateRoom b room (λ r, mkRoom (closed r || empty) left), empty)
  | None => (b, false)
  end.

(** ** Clients *)

Definition updateClient (b : Broker) (client : nat) (f : brokerClient → brokerClient) : Broker :=
  b <| peers ::= alter f client |>.

Definition client_close (b : Broker) (client : nat) : Broker :=
  updateClient b client (λ c, c <| done := true |> <| open := false |>).

(** The first half of [enqueue]. *)
Definition enqueueReserve (b : Broker) (client : nat) (m : outboundMessage) : Broker * bool :=
  match peers b !! client with
  | Some c =>
      if maxQueueBytes c - queuedBytes c <? len m.2 then (b, false)
      else (updateClient b client (λ c, c <| queuedBytes ::= (λ n, n + len m.2) |>), true)
  | None => (b, false)
  end.

(** The select; [choice] resolves it when both channels are ready. *)
Definition enqueueSelect (b : Broker) (client : nat) (m : outboundMessage) (choice : bool) : Broker * bool :=
  match peers b !! client with
  | Some c =>
      if (len (send c) <? queueMessages b) && (negb (done c) || choice)
      then (updateClient b client (λ c, c <| send ::= (λ l, l ++ [m]) |>), true)
      else (b, false)
  | None => (b, false)
  end.

(** ** The handler *)

(** Where [ServeHTTP] stands. *)
Inductive stage :=
| AtUpgrade
| AtEnsure (again : bool)
| AtAdd (again : bool) (room : nat)
| AtReplace (room : nat)
| AtRead (room : nat)
| AtLookup (room : nat) (m : outboundMessage)
| AtSnapshot (room found : nat) (m : outboundMessage)
| AtReserve (room : nat) (m : outboundMessage) (rest : list nat)
| AtSelect (room : nat) (m : outboundMessage) (client : nat) (rest : list nat)
| AtUndo (room : nat) (m : outboundMessage) (client : nat) (rest : list nat)
| AtKick (room : nat) (m : outboundMessage) (client : nat) (rest : list nat)
| AtRemove (room : nat)
| AtDelete (room : nat)
| AtClose
| AtDrop
| AtRelease.

(** A handler, and a writer with the message it is writing. *)
Inductive thread :=
| TServe (roomID ip : string) (client : nat) (st : stage)
| TWrite (client : nat) (writing : option outboundMessage).

(** What the outside answers: whether the call succeeded, the message that was read,
    and how Go resolves a select. *)
Record answer := mkAnswer {
  a_ok : bool;
  a_message : outboundMessage;
  a_choice : bool
}.

Definition outcome : Type := Broker * option thread * list thread.

(** [broadcast], which returns to the loop of its handler. *)
Definition broadcastStep (b : Broker) (roomID ip : string) (client : nat) (st : stage) (a : answer) : outcome :=
  let go b st := (b, Some (TServe roomID ip client st), []) in
  match st with
  | AtLookup room m =>
      match rooms b !! roomID with
      | Some found => go b (AtSnapshot room found m)
      | None => go b (AtRead room)
      end
  | AtSnapshot room found m =>
      match states b !! found with
      | Some r => go b (AtReserve room m (elements (clients r)))
      | None => go b (AtRead room)
      end
  | AtReserve room m [] => go b (AtRead room)
  | AtReserve room m (c :: rest) =>
      let '(b, ok) := enqueueReserve b c m in
      go b (if ok then AtSelect room m c rest else AtKick room m c rest)
  | AtSelect room m c rest =>
      let '(b, ok) := enqueueSelect b c m (a_choice a) in
      go b (if ok then AtReserve room m rest else AtUndo room m c rest)
  | AtUndo room m c rest =>
      go (updateClient b c (λ c, c <| queuedBytes ::= (λ n, n - len m.2) |>)) (AtKick room m c rest)
  | AtKick room m c rest => go (client_close b c) (AtReserve room m rest)
  | _ => go b st
  end.

(** [Broker.remove]. *)
Definition removeStep (b : Broker) (roomID ip : string) (client : nat) (st : stage) : outcome :=
  let go b st := (b, Some (TServe roomID ip client st), []) in
  match st with
  | AtRemove room =>
      let '(b, empty) := room_remove b room client in
      go b (if empty then AtDelete room else AtClose)
  | AtDelete room => go (replaceRoom b roomID room) AtClose
  | _ => go b st
  end.

(** The handler has not been given a client before the upgrade. *)
Definition serveStep (b : Broker) (roomID ip : string) (client : nat) (st : stage) (a : answer) : outcome :=
  let go b st := (b, Some (TServe roomID ip client st), []) in
  match st with
  | AtUpgrade =>
      if a_ok a then
        let c := fresh (dom (peers b)) in
        (b <| peers ::= <[c := mkClient true [] false 0 (queueBytes b)]> |>,
         Some (TServe roomID ip c (AtEnsure false)), [])
      else go b AtRelease
  | AtEnsure again => let '(b, room) := ensureRoom b roomID in go b (AtAdd again room)
  | AtAdd again room =>
      let '(b, ok) := room_add b room client in
      if ok then (b, Some (TServe roomID ip client (AtRead room)), [TWrite client None])
      else go b (if again then AtDrop else AtReplace room)
  | AtReplace room => go (replaceRoom b roomID room) (AtEnsure true)
  | AtRead room => go b (if a_ok a then AtLookup room (a_message a) else AtRemove room)
  | AtLookup _ _ | AtSnapshot _ _ _ | AtReserve _ _ _ | AtSelect _ _ _ _ | AtUndo _ _ _ _ | AtKick _ _ _ _ =>
      broadcastStep b roomID ip client st a
  | AtRemove _ | AtDelete _ => removeStep b roomID ip client st
  | AtClose => go (client_close b client) AtRelease
  | AtDrop => go (updateClient b client (λ c, c <| open := false |>)) AtRelease
  | AtRelease => (release b roomID ip, None, [])
  end.

(** An iteration of [writeLoop]: without a message, [a_choice] prefers the end or
    the next message; when neither is ready it is a tick, and [a_ok] says whether
    the write or the ping succeeded. *)
Definition writeStep (b : Broker) (client : nat) (writing : option outboundMessage) (a : answer) : outcome :=
  let go b w := (b, Some (TWrite client w), []) in
  match writing with
  | Some m =>
      let b := updateClient b client (λ c, c <| queuedBytes ::= (λ n, n - len m.2) |>) in
      if a_ok a then go b None else (client_close b client, None, [])
  | None =>
      match peers b !! client with
      | None => (b, None, [])
      | Some c =>
          match send c with
          | m :: rest =>
              if done c && negb (a_choice a) then (b, None, [])
              else go (updateClient b client (λ c, c <| send := rest |>)) (Some m)
          | [] =>
              if done c then (b, None, [])
              else if a_ok a then go b None else (client_close b client, None, [])
          end
      end
  end.

Definition threadStep (b : Broker) (t : thread) (a : answer) : outcome :=
  match t with
  | TServe roomID ip client st => serveStep b roomID ip client st a
  | TWrite client w => writeStep b client w a
  end.

(** ** The machine *)

Record world := mkWorld {
  broker : Broker;
  threads : gmap nat thread
}.

(** A request with its path, the address it comes from and the verdict of the
    authorization, or a step of a goroutine. *)
Inductive op :=
| OServe (path remoteAddr : string) (authorized : bool)
| OStep (i : nat) (a : answer).

Definition exec (w : world) (o : op) : world :=
  let b := broker w in
  let m := threads w in
  match o with
  | OServe path remoteAddr authorized =>
      let roomID := GoString.Trim path "/" in
      if negb (is_ok (Signaling.ValidateRoomID roomID)) || negb authorized then w
      else
        let ip := remoteIP remoteAddr in
        let '(b, ok) := reserve b roomID ip in
        if ok then mkWorld b (spawn m (TServe roomID ip 0 AtUpgrade)) else w
  | OStep i a =>
      match m !! i with
      | None => w
      | Some t =>
          let '(b, t, new) := threadStep b t a in
          let m := match t with Some t => <[i := t]> m | None => delete i m end in
          mkWorld b (foldl spawn m new)
      end
  end.

Definition run (w : world) (os : list op) : world := foldl exec w os.

Definition start (b : Broker) : world := mkWorld b ∅.

End Broker.
