(* ===== verification/BrokerProofs.v ===== *)
(** * BrokerProofs.v: invariants of the broker machine of Broker.v

    Four independent invariants: the counts of connections, the queues of the
    clients, the room table, and the open connections. *)

From S2P Require Import Prelude GoString Signaling Threads Broker.
From Stdlib Require Import ZArith Lia String.
From stdpp Require Import base list option strings numbers gmap.

Local Open Scope Z_scope.
Local Open Scope go_scope.

Module BrokerProofs.
Import Threads Broker.

(** An invariant that the admission of a request and every step of a goroutine keep
    holds in every world that can be reached. *)
Record inductive (I : Broker → gmap nat thread → Prop) : Prop := {
  ind_admit : ∀ b m roomID ip b', I b m → reserve b roomID ip = (b', true) →
    I b' (spawn m (TServe roomID ip 0 AtUpgrade));
  ind_step : ∀ b m i t a b' t' new, I b m → m !! i = Some t → threadStep b t a = (b', t', new) →
    I b' (after m i t' new)
}.

Lemma inductive_run I w os :
  inductive I → I (broker w) (threads w) → I (broker (run w os)) (threads (run w os)).
Proof.
  intros HI. unfold run. revert w. induction os as [|o os IH]; intros w Hw; [done|].
  cbn [foldl]. apply IH. destruct w as [b m]. cbn in Hw. destruct o as [path remote auth|i a]; cbn.
  - case_if as E; [done|]. destruct (reserve b _ _) as [b' []] eqn:Hr; cbn; [|done].
    by eapply (ind_admit _ HI).
  - destruct (m !! i) as [t|] eqn:Hi; [|done]. destruct (threadStep b t a) as [[b' t'] new] eqn:Hs.
    cbn. by eapply (ind_step _ HI).
Qed.

(** ** The counts of connections *)

Definition inRoom (r : string) (t : thread) : bool :=
  match t with TServe roomID _ _ _ => bool_decide (roomID = r) | TWrite _ _ => false end.

Definition fromIP (a : string) (t : thread) : bool :=
  match t with TServe _ ip _ _ => bool_decide (ip = a) | TWrite _ _ => false end.

(** A table of counts holds the positive ones. *)
Definition counts_ok (m : gmap string Z) (limit : Z) (f : string → Z) : Prop :=
  (∀ k n, m !! k = Some n → 0 < n ≤ limit) ∧ ∀ k, get m k = f k.

Lemma counts_add m limit f f' k :
  counts_ok m limit f → get m k < limit → 0 ≤ f k →
  (∀ j, f' j = f j + count (bool_decide (k = j))) →
  counts_ok (<[k := get m k + 1]> m) limit f'.
Proof.
  intros [H1 H2] Hlt Hf Hf'. pose proof (H2 k) as Hk. split.
  - intros j n [[<- <-]|[Hne Hj]]%lookup_insert_Some; [lia|by eapply H1].
  - intros j. rewrite Hf', <- H2. unfold get. destruct (decide (k = j)) as [<-|Hne].
    + rewrite lookup_insert_eq, bool_decide_true by done. done.
    + rewrite lookup_insert_ne, bool_decide_false by done. cbn. lia.
Qed.

Lemma counts_remove m limit f f' k :
  counts_ok m limit f → 0 < f k → (∀ j, f' j = f j - count (bool_decide (k = j))) →
  counts_ok (decrease m k) limit f'.
Proof.
  intros [H1 H2] Hf Hf'. pose proof (H2 k) as Hk. unfold counts_ok, get, decrease in *.
  destruct (m !! k) as [n|] eqn:Hn; cbn in Hk; [|lia]. pose proof (H1 _ _ Hn) as Hpos. case_if as E; b2p.
  - split.
    + intros j x [Hne Hj]%lookup_delete_Some. by eapply H1.
    + intros j. rewrite Hf', <- H2. destruct (decide (k = j)) as [<-|Hne].
      * rewrite lookup_delete_eq, bool_decide_true, Hn by done. cbn. lia.
      * rewrite lookup_delete_ne, bool_decide_false by done. cbn. lia.
  - split.
    + intros j x [[<- <-]|[Hne Hj]]%lookup_insert_Some; [lia|by eapply H1].
    + intros j. rewrite Hf', <- H2. destruct (decide (k = j)) as [<-|Hne].
      * rewrite lookup_insert_eq, bool_decide_true, Hn by done. cbn. lia.
      * rewrite lookup_insert_ne, bool_decide_false by done. cbn. lia.
Qed.

Lemma counts_ext m limit f f' : counts_ok m limit f → (∀ j, f' j = f j) → counts_ok m limit f'.
Proof. intros [H1 H2] Hf. split; [done|]. intros k. by rewrite Hf. Qed.

Record counted (b : Broker) (m : gmap nat thread) : Prop := {
  ct_rooms : counts_ok (roomCounts b) (connectionsPerRoom b) (λ r, msum (λ t, count (inRoom r t)) m);
  ct_ips : counts_ok (ipCounts b) (connectionsPerIP b) (λ a, msum (λ t, count (fromIP a t)) m)
}.

(** What a step does to the counts: nothing, or the handler releases its two. *)
Record same_counts (b b' : Broker) : Prop := {
  sc_rooms : roomCounts b' = roomCounts b;
  sc_ips : ipCounts b' = ipCounts b;
  sc_perRoom : connectionsPerRoom b' = connectionsPerRoom b;
  sc_perIP : connectionsPerIP b' = connectionsPerIP b
}.

Definition writer (t : thread) : Prop := match t with TWrite _ _ => True | TServe _ _ _ _ => False end.

Lemma serveStep_counts b roomID ip c st a b' t' new :
  serveStep b roomID ip c st a = (b', t', new) →
  (st = AtRelease ∧ b' = release b roomID ip ∧ t' = None ∧ new = []) ∨
  (same_counts b b' ∧ (∃ c' st', t' = Some (TServe roomID ip c' st')) ∧ Forall writer new).
Proof.
  unfold serveStep, broadcastStep, removeStep, ensureRoom, room_add, room_remove, replaceRoom, enqueueReserve, enqueueSelect.
  intros H. destruct st as [| | | | | | |? ? [|? ?]| | | | | | | |]; repeat case_match; simplify_eq; auto;
    (right; split_and!; [by split|eauto|repeat constructor]).
Qed.

Lemma writeStep_counts b c w a b' t' new :
  writeStep b c w a = (b', t', new) →
  same_counts b b' ∧ (∀ u, t' = Some u → writer u) ∧ new = [].
Proof.
  unfold writeStep. intros H. repeat case_match; simplify_eq; (split_and!; [by split|by intros u [= <-]|done]).
Qed.

Lemma writers_zero (f : thread → bool) new :
  (∀ t, writer t → f t = false) → Forall writer new → foldr (λ t n, count (f t) + n) 0 new = 0.
Proof.
  intros Hf. induction 1 as [|t new Ht Hn IH]; [done|]. cbn. rewrite Hf by done. cbn. exact IH.
Qed.

Lemma counted_inductive : inductive counted.
Proof.
  split.
  - intros b m roomID ip b' [HR HA] H. unfold reserve in H. destruct (_ || _) eqn:E in H; [done|]. simplify_eq. b2p.
    assert (Hn : ∀ f, 0 ≤ msum (λ t, count (f t)) m).
    { intros f. apply msum_nonneg. intros i t _. by destruct (f t). }
    split; cbn.
    + eapply counts_add; [exact HR|lia|apply Hn|]. intros r. cbn.
      unfold spawn. rewrite msum_insert by (apply not_elem_of_dom, is_fresh). cbn. lia.
    + eapply counts_add; [exact HA|lia|apply Hn|]. intros r. cbn.
      unfold spawn. rewrite msum_insert by (apply not_elem_of_dom, is_fresh). cbn. lia.
  - intros b m i t a b' t' new [HR HA] Hi H.
    assert (Hpos : ∀ f, f t = true → 0 < msum (λ t, count (f t)) m).
    { intros f Hf. pose proof (msum_ge (λ t, count (f t)) m i t) as Hge. cbn in Hge. rewrite Hf in Hge.
      cbn in Hge. enough (1 ≤ msum (λ t, count (f t)) m) by lia. apply Hge; [|done].
      intros j u _. by destruct (f u). }
    destruct t as [roomID ip c st|c w]; cbn in H.
    + destruct (serveStep_counts _ _ _ _ _ _ _ _ _ H) as [(-> & -> & -> & ->)|([E1 E2 E3 E4] & (c' & st' & ->) & Hn)].
      * split; cbn; (eapply counts_remove; [done|apply Hpos; by cbn; rewrite bool_decide_true|]);
          intros j; cbn beta; rewrite (msum_after _ _ _ _ _ _ Hi); cbn; lia.
      * split; rewrite ?E1, ?E2, ?E3, ?E4; (eapply counts_ext; [done|]); intros j; cbn beta;
          rewrite (msum_after _ _ _ _ _ _ Hi), writers_zero by (done || by intros []); cbn; lia.
    + destruct (writeStep_counts _ _ _ _ _ _ _ H) as ([E1 E2 E3 E4] & Hw & ->).
      split; rewrite ?E1, ?E2, ?E3, ?E4; (eapply counts_ext; [done|]); intros j; cbn beta;
        rewrite (msum_after _ _ _ _ _ _ Hi); cbn; (destruct t' as [u|]; [|lia]);
        (destruct u; [by destruct (Hw _ eq_refl)|cbn; lia]).
Qed.

(** ** The queues of the clients *)

Definition sizes (l : list outboundMessage) : Z := foldr (λ m n, len m.2 + n) 0 l.

#[local] Arguments sizes : simpl never.

(** The bytes of client [c] a goroutine has reserved or taken out of the queue. *)
Definition held (c : nat) (t : thread) : Z :=
  match t with
  | TServe _ _ _ (AtSelect _ m c' _) | TServe _ _ _ (AtUndo _ m c' _) | TWrite c' (Some m) =>
      if bool_decide (c' = c) then len m.2 else 0
  | _ => 0
  end.

(** The clients a goroutine points to. *)
Definition knows (t : thread) (c : nat) : Prop :=
  match t with
  | TWrite c' _ => c = c'
  | TServe _ _ c' st =>
      match st with
      | AtUpgrade | AtRelease => False
      | AtReserve _ _ rest => c = c' ∨ c ∈ rest
      | AtSelect _ _ d rest | AtUndo _ _ d rest | AtKick _ _ d rest => c = c' ∨ c = d ∨ c ∈ rest
      | _ => c = c'
      end
  end.

Record queue_ok (b : Broker) (n : Z) (cl : brokerClient) : Prop := {
  q_bytes : queuedBytes cl = sizes (send cl) + n;
  q_limit : queuedBytes cl ≤ queueBytes b;
  q_max : maxQueueBytes cl = queueBytes b;
  q_len : len (send cl) ≤ queueMessages b
}.

Record queued (b : Broker) (m : gmap nat thread) : Prop := {
  qd_messages : 0 ≤ queueMessages b;
  qd_bytes : 0 ≤ queueBytes b;
  qd_known : ∀ i t c, m !! i = Some t → knows t c → is_Some (peers b !! c);
  qd_members : ∀ r st c, states b !! r = Some st → c ∈ clients st → is_Some (peers b !! c);
  qd_queue : ∀ c cl, peers b !! c = Some cl → queue_ok b (msum (held c) m) cl
}.

Lemma held_nonneg c t : 0 ≤ held c t.
Proof.
  pose proof (λ (l : list byte), len_nonneg l). destruct t as [? ? ? []|? []]; cbn; try lia; case_if as E; auto; lia.
Qed.

Lemma sizes_nonneg l : 0 ≤ sizes l.
Proof.
  induction l as [|x l IH]; [done|]. change (sizes (x :: l)) with (len x.2 + sizes l).
  pose proof (len_nonneg x.2). lia.
Qed.

Lemma sizes_app l l' : sizes (l ++ l') = sizes l + sizes l'.
Proof.
  induction l as [|x l IH]; [done|]. change (sizes ((x :: l) ++ l')) with (len x.2 + sizes (l ++ l')).
  change (sizes (x :: l)) with (len x.2 + sizes l). rewrite IH. lia.
Qed.

Lemma held_unknown c t : ¬ knows t c → held c t = 0.
Proof.
  destruct t as [? ? ? []|? []]; cbn; try done; intros H; case_bool_decide; try done; subst; destruct H; auto.
Qed.

(** What a step does to the queues. *)
Record qmoves (b b' : Broker) (t : thread) (t' : option thread) (new : list thread) : Prop := {
  qm_messages : queueMessages b' = queueMessages b;
  qm_bytes : queueBytes b' = queueBytes b;
  qm_kept : ∀ c, is_Some (peers b !! c) → is_Some (peers b' !! c);
  qm_new : ∀ u, u ∈ new → ∀ c, held c u = 0 ∧ (knows u c → knows t c);
  qm_known : ∀ u c, t' = Some u → knows u c → knows t c ∨ is_Some (peers b' !! c);
  qm_members : ∀ r st c, states b' !! r = Some st → c ∈ clients st →
    (∃ st0, states b !! r = Some st0 ∧ c ∈ clients st0) ∨ knows t c;
  qm_queue : ∀ c cl', peers b' !! c = Some cl' →
    let h := match t' with Some u => held c u | None => 0 end in
    (peers b !! c = None ∧ cl' = mkClient true [] false 0 (queueBytes b) ∧ h = 0) ∨
    (∃ cl, peers b !! c = Some cl ∧
       queuedBytes cl' - sizes (send cl') - h = queuedBytes cl - sizes (send cl) - held c t ∧
       maxQueueBytes cl' = maxQueueBytes cl ∧
       (queuedBytes cl' ≤ maxQueueBytes cl ∨ queuedBytes cl' ≤ queuedBytes cl) ∧
       (len (send cl') ≤ queueMessages b ∨ len (send cl') ≤ len (send cl)))
}.

Lemma qmoves_queued b b' m i t t' new :
  queued b m → m !! i = Some t → qmoves b b' t t' new → queued b' (after m i t' new).
Proof.
  intros HI Hi HM.
  assert (Hnew : ∀ c, foldr (λ t n, held c t + n) 0 new = 0).
  { intros c. pose proof (qm_new _ _ _ _ _ HM) as Hn. clear -Hn. induction new as [|u new IH]; [done|].
    cbn. rewrite (proj1 (Hn u ltac:(by left) c)). apply IH. intros v Hv. apply Hn. by right. }
  split.
  - rewrite (qm_messages _ _ _ _ _ HM). apply HI.
  - rewrite (qm_bytes _ _ _ _ _ HM). apply HI.
  - intros j u c [[_ Hj]|[[_ Hu]|[_ Hin]]]%after_inv Hk.
    + apply (qm_kept _ _ _ _ _ HM). by eapply (qd_known _ _ HI).
    + destruct (qm_known _ _ _ _ _ HM _ _ Hu Hk) as [Ht|?]; [|done].
      apply (qm_kept _ _ _ _ _ HM). by eapply (qd_known _ _ HI).
    + apply (qm_kept _ _ _ _ _ HM). eapply (qd_known _ _ HI); [done|].
      by apply (proj2 (qm_new _ _ _ _ _ HM _ Hin c)).
  - intros r st c Hr Hc. apply (qm_kept _ _ _ _ _ HM).
    destruct (qm_members _ _ _ _ _ HM _ _ _ Hr Hc) as [(st0 & Hs & ?)|?];
      [by eapply (qd_members _ _ HI)|by eapply (qd_known _ _ HI)].
  - intros c cl' Hc. rewrite (msum_after _ _ _ _ _ _ Hi), Hnew.
    destruct (qm_queue _ _ _ _ _ HM _ _ Hc) as [(Hno & -> & Hh)|(cl & Hcl & Hq & Hmax & Hlim & Hlen)].
    + assert (Hz : ∀ u, some_thread m (eq u) → held c u = 0).
      { intros u (j & ? & Hj & <-). apply held_unknown. intros Hk.
        destruct (qd_known _ _ HI _ _ _ Hj Hk) as [? ?]. congruence. }
      assert (msum (held c) m = 0) as Hm0.
      { apply msum_zero. intros j u Hj. apply Hz. by exists j, u. }
      rewrite (Hz t) by (by exists i, t). destruct HM. split; cbn; rewrite ?qm_messages0, ?qm_bytes0;
        pose proof (qd_messages _ _ HI); pose proof (qd_bytes _ _ HI); rewrite ?len_nil;
        try change (sizes []) with 0; lia.
    + pose proof (qd_queue _ _ HI _ _ Hcl) as [Q1 Q2 Q3 Q4]. destruct HM.
      split; rewrite ?qm_messages0, ?qm_bytes0; lia.
Qed.

Definition heldBy (c : nat) (t' : option thread) : Z := match t' with Some u => held c u | None => 0 end.

Definition knownBy (t' : option thread) (c : nat) : Prop := match t' with Some u => knows u c | None => False end.

(** A step that leaves the clients alone. *)
Lemma qmoves_same b b' t t' new :
  peers b' = peers b → queueMessages b' = queueMessages b → queueBytes b' = queueBytes b →
  (∀ r st c, states b' !! r = Some st → c ∈ clients st →
     (∃ st0, states b !! r = Some st0 ∧ c ∈ clients st0) ∨ knows t c) →
  (∀ c, heldBy c t' = held c t) →
  (∀ c, knownBy t' c → knows t c ∨ is_Some (peers b' !! c)) →
  (∀ u, u ∈ new → ∀ c, held c u = 0 ∧ (knows u c → knows t c)) →
  qmoves b b' t t' new.
Proof.
  intros HP H1 H2 H3 H4 H5 H6. split; try done.
  - by rewrite HP.
  - intros u c -> Hk. by apply H5.
  - intros c cl'. rewrite HP. intros Hc. right. exists cl'. split; [done|].
    change (match t' with Some u => held c u | None => 0 end) with (heldBy c t'). rewrite H4.
    split_and!; done || lia.
Qed.

(** A step that changes one client. *)
Lemma qmoves_update b t t' c f :
  (∀ d, d ≠ c → heldBy d t' = held d t) →
  (∀ cl, peers b !! c = Some cl →
     queuedBytes (f cl) - sizes (send (f cl)) - heldBy c t' = queuedBytes cl - sizes (send cl) - held c t ∧
     maxQueueBytes (f cl) = maxQueueBytes cl ∧
     (queuedBytes (f cl) ≤ maxQueueBytes cl ∨ queuedBytes (f cl) ≤ queuedBytes cl) ∧
     (len (send (f cl)) ≤ queueMessages b ∨ len (send (f cl)) ≤ len (send cl))) →
  (∀ d, knownBy t' d → knows t d) →
  qmoves b (updateClient b c f) t t' [].
Proof.
  intros H1 H2 H3. split; cbn; try done.
  - intros d [x Hx]. rewrite lookup_alter. destruct (decide (c = d)) as [<-|]; rewrite Hx; cbn; eauto.
  - intros u Hu%elem_of_nil. done.
  - intros u d -> Hk. left. by apply H3.
  - intros r st d Hr Hd. left. by exists st.
  - intros d cl'. rewrite lookup_alter. destruct (decide (c = d)) as [<-|Hne].
    + destruct (peers b !! c) as [cl|] eqn:Hc; [|done]. cbn. intros [= <-]. right. exists cl.
      split; [done|]. by apply H2.
    + intros Hd. right. exists cl'. split; [done|].
      change (match t' with Some u => held d u | None => 0 end) with (heldBy d t').
      rewrite H1 by done. split_and!; done || lia.
Qed.

Local Ltac qsame := apply qmoves_same; cbn; try done; first [by eauto|by auto|by intros ? ?%elem_of_nil].

Lemma enqueueReserve_moves b roomID ip c room m d rest b' ok :
  enqueueReserve b d m = (b', ok) →
  qmoves b b' (TServe roomID ip c (AtReserve room m (d :: rest)))
    (Some (TServe roomID ip c (if ok then AtSelect room m d rest else AtKick room m d rest))) [].
Proof.
  assert (Hk : ∀ x, x = c ∨ x = d ∨ x ∈ rest → x = c ∨ x ∈ d :: rest).
  { intros x. rewrite elem_of_cons. tauto. }
  unfold enqueueReserve. intros H. destruct (peers b !! d) as [cl|] eqn:Hd;
    [destruct (_ <? _) eqn:E in H|]; simplify_eq; try qsame.
  b2p. apply qmoves_update; cbn; [|intros x Hx; simplify_eq; cbn|done].
  - intros x Hx. by rewrite bool_decide_false.
  - rewrite bool_decide_true by done. split_and!; [lia|done|left; lia|right; lia].
Qed.

Lemma enqueueSelect_moves b roomID ip c room m d rest choice b' ok :
  enqueueSelect b d m choice = (b', ok) →
  qmoves b b' (TServe roomID ip c (AtSelect room m d rest))
    (Some (TServe roomID ip c (if ok then AtReserve room m rest else AtUndo room m d rest))) [].
Proof.
  unfold enqueueSelect. intros H. destruct (peers b !! d) as [cl|] eqn:Hd;
    [destruct (_ && _) eqn:E in H|]; simplify_eq; try qsame.
  b2p. apply qmoves_update; cbn; [|intros x Hx; simplify_eq; cbn|tauto].
  - intros x Hx. by rewrite bool_decide_false.
  - rewrite bool_decide_true, sizes_app by done. change (sizes [m]) with (len m.2 + 0).
    split_and!; [lia|done|right; lia|left]. unfold len in *. rewrite length_app. cbn [length]. lia.
Qed.

Lemma close_moves b t t' c :
  (∀ d, heldBy d t' = held d t) → (∀ d, knownBy t' d → knows t d) →
  qmoves b (client_close b c) t t' [].
Proof.
  intros H1 H2. apply qmoves_update; [auto| |done]. intros cl Hc. cbn. rewrite H1.
  split_and!; [lia|done|right; lia|right; lia].
Qed.

Lemma settle_moves b t t' c n :
  (∀ d, heldBy d t' = held d t - if bool_decide (c = d) then n else 0) → 0 ≤ n →
  (∀ d, knownBy t' d → knows t d) →
  qmoves b (updateClient b c (λ c, c <| queuedBytes ::= (λ q, q - n) |>)) t t' [].
Proof.
  intros H1 Hn H2. apply qmoves_update; [| |done].
  - intros d Hd. rewrite H1, bool_decide_false by done. lia.
  - intros cl Hc. cbn. rewrite H1, bool_decide_true by done. split_and!; [lia|done|right; lia|right; lia].
Qed.

Lemma serveStep_moves b m roomID ip c st a b' t' new :
  queued b m → serveStep b roomID ip c st a = (b', t', new) →
  qmoves b b' (TServe roomID ip c st) t' new.
Proof.
  intros HI H. destruct st as [|again|again room|room|room|room x|room found x|room x [|d rest]|room x d rest|room x d rest|room x d rest|room|room| | |];
    cbn in H.
  - destruct (a_ok a); simplify_eq; [|qsame]. split; cbn; try done.
    + intros d Hd. destruct (decide (d = fresh (dom (peers b)))) as [->|Hne];
        [rewrite lookup_insert_eq; eauto|by rewrite lookup_insert_ne].
    + intros u Hu%elem_of_nil. done.
    + intros u d [= <-] ->. right. rewrite lookup_insert_eq. eauto.
    + intros r s d Hr Hd. left. eauto.
    + intros d cl' [[<- <-]|[Hne Hd]]%lookup_insert_Some.
      * left. split; [|done]. apply not_elem_of_dom, is_fresh.
      * right. exists cl'. split_and!; done || lia.
  - unfold ensureRoom in H. destruct (rooms b !! roomID) as [r|] eqn:Hr; simplify_eq; [qsame|].
    apply qmoves_same; cbn; try done; [|by auto|by intros ? ?%elem_of_nil].
    intros r s d [[<- <-]|[Hne Hd]]%lookup_insert_Some Hin; [by apply elem_of_empty in Hin|eauto].
  - unfold room_add in H. destruct (states b !! room) as [s|] eqn:Hs; [|simplify_eq; destruct again; qsame].
    destruct (closed s); simplify_eq; [destruct again; qsame|].
    apply qmoves_same; cbn; try done; [|by auto|].
    + intros r s' d. rewrite lookup_alter. destruct (decide (room = r)) as [<-|]; [|eauto].
      rewrite Hs. cbn. intros [= <-]. cbn. rewrite elem_of_union, elem_of_singleton. intros [->|?]; eauto.
    + intros u [->|?%elem_of_nil]%elem_of_cons; [|done]. intros d. by split.
  - simplify_eq. unfold replaceRoom. case_if as E; qsame.
  - simplify_eq. destruct (a_ok a); qsame.
  - destruct (rooms b !! roomID); simplify_eq; qsame.
  - destruct (states b !! found) as [s|] eqn:Hs; simplify_eq; [|qsame].
    apply qmoves_same; cbn; try done; [by eauto| |by intros ? ?%elem_of_nil].
    intros d [->|Hd%elem_of_elements]; [by left|right]. by eapply (qd_members _ _ HI).
  - simplify_eq. qsame.
  - destruct (enqueueReserve b d x) as [b1 ok] eqn:E. simplify_eq. by apply enqueueReserve_moves.
  - destruct (enqueueSelect b d x (a_choice a)) as [b1 ok] eqn:E. simplify_eq. by eapply enqueueSelect_moves.
  - simplify_eq. apply settle_moves; [|apply len_nonneg|done].
    intros y. cbn. lia.
  - simplify_eq. apply close_moves; [done|]. cbn. tauto.
  - unfold room_remove in H. destruct (states b !! room) as [s|] eqn:Hs; simplify_eq; [|qsame].
    destruct (bool_decide _); (apply qmoves_same; cbn; try done; [|by auto|by intros ? ?%elem_of_nil]);
      intros r s' d; rewrite lookup_alter; (destruct (decide (room = r)) as [<-|]; [|eauto]);
      rewrite Hs; cbn; intros [= <-]; cbn; rewrite elem_of_difference; intros [? _]; eauto.
  - simplify_eq. unfold replaceRoom. case_if as E; qsame.
  - simplify_eq. by apply close_moves.
  - simplify_eq. apply qmoves_update; [done| |done]. intros cl Hc. cbn.
    split_and!; [lia|done|right; lia|right; lia].
  - simplify_eq. qsame.
Qed.

Lemma writeStep_moves b c w a b' t' new :
  writeStep b c w a = (b', t', new) → qmoves b b' (TWrite c w) t' new.
Proof.
  intros H. destruct w as [x|]; cbn in H.
  - assert (HS : ∀ t', (∀ d, heldBy d t' = 0) → (∀ d, knownBy t' d → d = c) →
      qmoves b (updateClient b c (λ c, c <| queuedBytes ::= (λ n, n - len x.2) |>)) (TWrite c (Some x)) t' []).
    { intros u H1 H2. apply settle_moves; [|apply len_nonneg|done]. intros d. rewrite H1. cbn. lia. }
    destruct (a_ok a); simplify_eq; [by apply HS|].
    unfold client_close, updateClient. cbn.
    destruct (HS None) as [Q1 Q2 Q3 Q4 Q5 Q6 Q7]; [done..|]. cbn in *. split; cbn; try done.
    + intros d Hd. destruct (Q3 d Hd) as [y Hy]. rewrite lookup_alter.
      destruct (decide (c = d)) as [<-|]; rewrite Hy; cbn; eauto.
    + intros d cl'. rewrite lookup_alter. destruct (decide (c = d)) as [<-|Hne]; [|apply Q7].
      destruct (alter _ c (peers b) !! c) as [cl1|] eqn:Hc; [|done]. cbn. intros [= <-].
      destruct (Q7 _ _ Hc) as [(Hno & -> & _)|(cl & Hcl & H1 & H2 & H3 & H4)].
      { rewrite lookup_alter, decide_True, Hno in Hc by done. done. }
      right. exists cl. split_and!; done.
  - destruct (peers b !! c) as [cl|] eqn:Hc; [|simplify_eq; qsame].
    destruct (send cl) as [|x rest] eqn:Hs.
    + destruct (done cl); simplify_eq; [qsame|]. destruct (a_ok a); simplify_eq; [qsame|by apply close_moves].
    + destruct (done cl && negb (a_choice a)); simplify_eq; [qsame|].
      apply qmoves_update; cbn; [|intros cl' Hcl; simplify_eq; cbn|done].
      * intros d Hd. by rewrite bool_decide_false.
      * rewrite bool_decide_true, Hs by done. change (sizes (x :: rest)) with (len x.2 + sizes rest).
        split_and!; [lia|done|right; lia|right]. unfold len. cbn [length]. lia.
Qed.

Lemma queued_inductive : inductive queued.
Proof.
  split.
  - intros b m roomID ip b' HI H. unfold reserve in H. destruct (_ || _) eqn:E in H; [done|]. simplify_eq.
    assert (Hs : ∀ c, msum (held c) (spawn m (TServe roomID ip 0 AtUpgrade)) = msum (held c) m).
    { intros c. unfold spawn. by rewrite msum_insert by (apply not_elem_of_dom, is_fresh). }
    destruct HI as [H1 H2 H3 H4 H5]. split; cbn; try done.
    + intros i t c [[-> ->]|Hi]%spawn_lookup Hk; [done|by eapply H3].
    + intros c cl Hc. rewrite Hs. destruct (H5 _ _ Hc). by split.
  - intros b m i t a b' t' new HI Hi H. eapply qmoves_queued; [done..|].
    destruct t as [roomID ip c st|c w]; cbn in H; [by eapply serveStep_moves|by eapply writeStep_moves].
Qed.

(** ** The rooms *)

(** The room a handler has joined, and the one it points to. *)
Definition joined (st : stage) : option nat :=
  match st with
  | AtRead r | AtLookup r _ | AtSnapshot r _ _ | AtReserve r _ _ | AtSelect r _ _ _ | AtUndo r _ _ _
  | AtKick r _ _ _ | AtRemove r => Some r
  | _ => None
  end.

Definition roomOf (st : stage) : option nat :=
  match st with AtAdd _ r | AtReplace r | AtDelete r => Some r | _ => joined st end.

Definition gone (st : stage) : bool := match st with AtReplace _ | AtDelete _ => true | _ => false end.

(** The handler has a client. *)
Definition active (st : stage) : bool := match st with AtUpgrade | AtRelease => false | _ => true end.

Definition joinedAs (c r : nat) (t : thread) : Prop :=
  match t with TServe _ _ c' st => c' = c ∧ joined st = Some r | _ => False end.

Definition adds (id : string) (r : nat) (t : thread) : Prop :=
  match t with TServe id' _ _ (AtAdd _ r') => id' = id ∧ r' = r | _ => False end.

Definition deletes (id : string) (r : nat) (t : thread) : Prop :=
  match t with TServe id' _ _ (AtDelete r') => id' = id ∧ r' = r | _ => False end.

Definition has (c : nat) (t : thread) : Prop :=
  match t with TServe _ _ c' st => c' = c ∧ active st = true | _ => False end.

Definition handler_ok (b : Broker) (t : thread) : Prop :=
  match t with
  | TServe id _ c st =>
      (∀ r, roomOf st = Some r →
         (∃ s, states b !! r = Some s ∧ (gone st = true → closed s = true)) ∧
         ∀ id', rooms b !! id' = Some r → id' = id) ∧
      (active st = true → is_Some (peers b !! c)) ∧
      match st with AtSnapshot r found _ => found = r | _ => True end
  | TWrite _ _ => True
  end.

(** What holds of the table and the rooms by themselves. *)
Record table_ok (b : Broker) : Prop := {
  tb_state : ∀ id r, rooms b !! id = Some r → is_Some (states b !! r);
  tb_inj : ∀ id id' r, rooms b !! id = Some r → rooms b !! id' = Some r → id = id';
  tb_open : ∀ r s, states b !! r = Some s → closed s = false → ∃ id, rooms b !! id = Some r;
  tb_closed : ∀ r s, states b !! r = Some s → closed s = true → clients s = ∅
}.

Record roomed (b : Broker) (m : gmap nat thread) : Prop := {
  rm_table : table_ok b;
  rm_handlers : ∀ i t, m !! i = Some t → handler_ok b t;
  rm_dead : ∀ id r s, rooms b !! id = Some r → states b !! r = Some s → closed s = true →
    some_thread m (deletes id r);
  rm_empty : ∀ id r s, rooms b !! id = Some r → states b !! r = Some s → closed s = false →
    clients s = ∅ → some_thread m (adds id r);
  rm_members : ∀ r s c, states b !! r = Some s → c ∈ clients s ↔ some_thread m (joinedAs c r);
  rm_unique : ∀ i j t u c, m !! i = Some t → m !! j = Some u → has c t → has c u → i = j
}.

(** What a step does to the rooms. *)
Record rmoves (b b' : Broker) (t : thread) (t' : option thread) (new : list thread) : Prop := {
  ro_table : table_ok b';
  ro_new : Forall writer new;
  ro_ok : ∀ u, t' = Some u → handler_ok b' u;
  ro_others : ∀ u, handler_ok b u → handler_ok b' u;
  ro_has : ∀ u c, t' = Some u → has c u → has c t ∨ peers b !! c = None;
  ro_dead : ∀ id r s, rooms b' !! id = Some r → states b' !! r = Some s → closed s = true →
    now t' (deletes id r) ∨
    (rooms b !! id = Some r ∧ (∃ s0, states b !! r = Some s0 ∧ closed s0 = true) ∧ ¬ deletes id r t);
  ro_empty : ∀ id r s, rooms b' !! id = Some r → states b' !! r = Some s → closed s = false →
    clients s = ∅ → now t' (adds id r) ∨
    (rooms b !! id = Some r ∧ (∃ s0, states b !! r = Some s0 ∧ closed s0 = false ∧ clients s0 = ∅) ∧
     ¬ adds id r t);
  ro_members : ∀ r s c, states b' !! r = Some s →
    c ∈ clients s ↔ now t' (joinedAs c r) ∨
      (∃ s0, states b !! r = Some s0 ∧ c ∈ clients s0 ∧ ¬ joinedAs c r t)
}.

#[local] Instance joinedAs_dec c r t : Decision (joinedAs c r t).
Proof. destruct t; cbn; apply _. Defined.

Lemma joined_roomOf st r : joined st = Some r → roomOf st = Some r.
Proof. destruct st; cbn; congruence. Qed.

Lemma joined_has c r t : joinedAs c r t → has c t.
Proof. destruct t as [? ? ? []|]; cbn; naive_solver. Qed.

Lemma joined_state b c r t : handler_ok b t → joinedAs c r t → is_Some (states b !! r).
Proof.
  destruct t as [id ip c' st|]; [|done]. intros (H & _ & _) [_ Hj]. destruct (H r) as [(s & Hs & _) _]; [|eauto].
  by destruct st.
Qed.

Lemma rmoves_roomed b b' m i t t' new :
  roomed b m → m !! i = Some t → rmoves b b' t t' new → roomed b' (after m i t' new).
Proof.
  intros HI Hi HM. pose proof (ro_new _ _ _ _ _ HM) as Hnew. rewrite Forall_forall in Hnew.
  assert (Hpeer : ∀ j u c, m !! j = Some u → has c u → is_Some (peers b !! c)).
  { intros j u c Hj Hu. pose proof (rm_handlers _ _ HI _ _ Hj) as Hok. destruct u; [|done].
    destruct Hu as [-> Ha]. by apply Hok. }
  split.
  - apply HM.
  - intros j u [[Hne Hj]|[[-> Hu]|[_ Hin]]]%after_inv.
    + apply (ro_others _ _ _ _ _ HM). by eapply (rm_handlers _ _ HI).
    + by eapply (ro_ok _ _ _ _ _ HM).
    + apply Hnew in Hin. by destruct u.
  - intros id r s Hid Hr Hc.
    destruct (ro_dead _ _ _ _ _ HM _ _ _ Hid Hr Hc) as [?|(H1 & (s0 & H2 & H3) & H4)]; [by apply after_now|].
    eapply after_other; [done|by eapply (rm_dead _ _ HI)|done].
  - intros id r s Hid Hr Hc He.
    destruct (ro_empty _ _ _ _ _ HM _ _ _ Hid Hr Hc He) as [?|(H1 & (s0 & H2 & H3 & H5) & H4)];
      [by apply after_now|].
    eapply after_other; [done|by eapply (rm_empty _ _ HI)|done].
  - intros r s c Hr. rewrite (ro_members _ _ _ _ _ HM _ _ c Hr). split.
    + intros [?|(s0 & Hs & Hin & Hno)]; [by apply after_now|].
      apply (rm_members _ _ HI _ _ _ Hs) in Hin. eapply after_other; done.
    + intros (j & u & [[Hne Hj]|[[-> Hu]|[_ Hin]]]%after_inv & HJ).
      * right. destruct (joined_state b c r u) as [s0 Hs]; [by eapply (rm_handlers _ _ HI)|done|].
        exists s0. split; [done|]. split; [apply (rm_members _ _ HI _ _ _ Hs); by exists j, u|].
        intros Ht. destruct Hne. eapply (rm_unique _ _ HI); eauto using joined_has.
      * left. by exists u.
      * apply Hnew in Hin. by destruct u.
  - intros j k u v c [[Hne Hj]|[[-> Hu]|[_ Hin]]]%after_inv [[Hne' Hk]|[[-> Hv]|[_ Hin']]]%after_inv Hcu Hcv;
      try (apply Hnew in Hin; by destruct u); try (apply Hnew in Hin'; by destruct v); try done.
    + by eapply (rm_unique _ _ HI).
    + destruct (ro_has _ _ _ _ _ HM _ _ Hv Hcv) as [Ht|Hno].
      * by eapply (rm_unique _ _ HI).
      * destruct (Hpeer _ _ _ Hj Hcu). congruence.
    + destruct (ro_has _ _ _ _ _ HM _ _ Hu Hcu) as [Ht|Hno].
      * symmetry. by eapply (rm_unique _ _ HI).
      * destruct (Hpeer _ _ _ Hk Hcv). congruence.
Qed.

(** A step that leaves the table and the rooms alone. *)
Record same_rooms (b b' : Broker) : Prop := {
  sr_rooms : rooms b' = rooms b;
  sr_states : states b' = states b;
  sr_peers : ∀ c, is_Some (peers b !! c) → is_Some (peers b' !! c)
}.

Lemma same_table b b' : same_rooms b b' → table_ok b → table_ok b'.
Proof. intros [E1 E2 _] []. split; rewrite ?E1, ?E2; done. Qed.

Lemma same_handlers b b' t : same_rooms b b' → handler_ok b t → handler_ok b' t.
Proof.
  intros [E1 E2 E3]. destruct t as [id ip c st|]; [|done]. cbn. rewrite E1, E2.
  intros (H1 & H2 & H3). split_and!; auto.
Qed.

Lemma rmoves_quiet b b' t t' new :
  same_rooms b b' → table_ok b → Forall writer new →
  (∀ u, t' = Some u → handler_ok b' u) → (∀ u c, t' = Some u → has c u → has c t) →
  (∀ id r, ¬ deletes id r t) →
  (∀ id r s, adds id r t → states b !! r = Some s → closed s = true) →
  (∀ c r, joinedAs c r t ↔ now t' (joinedAs c r)) →
  (∀ c r s, joinedAs c r t → states b !! r = Some s → c ∈ clients s) →
  rmoves b b' t t' new.
Proof.
  intros HS HT Hn Hok Hhas Hd Ha Hj Hmem. pose proof HS as [E1 E2 E3].
  split; rewrite ?E1, ?E2; try done.
  - by eapply same_table.
  - intros u. by apply same_handlers.
  - intros u c Hu Hc. left. by eapply Hhas.
  - intros id r s H1 H2 H3. right. split_and!; [done|by exists s|auto].
  - intros id r s H1 H2 H3 H4. right. split_and!; [done|by exists s|].
    intros Hadd. specialize (Ha _ _ _ Hadd H2). congruence.
  - intros r s c Hr. rewrite <- Hj. split.
    + intros Hc. destruct (decide (joinedAs c r t)) as [|Hne]; [by left|right; eauto].
    + intros [H|(s0 & Hs & ? & _)]; [by eapply Hmem|congruence].
Qed.

Lemma alter_known {A} (f : A → A) (m : gmap nat A) i x : m !! i = Some x → alter f i m = <[i := f x]> m.
Proof.
  intros Hi. apply map_eq. intros j. rewrite lookup_alter. destruct (decide (i = j)) as [<-|Hne].
  - by rewrite lookup_insert_eq, Hi.
  - by rewrite lookup_insert_ne.
Qed.

(** A handler that joins or leaves. *)
Definition alterRoom (b : Broker) (r : nat) (s : roomState) : Broker := b <| states ::= <[r := s]> |>.

Lemma rmoves_add b id ip c again r s :
  table_ok b → states b !! r = Some s → closed s = false → handler_ok b (TServe id ip c (AtAdd again r)) →
  rmoves b (alterRoom b r (s <| clients ::= (λ l, {[c]} ∪ l) |>)) (TServe id ip c (AtAdd again r))
    (Some (TServe id ip c (AtRead r))) [TWrite c None].
Proof.
  intros [T1 T2 T3 T4] Hs Hc Hok.
  assert (Hoth : ∀ u, handler_ok b u → handler_ok (alterRoom b r (s <| clients ::= (λ l, {[c]} ∪ l) |>)) u).
  { intros [id' ip' c' st'|]; [|done]. cbn. intros (H1 & H2 & H3). split_and!; [|done..].
    intros r' Hr'. destruct (H1 r' Hr') as [(s' & Hs' & Hg) Hid]. split; [|done].
    destruct (decide (r' = r)) as [->|Hne]; [rewrite lookup_insert_eq|rewrite lookup_insert_ne by done]; eauto.
    eexists. split; [done|]. cbn. simplify_eq. exact Hg. }
  split; cbn.
  - split; cbn; [|done|..].
    + intros id' r' Hr'. destruct (decide (r' = r)) as [->|Hne]; [rewrite lookup_insert_eq; eauto|].
      rewrite lookup_insert_ne by done. eauto.
    + intros r' s' [[<- <-]|[Hne Hr']]%lookup_insert_Some; cbn; eauto.
    + intros r' s' [[<- <-]|[Hne Hr']]%lookup_insert_Some; cbn; [congruence|eauto].
  - by repeat constructor.
  - intros u [= <-]. apply (Hoth (TServe id ip c (AtRead r))). cbn. cbn in Hok.
    destruct Hok as (H1 & H2 & _). split_and!; [|done..]. intros r' [= <-]. destruct (H1 r eq_refl) as [(s' & Hs' & _) ?].
    split; [|done]. by exists s'.
  - done.
  - intros u d [= <-] [-> _]. left. done.
  - intros id' r' s' Hid [[<- <-]|[Hne Hr']]%lookup_insert_Some; cbn; [congruence|].
    intros Hcl. right. split_and!; [done|by exists s'|tauto].
  - intros id' r' s' Hid [[<- <-]|[Hne Hr']]%lookup_insert_Some; cbn.
    + intros _ He. exfalso. apply (not_elem_of_empty (C := gset nat) c). rewrite <- He.
      by apply elem_of_union_l, elem_of_singleton.
    + intros Hcl He. right. split_and!; [done|by exists s'|]. intros [_ ->]. done.
  - intros r' s' d [[<- <-]|[Hne Hr']]%lookup_insert_Some; cbn.
    + rewrite elem_of_union, elem_of_singleton. split.
      * intros [->|Hd]; [left; by eexists|right; exists s; split_and!; [done..|]]. by intros [_ ?].
      * intros [(u & [= <-] & <- & _)|(s0 & Hs0 & Hd & _)]; [by left|right; congruence].
    + split.
      * intros Hd. right. exists s'. split_and!; [done..|]. by intros [_ ?].
      * intros [(u & [= <-] & _ & [= ?])|(s0 & Hs0 & Hd & _)]; congruence.
Qed.

Lemma rmoves_remove b id ip c r s :
  table_ok b → states b !! r = Some s → handler_ok b (TServe id ip c (AtRemove r)) → c ∈ clients s →
  let left := clients s ∖ {[c]} in
  let empty := bool_decide (left = ∅) in
  rmoves b (alterRoom b r (mkRoom (closed s || empty) left)) (TServe id ip c (AtRemove r))
    (Some (TServe id ip c (if empty then AtDelete r else AtClose))) [].
Proof.
  intros [T1 T2 T3 T4] Hs Hok Hin left empty.
  assert (Hopen : closed s = false).
  { apply not_true_iff_false. intros He%(T4 _ _ Hs). rewrite He in Hin. by apply elem_of_empty in Hin. }
  rewrite Hopen. cbn [orb].
  assert (Hid : ∀ id', rooms b !! id' = Some r → id' = id) by (apply (proj1 Hok); done).
  assert (Hoth : ∀ u, handler_ok b u → handler_ok (alterRoom b r (mkRoom empty left)) u).
  { intros [id' ip' c' st'|]; [|done]. cbn. intros (H1 & H2 & H3). split_and!; [|done..].
    intros r' Hr'. destruct (H1 r' Hr') as [(s' & Hs' & Hg) Hid']. split; [|done].
    destruct (decide (r' = r)) as [->|Hne]; [rewrite lookup_insert_eq|rewrite lookup_insert_ne by done]; eauto.
    eexists. split; [done|]. cbn. simplify_eq. intros Hx%Hg. congruence. }
  split; cbn.
  - split; cbn; [|done|..].
    + intros id' r' Hr'. destruct (decide (r' = r)) as [->|Hne]; [rewrite lookup_insert_eq; eauto|].
      rewrite lookup_insert_ne by done. eauto.
    + intros r' s' [[<- <-]|[Hne Hr']]%lookup_insert_Some; cbn; eauto.
    + intros r' s' [[<- <-]|[Hne Hr']]%lookup_insert_Some; cbn; [|eauto]. intros He. by apply bool_decide_eq_true in He.
  - done.
  - intros u [= <-]. cbn. destruct Hok as (H1 & H2 & _). split_and!; [|by intros _; apply H2|by destruct empty].
    intros r' Hr'. destruct empty; [|done]. injection Hr' as <-. split; [|done].
    exists (mkRoom true left). by rewrite lookup_insert_eq.
  - done.
  - intros u d [= <-] [-> _]. by left.
  - intros id' r' s' Hid' [[<- <-]|[Hne Hr']]%lookup_insert_Some; cbn.
    + intros ->. left. eexists. split; [done|]. cbn. split; [symmetry; by apply Hid|done].
    + intros Hcl. right. split_and!; [done|by exists s'|tauto].
  - intros id' r' s' Hid' [[<- <-]|[Hne Hr']]%lookup_insert_Some; cbn.
    + intros He He'. exfalso. apply bool_decide_eq_false in He. done.
    + intros Hcl He. right. split_and!; [done|by exists s'|tauto].
  - assert (Hno : ∀ d r', ¬ now (Some (TServe id ip c (if empty then AtDelete r else AtClose))) (joinedAs d r')).
    { intros d r' (u & [= <-] & _ & Hj). by destruct empty. }
    intros r' s' d [[<- <-]|[Hne Hr']]%lookup_insert_Some; cbn.
    + unfold left. rewrite elem_of_difference, elem_of_singleton. split.
      * intros [Hd Hne]. right. exists s. split_and!; [done..|]. intros [-> _]. done.
      * intros [[]%Hno|(s0 & Hs0 & Hd & Hn)]. simplify_eq. split; [done|]. intros ->. by apply Hn.
    + split.
      * intros Hd. right. exists s'. split_and!; [done..|]. intros [_ [= ->]]. done.
      * intros [[]%Hno|(s0 & Hs0 & Hd & _)]. congruence.
Qed.

(** The room is taken from the table or added to it. *)
Lemma rmoves_ensure b id ip c again b' r :
  table_ok b → handler_ok b (TServe id ip c (AtEnsure again)) → ensureRoom b id = (b', r) →
  rmoves b b' (TServe id ip c (AtEnsure again)) (Some (TServe id ip c (AtAdd again r))) [].
Proof.
  intros HT Hok H. unfold ensureRoom in H. pose proof HT as [T1 T2 T3 T4].
  destruct (rooms b !! id) as [r0|] eqn:Hid; simplify_eq.
  - apply rmoves_quiet; try done.
    + intros u [= <-]. cbn. split_and!; [|apply Hok|done]. intros r' [= <-].
      destruct (T1 _ _ Hid) as [s Hs]. split; [by exists s|]. intros id' Hid'. by eapply T2.
    + by intros u d [= <-].
    + by intros id' r' [].
    + intros d r'. split; [by intros [_ ?]|by intros (u & [= <-] & _ & ?)].
    + by intros d r' s [_ ?].
  - set (r := fresh (dom (states b))).
    assert (Hr : states b !! r = None) by apply not_elem_of_dom, is_fresh.
    assert (Hnr : ∀ id', rooms b !! id' ≠ Some r) by (intros id' H'; destruct (T1 _ _ H'); congruence).
    split; cbn.
    + split; cbn.
      * intros id' r' [[<- <-]|[Hne H']]%lookup_insert_Some; [rewrite lookup_insert_eq; eauto|].
        rewrite lookup_insert_ne; [eauto|]. intros <-. by eapply Hnr.
      * intros id1 id2 r' [[<- <-]|[? H1]]%lookup_insert_Some [[<- ?]|[? H2]]%lookup_insert_Some;
          subst; try done; [by destruct (Hnr id2)|by destruct (Hnr id1)|by eapply T2].
      * intros r' s [[<- <-]|[Hne Hs]]%lookup_insert_Some Hcl; [exists id; by rewrite lookup_insert_eq|].
        destruct (T3 _ _ Hs Hcl) as [id' Hid']. exists id'. rewrite lookup_insert_ne; congruence.
      * intros r' s [[<- <-]|[Hne Hs]]%lookup_insert_Some; [done|eauto].
    + done.
    + intros u [= <-]. cbn. split_and!; [|apply Hok|done]. intros r' [= <-]. split.
      * exists (mkRoom false ∅). by rewrite lookup_insert_eq.
      * intros id' [[<- _]|[_ Hx]]%lookup_insert_Some; [done|by destruct (Hnr id')].
    + intros [id' ip' c' st'|]; [|done]. cbn. intros (H1 & H2 & H3). split_and!; [|done..].
      intros r' Hr'. destruct (H1 r' Hr') as [(s' & Hs' & Hg) Hi]. split.
      * exists s'. rewrite lookup_insert_ne by congruence. done.
      * intros id2 [[<- <-]|[_ Hx]]%lookup_insert_Some; [congruence|auto].
    + intros u d [= <-] [-> _]. by left.
    + intros id' r' s [[<- <-]|[Hne H']]%lookup_insert_Some; [rewrite lookup_insert_eq; by intros [= <-]|].
      rewrite lookup_insert_ne by (intros <-; by eapply Hnr). intros Hs Hcl. right. split_and!; [done|by exists s|tauto].
    + intros id' r' s [[<- <-]|[Hne H']]%lookup_insert_Some.
      * intros _ _ _. left. eexists. split; done.
      * rewrite lookup_insert_ne by (intros <-; by eapply Hnr). intros Hs Hcl He. right. split_and!; [done|by exists s|tauto].
    + intros r' s d [[<- <-]|[Hne Hs]]%lookup_insert_Some.
      * cbn. split; [by intros ?%elem_of_empty|]. intros [(u & [= <-] & _ & ?)|(s0 & ? & _)]; [done|congruence].
      * split; [intros Hd; right; exists s; split_and!; [done..|by intros [_ ?]]|].
        intros [(u & [= <-] & _ & ?)|(s0 & ? & ? & _)]; [done|congruence].
Qed.

(** A closed room is taken out of the table. *)
Lemma rmoves_replace b id ip c st st' r :
  table_ok b → handler_ok b (TServe id ip c st) → roomOf st = Some r → gone st = true →
  roomOf st' = None → active st' = true →
  rmoves b (replaceRoom b id r) (TServe id ip c st) (Some (TServe id ip c st')) [].
Proof.
  intros HT Hok Hr Hg Hr' Ha. pose proof HT as [T1 T2 T3 T4]. destruct Hok as (H1 & H2 & _).
  destruct (H1 _ Hr) as [(s & Hs & Hcl) Hid]. specialize (Hcl Hg).
  assert (Hj : joined st = None) by (by destruct st). assert (Hj' : joined st' = None) by (by destruct st').
  assert (Hrooms : ∀ id' r', rooms (replaceRoom b id r) !! id' = Some r' ↔ rooms b !! id' = Some r' ∧ r' ≠ r).
  { intros id' r'. unfold replaceRoom. case_if as E; b2p; cbn.
    - rewrite lookup_delete_Some. split; intros [Hx Hy]; split; try done.
      + intros ->. by rewrite (Hid _ Hy) in Hx.
      + intros <-. congruence.
    - split; [|by intros [? _]]. intros Hx. split; [done|]. intros ->. pose proof (Hid _ Hx). congruence. }
  assert (Hst : states (replaceRoom b id r) = states b ∧ peers (replaceRoom b id r) = peers b).
  { unfold replaceRoom. by case_if as E. }
  destruct Hst as [Est Epe].
  split; rewrite ?Est, ?Epe; try done.
  - split; rewrite ?Est.
    + intros id' r' [Hx _]%Hrooms. eauto.
    + intros id1 id2 r' [Hx _]%Hrooms [Hy _]%Hrooms. eauto.
    + intros r' s' Hs' Hc'. destruct (T3 _ _ Hs' Hc') as [id' Hx]. exists id'. apply Hrooms. split; [done|congruence].
    + done.
  - intros u [= <-]. cbn. rewrite Epe. split_and!; [by rewrite Hr'|intros _; apply H2; by destruct st|by destruct st'].
  - intros [id' ip' c' st1|]; [|done]. cbn. rewrite Est, Epe. intros (X1 & X2 & X3). split_and!; [|done..].
    intros r1 Hr1. destruct (X1 _ Hr1) as [X4 X5]. split; [done|]. intros id2 [Hx _]%Hrooms. auto.
  - intros u d [= <-] [-> _]. left. split; [done|]. by destruct st.
  - intros id' r' s' [Hx Hne]%Hrooms Hs' Hc'. right. split_and!; [done|by exists s'|].
    intros Hdel. destruct st; try done. destruct Hdel as [_ <-]. simplify_eq/=.
  - intros id' r' s' [Hx Hne]%Hrooms Hs' Hc' He'. right. split_and!; [done|by exists s'|].
    intros Hadd. by destruct st.
  - intros r' s' d Hs'. split.
    + intros Hd. right. exists s'. split_and!; [done..|]. intros [_ ?]. congruence.
    + intros [(u & [= <-] & _ & ?)|(s0 & ? & ? & _)]; congruence.
Qed.

Lemma rmoves_upgrade b id ip c0 :
  table_ok b →
  let c := fresh (dom (peers b)) in
  rmoves b (b <| peers ::= <[c := mkClient true [] false 0 (queueBytes b)]> |>)
    (TServe id ip c0 AtUpgrade) (Some (TServe id ip c (AtEnsure false))) [].
Proof.
  intros HT c. assert (Hc : peers b !! c = None) by apply not_elem_of_dom, is_fresh.
  assert (HS : same_rooms b (b <| peers ::= <[c := mkClient true [] false 0 (queueBytes b)]> |>)).
  { split; cbn; try done. intros d Hd. destruct (decide (d = c)) as [->|Hne];
      [rewrite lookup_insert_eq; eauto|by rewrite lookup_insert_ne]. }
  split; cbn; try done.
  - by eapply same_table.
  - intros u [= <-]. cbn. split_and!; [done| |done]. rewrite lookup_insert_eq. eauto.
  - intros u. by apply same_handlers.
  - intros u d [= <-] [-> _]. by right.
  - intros id' r s H1 H2 H3. right. split_and!; [done|by exists s|tauto].
  - intros id' r s H1 H2 H3 H4. right. split_and!; [done|by exists s|tauto].
  - intros r s d Hs. split.
    + intros Hd. right. exists s. split_and!; [done..|]. by intros [_ ?].
    + intros [(u & [= <-] & _ & ?)|(s0 & ? & ? & _)]; [done|congruence].
Qed.

(** A handler that goes on without touching the rooms. *)
Lemma rmoves_goes b b' m i id ip c st st' :
  roomed b m → m !! i = Some (TServe id ip c st) → same_rooms b b' →
  joined st' = joined st → roomOf st' = joined st' ∨ roomOf st' = roomOf st ∧ gone st' = gone st →
  (active st' = true → active st = true) → (∀ r, st ≠ AtDelete r) →
  (∀ again r, st ≠ AtAdd again r) →
  match st' with AtSnapshot r found _ => found = r | _ => True end →
  rmoves b b' (TServe id ip c st) (Some (TServe id ip c st')) [].
Proof.
  intros HI Hi HS Hj Hr Ha Hd Had Hsn.
  pose proof (rm_handlers _ _ HI _ _ Hi) as Hok.
  apply rmoves_quiet; [done|apply HI|done|..].
  - intros u [= <-]. apply (same_handlers b); [done|]. destruct Hok as (H1 & H2 & _). split_and!; [|auto|done].
    intros r Hr'. destruct Hr as [Hr|[Hr Hg]].
    + assert (Hst : roomOf st = Some r) by (apply joined_roomOf; congruence).
      destruct (H1 _ Hst) as [(s & Hs & _) Hid]. split; [|done]. exists s. split; [done|].
      intros Hg. destruct st'; cbn in *; congruence.
    + rewrite Hr in Hr'. destruct (H1 _ Hr') as [(s & Hs & Hcl) Hid]. split; [|done]. exists s. by rewrite Hg.
  - intros u d [= <-] [-> Hact]. split; [done|auto].
  - intros id' r Hx. destruct st; try done. by destruct (Hd room).
  - intros id' r s Hx. destruct st; try done. by destruct (Had again room).
  - intros d r. cbn. rewrite <- Hj. split; [intros Hx; by eexists|by intros (u & [= <-] & ?)].
  - intros d r s Hx Hs. apply (rm_members _ _ HI _ _ _ Hs). by exists i, (TServe id ip c st).
Qed.

Lemma joined_current b m i id ip c st r :
  roomed b m → m !! i = Some (TServe id ip c st) → joined st = Some r →
  rooms b !! id = Some r ∧ ∃ s, states b !! r = Some s ∧ c ∈ clients s.
Proof.
  intros HI Hi Hj. pose proof (rm_handlers _ _ HI _ _ Hi) as (H1 & _ & _).
  destruct (H1 _ (joined_roomOf _ _ Hj)) as [(s & Hs & _) Hid].
  assert (Hc : c ∈ clients s) by (apply (rm_members _ _ HI _ _ _ Hs); by exists i, (TServe id ip c st)).
  split; [|by exists s]. destruct (tb_open _ (rm_table _ _ HI) _ _ Hs) as [id' Hid'].
  { apply not_true_iff_false. intros He%(tb_closed _ (rm_table _ _ HI) _ _ Hs). rewrite He in Hc.
    by apply elem_of_empty in Hc. }
  by rewrite <- (Hid _ Hid').
Qed.

Lemma same_rooms_refl b : same_rooms b b.
Proof. by split. Qed.

Lemma same_rooms_update b c f : same_rooms b (updateClient b c f).
Proof.
  split; cbn; try done. intros d [x Hx]. rewrite lookup_alter.
  destruct (decide (c = d)) as [<-|]; rewrite Hx; cbn; eauto.
Qed.

Lemma same_rooms_close b c : same_rooms b (client_close b c).
Proof. apply same_rooms_update. Qed.

Lemma same_rooms_trans b1 b2 b3 : same_rooms b1 b2 → same_rooms b2 b3 → same_rooms b1 b3.
Proof. intros [E1 E2 E3] [F1 F2 F3]. split; [congruence..|auto]. Qed.

Lemma serveStep_rooms b m i id ip c st a b' t' new :
  roomed b m → m !! i = Some (TServe id ip c st) → serveStep b id ip c st a = (b', t', new) →
  rmoves b b' (TServe id ip c st) t' new.
Proof.
  intros HI Hi H. pose proof (rm_handlers _ _ HI _ _ Hi) as Hok. pose proof (rm_table _ _ HI) as HT.
  assert (Hgo : ∀ b' st', same_rooms b b' → joined st' = joined st →
    roomOf st' = joined st' ∨ roomOf st' = roomOf st ∧ gone st' = gone st →
    (active st' = true → active st = true) → (∀ r, st ≠ AtDelete r) →
    (∀ again r, st ≠ AtAdd again r) →
    match st' with AtSnapshot r found _ => found = r | _ => True end →
    rmoves b b' (TServe id ip c st) (Some (TServe id ip c st')) []) by (intros; by eapply rmoves_goes).
  assert (Hcur : ∀ r, joined st = Some r → rooms b !! id = Some r ∧ ∃ s, states b !! r = Some s ∧ c ∈ clients s)
    by (intros; by eapply joined_current).
  destruct st as [|again|again room|room|room|room x|room found x|room x [|d rest]|room x d rest|room x d rest|room x d rest|room|room| | |];
    cbn in H.
  - destruct (a_ok a); simplify_eq; [by apply rmoves_upgrade|]. apply Hgo; auto using same_rooms_refl.
  - destruct (ensureRoom b id) as [b1 r] eqn:E. simplify_eq. by apply rmoves_ensure.
  - unfold room_add in H. destruct (proj1 Hok room eq_refl) as [(s & Hs & _) Hid]. rewrite Hs in H.
    destruct (closed s) eqn:Hcl; simplify_eq.
    + apply rmoves_quiet; try done.
      * intros u [= <-]. destruct Hok as (H1 & H2 & _). split_and!; [|by destruct again|by destruct again].
        intros r Hr. destruct again; [done|]. injection Hr as <-. split; [|done]. by exists s.
      * intros u d [= <-] [-> _]. done.
      * by intros id' r [].
      * intros id' r s' [_ <-] Hs'. congruence.
      * intros d r. split; [by intros [_ ?]|]. intros (u & [= <-] & _ & ?). by destruct again.
      * by intros d r s' [_ ?].
    + replace (updateRoom b room _) with (alterRoom b room (s <| clients ::= (λ l, {[c]} ∪ l) |>))
        by (unfold updateRoom, alterRoom; cbn; by rewrite (alter_known _ _ _ s)).
      by apply rmoves_add.
  - simplify_eq. by apply rmoves_replace.
  - simplify_eq. destruct (a_ok a); apply Hgo; auto using same_rooms_refl.
  - destruct (Hcur room eq_refl) as [E _]. rewrite E in H. simplify_eq. apply Hgo; auto using same_rooms_refl.
  - destruct (states b !! found); simplify_eq; apply Hgo; auto using same_rooms_refl.
  - simplify_eq. apply Hgo; auto using same_rooms_refl.
  - unfold enqueueReserve in H. destruct (peers b !! d) as [cl|]; [destruct (_ <? _)|]; simplify_eq;
      apply Hgo; auto using same_rooms_refl, same_rooms_update.
  - unfold enqueueSelect in H. destruct (peers b !! d) as [cl|]; [destruct (_ && _)|]; simplify_eq;
      apply Hgo; auto using same_rooms_refl, same_rooms_update.
  - simplify_eq. apply Hgo; auto using same_rooms_update.
  - simplify_eq. apply Hgo; auto using same_rooms_update, same_rooms_close.
  - destruct (Hcur room eq_refl) as [_ (s & Hs & Hc)]. unfold room_remove in H. rewrite Hs in H. simplify_eq.
    replace (updateRoom b room _) with
      (alterRoom b room (mkRoom (closed s || bool_decide (clients s ∖ {[c]} = ∅)) (clients s ∖ {[c]})))
      by (unfold updateRoom, alterRoom; cbn; by rewrite (alter_known _ _ _ s)).
    by apply rmoves_remove.
  - simplify_eq. by apply rmoves_replace.
  - simplify_eq. apply Hgo; auto using same_rooms_update, same_rooms_close.
  - simplify_eq. apply Hgo; auto using same_rooms_update, same_rooms_close.
  - simplify_eq. apply rmoves_quiet; try done.
    + by intros id' r [].
    + intros d r. split; [by intros [_ ?]|by intros (u & ? & _)].
    + by intros d r s [_ ?].
Qed.

Lemma writeStep_rooms b m i c w a b' t' new :
  roomed b m → m !! i = Some (TWrite c w) → writeStep b c w a = (b', t', new) →
  rmoves b b' (TWrite c w) t' new.
Proof.
  intros HI Hi H.
  assert (Hq : ∀ b1 t1, same_rooms b b1 → (∀ u, t1 = Some u → writer u) → rmoves b b1 (TWrite c w) t1 []).
  { intros b1 t1 HS Ht. assert (Hno : ∀ P, (∀ u, P u → ¬ writer u) → ¬ now t1 P).
    { intros P HP (u & Hu & Hp). by apply (HP u Hp), Ht. }
    apply rmoves_quiet; try done; [apply HI|..].
    - intros u Hu. specialize (Ht u Hu). by destruct u.
    - intros u d Hu Hd. specialize (Ht u Hu). by destruct u.
    - by intros id r [].
    - intros d r. split; [done|]. intros []%Hno. intros []; cbn; tauto. }
  unfold writeStep in H. repeat case_match; simplify_eq; apply Hq;
    eauto using same_rooms_refl, same_rooms_update, same_rooms_close, same_rooms_trans; try done;
    by intros u [= <-].
Qed.

Lemma roomed_inductive : inductive roomed.
Proof.
  split.
  - intros b m id ip b' HI H. unfold reserve in H. destruct (_ || _) eqn:E in H; [done|]. simplify_eq.
    set (b' := b <| roomCounts ::= _ |> <| ipCounts ::= _ |>).
    assert (HS : same_rooms b b') by (by split).
    assert (Hex : ∀ P, some_thread m P → some_thread (spawn m (TServe id ip 0 AtUpgrade)) P).
    { intros P (j & u & Hj & Hu). exists j, u. split; [|done]. apply spawn_lookup. by right. }
    split.
    + eapply same_table; [done|apply HI].
    + intros i t [[-> ->]|Hi]%spawn_lookup; [done|]. apply (same_handlers b); [done|]. by eapply (rm_handlers _ _ HI).
    + intros id' r s H1 H2 H3. apply Hex. by eapply (rm_dead _ _ HI).
    + intros id' r s H1 H2 H3 H4. apply Hex. by eapply (rm_empty _ _ HI).
    + intros r s c Hs. rewrite (rm_members _ _ HI r s c Hs). split; [apply Hex|].
      intros (j & u & [[-> ->]|Hj]%spawn_lookup & Hu); [by destruct Hu|by exists j, u].
    + intros i j t u c [[-> ->]|Hi]%spawn_lookup [[-> ->]|Hj]%spawn_lookup Ht Hu;
        try (by destruct Ht); try (by destruct Hu). by eapply (rm_unique _ _ HI).
  - intros b m i t a b' t' new HI Hi H. eapply rmoves_roomed; [done..|].
    destruct t as [id ip c st|c w]; cbn in H; [by eapply serveStep_rooms|by eapply writeStep_rooms].
Qed.

(** ** The connections *)

Definition opened (b : Broker) (m : gmap nat thread) : Prop :=
  ∀ c cl, peers b !! c = Some cl → open cl = true → some_thread m (has c).

(** No connection is opened. *)
Definition shrinks (b b' : Broker) : Prop :=
  ∀ c cl', peers b' !! c = Some cl' → open cl' = true → ∃ cl, peers b !! c = Some cl ∧ open cl = true.

Definition keeps_open (b b' : Broker) (t : thread) (t' : option thread) : Prop :=
  ∀ c cl', peers b' !! c = Some cl' → open cl' = true →
    now t' (has c) ∨ (∃ cl, peers b !! c = Some cl ∧ open cl = true) ∧ ¬ has c t.

Lemma shrinks_refl b : shrinks b b.
Proof. intros c cl H1 H2. eauto. Qed.

Lemma shrinks_update b c f : (∀ cl, open (f cl) = true → open cl = true) → shrinks b (updateClient b c f).
Proof.
  intros Hf d cl' Hd Ho. cbn in Hd. rewrite lookup_alter in Hd.
  destruct (decide (c = d)) as [<-|]; [|eauto]. destruct (peers b !! c) as [cl|]; [|done].
  injection Hd as <-. eauto.
Qed.

Lemma shrinks_trans b1 b2 b3 : shrinks b1 b2 → shrinks b2 b3 → shrinks b1 b3.
Proof. intros H1 H2 c cl Hc Ho. destruct (H2 _ _ Hc Ho) as (cl2 & Hc2 & Ho2). eauto. Qed.

Lemma shrinks_peers b b' : peers b' = peers b → shrinks b b'.
Proof. intros E c cl. rewrite E. eauto. Qed.

Lemma keeps_handler b b' id ip c st st' :
  shrinks b b' → (active st = true → active st' = true) →
  keeps_open b b' (TServe id ip c st) (Some (TServe id ip c st')).
Proof.
  intros HS Ha d cl' Hd Ho. destruct (decide (d = c ∧ active st = true)) as [[-> Hst]|Hne].
  - left. eexists. split; [done|]. split; auto.
  - right. split; [by eapply HS|]. intros [-> ?]. by destruct Hne.
Qed.

(** The handler closes its own connection. *)
Lemma keeps_closing b id ip c st st' f :
  (∀ cl, open (f cl) = false) →
  keeps_open b (updateClient b c f) (TServe id ip c st) (Some (TServe id ip c st')).
Proof.
  intros Hf d cl' Hd Ho. cbn in Hd. rewrite lookup_alter in Hd. destruct (decide (c = d)) as [<-|Hne].
  - destruct (peers b !! c) as [cl|]; [|done]. injection Hd as <-. by rewrite Hf in Ho.
  - right. split; [eauto|]. by intros [-> _].
Qed.

Lemma threadStep_open b t a b' t' new :
  threadStep b t a = (b', t', new) → keeps_open b b' t t'.
Proof.
  destruct t as [id ip c st|c w]; cbn; intros H.
  - destruct st as [|again|again room|room|room|room x|room found x|room x [|d rest]|room x d rest|room x d rest|room x d rest|room|room| | |];
      cbn in H; unfold ensureRoom, room_add, room_remove, enqueueReserve, enqueueSelect, replaceRoom in H;
      repeat case_match; simplify_eq;
      try (apply keeps_handler; [first [apply shrinks_refl|by apply shrinks_peers|by apply shrinks_update]|done]);
      try (by apply keeps_closing).
    + intros d cl' Hd Ho. cbn in Hd. apply lookup_insert_Some in Hd as [[<- <-]|[Hne Hd]]; [left; by eexists|].
      right. split; [eauto|]. by intros [_ ?].
    + intros d cl' Hd Ho. right. split; [eauto|]. by intros [_ ?].
  - assert (Hq : ∀ b1 t1, shrinks b b1 → keeps_open b b1 (TWrite c w) t1).
    { intros b1 t1 HS d cl' Hd Ho. right. split; [by eapply HS|by intros []]. }
    unfold writeStep, client_close in H.
    repeat case_match; simplify_eq; apply Hq; try apply shrinks_refl; try (by apply shrinks_update).
    eapply shrinks_trans; by apply shrinks_update.
Qed.

Lemma opened_inductive : inductive opened.
Proof.
  split.
  - intros b m id ip b' HI H. unfold reserve in H. destruct (_ || _) eqn:E in H; [done|]. simplify_eq.
    intros c cl Hc Ho. destruct (HI c cl Hc Ho) as (j & u & Hj & Hu). exists j, u. split; [|done].
    apply spawn_lookup. by right.
  - intros b m i t a b' t' new HI Hi H c cl' Hc Ho.
    destruct (threadStep_open _ _ _ _ _ _ H _ _ Hc Ho) as [?|[(cl & Hcl & Hop) Hno]]; [by apply after_now|].
    eapply after_other; [done|by eapply HI|done].
Qed.

(** ** What the broker guarantees *)

(** The limits the broker was made with do not change. *)
Definition limited (b0 b : Broker) : Prop :=
  connectionsPerRoom b = connectionsPerRoom b0 ∧ connectionsPerIP b = connectionsPerIP b0 ∧
  queueMessages b = queueMessages b0 ∧ queueBytes b = queueBytes b0.

Lemma limited_inductive b0 : inductive (λ b _, limited b0 b).
Proof.
  split.
  - intros b m id ip b' HI H. unfold reserve in H. destruct (_ || _) eqn:E in H; [done|]. by simplify_eq.
  - intros b m i t a b' t' new HI _ H. destruct t as [id ip c st|c w]; cbn in H.
    + destruct st as [|again|again room|room|room|room x|room found x|room x [|d rest]|room x d rest|room x d rest|room x d rest|room|room| | |];
        cbn in H; unfold ensureRoom, room_add, room_remove, enqueueReserve, enqueueSelect, replaceRoom in H;
        repeat case_match; by simplify_eq.
    + unfold writeStep in H. repeat case_match; by simplify_eq.
Qed.

(** A new broker, and its limits. *)
Record fresh_broker (b : Broker) : Prop := {
  fb_rooms : rooms b = ∅;
  fb_roomCounts : roomCounts b = ∅;
  fb_ipCounts : ipCounts b = ∅;
  fb_states : states b = ∅;
  fb_peers : peers b = ∅;
  fb_perRoom : 0 < connectionsPerRoom b;
  fb_perIP : 0 < connectionsPerIP b;
  fb_messages : 0 < queueMessages b;
  fb_bytes : 0 < queueBytes b
}.

Lemma NewBroker_fresh opts : fresh_broker (NewBroker opts).
Proof.
  unfold NewBroker. assert (H0 : fresh_broker (mkBroker ∅ ∅ ∅ 256 32 64 (Z.shiftl 16 20) ∅ ∅)) by (by split).
  revert H0. generalize (mkBroker ∅ ∅ ∅ 256 32 64 (Z.shiftl 16 20) ∅ ∅).
  induction opts as [|o opts IH]; intros b Hb; [done|]. cbn. apply IH. destruct Hb.
  destruct o as [x y|x y]; cbn; destruct (0 <? x) eqn:E1, (0 <? y) eqn:E2; b2p; split; cbn; done || lia.
Qed.

Definition brokerAt (opts : list BrokerOption) (os : list op) : world := run (start (NewBroker opts)) os.

Lemma at_invariant I opts os :
  inductive I → I (NewBroker opts) ∅ → I (broker (brokerAt opts os)) (threads (brokerAt opts os)).
Proof. intros HI H0. by apply (inductive_run I (start (NewBroker opts))). Qed.

Lemma counted_start b : fresh_broker b → counted b ∅.
Proof.
  intros []. split; (split; [rewrite ?fb_roomCounts0, ?fb_ipCounts0; intros k n; by rewrite lookup_empty|]);
    intros k; rewrite msum_empty; unfold get; by rewrite ?fb_roomCounts0, ?fb_ipCounts0, lookup_empty.
Qed.

Lemma queued_start b : fresh_broker b → queued b ∅.
Proof.
  intros []. split; [lia|lia|done| |]; rewrite ?fb_states0, ?fb_peers0; done.
Qed.

Lemma roomed_start b : fresh_broker b → roomed b ∅.
Proof.
  intros []. split; [split|..]; rewrite ?fb_rooms0, ?fb_states0; done.
Qed.

Lemma sum_bounds (f : thread → bool) (m : gmap nat thread) : 0 ≤ msum (λ t, count (f t)) m.
Proof. apply msum_nonneg. intros i t _. by destruct (f t). Qed.

Lemma counts_bounded m limit f k : counts_ok m limit f → 0 < limit → f k ≤ limit.
Proof.
  intros [H1 H2] Hl. rewrite <- H2. unfold get. destruct (m !! k) as [n|] eqn:E; cbn; [|lia].
  specialize (H1 _ _ E). lia.
Qed.

(** C26: the broker keeps to its limits.  Whatever requests arrive, whatever the
    network delivers and however the goroutines interleave: the counts of a room and
    of an address are the numbers of handlers admitted for them and not yet
    released, and stay within the limits the broker was made with; the bytes
    accounted to a client are those in its queue, of the message being written and of
    the messages being enqueued, and they and the length of the queue stay within
    their limits. *)
Theorem broker_limits (opts : list BrokerOption) (os : list op) :
  let b0 := NewBroker opts in
  let w := brokerAt opts os in
  let b := broker w in
  (∀ r, get (roomCounts b) r = msum (λ t, count (inRoom r t)) (threads w) ∧
        0 ≤ get (roomCounts b) r ≤ connectionsPerRoom b0) ∧
  (∀ a, get (ipCounts b) a = msum (λ t, count (fromIP a t)) (threads w) ∧
        0 ≤ get (ipCounts b) a ≤ connectionsPerIP b0) ∧
  (∀ c cl, peers b !! c = Some cl →
     queuedBytes cl = sizes (send cl) + msum (held c) (threads w) ∧
     0 ≤ queuedBytes cl ≤ queueBytes b0 ∧ len (send cl) ≤ queueMessages b0).
Proof.
  intros b0 w b. pose proof (NewBroker_fresh opts) as HF.
  pose proof (at_invariant _ opts os counted_inductive (counted_start _ HF)) as [HR HA].
  pose proof (at_invariant _ opts os queued_inductive (queued_start _ HF)) as [_ _ _ _ HQ].
  pose proof (at_invariant _ opts os (limited_inductive b0) ltac:(done)) as (L1 & L2 & L3 & L4).
  fold w b in HR, HA, HQ, L1, L2, L3, L4. rewrite L1 in HR. rewrite L2 in HA. split_and!.
  - intros r. rewrite (proj2 HR r). split; [done|]. split; [apply sum_bounds|].
    apply (counts_bounded _ _ _ r HR). apply HF.
  - intros a. rewrite (proj2 HA a). split; [done|]. split; [apply sum_bounds|].
    apply (counts_bounded _ _ _ a HA). apply HF.
  - intros c cl Hc. destruct (HQ c cl Hc) as [Q1 Q2 Q3 Q4]. rewrite <- L3, <- L4. split_and!; try done.
    rewrite Q1. pose proof (sizes_nonneg (send cl)).
    pose proof (msum_nonneg (held c) (threads w) (λ i t _, held_nonneg c t)). lia.
Qed.

Lemma room_served b m id r :
  roomed b m → rooms b !! id = Some r → some_thread m (λ t, ∃ ip c st, t = TServe id ip c st).
Proof.
  intros HI Hid. destruct (tb_state _ (rm_table _ _ HI) _ _ Hid) as [s Hs]. destruct (closed s) eqn:Hc.
  - destruct (rm_dead _ _ HI _ _ _ Hid Hs Hc) as (j & [id' ip c st|] & Hj & Hu); [|done].
    exists j, (TServe id' ip c st). split; [done|]. destruct st; try done. destruct Hu as [-> _]. by eexists _, _, _.
  - destruct (decide (clients s = ∅)) as [He|Hne].
    + destruct (rm_empty _ _ HI _ _ _ Hid Hs Hc He) as (j & [id' ip c st|] & Hj & Hu); [|done].
      exists j, (TServe id' ip c st). split; [done|]. destruct st; try done. destruct Hu as [-> _]. by eexists _, _, _.
    + apply set_choose_L in Hne as [d Hd]. apply (rm_members _ _ HI _ _ _ Hs) in Hd as (j & u & Hj & Hu).
      exists j, u. split; [done|]. pose proof (rm_handlers _ _ HI _ _ Hj) as Hok. destruct u as [id' ip c st|]; [|done].
      destruct Hu as [-> Hj']. destruct (proj1 Hok _ (joined_roomOf _ _ Hj')) as [_ Hx].
      rewrite (Hx _ Hid). by eexists _, _, _.
Qed.


(** Two clients of one room and one of another; the first sends a message. *)
Definition demoOps : list op :=
  let a := mkAnswer true (1, bytes_of "hi") true in
  [OServe "/room/" "10.0.0.1:5000" true; OServe "room" "[::1]:5000" true; OServe "/other" "10.0.0.1:5001" true;
   OServe "/room" "10.0.0.2:1" false; OServe "/ro om" "10.0.0.2:1" true]
  ++ [OStep 0 a; OStep 0 a; OStep 0 a; OStep 1 a; OStep 1 a; OStep 1 a; OStep 2 a; OStep 2 a; OStep 2 a;
      OStep 0 a; OStep 0 a].


End BrokerProofs.
