(* ===== verification/Centrifugo.v ===== *)
(** * Centrifugo.v: the Centrifugo signaling adapter (src/signaling/centrifugo)

    The client library has one subscription per topic, so the adapter keeps the handlers
    of a topic in a table.  Whether calls of the library succeed is the environment's
    choice.  Subscribing and unsubscribing run under the adapter's mutex; a publication
    takes the topic's table under it, and its calls of the handlers are one step here: a
    handler that is removed while they go on may or may not be called. *)

From S2P Require Import Prelude Signaling.
From Stdlib Require Import ZArith Lia Ascii String.
From stdpp Require Import base list option strings numbers gmap.

Local Open Scope Z_scope.
Local Open Scope go_scope.

Module Centrifugo.

(** Handlers by number.  [native]: the topics the library is subscribed to; [failed]:
    the topics for which that failed once. *)
Record AdapterImpl := mkAdapter {
  baseChannel : string;
  subs : gmap string (gmap Z nat);
  nextID : Z;
  native : gset string;
  failed : gset string
}.

#[export] Instance eta_adapter : Eta AdapterImpl := fun a =>
  mkAdapter (baseChannel a) (subs a) (nextID a) (native a) (failed a).

Definition DefaultBaseChannel : string := "telekit".

(** [NewAdapter] with an optional [WithBaseChannel]; the other options are settings of
    the library. *)
Definition NewAdapter (url : string) (base : option string) : result AdapterImpl :=
  base ← match base with
         | Some b => _ ← Signaling.ValidateRoutePrefix b ":"%char; Ok b
         | None => Ok DefaultBaseChannel
         end;
  _ ← guard_err (bool_decide (url = EmptyString)) "wsURL is required";
  Ok (mkAdapter base ∅ 0 ∅ ∅).

Definition topic (a : AdapterImpl) (roomID typ : string) : string := Signaling.centrifugoTopic (baseChannel a) roomID typ.

(** [ok]: whether [NewSubscription] and [Subscribe] succeed. *)
Definition subscribeOnce (a : AdapterImpl) (t : string) (ok : bool) : AdapterImpl * result unit :=
  if ok then (a <| native ::= (λ s, {[t]} ∪ s) |>, Ok tt)
  else (a <| failed ::= (λ s, {[t]} ∪ s) |>, Err "subscribe failed").

(** The entry of the topic is made before the library is asked. *)
Definition on (a : AdapterImpl) (t : string) (handler : option nat) (ok : bool) : AdapterImpl * result Z :=
  match handler with
  | None => (a, Err "handler is nil")
  | Some h =>
      let '(a, r) := match subs a !! t with
                     | Some _ => (a, Ok tt)
                     | None => subscribeOnce (a <| subs ::= <[t := ∅]> |>) t ok
                     end in
      match r with
      | Err e => (a, Err e)
      | Ok _ =>
          let id := i64 (nextID a + 1) in
          (a <| nextID := id |> <| subs ::= <[t := <[id := h]> (default ∅ (subs a !! t))]> |>, Ok id)
      end
  end.

Definition Subscribe (a : AdapterImpl) (roomID typ : string) (handler : option nat) (ok : bool) : AdapterImpl * result Z :=
  match Signaling.ValidateRoomID roomID, Signaling.ValidateMessageType typ with
  | Err e, _ | _, Err e => (a, Err e)
  | Ok _, Ok _ => on a (topic a roomID typ) handler ok
  end.

Definition unsubscribe (a : AdapterImpl) (id : Z) : AdapterImpl := a <| subs ::= fmap (delete id) |>.

(** The handlers a publication calls, once each, in some order; without a subscription
    at the library it does not arrive. *)
Definition publication (a : AdapterImpl) (t : string) : list nat :=
  if decide (t ∈ native a) then (map_to_list (default ∅ (subs a !! t))).*2 else [].

(** ** What the adapter promises *)

(** Histories, and the subscriptions that are alive: their identifiers with the topic
    and the handler. *)
Inductive op := OSubscribe (roomID typ : string) (handler : option nat) (ok : bool) | OUnsubscribe (id : Z).

Definition apply_ (a : AdapterImpl) (o : op) : AdapterImpl :=
  match o with
  | OSubscribe roomID typ h ok => (Subscribe a roomID typ h ok).1
  | OUnsubscribe id => unsubscribe a id
  end.

Definition live (m : gmap Z (string * nat)) (a : AdapterImpl) (o : op) : gmap Z (string * nat) :=
  match o with
  | OSubscribe roomID typ h ok =>
      match (Subscribe a roomID typ h ok).2, h with
      | Ok id, Some h => <[id := (topic a roomID typ, h)]> m
      | _, _ => m
      end
  | OUnsubscribe id => delete id m
  end.

Definition run (a : AdapterImpl) (os : list op) : AdapterImpl * gmap Z (string * nat) :=
  foldl (λ s o, (apply_ s.1 o, live s.2 s.1 o)) (a, ∅) os.

(** The handlers a topic should have. *)
Definition liveHandlers (m : gmap Z (string * nat)) (t : string) : list nat :=
  (map_to_list (snd <$> filter (λ p, p.2.1 = t) m)).*2.

(** The table holds the live subscriptions, identifiers are not used twice, and a topic
    with an entry is subscribed at the library unless that failed. *)
Record refines (n : Z) (a : AdapterImpl) (m : gmap Z (string * nat)) : Prop := {
  r_next : nextID a = n;
  r_table : ∀ t id h, default ∅ (subs a !! t) !! id = Some h ↔ m !! id = Some (t, h);
  r_ids : ∀ id, is_Some (m !! id) → id ≤ n;
  r_native : ∀ t, is_Some (subs a !! t) ↔ t ∈ native a ∨ t ∈ failed a;
  r_failed : native a ## failed a
}.

Lemma refines_add n a m t h :
  refines n a m → is_Some (subs a !! t) →
  refines (n + 1) (a <| nextID := n + 1 |> <| subs ::= <[t := <[n + 1 := h]> (default ∅ (subs a !! t))]> |>)
    (<[n + 1 := (t, h)]> m).
Proof.
  intros [H1 H2 H3 H4 H5] Ht.
  assert (m !! (n + 1) = None) as Hfresh by (apply eq_None_not_Some; intros Hx%H3; lia).
  split; cbn; [done| | | |done].
  - intros t' id h'. destruct (decide (t' = t)) as [->|Hne].
    + rewrite lookup_insert_eq. cbn. destruct (decide (id = n + 1)) as [->|Hi].
      * rewrite !lookup_insert_eq. naive_solver.
      * rewrite !lookup_insert_ne by done. apply H2.
    + rewrite lookup_insert_ne by done. rewrite H2. destruct (decide (id = n + 1)) as [->|Hi].
      * rewrite lookup_insert_eq, Hfresh. naive_solver.
      * by rewrite lookup_insert_ne.
  - intros id [x Hx]. apply lookup_insert_Some in Hx as [[<- _]|[_ Hx]]; [lia|]. assert (id ≤ n); [|lia]. apply H3. eauto.
  - intros t'. rewrite <- H4, lookup_insert_is_Some. destruct (decide (t = t')) as [->|]; naive_solver.
Qed.

Lemma subscribeOnce_refines n a m t ok :
  refines n a m → subs a !! t = None →
  let a' := (subscribeOnce (a <| subs ::= <[t := ∅]> |>) t ok).1 in refines n a' m ∧ is_Some (subs a' !! t).
Proof.
  intros [H1 H2 H3 H4 H5] Ht a'. assert (¬ (t ∈ native a ∨ t ∈ failed a)) as Hn by (rewrite <- H4, Ht; by intros []).
  assert (∀ t' id h', default ∅ (<[t := ∅]> (subs a) !! t') !! id = Some h' ↔ m !! id = Some (t', h')) as H2'.
  { intros t' id h'. rewrite <- H2. destruct (decide (t' = t)) as [->|]; [by rewrite lookup_insert_eq, Ht|by rewrite lookup_insert_ne]. }
  assert (∀ t', is_Some (<[t := ∅]> (subs a) !! t') ↔ t' = t ∨ t' ∈ native a ∨ t' ∈ failed a) as H4'.
  { intros t'. rewrite <- H4, lookup_insert_is_Some. destruct (decide (t = t')) as [->|]; naive_solver. }
  subst a'. unfold subscribeOnce. destruct ok; cbn; (split; [split|]; cbn; try done; try (by rewrite lookup_insert_eq); [|set_solver]).
  all: intros t'; rewrite H4'; set_solver.
Qed.

Lemma on_refines n a m t h ok :
  0 ≤ n < 2 ^ 63 - 1 → refines n a m →
  ∃ n', n ≤ n' ≤ n + 1 ∧ refines n' (on a t h ok).1
    match (on a t h ok).2, h with Ok id, Some h => <[id := (t, h)]> m | _, _ => m end.
Proof.
  intros Hn HR. destruct h as [h|]; [|exists n; by split; [lia|]].
  assert (i64 (n + 1) = n + 1) as Hid by (unfold i64; rewrite Z.mod_small; lia).
  unfold on. destruct (subs a !! t) as [x|] eqn:Et.
  - exists (n + 1). split; [lia|]. cbn. rewrite (r_next _ _ _ HR), Hid. apply refines_add; eauto.
  - destruct (subscribeOnce_refines n a m t ok HR Et) as [HR' Hs]. destruct (subscribeOnce _ t ok) as [a' [[]|e]]; cbn in *.
    + exists (n + 1). split; [lia|]. rewrite (r_next _ _ _ HR'), Hid. by apply refines_add.
    + exists n. by split; [lia|].
Qed.

Lemma unsubscribe_refines n a m id : refines n a m → refines n (unsubscribe a id) (delete id m).
Proof.
  intros [H1 H2 H3 H4 H5]. split; cbn; try done.
  - intros t id' h. rewrite lookup_fmap, lookup_delete_Some, <- H2. destruct (subs a !! t); cbn.
    + apply lookup_delete_Some.
    + rewrite lookup_empty. naive_solver.
  - intros id' [x [_ Hx]%lookup_delete_Some]. apply H3. eauto.
  - intros t. by rewrite lookup_fmap, fmap_is_Some.
Qed.

Lemma history_refines n a m os :
  0 ≤ n → n + Z.of_nat (length os) < 2 ^ 63 → refines n a m →
  let s := foldl (λ s o, (apply_ s.1 o, live s.2 s.1 o)) (a, m) os in ∃ n', refines n' s.1 s.2.
Proof.
  revert n a m. induction os as [|o os IH]; intros n a m H0 Hn HR; cbn [foldl length] in *; [by exists n|].
  assert (∃ n', n ≤ n' ≤ n + 1 ∧ refines n' (apply_ a o) (live m a o)) as (n' & ? & HR').
  { destruct o as [r y h ok|id]; cbn [apply_ live]; [|exists n; split; [lia|by apply unsubscribe_refines]].
    unfold Subscribe. destruct (Signaling.ValidateRoomID r), (Signaling.ValidateMessageType y);
      try (exists n; split; [lia|by destruct h]). apply on_refines; [lia|done]. }
  apply (IH n'); [lia..|done].
Qed.

Lemma refines_new base : refines 0 (mkAdapter base ∅ 0 ∅ ∅) ∅.
Proof.
  split; cbn; [done| | | |set_solver].
  - intros t id h. by rewrite (lookup_empty t), !lookup_empty.
  - intros id [x Hx]. by rewrite lookup_empty in Hx.
  - intros t. rewrite lookup_empty. split; [by intros []|set_solver].
Qed.

(** C37: after any history of subscriptions and removals, a publication on a topic
    calls the handlers whose subscriptions to it succeeded and were not removed, each
    once, and no others; only for a topic whose first subscription the library refused
    it calls none, although later subscriptions to it are accepted. *)
Theorem centrifugo_delivery url base a os t :
  NewAdapter url base = Ok a → Z.of_nat (length os) < 2 ^ 63 →
  let '(a', m) := run a os in
  publication a' t = if decide (t ∈ failed a') then [] else liveHandlers m t.
Proof.
  intros Hnew Hlen. assert (refines 0 a ∅) as HR.
  { unfold NewAdapter in Hnew. destruct base as [b|]; cbn in Hnew; [destruct (Signaling.ValidateRoutePrefix b ":"%char); [|done]|];
      cbn in Hnew; destruct (bool_decide _); simplify_eq/=; apply refines_new. }
  destruct (history_refines 0 a ∅ os ltac:(lia) ltac:(lia) HR) as [n [_ H2 _ H4 H5]]. unfold run.
  destruct (foldl _ _ _) as [a' m]; cbn in *. unfold publication, liveHandlers.
  assert (default ∅ (subs a' !! t) = snd <$> filter (λ p, p.2.1 = t) m) as <-.
  { apply map_eq. intros id. apply option_eq. intros h. rewrite H2, lookup_fmap_Some. setoid_rewrite map_lookup_filter_Some.
    split; [intros Hm; by exists (t, h)|by intros ([? ?] & <- & ? & <-)]. }
  destruct (decide (t ∈ failed a')) as [Hf|Hf].
  - rewrite decide_False by set_solver. done.
  - case_decide; [done|]. assert (subs a' !! t = None) as -> by (apply eq_None_not_Some; rewrite H4; naive_solver). done.
Qed.

(** Two handlers of one topic, one of another; the first is removed. *)
Definition sampleOps : list op :=
  [OSubscribe "room1" "offer" (Some 7%nat) true; OSubscribe "room1" "offer" (Some 8%nat) true;
   OSubscribe "room2" "offer" (Some 9%nat) true; OUnsubscribe 1].

Lemma centrifugo_delivery_witness :
  let a := mkAdapter "telekit" ∅ 0 ∅ ∅ in
  let t := "telekit:room1:offer"%string in
  NewAdapter "wss://host" None = Ok a ∧
  (let '(a', m) := run a sampleOps in publication a' t = if decide (t ∈ failed a') then [] else liveHandlers m t) ∧
  publication (run a sampleOps).1 t = [8%nat].
Proof.
  split; [vm_compute; reflexivity|]. split; [|vm_compute; reflexivity].
  apply (centrifugo_delivery "wss://host" None); vm_compute; reflexivity.
Defined.

(** A refused first subscription leaves the topic's entry behind: the next one succeeds
    without asking the library, and its handler is never called. *)
Lemma refused_topic_stays_deaf :
  let a := mkAdapter "telekit" ∅ 0 ∅ ∅ in
  let '(a1, r1) := Subscribe a "room1" "offer" (Some 7%nat) false in
  let '(a2, r2) := Subscribe a1 "room1" "offer" (Some 7%nat) true in
  r1 = Err "subscribe failed" ∧ r2 = Ok 1 ∧ publication a2 "telekit:room1:offer" = [].
Proof. vm_compute. auto. Qed.

End Centrifugo.
