(* ===== verification/Nats.v ===== *)
(** * Nats.v: the NATS signaling adapter (src/signaling/nats)

    The client library has one subscription per handler; the adapter keeps the current
    connection.  Whether calls of the library succeed, and when it gives a connection up,
    is the environment's choice.  The delay before a reconnect is in Signaling.v. *)

From S2P Require Import Prelude Signaling.
From Stdlib Require Import ZArith Lia Ascii String.
From stdpp Require Import base list option strings numbers gmap.

Local Open Scope Z_scope.
Local Open Scope go_scope.

Module Nats.

(** A connection by number; [conns] says of each connection made whether it is closed
    (by [Close] or by the library, which gives up after the configured number of
    reconnects). *)
Record Adapter := mkNats {
  baseSubject : string;
  nc : option nat;
  conns : list bool;
  subscriptions : list (nat * string * nat)
}.

#[export] Instance eta_nats : Eta Adapter := fun a => mkNats (baseSubject a) (nc a) (conns a) (subscriptions a).

Definition NewAdapterWithBaseSubject (url base : string) : result Adapter :=
  _ ← guard_err (bool_decide (url = EmptyString)) "NATS URL is required";
  _ ← Signaling.ValidateRoutePrefix base "."%char;
  Ok (mkNats base None [] []).

Definition IsClosed (a : Adapter) (c : nat) : bool := default true (conns a !! c).

(** [ok]: whether [natsgo.Connect] succeeds. *)
Definition Connect (a : Adapter) (ok : bool) : Adapter * result unit :=
  if match nc a with Some c => negb (IsClosed a c) | None => false end then (a, Ok tt)
  else if ok then (a <| nc := Some (length (conns a)) |> <| conns := conns a ++ [false] |>, Ok tt)
  else (a, Err "connect failed").

(** Closing a connection ends its subscriptions. *)
Definition closeConn (a : Adapter) (c : nat) : Adapter :=
  a <| conns := <[c := true]> (conns a) |> <| subscriptions ::= filter (λ s, s.1.1 ≠ c) |>.

Definition Disconnect (a : Adapter) : Adapter :=
  match nc a with
  | None => a
  | Some c => (closeConn a c) <| nc := None |>
  end.

Definition connectionAndSubject (a : Adapter) (roomID typ : string) : result (nat * string) :=
  _ ← Signaling.ValidateRoomID roomID;
  _ ← Signaling.ValidateMessageType typ;
  match nc a with
  | Some c => if IsClosed a c then Err "adapter is closed" else Ok (c, Signaling.natsSubject (baseSubject a) roomID typ)
  | None => Err "adapter is closed"
  end.

(** [subOk] and [flushOk]: whether [nc.Subscribe] and [nc.Flush] succeed. *)
Definition Subscribe (a : Adapter) (roomID typ : string) (handler : option nat) (subOk flushOk : bool) : Adapter * result unit :=
  match handler with
  | None => (a, Err "handler is nil")
  | Some h =>
      match connectionAndSubject a roomID typ with
      | Err e => (a, Err e)
      | Ok (c, s) =>
          if negb subOk then (a, Err "subscribe failed")
          else if negb flushOk then (a, Err "flush failed")
          else (a <| subscriptions ::= (λ l, l ++ [(c, s, h)]) |>, Ok tt)
      end
  end.

Inductive op := OConnect (ok : bool) | ODisconnect | OLost (c : nat)
  | OSubscribe (roomID typ : string) (handler : option nat) (subOk flushOk : bool).

Definition apply_ (a : Adapter) (o : op) : Adapter :=
  match o with
  | OConnect ok => (Connect a ok).1
  | ODisconnect => Disconnect a
  | OLost c => closeConn a c
  | OSubscribe r t h s f => (Subscribe a r t h s f).1
  end.

(** Only the current connection is open, and subscriptions are of open connections. *)
Record valid (a : Adapter) : Prop := {
  v_open : ∀ c, conns a !! c = Some false → nc a = Some c;
  v_nc : ∀ c, nc a = Some c → is_Some (conns a !! c);
  v_subs : Forall (λ s, conns a !! s.1.1 = Some false) (subscriptions a)
}.

Lemma closeConn_conns a c c' : conns (closeConn a c) !! c' = Some false ↔ c ≠ c' ∧ conns a !! c' = Some false.
Proof. cbn. rewrite list_lookup_insert_Some. naive_solver. Qed.

Lemma closeConn_valid a c : valid a → valid (closeConn a c).
Proof.
  intros [H1 H2 H3]. split.
  - intros c' [_ Hc]%closeConn_conns. by apply H1.
  - intros c' Hc. cbn. rewrite list_lookup_insert_is_Some. auto.
  - apply Forall_forall. intros s [Hne Hs]%list_elem_of_filter. apply closeConn_conns. split; [done|]. by eapply Forall_forall in H3.
Qed.

Lemma apply_valid a o : valid a → valid (apply_ a o).
Proof.
  intros HV. destruct o as [ok| |c|r t h s f]; cbn [apply_].
  - unfold Connect. destruct (match nc a with Some c => _ | None => _ end) eqn:E; [done|]. destruct ok; [|done].
    destruct HV as [H1 H2 H3]. assert (∀ c, conns a !! c ≠ Some false) as Hn.
    { intros c Hc. rewrite (H1 c Hc) in E. unfold IsClosed in E. by rewrite Hc in E. }
    split; cbn.
    + intros c [Hc|[Hc Hk]]%lookup_app_Some; [by destruct (Hn c)|].
      destruct (c - length (conns a))%nat as [|k] eqn:Ek in Hk; [|by destruct k]. f_equal. lia.
    + intros c [= <-]. rewrite lookup_app_r, Nat.sub_diag by lia. eauto.
    + apply Forall_forall. intros s Hs. eapply Forall_forall in H3; [|done]. by destruct (Hn s.1.1).
  - unfold Disconnect. destruct (nc a) as [c|] eqn:E; [|done]. destruct (closeConn_valid a c HV) as [H1 _ H3]. split; cbn; [|done..].
    intros c' Hc. destruct HV as [H1' _ _]. apply (closeConn_conns a c c') in Hc as [? Hc]. apply H1' in Hc. congruence.
  - by apply closeConn_valid.
  - unfold Subscribe. destruct h as [h|]; [|done]. destruct (connectionAndSubject a r t) as [[c x]|e] eqn:E; [|done].
    destruct s, f; try done. destruct HV as [H1 H2 H3]. split; cbn; [done..|]. apply Forall_app. split; [done|]. apply Forall_singleton. cbn.
    unfold connectionAndSubject in E. destruct (Signaling.ValidateRoomID r), (Signaling.ValidateMessageType t); try done; cbn in E.
    destruct (nc a) as [d|]; [|done]. unfold IsClosed in E. destruct (conns a !! d) as [[]|] eqn:Ed; simplify_eq/=. done.
Qed.

(** The adapter never holds two NATS connections: after any history of connects,
    disconnects, losses and subscriptions, the only connection that can be open is the
    current one, each live subscription is on it, and after [Disconnect] none is open and
    no subscription is left. *)
Theorem nats_one_connection url base a os :
  NewAdapterWithBaseSubject url base = Ok a →
  let a' := foldl apply_ a os in
  (∀ c, conns a' !! c = Some false → nc a' = Some c) ∧
  (∀ s, s ∈ subscriptions a' → nc a' = Some s.1.1 ∧ conns a' !! s.1.1 = Some false) ∧
  (∀ c, conns (Disconnect a') !! c ≠ Some false) ∧ subscriptions (Disconnect a') = [].
Proof.
  intros Hnew a'. assert (valid a') as HV.
  { subst a'. assert (valid a) as HV.
    { unfold NewAdapterWithBaseSubject in Hnew. destruct (bool_decide _), (Signaling.ValidateRoutePrefix base "."%char); simplify_eq/=.
      split; cbn; [by intros []|done|constructor]. }
    clear Hnew. revert a HV. induction os as [|o os IH]; intros a HV; cbn; [done|]. apply IH. by apply apply_valid. }
  clearbody a'. pose proof (apply_valid a' ODisconnect HV) as [D1 _ D3]. destruct HV as [H1 H2 H3].
  assert (∀ c, conns (Disconnect a') !! c ≠ Some false) as Hd.
  { intros c Hc. apply D1 in Hc. cbn [apply_] in Hc. unfold Disconnect in Hc. by destruct (nc a') eqn:E; cbn in Hc; rewrite ?E in Hc. }
  split; [done|]. split; [|split; [done|]].
  - intros s Hs. eapply Forall_forall in H3; [|done]. auto.
  - cbn [apply_] in D3. destruct (subscriptions (Disconnect a')) as [|s l]; [done|]. inversion D3; subst. by destruct (Hd s.1.1).
Qed.

Lemma nats_one_connection_witness :
  let a := mkNats "telekit" None [] [] in
  let os := [OConnect true; OSubscribe "room1" "offer" (Some 7%nat) true true; OConnect true; OLost 0; OConnect true;
             OSubscribe "room1" "offer" (Some 8%nat) true true] in
  NewAdapterWithBaseSubject "nats://host" "telekit" = Ok a ∧
  subscriptions (foldl apply_ a os) = [(1%nat, "telekit.room1.offer"%string, 8%nat)] ∧
  (∀ c, conns (Disconnect (foldl apply_ a os)) !! c ≠ Some false).
Proof.
  split; [vm_compute; reflexivity|]. split; [vm_compute; reflexivity|].
  apply (nats_one_connection "nats://host" "telekit"). vm_compute. reflexivity.
Defined.

End Nats.
