(* ===== verification/WsClient.v ===== *)
(** * WsClient.v: the WebSocket signaling adapter
    (src/signaling/websocket: adapter.go, room.go, read.go, new.go, types.go)

    The adapter has one connection per room, opened by the first call that needs it.  A
    read loop calls the handlers of the room and, when the connection is lost, dials
    again until the room is given up; a ping loop watches the connection.

    The adapter is a machine: goroutines for the calls of the application, for read
    loops, ping loops and the closing part of [Disconnect], each cut at the mutexes, the
    dials, the socket calls and the channel operations.  Rooms and connections are cells,
    so that the table and the goroutines share them; a connection is whether it is open.
    Sockets, dials, timers and JSON are the environment.  [calls] records the calls of
    handlers, [strays] the connections given to a room that had been closed; no step
    depends on them. *)

From S2P Require Import Prelude Threads Signaling.
From Stdlib Require Import ZArith Lia String.
From stdpp Require Import base list option strings numbers gmap.

Local Open Scope Z_scope.
Local Open Scope go_scope.

Module WsClient.
Import Threads.

Definition millisecond : Z := 1000000.
Definition websocketReconnectMin : Z := 250 * millisecond.
Definition websocketReconnectMax : Z := 30000 * millisecond.

(** ** State *)

(** [roomConn.close]: not called, after [close(r.done)], finished. *)
Inductive closeState := NotClosed | DoneClosed | Closed.

#[export] Instance closeState_eq_dec : EqDecision closeState.
Proof. solve_decision. Defined.

(** Connections and handlers by number. *)
Record roomConn := mkRoom {
  conn : option nat;
  closing : closeState;
  handlers : gmap string (gmap Z nat)
}.

#[export] Instance eta_room : Eta roomConn := fun r => mkRoom (conn r) (closing r) (handlers r).

(** [rooms] leads to cells of [cells]; [conns] is whether a connection is open;
    [pingDone] the connections whose ping loop was told to end. *)
Record Adapter := mkAdapter {
  connected : bool;
  rooms : gmap string nat;
  cells : list roomConn;
  nextID : Z;
  reconnectMin : Z;
  reconnectMax : Z;
  conns : list bool;
  pingDone : gset nat;
  calls : list (nat * list byte);
  strays : list nat
}.

#[export] Instance eta_adapter : Eta Adapter := fun a =>
  mkAdapter (connected a) (rooms a) (cells a) (nextID a) (reconnectMin a) (reconnectMax a) (conns a) (pingDone a)
    (calls a) (strays a).

(** Options; the dialer, the headers and the callbacks that inform the application are
    not part of the model. *)
Definition WithReconnectBackoff (minDelay maxDelay : Z) (a : Adapter) : Adapter :=
  let a := if 0 <? minDelay then a <| reconnectMin := minDelay |> else a in
  let a := if 0 <? maxDelay then a <| reconnectMax := maxDelay |> else a in
  if (0 <? reconnectMax a) && (reconnectMax a <? reconnectMin a) then a <| reconnectMax := reconnectMin a |> else a.

(** [scheme]: what [url.Parse] found, or its error; [opts]: the delays of the calls of
    [WithReconnectBackoff]. *)
Definition NewAdapter (scheme : result string) (opts : list (Z * Z)) : result Adapter :=
  scheme ← scheme;
  _ ← guard_err (negb (bool_decide (scheme = "ws"%string)) && negb (bool_decide (scheme = "wss"%string)))
        "WebSocket URL must use ws or wss";
  Ok (foldl (λ a opt, WithReconnectBackoff opt.1 opt.2 a) (mkAdapter false ∅ [] 0 0 0 [] ∅ [] []) opts).

(** What a call does once it has its room. *)
Inductive call :=
| KPublish
| KSubscribe (typ : string) (handler : nat).

Inductive thread :=
| TEnsure (room : string) (k : call)
| TDial (room : string) (k : call)
| TInstall (room : string) (c : nat) (k : call)
| TGot (r : nat) (k : call)
| TRead (room : string) (r c : nat)
| TCall (room : string) (r c : nat) (hs : list nat) (payload : list byte)
| TLost (room : string) (r c : nat)
| TDrop (room : string) (r c : nat)
| TClear (room : string) (r c : nat)
| TReconnect (room : string) (r : nat) (delay maxDelay : Z)
| TRedial (room : string) (r : nat) (delay maxDelay : Z)
| TCheck (room : string) (r c : nat)
| TSet (room : string) (r c : nat)
| TWait (room : string) (r : nat) (delay maxDelay : Z)
| TRemove (room : string) (r : nat)
| TPing (r c : nat)
| TClose (l : list nat)
| TCloseConn (r : nat) (l : list nat).

(** What the outside does in a step: a dial, a read, a write, and the case a select
    takes. *)
Inductive choice :=
| Go
| Ok_
| Fail
| Message (typ : string) (payload : list byte)
| Junk
| Tick.

(** ** Operations *)

Definition roomActive (a : Adapter) (room : string) (r : nat) : bool :=
  connected a && bool_decide (rooms a !! room = Some r).

Definition updateRoom (a : Adapter) (r : nat) (f : roomConn → roomConn) : Adapter := a <| cells ::= alter f r |>.

Definition closeConn (a : Adapter) (c : nat) : Adapter := a <| conns ::= <[c := false]> |>.

Definition removeRoom (a : Adapter) (room : string) (r : nat) : Adapter :=
  if decide (rooms a !! room = Some r) then a <| rooms ::= delete room |> else a.

(** The delays [reconnectRoom] starts with. *)
Definition firstDelays (a : Adapter) : Z * Z :=
  let delay := if reconnectMin a <=? 0 then websocketReconnectMin else reconnectMin a in
  (delay, if reconnectMax a <? delay then websocketReconnectMax else reconnectMax a).

(** And how it goes on. *)
Definition nextDelay (delay maxDelay : Z) : Z :=
  if delay <? maxDelay then let delay := i64 (delay * 2) in if maxDelay <? delay then maxDelay else delay else delay.

(** ** Goroutines *)

Abbreviation step_result := (option (Adapter * option thread * list thread)) (only parsing).

Definition next (a : Adapter) (t : thread) : step_result := Some (a, Some t, []).
Definition return_ (a : Adapter) : step_result := Some (a, None, []).

(** [ensureRoom]. *)
Definition ensureStep (a : Adapter) (t : thread) (ch : choice) : step_result :=
  match t with
  | TEnsure room k =>
      if negb (connected a) then return_ a
      else match rooms a !! room with
      | Some r => next a (TGot r k)
      | None => next a (TDial room k)
      end
  | TDial room k =>
      match ch with
      | Ok_ => next (a <| conns ::= (λ l, l ++ [true]) |>) (TInstall room (length (conns a)) k)
      | _ => return_ a
      end
  | TInstall room c k =>
      if negb (connected a) then return_ (closeConn a c)
      else match rooms a !! room with
      | Some r => next (closeConn a c) (TGot r k)
      | None =>
          let r := length (cells a) in
          Some (a <| cells ::= (λ l, l ++ [mkRoom (Some c) NotClosed ∅]) |> <| rooms ::= <[room := r]> |>,
                Some (TGot r k), [TRead room r c; TPing r c])
      end
  | _ => None
  end.

(** The rest of [Publish] and [Subscribe]. *)
Definition gotStep (a : Adapter) (r : nat) (k : call) (ch : choice) : step_result :=
  rc ← cells a !! r;
  match k with
  | KPublish =>
      match conn rc, ch with
      | None, _ => return_ a
      | Some c, Fail => return_ (closeConn a c)
      | Some c, _ => return_ a
      end
  | KSubscribe typ h =>
      let id := u64 (nextID a + 1) in
      return_ (updateRoom (a <| nextID := id |>) r
                 (λ rc, rc <| handlers ::= (λ m, <[typ := <[id := h]> (default ∅ (m !! typ))]> m) |>))
  end.

(** [readLoop]: the inner loop. *)
Definition readStep (a : Adapter) (t : thread) (ch : choice) : step_result :=
  match t with
  | TRead room r c =>
      rc ← cells a !! r;
      match ch with
      | Message typ payload =>
          next a (TCall room r c (map_to_list (default ∅ (handlers rc !! typ))).*2 payload)
      | Junk => next a t
      | Fail => next (a <| pingDone ::= (λ s, {[c]} ∪ s) |>) (TLost room r c)
      | _ => None
      end
  | TCall room r c hs payload =>
      match hs with
      | [] => next a (TRead room r c)
      | h :: hs => next (a <| calls ::= (λ l, l ++ [(h, payload)]) |>) (TCall room r c hs payload)
      end
  | _ => None
  end.

(** [readLoop] after an error, with [reconnectRoom] and [removeRoom]. *)
Definition lostStep (a : Adapter) (t : thread) (ch : choice) : step_result :=
  match t with
  | TLost room r c => if roomActive a room r then next a (TDrop room r c) else return_ a
  | TDrop room r c => next (closeConn a c) (TClear room r c)
  | TClear room r c =>
      rc ← cells a !! r;
      let a := if decide (conn rc = Some c) then updateRoom a r (λ rc, rc <| conn := None |>) else a in
      next a (TReconnect room r (firstDelays a).1 (firstDelays a).2)
  | TReconnect room r d m => next a (if roomActive a room r then TRedial room r d m else TRemove room r)
  | TRedial room r d m =>
      match ch with
      | Ok_ => next (a <| conns ::= (λ l, l ++ [true]) |>) (TCheck room r (length (conns a)))
      | _ => next a (TWait room r d m)
      end
  | TCheck room r c =>
      if roomActive a room r then next a (TSet room r c) else next (closeConn a c) (TRemove room r)
  | TSet room r c =>
      rc ← cells a !! r;
      let a := if decide (closing rc = Closed) then a <| strays ::= cons c |> else a in
      Some (updateRoom a r (λ rc, rc <| conn := Some c |>), Some (TRead room r c), [TPing r c])
  | TWait room r d m =>
      rc ← cells a !! r;
      match ch with
      | Tick => next a (TReconnect room r (nextDelay d m) m)
      | _ => if decide (closing rc = NotClosed) then None else next a (TRemove room r)
      end
  | TRemove room r => return_ (removeRoom a room r)
  | _ => None
  end.

(** [pingLoop]: a tick whose ping is written or fails, or one of the channels. *)
Definition pingStep (a : Adapter) (r c : nat) (ch : choice) : step_result :=
  rc ← cells a !! r;
  match ch with
  | Ok_ => if decide (conn rc = Some c) then next a (TPing r c) else return_ a
  | Fail => if decide (conn rc = Some c) then return_ (closeConn a c) else return_ a
  | _ => if decide (c ∈ pingDone a ∨ closing rc ≠ NotClosed) then return_ a else None
  end.

(** [roomConn.close] of the rooms [Disconnect] has taken. *)
Definition closeStep (a : Adapter) (t : thread) : step_result :=
  match t with
  | TClose [] => return_ a
  | TClose (r :: l) =>
      rc ← cells a !! r;
      match closing rc with
      | NotClosed => next (updateRoom a r (λ rc, rc <| closing := DoneClosed |>)) (TCloseConn r l)
      | DoneClosed => None
      | Closed => next a (TClose l)
      end
  | TCloseConn r l =>
      rc ← cells a !! r;
      let a := match conn rc with Some c => closeConn a c | None => a end in
      next (updateRoom a r (λ rc, rc <| conn := None |> <| closing := Closed |>)) (TClose l)
  | _ => None
  end.

Definition threadStep (a : Adapter) (t : thread) (ch : choice) : step_result :=
  match t with
  | TEnsure _ _ | TDial _ _ | TInstall _ _ _ => ensureStep a t ch
  | TGot r k => gotStep a r k ch
  | TRead _ _ _ | TCall _ _ _ _ _ => readStep a t ch
  | TPing r c => pingStep a r c ch
  | TClose _ | TCloseConn _ _ => closeStep a t
  | _ => lostStep a t ch
  end.

(** ** The machine *)

Record state := mkState {
  adapter : Adapter;
  threads : gmap nat thread
}.

#[export] Instance eta_state : Eta state := fun s => mkState (adapter s) (threads s).

Inductive label :=
| LConnect
| LDisconnect
| LPublish (room typ : string)
| LSubscribe (room typ : string) (handler : nat)
| LUnsubscribe (r : nat) (typ : string) (id : Z)
| LThread (i : nat) (ch : choice).

(** A call whose arguments are valid. *)
Definition begins (s : state) (room typ : string) (k : call) : state :=
  match Signaling.ValidateMessageType typ, Signaling.ValidateRoomID room with
  | Ok _, Ok _ => s <| threads ::= (λ m, spawn m (TEnsure room k)) |>
  | _, _ => s
  end.

Definition step (s : state) (l : label) : option state :=
  let a := adapter s in
  match l with
  | LConnect => Some (s <| adapter := a <| connected := true |> |>)
  | LDisconnect =>
      Some (mkState (a <| rooms := ∅ |> <| connected := false |>)
              (spawn (threads s) (TClose (map_to_list (rooms a)).*2)))
  | LPublish room typ => Some (begins s room typ KPublish)
  | LSubscribe room typ h => Some (begins s room typ (KSubscribe typ h))
  | LUnsubscribe r typ id =>
      Some (s <| adapter := updateRoom a r (λ rc, rc <| handlers ::= alter (delete id) typ |>) |>)
  | LThread i ch =>
      t ← threads s !! i;
      '(a, t', new) ← threadStep a t ch;
      Some (mkState a (after (threads s) i t' new))
  end.

Fixpoint steps (s : state) (ls : list label) : option state :=
  match ls with
  | [] => Some s
  | l :: ls => s ← step s l; steps s ls
  end.

Definition initial (a : Adapter) : state := mkState a ∅.

End WsClient.
