(* ===== verification/WsClientProofs.v ===== *)
(** * WsClientProofs.v: read loops, connections and delays of the WebSocket adapter *)

From S2P Require Import Prelude Threads Signaling WsClient.
From Stdlib Require Import ZArith Lia String.
From stdpp Require Import base list option strings numbers gmap.

Local Open Scope Z_scope.
Local Open Scope go_scope.

Module WsClientProofs.
Import Threads WsClient.

(** ** What goroutines have *)

(** The room a read loop is for. *)
Definition readerOf (t : thread) : option (string * nat) :=
  match t with
  | TRead room r _ | TCall room r _ _ _ | TLost room r _ | TDrop room r _ | TClear room r _
  | TReconnect room r _ _ | TRedial room r _ _ | TCheck room r _ | TSet room r _ | TWait room r _ _ | TRemove room r =>
      Some (room, r)
  | _ => None
  end.

(** The connection a read loop reads, until it has closed it. *)
Definition readsConn (t : thread) : option nat :=
  match t with TRead _ _ c | TCall _ _ c _ _ | TLost _ _ c | TDrop _ _ c => Some c | _ => None end.

(** A connection nobody else knows. *)
Definition heldConn (t : thread) : option nat :=
  match t with TInstall _ c _ | TCheck _ _ c | TSet _ _ c => Some c | _ => None end.

(** The connection of its room, as far as a read loop can tell. *)
Definition roomConnOf (t : thread) : option nat :=
  match t with TClear _ _ c => Some c | _ => readsConn t end.

(** A room that will be closed. *)
Definition closes (r : nat) (t : thread) : Prop :=
  match t with
  | TClose l => r ∈ l
  | TCloseConn r' l => r = r' ∨ r ∈ l
  | _ => False
  end.

Definition hasReader (m : gmap nat thread) (r : nat) : Prop := some_thread m (λ t, ∃ room, readerOf t = Some (room, r)).

Definition uses (c : nat) (t : thread) : Prop := heldConn t = Some c ∨ readsConn t = Some c.

(** A connection someone will close. *)
Definition covered (a : Adapter) (m : gmap nat thread) (c : nat) : Prop :=
  some_thread m (uses c) ∨ c ∈ strays a
  ∨ ∃ r rc, cells a !! r = Some rc ∧ conn rc = Some c ∧ some_thread m (closes r) ∧ ¬ hasReader m r.

Record thread_ok (a : Adapter) (t : thread) : Prop := {
  h_room : ∀ room r, readerOf t = Some (room, r) → ∃ rc, cells a !! r = Some rc
    ∧ (∀ c, conn rc = Some c → roomConnOf t = Some c)
    ∧ (∀ c, readsConn t = Some c → c ∈ strays a ∨ conn rc = Some c ∨ conns a !! c = Some false)
    ∧ (t = TRemove room r → ∀ room', rooms a !! room' ≠ Some r);
  h_conn : ∀ c, heldConn t = Some c ∨ roomConnOf t = Some c → (c < length (conns a))%nat;
  h_close : ∀ r, closes r t → (r < length (cells a))%nat ∧ ∀ room, rooms a !! room ≠ Some r
}.

Record inv (a : Adapter) (m : gmap nat thread) : Prop := {
  i_threads : ∀ i t, m !! i = Some t → thread_ok a t;
  i_once : ∀ i j t u room room' r, m !! i = Some t → m !! j = Some u →
    readerOf t = Some (room, r) → readerOf u = Some (room', r) → i = j;
  i_table : ∀ room r, rooms a !! room = Some r →
    some_thread m (λ t, readerOf t = Some (room, r)) ∧ ∃ rc, cells a !! r = Some rc ∧ closing rc = NotClosed;
  i_off : connected a = false → rooms a = ∅;
  i_pending : ∀ r rc, cells a !! r = Some rc → closing rc ≠ Closed →
    (∃ room, rooms a !! room = Some r) ∨ some_thread m (closes r);
  i_closed : ∀ r rc c, cells a !! r = Some rc → closing rc = Closed → conn rc = Some c → c ∈ strays a;
  i_cells : ∀ r rc c, cells a !! r = Some rc → conn rc = Some c → (c < length (conns a))%nat;
  i_open : ∀ c, conns a !! c = Some true → covered a m c
}.

(** ** Steps that change little *)

(** The rooms have the connections they had; connections were closed, or are new. *)
Record sim (a a' : Adapter) : Prop := {
  s_rooms : rooms a' = rooms a;
  s_connected : connected a' = connected a;
  s_strays : strays a' = strays a;
  s_length : length (cells a') = length (cells a);
  s_cells : ∀ r rc, cells a !! r = Some rc → ∃ rc', cells a' !! r = Some rc' ∧ conn rc' = conn rc ∧ closing rc' = closing rc;
  s_conns : (length (conns a) ≤ length (conns a'))%nat;
  s_shut : ∀ c, conns a !! c = Some false → conns a' !! c = Some false
}.

Lemma sim_back a a' r rc' :
  sim a a' → cells a' !! r = Some rc' → ∃ rc, cells a !! r = Some rc ∧ conn rc' = conn rc ∧ closing rc' = closing rc.
Proof.
  intros Hs H. destruct (cells a !! r) as [rc|] eqn:E.
  - destruct (s_cells _ _ Hs r rc E) as (rc1 & H1 & H2 & H3). simplify_eq. eauto.
  - apply lookup_ge_None in E. apply lookup_lt_Some in H. rewrite (s_length _ _ Hs) in H. lia.
Qed.

Lemma sim_open a a' c : sim a a' → conns a' !! c = Some true → conns a !! c = Some true ∨ (length (conns a) ≤ c)%nat.
Proof.
  intros Hs H. destruct (conns a !! c) as [[]|] eqn:E; [by left| |].
  - apply (s_shut _ _ Hs) in E. congruence.
  - right. by apply lookup_ge_None.
Qed.

Lemma thread_sim a a' t : sim a a' → thread_ok a t → thread_ok a' t.
Proof.
  intros Hs [H1 H2 H3]. split.
  - intros room r Hr. destruct (H1 room r Hr) as (rc & E & E1 & E2 & E3). destruct (s_cells _ _ Hs r rc E) as (rc' & E' & Ec & _).
    exists rc'. rewrite Ec, (s_strays _ _ Hs), (s_rooms _ _ Hs). split_and!; try done.
    intros c Hc. destruct (E2 c Hc) as [?|[?|?]]; auto. right; right. by apply (s_shut _ _ Hs).
  - intros c Hc. pose proof (s_conns _ _ Hs). specialize (H2 c Hc). lia.
  - intros r Hr. rewrite (s_length _ _ Hs), (s_rooms _ _ Hs). auto.
Qed.

(** A goroutine that stays what it is, and lets go of connections and rooms only when
    they are closed. *)
Lemma inv_quiet a m i t a' t' :
  inv a m → m !! i = Some t → sim a a' →
  (∀ u, t' = Some u → readerOf u = readerOf t ∧ thread_ok a' u) → (readerOf t ≠ None → t' ≠ None) →
  (∀ c, conns a' !! c = Some true → uses c t ∨ (length (conns a) ≤ c)%nat → now t' (uses c)) →
  (∀ r, closes r t → now t' (closes r) ∨ ∃ rc, cells a !! r = Some rc ∧ closing rc = Closed) →
  inv a' (after m i t' []).
Proof.
  intros [J1 J2 J3 J4 J5 J6 J7 J8] Hi Hs Hu Hn Hc Hcl.
  assert (∀ j u, after m i t' [] !! j = Some u → (j ≠ i ∧ m !! j = Some u) ∨ (j = i ∧ t' = Some u)) as Hafter.
  { intros j u [?|[?|[_ []%not_elem_of_nil]]]%after_inv; auto. }
  assert (∀ j u, after m i t' [] !! j = Some u → ∃ u0, m !! j = Some u0 ∧ readerOf u = readerOf u0) as Hsame.
  { intros j u [[_ H]|[-> H]]%Hafter; [eauto|]. exists t. split; [done|]. by apply Hu. }
  assert (∀ x, some_thread m (λ u, readerOf u = Some x) → some_thread (after m i t' []) (λ u, readerOf u = Some x)) as Hread.
  { intros x H. apply (after_other m i t); [done|done|]. intros Hx. destruct t' as [u|]; [|by destruct Hn; [congruence|]].
    exists u. split; [done|]. rewrite (proj1 (Hu u eq_refl)). done. }
  split.
  - intros j u [[_ H]|[_ H]]%Hafter; [|by apply Hu]. apply (thread_sim a); eauto.
  - intros j k u v room room' r Hj Hk. destruct (Hsame _ _ Hj) as (u0 & ? & ->). destruct (Hsame _ _ Hk) as (v0 & ? & ->). eauto.
  - intros room r H. rewrite (s_rooms _ _ Hs) in H. destruct (J3 _ _ H) as (H1 & rc & H2 & H3). split; [by apply Hread|].
    destruct (s_cells _ _ Hs r rc H2) as (rc' & ? & _ & ?). exists rc'. split; [done|congruence].
  - rewrite (s_rooms _ _ Hs), (s_connected _ _ Hs). done.
  - intros r rc' H Hne. destruct (sim_back _ _ _ _ Hs H) as (rc & H1 & _ & H3). rewrite (s_rooms _ _ Hs).
    destruct (J5 r rc H1) as [?|Ht]; [congruence|by left|]. right. apply (after_other m i t); [done|done|].
    intros Hx. destruct (Hcl r Hx) as [?|(rc1 & ? & ?)]; [done|]. simplify_eq. congruence.
  - intros r rc' c H Hx Hy. destruct (sim_back _ _ _ _ Hs H) as (rc & H1 & H2 & H3). rewrite (s_strays _ _ Hs).
    eapply J6; [done|congruence|congruence].
  - intros r rc' c H Hx. destruct (sim_back _ _ _ _ Hs H) as (rc & H1 & H2 & H3). pose proof (s_conns _ _ Hs).
    assert (c < length (conns a))%nat; [|lia]. eapply J7; [done|congruence].
  - intros c Ho. destruct (sim_open _ _ _ Hs Ho) as [Ho'|Hnew]; [|left; apply after_now; auto].
    destruct (J8 c Ho') as [Ht|[Hst|(r & rc & H1 & H2 & H3 & H4)]].
    + left. apply (after_other m i t); [done|done|]. intros Hx. apply Hc; auto.
    + right; left. by rewrite (s_strays _ _ Hs).
    + destruct (s_cells _ _ Hs r rc H1) as (rc' & E & Ec & Ed). destruct (decide (closing rc = Closed)) as [Hd|Hd].
      { right; left. rewrite (s_strays _ _ Hs). by eapply J6. }
      right; right. exists r, rc'. split; [done|]. split; [congruence|]. split.
      * apply (after_other m i t); [done|done|]. intros Hx. destruct (Hcl r Hx) as [?|(rc1 & ? & ?)]; [done|]. simplify_eq.
      * intros (j & u & Hj & room & Hr). apply H4. destruct (Hsame _ _ Hj) as (u0 & Hj0 & E0). exists j, u0. split; [done|].
        exists room. congruence.
Qed.

Lemma sim_refl a : sim a a.
Proof. split; eauto. Qed.

Lemma sim_close a c : sim a (closeConn a c).
Proof.
  split; cbn; try done; [eauto|by rewrite length_insert|]. intros c' H. destruct (decide (c' = c)) as [->|Hne].
  - rewrite list_lookup_insert_eq; [done|]. by eapply lookup_lt_Some.
  - by rewrite list_lookup_insert_ne.
Qed.

Lemma sim_dial a : sim a (a <| conns ::= (λ l, l ++ [true]) |>).
Proof.
  split; cbn; try done; [eauto|rewrite length_app; lia|]. intros c H. by apply lookup_app_l_Some.
Qed.

Lemma sim_room a r f :
  (∀ rc, conn (f rc) = conn rc ∧ closing (f rc) = closing rc) → sim a (updateRoom a r f).
Proof.
  intros Hf. split; cbn; try done; [by rewrite length_alter|]. intros r' rc H. destruct (decide (r' = r)) as [->|Hne].
  - exists (f rc). rewrite list_lookup_alter_eq, H. split; [done|apply Hf].
  - exists rc. by rewrite list_lookup_alter_ne.
Qed.

Lemma sim_trans a b c : sim a b → sim b c → sim a c.
Proof.
  intros [E1 E2 E3 E4 E5 E6 E7] [F1 F2 F3 F4 F5 F6 F7]. split; try congruence; [|lia|auto].
  intros r rc H. destruct (E5 r rc H) as (rc1 & H1 & H2 & H3). destruct (F5 r rc1 H1) as (rc2 & ? & ? & ?).
  exists rc2. split; [done|]. split; congruence.
Qed.

Lemma closed_shut a c : conns (closeConn a c) !! c ≠ Some true.
Proof.
  cbn. intros H. assert (c < length (conns a))%nat as Hlt by (apply lookup_lt_Some in H; by rewrite length_insert in H).
  by rewrite list_lookup_insert_eq in H.
Qed.

(** Goroutines that have nothing. *)
Lemma ok_plain a t :
  readerOf t = None → heldConn t = None → (∀ r, ¬ closes r t) → thread_ok a t.
Proof.
  intros H1 H2 H3. assert (roomConnOf t = None) as H4 by (by destruct t). split.
  - congruence.
  - intros c [?|?]; congruence.
  - intros r ?. by destruct (H3 r).
Qed.

Ltac plain := by apply ok_plain; [done|done|intros ? []].

(** Without a new connection. *)
Lemma inv_still a m i t a' t' :
  inv a m → m !! i = Some t → sim a a' → length (conns a') = length (conns a) →
  (∀ u, t' = Some u → readerOf u = readerOf t ∧ thread_ok a' u) → (readerOf t ≠ None → t' ≠ None) →
  (∀ c, conns a' !! c = Some true → uses c t → now t' (uses c)) →
  (∀ r, closes r t → now t' (closes r) ∨ ∃ rc, cells a !! r = Some rc ∧ closing rc = Closed) →
  inv a' (after m i t' []).
Proof.
  intros Hinv Hi Hs Hl Hu Hn Hc Hcl. apply (inv_quiet a m i t); try done. intros c Ho [Hx|Hx]; [auto|].
  apply lookup_lt_Some in Ho. lia.
Qed.

(** A goroutine without a room: a call or a ping loop. *)
Lemma inv_call a m i t a' t' :
  inv a m → m !! i = Some t → sim a a' → length (conns a') = length (conns a) → readerOf t = None → (∀ r, ¬ closes r t) →
  (∀ u, t' = Some u → readerOf u = None ∧ heldConn u = None ∧ ∀ r, ¬ closes r u) →
  (∀ c, heldConn t = Some c → conns a' !! c ≠ Some true) → inv a' (after m i t' []).
Proof.
  intros Hinv Hi Hs Hl Hr Hcl Hu Hh. apply (inv_still a m i t); try done.
  - intros u ->. destruct (Hu u eq_refl) as (H1 & H2 & H3). split; [congruence|]. by apply ok_plain.
  - intros c Ho [Hx|Hx]; [by destruct (Hh c Hx)|]. by destruct t.
  - intros r Hx. by destruct (Hcl r).
Qed.

Ltac call_step Hinv Hi :=
  apply (inv_call _ _ _ _ _ _ Hinv Hi);
  [first [apply sim_refl|apply sim_close|by apply sim_room]
  |cbn; by rewrite ?length_insert|done|by intros ? []|intros u [= <-]; split_and!; try done; by intros ? []|].

Lemma ensure_ok a m i t ch a' t' :
  inv a m → m !! i = Some t → ensureStep a t ch = Some (a', t', []) → inv a' (after m i t' []).
Proof.
  intros Hinv Hi H. destruct t; cbn in H; unfold return_, next in H; try done.
  - destruct (negb (connected a)); [|destruct (rooms a !! room)]; simplify_eq/=; by call_step Hinv Hi.
  - destruct ch; simplify_eq/=; try (by call_step Hinv Hi).
    apply (inv_quiet a m i _ _ _ Hinv Hi); [apply sim_dial| |done| |by intros r []].
    + intros u [= <-]. split; [done|]. split; [done| |by intros r []]. cbn. intros c [Hx|Hx]; [|done]. injection Hx as <-.
      rewrite length_app. cbn. lia.
    + intros c Ho [[Hx|Hx]|Hge]; [done..|]. eexists. split; [done|]. left. apply lookup_lt_Some in Ho. cbn in *.
      rewrite length_app in Ho. cbn in Ho. f_equal. lia.
  - destruct (negb (connected a)); [|destruct (rooms a !! room)]; simplify_eq/=; call_step Hinv Hi; intros c' [= <-]; apply closed_shut.
Qed.

Lemma got_ok a m i r k ch a' t' new :
  inv a m → m !! i = Some (TGot r k) → gotStep a r k ch = Some (a', t', new) → new = [] ∧ inv a' (after m i t' []).
Proof.
  intros Hinv Hi. unfold gotStep, return_, next. destruct (cells a !! r) as [rc|]; [cbn [mbind option_bind]|done].
  assert (inv a (after m i None [])) as Hret by (by call_step Hinv Hi).
  assert (∀ c, inv (closeConn a c) (after m i None [])) as Hcl by (intros c; by call_step Hinv Hi).
  destruct k as [|typ h].
  - destruct (conn rc) as [c|]; [|by intros [= <- <- <-]]. destruct ch; intros [= <- <- <-]; done.
  - intros [= <- <- <-]. split; [done|]. apply (inv_call a m i _ _ _ Hinv Hi); try done; [|by intros r' []].
    eapply sim_trans; [|by apply sim_room]. split; eauto.
Qed.

Lemma ping_ok a m i r c ch a' t' new :
  inv a m → m !! i = Some (TPing r c) → pingStep a r c ch = Some (a', t', new) → new = [] ∧ inv a' (after m i t' []).
Proof.
  intros Hinv Hi. unfold pingStep, return_, next. destruct (cells a !! r) as [rc|]; [cbn [mbind option_bind]|done].
  assert (inv a (after m i None [])) as Hret by (by call_step Hinv Hi).
  assert (inv (closeConn a c) (after m i None [])) as Hcl by (by call_step Hinv Hi).
  assert (inv a (after m i (Some (TPing r c)) [])) as Hstay by (by call_step Hinv Hi).
  destruct ch; repeat case_decide; intros; simplify_eq/=; done.
Qed.

(** A read loop that goes on with the connection it has. *)
Lemma ok_reader a t u :
  thread_ok a t → readerOf u = readerOf t → roomConnOf u = roomConnOf t → (∀ c, readsConn u = Some c → readsConn t = Some c) →
  (∀ c, heldConn u = Some c → (c < length (conns a))%nat) →
  (∀ room r, u = TRemove room r → ∀ room', rooms a !! room' ≠ Some r) → (∀ r, ¬ closes r u) → thread_ok a u.
Proof.
  intros [H1 H2 H3] Er Ec Es Eh En Ecl. split.
  - intros room r Hr. rewrite Er in Hr. destruct (H1 room r Hr) as (rc & E & E1 & E2 & E3). exists rc. rewrite Ec.
    split; [done|]. split; [done|]. split; [auto|]. intros ->. by apply (En room r).
  - intros c [Hc|Hc]; [auto|]. rewrite Ec in Hc. auto.
  - intros r Hr. by destruct (Ecl r).
Qed.

Lemma inv_reader a m i t a' u :
  inv a m → m !! i = Some t → sim a a' → length (conns a') = length (conns a) → readerOf u = readerOf t →
  roomConnOf u = roomConnOf t → (∀ c, readsConn u = Some c → readsConn t = Some c) → (∀ c, heldConn u = Some c → heldConn t = Some c) →
  (∀ c, conns a' !! c = Some true → uses c t → uses c u) →
  (∀ room r, u = TRemove room r → ∀ room', rooms a !! room' ≠ Some r) → (∀ r, ¬ closes r u) → (∀ r, ¬ closes r t) →
  inv a' (after m i (Some u) []).
Proof.
  intros Hinv Hi Hs Hl Hr Hc Hrd Hh Hu Hrm Hcl Hcl'. pose proof (i_threads _ _ Hinv i t Hi) as Ht.
  apply (inv_still a m i t); try done.
  - intros u' [= <-]. split; [done|]. apply (thread_sim a); [done|]. apply (ok_reader a t); try done.
    intros c Hx. apply (h_conn _ _ Ht). auto.
  - intros c Ho Hx. exists u. auto.
  - intros r Hx. by destruct (Hcl' r).
Qed.

Lemma read_ok a m i t ch a' t' new :
  inv a m → m !! i = Some t → readStep a t ch = Some (a', t', new) → new = [] ∧ inv a' (after m i t' []).
Proof.
  intros Hinv Hi H. destruct t; try done; cbn in H; unfold return_, next in H.
  - destruct (cells a !! r) as [rc|]; [cbn in H|done]. destruct ch; simplify_eq/=; try done; (split; [done|]);
      apply (inv_reader _ m i _ _ _ Hinv Hi); try done; try apply sim_refl; try (by intros ? []); split; eauto.
  - destruct hs; simplify_eq/=; (split; [done|]);
      apply (inv_reader _ m i _ _ _ Hinv Hi); try done; try apply sim_refl; try (by intros ? []); split; eauto.
Qed.

(** A room that is not active is in the table under no name. *)
Lemma inactive a m i t room r :
  inv a m → m !! i = Some t → readerOf t = Some (room, r) → roomActive a room r = false → ∀ room', rooms a !! room' ≠ Some r.
Proof.
  intros Hinv Hi Hr Ha room' H. destruct (i_table _ _ Hinv room' r H) as [(j & u & Hj & Hu) _].
  pose proof (i_once _ _ Hinv i j t u room room' r Hi Hj Hr Hu) as <-. rewrite Hi in Hj. injection Hj as <-. rewrite Hr in Hu.
  injection Hu as <-. unfold roomActive in Ha. apply andb_false_iff in Ha as [Ha|Ha].
  - by rewrite (i_off _ _ Hinv Ha) in H.
  - by apply bool_decide_eq_false in Ha.
Qed.

Lemma closing_inactive a m r rc room' :
  inv a m → cells a !! r = Some rc → closing rc ≠ NotClosed → rooms a !! room' ≠ Some r.
Proof.
  intros Hinv Hr Hne H. destruct (i_table _ _ Hinv room' r H) as [_ (rc' & H1 & H2)]. by simplify_eq.
Qed.

(** A read loop ends. *)
Lemma inv_end a m i t room r :
  inv a m → m !! i = Some t → readerOf t = Some (room, r) → heldConn t = None → (∀ room', rooms a !! room' ≠ Some r) →
  inv a (after m i None []).
Proof.
  intros Hinv Hi Hr Hheld Hno. pose proof (i_threads _ _ Hinv i t Hi) as Ht. destruct Hinv as [J1 J2 J3 J4 J5 J6 J7 J8].
  assert (∀ j u, after m i None [] !! j = Some u → j ≠ i ∧ m !! j = Some u) as Hafter.
  { intros j u [?|[[_ ?]|[_ []%not_elem_of_nil]]]%after_inv; auto. done. }
  assert (∀ P, some_thread m P → ¬ P t → some_thread (after m i None []) P) as Hkeep.
  { intros P H Hn. apply (after_other m i t); [done|done|]. intros Hx. by destruct Hn. }
  assert (∀ r', ¬ closes r' t) as Hcl by (intros r' Hx; by destruct t).
  split; try done.
  - intros j u Hj. apply Hafter in Hj as [_ Hj]. eauto.
  - intros j k u v room1 room2 r1 [_ Hj]%Hafter [_ Hk]%Hafter. eauto.
  - intros room1 r1 H. destruct (J3 _ _ H) as [H1 H2]. split; [|done]. apply Hkeep; [done|]. intros Hx. rewrite Hr in Hx. simplify_eq.
    by destruct (Hno room1).
  - intros r1 rc H Hne. destruct (J5 r1 rc H Hne) as [?|?]; [by left|]. right. by apply Hkeep.
  - intros c Ho. destruct (J8 c Ho) as [(j & u & Hj & Hu)|[?|(r1 & rc & H1 & H2 & H3 & H4)]].
    + destruct (decide (j = i)) as [->|Hne]; [|left; exists j, u; split; [by apply after_keeps|done]].
      rewrite Hi in Hj. injection Hj as <-. destruct (h_room _ _ Ht room r Hr) as (rc & E & E1 & E2 & E3).
      destruct Hu as [Hu|Hc]; [congruence|].
      destruct (E2 c Hc) as [?|[Hconn|?]]; [by right; left| |congruence]. right.
      destruct (decide (closing rc = Closed)) as [Hd|Hd]; [left; by eapply J6|]. right. exists r, rc. split; [done|]. split; [done|].
      split.
      * destruct (J5 r rc E Hd) as [[room' H]|H]; [by destruct (Hno room')|]. by apply Hkeep.
      * intros (k & v & [Hk Hk']%Hafter & room' & Hv). by apply Hk, (J2 k i v t room' room r).
    + by right; left.
    + right; right. exists r1, rc. split; [done|]. split; [done|]. split; [by apply Hkeep|].
      intros (k & v & [Hk Hk']%Hafter & Hv). apply H4. by exists k, v.
Qed.

(** ** Steps that change a room *)

Record changes (a a' : Adapter) (r : nat) (rc rc' : roomConn) : Prop := {
  ch_cell : cells a !! r = Some rc;
  ch_cells : cells a' = <[r := rc']> (cells a);
  ch_rooms : rooms a' = rooms a;
  ch_connected : connected a' = connected a;
  ch_conns : length (conns a') = length (conns a);
  ch_shut : ∀ c, conns a !! c = Some false → conns a' !! c = Some false;
  ch_strays : ∀ c, c ∈ strays a → c ∈ strays a'
}.

Lemma changes_same a a' r rc rc' : changes a a' r rc rc' → cells a' !! r = Some rc'.
Proof. intros H. rewrite (ch_cells _ _ _ _ _ H). apply list_lookup_insert_eq. by eapply lookup_lt_Some, (ch_cell _ _ _ _ _ H). Qed.

Lemma changes_other a a' r rc rc' r' : changes a a' r rc rc' → r' ≠ r → cells a' !! r' = cells a !! r'.
Proof. intros H Hne. rewrite (ch_cells _ _ _ _ _ H). by apply list_lookup_insert_ne. Qed.

(** The other goroutines. *)
Lemma thread_changes a a' r rc rc' w :
  changes a a' r rc rc' → thread_ok a w →
  (∀ room, readerOf w = Some (room, r) → (∀ c, conn rc' = Some c → roomConnOf w = Some c)
     ∧ (∀ c, readsConn w = Some c → c ∈ strays a' ∨ conn rc' = Some c ∨ conns a' !! c = Some false)) → thread_ok a' w.
Proof.
  intros Hch [H1 H2 H3] Hr. pose proof Hch as [C1 C2 C3 C4 C5 C6 C7]. split.
  - intros room r' Hw. destruct (H1 room r' Hw) as (rc1 & E & E1 & E2 & E3). destruct (decide (r' = r)) as [->|Hne].
    + destruct (Hr room Hw) as [R1 R2]. exists rc'. rewrite (changes_same _ _ _ _ _ Hch), C3. auto.
    + exists rc1. rewrite (changes_other _ _ _ _ _ _ Hch Hne), C3. split; [done|]. split; [done|]. split; [|done].
      intros c Hc. destruct (E2 c Hc) as [?|[?|?]]; auto.
  - rewrite C5. done.
  - intros r' Hr'. rewrite C2, length_insert, C3. auto.
Qed.

Definition plain (w : thread) : Prop := readerOf w = None ∧ heldConn w = None ∧ ∀ r, ¬ closes r w.

Lemma inv_changes a m i t a' u r rc rc' new :
  inv a m → m !! i = Some t → changes a a' r rc rc' → Forall plain new → readerOf u = readerOf t →
  (∀ j w, j ≠ i → m !! j = Some w → thread_ok a' w) → thread_ok a' u →
  (∀ r', closes r' t → closes r' u ∨ r' = r ∧ closing rc' = Closed) →
  (closing rc' ≠ NotClosed → closing rc ≠ NotClosed ∨ closes r t) → (closing rc' ≠ Closed → closing rc ≠ Closed) →
  (∀ c, conn rc' = Some c → (closing rc' = Closed → c ∈ strays a') ∧ (c < length (conns a))%nat) →
  (∀ c, conns a' !! c = Some true → conns a !! c = Some true ∧ (uses c t → uses c u)
        ∧ (conn rc = Some c → conn rc' = Some c ∨ hasReader m r)) →
  inv a' (after m i (Some u) new).
Proof.
  intros Hinv Hi Hch Hnew Hu Hoth Hself Hcl Hno Hcd Hconn Hopen. pose proof (i_threads _ _ Hinv i t Hi) as Ht.
  destruct Hinv as [J1 J2 J3 J4 J5 J6 J7 J8]. pose proof Hch as [C1 C2 C3 C4 C5 C6 C7]. rewrite Forall_forall in Hnew.
  assert (∀ j w, after m i (Some u) new !! j = Some w → (j ≠ i ∧ m !! j = Some w) ∨ (j = i ∧ w = u) ∨ plain w) as Hafter.
  { intros j w [?|[[-> [= ->]]|[_ Hin]]]%after_inv; auto. }
  assert (∀ j w x, after m i (Some u) new !! j = Some w → readerOf w = Some x → ∃ w0, m !! j = Some w0 ∧ readerOf w0 = Some x) as Hsame.
  { intros j w x Hj Hx. destruct (Hafter j w Hj) as [[_ H]|[[-> ->]|(H & _)]]; [eauto| |congruence]. exists t. split; [done|congruence]. }
  assert (∀ P, some_thread m P → (P t → P u) → some_thread (after m i (Some u) new) P) as Hkeep.
  { intros P H Hp. apply (after_other m i t); [done|done|]. intros Hx. exists u. auto. }
  assert (∀ r1 rc1, cells a' !! r1 = Some rc1 → r1 = r ∧ rc1 = rc' ∨ r1 ≠ r ∧ cells a !! r1 = Some rc1) as Hcell.
  { intros r1 rc1 H. destruct (decide (r1 = r)) as [->|Hne].
    - rewrite (changes_same _ _ _ _ _ Hch) in H. by simplify_eq/=; left.
    - rewrite (changes_other _ _ _ _ _ _ Hch Hne) in H. by right. }
  split.
  - intros j w Hj. destruct (Hafter j w Hj) as [[Hne H]|[[-> ->]|(H1 & H2 & H3)]]; [by eapply Hoth|done|by apply ok_plain].
  - intros j k w v room room' r1 Hj Hk Hw Hv. destruct (Hsame _ _ _ Hj Hw) as (? & ? & ?). destruct (Hsame _ _ _ Hk Hv) as (? & ? & ?). eauto.
  - intros room r1 H. rewrite C3 in H. destruct (J3 _ _ H) as (H1 & rc1 & H2 & H3). split; [apply Hkeep; [done|congruence]|].
    destruct (decide (r1 = r)) as [->|Hne].
    + exists rc'. split; [exact (changes_same _ _ _ _ _ Hch)|]. simplify_eq. destruct (decide (closing rc' = NotClosed)) as [?|Hd]; [done|].
      destruct (Hno Hd) as [?|Hx]; [done|]. by destruct (proj2 (h_close _ _ Ht r Hx) room).
    + exists rc1. by rewrite (changes_other _ _ _ _ _ _ Hch Hne).
  - rewrite C3, C4. done.
  - intros r1 rc1 H Hne. rewrite C3. destruct (Hcell _ _ H) as [[-> ->]|[Hr1 H1]].
    + destruct (J5 r rc C1 (Hcd Hne)) as [?|Hx]; [by left|right]. apply Hkeep; [done|]. intros Hy. destruct (Hcl r Hy) as [?|[_ ?]]; done.
    + destruct (J5 r1 rc1 H1 Hne) as [?|Hx]; [by left|right]. apply Hkeep; [done|]. intros Hy. destruct (Hcl r1 Hy) as [?|[? _]]; done.
  - intros r1 rc1 c H Hd Hc. destruct (Hcell _ _ H) as [[-> ->]|[Hr1 H1]]; [by apply Hconn|]. eauto.
  - intros r1 rc1 c H Hc. rewrite C5. destruct (Hcell _ _ H) as [[-> ->]|[Hr1 H1]]; [by apply Hconn|]. eauto.
  - intros c Ho. destruct (Hopen c Ho) as (Ho' & Huse & Hd). destruct (J8 c Ho') as [Hx|[?|(r1 & rc1 & H1 & H2 & H3 & H4)]].
    + left. by apply Hkeep.
    + right; left. auto.
    + assert (¬ hasReader (after m i (Some u) new) r1) as Hnr.
      { intros (j & w & Hj & room & Hw). apply H4. destruct (Hsame _ _ _ Hj Hw) as (w0 & ? & ?). exists j, w0. eauto. }
      destruct (decide (r1 = r)) as [->|Hne].
      * simplify_eq. destruct (Hd H2) as [Hc'|?]; [|done]. right. destruct (decide (closing rc' = Closed)) as [?|Hd']; [left; by apply Hconn|].
        right. exists r, rc'. split; [exact (changes_same _ _ _ _ _ Hch)|]. split; [done|]. split; [|done].
        apply Hkeep; [done|]. intros Hy. destruct (Hcl r Hy) as [?|[_ ?]]; done.
      * right; right. exists r1, rc1. rewrite (changes_other _ _ _ _ _ _ Hch Hne). split; [done|]. split; [done|]. split; [|done].
        apply Hkeep; [done|]. intros Hy. destruct (Hcl r1 Hy) as [?|[? _]]; done.
Qed.

(** ** The read loop after an error *)

(** Another goroutine is not the read loop of the room. *)
Lemma not_reader a m i t j w room r room' :
  inv a m → m !! i = Some t → readerOf t = Some (room, r) → m !! j = Some w → j ≠ i → readerOf w ≠ Some (room', r).
Proof. intros Hinv Hi Hr Hj Hne Hw. apply Hne. by apply (i_once _ _ Hinv j i w t room' room r). Qed.

Lemma clear_ok a m i room r c rc :
  inv a m → m !! i = Some (TClear room r c) → cells a !! r = Some rc → conn rc = Some c →
  ∀ d x, inv (updateRoom a r (λ rc, rc <| conn := None |>)) (after m i (Some (TReconnect room r d x)) []).
Proof.
  intros Hinv Hi Hr Hc d x. pose proof (i_threads _ _ Hinv i _ Hi) as Ht.
  assert (changes a (updateRoom a r (λ rc, rc <| conn := None |>)) r rc (rc <| conn := None |>)) as Hch.
  { split; try done. cbn. by rewrite (list_alter_insert _ r _ rc Hr). }
  apply (inv_changes a m i _ _ _ r rc (rc <| conn := None |>) [] Hinv Hi Hch); try done; [by left..| | | |].
  - intros j w Hne Hj. apply (thread_changes _ _ _ _ _ _ Hch); [by eapply i_threads|].
    intros room' Hw. by destruct (not_reader _ _ _ _ _ _ room r room' Hinv Hi eq_refl Hj Hne).
  - split; [|by intros c' [?|?]|by intros r' []]. intros room1 r1 [= <- <-]. eexists. split; [by apply (changes_same _ _ _ _ _ Hch)|].
    by split_and!.
  - intros Hd. by left.
  - intros c' Ho. split; [done|]. split; [by intros [?|?]|]. intros _. right. exists i, (TClear room r c). split; [done|]. by exists room.
Qed.

Lemma set_ok a m i room r c rc :
  inv a m → m !! i = Some (TSet room r c) → cells a !! r = Some rc →
  inv (updateRoom (if decide (closing rc = Closed) then a <| strays ::= cons c |> else a) r (λ rc, rc <| conn := Some c |>))
    (after m i (Some (TRead room r c)) [TPing r c]).
Proof.
  intros Hinv Hi Hr. pose proof (i_threads _ _ Hinv i _ Hi) as Ht. set (a1 := if decide _ then _ else a).
  assert (changes a (updateRoom a1 r (λ rc, rc <| conn := Some c |>)) r rc (rc <| conn := Some c |>)) as Hch.
  { unfold a1. destruct (decide (closing rc = Closed)); split; try done; cbn; try (by rewrite (list_alter_insert _ r _ rc Hr)). by right. }
  assert (closing rc = Closed → c ∈ strays a1) as Hst by (intros Hd; unfold a1; case_decide; [by left|done]).
  assert (conns a1 = conns a) as Hcs by (unfold a1; by case_decide).
  apply (inv_changes a m i _ _ _ r rc (rc <| conn := Some c |>) _ Hinv Hi Hch); try done.
  - constructor; [|constructor]. split; [done|]. split; [done|]. by intros ? [].
  - intros j w Hne Hj. apply (thread_changes _ _ _ _ _ _ Hch); [by eapply i_threads|].
    intros room' Hw. by destruct (not_reader _ _ _ _ _ _ room r room' Hinv Hi eq_refl Hj Hne).
  - split.
    + intros room1 r1 [= <- <-]. eexists. split; [by apply (changes_same _ _ _ _ _ Hch)|]. split; [done|]. split; [|done].
      intros c' [= <-]. right; by left.
    + intros c' [?|[= <-]]; [done|]. cbn. rewrite Hcs. apply (h_conn _ _ Ht). by left.
    + by intros r' [].
  - intros Hd. by left.
  - intros c' [= <-]. split; [done|]. apply (h_conn _ _ Ht). by left.
  - intros c' Ho. cbn in Ho. rewrite Hcs in Ho. split; [done|]. split; [intros [[= <-]|?]; [by right|done]|].
    intros _. right. exists i, (TSet room r c). split; [done|]. by exists room.
Qed.

Lemma lost_ok a m i t ch a' t' new :
  inv a m → m !! i = Some t → lostStep a t ch = Some (a', t', new) → inv a' (after m i t' new).
Proof.
  intros Hinv Hi H. pose proof (i_threads _ _ Hinv i _ Hi) as Ht. destruct t; try done; cbn in H; unfold return_, next in H.
  - destruct (roomActive a room r) eqn:Ea; injection H as <- <- <-.
    + apply (inv_reader _ m i _ _ _ Hinv Hi); try done; try apply sim_refl; by intros ? [].
    + apply (inv_end a m i _ room r Hinv Hi); try done. by eapply inactive.
  - injection H as <- <- <-. apply (inv_reader _ m i _ _ _ Hinv Hi); try done; [apply sim_close|cbn; by rewrite length_insert| |by intros ? []..].
    intros c' Ho [?|[= <-]]; [done|]. by destruct (closed_shut a c).
  - destruct (cells a !! r) as [rc|] eqn:Er; [cbn in H|done]. destruct (decide (conn rc = Some c)) as [Hc|Hc]; injection H as <- <- <-.
    + by eapply clear_ok.
    + apply (inv_still a m i _ _ _ Hinv Hi); [apply sim_refl|done| |done|by intros c' _ [?|?]|by intros ? []].
      intros u [= <-]. split; [done|]. split; [|by intros c' [?|?]|by intros r' []]. intros room1 r1 [= <- <-].
      destruct (h_room _ _ Ht room r eq_refl) as (rc1 & E & E1 & E2 & E3). rewrite Er in E. injection E as <-. exists rc. split; [done|]. split; [|by split].
      intros c' Hc'. destruct Hc. rewrite Hc'. symmetry. exact (E1 c' Hc').
  - injection H as <- <- <-. destruct (roomActive a room r) eqn:Ea;
      (apply (inv_reader _ m i _ _ _ Hinv Hi); try done; try apply sim_refl; try (by intros ? [])).
    intros room1 r1 [= <- <-]. by eapply inactive.
  - destruct ch; injection H as <- <- <-; try (by apply (inv_reader _ m i _ _ _ Hinv Hi); try done; try apply sim_refl; by intros ? []).
    apply (inv_quiet a m i _ _ _ Hinv Hi); [apply sim_dial| |done| |by intros ? []].
    + intros u [= <-]. split; [done|]. split; [| |by intros r' []].
      * intros room1 r1 [= <- <-]. destruct (h_room _ _ Ht room r eq_refl) as (rc & E & E1 & E2 & E3). exists rc. by split_and!.
      * intros c [[= <-]|?]; [|done]. cbn. rewrite length_app. cbn. lia.
    + intros c Ho [[?|?]|Hge]; [done..|]. eexists. split; [done|]. left. apply lookup_lt_Some in Ho. cbn in *.
      rewrite length_app in Ho. cbn in Ho. f_equal. lia.
  - destruct (roomActive a room r) eqn:Ea; injection H as <- <- <-.
    + apply (inv_reader _ m i _ _ _ Hinv Hi); try done; try apply sim_refl; by intros ? [].
    + apply (inv_reader _ m i _ _ _ Hinv Hi); try done; [apply sim_close|cbn; by rewrite length_insert| | |by intros ? []..].
      * intros c' Ho [[= <-]|?]; [|done]. by destruct (closed_shut a c).
      * intros room1 r1 [= <- <-]. by eapply inactive.
  - destruct (cells a !! r) as [rc|] eqn:Er; [cbn in H|done]. injection H as <- <- <-. by apply set_ok.
  - destruct (cells a !! r) as [rc|] eqn:Er; [cbn in H|done].
    assert (∀ d x, inv a (after m i (Some (TReconnect room r d x)) [])) as Hgo.
    { intros d x. apply (inv_reader _ m i _ _ _ Hinv Hi); try done; try apply sim_refl; by intros ? []. }
    assert (closing rc ≠ NotClosed → inv a (after m i (Some (TRemove room r)) [])) as Hrm.
    { intros Hd. apply (inv_reader _ m i _ _ _ Hinv Hi); try done; try apply sim_refl; try (by intros ? []).
      intros room1 r1 [= <- <-] room'. by eapply closing_inactive. }
    destruct ch; try case_decide; simplify_eq/=; auto.
  - injection H as <- <- <-. destruct (h_room _ _ Ht room r eq_refl) as (rc & E & E1 & E2 & E3). specialize (E3 eq_refl).
    unfold removeRoom. rewrite decide_False by apply E3. by apply (inv_end a m i _ room r Hinv Hi).
Qed.

(** ** Closing rooms *)

Lemma close_ok_ a m i t a' t' new :
  inv a m → m !! i = Some t → closeStep a t = Some (a', t', new) → inv a' (after m i t' new).
Proof.
  intros Hinv Hi H. pose proof (i_threads _ _ Hinv i _ Hi) as Ht. destruct t; try done; cbn in H; unfold return_, next in H.
  - destruct l as [|r l].
    { injection H as <- <- <-. apply (inv_still a m i _ _ _ Hinv Hi); [apply sim_refl|done|done|done|by intros c' _ [?|?]|].
      by intros r ?%not_elem_of_nil. }
    destruct (cells a !! r) as [rc|] eqn:Er; [cbn in H|done]. destruct (closing rc) eqn:Ed; simplify_eq/=.
    + assert (changes a (updateRoom a r (λ rc, rc <| closing := DoneClosed |>)) r rc (rc <| closing := DoneClosed |>)) as Hch.
      { split; try done. cbn. by rewrite (list_alter_insert _ r _ rc Er). }
      apply (inv_changes a m i _ _ _ r rc (rc <| closing := DoneClosed |>) [] Hinv Hi Hch); try done.
      * intros j w Hne Hj. pose proof (i_threads _ _ Hinv j w Hj) as Hw. apply (thread_changes _ _ _ _ _ _ Hch Hw).
        intros room Hx. destruct (h_room _ _ Hw room r Hx) as (rc1 & E & E1 & E2 & _). rewrite Er in E. by injection E as <-.
      * split; [done|by intros c' [?|?]|]. cbn. rewrite length_alter. intros r' Hr'. apply (h_close _ _ Ht). cbn.
        destruct Hr' as [->|?]; [by left|by right].
      * intros r' [->|Hx]%elem_of_cons; left; [by left|by right].
      * intros _. right. by left.
      * rewrite Ed. done.
      * intros c Hc. split; [done|]. by eapply i_cells.
      * intros c Ho. split; [done|]. split; [by intros [?|?]|]. by left.
    + apply (inv_still _ m i _ _ _ Hinv Hi); [apply sim_refl|done| |done|by intros c' _ [?|?]|].
      * intros u [= <-]. split; [done|]. split; [done|by intros c' [?|?]|]. intros r' Hr'. apply (h_close _ _ Ht). by right.
      * intros r' [->|Hx]%elem_of_cons; [right; eauto|left]. by exists (TClose l).
  - destruct (cells a !! r) as [rc|] eqn:Er; [cbn in H|done]. injection H as <- <- <-.
    set (a1 := match conn rc with Some c => closeConn a c | None => a end).
    assert (cells a1 = cells a ∧ rooms a1 = rooms a ∧ connected a1 = connected a ∧ strays a1 = strays a) as (F1 & F2 & F3 & F4)
      by (unfold a1; by destruct (conn rc)).
    assert (sim a a1) as Hs by (unfold a1; destruct (conn rc); [apply sim_close|apply sim_refl]).
    assert (length (conns a1) = length (conns a)) as Hlen by (unfold a1; destruct (conn rc); cbn; by rewrite ?length_insert).
    assert (∀ c, conn rc = Some c → conns a1 !! c = Some false) as Hshut.
    { intros c Hc. unfold a1. rewrite Hc. cbn. apply list_lookup_insert_eq. by eapply i_cells. }
    assert (changes a (updateRoom a1 r (λ rc, rc <| conn := None |> <| closing := Closed |>)) r rc (rc <| conn := None |> <| closing := Closed |>)) as Hch.
    { split; try done; cbn; [|by apply Hs|congruence]. by rewrite F1, (list_alter_insert _ r _ rc Er). }
    apply (inv_changes a m i _ _ _ r rc (rc <| conn := None |> <| closing := Closed |>) [] Hinv Hi Hch); try done.
    + intros j w Hne Hj. pose proof (i_threads _ _ Hinv j w Hj) as Hw. apply (thread_changes _ _ _ _ _ _ Hch Hw).
      intros room Hx. destruct (h_room _ _ Hw room r Hx) as (rc1 & E & E1 & E2 & _). rewrite Er in E. injection E as <-. split; [done|].
      intros c Hc. cbn. rewrite F4. destruct (E2 c Hc) as [?|[?|?]]; [by left|right; right; auto..]. by apply Hs.
    + split; [done|by intros c' [?|?]|]. cbn. rewrite length_alter, F1, F2. intros r' Hr'. apply (h_close _ _ Ht). by right.
    + intros r' [->|Hx]; [by right|by left].
    + intros _. right. by left.
    + intros c Ho. cbn in Ho. split; [|split; [by intros [?|?]|]].
      * destruct (sim_open _ _ _ Hs Ho) as [?|Hge]; [done|]. apply lookup_lt_Some in Ho. lia.
      * intros Hc. rewrite (Hshut c Hc) in Ho. done.
Qed.

(** ** A new room *)

Lemma install_ok a m i room c k :
  inv a m → m !! i = Some (TInstall room c k) → connected a = true → rooms a !! room = None →
  let r := length (cells a) in
  inv (a <| cells ::= (λ l, l ++ [mkRoom (Some c) NotClosed ∅]) |> <| rooms ::= <[room := r]> |>)
    (after m i (Some (TGot r k)) [TRead room r c; TPing r c]).
Proof.
  intros Hinv Hi Hco Hroom r. pose proof (i_threads _ _ Hinv i _ Hi) as Ht. pose proof (h_conn _ _ Ht c (or_introl eq_refl)) as Hc.
  set (a' := _ <| rooms ::= _ |>). destruct Hinv as [J1 J2 J3 J4 J5 J6 J7 J8].
  assert (∀ r1 rc1, cells a !! r1 = Some rc1 → cells a' !! r1 = Some rc1 ∧ (r1 < r)%nat) as Hold.
  { intros r1 rc1 H. pose proof (lookup_lt_Some _ _ _ H). split; [|done]. cbn. by rewrite lookup_app_l. }
  assert (∀ r1 rc1, cells a' !! r1 = Some rc1 → cells a !! r1 = Some rc1 ∨ r1 = r ∧ rc1 = mkRoom (Some c) NotClosed ∅) as Hcell.
  { intros r1 rc1 H. cbn in H. apply lookup_app_Some in H as [H|[Hge H]]; [by left|right].
    apply list_lookup_singleton_Some in H as [E <-]. split; [unfold r; lia|done]. }
  assert (∀ w, thread_ok a w → thread_ok a' w) as Hok.
  { intros w [H1 H2 H3]. split; [|done|].
    - intros room1 r1 Hr1. destruct (H1 room1 r1 Hr1) as (rc1 & E & E1 & E2 & E3). destruct (Hold _ _ E) as [E' Hlt]. exists rc1.
      split; [done|]. split; [done|]. split; [done|]. intros Hw room'. cbn. intros Hx.
      apply lookup_insert_Some in Hx as [[_ <-]|[_ Hx]]; [lia|]. by apply (E3 Hw room').
    - intros r1 Hr1. destruct (H3 r1 Hr1) as [Hlt Hno]. cbn. rewrite length_app. cbn. split; [lia|]. intros room' Hx.
      apply lookup_insert_Some in Hx as [[_ <-]|[_ Hx]]; [unfold r in Hlt; lia|]. by apply (Hno room'). }
  assert (∀ j w, after m i (Some (TGot r k)) [TRead room r c; TPing r c] !! j = Some w →
            (j ≠ i ∧ m !! j = Some w) ∨ w = TRead room r c ∨ plain w) as Hafter.
  { intros j w [?|[[-> [= <-]]|[_ Hin]]]%after_inv; [by left|right; right; split; [done|]; split; [done|by intros ? []]|].
    apply elem_of_cons in Hin as [->|Hin%list_elem_of_singleton]; [by right; left|]. subst w. right; right. split; [done|]. split; [done|by intros ? []]. }
  assert (∀ P, some_thread m P → (P (TInstall room c k) → P (TRead room r c)) →
            some_thread (after m i (Some (TGot r k)) [TRead room r c; TPing r c]) P) as Hkeep.
  { intros P (j & w & Hj & Hw) Hp. destruct (decide (j = i)) as [->|Hne].
    - rewrite Hi in Hj. injection Hj as <-. apply spawn_new. left. auto.
    - exists j, w. split; [by apply after_keeps|done]. }
  assert (∀ j w room1 r1, m !! j = Some w → readerOf w = Some (room1, r1) → (r1 < r)%nat) as Hlt.
  { intros j w room1 r1 Hj Hw. destruct (h_room _ _ (J1 j w Hj) room1 r1 Hw) as (rc1 & E & _). by apply lookup_lt_Some in E. }
  split.
  - intros j w Hj. destruct (Hafter j w Hj) as [[_ H]|[->|(P1 & P2 & P3)]]; [eauto| |by apply ok_plain]. split; [|by intros c' [?|[= <-]]|by intros ? []].
    intros room1 r1 [= <- <-]. eexists. split; [cbn; by apply list_lookup_middle|]. split; [done|]. split; [|done]. intros c' [= <-]. right; by left.
  - assert (∀ j, after m i (Some (TGot r k)) [TRead room r c; TPing r c] !! j = Some (TRead room r c) → j = fresh (dom (<[i := TGot r k]> m))) as Hf.
    { intros j Hj. apply spawn_lookup in Hj as [[_ ?]|Hj]; [done|]. apply spawn_lookup in Hj as [[-> _]|Hj]; [done|].
      apply lookup_insert_Some in Hj as [[_ ?]|[_ Hj]]; [done|]. pose proof (Hlt _ _ _ _ Hj eq_refl). lia. }
    intros j1 j2 w v room1 room2 r1 Hj1 Hj2 Hw Hv.
    destruct (Hafter _ _ Hj1) as [[_ H1]|[->|(P1 & _)]], (Hafter _ _ Hj2) as [[_ H2]|[->|(P2 & _)]]; try congruence; [by eapply J2| | |].
    + pose proof (Hlt _ _ _ _ H1 Hw). injection Hv as _ <-. lia.
    + pose proof (Hlt _ _ _ _ H2 Hv). injection Hw as _ <-. lia.
    + by rewrite (Hf j1), (Hf j2).
  - intros room1 r1 H. cbn in H. apply lookup_insert_Some in H as [[<- <-]|[Hne H]].
    + split; [apply spawn_new; by left|]. eexists. split; [cbn; by apply list_lookup_middle|done].
    + destruct (J3 _ _ H) as (H1 & rc1 & H2 & H3). split; [by apply Hkeep|]. exists rc1. split; [by apply Hold|done].
  - cbn. congruence.
  - intros r1 rc1 H Hne. destruct (Hcell _ _ H) as [H1|[-> ->]]; [|left; exists room; cbn; by rewrite lookup_insert_eq].
    destruct (J5 r1 rc1 H1 Hne) as [[room1 Hx]|Hx]; [|right; apply Hkeep; [done|by intros []]]. left. exists room1. cbn.
    rewrite lookup_insert_ne; [done|]. intros ->. congruence.
  - intros r1 rc1 c1 H Hd Hc1. destruct (Hcell _ _ H) as [H1|[-> ->]]; [by eapply J6|done].
  - intros r1 rc1 c1 H Hc1. destruct (Hcell _ _ H) as [H1|[-> ->]]; [by eapply J7|]. by injection Hc1 as <-.
  - intros c1 Ho. destruct (J8 c1 Ho) as [Hx|[?|(r1 & rc1 & H1 & H2 & H3 & H4)]].
    + left. apply Hkeep; [done|]. intros [[= <-]|?]; [by right|done].
    + by right; left.
    + right; right. exists r1, rc1. split; [by apply Hold|]. split; [done|]. split; [apply Hkeep; [done|by intros []]|].
      intros (j & w & Hj & room1 & Hw). destruct (Hafter j w Hj) as [[_ H]|[->|(P1 & _)]]; [| |congruence].
      * apply H4. exists j, w. eauto.
      * injection Hw as _ Hw. apply lookup_lt_Some in H1. unfold r in Hw. lia.
Qed.

(** ** Calls of the application *)

Lemma thread_eq a a' t :
  cells a' = cells a → conns a' = conns a → strays a' = strays a → (∀ room r, rooms a' !! room = Some r → rooms a !! room = Some r) →
  thread_ok a t → thread_ok a' t.
Proof.
  intros E1 E2 E3 Hr [H1 H2 H3]. split; rewrite ?E1, ?E2, ?E3; [|done|].
  - intros room r Hx. destruct (H1 room r Hx) as (rc & ? & ? & ? & H). exists rc. split; [done|]. split; [done|]. split; [done|].
    intros Ht room' Hy. by eapply H, Hr.
  - intros r Hx. destruct (H3 r Hx) as [? H]. split; [done|]. intros room Hy. by eapply H, Hr.
Qed.

Lemma inv_connect a m : inv a m → inv (a <| connected := true |>) m.
Proof.
  intros [J1 J2 J3 J4 J5 J6 J7 J8]. split; try done. intros i t H. apply (thread_eq a); try done. eauto.
Qed.

Lemma inv_unsubscribe a m r f :
  (∀ rc, conn (f rc) = conn rc ∧ closing (f rc) = closing rc) → inv a m → inv (updateRoom a r f) m.
Proof.
  intros Hf Hinv. pose proof (sim_room a r f Hf) as Hs. destruct Hinv as [J1 J2 J3 J4 J5 J6 J7 J8]. split; try done.
  - intros i t H. apply (thread_sim a); eauto.
  - intros room r1 H. destruct (J3 room r1 H) as (H1 & rc & H2 & H3). split; [done|].
    destruct (s_cells _ _ Hs r1 rc H2) as (rc' & ? & ? & ?). exists rc'. split; [done|congruence].
  - intros r1 rc' H Hne. destruct (sim_back _ _ _ _ Hs H) as (rc & H1 & _ & H3). apply (J5 r1 rc); congruence.
  - intros r1 rc' c H Hd Hc. destruct (sim_back _ _ _ _ Hs H) as (rc & H1 & H2 & H3). apply (J6 r1 rc c); congruence.
  - intros r1 rc' c H Hc. destruct (sim_back _ _ _ _ Hs H) as (rc & H1 & H2 & H3). apply (J7 r1 rc c); congruence.
  - intros c Ho. destruct (J8 c Ho) as [?|[?|(r1 & rc & H1 & H2 & H3)]]; [by left|by right; left|]. right; right.
    destruct (s_cells _ _ Hs r1 rc H1) as (rc' & ? & ? & ?). exists r1, rc'. split; [done|]. split; [congruence|done].
Qed.

(** A new goroutine that is not a read loop. *)
Lemma ws_spawn a m t :
  inv a m → readerOf t = None → thread_ok a t → inv a (spawn m t).
Proof.
  intros [J1 J2 J3 J4 J5 J6 J7 J8] Hr Ht.
  assert (∀ i u x, spawn m t !! i = Some u → readerOf u = Some x → m !! i = Some u) as Hold.
  { intros i u x [[_ ->]|?]%spawn_lookup Hx; [congruence|done]. }
  split; try done.
  - intros i u [[_ ->]|?]%spawn_lookup; [done|eauto].
  - intros i j u v room room' r Hi Hj Hu Hv. eapply J2; eauto.
  - intros room r H. destruct (J3 _ _ H) as [? ?]. split; [by apply spawn_some|done].
  - intros r rc H Hne. destruct (J5 r rc H Hne) as [?|?]; [by left|]. right. by apply spawn_some.
  - intros c Ho. destruct (J8 c Ho) as [?|[?|(r & rc & H1 & H2 & H3 & H4)]]; [left; by apply spawn_some|by right; left|].
    right; right. exists r, rc. split; [done|]. split; [done|]. split; [by apply spawn_some|].
    intros (i & u & Hi & room & Hu). apply H4. exists i, u. split; [by eapply Hold|by exists room].
Qed.

Lemma inv_disconnect a m :
  inv a m → inv (a <| rooms := ∅ |> <| connected := false |>) (spawn m (TClose (map_to_list (rooms a)).*2)).
Proof.
  intros Hinv. set (t := TClose _). set (a' := _ <| connected := false |>).
  assert (∀ r, closes r t ↔ ∃ room, rooms a !! room = Some r) as Hcl.
  { intros r. unfold t. cbn. rewrite list_elem_of_fmap. split.
    - intros ([room r'] & -> & H%elem_of_map_to_list). by exists room.
    - intros [room H]. exists (room, r). split; [done|]. by apply elem_of_map_to_list. }
  destruct Hinv as [J1 J2 J3 J4 J5 J6 J7 J8].
  assert (∀ i u x, spawn m t !! i = Some u → readerOf u = Some x → m !! i = Some u) as Hold.
  { intros i u x [[_ ->]|?]%spawn_lookup Hx; [done|done]. }
  split; try done.
  - intros i u [[_ ->]|Hi]%spawn_lookup.
    + split; [done|by intros c [?|?]|]. intros r [room H]%Hcl. destruct (J3 room r H) as (_ & rc & E & _). split; [by eapply lookup_lt_Some|done].
    + apply (thread_eq a); try done. eauto.
  - intros i j u v room room' r Hi Hj Hu Hv. eapply J2; eauto.
  - intros r rc H Hne. right. destruct (J5 r rc H Hne) as [Hx|?]; [|by apply spawn_some].
    exists (fresh (dom m)), t. split; [apply spawn_lookup; by left|]. by apply Hcl.
  - intros c Ho. destruct (J8 c Ho) as [?|[?|(r & rc & H1 & H2 & H3 & H4)]]; [left; by apply spawn_some|by right; left|].
    right; right. exists r, rc. split; [done|]. split; [done|]. split; [by apply spawn_some|].
    intros (i & u & Hi & room & Hu). apply H4. exists i, u. split; [by eapply Hold|by exists room].
Qed.

Lemma step_keeps s l s' : inv (adapter s) (threads s) → step s l = Some s' → inv (adapter s') (threads s').
Proof.
  intros Hinv. assert (∀ room typ k, inv (adapter (begins s room typ k)) (threads (begins s room typ k))) as Hb.
  { intros room typ k. unfold begins. destruct (Signaling.ValidateMessageType typ), (Signaling.ValidateRoomID room); try done.
    apply ws_spawn; [done|done|]. plain. }
  destruct l as [| |room typ|room typ h|r typ id|i ch]; cbn -[begins]; try (intros [= <-]).
  - by apply inv_connect.
  - by apply inv_disconnect.
  - apply Hb.
  - apply Hb.
  - by apply inv_unsubscribe.
  - destruct (threads s !! i) as [t|] eqn:Hi; [cbn|done]. destruct (threadStep (adapter s) t ch) as [[[a' t'] new]|] eqn:Hs; [|done].
    intros [= <-]. cbn. destruct t; cbn [threadStep] in Hs; try (by eapply lost_ok); try (by eapply close_ok_);
      try (by destruct (read_ok _ _ _ _ _ _ _ _ Hinv Hi Hs) as [-> ?]).
    + assert (new = []) as -> by (unfold ensureStep, return_, next in Hs; repeat case_match; by simplify_eq/=). by eapply ensure_ok.
    + assert (new = []) as -> by (unfold ensureStep, return_, next in Hs; repeat case_match; by simplify_eq/=). by eapply ensure_ok.
    + cbn in Hs. destruct (negb (connected (adapter s))) eqn:Ec; [|destruct (rooms (adapter s) !! room) eqn:Er].
      * injection Hs as <- <- <-. eapply (ensure_ok _ _ _ _ ch _ _ Hinv Hi). cbn. by rewrite Ec.
      * injection Hs as <- <- <-. eapply (ensure_ok _ _ _ _ ch _ _ Hinv Hi). cbn. by rewrite Ec, Er.
      * injection Hs as <- <- <-. b2p. by eapply install_ok.
    + by destruct (got_ok _ _ _ _ _ _ _ _ _ Hinv Hi Hs) as [-> ?].
    + by destruct (ping_ok _ _ _ _ _ _ _ _ _ Hinv Hi Hs) as [-> ?].
Qed.

Lemma steps_keep s ls s' : inv (adapter s) (threads s) → steps s ls = Some s' → inv (adapter s') (threads s').
Proof.
  revert s. induction ls as [|l ls IH]; intros s Hinv H; cbn in H; [by simplify_eq|].
  destruct (step s l) as [s1|] eqn:E; [cbn in H|done]. apply (IH s1); [|done]. by eapply step_keeps.
Qed.

(** ** Theorems *)

Lemma backoff_keeps mi ma a :
  cells (WithReconnectBackoff mi ma a) = cells a ∧ rooms (WithReconnectBackoff mi ma a) = rooms a
  ∧ conns (WithReconnectBackoff mi ma a) = conns a.
Proof. unfold WithReconnectBackoff. destruct (0 <? mi), (0 <? ma); cbn; by destruct (_ && _). Qed.

Lemma new_inv scheme opts a : NewAdapter scheme opts = Ok a → inv a ∅.
Proof.
  unfold NewAdapter. destruct scheme as [x|e]; [cbn -[foldl]|done]. destruct (guard_err _ _); [cbn -[foldl]|done]. intros [= <-].
  assert (∀ l a, cells a = [] ∧ rooms a = ∅ ∧ conns a = [] → let b := foldl (λ a opt, WithReconnectBackoff opt.1 opt.2 a) a l in
            cells b = [] ∧ rooms b = ∅ ∧ conns b = []) as H.
  { induction l as [|[mi ma] l IH]; intros a Ha; [done|]. apply IH. cbn [fst snd]. by destruct (backoff_keeps mi ma a) as (-> & -> & ->). }
  destruct (H opts (mkAdapter false ∅ [] 0 0 0 [] ∅ [] [])) as (E1 & E2 & E3); [done|]. set (a := foldl _ _ opts) in *. clearbody a.
  split; rewrite ?E1, ?E2, ?E3; try done.
Qed.

(** C12: a room the application uses is never deaf.  In every interleaving of calls,
    dials, failures and timers, each room of the table has exactly one read loop, which
    reads its connection or is dialing a new one, and is not closed.  A connection is not
    forgotten: while it is open, a goroutine has it, or will close it, or it was given to
    its room after [Disconnect] had closed the room; when all goroutines have returned,
    no room is left and only connections of the last kind are open. *)
Theorem ws_rooms scheme opts a ls s :
  NewAdapter scheme opts = Ok a → steps (initial a) ls = Some s →
  (∀ room r, rooms (adapter s) !! room = Some r →
     ∃ i t rc, threads s !! i = Some t ∧ readerOf t = Some (room, r) ∧ cells (adapter s) !! r = Some rc ∧ closing rc = NotClosed
       ∧ (∀ c, conn rc = Some c → roomConnOf t = Some c)
       ∧ ∀ j u room', threads s !! j = Some u → readerOf u = Some (room', r) → j = i)
  ∧ (∀ c, conns (adapter s) !! c = Some true → covered (adapter s) (threads s) c)
  ∧ (threads s = ∅ → rooms (adapter s) = ∅ ∧ ∀ c, conns (adapter s) !! c = Some true → c ∈ strays (adapter s)).
Proof.
  intros Ha H. assert (inv (adapter s) (threads s)) as Hinv by (eapply (steps_keep (initial a)); [by eapply new_inv|done]).
  destruct Hinv as [J1 J2 J3 J4 J5 J6 J7 J8]. split; [|split; [done|]].
  - intros room r Hr. destruct (J3 room r Hr) as ((i & t & Hi & Ht) & rc & Hrc & Hd). exists i, t, rc. split_and!; try done.
    + intros c Hc. destruct (h_room _ _ (J1 i t Hi) room r Ht) as (rc' & E & E1 & _). simplify_eq. auto.
    + intros j u room' Hj Hu. by eapply J2.
  - intros Hm. assert (∀ P, ¬ some_thread (threads s) P) as Hno by (rewrite Hm; by intros P (i & t & ? & _)).
    split.
    + apply map_eq. intros room. rewrite lookup_empty. destruct (rooms (adapter s) !! room) as [r|] eqn:E; [|done].
      destruct (J3 room r E) as [Hx _]. by destruct (Hno _ Hx).
    + intros c Ho. destruct (J8 c Ho) as [Hx|[?|(r & rc & _ & _ & Hx & _)]]; [by destruct (Hno _ Hx)|done|by destruct (Hno _ Hx)].
Qed.

Definition demoAdapter : Adapter := mkAdapter false ∅ [] 0 1 2 [] ∅ [] [].

(** A subscription, a message, a lost connection, and a dial that fails before one that
    does not. *)
Definition demoReconnect : list label :=
  [LConnect; LSubscribe "lab" "hello" 5; LThread 0 Go; LThread 0 Ok_; LThread 0 Go; LThread 0 Go;
   LThread 1 (Message "hello" [byte_of 1]); LThread 1 Go; LThread 1 Go; LThread 1 Fail; LThread 2 Go;
   LThread 1 Go; LThread 1 Go; LThread 1 Go; LThread 1 Go; LThread 1 Fail; LThread 1 Tick; LThread 1 Go; LThread 1 Ok_; LThread 1 Go].

(** The new connection is used, and [Disconnect] closes it. *)
Definition demoRun : list label :=
  demoReconnect ++ [LThread 1 Go; LThread 1 (Message "hello" [byte_of 2]); LThread 1 Go; LThread 1 Go; LDisconnect;
                    LThread 3 Go; LThread 3 Go; LThread 3 Go; LThread 1 Fail; LThread 1 Go; LThread 2 Go].

Definition demoEnd : state := default (initial demoAdapter) (steps (initial demoAdapter) demoRun).

Lemma ws_rooms_witness :
  threads demoEnd = ∅ ∧ conns (adapter demoEnd) = [false; false]
  ∧ calls (adapter demoEnd) = [(5%nat, [byte_of 1]); (5%nat, [byte_of 2])] ∧ rooms (adapter demoEnd) = ∅.
Proof.
  split; [vm_compute; reflexivity|]. split; [vm_compute; reflexivity|]. split; [vm_compute; reflexivity|].
  refine (proj1 (proj2 (proj2 (ws_rooms (Ok "ws"%string) [(1, 2)] demoAdapter demoRun demoEnd _ _)) _)); vm_compute; reflexivity.
Defined.

(** [Disconnect] closes the room between the test of [reconnectRoom] and its assignment
    of the new connection: the read loop of the closed room goes on, handlers are called
    after [Disconnect] has returned, and the connection is never closed. *)
Lemma reconnect_survives_disconnect :
  ∃ s s', steps (initial demoAdapter) (demoReconnect ++ [LDisconnect; LThread 2 Go; LThread 2 Go; LThread 2 Go]) = Some s
    ∧ connected (adapter s) = false ∧ length (calls (adapter s)) = 1%nat
    ∧ steps s [LThread 1 Go; LThread 1 (Message "hello" [byte_of 2]); LThread 1 Go; LThread 1 Go; LThread 1 Fail; LThread 1 Go;
               LThread 2 Go] = Some s'
    ∧ length (calls (adapter s')) = 2%nat ∧ threads s' = ∅ ∧ conns (adapter s') = [false; true].
Proof. eexists _, _. split; [vm_compute; reflexivity|]. by vm_compute. Qed.

(** ** Delays *)

(** The delays between the dials of a room double from the first to the maximum: the
    [k]-th is the first times 2^[k], or the maximum. *)
Lemma reconnect_delays a k :
  let '(d, x) := firstDelays a in
  x < 2 ^ 62 → 0 < d ∧ Nat.iter k (λ d, nextDelay d x) d = Z.max d (Z.min (d * 2 ^ Z.of_nat k) x).
Proof.
  unfold firstDelays. set (d := if reconnectMin a <=? 0 then _ else _). assert (0 < d) as Hd.
  { unfold d. destruct (reconnectMin a <=? 0) eqn:E; b2p; [done|lia]. }
  set (x := if reconnectMax a <? d then _ else _). intros Hx. split; [done|]. clearbody d x.
  induction k as [|k IH]; [change (Nat.iter 0 (λ d, nextDelay d x) d) with d; change (2 ^ Z.of_nat 0) with 1; lia|]. rewrite Nat.iter_succ, IH.
  rewrite Nat2Z.inj_succ, Z.pow_succ_r by lia. assert (0 < 2 ^ Z.of_nat k) as Hp by lia. set (p := 2 ^ Z.of_nat k) in *. clearbody p.
  set (y := Z.max d (Z.min (d * p) x)). unfold nextDelay. assert (d ≤ d * p) by nia.
  destruct (y <? x) eqn:E1; b2p.
  - assert (y = d * p) as Hy by lia. assert (i64 (y * 2) = y * 2) as ->.
    { unfold i64. rewrite Z.mod_small by lia. lia. }
    destruct (x <? y * 2) eqn:E2; b2p; lia.
  - lia.
Qed.

End WsClientProofs.
