(* ===== verification/Relay.v ===== *)
(** * Relay.v: the WebSocket relay
    (src/relays/websocket: protocol.go, server.go, and of client.go and provider.go
    the packets and the allocation)

    Two endpoints that cannot reach each other connect to the relay by WebSocket,
    each naming its own and the other's identifier inside a session; packets travel
    in frames that name a destination, always the one address of the relay.

    The server is a machine of handlers and of calls of [Close], each cut where it
    uses shared state: a goroutine holds the connection for itself until
    [addAllocation] has put the allocation into the tables.  Connections are cells of
    a store with what was read from them and written to them; allocations are cells
    that are never reused, so that pointers are compared as the code does.  Reads,
    writes and the verdict of [Authorize] are answers of the outside.  JSON and the
    text of an IP address are not modelled: a text message is the request or response
    it encodes, [None] when it does not parse, and an address is given by its bytes. *)

From S2P Require Import Prelude Threads GoString.
From Stdlib Require Import ZArith Lia String Ascii.
From stdpp Require Import base list option strings numbers gmap.

Local Open Scope Z_scope.
Local Open Scope go_scope.

Module Relay.
Import Threads.

(** ** Package net *)

(** [net.IP]; no bytes for [nil]. *)
Definition IP : Type := list byte.

Record UDPAddr := mkUDPAddr {
  addrIP : IP;
  addrPort : Z
}.

Definition v4InV6Prefix : list byte := replicate 10 (byte_of 0) ++ [byte_of 255; byte_of 255].

Definition To4 (ip : IP) : option IP :=
  if len ip =? 4 then Some ip
  else if (len ip =? 16) && bool_decide (take 12 ip = v4InV6Prefix) then Some (drop 12 ip)
  else None.

Definition To16 (ip : IP) : option IP :=
  if len ip =? 4 then Some (v4InV6Prefix ++ ip)
  else if len ip =? 16 then Some ip
  else None.

Definition IPEqual (ip x : IP) : bool :=
  if len ip =? len x then bool_decide (ip = x)
  else if (len ip =? 4) && (len x =? 16) then bool_decide (take 12 x = v4InV6Prefix) && bool_decide (ip = drop 12 x)
  else if (len ip =? 16) && (len x =? 4) then bool_decide (take 12 ip = v4InV6Prefix) && bool_decide (drop 12 ip = x)
  else false.

(** ** Frames *)

Definition frameMagic : list byte := bytes_of "TW".
Definition frameVersion : Z := 1.
Definition frameHeaderSize : Z := 22.
Definition maxRelayPacket : Z := 65535 - frameHeaderSize.
Definition defaultMaxMessage : Z := 65535.

(** The destination is [None] when it is not a [*net.UDPAddr]. *)
Definition encodeFrame (dst : option UDPAddr) (payload : list byte) : result (list byte) :=
  match dst with
  | None => Err "relay destination must be *net.UDPAddr"
  | Some udpAddr =>
      _ ← guard_err (maxRelayPacket <? len payload) "relay packet is too large";
      let '(ip, family) :=
        match To4 (addrIP udpAddr) with
        | Some ip => (Some ip, 4)
        | None => (To16 (addrIP udpAddr), 6)
        end in
      match ip with
      | None => Err "invalid relay destination"
      | Some ip =>
          _ ← guard_err ((addrPort udpAddr <? 0) || (65535 <? addrPort udpAddr)) "invalid relay destination";
          Ok (frameMagic ++ [byte_of frameVersion; byte_of family] ++ be_encode 2 (u16 (addrPort udpAddr))
              ++ slice_copy (replicate 16 (byte_of 0)) ip ++ payload)
      end
  end.

Definition errInvalidFrame : string := "invalid websocket relay frame".

(** [frame[i]]; the length is checked first. *)
Definition byteAt (frame : list byte) (i : nat) : Z := byte_val (nth i frame (byte_of 0)).

Definition decodeFrame (frame : list byte) : result (UDPAddr * list byte) :=
  if (len frame <? frameHeaderSize) || negb (bool_decide (take 2 frame = frameMagic))
     || negb (byteAt frame 2 =? frameVersion) then Err errInvalidFrame
  else
    let port := be_decode (take 2 (drop 4 frame)) in
    let payload := drop 22 frame in
    if byteAt frame 3 =? 4 then Ok (mkUDPAddr (v4InV6Prefix ++ take 4 (drop 6 frame)) port, payload)
    else if byteAt frame 3 =? 6 then Ok (mkUDPAddr (take 16 (drop 6 frame)) port, payload)
    else Err errInvalidFrame.

(** ** The server's state *)

Record allocateRequest := mkRequest {
  reqType : string;
  reqSession : string;
  reqToken : string;
  reqID : string;
  reqUfrag : string;
  reqNetwork : string;
  reqSourceID : string;
  reqTargetID : string
}.

(** An error answer, or the address of the allocation. *)
Record allocateResponse := mkResponse {
  respType : string;
  respAddress : IP;
  respPort : Z;
  respNetwork : string;
  respError : string
}.

(** Messages of a WebSocket connection in the two directions. *)
Inductive received :=
| Request (r : option allocateRequest)
| Packet (frame : list byte).

Inductive written :=
| Response (r : allocateResponse)
| Frame (frame : list byte).

Record socket := mkSocket {
  urlPath : string;
  open : bool;
  heard : list received;
  told : list written
}.

#[export] Instance eta_socket : Eta socket := fun c => mkSocket (urlPath c) (open c) (heard c) (told c).

Record allocation := mkAllocation {
  path : string;
  session : string;
  addr : UDPAddr;
  sourceID : string;
  targetID : string;
  conn : nat
}.

Record ServerConfig := mkConfig {
  RelayAddress : IP;
  RelayPort : Z;
  HandshakeTimeout : Z;
  PingInterval : Z;
  MaxMessageSize : Z
}.

#[export] Instance eta_config : Eta ServerConfig := fun c =>
  mkConfig (RelayAddress c) (RelayPort c) (HandshakeTimeout c) (PingInterval c) (MaxMessageSize c).

(** The two tables hold pointers into [allocs]; [sockets] are the connections. *)
Record Server := mkServer {
  config : ServerConfig;
  allocations : gmap string nat;
  byEndpoint : gmap string nat;
  closed : bool;
  allocs : gmap nat allocation;
  sockets : gmap nat socket
}.

#[export] Instance eta_server : Eta Server := fun s =>
  mkServer (config s) (allocations s) (byEndpoint s) (closed s) (allocs s) (sockets s).

(** The errors for a nil and for an empty address are one here. *)
Definition NewServer (c : ServerConfig) : result Server :=
  match To16 (RelayAddress c) with
  | None => Err "websocket relay address is invalid"
  | Some _ =>
      _ ← guard_err (RelayPort c =? 0) "websocket relay port is required";
      let c := if HandshakeTimeout c <=? 0 then c <| HandshakeTimeout := 10 * 10 ^ 9 |> else c in
      let c := if PingInterval c <=? 0 then c <| PingInterval := 20 * 10 ^ 9 |> else c in
      let c := if MaxMessageSize c <=? 0 then c <| MaxMessageSize := defaultMaxMessage |> else c in
      Ok (mkServer c ∅ ∅ false ∅ ∅)
  end.

Definition NUL : ascii := ascii_of_nat 0.

Definition endpointKey (path session endpointID : string) : string :=
  path +:+ String NUL (session +:+ String NUL endpointID).

(** ** Operations under the server's mutex *)

Definition addAllocation (s : Server) (urlPath : string) (r : allocateRequest) (c : nat)
  : Server * result nat :=
  if closed s then (s, Err "use of closed network connection")
  else if bool_decide (is_Some (allocations s !! reqID r)) then (s, Err "relay allocation id is already in use")
  else if bool_decide (reqSourceID r = EmptyString) || bool_decide (reqTargetID r = EmptyString)
  then (s, Err "source and target endpoint IDs are required")
  else
    let key := endpointKey urlPath (reqSession r) (reqSourceID r) in
    if bool_decide (is_Some (byEndpoint s !! key)) then (s, Err "source endpoint is already allocated")
    else
      let addr := mkUDPAddr (RelayAddress (config s)) (RelayPort (config s)) in
      let alloc := fresh (dom (allocs s)) in
      (s <| allocs ::= <[alloc := mkAllocation urlPath (reqSession r) addr (reqSourceID r) (reqTargetID r) c]> |>
         <| allocations ::= <[reqID r := alloc]> |>
         <| byEndpoint ::= <[key := alloc]> |>, Ok alloc).

Definition removeAllocation (s : Server) (alloc : nat) : Server :=
  match allocs s !! alloc with
  | None => s
  | Some a =>
      s <| allocations ::= filter (λ p, p.2 ≠ alloc) |>
        <| byEndpoint ::= delete (endpointKey (path a) (session a) (sourceID a)) |>
  end.

(** The first test of [forward]; a decoded destination is not nil. *)
Definition forRelay (s : Server) (destination : UDPAddr) : bool :=
  IPEqual (addrIP destination) (RelayAddress (config s)) && (addrPort destination =? RelayPort (config s)).

(** The rest of [forward] up to the write: the allocation to write to, and the frame. *)
Definition forwardTo (s : Server) (source : allocation) (payload : list byte) : option (nat * list byte) :=
  target ← byEndpoint s !! endpointKey (path source) (session source) (targetID source);
  a ← allocs s !! target;
  if bool_decide (targetID a = sourceID source) then
    match encodeFrame (Some (addr source)) payload with
    | Ok frame => Some (target, frame)
    | Err _ => None
    end
  else None.

(** ** Connections *)

Definition updateSocket (s : Server) (c : nat) (f : socket → socket) : Server := s <| sockets ::= alter f c |>.

Definition closeSocket (s : Server) (c : nat) : Server := updateSocket s c (λ k, k <| open := false |>).

(** A write reaches the peer when the connection is open and the network takes it. *)
Definition writeMessage (s : Server) (c : nat) (m : written) (ok : bool) : Server * bool :=
  match sockets s !! c with
  | Some k => if open k && ok then (updateSocket s c (λ k, k <| told ::= (λ l, l ++ [m]) |>), true) else (s, false)
  | None => (s, false)
  end.

(** [ReadMessage]: nothing can be read from a closed connection, and a message
    beyond the read limit is an error. *)
Definition readMessage (s : Server) (c : nat) (m : option received) : Server * option received :=
  match sockets s !! c, m with
  | Some k, Some m =>
      let fits := match m with Packet f => len f <=? MaxMessageSize (config s) | Request _ => true end in
      if open k && fits then (updateSocket s c (λ k, k <| heard ::= (λ l, l ++ [m]) |>), Some m) else (s, None)
  | _, _ => (s, None)
  end.

Definition alloc_close (s : Server) (alloc : nat) : Server :=
  match allocs s !! alloc with Some a => closeSocket s (conn a) | None => s end.

Definition writeAllocationError (s : Server) (c : nat) (message : string) (ok : bool) : Server :=
  (writeMessage s c (Response (mkResponse "error" [] 0 EmptyString message)) ok).1.

(** ** The handler *)

(** Where [ServeHTTP] stands: before the request is read, before [addAllocation],
    before the answer, in its loop, in [forward] before the lookup and before the
    write, and in its two deferred calls. *)
Inductive stage :=
| AtHandshake
| AtAdd (r : allocateRequest)
| AtRespond (alloc : nat) (network : string)
| AtRead (alloc : nat)
| AtLookup (alloc : nat) (payload : list byte)
| AtWrite (alloc target : nat) (frame : list byte)
| AtClose (alloc : nat)
| AtRemove (alloc : nat).

(** A handler with its connection, and a call of [Close] with the allocations it has
    yet to close. *)
Inductive thread :=
| TServe (c : nat) (st : stage)
| TClose (rest : list nat).

(** What the outside answers: the outcome of a read, of a write, and the verdict of
    [Authorize] with its error. *)
Record answer := mkAnswer {
  a_read : option received;
  a_wrote : bool;
  a_authorize : option string
}.

Definition refuse (s : Server) (c : nat) (message : string) (a : answer) : Server :=
  closeSocket (writeAllocationError s c message (a_wrote a)) c.

Definition handshakeStep (s : Server) (c : nat) (a : answer) : Server * option thread :=
  let '(s, m) := readMessage s c (a_read a) in
  match m with
  | Some (Request (Some r)) =>
      if negb (bool_decide (reqType r = "allocate"%string)) then (closeSocket s c, None)
      else if bool_decide (reqSession r = EmptyString) || bool_decide (reqID r = EmptyString)
      then (refuse s c "session and id are required" a, None)
      else match a_authorize a with
           | Some e => (refuse s c e a, None)
           | None => (s, Some (TServe c (AtAdd r)))
           end
  | _ => (closeSocket s c, None)
  end.

Definition serveStep (s : Server) (c : nat) (st : stage) (a : answer) : Server * option thread :=
  let go s st := (s, Some (TServe c st)) in
  match st with
  | AtHandshake => handshakeStep s c a
  | AtAdd r =>
      match sockets s !! c with
      | None => (s, None)
      | Some k =>
          let '(s, res) := addAllocation s (urlPath k) r c in
          match res with
          | Ok alloc => go s (AtRespond alloc (reqNetwork r))
          | Err e => (refuse s c e a, None)
          end
      end
  | AtRespond alloc network =>
      match allocs s !! alloc with
      | None => (s, None)
      | Some al =>
          let response := mkResponse "allocated" (addrIP (addr al)) (addrPort (addr al)) network EmptyString in
          let '(s, ok) := writeMessage s c (Response response) (a_wrote a) in
          go s (if ok then AtRead alloc else AtClose alloc)
      end
  | AtRead alloc =>
      let '(s, m) := readMessage s c (a_read a) in
      match m with
      | None => go s (AtClose alloc)
      | Some (Request _) => go s (AtRead alloc)
      | Some (Packet frame) =>
          match decodeFrame frame with
          | Err _ => go s (AtClose alloc)
          | Ok (destination, payload) =>
              go s (if forRelay s destination then AtLookup alloc payload else AtRead alloc)
          end
      end
  | AtLookup alloc payload =>
      match allocs s !! alloc ≫= λ source, forwardTo s source payload with
      | Some (target, frame) => go s (AtWrite alloc target frame)
      | None => go s (AtRead alloc)
      end
  | AtWrite alloc target frame =>
      match allocs s !! target with
      | None => (s, None)
      | Some t => go (writeMessage s (conn t) (Frame frame) (a_wrote a)).1 (AtRead alloc)
      end
  | AtClose alloc => go (alloc_close s alloc) (AtRemove alloc)
  | AtRemove alloc => (removeAllocation s alloc, None)
  end.

Definition closeStep (s : Server) (rest : list nat) : Server * option thread :=
  match rest with
  | [] => (s, None)
  | alloc :: rest => (alloc_close s alloc, Some (TClose rest))
  end.

Definition threadStep (s : Server) (t : thread) (a : answer) : Server * option thread :=
  match t with
  | TServe c st => serveStep s c st a
  | TClose rest => closeStep s rest
  end.

(** ** The machine *)

Record world := mkWorld {
  server : Server;
  threads : gmap nat thread
}.

(** A request that was upgraded, a call of [Close], a step of a goroutine. *)
Inductive op :=
| OServe (path : string)
| OClose
| OStep (i : nat) (a : answer).

Definition exec (w : world) (o : op) : world :=
  let s := server w in
  let m := threads w in
  match o with
  | OServe path =>
      let c := fresh (dom (sockets s)) in
      mkWorld (s <| sockets ::= <[c := mkSocket path true [] []]> |>) (spawn m (TServe c AtHandshake))
  | OClose =>
      if closed s then w
      else mkWorld (s <| closed := true |>) (spawn m (TClose (map_to_list (allocations s)).*2))
  | OStep i a =>
      match m !! i with
      | None => w
      | Some t => let '(s, t') := threadStep s t a in mkWorld s (after m i t' [])
      end
  end.

Definition run (w : world) (os : list op) : world := foldl exec w os.

Definition start (s : Server) : world := mkWorld s ∅.

(** ** The client *)

Record Provider := mkProvider {
  providerSession : string;
  providerID : string;
  providerPeer : string;
  providerNetwork : string
}.

(** The checks of [NewProvider] on the fields that are used here. *)
Definition NewProvider (url session localID peerID network : string) : result Provider :=
  _ ← guard_err (bool_decide (url = EmptyString)) "websocket relay URL is empty";
  _ ← guard_err (bool_decide (session = EmptyString)) "websocket relay session is empty";
  _ ← guard_err (bool_decide (localID = EmptyString) || bool_decide (peerID = EmptyString))
        "websocket relay local and peer IDs are required";
  let network := if bool_decide (network = EmptyString) then "udp4"%string else network in
  _ ← guard_err (negb (bool_decide (network = "udp4"%string)) && negb (bool_decide (network = "udp6"%string)))
        "unsupported websocket relay network";
  Ok (mkProvider session localID peerID network).

(** [allocate]: the request it sends, with the random [id], and what it makes of the
    first message of the server; [net.ParseIP] returns sixteen bytes. *)
Definition allocateSend (p : Provider) (token id ufrag : string) : allocateRequest :=
  mkRequest "allocate" (providerSession p) token id ufrag (providerNetwork p) (providerID p) (providerPeer p).

Definition allocateReceive (p : Provider) (m : written) : result UDPAddr :=
  match m with
  | Frame _ => Err "websocket relay allocation response is not text"
  | Response r =>
      if negb (bool_decide (respType r = "allocated"%string)) then
        Err (if bool_decide (respError r = EmptyString) then "relay allocation failed"%string else respError r)
      else
        match To16 (respAddress r) with
        | None => Err "websocket relay returned an invalid address"
        | Some ip =>
            _ ← guard_err ((respPort r <? 1) || (65535 <? respPort r)) "websocket relay returned an invalid address";
            _ ← guard_err (negb (bool_decide (respNetwork r = EmptyString))
                           && negb (bool_decide (respNetwork r = providerNetwork p)))
                  "websocket relay network mismatch";
            Ok (mkUDPAddr ip (respPort r))
        end
  end.

(** [packetConn.WriteTo]: the message for the connection. *)
Definition WriteTo (p : list byte) (dst : option UDPAddr) : result received :=
  frame ← encodeFrame dst p; Ok (Packet frame).

(** [packetConn.ReadFrom] into [size] bytes: the messages left, and the packet with
    its source or the error; [None] while only other messages have come. *)
Fixpoint ReadFrom (messages : list written) (size : Z) : option (list written * result (UDPAddr * list byte)) :=
  match messages with
  | [] => None
  | Response _ :: rest => ReadFrom rest size
  | Frame frame :: rest =>
      Some (rest, match decodeFrame frame with
                  | Err e => Err e
                  | Ok (source, payload) =>
                      if size <? len payload then Err "short buffer" else Ok (source, payload)
                  end)
  end.

End Relay.
