(* ===== verification/RelayProofs.v ===== *)
(** * RelayProofs.v: frames, isolation and cleanup of the relay of Relay.v *)

From S2P Require Import Prelude Threads GoString Relay.
From Stdlib Require Import ZArith Lia String Ascii.
From stdpp Require Import base list option strings numbers gmap.

Local Open Scope Z_scope.
Local Open Scope go_scope.

Module RelayProofs.
Import Threads Relay.

(** ** Frames *)

Lemma To16_length ip ip' : To16 ip = Some ip' → length ip' = 16%nat.
Proof.
  unfold To16, len. case_if as E; b2p.
  - intros H%(inj Some). subst ip'. unfold v4InV6Prefix. rewrite !length_app, length_replicate. cbn. lia.
  - case_if as E'; b2p; [|done]. intros [= <-]. lia.
Qed.

Lemma To16_equal ip ip' : To16 ip = Some ip' → IPEqual ip' ip = true.
Proof.
  intros H. pose proof (To16_length _ _ H) as Hl. unfold IPEqual, To16, len in *. rewrite Hl.
  destruct (Z.of_nat (length ip) =? 4) eqn:E in H; b2p.
  - apply (inj Some) in H. subst ip'. rewrite E. change (Z.of_nat 16 =? 4) with false. change (Z.of_nat 16 =? 16) with true.
    cbn. by rewrite !bool_decide_true.
  - destruct (Z.of_nat (length ip) =? 16) eqn:E' in H; b2p; [|done]. injection H as <-. rewrite E'.
    by rewrite bool_decide_true.
Qed.

(** A 4-byte address is written with twelve zeros behind it. *)
Definition addressField (ip : IP) : list byte := slice_copy (replicate 16 (byte_of 0)) ip.

Lemma addressField_length ip : length (addressField ip) = 16%nat.
Proof. unfold addressField. by rewrite slice_copy_length. Qed.

Definition frameOf (family port : Z) (field payload : list byte) : list byte :=
  frameMagic ++ [byte_of frameVersion; byte_of family] ++ be_encode 2 port ++ field ++ payload.

Lemma decodeFrame_frameOf family port field payload :
  length field = 16%nat → 0 ≤ port < 65536 → family = 4 ∨ family = 6 →
  decodeFrame (frameOf family port field payload) =
    Ok (mkUDPAddr (if family =? 4 then v4InV6Prefix ++ take 4 field else field) port, payload).
Proof.
  intros Hf Hp Hfam. set (f := frameOf family port field payload).
  assert (Hpre : ∃ b0 b1, be_encode 2 port = [b0; b1]) by (by eexists _, _).
  destruct Hpre as (b0 & b1 & Hb).
  assert (Hsplit : f = bytes_of "TW" ++ [byte_of 1; byte_of family; b0; b1] ++ field ++ payload).
  { unfold f, frameOf. by rewrite Hb. }
  assert (Hport : be_decode [b0; b1] = port).
  { rewrite <- Hb, be_decode_encode, Z.mod_small; [done|]. cbn. lia. }
  assert (Hd : drop 6 f = field ++ payload) by (by rewrite Hsplit).
  assert (Hd' : drop 22 f = payload).
  { change 22%nat with (6 + 16)%nat. rewrite <- drop_drop, Hd, <- Hf. apply drop_app_length. }
  assert (Hl : len f = 22 + len payload).
  { rewrite Hsplit, !len_app. unfold len at 3. rewrite Hf. cbn. unfold len. cbn. lia. }
  unfold decodeFrame. pose proof (len_nonneg payload).
  destruct (len f <? frameHeaderSize) eqn:E; b2p; [unfold frameHeaderSize in *; lia|].
  assert (Hv : byteAt f 2 = 1) by (by rewrite Hsplit).
  assert (Hk : byteAt f 3 = family).
  { rewrite Hsplit. change (byte_val (byte_of family) = family). rewrite byte_val_of. unfold u8. rewrite Z.mod_small; lia. }
  assert (Hm : take 2 f = frameMagic) by (by rewrite Hsplit).
  assert (Hq : take 2 (drop 4 f) = [b0; b1]) by (by rewrite Hsplit).
  rewrite Hm, bool_decide_true, Hv, Hk, Hq, Hport, Hd, Hd' by done. cbn.
  destruct Hfam as [->| ->]; cbn; (do 3 f_equal).
  - rewrite take_app_le by lia. done.
  - rewrite take_app_le, take_ge by lia. done.
Qed.

Lemma encodeFrame_inv dst payload f :
  encodeFrame (Some dst) payload = Ok f →
  ∃ family field, f = frameOf family (addrPort dst) field payload ∧ length field = 16%nat ∧
    0 ≤ addrPort dst < 65536 ∧ len payload ≤ maxRelayPacket ∧
    ((family = 4 ∧ To16 (addrIP dst) = Some (v4InV6Prefix ++ take 4 field)) ∨
     (family = 6 ∧ To16 (addrIP dst) = Some field)).
Proof.
  cbn. intros [Hl H]%bind_ok_unit. apply guard_ok in Hl. b2p.
  assert (Hfield : ∀ ip, length ip = 4%nat → take 4 (addressField ip) = ip).
  { intros ip Hip. unfold addressField, slice_copy. rewrite length_replicate, (take_ge ip) by lia.
    rewrite take_app_le, take_ge by lia. done. }
  assert (Hfield' : ∀ ip, length ip = 16%nat → addressField ip = ip).
  { intros ip Hip. unfold addressField, slice_copy.
    rewrite length_replicate, take_ge, drop_ge, app_nil_r; [done|rewrite length_replicate; lia|lia]. }
  destruct (To4 (addrIP dst)) as [ip|] eqn:H4.
  - apply bind_ok_unit in H as [Hp H]. apply guard_ok in Hp. b2p. injection H as <-.
    exists 4, (addressField ip). rewrite addressField_length. unfold frameOf.
    unfold u16. rewrite Z.mod_small by (cbn; lia). split_and!; try done; [lia..|]. left. split; [done|].
    unfold To4, To16 in *. destruct (len (addrIP dst) =? 4) eqn:E in H4 |- *; b2p.
    + apply (inj Some) in H4. subst ip. rewrite Hfield by (unfold len in *; lia). done.
    + destruct (len (addrIP dst) =? 16) eqn:E' in H4 |- *; b2p; [|done]. rewrite andb_true_l in H4.
      destruct (bool_decide _) eqn:Ht in H4; [|done]. apply bool_decide_eq_true in Ht. apply (inj Some) in H4. subst ip.
      rewrite Hfield by (rewrite length_drop; unfold len in *; lia).
      change (Some (addrIP dst) = Some (v4InV6Prefix ++ drop 12 (addrIP dst))). by rewrite <- Ht, take_drop.
  - destruct (To16 (addrIP dst)) as [ip|] eqn:H6; [|done].
    apply bind_ok_unit in H as [Hp H]. apply guard_ok in Hp. b2p. injection H as <-.
    exists 6, (addressField ip). rewrite addressField_length. unfold frameOf.
    unfold u16. rewrite Z.mod_small by (cbn; lia). split_and!; try done; [lia..|]. right. split; [done|].
    by rewrite Hfield' by (by eapply To16_length).
Qed.

Lemma frame_encode_decode dst payload f :
  encodeFrame (Some dst) payload = Ok f →
  ∃ ip, To16 (addrIP dst) = Some ip ∧ decodeFrame f = Ok (mkUDPAddr ip (addrPort dst), payload) ∧
    len f = 22 + len payload.
Proof.
  intros (family & field & -> & Hf & Hp & _ & Hcase)%encodeFrame_inv.
  assert (Hl : len (frameOf family (addrPort dst) field payload) = 22 + len payload).
  { unfold frameOf. rewrite !len_app. unfold len at 3 4. rewrite Hf, be_encode_length. cbn. unfold len. cbn. lia. }
  destruct Hcase as [[-> H]|[-> H]]; (eexists; split_and!; [exact H| |exact Hl]).
  - by rewrite decodeFrame_frameOf by auto.
  - by rewrite decodeFrame_frameOf by auto.
Qed.

Lemma encode_ok dst payload ip :
  To16 (addrIP dst) = Some ip → 0 ≤ addrPort dst < 65536 → len payload ≤ maxRelayPacket →
  ∃ f, encodeFrame (Some dst) payload = Ok f.
Proof.
  intros Hip Hp Hl. cbn. destruct (maxRelayPacket <? len payload) eqn:E; b2p; [lia|]. cbn.
  assert (Hg : (addrPort dst <? 0) || (65535 <? addrPort dst) = false).
  { apply orb_false_iff. split; apply Z.ltb_ge; lia. }
  destruct (To4 (addrIP dst)); rewrite ?Hip, Hg; cbn; eauto.
Qed.

Lemma IPEqual_16 ip ip' x : To16 ip = Some ip' → IPEqual ip x = true → IPEqual ip' x = true.
Proof.
  intros H. pose proof (To16_length _ _ H) as Hl. unfold IPEqual, To16, len in *. rewrite Hl.
  destruct (Z.of_nat (length ip) =? 4) eqn:E in H |- *; b2p.
  - apply (inj Some) in H. subst ip'. rewrite E.
    assert (Ht : take 12 (v4InV6Prefix ++ ip) = v4InV6Prefix) by done.
    assert (Hd : drop 12 (v4InV6Prefix ++ ip) = ip) by done.
    rewrite Ht, Hd. clear Hl Ht Hd. generalize v4InV6Prefix. intros q.
    destruct (4 =? Z.of_nat (length x)) eqn:E1; b2p.
    + rewrite <- E1. intros ->%bool_decide_eq_true. vm_compute (Z.of_nat 16 =? 4).
      cbn. by rewrite !bool_decide_true.
    + destruct (Z.of_nat (length x) =? 16) eqn:E2; b2p; cbn; [|done].
      rewrite E2. change (Z.of_nat 16 =? 16) with true. intros [H1 H2]%andb_true_iff. b2p.
      rewrite bool_decide_true; [done|]. rewrite H2, <- H1. by rewrite take_drop.
  - destruct (Z.of_nat (length ip) =? 16) eqn:E' in H; b2p; [|done]. apply (inj Some) in H. subst ip'. by rewrite E'.
Qed.

(** ** Keys of endpoints *)

Definition plain (s : string) : Prop := GoString.contains s NUL = false.

Lemma Split_plain s : plain s → GoString.Split s NUL = [s].
Proof. unfold plain, GoString.contains. rewrite negb_false_iff. apply GoString.Split_one. Qed.

(** A string with one segment is that segment. *)
Lemma Split_single s x sep : GoString.Split s sep = [x] → s = x.
Proof.
  revert x. induction s as [|c s IH]; intros x; cbn; [by intros [= <-]|].
  pose proof (GoString.Split_nonempty s sep). case_if as E; [by intros [= ? ?]|].
  destruct (GoString.Split s sep) as [|y [|z l]]; intros [= <-]; [done|]. f_equal. by apply IH.
Qed.

Lemma Split_endpointKey p s e :
  GoString.Split (endpointKey p s e) NUL =
    GoString.Split p NUL ++ GoString.Split s NUL ++ GoString.Split e NUL.
Proof. unfold endpointKey. by rewrite !GoString.Split_app. Qed.

(** The key of an endpoint without NUL in its parts belongs to no other endpoint. *)
Lemma endpointKey_inj p s e p' s' e' :
  plain p → plain s → plain e → endpointKey p s e = endpointKey p' s' e' → p = p' ∧ s = s' ∧ e = e'.
Proof.
  intros Hp Hs He H. apply (f_equal (λ k, GoString.Split k NUL)) in H.
  rewrite !Split_endpointKey, !Split_plain in H by done.
  pose proof (GoString.Split_nonempty p' NUL). pose proof (GoString.Split_nonempty s' NUL).
  pose proof (GoString.Split_nonempty e' NUL).
  destruct (GoString.Split p' NUL) as [|a [|? ?]] eqn:Ep, (GoString.Split s' NUL) as [|b [|? ?]] eqn:Es,
    (GoString.Split e' NUL) as [|c [|? ?]] eqn:Ee; simplify_eq/=; try done;
    try (by (rename select (_ = _ ++ _) into Hx; apply (f_equal length) in Hx; rewrite ?length_app in Hx; cbn in Hx; lia)).
  by rewrite (Split_single _ _ _ Ep), (Split_single _ _ _ Es), (Split_single _ _ _ Ee).
Qed.

(** ** The invariant *)

Definition keyOf (a : allocation) : string := endpointKey (path a) (session a) (sourceID a).

Definition allocOf (st : stage) : option nat :=
  match st with
  | AtHandshake | AtAdd _ => None
  | AtRespond al _ | AtRead al | AtLookup al _ | AtWrite al _ _ | AtClose al | AtRemove al => Some al
  end.

(** Goroutines that serve a connection, hold an allocation, or will close one. *)
Definition serves (c : nat) (t : thread) : Prop := ∃ st, t = TServe c st.
Definition holds (al : nat) (t : thread) : Prop := ∃ c st, t = TServe c st ∧ allocOf st = Some al.
Definition closes (al : nat) (t : thread) : Prop := ∃ rest, t = TClose rest ∧ al ∈ rest.

(** An allocation of connection [c] that both tables have. *)
Definition live (s : Server) (al c : nat) : Prop :=
  ∃ a, allocs s !! al = Some a ∧ conn a = c ∧ byEndpoint s !! keyOf a = Some al ∧
    ∃ id, allocations s !! id = Some al.

(** The endpoint of [al] has sent a packet with [payload] to the relay. *)
Definition offered (s : Server) (al : nat) (payload : list byte) : Prop :=
  ∃ a k g dst, allocs s !! al = Some a ∧ sockets s !! conn a = Some k ∧ Packet g ∈ heard k ∧
    decodeFrame g = Ok (dst, payload) ∧ forRelay s dst = true.

(** [f] is such a packet for [target], whose endpoint and that of [al] name each other. *)
Definition routed (s : Server) (al target : nat) (f : list byte) : Prop :=
  ∃ a t payload, allocs s !! al = Some a ∧ allocs s !! target = Some t ∧ offered s al payload ∧
    keyOf t = endpointKey (path a) (session a) (targetID a) ∧ targetID t = sourceID a ∧
    encodeFrame (Some (addr a)) payload = Ok f.

Definition stage_ok (s : Server) (c : nat) (k : socket) (st : stage) : Prop :=
  match st with
  | AtHandshake => ∀ al a, allocs s !! al = Some a → conn a ≠ c
  | AtAdd r => Request (Some r) ∈ heard k ∧ ∀ al a, allocs s !! al = Some a → conn a ≠ c
  | AtRespond al _ | AtRead al | AtClose al => live s al c
  | AtLookup al payload => live s al c ∧ offered s al payload
  | AtWrite al target f => live s al c ∧ routed s al target f
  | AtRemove al => live s al c ∧ open k = false
  end.

Definition thread_ok (s : Server) (t : thread) : Prop :=
  match t with
  | TServe c st => ∃ k, sockets s !! c = Some k ∧ stage_ok s c k st
  | TClose _ => True
  end.

(** What the server knows about an allocation: its endpoint asked for it. *)
Definition alloc_ok (s : Server) (a : allocation) : Prop :=
  addr a = mkUDPAddr (RelayAddress (config s)) (RelayPort (config s)) ∧
  ∃ k r, sockets s !! conn a = Some k ∧ urlPath k = path a ∧ Request (Some r) ∈ heard k ∧
    session a = reqSession r ∧ sourceID a = reqSourceID r ∧ targetID a = reqTargetID r.

Record inv (s : Server) (m : gmap nat thread) : Prop := {
  iv_threads : ∀ i t, m !! i = Some t → thread_ok s t;
  iv_distinct : ∀ i j c st st', m !! i = Some (TServe c st) → m !! j = Some (TServe c st') → i = j;
  iv_open : ∀ c k, sockets s !! c = Some k → open k = true → some_thread m (serves c);
  iv_endpoints : ∀ key al, byEndpoint s !! key = Some al →
    (∃ a, allocs s !! al = Some a ∧ key = keyOf a) ∧ some_thread m (holds al);
  iv_ids : ∀ id al, allocations s !! id = Some al → some_thread m (holds al);
  iv_allocs : ∀ al a, allocs s !! al = Some a → alloc_ok s a;
  iv_conns : ∀ al al' a a', allocs s !! al = Some a → allocs s !! al' = Some a' → conn a = conn a' → al = al';
  iv_told : ∀ c k f, sockets s !! c = Some k → Frame f ∈ told k →
    ∃ al target t, routed s al target f ∧ allocs s !! target = Some t ∧ conn t = c;
  iv_closing : closed s = true → ∀ al a k, allocs s !! al = Some a → sockets s !! conn a = Some k →
    open k = true → some_thread m (closes al)
}.

(** ** Growth *)

(** Allocations stay as they are, connections keep what was read and stay closed. *)
Record grows (s s' : Server) : Prop := {
  gr_config : config s' = config s;
  gr_allocs : ∀ al a, allocs s !! al = Some a → allocs s' !! al = Some a;
  gr_sockets : ∀ c k, sockets s !! c = Some k → ∃ k', sockets s' !! c = Some k' ∧ urlPath k' = urlPath k ∧
    (∀ x, x ∈ heard k → x ∈ heard k') ∧ (open k = false → open k' = false)
}.

Lemma offered_grows s s' al payload : grows s s' → offered s al payload → offered s' al payload.
Proof.
  intros [Hc Ha Hs] (a & k & g & dst & H1 & H2 & H3 & H4 & H5). destruct (Hs _ _ H2) as (k' & Hk' & _ & Hh & _).
  exists a, k', g, dst. split_and!; auto. unfold forRelay in *. by rewrite Hc.
Qed.

Lemma routed_grows s s' al target f : grows s s' → routed s al target f → routed s' al target f.
Proof.
  intros Hg (a & t & p & H1 & H2 & H3 & H4 & H5 & H6). exists a, t, p.
  split_and!; eauto using gr_allocs, offered_grows.
Qed.

Lemma alloc_ok_grows s s' a : grows s s' → alloc_ok s a → alloc_ok s' a.
Proof.
  intros [Hc Ha Hs] (H1 & k & r & H2 & H3 & H4 & H5). destruct (Hs _ _ H2) as (k' & Hk' & Hu & Hh & _).
  split; [by rewrite Hc|]. exists k', r. split_and!; [done|congruence|by apply Hh|apply H5..].
Qed.

(** Another goroutine is not disturbed when its allocation stays in the tables and,
    before it has one, its connection is not given one. *)
Lemma thread_ok_grows s s' t :
  grows s s' → thread_ok s t →
  (∀ al c, holds al t → live s al c → live s' al c) →
  (∀ c al a, serves c t → allocs s' !! al = Some a → conn a = c → allocs s !! al = Some a) →
  thread_ok s' t.
Proof.
  intros Hg Ht Hl Hn. destruct t as [c st|rest]; [|done]. destruct Ht as (k & Hk & Hst).
  destruct (gr_sockets _ _ Hg _ _ Hk) as (k' & Hk' & _ & Hh & Ho). exists k'. split; [done|].
  assert (Hno : (∀ al a, allocs s !! al = Some a → conn a ≠ c) → ∀ al a, allocs s' !! al = Some a → conn a ≠ c).
  { intros H al a Ha He. eapply H; [|exact He]. eapply Hn; [by exists st|done..]. }
  assert (Hlive : ∀ al, allocOf st = Some al → live s al c → live s' al c).
  { intros al Hal. apply Hl. by exists c, st. }
  destruct st; cbn in *; try (by apply Hlive); try (by apply Hno).
  - destruct Hst as [Hr Hc]. split; [by apply Hh|by apply Hno].
  - destruct Hst as [Hx Hy]. split; [by apply Hlive|by eapply offered_grows].
  - destruct Hst as [Hx Hy]. split; [by apply Hlive|by eapply routed_grows].
  - destruct Hst as [Hx Hy]. split; [by apply Hlive|by apply Ho].
Qed.

(** ** Steps that leave the tables alone *)

(** The connections change: they grow, and the frames of [P] may be written. *)
Record quiet (P : nat → list byte → Prop) (s s' : Server) : Prop := {
  qu_grows : grows s s';
  qu_allocs : allocs s' = allocs s;
  qu_ids : allocations s' = allocations s;
  qu_endpoints : byEndpoint s' = byEndpoint s;
  qu_closed : closed s' = closed s;
  qu_told : ∀ c k' f, sockets s' !! c = Some k' → ∃ k, sockets s !! c = Some k ∧
    (Frame f ∈ told k' → Frame f ∈ told k ∨ P c f)
}.

Definition nothing (c : nat) (f : list byte) : Prop := False.

Lemma quiet_refl P s : quiet P s s.
Proof. split; [split|..]; try done; eauto. Qed.

Lemma quiet_trans P s s' s'' : quiet P s s' → quiet P s' s'' → quiet P s s''.
Proof.
  intros [[G1 G2 G3] A1 A2 A3 A4 A5] [[H1 H2 H3] B1 B2 B3 B4 B5]. split; try congruence.
  - split; [congruence|auto|]. intros c k Hk. destruct (G3 _ _ Hk) as (k' & Hk' & U1 & U2 & U3).
    destruct (H3 _ _ Hk') as (k'' & Hk'' & V1 & V2 & V3). exists k''. split_and!; [done|congruence|auto..].
  - intros c k'' f Hk''. destruct (B5 _ _ f Hk'') as (k' & Hk' & Hf). destruct (A5 _ _ f Hk') as (k & Hk & Hf').
    exists k. split; [done|]. intros [?|?]%Hf; auto.
Qed.

Lemma updateSocket_quiet P s c f :
  (∀ k, urlPath (f k) = urlPath k ∧ (∀ x, x ∈ heard k → x ∈ heard (f k)) ∧ (open k = false → open (f k) = false) ∧
        ∀ g, Frame g ∈ told (f k) → Frame g ∈ told k ∨ P c g) →
  quiet P s (updateSocket s c f).
Proof.
  intros Hf. split; [split|..]; try done.
  - intros d k Hk. cbn. destruct (decide (d = c)) as [->|Hne].
    + exists (f k). rewrite lookup_alter_eq, Hk. destruct (Hf k) as (? & ? & ? & _). auto.
    + exists k. rewrite lookup_alter_ne by done. auto.
  - intros d k' g. cbn. destruct (decide (d = c)) as [->|Hne].
    + rewrite lookup_alter_eq. intros (k & Hk & ->)%fmap_Some. exists k. split; [done|]. apply Hf.
    + rewrite lookup_alter_ne by done. eauto.
Qed.

Lemma closeSocket_quiet s c : quiet nothing s (closeSocket s c).
Proof. apply updateSocket_quiet. intros k. cbn. auto. Qed.

Lemma closeSocket_closed s c k : sockets (closeSocket s c) !! c = Some k → open k = false.
Proof. cbn. rewrite lookup_alter_eq. by intros (k0 & _ & ->)%fmap_Some. Qed.

Lemma alloc_close_quiet s al : quiet nothing s (alloc_close s al).
Proof. unfold alloc_close. destruct (allocs s !! al); [apply closeSocket_quiet|apply quiet_refl]. Qed.

Lemma writeMessage_quiet P s c m ok :
  (∀ f, m = Frame f → P c f) → quiet P s (writeMessage s c m ok).1.
Proof.
  intros HP. unfold writeMessage. destruct (sockets s !! c) as [k|]; [|apply quiet_refl].
  case_if as E; cbn; [|apply quiet_refl]. apply updateSocket_quiet. intros k'. cbn. split_and!; auto.
  intros g [?|Hx%list_elem_of_singleton]%elem_of_app; [by left|]. right. by apply HP.
Qed.

Lemma refuse_quiet s c e a : quiet nothing s (refuse s c e a).
Proof.
  eapply quiet_trans; [|apply closeSocket_quiet]. by apply writeMessage_quiet.
Qed.

Lemma readMessage_quiet s c m s' m' : readMessage s c m = (s', m') → quiet nothing s s'.
Proof.
  unfold readMessage. intros H. destruct (sockets s !! c) as [k|], m as [m|]; simplify_eq; try apply quiet_refl.
  destruct (_ && _) in H; simplify_eq; [|apply quiet_refl]. apply updateSocket_quiet. intros k'. cbn.
  split_and!; auto. intros x Hx. apply elem_of_app. by left.
Qed.

(** What was read is in the log. *)
Lemma readMessage_heard s c m s' x :
  readMessage s c m = (s', Some x) → ∃ k, sockets s' !! c = Some k ∧ x ∈ heard k.
Proof.
  unfold readMessage. intros H. destruct (sockets s !! c) as [k|] eqn:Hk, m as [m|]; simplify_eq.
  destruct (_ && _) in H; simplify_eq. cbn. rewrite lookup_alter_eq, Hk. eexists. split; [done|].
  cbn. apply elem_of_app. right. by apply list_elem_of_singleton.
Qed.

(** What a goroutine becomes: a handler keeps its connection and allocation, or ends
    with its connection closed before it has an allocation; a call of [Close] goes on
    until its allocations are closed. *)
Definition follows (s' : Server) (t : thread) (t' : option thread) : Prop :=
  match t with
  | TServe c st =>
      match t' with
      | Some u => ∃ st', u = TServe c st' ∧ allocOf st' = allocOf st
      | None => allocOf st = None ∧ ∀ k, sockets s' !! c = Some k → open k = false
      end
  | TClose rest =>
      (∀ u, t' = Some u → ∃ rest', u = TClose rest') ∧
      ∀ al a k, al ∈ rest → allocs s' !! al = Some a → sockets s' !! conn a = Some k → open k = true →
        now t' (closes al)
  end.

Lemma quiet_live P s s' al c : quiet P s s' → live s al c → live s' al c.
Proof. intros [_ A1 A2 A3 _ _] (a & H1 & H2 & H3 & H4). exists a. by rewrite A1, A2, A3. Qed.

Lemma quiet_thread P s s' t : quiet P s s' → thread_ok s t → thread_ok s' t.
Proof.
  intros Hq Ht. eapply thread_ok_grows; [apply Hq|done|by intros; eapply quiet_live|].
  intros c al a _ Ha _. by rewrite <- (qu_allocs _ _ _ Hq).
Qed.

Lemma quiet_open P s s' c k' :
  quiet P s s' → sockets s' !! c = Some k' → open k' = true → ∃ k, sockets s !! c = Some k ∧ open k = true.
Proof.
  intros Hq Hk' Ho. destruct (qu_told _ _ _ Hq _ _ [] Hk') as (k & Hk & _). exists k. split; [done|].
  destruct (gr_sockets _ _ (qu_grows _ _ _ Hq) _ _ Hk) as (k'' & Hk'' & _ & _ & Hc).
  destruct (open k); [done|]. specialize (Hc eq_refl). congruence.
Qed.

(** Ownership of connections stays unique when a goroutine keeps its own. *)
Lemma distinct_after m i t t' :
  (∀ i j c st st', m !! i = Some (TServe c st) → m !! j = Some (TServe c st') → i = j) →
  m !! i = Some t → (∀ c st', t' = Some (TServe c st') → serves c t) →
  ∀ j j' c st st', after m i t' [] !! j = Some (TServe c st) → after m i t' [] !! j' = Some (TServe c st') → j = j'.
Proof.
  intros HD Hi Hs j j' c st st' Hj Hj'.
  assert (Ho : ∀ j st, after m i t' [] !! j = Some (TServe c st) → ∃ st0, m !! j = Some (TServe c st0)).
  { intros x sx [[_ Hx]|[[-> Hx]|[_ []%not_elem_of_nil]]]%after_inv; [eauto|].
    destruct (Hs _ _ Hx) as [st0 ->]. eauto. }
  destruct (Ho _ _ Hj) as [s1 H1], (Ho _ _ Hj') as [s2 H2]. by eapply HD.
Qed.

(** The three kinds of goroutine an invariant looks for survive a step of [follows]. *)
Lemma follows_serves s' m i t t' c k :
  m !! i = Some t → follows s' t t' → some_thread m (serves c) →
  sockets s' !! c = Some k → open k = true → some_thread (after m i t' []) (serves c).
Proof.
  intros Hi Hf HS Hk Ho. eapply after_other; [done..|]. intros [st ->]. destruct t' as [u|].
  - destruct Hf as (st' & -> & _). eexists. split; [done|]. by exists st'.
  - destruct Hf as [_ Hc]. specialize (Hc _ Hk). congruence.
Qed.

Lemma follows_holds s' m i t t' al :
  m !! i = Some t → follows s' t t' → some_thread m (holds al) → some_thread (after m i t' []) (holds al).
Proof.
  intros Hi Hf HS. eapply after_other; [done..|]. intros (c & st & -> & Hal). destruct t' as [u|].
  - destruct Hf as (st' & -> & He). eexists. split; [done|]. exists c, st'. split; [done|congruence].
  - destruct Hf as [Hn _]. congruence.
Qed.

Lemma follows_closes s' m i t t' al a k :
  m !! i = Some t → follows s' t t' → some_thread m (closes al) →
  allocs s' !! al = Some a → sockets s' !! conn a = Some k → open k = true →
  some_thread (after m i t' []) (closes al).
Proof.
  intros Hi Hf HS Ha Hk Ho. eapply after_other; [done..|]. intros (rest & -> & Hal). by eapply Hf.
Qed.

Definition routable (s : Server) (c : nat) (f : list byte) : Prop :=
  ∃ al target t, routed s al target f ∧ allocs s !! target = Some t ∧ conn t = c.

Lemma quiet_inv s m s' i t t' :
  inv s m → m !! i = Some t → quiet (routable s) s s' → (∀ u, t' = Some u → thread_ok s' u) → follows s' t t' →
  inv s' (after m i t' []).
Proof.
  intros [I1 I2 I3 I4 I5 I6 I7 I8 I9] Hi Hq Ht' Hf. pose proof (qu_grows _ _ _ Hq) as Hg.
  pose proof (qu_allocs _ _ _ Hq) as EA. split.
  - intros j u [[_ Hj]|[[_ Hj]|[_ []%not_elem_of_nil]]]%after_inv; [|by apply Ht'].
    eapply quiet_thread; [done|]. by eapply I1.
  - eapply distinct_after; [exact I2|exact Hi|]. intros c st' ->. destruct t as [c' st|rest].
    + destruct Hf as (st0 & [= -> _] & _). by exists st.
    + destruct (proj1 Hf _ eq_refl) as [? ?]. done.
  - intros c k Hk Ho. destruct (quiet_open _ _ _ _ _ Hq Hk Ho) as (k0 & Hk0 & Ho0).
    eapply follows_serves; eauto.
  - intros key al. rewrite (qu_endpoints _ _ _ Hq), EA. intros [Ha Hh]%I4. split; [done|]. by eapply follows_holds.
  - intros id al. rewrite (qu_ids _ _ _ Hq). intros Hh%I5. by eapply follows_holds.
  - intros al a. rewrite EA. intros Ha%I6. by eapply alloc_ok_grows.
  - intros al al' a a'. rewrite EA. apply I7.
  - intros c k f Hk Hin. destruct (qu_told _ _ _ Hq _ _ f Hk) as (k0 & Hk0 & Hold).
    assert (Hr : routable s c f) by (destruct (Hold Hin) as [Hin'|Hr]; [by eapply I8|done]).
    destruct Hr as (al & target & u & Hr & Hu & Hc). exists al, target, u. rewrite EA.
    split; [by eapply routed_grows|done].
  - rewrite (qu_closed _ _ _ Hq). intros Hc al a k Ha Hk Ho. destruct (quiet_open _ _ _ _ _ Hq Hk Ho) as (k0 & Hk0 & Ho0).
    eapply follows_closes; try done. eapply I9; try done. by rewrite <- EA.
Qed.

Lemma quiet_weaken (P : nat → list byte → Prop) s s' : quiet nothing s s' → quiet P s s'.
Proof.
  intros [A1 A2 A3 A4 A5 A6]. split; try done. intros c k f Hk. destruct (A6 _ _ f Hk) as (k0 & Hk0 & Hf).
  exists k0. split; [done|]. intros [?|[]]%Hf. by left.
Qed.

(** ** Entering and leaving the tables *)

Lemma thread_live s c st al : thread_ok s (TServe c st) → allocOf st = Some al → live s al c.
Proof. intros (k & _ & H) Hal. destruct st; cbn in *; simplify_eq; first [apply H | done]. Qed.

(** What [addAllocation] checked and did. *)
Lemma addAllocation_inv s p r c s' al :
  addAllocation s p r c = (s', Ok al) →
  let a := mkAllocation p (reqSession r) (mkUDPAddr (RelayAddress (config s)) (RelayPort (config s)))
             (reqSourceID r) (reqTargetID r) c in
  closed s = false ∧ allocs s !! al = None ∧ allocations s !! reqID r = None ∧ byEndpoint s !! keyOf a = None ∧
  s' = s <| allocs ::= <[al := a]> |> <| allocations ::= <[reqID r := al]> |> <| byEndpoint ::= <[keyOf a := al]> |>.
Proof.
  intros H a. unfold addAllocation in H. destruct (closed s); [done|].
  destruct (bool_decide _) eqn:E1 in H; [done|]. destruct (_ || _) in H; [done|].
  destruct (bool_decide _) eqn:E2 in H; [done|]. apply bool_decide_eq_false in E1, E2. simplify_eq.
  split_and!; [done| |by apply eq_None_not_Some..|done]. apply not_elem_of_dom, is_fresh.
Qed.

Lemma add_inv s m i c r k s' al :
  inv s m → m !! i = Some (TServe c (AtAdd r)) → sockets s !! c = Some k →
  addAllocation s (urlPath k) r c = (s', Ok al) →
  inv s' (after m i (Some (TServe c (AtRespond al (reqNetwork r)))) []).
Proof.
  intros [I1 I2 I3 I4 I5 I6 I7 I8 I9] Hi Hk (Hc & Hal & Hid & Hkey & ->)%addAllocation_inv.
  set (a := mkAllocation _ _ _ _ _ _) in *. set (s' := s <| allocs ::= _ |> <| allocations ::= _ |> <| byEndpoint ::= _ |>).
  destruct (I1 _ _ Hi) as (k0 & Hk0 & Hr & Hno). assert (k0 = k) as -> by congruence.
  assert (Hg : grows s s').
  { split; [done| |by eauto]. intros al0 a0 H0. cbn. rewrite lookup_insert_ne; [done|congruence]. }
  assert (Hlive : ∀ al0 c0, live s al0 c0 → live s' al0 c0).
  { intros al0 c0 (a0 & H1 & H2 & H3 & id & H4). exists a0. split_and!; [by apply Hg|done|..].
    - cbn. rewrite lookup_insert_ne; [done|congruence].
    - exists id. cbn. rewrite lookup_insert_ne; [done|congruence]. }
  assert (Hmore : ∀ P, ¬ P (TServe c (AtAdd r)) → some_thread m P →
    some_thread (after m i (Some (TServe c (AtRespond al (reqNetwork r)))) []) P).
  { intros P HP HS. eapply after_other; [done..|]. intros HP'. by destruct HP. }
  assert (Hself : ∀ P : thread → Prop, P (TServe c (AtRespond al (reqNetwork r))) →
    some_thread (after m i (Some (TServe c (AtRespond al (reqNetwork r)))) []) P).
  { intros P HP. apply after_now. by eexists. }
  assert (Hn : ∀ al0, ¬ holds al0 (TServe c (AtAdd r))) by (intros al0 (c0 & st0 & He & Hs); by simplify_eq).
  split.
  - intros j u [[Hne Hj]|[[-> Hj]|[_ []%not_elem_of_nil]]]%after_inv.
    + eapply thread_ok_grows; [done|by eapply I1|auto|]. intros c0 al0 a0 [st ->] Ha0 Hc0. cbn in Ha0.
      apply lookup_insert_Some in Ha0 as [[<- <-]|[_ ?]]; [|done]. cbn in Hc0. subst c0. by destruct Hne; eapply I2.
    + injection Hj as <-. exists k. split; [done|]. exists a. cbn. rewrite !lookup_insert_eq.
      split_and!; try done. exists (reqID r). by rewrite lookup_insert_eq.
  - eapply distinct_after; [exact I2|exact Hi|]. intros c0 st' [= <- <-]. by eexists.
  - intros c0 k0 Hk' Ho. destruct (decide (c0 = c)) as [->|Hne]; [apply Hself; by eexists|].
    apply Hmore; [by intros [? [= ? ?]]|by eapply I3].
  - intros key al0 H0. cbn in H0 |- *. apply lookup_insert_Some in H0 as [[<- <-]|[_ H0]].
    + split; [|by apply Hself; exists c, (AtRespond al (reqNetwork r))]. exists a. by rewrite lookup_insert_eq.
    + apply I4 in H0 as [(a0 & H1 & H2) Hh]. split; [|by apply Hmore]. exists a0. split; [by apply Hg|done].
  - intros id al0 H0. cbn in H0. apply lookup_insert_Some in H0 as [[<- <-]|[_ H0]].
    + apply Hself. by exists c, (AtRespond al (reqNetwork r)).
    + apply Hmore; [done|by eapply I5].
  - intros al0 a0 H0. cbn in H0. apply lookup_insert_Some in H0 as [[<- <-]|[_ H0]].
    + split; [done|]. by exists k, r.
    + eapply alloc_ok_grows; [done|by eapply I6].
  - intros al1 al2 a1 a2 H1 H2. cbn in H1, H2. apply lookup_insert_Some in H1 as [[<- <-]|[_ H1]], H2 as [[<- <-]|[_ H2]].
    + done.
    + intros He. by destruct (Hno _ _ H2).
    + intros He. by destruct (Hno _ _ H1).
    + by eapply I7.
  - intros c0 k0 f Hk' Hf. destruct (I8 _ _ _ Hk' Hf) as (al1 & al2 & t & H1 & H2 & H3). exists al1, al2, t.
    split_and!; [by eapply routed_grows|by apply Hg|done].
  - cbn. congruence.
Qed.

Lemma remove_inv s m i c al :
  inv s m → m !! i = Some (TServe c (AtRemove al)) → inv (removeAllocation s al) (after m i None []).
Proof.
  intros [I1 I2 I3 I4 I5 I6 I7 I8 I9] Hi. destruct (I1 _ _ Hi) as (k & Hk & (a & Ha & Hca & Hka & id & Hid) & Hclosed).
  unfold removeAllocation. rewrite Ha. set (s' := s <| allocations ::= _ |> <| byEndpoint ::= _ |>).
  assert (Hg : grows s s') by (split; [done|by auto|by eauto]).
  assert (Hown : ∀ j c0 st, m !! j = Some (TServe c0 st) → allocOf st = Some al → j = i).
  { intros j c0 st Hj Hst. pose proof (thread_live _ _ _ _ (I1 _ _ Hj) Hst) as (a' & Ha' & Hc' & _).
    assert (c0 = c) as -> by congruence. by eapply I2. }
  assert (Hholds : ∀ al0, al0 ≠ al → some_thread m (holds al0) → some_thread (after m i None []) (holds al0)).
  { intros al0 Hne HS. eapply after_other; [done..|]. intros (? & ? & ? & ?). by simplify_eq/=. }
  split.
  - intros j u [[Hne Hj]|[[_ Hj]|[_ []%not_elem_of_nil]]]%after_inv; [|done].
    eapply thread_ok_grows; [done|by eapply I1| |done].
    intros al0 c0 (c1 & st & -> & Hal0) (a0 & Ha0 & Hc0 & Hk0 & id0 & Hid0).
    assert (al0 ≠ al) as Hna by (intros ->; by destruct Hne; eapply Hown).
    exists a0. split_and!; [done|done|..].
    + cbn. change (delete (keyOf a) (byEndpoint s) !! keyOf a0 = Some al0). rewrite lookup_delete_ne; [done|congruence].
    + exists id0. cbn. by apply map_lookup_filter_Some.
  - eapply distinct_after; [exact I2|exact Hi|done].
  - intros c0 k0 Hk0 Ho. eapply after_other; [done|by eapply I3|]. intros [st [= <- <-]].
    assert (k0 = k) as -> by (cbn in Hk0; congruence). congruence.
  - intros key al0 H0. cbn in H0. apply lookup_delete_Some in H0 as [Hne H0].
    destruct (I4 _ _ H0) as [(a0 & Ha0 & Hkey) HS]. split; [by exists a0|]. apply Hholds; [|done].
    intros ->. apply Hne. rewrite Hkey. unfold keyOf. congruence.
  - intros id0 al0 H0. cbn in H0. apply map_lookup_filter_Some in H0 as [H0 Hne]. apply Hholds; [done|by eapply I5].
  - intros al0 a0 H0. eapply alloc_ok_grows; [done|by eapply I6].
  - apply I7.
  - intros c0 k0 f Hk0 Hf. destruct (I8 _ _ _ Hk0 Hf) as (al1 & al2 & t & H1 & H2 & H3). exists al1, al2, t.
    split_and!; [by eapply routed_grows|done..].
  - intros Hc al0 a0 k0 Ha0 Hk0 Ho. eapply after_other; [done|by eapply I9|]. intros (? & ? & ?). simplify_eq.
Qed.

(** ** Every step *)

Lemma handshake_inv s m i c a s' t' :
  inv s m → m !! i = Some (TServe c AtHandshake) → handshakeStep s c a = (s', t') → inv s' (after m i t' []).
Proof.
  intros HI Hi H. destruct (iv_threads _ _ HI _ _ Hi) as (k & Hk & Hno).
  unfold handshakeStep in H. destruct (readMessage s c (a_read a)) as [s1 m1] eqn:Hr.
  pose proof (readMessage_quiet _ _ _ _ _ Hr) as Hq.
  assert (Hend : ∀ s2, quiet nothing s1 s2 → (∀ k, sockets s2 !! c = Some k → open k = false) →
            inv s2 (after m i None [])).
  { intros s2 Hq2 Hc. eapply quiet_inv; [done..| |done|done].
    apply quiet_weaken. by eapply quiet_trans. }
  assert (Hclose : inv (closeSocket s1 c) (after m i None [])).
  { apply Hend; [apply closeSocket_quiet|apply closeSocket_closed]. }
  assert (Hrefuse : ∀ e, inv (refuse s1 c e a) (after m i None [])).
  { intros e. apply Hend; [apply refuse_quiet|apply closeSocket_closed]. }
  destruct m1 as [[[r|]|]|]; try (by simplify_eq).
  destruct (negb _) in H; [by simplify_eq|]. destruct (_ || _) in H; [by simplify_eq|].
  destruct (a_authorize a); simplify_eq; [done|].
  eapply quiet_inv; [done..|by apply quiet_weaken| |by exists (AtAdd r)].
  intros u [= <-]. destruct (readMessage_heard _ _ _ _ _ Hr) as (k' & Hk' & Hin). exists k'. split; [done|].
  split; [done|]. by rewrite (qu_allocs _ _ _ Hq).
Qed.

Lemma forwardTo_routed s al a p target f :
  (∀ key al, byEndpoint s !! key = Some al → ∃ a, allocs s !! al = Some a ∧ key = keyOf a) →
  allocs s !! al = Some a → offered s al p → forwardTo s a p = Some (target, f) → routed s al target f.
Proof.
  intros HT Ha Ho H. unfold forwardTo in H. destruct (byEndpoint s !! _) as [x|] eqn:Hx in H; [|done].
  cbn -[encodeFrame] in H. destruct (allocs s !! x) as [t|] eqn:Ht; [|done]. cbn -[encodeFrame] in H.
  destruct (bool_decide _) eqn:E in H; [|done]. apply bool_decide_eq_true in E.
  destruct (encodeFrame _ _) as [g|] eqn:Hf in H; [|done]. simplify_eq.
  destruct (HT _ _ Hx) as (t' & Ht' & Hk). exists a, t, p. split_and!; try done. congruence.
Qed.

Lemma serve_inv s m i c st a s' t' :
  inv s m → m !! i = Some (TServe c st) → serveStep s c st a = (s', t') → inv s' (after m i t' []).
Proof.
  intros HI Hi H. pose proof (iv_threads _ _ HI _ _ Hi) as Hok. destruct Hok as (k & Hk & Hst).
  assert (Hgo : ∀ s2 st2, quiet (routable s) s s2 → thread_ok s2 (TServe c st2) → allocOf st2 = allocOf st →
            inv s2 (after m i (Some (TServe c st2)) [])).
  { intros s2 st2 Hq Ht He. eapply quiet_inv; [done..|by intros u [= <-]|by exists st2]. }
  assert (Hstay : ∀ s2 st2 al, quiet (routable s) s s2 → allocOf st = Some al → st2 = AtRead al ∨ st2 = AtClose al →
            inv s2 (after m i (Some (TServe c st2)) [])).
  { intros s2 st2 al Hq Hal Hs2. apply Hgo; [done| |by destruct Hs2; subst].
    destruct (gr_sockets _ _ (qu_grows _ _ _ Hq) _ _ Hk) as (k2 & Hk2 & _). exists k2. split; [done|].
    pose proof (quiet_live _ _ _ _ _ Hq (thread_live _ _ _ _ (iv_threads _ _ HI _ _ Hi) Hal)). by destruct Hs2; subst. }
  destruct st as [|r|al net|al|al p|al target f|al|al]; cbn [serveStep] in H.
  - by eapply handshake_inv.
  - rewrite Hk in H. destruct (addAllocation s (urlPath k) r c) as [s1 [al|e]] eqn:Hadd; simplify_eq.
    + by eapply add_inv.
    + assert (s1 = s) as ->.
      { unfold addAllocation in Hadd. destruct (closed s); [by simplify_eq|]. repeat case_match; by simplify_eq. }
      eapply quiet_inv; [done..|apply quiet_weaken, refuse_quiet|done|]. split; [done|apply closeSocket_closed].
  - destruct Hst as (al0 & Hal & _). rewrite Hal in H. destruct (writeMessage s c _ (a_wrote a)) as [s1 ok] eqn:Hw.
    assert (s1 = (writeMessage s c (Response (mkResponse "allocated" (addrIP (addr al0)) (addrPort (addr al0)) net
      EmptyString)) (a_wrote a)).1) as -> by (by rewrite Hw).
    simplify_eq. eapply Hstay; [by apply writeMessage_quiet|done|destruct ok; auto].
  - destruct (readMessage s c (a_read a)) as [s1 m1] eqn:Hr.
    pose proof (quiet_weaken (routable s) _ _ (readMessage_quiet _ _ _ _ _ Hr)) as Hq.
    destruct m1 as [[r|g]|]; simplify_eq; try (eapply Hstay; [done|done|by auto]).
    destruct (decodeFrame g) as [[dst p]|] eqn:Hd; simplify_eq; [|eapply Hstay; [done|done|by auto]].
    case_if as E; [|eapply Hstay; [done|done|by auto]].
    apply Hgo; [done| |done]. destruct (readMessage_heard _ _ _ _ _ Hr) as (k1 & Hk1 & Hin). exists k1. split; [done|].
    pose proof (quiet_live _ _ _ _ _ Hq Hst) as (a1 & Ha1 & Hc1 & Hrest). split; [by exists a1|].
    exists a1, k1, g, dst. subst c. by split_and!.
  - destruct Hst as [Hlive Hoff]. pose proof Hlive as (a1 & Ha1 & _). rewrite Ha1 in H. cbn in H.
    destruct (forwardTo s a1 p) as [[target f]|] eqn:Hf; simplify_eq; [|eapply Hstay; [apply quiet_refl|done|by auto]].
    apply Hgo; [apply quiet_refl| |done]. exists k. split; [done|]. split; [done|].
    eapply forwardTo_routed; [|done..]. intros key al' Hkey. by apply (iv_endpoints _ _ HI).
  - destruct Hst as [Hlive Hrt]. pose proof Hrt as (a1 & t & p & _ & Ht & _). rewrite Ht in H. simplify_eq.
    eapply Hstay; [|done|by auto]. apply writeMessage_quiet. intros g [= <-]. by exists al, target, t.
  - simplify_eq. apply Hgo; [apply quiet_weaken, alloc_close_quiet| |done]. pose proof Hst as (a1 & Ha1 & Hc1 & _).
    unfold alloc_close. rewrite Ha1, Hc1. eexists. split; [cbn; by rewrite lookup_alter_eq, Hk|]. split; [|done].
    eapply quiet_live; [apply closeSocket_quiet|done].
  - simplify_eq. by eapply remove_inv.
Qed.

Lemma close_inv s m i rest s' t' :
  inv s m → m !! i = Some (TClose rest) → closeStep s rest = (s', t') → inv s' (after m i t' []).
Proof.
  intros HI Hi H. destruct rest as [|al rest]; cbn in H; simplify_eq.
  - eapply quiet_inv; [done..|apply quiet_refl|done|]. split; [done|]. by intros al a k []%not_elem_of_nil.
  - eapply quiet_inv; [done..|apply quiet_weaken, alloc_close_quiet|by intros u [= <-]|].
    split; [intros u [= <-]; by exists rest|]. intros al' a k [->|Hin]%elem_of_cons Ha Hk Ho.
    + rewrite (qu_allocs _ _ _ (alloc_close_quiet s al)) in Ha. unfold alloc_close in Hk. rewrite Ha in Hk.
      apply closeSocket_closed in Hk. congruence.
    + eexists. split; [done|]. by exists rest.
Qed.

Lemma serve_new_inv s m p :
  inv s m →
  let c := fresh (dom (sockets s)) in
  inv (s <| sockets ::= <[c := mkSocket p true [] []]> |>) (spawn m (TServe c AtHandshake)).
Proof.
  intros [I1 I2 I3 I4 I5 I6 I7 I8 I9] c. set (s' := s <| sockets ::= _ |>).
  assert (Hf : sockets s !! c = None) by apply not_elem_of_dom, is_fresh.
  assert (Hold : ∀ d k, sockets s !! d = Some k → sockets s' !! d = Some k).
  { intros d k Hd. cbn. rewrite lookup_insert_ne; [done|congruence]. }
  assert (Hg : grows s s') by (split; [done|by auto|intros d k Hd; exists k; auto]).
  assert (Hnew : ∀ j st, m !! j ≠ Some (TServe c st)).
  { intros j st Hj. destruct (I1 _ _ Hj) as (k & Hk & _). congruence. }
  split.
  - intros j u [[-> ->]|Hj]%spawn_lookup.
    + eexists. split; [cbn; by rewrite lookup_insert_eq|]. intros al a Ha Hc.
      destruct (I6 _ _ Ha) as (_ & k & r & Hk & _). congruence.
    + eapply thread_ok_grows; [done|by eapply I1|done|done].
  - intros j j' d st st' [[-> [= <- <-]]|Hj]%spawn_lookup [[-> H']|Hj']%spawn_lookup; simplify_eq; try done.
    + by destruct (Hnew j' st').
    + by destruct (Hnew j st).
    + by eapply I2.
  - intros d k Hd Ho. cbn in Hd. apply lookup_insert_Some in Hd as [[<- <-]|[_ Hd]].
    + exists (fresh (dom m)), (TServe c AtHandshake). split; [apply spawn_lookup; by left|by eexists].
    + by eapply spawn_some, I3.
  - intros key al [Ha HS]%I4. split; [done|by apply spawn_some].
  - intros id al HS%I5. by apply spawn_some.
  - intros al a Ha. eapply alloc_ok_grows; [done|by eapply I6].
  - apply I7.
  - intros d k f Hd Hin. cbn in Hd. apply lookup_insert_Some in Hd as [[<- <-]|[_ Hd]]; [by apply not_elem_of_nil in Hin|].
    destruct (I8 _ _ _ Hd Hin) as (al1 & al2 & t & H1 & H2). exists al1, al2, t. split; [by eapply routed_grows|done].
  - intros Hc al a k Ha Hk Ho. cbn in Hk. apply lookup_insert_Some in Hk as [[He <-]|[_ Hk]]; [|by eapply spawn_some, I9].
    destruct (I6 _ _ Ha) as (_ & k' & r & Hk' & _). congruence.
Qed.

(** An allocation whose connection is open is in the table of identifiers. *)
Lemma open_listed s m al a k :
  inv s m → allocs s !! al = Some a → sockets s !! conn a = Some k → open k = true →
  ∃ id, allocations s !! id = Some al.
Proof.
  intros HI Ha Hk Ho. destruct (iv_open _ _ HI _ _ Hk Ho) as (i & ? & Hi & st & ->).
  pose proof (iv_threads _ _ HI _ _ Hi) as Ht. destruct (allocOf st) as [al'|] eqn:Hst.
  - destruct (thread_live _ _ _ _ Ht Hst) as (a' & Ha' & Hc & _ & id & Hid). exists id.
    by rewrite (iv_conns _ _ HI _ _ _ _ Ha Ha' (eq_sym Hc)).
  - destruct Ht as (k' & _ & Ht). destruct st; try done.
    + by destruct (Ht _ _ Ha).
    + destruct Ht as [_ Ht]. by destruct (Ht _ _ Ha).
Qed.

Lemma close_new_inv s m :
  inv s m → inv (s <| closed := true |>) (spawn m (TClose (map_to_list (allocations s)).*2)).
Proof.
  intros HI. pose proof HI as [I1 I2 I3 I4 I5 I6 I7 I8 I9]. set (s' := s <| closed := true |>).
  assert (Hg : grows s s') by (split; [done|by auto|by eauto]). split.
  - intros j u [[-> ->]|Hj]%spawn_lookup; [done|]. eapply thread_ok_grows; [done|by eapply I1|done|done].
  - intros j j' d st st' [[-> [=]]|Hj]%spawn_lookup [[-> [=]]|Hj']%spawn_lookup. by eapply I2.
  - intros d k Hd Ho. by eapply spawn_some, I3.
  - intros key al [Ha HS]%I4. split; [done|by apply spawn_some].
  - intros id al HS%I5. by apply spawn_some.
  - intros al a Ha. eapply alloc_ok_grows; [done|by eapply I6].
  - apply I7.
  - intros d k f Hd Hin. destruct (I8 _ _ _ Hd Hin) as (al1 & al2 & t & H1 & H2). exists al1, al2, t.
    split; [by eapply routed_grows|done].
  - intros _ al a k Ha Hk Ho. destruct (open_listed _ _ _ _ _ HI Ha Hk Ho) as [id Hid].
    eexists _, _. split; [apply spawn_lookup; by left|]. eexists. split; [done|].
    apply list_elem_of_fmap. exists (id, al). split; [done|]. by apply elem_of_map_to_list.
Qed.

Lemma relay_exec_inv w o : inv (server w) (threads w) → inv (server (exec w o)) (threads (exec w o)).
Proof.
  intros HI. destruct o as [p| |i a]; cbn.
  - by apply serve_new_inv.
  - case_if as E; [done|]. by apply close_new_inv.
  - destruct (threads w !! i) as [[c st|rest]|] eqn:Hi; [..|done]; cbn;
      destruct (_ : Server * option thread) as [s' t'] eqn:Hs.
    + by eapply serve_inv.
    + by eapply close_inv.
Qed.

Lemma relay_run_inv w os : inv (server w) (threads w) → inv (server (run w os)) (threads (run w os)).
Proof.
  unfold run. revert w. induction os as [|o os IH]; intros w HI; [done|]. cbn. by apply IH, relay_exec_inv.
Qed.

(** ** The server from its start *)

Lemma relay_server_ok cfg s0 :
  NewServer cfg = Ok s0 →
  inv s0 ∅ ∧ RelayAddress (config s0) = RelayAddress cfg ∧ RelayPort (config s0) = RelayPort cfg ∧
  RelayPort cfg ≠ 0 ∧ is_Some (To16 (RelayAddress cfg)).
Proof.
  unfold NewServer. destruct (To16 (RelayAddress cfg)) as [ip|]; [|done].
  intros [Hp%guard_ok H]%bind_ok_unit. b2p. injection H as <-. split_and!; [split; cbn; intros; simplify_map_eq|..];
    try done; by destruct (HandshakeTimeout _ <=? 0), (PingInterval _ <=? 0), (MaxMessageSize _ <=? 0).
Qed.

Lemma relay_exec_config w o : config (server (exec w o)) = config (server w).
Proof.
  destruct o as [p| |i a]; cbn; [done|by destruct (closed (server w))|]. destruct (threads w !! i) as [t|]; [|done].
  assert (HQ : ∀ P s s', quiet P s s' → config s' = config s) by (intros P s s' Hq; apply Hq).
  assert (HW : ∀ s c m ok, config (writeMessage s c m ok).1 = config s).
  { intros. eapply HQ, (writeMessage_quiet (λ _ _, True)). done. }
  assert (HR : ∀ s c m s' m', readMessage s c m = (s', m') → config s' = config s) by eauto using readMessage_quiet.
  assert (HE : ∀ s c e a, config (refuse s c e a) = config s) by (intros; eapply HQ, refuse_quiet).
  destruct (threadStep _ t a) as [s' t'] eqn:H. cbn. destruct t as [c st|[|al rest]]; cbn in H; simplify_eq; try done.
  - destruct st as [|r|al net|al|al p|al target f|al|al]; cbn in H.
    + unfold handshakeStep in H. destruct (readMessage _ _ _) as [s1 m1] eqn:Hr. apply HR in Hr. rewrite <- Hr.
      repeat case_match; simplify_eq; rewrite ?HE; done.
    + destruct (sockets _ !! c); simplify_eq; [|done]. destruct (addAllocation _ _ _ _) as [s1 res] eqn:Hadd.
      assert (Hc : config s1 = config (server w)).
      { unfold addAllocation in Hadd. destruct (closed (server w)); [by simplify_eq|]. repeat case_match; by simplify_eq. }
      rewrite <- Hc. destruct res; simplify_eq; rewrite ?HE; done.
    + destruct (allocs _ !! al); simplify_eq; [|done]. destruct (writeMessage _ _ _ _) as [s1 ok] eqn:Hw.
      simplify_eq. apply (f_equal fst) in Hw. cbn in Hw. by rewrite <- Hw.
    + destruct (readMessage _ _ _) as [s1 m1] eqn:Hr. apply HR in Hr. rewrite <- Hr. repeat case_match; by simplify_eq.
    + repeat case_match; by simplify_eq.
    + destruct (allocs _ !! target); simplify_eq; [apply HW|done].
    + simplify_eq. eapply HQ, alloc_close_quiet.
    + simplify_eq. unfold removeAllocation. by destruct (allocs _ !! al).
  - eapply HQ, alloc_close_quiet.
Qed.

Lemma relay_run_config w os : config (server (run w os)) = config (server w).
Proof.
  unfold run. revert w. induction os as [|o os IH]; intros w; [done|]. cbn. by rewrite IH, relay_exec_config.
Qed.

(** The names of an endpoint have no NUL. *)
Definition plainEndpoint (path session endpointID : string) : Prop :=
  plain path ∧ plain session ∧ plain endpointID.

(** C28: the relay mixes no conversations.  Whatever clients send and however the
    handlers interleave, every frame the relay has written to a connection carries
    the unchanged payload of a packet that was read from a connection and named the
    relay as its destination, and names the relay as its source; both connections had
    asked for an allocation, the allocation of the receiver names the identifier of
    the sender as its peer, and, unless NUL characters occur in the names of both, the
    allocation of the sender names that of the receiver, in the same session of the
    same path. *)
Theorem relay_isolated (cfg : ServerConfig) (s0 : Server) (os : list op) (d : nat) (k : socket) (f : list byte) :
  NewServer cfg = Ok s0 →
  let s := server (run (start s0) os) in
  sockets s !! d = Some k → Frame f ∈ told k →
  ∃ al target a t ka g dst src payload,
    allocs s !! al = Some a ∧ alloc_ok s a ∧ allocs s !! target = Some t ∧ alloc_ok s t ∧ conn t = d ∧
    sockets s !! conn a = Some ka ∧ Packet g ∈ heard ka ∧
    decodeFrame g = Ok (dst, payload) ∧ decodeFrame f = Ok (src, payload) ∧
    IPEqual (addrIP dst) (RelayAddress cfg) = true ∧ addrPort dst = RelayPort cfg ∧
    IPEqual (addrIP src) (RelayAddress cfg) = true ∧ addrPort src = RelayPort cfg ∧
    targetID t = sourceID a ∧
    (plainEndpoint (path t) (session t) (sourceID t) ∨ plainEndpoint (path a) (session a) (targetID a) →
     path a = path t ∧ session a = session t ∧ targetID a = sourceID t).
Proof.
  intros (HI & EA & EP & _)%relay_server_ok s Hk Hf.
  pose proof (relay_run_inv (start s0) os HI) as HR. fold s in HR.
  assert (EC : config s = config s0) by apply (relay_run_config (start s0) os).
  destruct (iv_told _ _ HR _ _ _ Hk Hf) as (al & target & t & (a & t' & p & Ha & Ht' & Ho & Hkey & Hid & He) & Ht & Hc).
  assert (t' = t) as -> by congruence. destruct Ho as (a' & ka & g & dst & Ha' & Hka & Hg & Hdec & Hfor).
  assert (a' = a) as -> by congruence. destruct (frame_encode_decode _ _ _ He) as (ip & Hip & Hdf & _).
  pose proof (iv_allocs _ _ HR _ _ Ha) as Hoa. pose proof (proj1 Hoa) as Hra.
  unfold forRelay in Hfor. rewrite EC, EA, EP in Hfor. rewrite EC, EA, EP in Hra. b2p.
  exists al, target, a, t, ka, g, dst, (mkUDPAddr ip (addrPort (addr a))), p.
  pose proof (iv_allocs _ _ HR _ _ Ht) as Hot. rewrite Hra in Hip, Hdf |- *. cbn in Hip, Hdf |- *.
  split_and!; try done; [by apply To16_equal|].
  unfold keyOf in Hkey. intros [(H1 & H2 & H3)|(H1 & H2 & H3)].
  - destruct (endpointKey_inj _ _ _ _ _ _ H1 H2 H3 Hkey) as (-> & -> & ->). done.
  - by apply (endpointKey_inj _ _ _ _ _ _ H1 H2 H3).
Qed.

(** C30: the tables follow the handlers.  In every state the relay can reach, the
    allocation of a handler that has one is in both tables until the handler removes
    it, every entry of a table is held by a handler, and different handlers hold
    different endpoints; every open connection has its handler.  So when no handler
    is left the tables are empty and all connections closed; and after [Close] has
    returned the connections of all allocations are closed. *)
Theorem relay_tables (cfg : ServerConfig) (s0 : Server) (os : list op) :
  NewServer cfg = Ok s0 →
  let w := run (start s0) os in
  let s := server w in
  (∀ i c st al, threads w !! i = Some (TServe c st) → allocOf st = Some al → live s al c) ∧
  (∀ key al, byEndpoint s !! key = Some al → some_thread (threads w) (holds al)) ∧
  (∀ id al, allocations s !! id = Some al → some_thread (threads w) (holds al)) ∧
  (∀ i j c c' st st' al al' a a',
     threads w !! i = Some (TServe c st) → allocOf st = Some al → allocs s !! al = Some a →
     threads w !! j = Some (TServe c' st') → allocOf st' = Some al' → allocs s !! al' = Some a' →
     keyOf a = keyOf a' → i = j) ∧
  (∀ c k, sockets s !! c = Some k → open k = true → some_thread (threads w) (serves c)) ∧
  ((∀ i c st, threads w !! i ≠ Some (TServe c st)) →
   byEndpoint s = ∅ ∧ allocations s = ∅ ∧ ∀ c k, sockets s !! c = Some k → open k = false) ∧
  (closed s = true → (∀ i rest, threads w !! i ≠ Some (TClose rest)) →
   ∀ al a k, allocs s !! al = Some a → sockets s !! conn a = Some k → open k = false).
Proof.
  intros (HI & _)%relay_server_ok w s.
  assert (HR : inv s (threads w)) by apply (relay_run_inv (start s0) os HI).
  destruct HR as [I1 I2 I3 I4 I5 I6 I7 I8 I9].
  assert (HL : ∀ i c st al, threads w !! i = Some (TServe c st) → allocOf st = Some al → live s al c).
  { intros i c st al Hi. by apply thread_live, (I1 i). }
  split_and!; [done|apply I4|done| |done|..].
  - intros i j c c' st st' al al' a a' Hi Hal Ha Hj Hal' Ha' He.
    destruct (HL _ _ _ _ Hi Hal) as (b & Hb & Hc & Hk & _), (HL _ _ _ _ Hj Hal') as (b' & Hb' & Hc' & Hk' & _).
    simplify_eq. rewrite He in Hk. simplify_eq. by eapply I2.
  - intros Hno. split_and!.
    + apply map_empty. intros key. destruct (byEndpoint s !! key) as [al|] eqn:E; [|done].
      destruct (I4 _ _ E) as [_ (i & ? & Hi & c & st & -> & _)]. by destruct (Hno i c st).
    + apply map_empty. intros id. destruct (allocations s !! id) as [al|] eqn:E; [|done].
      destruct (I5 _ _ E) as (i & ? & Hi & c & st & -> & _). by destruct (Hno i c st).
    + intros c k Hk. apply not_true_iff_false. intros Ho. destruct (I3 _ _ Hk Ho) as (i & ? & Hi & st & ->).
      by destruct (Hno i c st).
  - intros Hc Hno al a k Ha Hk. apply not_true_iff_false. intros Ho.
    destruct (I9 Hc _ _ _ Ha Hk Ho) as (i & ? & Hi & rest & -> & _). by destruct (Hno i rest).
Qed.

(** ** Delivery *)

Lemma exec_step w i t a s' t' :
  threads w !! i = Some t → threadStep (server w) t a = (s', Some t') →
  exec w (OStep i a) = mkWorld s' (<[i := t']> (threads w)).
Proof. intros Hi Hs. cbn. by rewrite Hi, Hs. Qed.

Lemma To16_idem ip ip' : To16 ip = Some ip' → To16 ip' = Some ip'.
Proof. intros H%To16_length. unfold To16, len. by rewrite H. Qed.

(** A handler reads a packet for the relay. *)
Lemma step_read s c al k g dst payload a :
  sockets s !! c = Some k → open k = true → len g ≤ MaxMessageSize (config s) →
  decodeFrame g = Ok (dst, payload) → forRelay s dst = true → a_read a = Some (Packet g) →
  threadStep s (TServe c (AtRead al)) a =
    (updateSocket s c (λ k, k <| heard ::= (λ l, l ++ [Packet g]) |>), Some (TServe c (AtLookup al payload))).
Proof.
  intros Hk Ho Hl Hd Hf Ha. cbn. unfold readMessage. rewrite Ha, Hk, Ho.
  rewrite (proj2 (Z.leb_le _ _) Hl). cbn. rewrite Hd. unfold forRelay in *. cbn. by rewrite Hf.
Qed.

(** It finds the peer, and writes to its open connection. *)
Lemma step_lookup s c al a target t payload f x :
  allocs s !! al = Some a → byEndpoint s !! endpointKey (path a) (session a) (targetID a) = Some target →
  allocs s !! target = Some t → targetID t = sourceID a → encodeFrame (Some (addr a)) payload = Ok f →
  threadStep s (TServe c (AtLookup al payload)) x = (s, Some (TServe c (AtWrite al target f))).
Proof.
  intros Ha Ht Ht' Hid He. cbn. rewrite Ha. cbn -[encodeFrame]. unfold forwardTo. rewrite Ht. cbn -[encodeFrame].
  rewrite Ht'. cbn -[encodeFrame]. by rewrite bool_decide_true, He by done.
Qed.

Lemma step_write s c al target t f k x :
  allocs s !! target = Some t → sockets s !! conn t = Some k → open k = true → a_wrote x = true →
  threadStep s (TServe c (AtWrite al target f)) x =
    (updateSocket s (conn t) (λ k, k <| told ::= (λ l, l ++ [Frame f]) |>), Some (TServe c (AtRead al))).
Proof. intros Ht Hk Ho Hx. cbn. rewrite Ht. unfold writeMessage. by rewrite Hk, Ho, Hx. Qed.

(** C29: packets arrive.  The address a provider takes from the relay's answer to its
    request is one to which it can send: when the handler of its allocation waits for
    a packet, its peer is allocated, names it in return and is connected, then a
    packet of at most 65513 bytes that the endpoint writes to that address is, after
    three steps of the handler, the next message of the peer's connection, and the
    peer's [ReadFrom] with a large enough buffer returns exactly this packet, coming
    from the address of the relay. *)
Theorem relay_delivers (cfg : ServerConfig) (s0 : Server) (os : list op) (i c al target : nat)
    (a t : allocation) (k kt : socket) (p : Provider) (payload : list byte) :
  NewServer cfg = Ok s0 → 0 ≤ RelayPort cfg < 65536 →
  let w := run (start s0) os in
  let s := server w in
  threads w !! i = Some (TServe c (AtRead al)) → allocs s !! al = Some a →
  sockets s !! c = Some k → open k = true →
  byEndpoint s !! endpointKey (path a) (session a) (targetID a) = Some target →
  allocs s !! target = Some t → targetID t = sourceID a → sockets s !! conn t = Some kt → open kt = true →
  len payload ≤ maxRelayPacket → frameHeaderSize + len payload ≤ MaxMessageSize (config s) →
  ∃ relay packet frame src,
    allocateReceive p (Response (mkResponse "allocated" (addrIP (addr a)) (addrPort (addr a))
                                   (providerNetwork p) EmptyString)) = Ok relay ∧
    WriteTo payload (Some relay) = Ok packet ∧
    (let w' := run w [OStep i (mkAnswer (Some packet) true None); OStep i (mkAnswer None true None);
                      OStep i (mkAnswer None true None)] in
     threads w' !! i = Some (TServe c (AtRead al)) ∧
     ∃ kt', sockets (server w') !! conn t = Some kt' ∧ told kt' = told kt ++ [Frame frame]) ∧
    (∀ size rest, len payload ≤ size → ReadFrom (Frame frame :: rest) size = Some (rest, Ok (src, payload))) ∧
    IPEqual (addrIP src) (addrIP relay) = true ∧ addrPort src = addrPort relay.
Proof.
  intros (HI & EA & EP & Hz & [ip Hip])%relay_server_ok Hp w s Hi Ha Hk Ho Hb Ht Hid Hkt Hot Hl Hm.
  assert (HR : inv s (threads w)) by apply (relay_run_inv (start s0) os HI).
  assert (EC : config s = config s0) by apply (relay_run_config (start s0) os).
  pose proof (proj1 (iv_allocs _ _ HR _ _ Ha)) as Hra. rewrite EC, EA, EP in Hra.
  assert (Hia : To16 (addrIP (addr a)) = Some ip) by (by rewrite Hra).
  assert (Hpa : addrPort (addr a) = RelayPort cfg) by (by rewrite Hra).
  set (relay := mkUDPAddr ip (RelayPort cfg)).
  destruct (encode_ok relay payload ip) as [g Hg]; [by eapply To16_idem|done|done|].
  destruct (encode_ok (addr a) payload ip) as [f Hf]; [done|by rewrite Hpa|done|].
  destruct (frame_encode_decode _ _ _ Hg) as (ip' & Hip' & Hdg & Hlg).
  assert (ip' = ip) as -> by (pose proof (To16_idem _ _ Hip); cbn in Hip'; congruence).
  destruct (frame_encode_decode _ _ _ Hf) as (ip' & Hip'' & Hdf & _). assert (ip' = ip) as -> by congruence.
  exists relay, (Packet g), f, relay. rewrite Hpa in Hdf. split_and!; [|by (unfold WriteTo; rewrite Hg)| | | |done].
  - cbn. rewrite Hia, Hpa. rewrite (proj2 (Z.ltb_ge (RelayPort cfg) 1)), (proj2 (Z.ltb_ge 65535 _)) by lia. cbn.
    by rewrite (bool_decide_true (providerNetwork p = providerNetwork p)), andb_false_r.
  - assert (Hfor : forRelay s relay = true).
    { unfold forRelay. rewrite EC, EA, EP. cbn. by rewrite (To16_equal _ _ Hip), Z.eqb_refl. }
    set (x := mkAnswer (Some (Packet g)) true None).
    pose proof (step_read s c al k g _ payload x Hk Ho ltac:(unfold frameHeaderSize in *; lia) Hdg Hfor eq_refl) as S1.
    unfold run. cbn [foldl]. rewrite (exec_step _ _ _ _ _ _ Hi S1).
    erewrite (exec_step (mkWorld _ _));
      [|apply lookup_insert_eq|by apply (step_lookup _ c al a target t payload f)]. cbn [server threads].
    set (s1 := updateSocket s c _).
    assert (Hk1 : ∃ k1, sockets s1 !! conn t = Some k1 ∧ open k1 = true ∧ told k1 = told kt).
    { cbn. destruct (decide (conn t = c)) as [<-|Hne].
      - rewrite lookup_alter_eq, Hkt. by eexists.
      - rewrite lookup_alter_ne by done. eauto. }
    destruct Hk1 as (k1 & Hk1 & Ho1 & Htold).
    erewrite (exec_step (mkWorld _ _)); [|apply lookup_insert_eq|by apply (step_write _ c al target t f k1)].
    cbn [server threads]. rewrite lookup_insert_eq. split; [done|]. eexists.
    split; [cbn; rewrite lookup_alter_eq; cbn in Hk1; by rewrite Hk1|]. cbn. by rewrite Htold.
  - intros size rest Hs. cbn. rewrite Hdf. by rewrite (proj2 (Z.ltb_ge _ _) Hs).
  - apply To16_equal. by eapply To16_idem.
Qed.

(** ** Examples *)

Definition demoConfig : ServerConfig := mkConfig (map byte_of [203; 0; 113; 1]) 3478 0 0 0.

Definition demoServer : Server :=
  mkServer (mkConfig (map byte_of [203; 0; 113; 1]) 3478 (10 * 10 ^ 9) (20 * 10 ^ 9) 65535) ∅ ∅ false ∅ ∅.

Lemma relay_demo_new : NewServer demoConfig = Ok demoServer.
Proof. reflexivity. Qed.

Definition demoRequest (session id source target : string) : answer :=
  mkAnswer (Some (Request (Some (mkRequest "allocate" session EmptyString id EmptyString "udp4" source target)))) true None.

Definition demoPacket : list byte :=
  frameOf 4 3478 (addressField (map byte_of [203; 0; 113; 1])) (bytes_of "hello").

Definition demoSend (i : nat) : list op :=
  let ok := mkAnswer None true None in
  [OStep i (mkAnswer (Some (Packet demoPacket)) true None); OStep i ok; OStep i ok].

(** Alice and Bob are allocated in one session. *)
Definition demoPair : list op :=
  let ok := mkAnswer None true None in
  [OServe "/relay/one"; OServe "/relay/one"]
  ++ [OStep 0 (demoRequest "s" "id1" "alice" "bob"); OStep 0 ok; OStep 0 ok]
  ++ [OStep 1 (demoRequest "s" "id2" "bob" "alice"); OStep 1 ok; OStep 1 ok].

Definition demoBob : socket :=
  mkSocket "/relay/one" true
    [Request (Some (mkRequest "allocate" "s" EmptyString "id2" EmptyString "udp4" "bob" "alice"))]
    [Response (mkResponse "allocated" (map byte_of [203; 0; 113; 1]) 3478 "udp4" EmptyString); Frame demoPacket].

Lemma relay_isolated_witness :
  let s := server (run (start demoServer) (demoPair ++ demoSend 0)) in
  sockets s !! 1%nat = Some demoBob ∧
  ∃ al a target t ka g dst payload, allocs s !! al = Some a ∧ allocs s !! target = Some t ∧ conn t = 1%nat ∧
    sockets s !! conn a = Some ka ∧ Packet g ∈ heard ka ∧ decodeFrame g = Ok (dst, payload) ∧ targetID t = sourceID a.
Proof.
  intros s. assert (Hs : sockets s !! 1%nat = Some demoBob) by (vm_compute; reflexivity). split; [exact Hs|].
  destruct (relay_isolated demoConfig demoServer (demoPair ++ demoSend 0) 1 demoBob demoPacket relay_demo_new Hs)
    as (al & target & a & t & ka & g & dst & src & payload & Ha & _ & Ht & _ & Hc & Hka & Hg & Hd & _ & _ & _ & _ & _ & Hid & _).
  { right. left. }
  exists al, a, target, t, ka, g, dst, payload. exact (conj Ha (conj Ht (conj Hc (conj Hka (conj Hg (conj Hd Hid)))))).
Defined.

(** The relay closes while the two are connected, and their handlers end. *)
Definition demoShutdown : list op :=
  let ok := mkAnswer None true None in
  demoPair ++ [OClose] ++ repeat (OStep 2 ok) 3 ++ repeat (OStep 0 ok) 3 ++ repeat (OStep 1 ok) 3.

Lemma relay_tables_witness :
  let s := server (run (start demoServer) demoShutdown) in
  closed s = true ∧ byEndpoint s = ∅ ∧ allocations s = ∅ ∧ ∀ c k, sockets s !! c = Some k → open k = false.
Proof.
  intros s. split; [vm_compute; reflexivity|].
  destruct (relay_tables demoConfig demoServer demoShutdown relay_demo_new) as (_ & _ & _ & _ & _ & H & _). apply H.
  assert (E : threads (run (start demoServer) demoShutdown) = ∅) by (vm_compute; reflexivity).
  intros i c st. by rewrite E, lookup_empty.
Defined.

Definition demoEndpoint (source target : string) (c : nat) : allocation :=
  mkAllocation "/relay/one" "s" (mkUDPAddr (map byte_of [203; 0; 113; 1]) 3478) source target c.

Definition demoSocket (id source target : string) : socket :=
  mkSocket "/relay/one" true
    [Request (Some (mkRequest "allocate" "s" EmptyString id EmptyString "udp4" source target))]
    [Response (mkResponse "allocated" (map byte_of [203; 0; 113; 1]) 3478 "udp4" EmptyString)].

Lemma relay_delivers_witness :
  ∃ relay packet frame,
    allocateReceive (mkProvider "s" "alice" "bob" "udp4")
      (Response (mkResponse "allocated" (map byte_of [203; 0; 113; 1]) 3478 "udp4" EmptyString)) = Ok relay ∧
    WriteTo (bytes_of "hello") (Some relay) = Ok packet ∧
    ∃ src, ReadFrom [Frame frame] 1500 = Some ([], Ok (src, bytes_of "hello")).
Proof.
  destruct (relay_delivers demoConfig demoServer demoPair 0 0 0 1 (demoEndpoint "alice" "bob" 0) (demoEndpoint "bob" "alice" 1)
    (demoSocket "id1" "alice" "bob") (demoSocket "id2" "bob" "alice") (mkProvider "s" "alice" "bob" "udp4") (bytes_of "hello"))
    as (relay & packet & frame & src & H1 & H2 & _ & H3 & _); try (vm_compute; reflexivity).
  - vm_compute. split; [discriminate|reflexivity].
  - vm_compute. discriminate.
  - vm_compute. discriminate.
  - exists relay, packet, frame. split; [exact H1|]. split; [exact H2|]. exists src. apply H3. vm_compute. discriminate.
Defined.

(** An allocation is in the tables before its answer is written: a packet of the peer
    can come first, and the provider then gives up the allocation. *)
Lemma packet_before_answer :
  let ok := mkAnswer None true None in
  let os := [OServe "/relay/one"; OServe "/relay/one"; OStep 0 (demoRequest "s" "id1" "alice" "bob"); OStep 0 ok; OStep 0 ok;
             OStep 1 (demoRequest "s" "id2" "bob" "alice"); OStep 1 ok] ++ demoSend 0 ++ [OStep 1 ok] in
  (told <$> sockets (server (run (start demoServer) os)) !! 1%nat) =
    Some [Frame demoPacket; Response (mkResponse "allocated" (map byte_of [203; 0; 113; 1]) 3478 "udp4" EmptyString)] ∧
  ∀ p, allocateReceive p (Frame demoPacket) = Err "websocket relay allocation response is not text".
Proof. split; [vm_compute; reflexivity|done]. Qed.

(** With NUL characters in session names two sessions can be joined: the key of
    endpoint [x NUL y] of session [s] is that of endpoint [y] of session [s NUL x]. *)
Lemma sessions_collide :
  let ok := mkAnswer None true None in
  let xy := ("x" +:+ String NUL "y")%string in
  let sx := ("s" +:+ String NUL "x")%string in
  let os := [OServe "/relay/one"; OServe "/relay/one"; OStep 0 (demoRequest "s" "id1" "alice" xy); OStep 0 ok; OStep 0 ok;
             OStep 1 (demoRequest sx "id2" "y" "alice"); OStep 1 ok; OStep 1 ok] ++ demoSend 0 in
  let s := server (run (start demoServer) os) in
  (session <$> allocs s !! 0%nat) = Some "s"%string ∧ (session <$> allocs s !! 1%nat) = Some sx ∧
  (last ∘ told <$> sockets s !! 1%nat) = Some (Some (Frame demoPacket)).
Proof. vm_compute. done. Qed.

End RelayProofs.
