(* ===== verification/Mqtt.v ===== *)
(** * Mqtt.v: subscriptions and dispatch of the MQTT signaling adapter
    (src/signaling/mqtt: new.go, types.go, utils.go)

    Application handlers of one topic share one native subscription.  A group per
    topic holds the handlers and says whether the broker is subscribed and whether a
    SUBSCRIBE or UNSUBSCRIBE is in flight; others wait for its end on a channel.  A
    lost connection marks all groups stale, a new one subscribes them again.  Messages
    go through a bounded queue that one goroutine empties.

    The adapter is a machine of goroutines, each cut at its locked sections, its
    atomic operations and its calls of the MQTT client.  The client and the broker are
    the environment: packets of one connection reach the broker in their order, a
    token completes when its packet was processed or fails at any time, subscriptions
    end with the connection (the adapter keeps the client's clean sessions), and the
    client runs the two connection callbacks in goroutines of their own.  Groups and
    channels are cells that are not reused. *)

From S2P Require Import Prelude Threads Signaling.
From Stdlib Require Import ZArith Lia String Ascii.
From stdpp Require Import base list option strings numbers gmap.

Local Open Scope Z_scope.
Local Open Scope go_scope.

Module Mqtt.
Import Threads.

(** ** State *)

(** The handlers by their identifiers; [ready] is the channel of the operation in
    flight, or of the last one. *)
Record topicSubscriptions := mkGroup {
  handlers : gset Z;
  subscribed : bool;
  subscribing : bool;
  ready : nat
}.

#[export] Instance eta_group : Eta topicSubscriptions := fun g =>
  mkGroup (handlers g) (subscribed g) (subscribing g) (ready g).

(** Topic and payload. *)
Definition queuedMessage : Type := string * list byte.

(** [groups] are the cells [subs] points to; [readies] counts the channels made and
    [closedReady] are the closed ones. *)
Record MqttAdapterImpl := mkAdapter {
  baseTopic : string;
  dispatchQueueMessages : Z;
  dispatchQueueBytes : Z;
  subs : gmap string nat;
  groups : gmap nat topicSubscriptions;
  readies : nat;
  closedReady : gset nat;
  nextID : Z;
  generation : Z;
  dispatchQueue : list queuedMessage;
  dispatchBytes : Z;
  dispatching : bool
}.

#[export] Instance eta_adapter : Eta MqttAdapterImpl := fun a =>
  mkAdapter (baseTopic a) (dispatchQueueMessages a) (dispatchQueueBytes a) (subs a) (groups a) (readies a)
    (closedReady a) (nextID a) (generation a) (dispatchQueue a) (dispatchBytes a) (dispatching a).

(** The options that concern the adapter's own state. *)
Inductive option_ :=
| WithBaseTopic (baseTopic : string)
| WithDispatchQueueLimits (maxMessages maxBytes : Z).

Definition applyOption (a : MqttAdapterImpl) (o : option_) : result MqttAdapterImpl :=
  match o with
  | WithBaseTopic base => _ ← Signaling.ValidateRoutePrefix base "/"; Ok (a <| baseTopic := base |>)
  | WithDispatchQueueLimits n b =>
      _ ← guard_err ((n <? 1) || (b <? 1)) "MQTT dispatch queue limits must be positive";
      Ok (a <| dispatchQueueMessages := n |> <| dispatchQueueBytes := b |>)
  end.

Definition defaultDispatchQueueMessages : Z := 1024.
Definition defaultDispatchQueueBytes : Z := 16 * 2 ^ 20.

Definition NewMQTTAdapter (opts : list option_) : result MqttAdapterImpl :=
  foldl (λ r o, a ← r; applyOption a o)
    (Ok (mkAdapter "telekit" defaultDispatchQueueMessages defaultDispatchQueueBytes ∅ ∅ 0 ∅ 0 0 [] 0 false)) opts.

Definition updateGroup (a : MqttAdapterImpl) (g : nat) (f : topicSubscriptions → topicSubscriptions)
  : MqttAdapterImpl := a <| groups ::= alter f g |>.

(** [impl.subs[topic]] with its cell. *)
Definition groupOf (a : MqttAdapterImpl) (topic : string) : option (nat * topicSubscriptions) :=
  g ← subs a !! topic; c ← groups a !! g; Some (g, c).

Definition handlersAt (a : MqttAdapterImpl) (g : nat) : gset Z :=
  match groups a !! g with Some c => handlers c | None => ∅ end.

(** ** The client and the broker *)

Inductive packet :=
| PSub (topic : string) (token : nat)
| PUnsub (topic : string) (token : nat).

(** [wire] are the packets on their way, [native] the broker's subscriptions,
    [acked] the tokens completed without an error. *)
Record session := mkSession {
  up : bool;
  wire : list packet;
  native : gset string;
  acked : gset nat;
  tokens : nat
}.

#[export] Instance eta_session : Eta session := fun s =>
  mkSession (up s) (wire s) (native s) (acked s) (tokens s).

(** A packet is sent, and has a new token; without a connection it is not sent and
    its token fails. *)
Definition send (s : session) (p : nat → packet) : session * nat :=
  let k := tokens s in
  (s <| tokens := S k |> <| wire ::= (λ l, if up s then l ++ [p k] else l) |>, k).

(** The broker processes the first packet. *)
Definition process (s : session) : session :=
  match wire s with
  | [] => s
  | PSub topic k :: rest => s <| wire := rest |> <| native ::= (λ n, {[topic]} ∪ n) |> <| acked ::= (λ d, {[k]} ∪ d) |>
  | PUnsub topic k :: rest => s <| wire := rest |> <| native ::= (λ n, n ∖ {[topic]}) |> <| acked ::= (λ d, {[k]} ∪ d) |>
  end.

(** ** Dispatch *)

Definition enqueueDispatch (a : MqttAdapterImpl) (topic : string) (payload : list byte)
  : MqttAdapterImpl * bool * bool :=
  let maxMessages :=
    if dispatchQueueMessages a <=? 0 then defaultDispatchQueueMessages else dispatchQueueMessages a in
  let maxBytes := if dispatchQueueBytes a <=? 0 then defaultDispatchQueueBytes else dispatchQueueBytes a in
  if (maxMessages <=? len (dispatchQueue a)) || (maxBytes - dispatchBytes a <? len payload)
  then (a, false, false)
  else
    let a := a <| dispatchQueue ::= (λ q, q ++ [(topic, payload)]) |> <| dispatchBytes ::= Z.add (len payload) |> in
    if dispatching a then (a, true, false) else (a <| dispatching := true |>, true, true).

(** A round of [drainDispatchQueue] under the mutex: the message and the handlers to
    call, in the order the map is iterated; [None] when it returns. *)
Definition drainTake (a : MqttAdapterImpl) : MqttAdapterImpl * option (queuedMessage * list Z) :=
  match dispatchQueue a with
  | [] => (a <| dispatching := false |>, None)
  | message :: rest =>
      let a := a <| dispatchQueue := rest |> <| dispatchBytes ::= (λ n, n - len message.2) |> in
      (a, Some (message, match groupOf a message.1 with Some (_, c) => elements (handlers c) | None => [] end))
  end.

(** ** Groups *)

Definition markSubscriptionsStale (a : MqttAdapterImpl) : MqttAdapterImpl :=
  foldl (λ a g, updateGroup a g (λ c, c <| subscribed := false |>)) a (map_to_list (subs a)).*2.

Definition subscriptionsReady (a : MqttAdapterImpl) : bool :=
  forallb (λ p : string * nat,
    match groups a !! p.2 with
    | Some c => negb (negb (bool_decide (handlers c = ∅)) && negb (subscribed c))
    | None => true
    end) (map_to_list (subs a)).

Definition subscriptionTopics (a : MqttAdapterImpl) : list string :=
  (filter (λ p, handlersAt a p.2 ≠ ∅) (map_to_list (subs a))).*1.

(** Taking and giving back the right to subscribe or unsubscribe a group. *)
Definition begin_ (a : MqttAdapterImpl) (g : nat) : MqttAdapterImpl * nat :=
  let r := readies a in
  (updateGroup (a <| readies := S r |>) g (λ c, c <| subscribing := true |> <| ready := r |>), r).

Definition finish (a : MqttAdapterImpl) (g r : nat) (ok : bool) : MqttAdapterImpl :=
  updateGroup (a <| closedReady ::= (λ s, {[r]} ∪ s) |>) g
    (λ c, c <| subscribed := ok |> <| subscribing := false |>).

(** Where [ensureSubscribed] stands: at its locked section, waiting for another
    operation, before the call of the client, waiting for its token, at its end. *)
Inductive ensure :=
| ECheck
| EWait (r : nat)
| ECall (g r : nat) (gen : Z)
| EAwait (g r : nat) (gen : Z) (token : nat)
| EDone (g r : nat) (gen : Z) (ok : bool).

(** [a_ok]: the token completed before the timeout; it can only when it was
    acknowledged.  Otherwise [a_fail] says that the call failed or timed out, and
    without it the goroutine goes on waiting. *)
Record answer := mkAnswer {
  a_ok : bool;
  a_fail : bool
}.

Definition await (s : session) (token : nat) (x : answer) : option bool :=
  if a_ok x && bool_decide (token ∈ acked s) then Some true
  else if a_fail x then Some false
  else None.

(** Going on, or returning whether there was no error. *)
Definition ensureStep (a : MqttAdapterImpl) (s : session) (topic : string) (e : ensure) (x : answer)
  : MqttAdapterImpl * session * (ensure + bool) :=
  match e with
  | ECheck =>
      match groupOf a topic with
      | None => (a, s, inr true)
      | Some (g, c) =>
          if bool_decide (handlers c = ∅) then (a, s, inr true)
          else if subscribed c then (a, s, inr true)
          else if subscribing c then (a, s, inl (EWait (ready c)))
          else let '(a, r) := begin_ a g in (a, s, inl (ECall g r (generation a)))
      end
  | EWait r => (a, s, inl (if bool_decide (r ∈ closedReady a) then ECheck else EWait r))
  | ECall g r gen => let '(s, k) := send s (PSub topic) in (a, s, inl (EAwait g r gen k))
  | EAwait g r gen k =>
      (a, s, inl match await s k x with Some ok => EDone g r gen ok | None => EAwait g r gen k end)
  | EDone g r gen ok => (finish a g r (ok && (generation a =? gen)), s, inr ok)
  end.

(** Where [unsubscribe] stands, likewise. *)
Inductive unsub :=
| UFind (id : Z)
| UCheck (topic : string) (g : nat)
| UWait (topic : string) (g r : nat)
| UCall (topic : string) (g r : nat)
| UAwait (topic : string) (g r token : nat)
| UDone (topic : string) (g r : nat).

(** The group that has the handler. *)
Definition findHandler (a : MqttAdapterImpl) (id : Z) : option (string * nat) :=
  head (filter (λ p, id ∈ handlersAt a p.2) (map_to_list (subs a))).

(** [None] when it returns. *)
Definition unsubscribeStep (a : MqttAdapterImpl) (s : session) (u : unsub) (x : answer)
  : MqttAdapterImpl * session * option unsub :=
  match u with
  | UFind id =>
      match findHandler a id with
      | None => (a, s, None)
      | Some (topic, g) =>
          let a := updateGroup a g (λ c, c <| handlers ::= (λ h, h ∖ {[id]}) |>) in
          (a, s, match groups a !! g with
                 | Some c => if bool_decide (handlers c = ∅) && negb (bool_decide (topic = EmptyString))
                             then Some (UCheck topic g) else None
                 | None => None
                 end)
      end
  | UCheck topic g =>
      match groups a !! g with
      | None => (a, s, None)
      | Some c =>
          if negb (bool_decide (subs a !! topic = Some g)) || negb (bool_decide (handlers c = ∅)) then (a, s, None)
          else if subscribing c then (a, s, Some (UWait topic g (ready c)))
          else if negb (subscribed c) || negb (up s) then (a <| subs ::= delete topic |>, s, None)
          else let '(a, r) := begin_ a g in (a, s, Some (UCall topic g r))
      end
  | UWait topic g r => (a, s, Some (if bool_decide (r ∈ closedReady a) then UCheck topic g else UWait topic g r))
  | UCall topic g r => let '(s, k) := send s (PUnsub topic) in (a, s, Some (UAwait topic g r k))
  | UAwait topic g r k =>
      (a, s, Some (match await s k x with Some _ => UDone topic g r | None => UAwait topic g r k end))
  | UDone topic g r =>
      let a := finish a g r false in
      (match groups a !! g with
       | Some c => if bool_decide (handlers c = ∅) && bool_decide (subs a !! topic = Some g)
                   then a <| subs ::= delete topic |> else a
       | None => a
       end, s, None)
  end.

(** ** The goroutines *)

Inductive onStage :=
| OnJoin
| OnEnsure (e : ensure)
| OnUndo (u : unsub).

(** Where [handleConnected] stands: at its two first lines, at the top of its loop,
    in [ensureSubscribed] for one of the topics with [ok] for those before, and at
    the two halves of the last test. *)
Inductive connectedStage :=
| CBump
| CStale (gen : Z)
| CLoop (gen : Z)
| CEnsure (gen : Z) (topic : string) (rest : list string) (ok : bool) (e : ensure)
| CJudge (gen : Z) (ok : bool)
| CReady (gen : Z).

(** A call of [on], a call of [unsubscribe], the two connection callbacks
    ([handleConnectionLost] before and after it has counted), and the drain with the
    calls it is making. *)
Inductive thread :=
| TOn (topic : string) (id : Z) (st : onStage)
| TUnsub (u : unsub)
| TLost (counted : bool)
| TConnected (st : connectedStage)
| TDrain (calls : list (Z * list byte)).

(** [accepted] are the messages that were queued, [taken] those the drain has taken
    with the handlers it found, [called] the calls it has made; [granted] are the
    subscriptions returned to callers. *)
Record world := mkWorld {
  adapter : MqttAdapterImpl;
  client : session;
  accepted : list queuedMessage;
  taken : list (queuedMessage * list Z);
  called : list (Z * list byte);
  granted : list (string * Z);
  threads : gmap nat thread
}.

#[export] Instance eta_world : Eta world := fun w =>
  mkWorld (adapter w) (client w) (accepted w) (taken w) (called w) (granted w) (threads w).

Definition bump (a : MqttAdapterImpl) : MqttAdapterImpl := a <| generation ::= (λ n, u64 (n + 1)) |>.

(** The first locked section of [on]. *)
Definition join (a : MqttAdapterImpl) (topic : string) (id : Z) : MqttAdapterImpl :=
  match groupOf a topic with
  | Some (g, _) => updateGroup a g (λ c, c <| handlers ::= (λ h, {[id]} ∪ h) |>)
  | None =>
      let g := fresh (dom (groups a)) in
      a <| subs ::= <[topic := g]> |> <| groups ::= <[g := mkGroup {[id]} false false 0]> |>
  end.

(** The next topic of the loop of [handleConnected]. *)
Definition nextTopic (gen : Z) (rest : list string) (ok : bool) : connectedStage :=
  match rest with
  | [] => CJudge gen ok
  | topic :: rest => CEnsure gen topic rest ok ECheck
  end.

Definition connectedStep (a : MqttAdapterImpl) (s : session) (st : connectedStage) (x : answer)
  : MqttAdapterImpl * session * option connectedStage :=
  match st with
  | CBump => (bump a, s, Some (CStale (generation (bump a))))
  | CStale gen => (markSubscriptionsStale a, s, Some (CLoop gen))
  | CLoop gen =>
      (a, s, if negb (generation a =? gen) || negb (up s) then None
             else Some (nextTopic gen (subscriptionTopics a) true))
  | CEnsure gen topic rest ok e =>
      let '(a, s, r) := ensureStep a s topic e x in
      (a, s, Some (match r with
                   | inl e => CEnsure gen topic rest ok e
                   | inr done => nextTopic gen rest (ok && done)
                   end))
  | CJudge gen ok => (a, s, Some (if ok && (generation a =? gen) && up s then CReady gen else CLoop gen))
  | CReady gen => (a, s, if subscriptionsReady a then None else Some (CLoop gen))
  end.

Definition onStep (a : MqttAdapterImpl) (s : session) (topic : string) (id : Z) (st : onStage) (x : answer)
  : MqttAdapterImpl * session * (onStage + bool) :=
  match st with
  | OnJoin => (join a topic id, s, inl (OnEnsure ECheck))
  | OnEnsure e =>
      let '(a, s, r) := ensureStep a s topic e x in
      (a, s, match r with
             | inl e => inl (OnEnsure e)
             | inr true => inr true
             | inr false => inl (OnUndo (UFind id))
             end)
  | OnUndo u =>
      let '(a, s, r) := unsubscribeStep a s u x in
      (a, s, match r with Some u => inl (OnUndo u) | None => inr false end)
  end.

Definition threadStep (w : world) (t : thread) (x : answer) : world * option thread :=
  let a := adapter w in
  let s := client w in
  match t with
  | TOn topic id st =>
      let '(a, s, r) := onStep a s topic id st x in
      let w := w <| adapter := a |> <| client := s |> in
      match r with
      | inl st => (w, Some (TOn topic id st))
      | inr true => (w <| granted ::= (λ l, l ++ [(topic, id)]) |>, None)
      | inr false => (w, None)
      end
  | TUnsub u =>
      let '(a, s, r) := unsubscribeStep a s u x in
      (w <| adapter := a |> <| client := s |>, TUnsub <$> r)
  | TLost false => (w <| adapter := bump a |>, Some (TLost true))
  | TLost true => (w <| adapter := markSubscriptionsStale a |>, None)
  | TConnected st =>
      let '(a, s, r) := connectedStep a s st x in
      (w <| adapter := a |> <| client := s |>, TConnected <$> r)
  | TDrain [] =>
      let '(a, r) := drainTake a in
      match r with
      | None => (w <| adapter := a |>, None)
      | Some (m, hs) =>
          (w <| adapter := a |> <| taken ::= (λ l, l ++ [(m, hs)]) |>, Some (TDrain (map (λ id, (id, m.2)) hs)))
      end
  | TDrain (c :: rest) => (w <| called ::= (λ l, l ++ [c]) |>, Some (TDrain rest))
  end.

(** ** The machine *)

(** The environment: the connection is lost or made, the broker processes a packet,
    a message arrives; the application calls [Subscribe] or [Unsubscribe]; a
    goroutine takes a step. *)
Inductive op :=
| OLose
| OUp
| OProcess
| OMessage (topic : string) (payload : list byte)
| OSubscribe (roomID typ : string)
| OUnsubscribe (id : Z)
| OStep (i : nat) (x : answer).

(** [Subscribe] with the first lines of [on]. *)
Definition subscribe (w : world) (roomID typ : string) : world :=
  if negb (is_ok (Signaling.ValidateRoomID roomID)) || negb (is_ok (Signaling.ValidateMessageType typ)) then w
  else if negb (up (client w)) then w
  else
    let topic := Signaling.mqttTopic (baseTopic (adapter w)) roomID typ in
    let id := i64 (nextID (adapter w) + 1) in
    w <| adapter ::= (λ a, a <| nextID := id |>) |> <| threads ::= (λ m, spawn m (TOn topic id OnJoin)) |>.

Definition exec (w : world) (o : op) : world :=
  match o with
  | OLose =>
      if up (client w)
      then w <| client ::= (λ s, mkSession false [] ∅ (acked s) (tokens s)) |> <| threads ::= (λ m, spawn m (TLost false)) |>
      else w
  | OUp =>
      if up (client w) then w
      else w <| client ::= (λ s, s <| up := true |>) |> <| threads ::= (λ m, spawn m (TConnected CBump)) |>
  | OProcess => w <| client ::= process |>
  | OMessage topic payload =>
      let '(a, ok, start) := enqueueDispatch (adapter w) topic payload in
      let w := w <| adapter := a |> <| accepted ::= (λ l, if ok then l ++ [(topic, payload)] else l) |> in
      if start then w <| threads ::= (λ m, spawn m (TDrain [])) |> else w
  | OSubscribe roomID typ => subscribe w roomID typ
  | OUnsubscribe id => w <| threads ::= (λ m, spawn m (TUnsub (UFind id))) |>
  | OStep i x =>
      match threads w !! i with
      | None => w
      | Some t => let '(w, t') := threadStep w t x in w <| threads ::= (λ m, after m i t' []) |>
      end
  end.

Definition run (w : world) (os : list op) : world := foldl exec w os.

Definition start (a : MqttAdapterImpl) : world := mkWorld a (mkSession false [] ∅ ∅ 0) [] [] [] [] ∅.

End Mqtt.
