(* ===== verification/MqttProofs.v ===== *)
(** * MqttProofs.v: dispatch and subscriptions of the MQTT adapter of Mqtt.v *)

From S2P Require Import Prelude Threads Signaling Mqtt.
From Stdlib Require Import ZArith Lia String Ascii.
From stdpp Require Import base list option strings numbers gmap.

Local Open Scope Z_scope.
Local Open Scope go_scope.

Module MqttProofs.
Import Threads Mqtt.

(** ** What a goroutine does to subscriptions *)

(** The operation in flight: called, sent with a token, or with its outcome. *)
Inductive phase :=
| Called
| Sent (k : nat)
| Told (ok : bool).

(** A goroutine may wait for a channel, subscribe or unsubscribe a group with its
    channel, or handle the loss of a connection, before or after it has counted it. *)
Inductive activity :=
| Idle
| Waits (r : nat)
| Subs (topic : string) (g r : nat) (gen : Z) (ph : phase)
| Unsubs (topic : string) (g r : nat)
| Losing (counted : bool).

Definition viewEnsure (topic : string) (e : ensure) : activity :=
  match e with
  | ECheck => Idle
  | EWait r => Waits r
  | ECall g r gen => Subs topic g r gen Called
  | EAwait g r gen k => Subs topic g r gen (Sent k)
  | EDone g r gen ok => Subs topic g r gen (Told ok)
  end.

Definition viewUnsub (u : unsub) : activity :=
  match u with
  | UFind _ | UCheck _ _ => Idle
  | UWait _ _ r => Waits r
  | UCall topic g r | UAwait topic g r _ | UDone topic g r => Unsubs topic g r
  end.

Definition view (t : thread) : activity :=
  match t with
  | TOn topic _ (OnEnsure e) => viewEnsure topic e
  | TOn _ _ (OnUndo u) => viewUnsub u
  | TUnsub u => viewUnsub u
  | TLost counted => Losing counted
  | TConnected (CEnsure _ topic _ _ e) => viewEnsure topic e
  | _ => Idle
  end.

Definition look (t' : option thread) : activity := match t' with Some t => view t | None => Idle end.

(** The group and the channel of the operation in flight. *)
Definition owns (v : activity) : option (nat * nat) :=
  match v with Subs _ g r _ _ | Unsubs _ g r => Some (g, r) | _ => None end.

Definition ownsReady (r : nat) (t : thread) : Prop := ∃ g, owns (view t) = Some (g, r).

(** A loss that is not counted yet, and one that is not handled yet. *)
Definition losing (m : gmap nat thread) : Prop := some_thread m (λ t, view t = Losing false).
Definition lost (m : gmap nat thread) : Prop := some_thread m (λ t, ∃ b, view t = Losing b).

Lemma losing_lost m : losing m → lost m.
Proof. intros (i & t & Hi & Ht). exists i, t. eauto. Qed.

(** ** The invariant *)

Definition tokenOf (p : packet) : nat := match p with PSub _ k | PUnsub _ k => k end.

(** The broker is subscribed, and no packet that ends it is on its way. *)
Definition clean (s : session) (topic : string) : Prop :=
  topic ∈ native s ∧ ∀ k, PUnsub topic k ∉ wire s.

(** The group of the topic is [g], with an operation in flight on channel [r]. *)
Definition owned (a : MqttAdapterImpl) (topic : string) (g r : nat) : Prop :=
  subs a !! topic = Some g ∧ (r < readies a)%nat ∧ (r ∉ closedReady a) ∧
  ∃ c, groups a !! g = Some c ∧ subscribing c = true ∧ ready c = r.

Definition phase_ok (gen0 : Z) (s : session) (L : Prop) (topic : string) (gen : Z) (ph : phase) : Prop :=
  match ph with
  | Called => True
  | Sent k =>
      (k < tokens s)%nat ∧
      (∀ p, p ∈ wire s → tokenOf p = k → p = PSub topic k) ∧
      (∀ pre post k', wire s = (pre ++ PSub topic k :: post) → PUnsub topic k' ∉ post) ∧
      (k ∈ acked s → gen0 = gen → clean s topic ∨ L)
  | Told ok => ok = true → gen0 = gen → clean s topic ∨ L
  end.

Definition act_ok (a : MqttAdapterImpl) (s : session) (L : Prop) (v : activity) : Prop :=
  match v with
  | Subs topic g r gen ph =>
      owned a topic g r ∧ (∀ c, groups a !! g = Some c → subscribed c = false) ∧ 0 ≤ gen ≤ generation a ∧
      phase_ok (generation a) s L topic gen ph
  | Unsubs topic g r => owned a topic g r
  | _ => True
  end.

(** Groups have one topic, and a handler is in a group of the table. *)
Record shaped (a : MqttAdapterImpl) : Prop := {
  sh_inj : ∀ topic topic' g, subs a !! topic = Some g → subs a !! topic' = Some g → topic = topic';
  sh_cell : ∀ topic g, subs a !! topic = Some g → is_Some (groups a !! g);
  sh_handlers : ∀ g c, groups a !! g = Some c → handlers c ≠ ∅ → ∃ topic, subs a !! topic = Some g
}.

Record inv (a : MqttAdapterImpl) (s : session) (m : gmap nat thread) : Prop := {
  iv_shape : shaped a;
  iv_acts : ∀ i t, m !! i = Some t → act_ok a s (losing m) (view t);
  iv_dist : ∀ i j t u g r g' r', m !! i = Some t → m !! j = Some u →
    owns (view t) = Some (g, r) → owns (view u) = Some (g', r') → g = g' ∨ r = r' → i = j;
  iv_busy : ∀ g c, groups a !! g = Some c → subscribing c = true →
    some_thread m (λ t, owns (view t) = Some (g, ready c));
  iv_waits : ∀ i t r, m !! i = Some t → view t = Waits r → r ∈ closedReady a ∨ some_thread m (ownsReady r);
  iv_true : ∀ topic g c, subs a !! topic = Some g → groups a !! g = Some c → subscribed c = true →
    subscribing c = false → clean s topic ∨ lost m;
  iv_wire : ∀ p, p ∈ wire s → (tokenOf p < tokens s)%nat;
  iv_acked : ∀ k, k ∈ acked s → (k < tokens s)%nat;
  iv_closed : ∀ r, r ∈ closedReady a → (r < readies a)%nat;
  iv_gen : 0 ≤ generation a
}.

Lemma phase_ok_mono n s (L L' : Prop) topic gen ph :
  (L → L') → phase_ok n s L topic gen ph → phase_ok n s L' topic gen ph.
Proof.
  intros HL. destruct ph as [|k|ok]; cbn; [done| |].
  - intros (H1 & H2 & H3 & H4). split_and!; [done..|]. intros Hk Hg. destruct (H4 Hk Hg); auto.
  - intros H Hok Hg. destruct (H Hok Hg); auto.
Qed.

Lemma act_ok_mono a s (L L' : Prop) v : (L → L') → act_ok a s L v → act_ok a s L' v.
Proof.
  intros HL. destruct v as [| |topic g r gen ph| |]; try done. intros (H1 & H2 & H3 & H4).
  split; [done|]. split; [done|]. split; [done|]. by eapply phase_ok_mono.
Qed.

Lemma owns_owned a s L v g r : act_ok a s L v → owns v = Some (g, r) → ∃ topic, owned a topic g r.
Proof.
  destruct v as [| |topic g' r' gen ph|topic g' r'|]; try done; cbn; intros H [= <- <-]; exists topic; apply H || done.
Qed.

(** ** Steps that keep the session and the generation *)

(** Losses are kept by a step of another goroutine. *)
Lemma losing_after m i t t' : m !! i = Some t → view t ≠ Losing false → losing m → losing (after m i t' []).
Proof. intros Hi Hv HL. eapply after_other; [done..|]. intros. by destruct Hv. Qed.

Lemma lost_after m i t t' : m !! i = Some t → (∀ b, view t ≠ Losing b) → lost m → lost (after m i t' []).
Proof. intros Hi Hv HL. eapply after_other; [done..|]. intros [b Hb]. by destruct (Hv b). Qed.

(** What a step does to the groups, seen from the other goroutines: the groups they
    own stay as they are, up to marking them stale. *)
Definition others_kept (a a' : MqttAdapterImpl) (v : activity) : Prop :=
  ∀ topic g r c, owned a topic g r → groups a !! g = Some c →
    (∀ g0 r0, owns v = Some (g0, r0) → g ≠ g0 ∧ r ≠ r0) →
    owned a' topic g r ∧ ∀ c', groups a' !! g = Some c' → subscribed c = false → subscribed c' = false.

Lemma act_ok_others a a' s L v u :
  others_kept a a' v → generation a' = generation a → act_ok a s L u →
  (∀ g r g0 r0, owns u = Some (g, r) → owns v = Some (g0, r0) → g ≠ g0 ∧ r ≠ r0) → act_ok a' s L u.
Proof.
  intros HK Hg Hu Hne. destruct u as [| |topic g r gen ph|topic g r|]; try done; cbn in *.
  - destruct Hu as (H1 & H2 & H3 & H4). pose proof H1 as (_ & _ & _ & c & Hc & _).
    destruct (HK _ _ _ _ H1 Hc) as [K1 K2]; [by intros; eapply Hne|].
    rewrite Hg. split; [done|]. split; [|done]. intros c' Hc'. apply K2; auto.
  - pose proof Hu as (_ & _ & _ & c & Hc & _). eapply HK; [done..|]. by intros; eapply Hne.
Qed.

Lemma table_inv a s m i t a' t' :
  inv a s m → m !! i = Some t → generation a' = generation a → view t ≠ Losing false → shaped a' →
  others_kept a a' (view t) → act_ok a' s (losing m) (look t') →
  (∀ g r j u g' r', owns (look t') = Some (g, r) → j ≠ i → m !! j = Some u → owns (view u) = Some (g', r') →
     g ≠ g' ∧ r ≠ r') →
  (∀ g c', groups a' !! g = Some c' → subscribing c' = true → owns (look t') = Some (g, ready c') ∨
     ∃ c, groups a !! g = Some c ∧ subscribing c = true ∧ ready c' = ready c ∧ ∀ r0, owns (view t) ≠ Some (g, r0)) →
  (∀ r, r ∈ closedReady a → r ∈ closedReady a') → (∀ r, r ∈ closedReady a' → (r < readies a')%nat) →
  (∀ g r, owns (view t) = Some (g, r) → r ∈ closedReady a' ∨ owns (look t') = Some (g, r)) →
  (∀ r, look t' = Waits r → r ∈ closedReady a' ∨ some_thread (after m i t' []) (ownsReady r)) →
  (∀ topic g c', subs a' !! topic = Some g → groups a' !! g = Some c' → subscribed c' = true → subscribing c' = false →
     clean s topic ∨ losing m ∨
     ((∀ b, view t ≠ Losing b) ∧ ∃ c, subs a !! topic = Some g ∧ groups a !! g = Some c ∧ subscribed c = true ∧ subscribing c = false)) →
  inv a' s (after m i t' []).
Proof.
  intros HI Hi Hg Hv Hsh HK Hact Hfresh Hbusy Hclosed Hreadies Hown Hwait Htrue.
  split; try apply HI; try done.
  - intros j u [[Hne Hj]|[[-> ->]|[_ []%not_elem_of_nil]]]%after_inv.
    + eapply act_ok_mono; [by eapply losing_after|]. eapply act_ok_others; [done|done|by eapply (iv_acts _ _ _ HI)|].
      intros g r g0 r0 H1 H2. destruct (decide (g = g0 ∨ r = r0)) as [Hd|Hd]; [|tauto].
      destruct Hne. by eapply (iv_dist _ _ _ HI).
    + eapply act_ok_mono; [by eapply losing_after|done].
  - intros j j' u u' g r g' r' [[Hne Hj]|[[-> ->]|[_ []%not_elem_of_nil]]]%after_inv
      [[Hne' Hj']|[[-> Hx]|[_ []%not_elem_of_nil]]]%after_inv H1 H2 Hd; simplify_eq.
    + by eapply (iv_dist _ _ _ HI).
    + destruct (Hfresh _ _ _ _ _ _ H2 Hne Hj H1). naive_solver.
    + destruct (Hfresh _ _ _ _ _ _ H1 Hne' Hj' H2). naive_solver.
    + done.
  - intros g c' Hc' Hs. destruct (Hbusy _ _ Hc' Hs) as [Ho|(c & Hc & Hsc & Hr & Hno)].
    + destruct t' as [u|]; [|done]. apply after_now. by exists u.
    + rewrite Hr. eapply after_other; [done|by apply (iv_busy _ _ _ HI)|]. intros Ht. by destruct (Hno (ready c)).
  - intros j u r [[Hne Hj]|[[-> ->]|[_ []%not_elem_of_nil]]]%after_inv Hr; [|by apply Hwait].
    destruct (iv_waits _ _ _ HI _ _ _ Hj Hr) as [?|HS]; [auto|].
    destruct HS as (j0 & u0 & Hj0 & g & Hg0). destruct (decide (j0 = i)) as [->|Hne0].
    + simplify_eq. destruct (Hown _ _ Hg0) as [?|Ho]; [by left|]. right. destruct t' as [u'|]; [|done].
      apply after_now. exists u'. split; [done|]. by exists g.
    + right. exists j0, u0. split; [by apply after_keeps|by exists g].
  - intros topic g c' H1 H2 H3 H4. destruct (Htrue _ _ _ H1 H2 H3 H4) as [?|[HL|(Hnl & c & K1 & K2 & K3 & K4)]]; [by left| |].
    + right. by apply losing_lost; eapply losing_after.
    + destruct (iv_true _ _ _ HI _ _ _ K1 K2 K3 K4) as [?|HL]; [by left|]. right. by eapply lost_after.
  - rewrite Hg. apply HI.
Qed.

(** Nothing changes but what the goroutine is doing. *)
Lemma silent_inv a s m i t t' :
  inv a s m → m !! i = Some t → view t ≠ Losing false → (∀ b, view t = Losing b → b = true ∧ ∀ topic g c,
    subs a !! topic = Some g → groups a !! g = Some c → subscribed c = false) →
  owns (look t') = owns (view t) → act_ok a s (losing m) (look t') →
  (∀ r, look t' = Waits r → r ∈ closedReady a ∨ some_thread m (ownsReady r)) →
  inv a s (after m i t' []).
Proof.
  intros HI Hi Hv Hl Ho Hact Hw. eapply table_inv; try done; try apply HI.
  - intros topic g r c H1 H2 _. split; [done|]. intros c' Hc'. congruence.
  - intros g r j u g' r' H1 Hne Hj H2. rewrite Ho in H1.
    destruct (decide (g = g' ∨ r = r')) as [Hd|Hd]; [|tauto].
    by destruct Hne; rewrite (iv_dist _ _ _ HI _ _ _ _ _ _ _ _ Hi Hj H1 H2 Hd).
  - intros g c' Hc' Hs. destruct (decide (owns (view t) = Some (g, ready c'))) as [He|He]; [left; congruence|].
    right. exists c'. split_and!; try done. intros r0 Hr0.
    destruct (owns_owned _ _ _ _ _ _ (iv_acts _ _ _ HI _ _ Hi) Hr0) as (topic & _ & _ & _ & c & Hc & _ & Hr). congruence.
  - intros g r Hr. right. congruence.
  - intros r Hr. destruct (Hw r Hr) as [?|HS]; [by left|]. right. eapply after_other; [done..|].
    intros (g & Hg). rewrite <- Ho, Hr in Hg. done.
  - intros topic g c' H1 H2 H3 H4. right. right. split; [|by exists c'].
    intros b Hb. destruct (Hl b Hb) as [_ Hno]. rewrite (Hno _ _ _ H1 H2) in H3. done.
Qed.

Lemma lookup_updateGroup a g f h c' :
  groups (updateGroup a g f) !! h = Some c' →
  (h = g ∧ ∃ c, groups a !! g = Some c ∧ c' = f c) ∨ (h ≠ g ∧ groups a !! h = Some c').
Proof.
  cbn. destruct (decide (h = g)) as [->|Hne].
  - rewrite lookup_alter_eq. intros (c & Hc & ->)%fmap_Some. left. eauto.
  - rewrite lookup_alter_ne by done. auto.
Qed.

(** A change of the groups that keeps the table keeps its shape, when a group gets
    handlers only if it is in the table. *)
Lemma shaped_update a a' g f :
  shaped a → subs a' = subs a → groups a' = groups (updateGroup a g f) →
  (∀ c, groups a !! g = Some c → handlers (f c) ≠ ∅ → ∃ topic, subs a !! topic = Some g) →
  shaped a'.
Proof.
  intros [H1 H2 H3] Es Eg Hf. split; rewrite Es.
  - done.
  - intros topic h Hh. rewrite Eg. cbn. destruct (H2 _ _ Hh) as [c Hc]. destruct (decide (h = g)) as [->|Hne].
    + rewrite lookup_alter_eq, Hc. by eexists.
    + rewrite lookup_alter_ne, Hc by done. by eexists.
  - intros h c'. rewrite Eg. intros [(-> & c & Hc & ->)|(Hne & Hc)]%lookup_updateGroup; [by apply Hf|by apply H3].
Qed.

Lemma busy_others a s m g c :
  inv a s m → groups a !! g = Some c → subscribing c = false → ∀ j u r, m !! j = Some u → owns (view u) ≠ Some (g, r).
Proof.
  intros HI Hc Hs j u r Hj Ho. destruct (owns_owned _ _ _ _ _ _ (iv_acts _ _ _ HI _ _ Hj) Ho)
    as (topic & _ & _ & _ & c' & Hc' & Hs' & _). congruence.
Qed.

(** A goroutine takes the right to operate on a group. *)
Lemma begin_inv a s m i t topic g c a' r t' :
  inv a s m → m !! i = Some t → view t = Idle → subs a !! topic = Some g → groups a !! g = Some c →
  subscribing c = false → begin_ a g = (a', r) →
  (look t' = Subs topic g r (generation a) Called ∧ subscribed c = false) ∨ look t' = Unsubs topic g r →
  inv a' s (after m i t' []).
Proof.
  intros HI Hi Hv Hs Hc Hb [= <- <-] Hl. set (r := readies a) in *.
  set (f := λ c : topicSubscriptions, c <| subscribing := true |> <| ready := r |>).
  set (a' := updateGroup (a <| readies := S r |>) g f). change (inv a' s (after m i t' [])).
  assert (Hcell : groups a' !! g = Some (f c)) by (cbn; by rewrite lookup_alter_eq, Hc).
  assert (Hfree : ∀ j u r0, m !! j = Some u → owns (view u) ≠ Some (g, r0)) by (by eapply busy_others).
  assert (Hown : owned a' topic g r).
  { split; [done|]. split; [cbn; lia|]. split; [|by exists (f c)]. intros Hin%(iv_closed _ _ _ HI). unfold r in Hin. lia. }
  assert (Howns : owns (look t') = Some (g, r)) by (destruct Hl as [[-> _]| ->]; done).
  eapply table_inv; try done; rewrite ?Hv; try done.
  - eapply shaped_update; [apply HI|done|done|]. eauto.
  - intros topic' g' r' c' (H1 & H2 & H3 & c0 & Hc0 & Hb0 & Hr0) Hc' _. assert (c0 = c') as -> by congruence.
    assert (g' ≠ g) as Hne by congruence.
    assert (Hc2 : groups a' !! g' = Some c') by (cbn; by rewrite lookup_alter_ne by done).
    split; [|intros c1 Hc1; rewrite Hc2 in Hc1; by simplify_eq].
    split; [done|]. split; [cbn; lia|]. split; [done|]. by exists c'.
  - destruct Hl as [[-> Hsub]| ->]; [|done]. cbn -[a']. split; [done|]. split; [|split; [|done]].
    + intros c' Hc'. rewrite Hcell in Hc'. injection Hc' as <-. done.
    + split; [apply HI|cbn; lia].
  - intros g1 r1 j u g' r' H1 Hne Hj H2. rewrite Howns in H1. injection H1 as <- <-. split.
    + intros <-. by eapply Hfree.
    + intros <-. destruct (owns_owned _ _ _ _ _ _ (iv_acts _ _ _ HI _ _ Hj) H2) as (? & _ & Hlt & _). unfold r in Hlt. lia.
  - intros h c' [(-> & c0 & Hc0 & ->)|(Hne & Hc')]%lookup_updateGroup Hsb.
    + left. done.
    + right. by exists c'.
  - intros r0 Hr0%(iv_closed _ _ _ HI). cbn. unfold r. lia.
  - intros r0 Hr0. rewrite Hr0 in Howns. done.
  - intros topic' h c' H1 [(-> & c0 & Hc0 & ->)|(Hne & Hc')]%lookup_updateGroup H3 H4; [done|].
    right. right. split; [done|]. by exists c'.
Qed.

Lemma shaped_delete a topic g c :
  shaped a → subs a !! topic = Some g → groups a !! g = Some c → handlers c = ∅ →
  shaped (a <| subs ::= delete topic |>).
Proof.
  intros [H1 H2 H3] Hs Hc Hh. split; cbn.
  - intros t1 t2 h [_ K1]%lookup_delete_Some [_ K2]%lookup_delete_Some. by eapply H1.
  - intros t1 h [_ K1]%lookup_delete_Some. by eapply H2.
  - intros h ch Hch Hne. destruct (H3 _ _ Hch Hne) as [t1 Ht1]. exists t1. apply lookup_delete_Some. split; [|done].
    intros ->. congruence.
Qed.

(** The end of an operation in flight; a group without handlers can leave the table. *)
Lemma finish_inv a s m i t topic g r c (ok del : bool) t' :
  inv a s m → m !! i = Some t → owns (view t) = Some (g, r) → owned a topic g r → groups a !! g = Some c →
  look t' = Idle → (ok = true → clean s topic ∨ losing m) → (del = true → handlers c = ∅) →
  inv (if del then (finish a g r ok) <| subs ::= delete topic |> else finish a g r ok) s (after m i t' []).
Proof.
  intros HI Hi Ho Hown Hc Hl Hok Hdel. set (a1 := finish a g r ok). pose proof Hown as (Hs & Hlt & Hrc & c0 & Hc0 & _ & _).
  set (f := λ c : topicSubscriptions, c <| subscribed := ok |> <| subscribing := false |>).
  assert (Hsh : shaped a1) by (eapply (shaped_update a _ g f); [apply HI|done|done|by eauto]).
  assert (Hcell : groups a1 !! g = Some (f c)) by (cbn; by rewrite lookup_alter_eq, Hc).
  assert (Hview : ∀ b, view t ≠ Losing b) by (intros b Hb; by rewrite Hb in Ho).
  set (a' := if del then a1 <| subs ::= delete topic |> else a1).
  assert (Eg : groups a' = groups a1) by (unfold a'; by destruct del).
  assert (Er : readies a' = readies a) by (unfold a'; by destruct del).
  assert (Ec : closedReady a' = {[r]} ∪ closedReady a) by (unfold a'; by destruct del).
  assert (Es : ∀ x h, subs a' !! x = Some h → subs a !! x = Some h).
  { intros x h. unfold a'. destruct del; [|done]. cbn. by intros [_ ?]%lookup_delete_Some. }
  assert (Hsame : ∀ h ch, h ≠ g → groups a' !! h = Some ch ↔ groups a !! h = Some ch).
  { intros h ch Hne. rewrite Eg. cbn. by rewrite lookup_alter_ne. }
  eapply table_inv; try done; rewrite ?Hl, ?Er, ?Ec; try done.
  - unfold a'. by destruct del.
  - unfold a'. destruct del eqn:Ed; [|done]. eapply shaped_delete; [done|exact Hs|exact Hcell|by apply Hdel].
  - intros x h r' ch (K1 & K2 & K3 & c1 & Hc1 & Hb1 & Hr1) Hch Hne. destruct (Hne _ _ Ho) as [Hg Hr].
    assert (c1 = ch) as -> by congruence. split.
    + split; [|split; [by rewrite Er|split; [rewrite Ec; set_solver|exists ch; by rewrite Hsame]]].
      unfold a'. destruct del; [|done]. cbn. apply lookup_delete_Some. split; [|done]. intros ->. congruence.
    + intros c' Hc'%Hsame; [congruence|done].
  - intros h c' Hc' Hsb. destruct (decide (h = g)) as [->|Hne].
    + rewrite Eg, Hcell in Hc'. injection Hc' as <-. done.
    + right. exists c'. apply Hsame in Hc'; [|done]. split_and!; try done. intros r0. rewrite Ho. congruence.
  - set_solver.
  - intros r' [->%elem_of_singleton|Hin%(iv_closed _ _ _ HI)]%elem_of_union; [done|lia].
  - intros g1 r1 H1. left. rewrite Ho in H1. injection H1 as <- <-. set_solver.
  - intros x h c' Hx Hc' Hsub Hsb. apply Es in Hx. destruct (decide (h = g)) as [->|Hne].
    + rewrite Eg, Hcell in Hc'. injection Hc' as <-. assert (x = topic) as -> by (by eapply (sh_inj _ (iv_shape _ _ _ HI))).
      destruct (Hok Hsub); auto.
    + apply Hsame in Hc'; [|done]. right. right. split; [done|]. by exists c'.
Qed.

(** A group that nobody uses leaves the table. *)
Lemma delete_inv a s m i t topic g c t' :
  inv a s m → m !! i = Some t → view t = Idle → look t' = Idle → subs a !! topic = Some g → groups a !! g = Some c →
  handlers c = ∅ → subscribing c = false → inv (a <| subs ::= delete topic |>) s (after m i t' []).
Proof.
  intros HI Hi Hv Hl Hs Hc Hh Hb. set (a' := a <| subs ::= delete topic |>). eapply table_inv; try done; rewrite ?Hv, ?Hl; try done.
  - by eapply shaped_delete; [apply HI|..].
  - intros x h r' ch (K1 & K2 & K3 & c1 & Hc1 & Hb1 & Hr1) Hch _. split; [|intros c' Hc'; cbn in Hc'; congruence].
    split; [|split; [done|split; [done|by exists c1]]]. cbn. apply lookup_delete_Some. split; [|done]. intros ->. congruence.
  - intros h c' Hc' Hsb. right. by exists c'.
  - apply HI.
  - intros x h c' Hx Hc' Hsub Hsb. cbn in Hx. apply lookup_delete_Some in Hx as [_ Hx]. right. right. split; [done|]. by exists c'.
Qed.

(** Handlers come and go in the groups of the table, and groups become stale. *)
Lemma flags_inv a s m i t g f a' t' :
  inv a s m → m !! i = Some t → view t ≠ Losing false → look t' = Idle → owns (view t) = None →
  a' = updateGroup a g f → (∃ topic, subs a !! topic = Some g) →
  (∀ c, subscribing (f c) = subscribing c ∧ ready (f c) = ready c ∧ (subscribed c = false → subscribed (f c) = false)) →
  (∀ b, view t ≠ Losing b) →
  inv a' s (after m i t' []).
Proof.
  intros HI Hi Hv Hl Ho -> Hin Hf Hnl. eapply table_inv; try done; rewrite ?Hl, ?Ho; try done.
  - eapply shaped_update; [apply HI|done|done|by eauto].
  - intros x h r' ch (K1 & K2 & K3 & c1 & Hc1 & Hb1 & Hr1) Hch _. assert (c1 = ch) as -> by congruence. split.
    + split; [done|]. split; [done|]. split; [done|]. cbn. destruct (decide (h = g)) as [->|Hne].
      * rewrite lookup_alter_eq, Hch. exists (f ch). destruct (Hf ch) as (-> & -> & _). done.
      * rewrite lookup_alter_ne by done. by exists ch.
    + intros c' [(-> & c0 & Hc0 & ->)|(Hne & Hc')]%lookup_updateGroup; [|congruence]. assert (c0 = ch) as -> by congruence. apply Hf.
  - intros h c' [(-> & c0 & Hc0 & ->)|(Hne & Hc')]%lookup_updateGroup Hsb; right.
    + exists c0. destruct (Hf c0) as (E1 & E2 & _). rewrite E1 in Hsb. done.
    + by exists c'.
  - apply HI.
  - intros x h c' Hx [(-> & c0 & Hc0 & ->)|(Hne & Hc')]%lookup_updateGroup Hsub Hsb; right; right; (split; [done|]).
    + exists c0. destruct (Hf c0) as (E1 & _ & E3). rewrite E1 in Hsb. split_and!; try done.
      destruct (subscribed c0); [done|]. by rewrite E3 in Hsub.
    + by exists c'.
Qed.

(** A handler opens a group for its topic. *)
Lemma open_inv a s m i t topic id t' :
  inv a s m → m !! i = Some t → view t = Idle → look t' = Idle → subs a !! topic = None →
  let g := fresh (dom (groups a)) in
  inv (a <| subs ::= <[topic := g]> |> <| groups ::= <[g := mkGroup {[id]} false false 0]> |>) s (after m i t' []).
Proof.
  intros HI Hi Hv Hl Hs g. set (a' := a <| subs ::= _ |> <| groups ::= _ |>).
  assert (Hg : groups a !! g = None) by apply not_elem_of_dom, is_fresh.
  assert (Hno : ∀ x, subs a !! x ≠ Some g).
  { intros x Hx. destruct (sh_cell _ (iv_shape _ _ _ HI) _ _ Hx). congruence. }
  pose proof (iv_shape _ _ _ HI) as [S1 S2 S3]. eapply table_inv; try done; rewrite ?Hv, ?Hl; try done.
  - split; cbn.
    + intros t1 t2 h H1 H2. apply lookup_insert_Some in H1 as [[<- <-]|[_ H1]], H2 as [[<- Hh]|[_ H2]].
      * done.
      * by destruct (Hno _ H2).
      * destruct (Hno t1). by rewrite Hh.
      * by eapply S1.
    + intros t1 h [[<- <-]|[_ H1]]%lookup_insert_Some; [by rewrite lookup_insert_eq|].
      rewrite lookup_insert_ne; [by eapply S2|]. intros <-. by destruct (Hno _ H1).
    + intros h c [[<- <-]|[Hne Hc]]%lookup_insert_Some Hh; [exists topic; by rewrite lookup_insert_eq|].
      destruct (S3 _ _ Hc Hh) as [x Hx]. exists x. rewrite lookup_insert_ne; [done|congruence].
  - intros x h r' ch (K1 & K2 & K3 & c1 & Hc1 & Hb1 & Hr1) Hch _. assert (c1 = ch) as -> by congruence.
    assert (Hh : groups a' !! h = Some ch) by (cbn; rewrite lookup_insert_ne; [done|congruence]).
    split; [|intros c' Hc'; rewrite Hh in Hc'; by simplify_eq].
    split; [cbn; rewrite lookup_insert_ne; [done|congruence]|]. split; [done|]. split; [done|]. by exists ch.
  - intros h c' Hc' Hsb. cbn in Hc'. apply lookup_insert_Some in Hc' as [[<- <-]|[Hne Hc']]; [done|]. right. by exists c'.
  - apply HI.
  - intros x h c' Hx Hc' Hsub Hsb. cbn in Hc'. apply lookup_insert_Some in Hc' as [[<- <-]|[Hne Hc']]; [done|].
    right. right. split; [done|]. exists c'. cbn in Hx. apply lookup_insert_Some in Hx as [[<- <-]|[_ Hx]]; done.
Qed.

(** [markSubscriptionsStale] clears the flag of every group in the table. *)
Lemma stale_spec (l : list nat) a :
  let a' := foldl (λ a g, updateGroup a g (λ c, c <| subscribed := false |>)) a l in
  subs a' = subs a ∧ readies a' = readies a ∧ closedReady a' = closedReady a ∧ generation a' = generation a ∧
  (∀ g c', groups a' !! g = Some c' → ∃ c, groups a !! g = Some c ∧ handlers c' = handlers c ∧
     subscribing c' = subscribing c ∧ ready c' = ready c ∧ (subscribed c = false → subscribed c' = false) ∧
     (g ∈ l → subscribed c' = false)) ∧
  (∀ g c, groups a !! g = Some c → is_Some (groups a' !! g)).
Proof.
  revert a. induction l as [|h l IH]; intros a; cbn [foldl].
  - split_and!; try done. intros g c' Hc'. exists c'. split_and!; try done. by intros []%not_elem_of_nil.
  - specialize (IH (updateGroup a h (λ c, c <| subscribed := false |>))) as (E1 & E2 & E3 & E4 & E5 & E6).
    split_and!; try done.
    + intros g c' Hc'. destruct (E5 _ _ Hc') as (c & Hc & F1 & F2 & F3 & F4 & F5).
      apply lookup_updateGroup in Hc as [(-> & c0 & Hc0 & ->)|(Hne & Hc)].
      * exists c0. split_and!; auto.
      * exists c. split_and!; try done. intros [Hx|Hin]%elem_of_cons; [done|auto].
    + intros g c Hc. destruct (groups (updateGroup a h (λ c, c <| subscribed := false |>)) !! g) as [c1|] eqn:E; [by eapply E6|].
      cbn in E. destruct (decide (g = h)) as [->|Hne].
      * rewrite lookup_alter_eq, Hc in E. done.
      * rewrite lookup_alter_ne in E by done. congruence.
Qed.

Lemma stale_inv a s m i t t' :
  inv a s m → m !! i = Some t → view t ≠ Losing false → owns (view t) = None → look t' = Idle →
  inv (markSubscriptionsStale a) s (after m i t' []).
Proof.
  intros HI Hi Hv Ho Hl. unfold markSubscriptionsStale.
  destruct (stale_spec (map_to_list (subs a)).*2 a) as (E1 & E2 & E3 & E4 & E5 & E6). set (a' := foldl _ _ _) in *.
  pose proof (iv_shape _ _ _ HI) as [S1 S2 S3].
  eapply table_inv; try done; rewrite ?Ho, ?Hl, ?E3; try done.
  - split; rewrite E1; try done.
    + intros x h Hx. destruct (S2 _ _ Hx) as [c Hc]. by eapply E6.
    + intros h c' Hc' Hh. destruct (E5 _ _ Hc') as (c & Hc & F1 & _). rewrite F1 in Hh. by eapply S3.
  - intros x h r' ch (K1 & K2 & K3 & c1 & Hc1 & Hb1 & Hr1) Hch _. assert (c1 = ch) as -> by congruence. split.
    + unfold owned. rewrite E1, E2, E3. split; [done|]. split; [done|]. split; [done|].
      destruct (E6 _ _ Hch) as [c' Hc']. exists c'. destruct (E5 _ _ Hc') as (c & Hc & _ & F2 & F3 & _). split; [done|].
      assert (c = ch) as -> by congruence. by rewrite F2, F3.
    + intros c' Hc'. destruct (E5 _ _ Hc') as (c & Hc & _ & _ & _ & F4 & _). assert (c = ch) as -> by congruence. done.
  - intros h c' Hc' Hsb. right. destruct (E5 _ _ Hc') as (c & Hc & _ & F2 & F3 & _). exists c. by rewrite <- F2.
  - rewrite E2. apply HI.
  - intros x h c' Hx Hc' Hsub _. destruct (E5 _ _ Hc') as (c & Hc & _ & _ & _ & _ & F5). rewrite E1 in Hx.
    rewrite F5 in Hsub; [done|]. apply list_elem_of_fmap. exists (x, h). split; [done|]. by apply elem_of_map_to_list.
Qed.

(** ** Counting connections *)

(** After the count no operation of before is taken for one of the connection. *)
Lemma act_ok_bump a s (L L' : Prop) v : 0 ≤ generation a → generation a + 1 < 2 ^ 64 → act_ok a s L v → act_ok (bump a) s L' v.
Proof.
  intros H0 Hg. destruct v as [| |topic g r gen ph|topic g r|]; try done. intros (H1 & H2 & H3 & H4).
  assert (E : generation (bump a) = generation a + 1) by (cbn; apply u64_small; unfold in_u64; lia).
  split; [done|]. split; [done|]. rewrite E. split; [lia|]. destruct ph as [|k|ok]; [done| |cbn; lia].
  destruct H4 as (K1 & K2 & K3 & K4). split; [done|]. split; [done|]. split; [done|]. lia.
Qed.

Lemma bump_inv a s m i t t' :
  inv a s m → m !! i = Some t → generation a + 1 < 2 ^ 64 →
  (view t = Losing false ∧ look t' = Losing true) ∨ (view t = Idle ∧ look t' = Idle) →
  inv (bump a) s (after m i t' []).
Proof.
  intros HI Hi Hg Hv. pose proof (iv_gen _ _ _ HI) as H0.
  assert (Ho : owns (view t) = None ∧ owns (look t') = None) by (destruct Hv as [[-> ->]|[-> ->]]; done).
  assert (HS : ∀ P, ¬ P t → some_thread m P → some_thread (after m i t' []) P).
  { intros P HP HS. eapply after_other; [done..|]. intros HP'. by destruct HP. }
  split; try apply HI.
  - by destruct (iv_shape _ _ _ HI).
  - intros j u [[Hne Hj]|[[-> ->]|[_ []%not_elem_of_nil]]]%after_inv.
    + eapply act_ok_bump; [done..|]. by eapply (iv_acts _ _ _ HI).
    + cbn in Hv. destruct Hv as [[_ ->]|[_ ->]]; done.
  - intros j j' u u' g r g' r' [[Hne Hj]|[[-> ->]|[_ []%not_elem_of_nil]]]%after_inv
      [[Hne' Hj']|[[-> Hx]|[_ []%not_elem_of_nil]]]%after_inv H1 H2 Hd; simplify_eq; cbn in Ho; try naive_solver.
    by eapply (iv_dist _ _ _ HI).
  - intros g c Hc Hs. apply HS; [|by apply (iv_busy _ _ _ HI)]. rewrite (proj1 Ho). done.
  - intros j u r [[Hne Hj]|[[-> ->]|[_ []%not_elem_of_nil]]]%after_inv Hr.
    + destruct (iv_waits _ _ _ HI _ _ _ Hj Hr) as [?|HW]; [by left|]. right. apply HS; [|done].
      intros [g Hg0]. rewrite (proj1 Ho) in Hg0. done.
    + cbn in Hv. destruct Hv as [[_ E]|[_ E]]; congruence.
  - intros topic g c H1 H2 H3 H4. destruct (iv_true _ _ _ HI _ _ _ H1 H2 H3 H4) as [?|HL]; [by left|]. right.
    eapply after_other; [done..|]. intros [b Hb]. destruct Hv as [[_ E]|[E _]]; [|congruence].
    destruct t' as [u|]; [|done]. exists u. split; [done|]. by exists true.
  - cbn. apply u64_range.
Qed.

(** ** Packets *)

Lemma send_facts s p s' k :
  send s p = (s', k) →
  k = tokens s ∧ native s' = native s ∧ acked s' = acked s ∧ tokens s' = S (tokens s) ∧
  (wire s' = wire s ∨ wire s' = wire s ++ [p k]).
Proof. intros [= <- <-]. cbn. split_and!; try done. destruct (up s); auto. Qed.

(** Operations on other topics are not touched by a packet. *)
Lemma clean_send s p s' k topic :
  send s p = (s', k) → (∀ k', p k ≠ PUnsub topic k') → clean s topic → clean s' topic.
Proof.
  intros (-> & En & _ & _ & Ew)%send_facts Hp [H1 H2]. split; [by rewrite En|]. intros k' Hin.
  destruct Ew as [Ew|Ew]; rewrite Ew in Hin; [by eapply H2|]. apply elem_of_app in Hin as [?|Hx%list_elem_of_singleton]; [by eapply H2|].
  by destruct (Hp k').
Qed.

Lemma phase_send n s p s' k (L L' : Prop) topic gen ph :
  send s p = (s', k) → (∀ j, tokenOf (p j) = j) → (∀ k', p k ≠ PUnsub topic k') → (L → L') →
  (∀ k', k' ∈ acked s → (k' < tokens s)%nat) →
  phase_ok n s L topic gen ph → phase_ok n s' L' topic gen ph.
Proof.
  intros Hs Hp Hne HL Hack. pose proof (send_facts _ _ _ _ Hs) as (Hk & En & Ea & Et & Ew).
  assert (HC : clean s topic ∨ L → clean s' topic ∨ L') by (intros [?|?]; [left; by eapply clean_send|auto]).
  destruct ph as [|j|ok]; cbn; [done| |by auto]. intros (H1 & H2 & H3 & H4). rewrite Et, Ea. split_and!.
  - lia.
  - intros q Hq Htok. destruct Ew as [Ew|Ew]; rewrite Ew in Hq; [by apply H2|].
    apply elem_of_app in Hq as [Hq| ->%list_elem_of_singleton]; [by apply H2|]. rewrite Hp in Htok. lia.
  - intros pre post k' Hw. destruct Ew as [Ew|Ew]; rewrite Ew in Hw; [by eapply H3|].
    intros Hin. destruct post as [|q post _] using rev_ind; [by apply not_elem_of_nil in Hin|].
    rewrite app_comm_cons, (assoc_L (++)) in Hw. apply app_inj_2 in Hw as [Hw [= <-]]; [|done].
    apply elem_of_app in Hin as [Hin|Hx%list_elem_of_singleton]; [by eapply H3|]. by destruct (Hne k').
  - intros Hj Hgen. auto.
Qed.

(** The packet just sent is the last one, and its token is new. *)
Lemma phase_sent n s s' k L topic gen :
  send s (PSub topic) = (s', k) → (∀ p, p ∈ wire s → (tokenOf p < tokens s)%nat) →
  (∀ k', k' ∈ acked s → (k' < tokens s)%nat) → phase_ok n s' L topic gen (Sent k).
Proof.
  intros Hs Hwire Hack. pose proof (send_facts _ _ _ _ Hs) as (Hk & En & Ea & Et & Ew).
  assert (Hold : ∀ x, PSub x k ∉ wire s) by (intros x Hx%Hwire; cbn in Hx; lia).
  cbn. rewrite Et, Ea. split_and!; [lia|..].
  - intros q Hq Htok. destruct Ew as [Ew|Ew]; rewrite Ew in Hq; [apply Hwire in Hq; lia|].
    apply elem_of_app in Hq as [Hq%Hwire| ->%list_elem_of_singleton]; [lia|done].
  - intros pre post k' Hw. destruct Ew as [Ew|Ew]; rewrite Ew in Hw.
    + destruct (Hold topic). rewrite Hw. apply elem_of_app. right. by left.
    + destruct post as [|q post _] using rev_ind; [apply not_elem_of_nil|].
      rewrite app_comm_cons, (assoc_L (++)) in Hw. apply app_inj_2 in Hw as [Hw _]; [|done].
      destruct (Hold topic). rewrite Hw. apply elem_of_app. right. by left.
  - intros Hin%Hack. lia.
Qed.

Lemma send_inv a s m i t p topic g r s' k t' :
  inv a s m → m !! i = Some t → send s p = (s', k) →
  (∃ gen, view t = Subs topic g r gen Called ∧ p = PSub topic ∧ look t' = Subs topic g r gen (Sent k)) ∨
  (view t = Unsubs topic g r ∧ p = PUnsub topic ∧ look t' = Unsubs topic g r) →
  inv a s' (after m i t' []).
Proof.
  intros HI Hi Hs Hv. pose proof (send_facts _ _ _ _ Hs) as (Hk & En & Ea & Et & Ew).
  pose proof (iv_acts _ _ _ HI _ _ Hi) as Hact.
  assert (Hown : owned a topic g r) by (destruct Hv as [(gen & E & _)|(E & _)]; rewrite E in Hact; apply Hact).
  assert (Ho : owns (look t') = Some (g, r) ∧ owns (view t) = Some (g, r)).
  { destruct Hv as [(gen & -> & _ & ->)|(-> & _ & ->)]; done. }
  assert (Hnl : ∀ b, view t ≠ Losing b) by (intros b Hb; rewrite Hb in Ho; by destruct Ho).
  assert (Hp : ∀ j, tokenOf (p j) = j) by (destruct Hv as [(gen & _ & -> & _)|(_ & -> & _)]; done).
  assert (Htopic : ∀ x k', x ≠ topic → p k ≠ PUnsub x k').
  { intros x k' Hx. destruct Hv as [(gen & _ & -> & _)|(_ & -> & _)]; congruence. }
  assert (HL : losing m → losing (after m i t' [])) by (by eapply losing_after).
  split; try apply HI.
  - intros j u [[Hne Hj]|[[-> ->]|[_ []%not_elem_of_nil]]]%after_inv.
    + pose proof (iv_acts _ _ _ HI _ _ Hj) as Hu. destruct (view u) as [| |x h r0 gen ph|x h r0|] eqn:Eu; try done.
      destruct Hu as (H1 & H2 & H3 & H4). split; [done|]. split; [done|]. split; [done|].
      eapply phase_send; [done..| |done|apply HI|done]. intros k'. apply Htopic. intros ->. destruct Hne.
      eapply (iv_dist _ _ _ HI _ _ _ _ _ _ _ _ Hj Hi); [by rewrite Eu|apply Ho|]. left.
      destruct H1 as (E1 & _), Hown as (E2 & _). congruence.
    + cbn in Hv. destruct Hv as [(gen & E & -> & ->)|(E & _ & ->)]; rewrite E in Hact; [|done].
      destruct Hact as (H1 & H2 & H3 & _). split; [done|]. split; [done|]. split; [done|].
      eapply phase_sent; [done|apply HI..].
  - intros j j' u u' h r1 h' r1' [[Hne Hj]|[[-> ->]|[_ []%not_elem_of_nil]]]%after_inv
      [[Hne' Hj']|[[-> Hx]|[_ []%not_elem_of_nil]]]%after_inv H1 H2 Hd; simplify_eq; cbn in Ho.
    + by eapply (iv_dist _ _ _ HI).
    + destruct Ho as [E1 E2]. rewrite H2 in E1. injection E1 as -> ->. by eapply (iv_dist _ _ _ HI).
    + destruct Ho as [E1 E2]. rewrite H1 in E1. injection E1 as -> ->. by eapply (iv_dist _ _ _ HI).
    + done.
  - intros h c Hc Hsb. eapply after_other; [done|by apply (iv_busy _ _ _ HI)|]. rewrite (proj2 Ho), <- (proj1 Ho). intros Hh.
    destruct t' as [u|]; [|done]. by exists u.
  - intros j u r0 [[Hne Hj]|[[-> ->]|[_ []%not_elem_of_nil]]]%after_inv Hr.
    + destruct (iv_waits _ _ _ HI _ _ _ Hj Hr) as [?|HW]; [by left|]. right. eapply after_other; [done..|].
      intros [h Hh]. rewrite (proj2 Ho), <- (proj1 Ho) in Hh. destruct t' as [u'|]; [|done]. exists u'. split; [done|]. by exists h.
    + cbn in Ho. rewrite Hr in Ho. by destruct Ho.
  - intros x h c H1 H2 H3 H4. destruct (iv_true _ _ _ HI _ _ _ H1 H2 H3 H4) as [Hc|Hl]; [|right; by eapply lost_after].
    left. eapply clean_send; [done| |done]. intros k'. apply Htopic. intros ->.
    destruct Hown as (E1 & _ & _ & c1 & E2 & E3 & _). congruence.
  - intros q Hq. rewrite Et. destruct Ew as [Ew|Ew]; rewrite Ew in Hq; [apply (iv_wire _ _ _ HI) in Hq; lia|].
    apply elem_of_app in Hq as [Hq%(iv_wire _ _ _ HI)| ->%list_elem_of_singleton]; [lia|]. rewrite Hp. lia.
  - intros k'. rewrite Ea, Et. intros Hin%(iv_acked _ _ _ HI). lia.
Qed.

(** ** The environment *)

Lemma clean_process s topic : clean s topic → clean (process s) topic.
Proof.
  intros [H1 H2]. unfold process, clean. destruct (wire s) as [|[x k|x k] rest] eqn:Ew; cbn; [by rewrite Ew|..].
  - split; [set_solver|]. intros k' Hin. destruct (H2 k'). by right.
  - split; [|intros k' Hin; destruct (H2 k'); by right].
    apply elem_of_difference. split; [done|]. intros ->%elem_of_singleton. destruct (H2 k). by left.
Qed.

Lemma process_facts s :
  tokens (process s) = tokens s ∧ (∀ p, p ∈ wire (process s) → p ∈ wire s) ∧
  (∀ k, k ∈ acked (process s) → k ∈ acked s ∨ ∃ p rest, wire s = p :: rest ∧ tokenOf p = k).
Proof.
  unfold process. destruct (wire s) as [|[x k0|x k0] rest] eqn:Ew; cbn.
  - rewrite Ew. eauto.
  - split_and!; [done|by right|]. intros k [->%elem_of_singleton|?]%elem_of_union; [right; by eexists _, _|by left].
  - split_and!; [done|by right|]. intros k [->%elem_of_singleton|?]%elem_of_union; [right; by eexists _, _|by left].
Qed.

Lemma phase_process n s L topic gen ph : phase_ok n s L topic gen ph → phase_ok n (process s) L topic gen ph.
Proof.
  destruct (process_facts s) as (Et & Hw & Ha).
  assert (HC : clean s topic ∨ L → clean (process s) topic ∨ L) by (intros [?%clean_process|?]; auto).
  destruct ph as [|k|ok]; cbn; [done| |by auto]. intros (H1 & H2 & H3 & H4). rewrite Et. split_and!; [done|by auto|..].
  - intros pre post k' E. unfold process in E. destruct (wire s) as [|[x k0|x k0] rest] eqn:Ew; cbn in E.
    + rewrite Ew in E. by destruct pre.
    + eapply (H3 (PSub x k0 :: pre)). by rewrite E.
    + eapply (H3 (PUnsub x k0 :: pre)). by rewrite E.
  - intros [Hk|(p & rest & Ew & Hk)]%Ha Hgen; [by auto|]. left.
    assert (p = PSub topic k) as -> by (apply H2; [rewrite Ew; by left|done]).
    pose proof (λ k', H3 [] rest k' Ew) as Hno. unfold clean, process. rewrite Ew. cbn. split; [set_solver|done].
Qed.

Lemma process_inv a s m : inv a s m → inv a (process s) m.
Proof.
  intros HI. destruct (process_facts s) as (Et & Hw & Ha). split; try apply HI.
  - intros i t Hi. pose proof (iv_acts _ _ _ HI _ _ Hi) as H. destruct (view t); try done.
    destruct H as (H1 & H2 & H3 & H4). split; [done|]. split; [done|]. split; [done|]. by apply phase_process.
  - intros x g c H1 H2 H3 H4. destruct (iv_true _ _ _ HI _ _ _ H1 H2 H3 H4) as [?%clean_process|?]; auto.
  - intros p Hp%Hw. rewrite Et. by apply (iv_wire _ _ _ HI).
  - intros k. rewrite Et. intros [Hk%(iv_acked _ _ _ HI)|(p & rest & Ew & <-)]%Ha; [done|].
    apply (iv_wire _ _ _ HI). rewrite Ew. by left.
Qed.

Lemma mqtt_spawn_inv a s m t0 :
  inv a s m → owns (view t0) = None → (∀ r, view t0 ≠ Waits r) → inv a s (spawn m t0).
Proof.
  intros HI Ho Hw. split; try apply HI.
  - intros j u [[-> ->]|Hj]%spawn_lookup; [by destruct (view t0)|].
    eapply act_ok_mono; [apply spawn_some|]. by eapply (iv_acts _ _ _ HI).
  - intros j j' u u' g r g' r' [[-> ->]|Hj]%spawn_lookup [[-> ->]|Hj']%spawn_lookup H1 H2 Hd; try congruence.
    by eapply (iv_dist _ _ _ HI).
  - intros g c Hc Hs. by apply spawn_some, (iv_busy _ _ _ HI).
  - intros j u r [[-> ->]|Hj]%spawn_lookup Hr; [by destruct (Hw r)|].
    destruct (iv_waits _ _ _ HI _ _ _ Hj Hr); [by left|right; by apply spawn_some].
  - intros x g c H1 H2 H3 H4. destruct (iv_true _ _ _ HI _ _ _ H1 H2 H3 H4); [by left|right; by apply spawn_some].
Qed.

Lemma lose_inv a s m :
  inv a s m → inv a (mkSession false [] ∅ (acked s) (tokens s)) (spawn m (TLost false)).
Proof.
  intros HI%(mqtt_spawn_inv _ _ _ (TLost false)); [|done..]. set (m' := spawn m (TLost false)) in *.
  assert (HL : losing m').
  { exists (fresh (dom m)), (TLost false). split; [|done]. apply spawn_lookup. by left. }
  split; try apply HI.
  - intros j u Hj. pose proof (iv_acts _ _ _ HI _ _ Hj) as H. destruct (view u) as [| |x g r gen ph| |]; try done.
    destruct H as (H1 & H2 & H3 & H4). split; [done|]. split; [done|]. split; [done|]. destruct ph as [|k|ok]; [done| |by right].
    cbn. split_and!; [apply H4|by intros p []%not_elem_of_nil|by intros []|by right].
  - intros x g c _ _ _ _. right. by apply losing_lost.
  - by intros p []%not_elem_of_nil.
Qed.

(** ** Every step *)

Lemma groupOf_Some a topic g c : groupOf a topic = Some (g, c) → subs a !! topic = Some g ∧ groups a !! g = Some c.
Proof.
  unfold groupOf. destruct (subs a !! topic) as [h|]; [|done]. cbn. destruct (groups a !! h) as [d|] eqn:E; [|done].
  cbn. intros [= <- <-]. done.
Qed.

Lemma ensure_inv a s m i t topic e x a' s' r t' :
  inv a s m → m !! i = Some t → view t = viewEnsure topic e → ensureStep a s topic e x = (a', s', r) →
  look t' = match r with inl e' => viewEnsure topic e' | inr _ => Idle end →
  inv a' s' (after m i t' []).
Proof.
  intros HI Hi Hv H Hl. pose proof (iv_acts _ _ _ HI _ _ Hi) as Hact. rewrite Hv in Hact.
  assert (Hnl : ∀ b, view t ≠ Losing b) by (intros b; rewrite Hv; by destruct e).
  assert (Hquiet : a' = a → s' = s → owns (look t') = owns (view t) → act_ok a s (losing m) (look t') →
    (∀ r, look t' = Waits r → r ∈ closedReady a ∨ some_thread m (ownsReady r)) → inv a' s' (after m i t' [])).
  { intros -> -> Ho Ha Hw. eapply silent_inv; try done. intros b Hb. by destruct (Hnl b). }
  destruct e as [|r0|g r0 gen|g r0 gen k|g r0 gen ok]; cbn in H, Hv, Hact.
  - destruct (groupOf a topic) as [[g c]|] eqn:Hg; [|simplify_eq; apply Hquiet; by rewrite ?Hl, ?Hv].
    apply groupOf_Some in Hg as [Hs Hc].
    destruct (bool_decide _) in H; [simplify_eq; apply Hquiet; by rewrite ?Hl, ?Hv|].
    destruct (subscribed c) eqn:Hsc; [simplify_eq; apply Hquiet; by rewrite ?Hl, ?Hv|].
    destruct (subscribing c) eqn:Hsb.
    + simplify_eq. apply Hquiet; rewrite ?Hl, ?Hv; try done. intros r [= <-]. right.
      destruct (iv_busy _ _ _ HI _ _ Hc Hsb) as (j & u & Hj & Hu). exists j, u. split; [done|]. by exists g.
    + destruct (begin_ a g) as [a1 r1] eqn:Hb. simplify_eq. eapply begin_inv; try done. left. rewrite Hl.
      split; [|done]. cbn. by injection Hb as <- <-.
  - simplify_eq. destruct (bool_decide (r0 ∈ closedReady a')); apply Hquiet; rewrite ?Hl, ?Hv; try done. intros r [= <-]. by eapply (iv_waits _ _ _ HI).
  - destruct (send s (PSub topic)) as [s1 k] eqn:Hs. simplify_eq. eapply send_inv; [done..|]. left. by exists gen.
  - simplify_eq. destruct Hact as (H1 & H2 & H3 & H4).
    destruct (await s' k x) as [ok|] eqn:Hw; apply Hquiet; rewrite ?Hl, ?Hv; try done.
    split; [done|]. split; [done|]. split; [done|]. intros -> Hgen. unfold await in Hw. apply H4; [|done].
    destruct (a_ok x && bool_decide (k ∈ acked s')) eqn:E; [|by destruct (a_fail x)].
    apply andb_true_iff in E as [_ E]. by apply bool_decide_eq_true in E.
  - simplify_eq. destruct Hact as (H1 & H2 & H3 & H4). pose proof H1 as (_ & _ & _ & c & Hc & _).
    apply (finish_inv a s' m i t topic g r0 c _ false t'); try done; [by rewrite Hv|].
    intros [-> E]%andb_true_iff. apply H4; [done|]. by apply Z.eqb_eq in E.
Qed.

Lemma findHandler_Some a id topic g :
  findHandler a id = Some (topic, g) → subs a !! topic = Some g.
Proof.
  unfold findHandler. intros H%head_Some_elem_of. apply list_elem_of_filter in H as [_ H]. by apply elem_of_map_to_list in H.
Qed.

Lemma unsubscribe_inv a s m i t u x a' s' r t' :
  inv a s m → m !! i = Some t → view t = viewUnsub u → unsubscribeStep a s u x = (a', s', r) →
  look t' = match r with Some u' => viewUnsub u' | None => Idle end →
  inv a' s' (after m i t' []).
Proof.
  intros HI Hi Hv H Hl. pose proof (iv_acts _ _ _ HI _ _ Hi) as Hact. rewrite Hv in Hact.
  assert (Hnl : ∀ b, view t ≠ Losing b) by (intros b; rewrite Hv; by destruct u).
  assert (Hquiet : a' = a → s' = s → owns (look t') = owns (view t) → act_ok a s (losing m) (look t') →
    (∀ r, look t' = Waits r → r ∈ closedReady a ∨ some_thread m (ownsReady r)) → inv a' s' (after m i t' [])).
  { intros -> -> Ho Ha Hw. eapply silent_inv; try done. intros b Hb. by destruct (Hnl b). }
  destruct u as [id|topic g|topic g r0|topic g r0|topic g r0 k|topic g r0]; cbn in H, Hv, Hact.
  - destruct (findHandler a id) as [[topic g]|] eqn:Hf; [|simplify_eq; apply Hquiet; by rewrite ?Hl, ?Hv].
    apply findHandler_Some in Hf. injection H as <- <- <-.
    eapply flags_inv; try done; [|by rewrite Hv|by eauto].
    rewrite Hl. destruct (_ !! g) as [c|]; [|done]. by destruct (_ && _).
  - destruct (groups a !! g) as [c|] eqn:Hc; [|simplify_eq; apply Hquiet; by rewrite ?Hl, ?Hv].
    destruct (negb _ || negb _) eqn:E in H; [simplify_eq; apply Hquiet; by rewrite ?Hl, ?Hv|].
    apply orb_false_iff in E as [Hs Hh]. apply negb_false_iff, bool_decide_eq_true in Hs, Hh.
    destruct (subscribing c) eqn:Hsb.
    + simplify_eq. apply Hquiet; rewrite ?Hl, ?Hv; try done. intros r [= <-]. right.
      destruct (iv_busy _ _ _ HI _ _ Hc Hsb) as (j & u & Hj & Hu). exists j, u. split; [done|]. by exists g.
    + destruct (negb _ || negb _) in H; [simplify_eq; by eapply delete_inv|].
      destruct (begin_ a g) as [a1 r1] eqn:Hb. simplify_eq. eapply begin_inv; try done. by right.
  - simplify_eq. destruct (bool_decide (r0 ∈ closedReady a')); apply Hquiet; rewrite ?Hl, ?Hv; try done. intros r [= <-]. by eapply (iv_waits _ _ _ HI).
  - destruct (send s (PUnsub topic)) as [s1 k] eqn:Hs. simplify_eq. eapply send_inv; [done..|]. by right.
  - simplify_eq. destruct (await s' k x) as [ok|]; apply Hquiet; by rewrite ?Hl, ?Hv.
  - pose proof Hact as (Hs & _ & _ & c & Hc & _). simplify_eq.
    set (del := bool_decide (handlers c = ∅)).
    assert (Hdel : del = true → handlers c = ∅) by (intros E; by apply bool_decide_eq_true in E).
    pose proof (finish_inv a s' m i t topic g r0 c false del t' HI Hi ltac:(by rewrite Hv) Hact Hc Hl ltac:(done) Hdel) as HF.
    cbn. rewrite lookup_alter_eq, Hc. cbn. rewrite (bool_decide_true (subs a !! topic = Some g)), andb_true_r by done. exact HF.
Qed.

Lemma ensure_generation a s topic e x a' s' r : ensureStep a s topic e x = (a', s', r) → generation a' = generation a.
Proof.
  intros H. destruct e; cbn in H; [|by simplify_eq..]. destruct (groupOf a topic) as [[g c]|]; [|by simplify_eq].
  destruct (bool_decide _) in H; [by simplify_eq|]. destruct (subscribed c); [by simplify_eq|].
  destruct (subscribing c); by simplify_eq.
Qed.

Lemma unsubscribe_generation a s u x a' s' r : unsubscribeStep a s u x = (a', s', r) → generation a' = generation a.
Proof. intros H. destruct u; cbn in H; repeat case_match; by simplify_eq. Qed.

Lemma connected_inv a s m i t st x a' s' r :
  inv a s m → m !! i = Some t → t = TConnected st → generation a + 1 < 2 ^ 64 → connectedStep a s st x = (a', s', r) →
  inv a' s' (after m i (TConnected <$> r) []) ∧ generation a' ≤ generation a + 1.
Proof.
  intros HI Hi -> Hg H.
  assert (Hquiet : ∀ r', view (TConnected st) = Idle → look (TConnected <$> r') = Idle → inv a s (after m i (TConnected <$> r') [])).
  { intros r' Hv Hl. eapply silent_inv; try done; rewrite ?Hv, ?Hl; try done. }
  assert (Hnext : ∀ gen rest ok, view (TConnected (nextTopic gen rest ok)) = Idle) by (by intros gen [|]).
  destruct st as [|gen|gen|gen topic rest ok e|gen ok|gen]; cbn in H.
  - injection H as <- <- <-. split; [|cbn; rewrite u64_small; [lia|]; pose proof (iv_gen _ _ _ HI); unfold in_u64; lia].
    eapply bump_inv; try done. by right.
  - injection H as <- <- <-. split; [by eapply stale_inv|]. unfold markSubscriptionsStale.
    destruct (stale_spec (map_to_list (subs a)).*2 a) as (_ & _ & _ & -> & _). lia.
  - injection H as <- <- <-. split; [|lia]. apply Hquiet; [done|]. case_if as E; [done|]. apply Hnext.
  - destruct (ensureStep a s topic e x) as [[a1 s1] r1] eqn:He. pose proof (ensure_generation _ _ _ _ _ _ _ _ He) as Eg.
    injection H as <- <- <-. split; [|lia]. eapply ensure_inv; [done..|]. cbn. destruct r1 as [e'|b]; [done|apply Hnext].
  - injection H as <- <- <-. split; [|lia]. apply Hquiet; [done|]. by destruct (_ && _ && _).
  - injection H as <- <- <-. split; [|lia]. apply Hquiet; [done|]. by destruct (subscriptionsReady a).
Qed.

Lemma on_inv a s m i topic id st x a' s' r :
  inv a s m → m !! i = Some (TOn topic id st) → onStep a s topic id st x = (a', s', r) →
  inv a' s' (after m i (match r with inl st => Some (TOn topic id st) | inr _ => None end) []) ∧
  generation a' = generation a.
Proof.
  intros HI Hi H. destruct st as [|e|u]; cbn in H.
  - injection H as <- <- <-. unfold join. destruct (groupOf a topic) as [[g c]|] eqn:Hg; (split; [|done]).
    + apply groupOf_Some in Hg as [Hs Hc]. eapply flags_inv; try done. by eauto.
    + apply (open_inv a s m i (TOn topic id OnJoin) topic id); try done.
      unfold groupOf in Hg. destruct (subs a !! topic) as [g|] eqn:Hs; [|done].
      destruct (sh_cell _ (iv_shape _ _ _ HI) _ _ Hs) as [c Hc]. cbn in Hg. rewrite Hc in Hg. done.
  - destruct (ensureStep a s topic e x) as [[a1 s1] r1] eqn:He. injection H as <- <- <-.
    split; [|by eapply ensure_generation]. eapply ensure_inv; [done..|]. by destruct r1 as [e'|[]].
  - destruct (unsubscribeStep a s u x) as [[a1 s1] r1] eqn:He. injection H as <- <- <-.
    split; [|by eapply unsubscribe_generation]. eapply unsubscribe_inv; [done..|]. by destruct r1.
Qed.

(** Fields that do not concern subscriptions. *)
Lemma inv_dispatch a s m q n d :
  inv a s m → inv (a <| dispatchQueue := q |> <| dispatchBytes := n |> <| dispatching := d |>) s m.
Proof. intros [[] ? ? ? ? ? ? ? ? ?]. by split; [split|..]. Qed.

Lemma inv_same a a' s m :
  a' = a <| dispatchQueue := dispatchQueue a' |> <| dispatchBytes := dispatchBytes a' |> <| dispatching := dispatching a' |> →
  inv a s m → inv a' s m.
Proof. intros ->. apply inv_dispatch. Qed.

Lemma mqtt_step_inv w i t x w' t' :
  inv (adapter w) (client w) (threads w) → generation (adapter w) + 1 < 2 ^ 64 →
  threads w !! i = Some t → threadStep w t x = (w', t') →
  inv (adapter w') (client w') (after (threads w) i t' []) ∧ generation (adapter w') ≤ generation (adapter w) + 1 ∧
  threads w' = threads w.
Proof.
  intros HI Hg Hi H.
  assert (Hquiet : ∀ t', view t = Idle → look t' = Idle → inv (adapter w) (client w) (after (threads w) i t' [])).
  { intros t1 Hv Hl. eapply silent_inv; try done; rewrite ?Hv, ?Hl; done. }
  destruct t as [topic id st|u|counted|st|calls]; cbn in H.
  - destruct (onStep _ _ topic id st x) as [[a s] r] eqn:Ho.
    destruct (on_inv _ _ _ _ _ _ _ _ _ _ _ HI Hi Ho) as [HI' Eg].
    destruct r as [st'|[]]; injection H as <- <-; cbn; (split; [exact HI'|]); (split; [lia|done]).
  - destruct (unsubscribeStep _ _ u x) as [[a s] r] eqn:Hu. injection H as <- <-. cbn.
    split; [eapply unsubscribe_inv; [done..|by destruct r]|]. rewrite (unsubscribe_generation _ _ _ _ _ _ _ Hu). split; [lia|done].
  - destruct counted; injection H as <- <-; cbn.
    + split; [by eapply stale_inv|]. split; [|done]. unfold markSubscriptionsStale.
      destruct (stale_spec (map_to_list (subs (adapter w))).*2 (adapter w)) as (_ & _ & _ & -> & _). lia.
    + split; [eapply bump_inv; try done; by left|]. split; [|done]. rewrite u64_small; [lia|].
      pose proof (iv_gen _ _ _ HI). unfold in_u64. lia.
  - destruct (connectedStep _ _ st x) as [[a s] r] eqn:Hc. injection H as <- <-. cbn.
    destruct (connected_inv _ _ _ _ _ _ _ _ _ _ HI Hi eq_refl Hg Hc). done.
  - destruct calls as [|c rest]; [|injection H as <- <-; cbn; split; [by apply Hquiet|split; [lia|done]]].
    unfold drainTake in H. destruct (dispatchQueue (adapter w)) as [|msg rest]; injection H as <- <-; cbn;
      (split; [|split; [lia|done]]); (eapply inv_same; [|by apply Hquiet]); done.
Qed.

Lemma mqtt_exec_inv w o :
  inv (adapter w) (client w) (threads w) → generation (adapter w) + 1 < 2 ^ 64 →
  inv (adapter (exec w o)) (client (exec w o)) (threads (exec w o)) ∧
  generation (adapter (exec w o)) ≤ generation (adapter w) + 1.
Proof.
  intros HI Hg. destruct o as [| | |topic payload|roomID typ|id|i x]; cbn.
  - destruct (up (client w)); [|by split; [|lia]]. split; [by apply lose_inv|cbn; lia].
  - destruct (up (client w)); [by split; [|lia]|]. split; [|cbn; lia].
    apply (mqtt_spawn_inv _ _ _ (TConnected CBump)); [|done..]. destruct HI as [[] ? ? ? ? ? ? ? ? ?]. by split; [split|..].
  - split; [by apply process_inv|lia].
  - destruct (enqueueDispatch (adapter w) topic payload) as [[a ok] st] eqn:He.
    assert (HI' : inv a (client w) (threads w) ∧ generation a = generation (adapter w)).
    { unfold enqueueDispatch in He. destruct (_ || _) in He; [by simplify_eq|].
      cbn in He. destruct (dispatching (adapter w)); simplify_eq; (split; [|done]); by eapply inv_same. }
    destruct HI' as [HI' Eg]. destruct st; cbn; (split; [|lia]); [by apply mqtt_spawn_inv|done].
  - unfold subscribe. destruct (_ || _); [by split; [|lia]|]. destruct (negb _); [by split; [|lia]|].
    cbn. split; [|lia]. apply mqtt_spawn_inv; [|done..]. destruct HI as [[] ? ? ? ? ? ? ? ? ?]. by split; [split|..].
  - split; [by apply mqtt_spawn_inv|lia].
  - destruct (threads w !! i) as [t|] eqn:Hi; [|by split; [|lia]].
    destruct (threadStep w t x) as [w' t'] eqn:Hs. destruct (mqtt_step_inv _ _ _ _ _ _ HI Hg Hi Hs) as (H1 & H2 & H3).
    cbn. rewrite H3. done.
Qed.

Lemma mqtt_run_inv w os :
  inv (adapter w) (client w) (threads w) → generation (adapter w) + len os < 2 ^ 64 →
  inv (adapter (run w os)) (client (run w os)) (threads (run w os)).
Proof.
  unfold run. revert w. induction os as [|o os IH]; intros w HI Hg; [done|]. cbn. rewrite len_cons in Hg.
  pose proof (len_nonneg os). destruct (mqtt_exec_inv w o HI ltac:(lia)) as [HI' Hg']. apply IH; [done|lia].
Qed.

Lemma NewMQTTAdapter_ok opts a0 :
  NewMQTTAdapter opts = Ok a0 →
  0 < dispatchQueueMessages a0 ∧ 0 < dispatchQueueBytes a0 ∧ subs a0 = ∅ ∧ groups a0 = ∅ ∧ closedReady a0 = ∅ ∧
  generation a0 = 0 ∧ dispatchQueue a0 = [] ∧ dispatchBytes a0 = 0 ∧ dispatching a0 = false.
Proof.
  set (P := λ a, 0 < dispatchQueueMessages a ∧ 0 < dispatchQueueBytes a ∧ subs a = ∅ ∧ groups a = ∅ ∧ closedReady a = ∅ ∧
    generation a = 0 ∧ dispatchQueue a = [] ∧ dispatchBytes a = 0 ∧ dispatching a = false).
  unfold NewMQTTAdapter. set (r0 := Ok _). assert (HP : ∀ a, r0 = Ok a → P a) by (intros a [= <-]; by split_and!).
  clearbody r0. revert r0 HP. induction opts as [|o opts IH]; intros r0 HP; cbn; [apply HP|]. apply IH.
  intros a. intros (a1 & Ha1 & H)%bind_ok. apply HP in Ha1. destruct o as [base|n b]; cbn in H.
  - apply bind_ok_unit in H as [_ H]. injection H as <-. exact Ha1.
  - apply bind_ok_unit in H as [Hc H]. apply guard_ok, orb_false_iff in Hc as [Hn Hb]. b2p. injection H as <-.
    destruct Ha1 as (_ & _ & Hrest). split; [cbn; lia|]. split; [cbn; lia|]. exact Hrest.
Qed.

Lemma mqtt_start_inv opts a0 : NewMQTTAdapter opts = Ok a0 → inv a0 (client (start a0)) ∅.
Proof.
  intros (_ & _ & E1 & E2 & E3 & E4 & _)%NewMQTTAdapter_ok. split; [split|..]; rewrite ?E1, ?E2, ?E3, ?E4; intros; simplify_map_eq;
    try done; try (by exfalso; eapply not_elem_of_nil); set_solver.
Qed.


(** ** Dispatch *)

(** The calls for the messages taken, in order. *)
Definition callsOf (l : list (queuedMessage * list Z)) : list (Z * list byte) :=
  l ≫= λ p, map (λ id, (id, p.1.2)) p.2.

Definition bytesOf (q : list queuedMessage) : Z := foldr (λ m n, len m.2 + n) 0 q.

Definition settings (a : MqttAdapterImpl) : Z * Z * list queuedMessage * Z * bool :=
  (dispatchQueueMessages a, dispatchQueueBytes a, dispatchQueue a, dispatchBytes a, dispatching a).

(** No goroutine drains, or exactly one, with the calls it has yet to make. *)
Definition drained (w : world) : Prop :=
  if dispatching (adapter w)
  then ∃ i calls, threads w !! i = Some (TDrain calls) ∧ called w ++ calls = callsOf (taken w) ∧
         ∀ j calls', threads w !! j = Some (TDrain calls') → j = i
  else dispatchQueue (adapter w) = [] ∧ called w = callsOf (taken w) ∧
       ∀ j calls', threads w !! j ≠ Some (TDrain calls').

Record dispatched (w : world) : Prop := {
  di_log : (taken w).*1 ++ dispatchQueue (adapter w) = accepted w;
  di_bytes : dispatchBytes (adapter w) = bytesOf (dispatchQueue (adapter w));
  di_positive : 0 < dispatchQueueMessages (adapter w) ∧ 0 < dispatchQueueBytes (adapter w);
  di_length : len (dispatchQueue (adapter w)) ≤ dispatchQueueMessages (adapter w);
  di_size : dispatchBytes (adapter w) ≤ dispatchQueueBytes (adapter w);
  di_drain : drained w
}.

Lemma ensure_settings a s topic e x a' s' r : ensureStep a s topic e x = (a', s', r) → settings a' = settings a.
Proof.
  intros H. destruct e; cbn in H; [|by simplify_eq..]. destruct (groupOf a topic) as [[g c]|]; [|by simplify_eq].
  destruct (bool_decide _) in H; [by simplify_eq|]. destruct (subscribed c); [by simplify_eq|].
  destruct (subscribing c); by simplify_eq.
Qed.

Lemma unsubscribe_settings a s u x a' s' r : unsubscribeStep a s u x = (a', s', r) → settings a' = settings a.
Proof. intros H. destruct u; cbn in H; repeat case_match; by simplify_eq. Qed.

Lemma stale_settings a : settings (markSubscriptionsStale a) = settings a.
Proof.
  unfold markSubscriptionsStale. generalize (map_to_list (subs a)).*2. intros l. revert a.
  induction l as [|g l IH]; intros a; [done|]. cbn. by rewrite IH.
Qed.

(** The other goroutines have nothing to do with dispatch. *)
Lemma step_settings w t x w' t' :
  threadStep w t x = (w', t') → (∀ calls, t ≠ TDrain calls) →
  settings (adapter w') = settings (adapter w) ∧ accepted w' = accepted w ∧ taken w' = taken w ∧ called w' = called w ∧
  threads w' = threads w ∧ ∀ calls, t' ≠ Some (TDrain calls).
Proof.
  intros H Ht. destruct t as [topic id st|u|[]|st|calls]; cbn in H.
  - destruct (onStep _ _ topic id st x) as [[a s] r] eqn:Ho.
    assert (E : settings a = settings (adapter w)).
    { destruct st as [|e|u]; cbn in Ho.
      - injection Ho as <- <- <-. unfold join. by destruct (groupOf _ topic) as [[g c]|].
      - destruct (ensureStep _ _ topic e x) as [[a1 s1] r1] eqn:He. injection Ho as <- <- <-. by eapply ensure_settings.
      - destruct (unsubscribeStep _ _ u x) as [[a1 s1] r1] eqn:Hu. injection Ho as <- <- <-. by eapply unsubscribe_settings. }
    destruct r as [st'|[]]; injection H as <- <-; by split_and!.
  - destruct (unsubscribeStep _ _ u x) as [[a s] r] eqn:Hu. injection H as <- <-. apply unsubscribe_settings in Hu.
    split_and!; try done. by destruct r.
  - injection H as <- <-. split_and!; try done. apply stale_settings.
  - injection H as <- <-. by split_and!.
  - destruct (connectedStep _ _ st x) as [[a s] r] eqn:Hc. injection H as <- <-.
    assert (E : settings a = settings (adapter w)).
    { destruct st as [|gen|gen|gen topic rest ok e|gen ok|gen]; cbn in Hc; try (by injection Hc as <- <- <-).
      - injection Hc as <- <- <-. apply stale_settings.
      - destruct (ensureStep _ _ topic e x) as [[a1 s1] r1] eqn:He. injection Hc as <- <- <-. by eapply ensure_settings. }
    split_and!; try done. by destruct r.
  - by destruct (Ht calls).
Qed.

(** A world with the same queue, logs and drains. *)
Lemma dispatched_same w w' :
  settings (adapter w') = settings (adapter w) → accepted w' = accepted w → taken w' = taken w → called w' = called w →
  (∀ i calls, threads w' !! i = Some (TDrain calls) ↔ threads w !! i = Some (TDrain calls)) →
  dispatched w → dispatched w'.
Proof.
  intros [= E1 E2 E3 E4 E5] Ea Et Ec Hm [D1 D2 D3 D4 D5 D6]. split; rewrite ?E1, ?E2, ?E3, ?E4, ?Ea, ?Et; try done.
  unfold drained in *. rewrite E5, E3, Ec, Et. destruct (dispatching (adapter w)).
  - destruct D6 as (i & calls & H1 & H2 & H3). exists i, calls. split_and!; [by apply Hm|done|].
    intros j calls' Hj%Hm. by eapply H3.
  - destruct D6 as (H1 & H2 & H3). split_and!; [done|done|]. intros j calls' Hj%Hm. by eapply H3.
Qed.

Lemma drains_after m i t t' j calls :
  m !! i = Some t → (∀ calls, t ≠ TDrain calls) → (∀ calls, t' ≠ Some (TDrain calls)) →
  after m i t' [] !! j = Some (TDrain calls) ↔ m !! j = Some (TDrain calls).
Proof.
  intros Hi Ht Ht'. split.
  - intros [[_ Hj]|[[-> Hj]|[_ []%not_elem_of_nil]]]%after_inv; [done|]. by destruct (Ht' calls).
  - intros Hj. apply after_keeps; [|done]. intros ->. destruct (Ht calls). congruence.
Qed.

Lemma drains_spawn m t j calls :
  (∀ calls, t ≠ TDrain calls) → spawn m t !! j = Some (TDrain calls) ↔ m !! j = Some (TDrain calls).
Proof.
  intros Ht. rewrite spawn_lookup. split; [|by right]. intros [[_ <-]|?]; [by destruct (Ht calls)|done].
Qed.

Lemma callsOf_snoc l p : callsOf (l ++ [p]) = callsOf l ++ map (λ id, (id, p.1.2)) p.2.
Proof. unfold callsOf. rewrite bind_app. cbn. by rewrite app_nil_r. Qed.

#[local] Arguments bytesOf : simpl never.
#[local] Arguments callsOf : simpl never.

Lemma bytesOf_cons p q : bytesOf (p :: q) = len p.2 + bytesOf q.
Proof. done. Qed.

Lemma bytesOf_app q q' : bytesOf (q ++ q') = bytesOf q + bytesOf q'.
Proof. induction q as [|p q IH]; [done|]. cbn [app]. rewrite !bytesOf_cons, IH. lia. Qed.

Lemma bytesOf_nonneg q : 0 ≤ bytesOf q.
Proof. induction q as [|p q IH]; [done|]. rewrite bytesOf_cons. pose proof (len_nonneg p.2). lia. Qed.

(** A step of the drain. *)
Lemma drain_dispatched w i calls x w' t' :
  dispatched w → threads w !! i = Some (TDrain calls) → threadStep w (TDrain calls) x = (w', t') →
  dispatched (w' <| threads ::= (λ m, after m i t' []) |>).
Proof.
  intros [D1 D2 D3 D4 D5 D6] Hi H. unfold drained in D6.
  destruct (dispatching (adapter w)) eqn:Ed; [|by destruct D6 as (_ & _ & Hno); destruct (Hno i calls)].
  destruct D6 as (i0 & calls0 & Hi0 & Hcalls & Huniq). pose proof (Huniq _ _ Hi) as <-.
  assert (calls0 = calls) as -> by congruence.
  assert (Hone : ∀ t' j c, after (threads w) i t' [] !! j = Some (TDrain c) → j = i).
  { intros t1 j c [[Hne Hj]|[[-> Hj]|[_ []%not_elem_of_nil]]]%after_inv; [by eapply Huniq|done]. }
  assert (Hself : ∀ t, after (threads w) i (Some t) [] !! i = Some t) by (intros t; apply lookup_insert_eq).
  cbn in H. destruct calls as [|c rest].
  - unfold drainTake in H. destruct (dispatchQueue (adapter w)) as [|msg q] eqn:Eq; injection H as <- <-.
    + split; cbn; rewrite ?Eq; try done. unfold drained. cbn. rewrite app_nil_r in Hcalls. split_and!; try done.
      intros j c Hj. pose proof (Hone _ _ _ Hj) as ->. unfold after in Hj. cbn in Hj. by rewrite lookup_delete_eq in Hj.
    + rewrite bytesOf_cons in D2. rewrite len_cons in D4. pose proof (len_nonneg msg.2). split; cbn; try done; try lia.
      * rewrite fmap_app. cbn. by rewrite <- (assoc_L (++)).
      * unfold drained. cbn. rewrite Ed. eexists i, _. split_and!; [apply Hself| |by apply Hone].
        rewrite callsOf_snoc. cbn. by rewrite <- Hcalls, app_nil_r.
  - injection H as <- <-. split; cbn; try done. unfold drained. cbn. rewrite Ed. eexists i, rest.
    split_and!; [apply Hself| |by apply Hone]. rewrite <- Hcalls. by rewrite <- (assoc_L (++)).
Qed.

(** A message arrives. *)
Lemma message_dispatched w topic payload : dispatched w → dispatched (exec w (OMessage topic payload)).
Proof.
  intros HD. pose proof HD as [D1 D2 [D3 D3'] D4 D5 D6]. cbn. unfold enqueueDispatch.
  rewrite (proj2 (Z.leb_gt (dispatchQueueMessages (adapter w)) 0)), (proj2 (Z.leb_gt (dispatchQueueBytes (adapter w)) 0)) by done.
  destruct (_ || _) eqn:E; [by eapply dispatched_same|]. apply orb_false_iff in E as [E1 E2]. b2p.
  pose proof (len_nonneg payload). unfold drained in D6. cbn. destruct (dispatching (adapter w)) eqn:Ed; cbn.
  - split; cbn; rewrite ?Ed; try done; try lia.
    + rewrite (assoc_L (++)). by rewrite D1.
    + rewrite bytesOf_app, D2, bytesOf_cons. cbn. unfold bytesOf at 3. cbn. lia.
    + rewrite len_app. cbn in *. unfold len at 2. cbn. lia.
  - destruct D6 as (Hq & Hc & Hno). split; cbn; try done; try lia.
    + rewrite (assoc_L (++)). by rewrite D1.
    + rewrite bytesOf_app, D2, bytesOf_cons. cbn. unfold bytesOf at 3. cbn. lia.
    + rewrite len_app. unfold len at 2. cbn. lia.
    + unfold drained. cbn. eexists _, []. split_and!; [apply spawn_lookup; by left|by rewrite app_nil_r|].
      intros j calls [[-> _]|Hj]%spawn_lookup; [done|]. by destruct (Hno j calls).
Qed.

Lemma exec_dispatched w o : dispatched w → dispatched (exec w o).
Proof.
  intros HD. destruct o as [| | |topic payload|roomID typ|id|i x]; try (by apply message_dispatched); cbn.
  - destruct (up (client w)); [|done]. apply (dispatched_same w); [done..| |done]. intros i c. cbn. by apply drains_spawn.
  - destruct (up (client w)); [done|]. apply (dispatched_same w); [done..| |done]. intros i c. cbn. by apply drains_spawn.
  - by apply (dispatched_same w).
  - unfold subscribe. destruct (_ || _); [done|]. destruct (negb _); [done|].
    apply (dispatched_same w); [done..| |done]. intros i c. cbn. by apply drains_spawn.
  - apply (dispatched_same w); [done..| |done]. intros i c. cbn. by apply drains_spawn.
  - destruct (threads w !! i) as [t|] eqn:Hi; [|done]. destruct (threadStep w t x) as [w' t'] eqn:Hs.
    assert (Hcase : (∃ calls, t = TDrain calls) ∨ ∀ calls, t ≠ TDrain calls) by (destruct t; eauto).
    destruct Hcase as [[calls ->]|Ht]; [by eapply drain_dispatched|].
    destruct (step_settings _ _ _ _ _ Hs Ht) as (E1 & E2 & E3 & E4 & E5 & Ht').
    eapply dispatched_same; [done..| |done]. intros j c. cbn. rewrite E5. by eapply drains_after.
Qed.

(** C32: messages reach the handlers once and in order.  Whatever arrives and whoever
    subscribes meanwhile, the messages the drain has taken and those in the queue are,
    in order, the messages that were accepted; the calls made and those the drain is
    about to make are, in order, one for every handler that a message found when it
    was taken; there is at most one drain, and one whenever messages are queued; and
    the queue stays within both its limits. *)
Theorem mqtt_dispatch (opts : list option_) (a0 : MqttAdapterImpl) (os : list op) :
  NewMQTTAdapter opts = Ok a0 →
  let w := run (start a0) os in
  let a := adapter w in
  (taken w).*1 ++ dispatchQueue a = accepted w ∧
  (∃ pending, called w ++ pending = callsOf (taken w) ∧
     ∀ i calls, threads w !! i = Some (TDrain calls) → calls = pending) ∧
  (∀ i j calls calls', threads w !! i = Some (TDrain calls) → threads w !! j = Some (TDrain calls') → i = j) ∧
  (dispatchQueue a ≠ [] → ∃ i calls, threads w !! i = Some (TDrain calls)) ∧
  len (dispatchQueue a) ≤ dispatchQueueMessages a ∧
  dispatchBytes a = bytesOf (dispatchQueue a) ∧ 0 ≤ dispatchBytes a ≤ dispatchQueueBytes a.
Proof.
  intros (H1 & H2 & _ & _ & _ & _ & H3 & H4 & H5)%NewMQTTAdapter_ok w a.
  assert (HD : dispatched w).
  { unfold w, run. assert (H0 : dispatched (start a0)).
    { split; cbn; rewrite ?H3, ?H4; try done; try lia; [unfold len; cbn; lia|]. unfold drained. cbn. by rewrite H5, H3. }
    revert H0. generalize (start a0). clear. induction os as [|o os IH]; intros w0 H0; [done|]. cbn. by apply IH, exec_dispatched. }
  destruct HD as [D1 D2 D3 D4 D5 D6]. fold a in D1, D2, D4, D5. unfold drained in D6. fold a in D6.
  assert (Hb : 0 ≤ dispatchBytes a) by (rewrite D2; apply bytesOf_nonneg).
  destruct (dispatching a).
  - destruct D6 as (i & calls & Hi & Hcalls & Huniq). split_and!; try done; try lia.
    + exists calls. split; [done|]. intros j c Hj. pose proof (Huniq _ _ Hj) as ->. congruence.
    + intros j j' c c' Hj Hj'. by rewrite (Huniq _ _ Hj), (Huniq _ _ Hj').
    + intros _. by exists i, calls.
  - destruct D6 as (Hq & Hcalls & Hno). split_and!; try done; try lia.
    + exists []. split; [by rewrite app_nil_r|]. intros j c Hj. by destruct (Hno j c).
    + intros j j' c c' Hj. by destruct (Hno j c).
Qed.

(** ** Examples *)

Definition demoAdapter : MqttAdapterImpl :=
  mkAdapter "telekit" 1024 (16 * 2 ^ 20) ∅ ∅ 0 ∅ 0 0 [] 0 false.

Lemma mqtt_demo_new : NewMQTTAdapter [] = Ok demoAdapter.
Proof. reflexivity. Qed.

Definition demoYes : answer := mkAnswer true false.

(** The connection is made, and its callback finds nothing to subscribe. *)
Definition demoConnect : list op := OUp :: repeat (OStep 0 demoYes) 5.

(** A handler subscribes: it joins, sends, the broker answers, and it returns. *)
Definition demoSubscribe : list op :=
  [OSubscribe "room" "offer"] ++ repeat (OStep 0 demoYes) 3 ++ [OProcess] ++ repeat (OStep 0 demoYes) 2.


(** Three messages for two handlers; the third waits. *)
Definition demoMessages : list op :=
  [OSubscribe "room" "offer"] ++ repeat (OStep 0 demoYes) 2
  ++ [OMessage "telekit/room/offer" (bytes_of "one"); OMessage "telekit/room/offer" (bytes_of "two")]
  ++ repeat (OStep 0 demoYes) 3 ++ [OMessage "telekit/room/offer" (bytes_of "three")].

Lemma mqtt_dispatch_witness :
  let w := run (start demoAdapter) (demoConnect ++ demoSubscribe ++ demoMessages) in
  (taken w).*1 ++ dispatchQueue (adapter w) =
    [("telekit/room/offer", bytes_of "one"); ("telekit/room/offer", bytes_of "two"); ("telekit/room/offer", bytes_of "three")]%string.
Proof.
  intros w. destruct (mqtt_dispatch [] demoAdapter (demoConnect ++ demoSubscribe ++ demoMessages) mqtt_demo_new) as [H _].
  fold w in H. rewrite H. vm_compute. reflexivity.
Defined.

(** While an UNSUBSCRIBE is in flight its group is still marked subscribed, so a new
    handler does not wait: it is granted, the UNSUBSCRIBE ends its subscription, and
    nothing subscribes the topic again although the connection is up. *)
Lemma subscribe_during_unsubscribe :
  let w := run (start demoAdapter) (demoConnect ++ demoSubscribe ++
    [OUnsubscribe 1; OStep 0 demoYes; OStep 0 demoYes; OSubscribe "room" "offer"; OStep 1 demoYes; OStep 1 demoYes;
     OStep 0 demoYes; OProcess; OStep 0 demoYes; OStep 0 demoYes]) in
  granted w = [("telekit/room/offer", 1); ("telekit/room/offer", 2)]%string ∧
  subs (adapter w) !! "telekit/room/offer"%string = Some 0%nat ∧
  groups (adapter w) !! 0%nat = Some (mkGroup {[2]} false false 1) ∧
  native (client w) = ∅ ∧ wire (client w) = [] ∧ up (client w) = true ∧ threads w = ∅.
Proof. vm_compute. repeat split. Qed.

(** The callback of a loss that runs after that of the next connection has counted
    cancels the restoration of the subscriptions: nothing is left to do it. *)
Lemma late_loss_cancels_restore :
  let w := run (start demoAdapter) (demoConnect ++ demoSubscribe ++
    [OLose; OUp; OStep 1 demoYes; OStep 1 demoYes; OStep 0 demoYes; OStep 1 demoYes; OStep 0 demoYes]) in
  granted w = [("telekit/room/offer", 1)]%string ∧
  subs (adapter w) !! "telekit/room/offer"%string = Some 0%nat ∧
  groups (adapter w) !! 0%nat = Some (mkGroup {[1]} false false 0) ∧
  native (client w) = ∅ ∧ wire (client w) = [] ∧ up (client w) = true ∧ threads w = ∅.
Proof. vm_compute. repeat split. Qed.

End MqttProofs.
