(* ===== verification/CallbackPool.v ===== *)
(** * CallbackPool.v: the pool of callback workers (src/peer/callback_pool.go)

    Workers take callbacks from a bounded queue; [Submit] never blocks and drops what
    does not fit; [Close] stops the workers and cancels what is left in the queue.  The
    pool is a machine: a step is one of a worker's, of a caller of [Submit], or of the
    caller of [Close], which holds the mutex while it drains the queue and runs the
    cancel functions.  A worker whose select finds both channels ready takes either. *)

From S2P Require Import Prelude.
From Stdlib Require Import ZArith Lia.
From stdpp Require Import base list option numbers.

Local Open Scope Z_scope.
Local Open Scope go_scope.

Module CallbackPool.

(** ** State *)

(** Functions by number; [None] is nil. *)
Record callbackTask := mkTask {
  run : option nat;
  cancel : option nat
}.

Inductive worker := Idle | Running (callback : option nat) | Returned.

(** Where the one execution of the function in [once.Do] is: before it, waiting for the
    mutex, draining, running a cancel function, finished. *)
Inductive closing := NotClosing | Locking | Draining | Cancelling (f : nat) | Closed.

Inductive outcome := Ran | Cancelled.

(** [accepted] and [taken] record what [Submit] accepted and what left the queue. *)
Record CallbackPool := mkPool {
  queue : list callbackTask;
  queueSize : Z;
  stop : bool;
  closed : bool;
  once : closing;
  workers : list worker;
  accepted : list callbackTask;
  taken : list (callbackTask * outcome)
}.

#[export] Instance eta_pool : Eta CallbackPool := fun p =>
  mkPool (queue p) (queueSize p) (stop p) (closed p) (once p) (workers p) (accepted p) (taken p).

Definition NewCallbackPool (workers_ queueSize_ : Z) : CallbackPool :=
  let workers_ := if workers_ <=? 0 then 1 else workers_ in
  let queueSize_ := if queueSize_ <=? 0 then 1 else queueSize_ in
  mkPool [] queueSize_ false false NotClosing (replicate (Z.to_nat workers_) Idle) [] [].

(** ** Operations *)

(** [p.mu] is held by [Close]. *)
Definition locked (p : CallbackPool) : bool :=
  match once p with Draining | Cancelling _ => true | _ => false end.

(** [SubmitWithCancel], when it has the mutex. *)
Definition SubmitWithCancel (p : CallbackPool) (callback cancel_ : option nat) : CallbackPool * bool :=
  if bool_decide (callback = None) then (p, false)
  else if closed p then (p, false)
  else if len (queue p) <? queueSize p then
    let t := mkTask callback cancel_ in
    (p <| queue ::= (λ q, q ++ [t]) |> <| accepted ::= (λ l, l ++ [t]) |>, true)
  else (p, false).

Definition Submit (p : CallbackPool) (callback : option nat) : CallbackPool * bool :=
  SubmitWithCancel p callback None.

Inductive label :=
| LSubmit (callback cancel_ : option nat)
| LTake (i : nat)
| LFinish (i : nat)
| LStop (i : nat)
| LClose
| LLock
| LDrain
| LCancelled
| LUnlock.

Definition setWorker (p : CallbackPool) (i : nat) (w : worker) : CallbackPool := p <| workers ::= <[i := w]> |>.

(** Steps of [run]. *)
Definition workerStep (p : CallbackPool) (i : nat) (l : label) : option CallbackPool :=
  match workers p !! i, l with
  | Some Idle, LStop _ => if stop p then Some (setWorker p i Returned) else None
  | Some Idle, LTake _ =>
      match queue p with
      | [] => None
      | t :: q =>
          let p := p <| queue := q |> <| taken ::= (λ l, l ++ [(t, Ran)]) |> in
          Some (setWorker p i (match run t with Some f => Running (Some f) | None => Idle end))
      end
  | Some (Running _), LFinish _ => Some (setWorker p i Idle)
  | _, _ => None
  end.

(** Steps of [Close]; a caller that does not enter [once.Do] changes nothing. *)
Definition closeStep (p : CallbackPool) (l : label) : option CallbackPool :=
  match once p, l with
  | NotClosing, LClose => Some (p <| once := Locking |>)
  | _, LClose => Some p
  | Locking, LLock => Some (p <| closed := true |> <| stop := true |> <| once := Draining |>)
  | Draining, LDrain =>
      match queue p with
      | [] => None
      | t :: q =>
          let p := p <| queue := q |> <| taken ::= (λ l, l ++ [(t, Cancelled)]) |> in
          Some (match cancel t with Some f => p <| once := Cancelling f |> | None => p end)
      end
  | Cancelling _, LCancelled => Some (p <| once := Draining |>)
  | Draining, LUnlock => match queue p with [] => Some (p <| once := Closed |>) | _ => None end
  | _, _ => None
  end.

Definition step (p : CallbackPool) (l : label) : option CallbackPool :=
  match l with
  | LSubmit f c =>
      if bool_decide (f = None) then Some p
      else if locked p then None else Some (SubmitWithCancel p f c).1
  | LTake i | LFinish i | LStop i => workerStep p i l
  | _ => closeStep p l
  end.

Fixpoint steps (p : CallbackPool) (ls : list label) : option CallbackPool :=
  match ls with
  | [] => Some p
  | l :: ls => p ← step p l; steps p ls
  end.

(** ** Every accepted callback is run or cancelled, once *)

Definition past_lock (c : closing) : bool := match c with NotClosing | Locking => false | _ => true end.

Record pool_ok (n : nat) (cap : Z) (p : CallbackPool) : Prop := {
  ok_fifo : accepted p = (fst <$> taken p) ++ queue p;
  ok_room : len (queue p) ≤ queueSize p;
  ok_size : queueSize p = cap;
  ok_workers : length (workers p) = n;
  ok_stop : stop p = closed p;
  ok_closed : closed p = past_lock (once p);
  ok_drained : once p = Closed → queue p = [];
  ok_cancelled : closed p = false → Forall (λ x, x.2 = Ran) (taken p)
}.

Lemma submit_ok n cap p f c : locked p = false → pool_ok n cap p → pool_ok n cap (SubmitWithCancel p f c).1.
Proof.
  intros Hl Hp. unfold SubmitWithCancel. case_ifs; try done. destruct Hp. split; cbn; try done.
  - rewrite ok_fifo0. by rewrite app_assoc.
  - rewrite len_app. cbn. unfold len in *. cbn. lia.
  - intros Ho. rewrite ok_closed0, Ho in *. done.
Qed.

Lemma worker_ok n cap p i l p' : workerStep p i l = Some p' → pool_ok n cap p → pool_ok n cap p'.
Proof.
  intros H [Hf Hr Hs Hw Hst Hc Hd Hx]. unfold workerStep in H. destruct (workers p !! i) as [[| |]|]; try done;
    destruct l; try done.
  - destruct (queue p) as [|t q] eqn:Eq; [done|]. injection H as <-. split; cbn; try done.
    + by rewrite Hf, fmap_app, <- app_assoc.
    + rewrite len_cons in Hr. lia.
    + by rewrite length_insert.
    + intros Ho. by specialize (Hd Ho).
    + intros Hn. apply Forall_app. split; [by apply Hx|by repeat constructor].
  - destruct (stop p) eqn:Es; [|done]. injection H as <-. split; cbn; try done; by rewrite ?length_insert, ?Es.
  - injection H as <-. split; cbn; try done; by rewrite ?length_insert.
Qed.

Lemma close_ok n cap p l p' : closeStep p l = Some p' → pool_ok n cap p → pool_ok n cap p'.
Proof.
  intros H [Hf Hr Hs Hw Hst Hc Hd Hx]. unfold closeStep in H.
  destruct (once p) as [| | |f|] eqn:Eo; destruct l; simplify_eq; try (split; cbn; rewrite ?Eo in *; done).
  - destruct (queue p) as [|t q] eqn:Eq; [done|]. injection H as <-. cbn in Hc.
    destruct (cancel t); split; cbn; rewrite ?Eo in *; try done; try (by rewrite Hf, fmap_app, <- app_assoc);
      try (rewrite len_cons in Hr; lia); rewrite ?Hc in *; done.
  - destruct (queue p) as [|t q] eqn:Eq; [|done]. injection H as <-. split; cbn; rewrite ?Eo, ?Eq in *; done.
Qed.

Lemma step_ok n cap p l p' : step p l = Some p' → pool_ok n cap p → pool_ok n cap p'.
Proof.
  intros H Hp. destruct l; cbn in H; eauto using worker_ok, close_ok.
  case_bool_decide; [by simplify_eq|]. destruct (locked p) eqn:E; [done|]. injection H as <-. by apply submit_ok.
Qed.

Lemma steps_ok n cap p ls p' : steps p ls = Some p' → pool_ok n cap p → pool_ok n cap p'.
Proof.
  revert p. induction ls as [|l ls IH]; intros p H Hp; cbn in H; [by simplify_eq|].
  destruct (step p l) as [p1|] eqn:E; [|done]. eapply IH; [done|]. by eapply step_ok.
Qed.

Lemma new_ok w n : pool_ok (Z.to_nat (Z.max 1 w)) (Z.max 1 n) (NewCallbackPool w n).
Proof.
  unfold NewCallbackPool. split; cbn; try done; [unfold len; cbn; case_ifs; lia|case_ifs; lia|].
  rewrite length_replicate. case_ifs; lia.
Qed.


(** One worker and room for one: the second callback is dropped while the first waits,
    and [Close] cancels the third. *)
Definition demoRun : list label :=
  [LSubmit (Some 1%nat) None; LSubmit (Some 2%nat) None; LTake 0; LSubmit (Some 3%nat) (Some 4%nat);
   LClose; LLock; LDrain; LFinish 0; LCancelled; LUnlock; LStop 0].

Definition demoPool : CallbackPool :=
  let first := mkTask (Some 1%nat) None in
  let third := mkTask (Some 3%nat) (Some 4%nat) in
  mkPool [] 1 true true Closed [Returned] [first; third] [(first, Ran); (third, Cancelled)].


(** ** The workers end *)

Definition workerWeight (w : worker) : Z := match w with Idle => 1 | Running _ => 2 | Returned => 0 end.
Definition closeWeight (c : closing) : Z := match c with Draining => 1 | Cancelling _ => 2 | _ => 0 end.

Fixpoint workersWeight (l : list worker) : Z :=
  match l with [] => 0 | w :: l => workerWeight w + workersWeight l end.

(** What is left to do once [Close] has the mutex. *)
Definition work (p : CallbackPool) : Z :=
  3 * len (queue p) + workersWeight (workers p) + closeWeight (once p).

(** Calls of [Submit] and more calls of [Close] do nothing then. *)
Definition effective (l : label) : bool := match l with LSubmit _ _ | LClose => false | _ => true end.

Lemma workersWeight_insert l i w w' :
  l !! i = Some w → workersWeight (<[i := w']> l) = workersWeight l - workerWeight w + workerWeight w'.
Proof.
  revert i. induction l as [|x l IH]; intros [|i] H; try done.
  - injection H as ->. cbn. lia.
  - change (<[S i := w']> (x :: l)) with (x :: <[i := w']> l). cbn [workersWeight]. rewrite (IH i H). lia.
Qed.

Lemma workersWeight_nonneg l : 0 ≤ workersWeight l.
Proof. induction l as [|w l IH]; cbn; [lia|]. destruct w; cbn; lia. Qed.

Lemma step_work n cap p l p' :
  pool_ok n cap p → closed p = true → step p l = Some p' →
  closed p' = true ∧ (if effective l then work p' < work p else work p' = work p).
Proof.
  intros [_ _ _ _ _ Hc _ _] Hcl H. rewrite Hcl in Hc. destruct l; cbn in H; unfold workerStep, closeStep in H.
  - unfold SubmitWithCancel in H. rewrite Hcl in H. by repeat case_match; simplify_eq/=.
  - destruct (workers p !! i) as [[| |]|] eqn:E; try done. destruct (queue p) as [|t q] eqn:Eq; [done|].
    injection H as <-. split; [done|]. unfold work. cbn. rewrite (workersWeight_insert _ _ _ _ E), Eq, len_cons.
    destruct (run t); cbn; lia.
  - destruct (workers p !! i) as [[| |]|] eqn:E; try done. injection H as <-. split; [done|]. unfold work. cbn.
    rewrite (workersWeight_insert _ _ _ _ E). cbn. lia.
  - destruct (workers p !! i) as [[| |]|] eqn:E; try done. destruct (stop p); [|done]. injection H as <-.
    split; [done|]. unfold work. cbn. rewrite (workersWeight_insert _ _ _ _ E). cbn. lia.
  - destruct (once p) eqn:Eo; try done; by simplify_eq.
  - by destruct (once p).
  - destruct (once p) eqn:Eo; try done. destruct (queue p) as [|t q] eqn:Eq; [done|].
    injection H as <-. unfold work. rewrite Eq, Eo, len_cons.
    destruct (cancel t); cbn; rewrite ?Eo; cbn; (split; [done|lia]).
  - destruct (once p) eqn:Eo; try done. injection H as <-. split; [done|].
    unfold work. cbn. rewrite Eo. cbn. lia.
  - destruct (once p) eqn:Eo; try done. destruct (queue p) eqn:Eq; [|done].
    injection H as <-. split; [done|]. unfold work. cbn. rewrite Eq, Eo. cbn. lia.
Qed.

Lemma worker_progress n cap p i w :
  pool_ok n cap p → closed p = true → workers p !! i = Some w → w ≠ Returned →
  ∃ l, effective l = true ∧ is_Some (step p l).
Proof.
  intros Hp Hc Hi Hw. pose proof (ok_stop _ _ _ Hp) as Hs. destruct w; [exists (LStop i)|exists (LFinish i)|done];
    unfold step, workerStep; rewrite Hi, ?Hs, ?Hc; by eauto.
Qed.

(** While there is work, a step is possible. *)
Lemma work_progress n cap p :
  pool_ok n cap p → closed p = true → 0 < work p → ∃ l, effective l = true ∧ is_Some (step p l).
Proof.
  intros Hp Hc Hw. pose proof (ok_closed _ _ _ Hp) as Ho. rewrite Hc in Ho.
  destruct (once p) as [| | |f|] eqn:Eo; try done.
  - destruct (queue p) as [|t q] eqn:Eq; [exists LUnlock|exists LDrain]; unfold step, closeStep; rewrite Eo, Eq;
      (split; [done|by eauto]).
  - exists LCancelled. unfold step, closeStep. rewrite Eo. by eauto.
  - unfold work in Hw. rewrite Eo, (ok_drained _ _ _ Hp Eo) in Hw. cbn [closeWeight] in Hw.
    destruct (decide (Forall (λ w, workerWeight w = 0) (workers p))) as [HF|HF].
    + assert (workersWeight (workers p) = 0) as Hz; [|change (len (A := callbackTask) []) with 0 in Hw; lia].
      clear -HF. induction HF as [|w l Hw _ IH]; cbn; [done|]. by rewrite Hw, IH.
    + apply not_Forall_Exists in HF; [|apply _]. apply list.Exists_exists in HF as (w & Hin & Hne).
      apply list_elem_of_lookup in Hin as [i Hi]. apply (worker_progress n cap p i w); try done.
      intros ->. by apply Hne.
Qed.

Lemma work_nonneg p : 0 ≤ work p.
Proof.
  unfold work. pose proof (workersWeight_nonneg (workers p)). pose proof (len_nonneg (queue p)).
  destruct (once p); cbn; lia.
Qed.

Lemma steps_work n cap p ls p' :
  pool_ok n cap p → closed p = true → steps p ls = Some p' →
  closed p' = true ∧ work p' + len (filter (λ l, effective l = true) ls) ≤ work p.
Proof.
  revert p. induction ls as [|l ls IH]; intros p Hp Hc H; cbn in H;
    [simplify_eq; split; [done|]; change (len (A := label) _) with 0; lia|].
  destruct (step p l) as [p1|] eqn:E; [|done]. destruct (step_work _ _ _ _ _ Hp Hc E) as [Hc1 Hw].
  destruct (IH p1) as [? Hr]; [by eapply step_ok|done..|]. split; [done|]. rewrite filter_cons.
  revert Hw. destruct (effective l); intros Hw;
    [rewrite decide_True by done; rewrite len_cons; lia|rewrite decide_False by done; lia].
Qed.

(** Once [Close] has the mutex, the workers and [Close] come to rest: there is a
    bound on the steps that are left, as long as it is positive one of them can be taken,
    and when it is 0 [Close] has returned and all workers have. *)
Theorem callback_workers_end w n ls p :
  steps (NewCallbackPool w n) ls = Some p → closed p = true →
  (∀ ls' p', steps p ls' = Some p' →
     closed p' = true ∧ work p' + len (filter (λ l, effective l = true) ls') ≤ work p)
  ∧ (0 < work p → ∃ l, effective l = true ∧ is_Some (step p l))
  ∧ (work p = 0 → once p = Closed ∧ Forall (λ w, w = Returned) (workers p)).
Proof.
  intros H Hc. pose proof (steps_ok _ _ _ _ _ H (new_ok w n)) as Hp.
  split; [intros; by eapply steps_work|]. split; [by eapply work_progress|].
  intros Hw. unfold work in Hw. pose proof (workersWeight_nonneg (workers p)). pose proof (len_nonneg (queue p)).
  pose proof (ok_closed _ _ _ Hp) as Ho. rewrite Hc in Ho. split; [destruct (once p); cbn in *; lia || done|].
  assert (workersWeight (workers p) = 0) as Hz by (destruct (once p); cbn in *; lia).
  clear -Hz. induction (workers p) as [|x l IH]; [done|]. cbn in Hz. pose proof (workersWeight_nonneg l).
  constructor; [destruct x; cbn in Hz; lia || done|]. apply IH. destruct x; cbn in Hz; lia.
Qed.

Lemma callback_workers_end_witness :
  let p := demoPool in
  (∀ ls' p', steps p ls' = Some p' →
     closed p' = true ∧ work p' + len (filter (λ l, effective l = true) ls') ≤ work p)
  ∧ (0 < work p → ∃ l, effective l = true ∧ is_Some (step p l))
  ∧ (work p = 0 → once p = Closed ∧ Forall (λ w, w = Returned) (workers p)).
Proof. apply (callback_workers_end 1 1 demoRun demoPool); vm_compute; reflexivity. Defined.

End CallbackPool.
