(* ===== verification/NetAddr.v ===== *)
(** * NetAddr.v: network addresses as text
    (src/peer/addr.go, and the parts of Go's packages net and strconv it uses)

    IP addresses and ports are printed and parsed as Go does it; a Telekit address is
    made of a room, a peer, and the host and port of a transport address. *)

From S2P Require Import Prelude GoString Relay.
From Stdlib Require Import ZArith Lia String Ascii.
From stdpp Require Import base list option strings numbers.

Local Open Scope Z_scope.
Local Open Scope go_scope.

Module NetAddr.

(** ** strconv *)

Definition digit (d : Z) : ascii := ascii_of_N (Z.to_N (48 + d)).

(** Decimal digits of a number of at most [fuel] digits, in front of [acc]. *)
Fixpoint itoaAux (fuel : nat) (z : Z) (acc : string) : string :=
  match fuel with
  | O => acc
  | S fuel =>
      let acc := String (digit (z mod 10)) acc in
      if z <? 10 then acc else itoaAux fuel (z / 10) acc
  end.

Definition Itoa (z : Z) : string :=
  if z <? 0 then String "-" (itoaAux 19 (- z) EmptyString) else itoaAux 19 z EmptyString.

Fixpoint parseDigits (s : string) (acc : Z) : option Z :=
  match s with
  | EmptyString => Some acc
  | String c s =>
      let d := Z.of_N (N_of_ascii c) - 48 in
      if (d <? 0) || (9 <? d) then None else parseDigits s (acc * 10 + d)
  end.

Definition Atoi (s : string) : result Z :=
  let '(negative, digits) :=
    match s with
    | EmptyString => (false, s)
    | String c rest =>
        if Ascii.eqb c "-" then (true, rest) else if Ascii.eqb c "+" then (false, rest) else (false, s)
    end in
  match digits with
  | EmptyString => Err "invalid syntax"
  | _ =>
      match parseDigits digits 0 with
      | None => Err "invalid syntax"
      | Some v =>
          let v := if (negative : bool) then - v else v in
          if (v <? - 2 ^ 63) || (2 ^ 63 <=? v) then Err "value out of range" else Ok v
      end
  end.

(** ** net *)

Definition hexDigit (d : Z) : ascii :=
  if d <? 10 then digit d else ascii_of_N (Z.to_N (87 + d)).

(** A group of an IPv6 address: no leading zeros. *)
Definition hexGroup (v : Z) : string :=
  let d k := hexDigit (v / 16 ^ k mod 16) in
  if 4096 <=? v then String (d 3) (String (d 2) (String (d 1) (String (d 0) EmptyString)))
  else if 256 <=? v then String (d 2) (String (d 1) (String (d 0) EmptyString))
  else if 16 <=? v then String (d 1) (String (d 0) EmptyString)
  else String (d 0) EmptyString.

Definition groups (ip : list byte) : list Z :=
  (λ i, be_decode (take 2 (drop (2 * i) ip))) <$> seq 0 8.

(** The length of the run of zeros at the start. *)
Fixpoint zeros (l : list Z) : nat :=
  match l with
  | v :: l => if v =? 0 then S (zeros l) else O
  | [] => O
  end.

(** The first longest run of at least two zero groups: its start and end, or 255. *)
Definition zeroRun (g : list Z) : nat * nat :=
  foldl (λ '(s, e) i, let l := zeros (drop i g) in
           if (2 <=? l)%nat && (e - s <? l)%nat then (i, (i + l)%nat) else (s, e)) (255, 255)%nat (seq 0 8).

Fixpoint groupString (fuel i : nat) (g : list Z) (run : nat * nat) : string :=
  match fuel with
  | O => EmptyString
  | S fuel =>
      if (8 <=? i)%nat then EmptyString
      else if (i =? run.1)%nat then
        "::" +:+ (if (8 <=? run.2)%nat then EmptyString
                  else hexGroup (default 0 (g !! run.2)) +:+ groupString fuel (S run.2) g run)
      else (if (i =? 0)%nat then EmptyString else ":") +:+ hexGroup (default 0 (g !! i)) +:+ groupString fuel (S i) g run
  end.

Definition dotted (ip : list byte) : string :=
  match byte_val <$> ip with
  | [a; b; c; d] => Itoa a +:+ "." +:+ Itoa b +:+ "." +:+ Itoa c +:+ "." +:+ Itoa d
  | _ => EmptyString
  end.

Fixpoint hexString (l : list byte) : string :=
  match l with
  | [] => EmptyString
  | b :: l => String (hexDigit (byte_val b / 16)) (String (hexDigit (byte_val b mod 16)) (hexString l))
  end.

(** [net.IP.String]. *)
Definition ipString (ip : Relay.IP) : string :=
  if len ip =? 0 then "<nil>"
  else if negb (len ip =? 4) && negb (len ip =? 16) then "?" +:+ hexString ip
  else match Relay.To4 ip with
  | Some v4 => dotted v4
  | None => let g := groups ip in groupString 9 0 g (zeroRun g)
  end.

Definition JoinHostPort (host port : string) : string :=
  if GoString.contains host ":" then "[" +:+ host +:+ "]:" +:+ port else host +:+ ":" +:+ port.

(** ** Telekit addresses *)

Record Addr := mkAddr {
  RoomID : string;
  PeerID : string;
  IP : string;
  Port : Z
}.

#[export] Instance eta_addr : Eta Addr := fun a => mkAddr (RoomID a) (PeerID a) (IP a) (Port a).

Definition addrString (a : Addr) : string :=
  let identity := if bool_decide (PeerID a = EmptyString) then RoomID a else RoomID a +:+ "/" +:+ PeerID a in
  if bool_decide (IP a = EmptyString) && (Port a =? 0) then identity
  else identity +:+ "@" +:+ JoinHostPort (IP a) (Itoa (Port a)).

(** The values of [net.Addr] the code tells apart; [None] is a nil pointer. *)
Inductive NetAddress :=
| UDP (a : option Relay.UDPAddr)
| TCP (a : option Relay.UDPAddr)
| IPOnly (ip : option Relay.IP)
| Other (text : string).

Definition AddrFromNet (roomID peerID : string) (address : option NetAddress) : Addr :=
  let result := mkAddr roomID peerID EmptyString 0 in
  match address with
  | None => result
  | Some (UDP (Some a)) | Some (TCP (Some a)) =>
      result <| IP := ipString (Relay.addrIP a) |> <| Port := Relay.addrPort a |>
  | Some (IPOnly (Some ip)) => result <| IP := ipString ip |>
  | Some (UDP None) | Some (TCP None) | Some (IPOnly None) => result
  | Some (Other text) =>
      match GoString.SplitHostPort text with
      | Err _ => result
      | Ok (host, port) =>
          match Atoi port with
          | Err _ => result
          | Ok parsed => result <| IP := host |> <| Port := parsed |>
          end
      end
  end.

(** ** Printing and parsing agree *)

Lemma digit_val d : 0 ≤ d < 10 → Z.of_N (N_of_ascii (digit d)) - 48 = d.
Proof. intros Hd. unfold digit. rewrite N_ascii_embedding by lia. lia. Qed.

Lemma parse_itoaAux fuel z acc :
  0 ≤ z < 10 ^ Z.of_nat fuel → (0 < fuel)%nat → parseDigits (itoaAux fuel z acc) 0 = parseDigits acc z.
Proof.
  revert z acc. induction fuel as [|fuel IH]; intros z acc Hz Hf; [lia|]. cbn [itoaAux].
  pose proof (Z.mod_pos_bound z 10 ltac:(lia)) as Hm.
  assert (∀ v, parseDigits (String (digit (z mod 10)) acc) v = parseDigits acc (v * 10 + z mod 10)) as Hd.
  { intros v. cbn [parseDigits]. rewrite digit_val by lia. case_if as E; [|done].
    apply orb_true_iff in E as [E|E]; b2p; lia. }
  case_if as E.
  - rewrite Hd. by rewrite Z.mod_small by lia.
  - assert (0 < fuel)%nat as Hf' by (destruct fuel; [cbn in Hz; lia|lia]).
    rewrite IH; [|split; [apply Z.div_pos; lia|]|done].
    + rewrite Hd. f_equal. pose proof (Z.div_mod z 10). lia.
    + apply Z.div_lt_upper_bound; [lia|]. rewrite Nat2Z.inj_succ, Z.pow_succ_r in Hz by lia. lia.
Qed.

Definition isDigit (c : ascii) : bool := let d := Z.of_N (N_of_ascii c) - 48 in negb ((d <? 0) || (9 <? d)).

Lemma itoaAux_digits fuel z acc :
  0 ≤ z → GoString.all isDigit acc = true → GoString.all isDigit (itoaAux fuel z acc) = true.
Proof.
  revert z acc. induction fuel as [|fuel IH]; intros z acc Hz Ha; [done|]. cbn [itoaAux].
  pose proof (Z.mod_pos_bound z 10 ltac:(lia)) as Hm.
  assert (GoString.all isDigit (String (digit (z mod 10)) acc) = true) as Hd.
  { cbn. rewrite Ha, andb_true_r. unfold isDigit. rewrite digit_val by lia. apply negb_true_iff, orb_false_iff. lia. }
  case_if as E; [done|]. apply IH; [apply Z.div_pos; lia|done].
Qed.

Lemma itoaAux_cons fuel z acc : (0 < fuel)%nat → ∃ c s, itoaAux fuel z acc = String c s.
Proof.
  revert z acc. induction fuel as [|fuel IH]; intros z acc Hf; [lia|]. cbn [itoaAux].
  case_if as E; [by do 2 eexists|]. destruct fuel; [by do 2 eexists|apply IH; lia].
Qed.

(** [Atoi] is a left inverse of [Itoa]. *)
Lemma Atoi_Itoa z : in_i64 z → Atoi (Itoa z) = Ok z.
Proof.
  intros Hz. unfold in_i64 in Hz.
  assert (∀ v, 0 ≤ v ≤ 2 ^ 63 → parseDigits (itoaAux 19 v EmptyString) 0 = Some v) as Hp.
  { intros v Hv. rewrite parse_itoaAux; [done| |lia]. change (10 ^ Z.of_nat 19) with 10000000000000000000. lia. }
  unfold Atoi, Itoa. destruct (z <? 0) eqn:E; b2p.
  - destruct (itoaAux_cons 19 (- z) EmptyString) as (c & s & Hc); [lia|].
    specialize (Hp (- z) ltac:(lia)). rewrite Hc in *. rewrite Ascii.eqb_refl, Hp.
    case_if as E1; [apply orb_true_iff in E1 as [E1|E1]; b2p; lia|]. f_equal. lia.
  - destruct (itoaAux_cons 19 z EmptyString) as (c & s & Hc); [lia|].
    pose proof (itoaAux_digits 19 z EmptyString ltac:(lia) eq_refl) as Hd. specialize (Hp z ltac:(lia)).
    rewrite Hc in *. cbn [GoString.all] in Hd. apply andb_true_iff in Hd as [Hd _].
    destruct (Ascii.eqb_spec c "-") as [->|_]; [done|]. destruct (Ascii.eqb_spec c "+") as [->|_]; [done|].
    rewrite Hp. case_if as E1; [apply orb_true_iff in E1 as [E1|E1]; b2p; lia|done].
Qed.

Lemma all_contains f c s : f c = false → GoString.all f s = true → GoString.contains s c = false.
Proof.
  intros Hf Ha. unfold GoString.contains. apply negb_false_iff. revert Ha. apply GoString.all_impl. intros x Hx.
  apply negb_true_iff. destruct (Ascii.eqb_spec x c) as [->|]; [congruence|done].
Qed.

(** The text of a number has digits and at most a minus sign. *)
Lemma Itoa_chars z c : in_i64 z → isDigit c || Ascii.eqb c "-" = false → GoString.contains (Itoa z) c = false.
Proof.
  intros Hz [Hd Hm]%orb_false_iff. apply (all_contains (λ x, isDigit x || Ascii.eqb x "-")); [by rewrite Hd, Hm|].
  unfold Itoa. assert (∀ v, 0 ≤ v → GoString.all (λ x, isDigit x || Ascii.eqb x "-") (itoaAux 19 v EmptyString) = true) as Ha.
  { intros v Hv. apply (GoString.all_impl isDigit); [by intros x ->|]. by apply itoaAux_digits. }
  case_if as E; [|by apply Ha]. cbn [GoString.all]. rewrite Ha by lia. done.
Qed.

Lemma contains_cons x s c : GoString.contains (String x s) c = Ascii.eqb x c || GoString.contains s c.
Proof. unfold GoString.contains. cbn. by rewrite negb_andb, negb_involutive. Qed.

Lemma contains_app s t c : GoString.contains (s +:+ t) c = GoString.contains s c || GoString.contains t c.
Proof. unfold GoString.contains. by rewrite GoString.all_app, negb_andb. Qed.

Lemma cutLast_none s c : GoString.contains s c = false → GoString.cutLast s c = None.
Proof.
  induction s as [|x s IH]; [done|]. rewrite contains_cons. intros [Hx Hs]%orb_false_iff. cbn. by rewrite IH, Hx.
Qed.

Lemma cutLast_app s t c : GoString.contains t c = false → GoString.cutLast (s +:+ String c t) c = Some (s, t).
Proof.
  intros Ht. induction s as [|x s IH].
  - change (EmptyString +:+ String c t) with (String c t). cbn [GoString.cutLast].
    by rewrite cutLast_none, Ascii.eqb_refl.
  - change ((String x s) +:+ String c t) with (String x (s +:+ String c t)). cbn [GoString.cutLast]. by rewrite IH.
Qed.

Lemma cut_app s t c : GoString.contains s c = false → GoString.cut (s +:+ String c t) c = Some (s, t).
Proof.
  induction s as [|x s IH]; [intros _|].
  { change (EmptyString +:+ String c t) with (String c t). cbn [GoString.cut]. by rewrite Ascii.eqb_refl. }
  rewrite contains_cons. intros [Hx Hs]%orb_false_iff.
  change ((String x s) +:+ String c t) with (String x (s +:+ String c t)). cbn [GoString.cut]. by rewrite Hx, IH.
Qed.

Lemma string_app_assoc (a b c : string) : (a +:+ b) +:+ c = a +:+ (b +:+ c).
Proof.
  induction a as [|x a IH]; [done|].
  change ((String x a +:+ b) +:+ c) with (String x ((a +:+ b) +:+ c)). by rewrite IH.
Qed.

(** [SplitHostPort] takes apart what [JoinHostPort] put together, IPv6 addresses
    included. *)
Lemma SplitHostPort_Join host port :
  GoString.contains host "[" = false → GoString.contains host "]" = false →
  GoString.contains port ":" = false → GoString.contains port "[" = false → GoString.contains port "]" = false →
  GoString.SplitHostPort (JoinHostPort host port) = Ok (host, port).
Proof.
  intros H1 H2 P0 P1 P2. unfold GoString.SplitHostPort, JoinHostPort. destruct (GoString.contains host ":") eqn:E.
  - replace ("[" +:+ host +:+ "]:" +:+ port) with (("[" +:+ host +:+ "]") +:+ String ":" port)
      by (by rewrite !string_app_assoc).
    rewrite cutLast_app, P1, P2 by done. cbn [orb].
    change ("[" +:+ host +:+ "]") with (String "[" (host +:+ "]")). cbv iota.
    change "]"%string with (String "]" EmptyString). rewrite cut_app by done.
    case_bool_decide; [|done]. cbn [negb]. by rewrite H1.
  - change (":" +:+ port) with (String ":" port). rewrite cutLast_app, P1, P2 by done. cbn [orb]. rewrite E, H1, H2.
    destruct host as [|x host]; [done|]. rewrite contains_cons in H1. apply orb_false_iff in H1 as [H1 _].
    destruct x as [[] [] [] [] [] [] [] []]; try done.
Qed.

(** An address of any other network, printed as host and port, gives a Telekit
    address with that host and port; also when the host is an IPv6 address. *)
Theorem addr_roundtrip room peer host port :
  GoString.contains host "[" = false → GoString.contains host "]" = false → in_i64 port →
  AddrFromNet room peer (Some (Other (JoinHostPort host (Itoa port)))) = mkAddr room peer host port.
Proof.
  intros H1 H2 Hp. cbn [AddrFromNet]. rewrite SplitHostPort_Join; try done; try (by apply Itoa_chars).
  by rewrite Atoi_Itoa.
Qed.

Lemma addr_roundtrip_witness :
  ipString (replicate 15 (byte_of 0) ++ [byte_of 1]) = "::1"%string
  ∧ ipString (bytes_of "abcd") = "97.98.99.100"%string
  ∧ AddrFromNet "room" "peer" (Some (Other (JoinHostPort "2001:db8::1" (Itoa 443)))) = mkAddr "room" "peer" "2001:db8::1" 443.
Proof.
  split; [vm_compute; reflexivity|]. split; [vm_compute; reflexivity|].
  apply (addr_roundtrip "room" "peer" "2001:db8::1" 443); [reflexivity|reflexivity|unfold in_i64; lia].
Defined.

(** Zero groups are abbreviated once, the longest run first. *)
Example ipString_samples :
  ipString (replicate 16 (byte_of 0)) = "::"%string
  ∧ ipString (be_encode 16 0x20010db8000000000001000000000001) = "2001:db8::1:0:0:1"%string
  ∧ ipString (be_encode 16 0x00010000000200000000000000030000) = "1:0:2::3:0"%string
  ∧ ipString (be_encode 16 0xffff) = "::ffff"%string
  ∧ ipString [] = "<nil>"%string.
Proof. vm_compute. by repeat split. Qed.

End NetAddr.
