(* ===== verification/Framing.v ===== *)
(** * Framing.v: packets over streams in the examples
    (src/example/p2proxy/protocol/udp.go, src/example/p2pdns/common/packet.go)

    UDP packets travel over a stream in the framing of Hev's tun2socks: the length of
    the data, the length of a header, an address, the data.  DNS packets have a length
    in front.  A reader is the bytes it will return and then end of file; [None] is a
    panic (a slice or index out of range). *)

From S2P Require Import Prelude Mux MuxProofs Relay NetAddr.
From Stdlib Require Import ZArith Lia String.
From stdpp Require Import base list option strings numbers.

Local Open Scope Z_scope.
Local Open Scope go_scope.

Module Framing.

(** [io.ReadFull] of [n] bytes: the bytes and the rest of the input. *)
Definition readFull (n : Z) (l : list byte) : result (list byte * list byte) :=
  if n <=? len l then Ok (take (Z.to_nat n) l, drop (Z.to_nat n) l)
  else Err (if len l =? 0 then "EOF" else "unexpected EOF").

(** [l[i:j]]. *)
Definition slice (l : list byte) (i j : Z) : option (list byte) :=
  if (0 <=? i) && (i <=? j) && (j <=? len l) then Some (take (Z.to_nat (j - i)) (drop (Z.to_nat i) l)) else None.

(** [binary.BigEndian.Uint16(l[i:])]. *)
Definition uint16At (l : list byte) (i : Z) : option Z := be_decode <$> slice l i (i + 2).

(** ** UDP packets *)

Definition decodeUDPAddress (address : list byte) : option (result string) :=
  if len address <? 2 then Some (Err "invalid Hev UDP address")
  else
    typ ← slice_get address 0;
    let typ := byte_val typ in
    let finish host portOffset :=
      port ← uint16At address portOffset;
      Some (Ok (NetAddr.JoinHostPort host (NetAddr.Itoa port))) in
    if typ =? 1 then
      if negb (len address =? 7) then Some (Err "invalid Hev IPv4 address")
      else ip ← slice address 1 5; finish (NetAddr.ipString ip) 5
    else if typ =? 4 then
      if negb (len address =? 19) then Some (Err "invalid Hev IPv6 address")
      else ip ← slice address 1 17; finish (NetAddr.ipString ip) 17
    else if typ =? 3 then
      nameLen ← slice_get address 1;
      let nameLen := byte_val nameLen in
      if negb (len address =? 4 + nameLen) then Some (Err "invalid Hev domain address")
      else name ← slice address 2 (2 + nameLen); finish (String.string_of_list_byte name) (2 + nameLen)
    else Some (Err "unsupported Hev UDP address type").

(** The values returned, and what the reader still holds (nothing after an error of
    [io.ReadFull]). *)
Definition ReadUDPFrame (reader : list byte) : option (result (string * list byte) * list byte) :=
  match readFull 5 reader with
  | Err e => Some (Err e, [])
  | Ok (header, reader) =>
      dataLen ← uint16At header 0;
      b ← slice_get header 2;
      let addressLen := byte_val b - 3 in
      if (addressLen <? 2) || (263 <? addressLen) then Some (Err "invalid Hev UDP address length", reader)
      else match readFull (addressLen - 2 + dataLen) reader with
      | Err e => Some (Err e, [])
      | Ok (body, reader) =>
          first ← slice header 3 5;
          rest ← slice body 0 (addressLen - 2);
          payload ← slice body (addressLen - 2) (len body);
          r ← decodeUDPAddress (first ++ rest);
          Some (target ← r; Ok (target, payload), reader)
      end
  end.

(** The frame [WriteUDPFrame] hands to [writeFrameFull]. *)
Definition udpFrame (addr : Relay.UDPAddr) (payload : list byte) : result (list byte) :=
  let port := be_encode 2 (u16 (Relay.addrPort addr)) in
  address ← match Relay.To4 (Relay.addrIP addr) with
            | Some ip => Ok (byte_of 1 :: ip ++ port)
            | None =>
                match Relay.To16 (Relay.addrIP addr) with
                | Some ip => Ok (byte_of 4 :: ip ++ port)
                | None => Err "UDP response has no IP address"
                end
            end;
  _ ← guard_err (65535 <? len payload) "UDP payload is too large";
  Ok (be_encode 2 (u16 (len payload)) ++ byte_of (u8 (3 + len address)) :: address ++ payload).

Definition writeFrameFull : list (nat * bool) → list byte → list byte * option string * list (nat * bool) :=
  Mux.writeFull.

(** The bytes the writer took, and the error. *)
Definition WriteUDPFrame (outs : list (nat * bool)) (addr : Relay.UDPAddr) (payload : list byte)
  : list byte * option string :=
  match udpFrame addr payload with
  | Err e => ([], Some e)
  | Ok frame => let '(taken, e, _) := writeFrameFull outs frame in (taken, e)
  end.

(** ** DNS packets *)

Definition MaxDNSPacketSize : Z := Z.shiftl 64 10.

Definition ReadDNSPacket (conn : list byte) : result (list byte * list byte) :=
  '(header, conn) ← readFull 4 conn;
  let length_ := be_decode header in
  _ ← guard_err ((length_ =? 0) || (MaxDNSPacketSize <? length_)) "invalid DNS packet length";
  readFull length_ conn.

(** The loop of [WriteDNSPacket] tests the error before it counts the bytes; the bytes
    taken are the same. *)
Definition WriteDNSPacket (outs : list (nat * bool)) (packet : list byte) : list byte * option string :=
  if (len packet =? 0) || (MaxDNSPacketSize <? len packet) then ([], Some "invalid DNS packet length"%string)
  else let '(taken, e, _) := Mux.writeFull outs (be_encode 4 (u32 (len packet)) ++ packet) in (taken, e).

(** ** Reading *)

Lemma slice_ok l i j :
  0 ≤ i ≤ j → j ≤ len l → slice l i j = Some (take (Z.to_nat (j - i)) (drop (Z.to_nat i) l)).
Proof. intros H1 H2. unfold slice. case_if as E; [done|]. lia. Qed.

Lemma slice_app a b c i j :
  i = len a → j = len a + len b → slice (a ++ b ++ c) i j = Some b.
Proof.
  intros -> ->. pose proof (len_nonneg a). pose proof (len_nonneg b). pose proof (len_nonneg c).
  rewrite slice_ok by (rewrite ?len_app; lia). unfold len. f_equal.
  rewrite drop_app_length' by lia. apply take_app_length'. lia.
Qed.

Lemma readFull_app a b : readFull (len a) (a ++ b) = Ok (a, b).
Proof.
  unfold readFull. pose proof (len_nonneg b). case_if as E; [|rewrite len_app in E; lia].
  unfold len. by rewrite Nat2Z.id, take_app_length, drop_app_length.
Qed.

Lemma readFull_inv n l a b : 0 ≤ n → readFull n l = Ok (a, b) → l = a ++ b ∧ len a = n.
Proof.
  intros Hn. unfold readFull. case_if as E; [|done]. intros [= <- <-]. split; [by rewrite take_drop|].
  unfold len in *. rewrite length_take. lia.
Qed.

Lemma readFull_short n l : len l < n → ∃ e, readFull n l = Err e.
Proof. intros H. unfold readFull. case_if as E; [lia|eauto]. Qed.

Lemma uint16At_app a b c i : i = len a → length b = 2%nat → uint16At (a ++ b ++ c) i = Some (be_decode b).
Proof. intros -> Hb. unfold uint16At. rewrite (slice_app a b c); [done|done|]. unfold len. lia. Qed.

Lemma byte_of_small z : 0 ≤ z < 256 → byte_val (byte_of z) = z.
Proof. intros Hz. rewrite byte_val_of. apply Z.mod_small. lia. Qed.

(** The length of an address fits its type. *)
Definition addressOk (address : list byte) : Prop :=
  ∃ t r, address = t :: r ∧
    (byte_val t = 1 ∧ len address = 7 ∨ byte_val t = 4 ∧ len address = 19
     ∨ byte_val t = 3 ∧ ∃ n r', r = n :: r' ∧ len address = 4 + byte_val n).

(** Decoding never panics, and succeeds on these. *)
Lemma decodeUDPAddress_total address :
  ∃ r, decodeUDPAddress address = Some r ∧ (is_ok r = true ↔ addressOk address).
Proof.
  unfold decodeUDPAddress. assert (∀ i, 0 ≤ i → i + 2 ≤ len address → ∃ v, uint16At address i = Some v) as Hport.
  { intros i H1 H2. unfold uint16At. rewrite slice_ok by lia. cbn. eauto. }
  destruct (len address <? 2) eqn:E; b2p.
  { eexists. split; [done|]. split; [done|]. intros (t & r & -> & H). exfalso. rewrite len_cons in *.
    destruct H as [[_ H]|[[_ H]|(_ & n & r' & -> & H)]]; [lia..|]. pose proof (byte_val_range n). rewrite len_cons in *. lia. }
  destruct address as [|t [|n r]]; [by cbn in E|by cbn in E|]. set (a := t :: n :: r) in *.
  change (slice_get a 0) with (Some t). change (slice_get a 1) with (Some n). cbn [mbind option_bind].
  pose proof (byte_val_range n) as Hn.
  assert (addressOk a ↔ byte_val t = 1 ∧ len a = 7 ∨ byte_val t = 4 ∧ len a = 19 ∨ byte_val t = 3 ∧ len a = 4 + byte_val n) as Hok.
  { unfold addressOk. split.
    - intros (t' & r' & Ha & H). subst a. simplify_eq. destruct H as [?|[?|(? & ? & ? & ? & ?)]]; simplify_eq; auto.
    - intros H. exists t, (n :: r). split; [done|]. destruct H as [?|[?|[? ?]]]; eauto 10. }
  setoid_rewrite Hok. clear Hok.
  destruct (byte_val t =? 1) eqn:E1; b2p; [|destruct (byte_val t =? 4) eqn:E4; b2p;
    [|destruct (byte_val t =? 3) eqn:E3; b2p; [|eexists; split; [done|]; cbn; lia]]].
  - destruct (len a =? 7) eqn:El; b2p; cbn [negb]; [|eexists; split; [done|]; cbn; lia].
    rewrite slice_ok by lia. cbn [mbind option_bind]. destruct (Hport 5) as [v ->]; [lia..|]. eexists. split; [done|]. cbn. tauto.
  - destruct (len a =? 19) eqn:El; b2p; cbn [negb]; [|eexists; split; [done|]; cbn; lia].
    rewrite slice_ok by lia. cbn [mbind option_bind]. destruct (Hport 17) as [v ->]; [lia..|]. eexists. split; [done|]. cbn. tauto.
  - destruct (len a =? 4 + byte_val n) eqn:El; b2p; cbn [negb]; [|eexists; split; [done|]; cbn; lia].
    rewrite slice_ok by lia. cbn [mbind option_bind]. destruct (Hport (2 + byte_val n)) as [v ->]; [lia..|].
    eexists. split; [done|]. cbn. tauto.
Qed.

(** A frame with the address in its encoded form. *)
Definition frameOf (address payload : list byte) : list byte :=
  be_encode 2 (len payload) ++ byte_of (3 + len address) :: address ++ payload.

(** A well-formed frame is taken apart, whatever follows it. *)
Lemma ReadUDPFrame_frame address payload rest :
  2 ≤ len address ≤ 252 → len payload ≤ 65535 →
  ReadUDPFrame (frameOf address payload ++ rest) =
  r ← decodeUDPAddress address; Some (target ← r; Ok (target, payload), rest).
Proof.
  intros Ha Hp. pose proof (len_nonneg payload) as Hp0.
  destruct address as [|a0 [|a1 a]]; [unfold len in Ha; cbn in Ha; lia..|]. rewrite !len_cons in Ha. pose proof (len_nonneg a) as Ha0.
  unfold frameOf, ReadUDPFrame. rewrite !len_cons. set (b := byte_of (3 + (len a + 1 + 1))).
  set (d := be_encode 2 (len payload)). assert (length d = 2%nat) as Ld by apply be_encode_length.
  assert (be_decode d = len payload) as Dd.
  { subst d. rewrite be_decode_encode. apply Z.mod_small. change (256 ^ Z.of_nat 2) with 65536. lia. }
  assert (byte_val b = len a + 5) as Db by (subst b; rewrite byte_of_small; lia). clearbody d b.
  replace ((d ++ b :: (a0 :: a1 :: a) ++ payload) ++ rest) with ((d ++ [b; a0; a1]) ++ (a ++ payload) ++ rest)
    by (rewrite <- !app_assoc; cbn; by rewrite <- !app_assoc).
  change 5 with (2 + 3). assert (len (d ++ [b; a0; a1]) = 2 + 3) as Lh by (unfold len; rewrite length_app, Ld; done).
  rewrite <- Lh, readFull_app. rewrite (uint16At_app [] d [b; a0; a1]) by done. cbn [mbind option_bind].
  assert (slice_get (d ++ [b; a0; a1]) 2 = Some b) as ->.
  { change 2 with (Z.of_nat 2). rewrite slice_get_nat. by apply list_lookup_middle. }
  cbn [mbind option_bind]. rewrite Db, Dd. replace (len a + 5 - 3 - 2) with (len a) by lia.
  case_if as E; [apply orb_true_iff in E as [E|E]; b2p; lia|].
  replace (len a + len payload) with (len (a ++ payload)) by apply len_app. rewrite readFull_app.
  assert (slice (d ++ [b; a0; a1]) 3 (len (d ++ [b; a0; a1])) = Some [a0; a1]) as ->.
  { replace (d ++ [b; a0; a1]) with ((d ++ [b]) ++ [a0; a1] ++ []) by (by rewrite <- app_assoc).
    apply slice_app; unfold len; rewrite ?length_app, ?Ld; done. }
  cbn [mbind option_bind]. pose proof (slice_app [] a payload 0 (len a) eq_refl eq_refl) as H1. cbn [app] in H1. rewrite H1.
  cbn [mbind option_bind]. pose proof (slice_app a payload [] (len a) (len (a ++ payload)) eq_refl (len_app a payload)) as H2.
  rewrite app_nil_r in H2. rewrite H2. cbn [mbind option_bind app]. done.
Qed.

(** Input that is not such a frame is an error, and never a panic. *)
Lemma ReadUDPFrame_cases l :
  (∃ e rest, ReadUDPFrame l = Some (Err e, rest)) ∨
  ∃ address payload rest, l = frameOf address payload ++ rest ∧ 2 ≤ len address ≤ 252 ∧ len payload ≤ 65535.
Proof.
  destruct (readFull 5 l) as [[header l1]|e] eqn:E1; [|left; unfold ReadUDPFrame; rewrite E1; eauto].
  pose proof E1 as E1'. apply readFull_inv in E1' as [-> Lh]; [|lia].
  destruct header as [|d0 [|d1 [|b [|a0 [|a1 [|x header]]]]]]; try (unfold len in Lh; cbn in Lh; lia).
  pose proof (byte_val_range b) as Hb. set (n := be_decode [d0; d1]).
  assert (0 ≤ n < 65536) as Hn by apply (be_decode_range [d0; d1]).
  destruct (readFull (byte_val b - 3 - 2 + n) l1) as [[body l2]|e] eqn:E2.
  2: { left. unfold ReadUDPFrame. rewrite E1. change (uint16At _ 0) with (Some n). cbn [mbind option_bind].
       change (slice_get _ 2) with (Some b). cbn [mbind option_bind]. rewrite E2. case_if as E3; eauto. }
  destruct ((byte_val b - 3 <? 2) || (263 <? byte_val b - 3)) eqn:E3.
  { left. unfold ReadUDPFrame. rewrite E1. change (uint16At _ 0) with (Some n). cbn [mbind option_bind].
    change (slice_get _ 2) with (Some b). cbn [mbind option_bind]. rewrite E3. eauto. }
  apply orb_false_iff in E3 as [E3 _]. b2p. apply readFull_inv in E2 as [-> Lb]; [|lia].
  right. set (k := Z.to_nat (byte_val b - 5)). exists (a0 :: a1 :: take k body), (drop k body), l2.
  assert (len (take k body) = byte_val b - 5) as Lt by (unfold len in *; rewrite length_take; lia).
  assert (len (drop k body) = n) as Ld by (unfold len in *; rewrite length_drop; lia).
  unfold frameOf. rewrite !len_cons, Lt, Ld. split; [|lia].
  replace (3 + (byte_val b - 5 + 1 + 1)) with (byte_val b) by lia. rewrite byte_of_val.
  change 2%nat with (length [d0; d1]). unfold n. rewrite be_encode_decode. cbn. by rewrite take_drop.
Qed.

(** C17: reading a UDP packet from a stream never panics, whatever the bytes: every index
    and slice of [ReadUDPFrame] and [decodeUDPAddress] is in range.  It succeeds on the
    well-formed frames and on nothing else: the length of the data, a header length between
    5 and 255, an address whose length fits its type (7 bytes for IPv4, 19 for IPv6, 4 more
    than the name for a domain), the data; the target is that address and the reader is
    left after the frame. *)
Theorem udp_read_errors (l : list byte) :
  ReadUDPFrame l ≠ None
  ∧ (∀ target payload rest, ReadUDPFrame l = Some (Ok (target, payload), rest) ↔
       ∃ address, l = frameOf address payload ++ rest ∧ 2 ≤ len address ≤ 252 ∧ len payload ≤ 65535
                  ∧ decodeUDPAddress address = Some (Ok target))
  ∧ (is_Some (ReadUDPFrame l ≫= λ '(r, _), if is_ok r then Some () else None) ↔
       ∃ address payload rest, l = frameOf address payload ++ rest ∧ addressOk address
                               ∧ len address ≤ 252 ∧ len payload ≤ 65535).
Proof.
  assert (∀ a, addressOk a → 2 ≤ len a) as H2.
  { intros a (t & r & -> & H). rewrite len_cons in *. destruct H as [?|[?|(_ & n & r' & -> & H)]]; [lia..|].
    rewrite len_cons. pose proof (len_nonneg r'). lia. }
  destruct (ReadUDPFrame_cases l) as [(e & rest0 & E)|(a & p & rest0 & -> & La & Lp)].
  - rewrite E. split; [done|]. split.
    + intros target payload rest. split; [done|]. intros (a & -> & La & Lp & D). by rewrite ReadUDPFrame_frame, D in E.
    + split; [by intros [? ?]|]. intros (a & p & rest & -> & Ha & La & Lp). exfalso. pose proof (H2 a Ha).
      rewrite ReadUDPFrame_frame in E by lia. destruct (decodeUDPAddress_total a) as (r & D & Hr). rewrite D in E.
      apply Hr in Ha. by destruct r.
  - rewrite ReadUDPFrame_frame by done. destruct (decodeUDPAddress_total a) as (r & D & Hr). rewrite D. cbn -[frameOf].
    split; [done|]. split.
    + intros target payload rest. split; [|intros (a' & E & La' & Lp' & D')].
      * destruct r as [t|e]; [|done]. intros [= <- <- <-]. by exists a.
      * assert (ReadUDPFrame (frameOf a p ++ rest0) = Some (Ok (target, payload), rest)) as R
          by (rewrite E, ReadUDPFrame_frame, D' by done; done).
        rewrite ReadUDPFrame_frame, D in R by done. done.
    + split; [|intros (a' & p' & rest & E & Ha & La' & Lp')].
      * destruct r as [t|e]; [|by intros [? ?]]. intros _. exists a, p, rest0. split_and!; try done; [by apply Hr|lia].
      * pose proof (H2 a' Ha). destruct (decodeUDPAddress_total a') as (r' & D' & Hr'). apply Hr' in Ha.
        assert (Some (target ← r; Ok (target, p), rest0) = Some (target ← r'; Ok (target, p'), rest)) as R.
        { transitivity (ReadUDPFrame (frameOf a p ++ rest0)); [by rewrite ReadUDPFrame_frame, D|].
          by rewrite E, ReadUDPFrame_frame, D' by lia. }
        destruct r, r'; try done.
Qed.

(** The address of a response is the one that was asked for. *)
Lemma ipString_To4 ip v4 : Relay.To4 ip = Some v4 → len v4 = 4 ∧ NetAddr.ipString v4 = NetAddr.ipString ip.
Proof.
  intros H. assert (len v4 = 4 ∧ (len ip = 4 ∨ len ip = 16)) as [L4 L].
  { unfold Relay.To4 in H. destruct (len ip =? 4) eqn:E4; b2p; [simplify_eq; auto|].
    destruct (len ip =? 16) eqn:E16; b2p; cbn in H; [|done]. destruct (bool_decide _) in H; [|done]. simplify_eq.
    split; [|auto]. unfold len in *. rewrite length_drop. lia. }
  split; [done|]. unfold NetAddr.ipString. rewrite H.
  assert (Relay.To4 v4 = Some v4) as -> by (unfold Relay.To4; by rewrite L4). rewrite L4.
  by destruct L as [-> | ->].
Qed.

Lemma To4_none_len ip v6 : Relay.To4 ip = None → Relay.To16 ip = Some v6 → v6 = ip ∧ len ip = 16.
Proof.
  unfold Relay.To4, Relay.To16. destruct (len ip =? 4); [done|]. destruct (len ip =? 16) eqn:E; b2p; [|done].
  intros _ [= <-]. done.
Qed.

Lemma port_decode port : 0 ≤ port < 65536 → be_decode (be_encode 2 (u16 port)) = port.
Proof.
  intros Hp. rewrite be_decode_encode. change (256 ^ Z.of_nat 2) with (2 ^ 16). unfold u16.
  rewrite Zmod_mod. apply Z.mod_small. lia.
Qed.

Lemma decode_ip t ip port :
  byte_val t = 1 ∧ len ip = 4 ∨ byte_val t = 4 ∧ len ip = 16 → 0 ≤ port < 65536 →
  decodeUDPAddress (t :: ip ++ be_encode 2 (u16 port)) =
  Some (Ok (NetAddr.JoinHostPort (NetAddr.ipString ip) (NetAddr.Itoa port))).
Proof.
  intros Ht Hp. pose proof (be_encode_length 2 (u16 port)) as Lp. pose proof (port_decode port Hp) as Dp.
  set (d := be_encode 2 (u16 port)) in *. clearbody d. unfold decodeUDPAddress.
  assert (len (t :: ip ++ d) = len ip + 3) as -> by (unfold len; cbn; rewrite length_app; lia).
  case_if as E; [destruct Ht as [[_ Ht]|[_ Ht]]; lia|].
  change (slice_get (t :: ip ++ d) 0) with (Some t). cbn [mbind option_bind].
  pose proof (slice_app [t] ip d 1 (1 + len ip) eq_refl eq_refl) as Hs. cbn [app] in Hs.
  assert (uint16At (t :: ip ++ d) (1 + len ip) = Some port) as Hu.
  { pose proof (uint16At_app (t :: ip) d [] (1 + len ip)) as H. rewrite app_nil_r, Dp in H. cbn [app] in H.
    apply H; [rewrite len_cons; lia|done]. }
  destruct Ht as [[-> L]|[-> L]]; rewrite L in *; cbn [Z.eqb Pos.eqb negb].
  - change (4 + 3 =? 7) with true. change (1 + 4) with 5 in *. by rewrite Hs; cbn [mbind option_bind]; rewrite Hu.
  - change (16 + 3 =? 19) with true. change (1 + 16) with 17 in *. by rewrite Hs; cbn [mbind option_bind]; rewrite Hu.
Qed.

(** The frame of a packet is well formed, and names the address. *)
Lemma udpFrame_frame addr payload f :
  udpFrame addr payload = Ok f → 0 ≤ Relay.addrPort addr < 65536 →
  ∃ address, f = frameOf address payload ∧ 2 ≤ len address ≤ 252 ∧ len payload ≤ 65535
    ∧ decodeUDPAddress address =
      Some (Ok (NetAddr.JoinHostPort (NetAddr.ipString (Relay.addrIP addr)) (NetAddr.Itoa (Relay.addrPort addr)))).
Proof.
  destruct addr as [ip port]. unfold udpFrame. cbn [Relay.addrIP Relay.addrPort]. intros Hf Hp.
  assert (∀ t v, byte_val t = 1 ∧ len v = 4 ∨ byte_val t = 4 ∧ len v = 16 → NetAddr.ipString v = NetAddr.ipString ip →
    (_ ← guard_err (65535 <? len payload) "UDP payload is too large";
     Ok (be_encode 2 (u16 (len payload)) ++ byte_of (u8 (3 + len (t :: v ++ be_encode 2 (u16 port))))
         :: (t :: v ++ be_encode 2 (u16 port)) ++ payload)) = Ok f →
    ∃ address, f = frameOf address payload ∧ 2 ≤ len address ≤ 252 ∧ len payload ≤ 65535
      ∧ decodeUDPAddress address = Some (Ok (NetAddr.JoinHostPort (NetAddr.ipString ip) (NetAddr.Itoa port)))) as H.
  { intros t v Ht Hv E. pose proof (decode_ip t v port Ht Hp) as D. pose proof (be_encode_length 2 (u16 port)) as Ld.
    set (d := be_encode 2 (u16 port)) in *. clearbody d. destruct (65535 <? len payload) eqn:EL; [done|]. b2p.
    exists (t :: v ++ d). pose proof (len_nonneg payload).
    assert (len (t :: v ++ d) = len v + 3) as L by (unfold len; cbn; rewrite length_app, Ld; lia).
    rewrite D, Hv. unfold frameOf. rewrite L in *. split_and!; [|lia..|done].
    replace (u16 (len payload)) with (len payload) in E by (unfold u16; rewrite Z.mod_small; lia).
    replace (u8 (3 + (len v + 3))) with (3 + (len v + 3)) in E by (unfold u8; rewrite Z.mod_small; lia).
    symmetry. by injection E. }
  destruct (Relay.To4 ip) as [v4|] eqn:E4.
  { destruct (ipString_To4 ip v4 E4) as [L4 Hs]. apply (H (byte_of 1) v4); auto. }
  destruct (Relay.To16 ip) as [v6|] eqn:E6; [|done].
  destruct (To4_none_len ip v6 E4 E6) as [-> L6]. apply (H (byte_of 4) ip); auto.
Qed.

(** A UDP packet that [WriteUDPFrame] wrote without an error, however the writer split
    the bytes, is the packet [ReadUDPFrame] returns at the other end, with the address as
    text ([host:port], an IPv4-mapped address as IPv4), and the bytes after the frame are
    left for the next call.  A write fails before the first byte for an address without an
    IP and for more than 65535 bytes, and otherwise only when the writer fails. *)
Theorem udp_roundtrip (outs : list (nat * bool)) (addr : Relay.UDPAddr) (payload rest : list byte)
    (Hport : 0 ≤ Relay.addrPort addr < 65536) :
  (∀ w, WriteUDPFrame outs addr payload = (w, None) →
     ReadUDPFrame (w ++ rest) =
     Some (Ok (NetAddr.JoinHostPort (NetAddr.ipString (Relay.addrIP addr)) (NetAddr.Itoa (Relay.addrPort addr)), payload), rest))
  ∧ (len payload ≤ 65535 → len (Relay.addrIP addr) = 4 ∨ len (Relay.addrIP addr) = 16 →
     ∃ w, WriteUDPFrame [] addr payload = (w, None))
  ∧ (65535 < len payload ∨ Relay.To16 (Relay.addrIP addr) = None →
     ∃ e, WriteUDPFrame outs addr payload = ([], Some e)).
Proof.
  split_and!.
  - intros w. unfold WriteUDPFrame. destruct (udpFrame addr payload) as [f|e] eqn:E; [|done].
    unfold writeFrameFull. destruct (Mux.writeFull outs f) as [[taken e] r] eqn:W. intros [= <- ->].
    apply MuxProofs.writeFull_spec in W as [_ W]. rewrite (W eq_refl).
    destruct (udpFrame_frame addr payload f E Hport) as (a & -> & La & Lp & D). by rewrite ReadUDPFrame_frame, D.
  - intros Lp L. unfold WriteUDPFrame, udpFrame. replace (65535 <? len payload) with false by lia.
    destruct (Relay.To4 (Relay.addrIP addr)) as [v4|].
    { unfold writeFrameFull. cbn -[be_encode Mux.writeFull]. rewrite MuxProofs.writeFull_succeeds. eauto. }
    assert (is_Some (Relay.To16 (Relay.addrIP addr))) as [v6 ->].
    { unfold Relay.To16. destruct L as [-> | ->]; eauto. }
    unfold writeFrameFull. cbn -[be_encode Mux.writeFull]. rewrite MuxProofs.writeFull_succeeds. eauto.
  - intros H. unfold WriteUDPFrame, udpFrame. destruct (65535 <? len payload) eqn:EL.
    { destruct (Relay.To4 _), (Relay.To16 _); cbn -[be_encode]; eauto. }
    b2p. destruct H as [H|H]; [lia|]. rewrite H. destruct (Relay.To4 _) as [v|] eqn:E4; cbn -[be_encode]; [|eauto].
    exfalso. unfold Relay.To4, Relay.To16 in *. destruct (len (Relay.addrIP addr) =? 4); [done|].
    by destruct (len (Relay.addrIP addr) =? 16).
Qed.

Definition sampleAddr : Relay.UDPAddr :=
  Relay.mkUDPAddr (Relay.v4InV6Prefix ++ [byte_of 192; byte_of 0; byte_of 2; byte_of 1]) 53.

(** Three short writes of a packet from an IPv4-mapped address. *)
Lemma udp_roundtrip_witness :
  ReadUDPFrame (fst (WriteUDPFrame [(4%nat, false); (1%nat, false); (5%nat, false)] sampleAddr [byte_of 7; byte_of 8]) ++ [byte_of 9])
  = Some (Ok ("192.0.2.1:53"%string, [byte_of 7; byte_of 8]), [byte_of 9]).
Proof.
  assert (0 ≤ Relay.addrPort sampleAddr < 65536) as Hp by (cbn; lia).
  rewrite (proj1 (udp_roundtrip [(4%nat, false); (1%nat, false); (5%nat, false)] sampleAddr [byte_of 7; byte_of 8] [byte_of 9] Hp)
    (fst (WriteUDPFrame [(4%nat, false); (1%nat, false); (5%nat, false)] sampleAddr [byte_of 7; byte_of 8])) ltac:(vm_compute; reflexivity)).
  vm_compute. reflexivity.
Defined.

(** DNS packets: what is written is what is read, and only a length of 1 to 65536 is. *)
Lemma dns_roundtrip outs packet w rest :
  WriteDNSPacket outs packet = (w, None) → ReadDNSPacket (w ++ rest) = Ok (packet, rest).
Proof.
  unfold WriteDNSPacket. destruct ((len packet =? 0) || (MaxDNSPacketSize <? len packet)) eqn:E; [done|].
  apply orb_false_iff in E as [E0 E1]. destruct (Mux.writeFull _ _) as [[taken e] r] eqn:W. intros [= <- ->].
  apply MuxProofs.writeFull_spec in W as [_ W]. rewrite (W eq_refl). clear W. unfold ReadDNSPacket.
  pose proof (be_encode_length 4 (u32 (len packet))) as L4. pose proof (len_nonneg packet).
  assert (be_decode (be_encode 4 (u32 (len packet))) = len packet) as D.
  { rewrite be_decode_encode. change (256 ^ Z.of_nat 4) with (2 ^ 32). unfold u32. b2p. change MaxDNSPacketSize with 65536 in E1.
    rewrite Zmod_mod, Z.mod_small; lia. }
  set (d := be_encode 4 (u32 (len packet))) in *. clearbody d.
  rewrite <- app_assoc. replace 4 with (len d) by (unfold len; lia). rewrite readFull_app. cbn [mbind result_bind].
  rewrite D, E0, E1. cbn [guard_err orb mbind result_bind]. apply readFull_app.
Qed.

Lemma dns_read_inv l packet rest :
  ReadDNSPacket l = Ok (packet, rest) →
  l = be_encode 4 (len packet) ++ packet ++ rest ∧ 1 ≤ len packet ≤ MaxDNSPacketSize.
Proof.
  unfold ReadDNSPacket. destruct (readFull 4 l) as [[h l1]|e] eqn:E; [|done]. apply readFull_inv in E as [-> Lh]; [|lia].
  cbn [mbind result_bind]. destruct ((be_decode h =? 0) || (MaxDNSPacketSize <? be_decode h)) eqn:G; [done|].
  cbn [guard_err mbind result_bind]. apply orb_false_iff in G as [G0 G1]. b2p. pose proof (be_decode_range h) as R.
  intros E. apply readFull_inv in E as [-> Lp]; [|lia]. rewrite Lp. split; [|lia].
  replace 4%nat with (length h) by (unfold len in Lh; lia). by rewrite be_encode_decode.
Qed.

End Framing.
