(* ===== verification/Dns.v ===== *)
(** * Dns.v: the DNS tunnel of the p2pdns example
    (src/example/p2pdns/client/forward.go, server/forwarder.go, server/tunnel.go)

    Clients take DNS queries from a local socket and send them over a connection; the
    server forwards them to one upstream server, over one socket.  Both replace the
    identifier of a query by one of their own, and keep in a table to whom the answer
    goes and with which identifier.

    The operations are functions.  The tunnel is a machine: for every client the loops
    [Run], [readRemote] and (at the server) [serveClient], and the forwarder's [Run],
    cut at the mutexes and at the calls of sockets and connections.  The environment
    chooses the queries, the answers, the times, and what the writes take.  [queries],
    the second components of [upq] and [downq], and the flags [torn] and [late] record
    what happened; no step depends on them, except that an answer of the environment
    names the query it answers. *)

From S2P Require Import Prelude Mux MuxProofs Relay NetAddr Framing.
From Stdlib Require Import ZArith Lia String.
From stdpp Require Import base list option strings numbers gmap.

Local Open Scope Z_scope.
Local Open Scope go_scope.

Module Dns.

(** ** The table of identifiers *)

Record pending A := mkPending {
  owner : A;
  originalID : Z;
  expires : Z
}.
Arguments mkPending {A} _ _ _.
Arguments owner {A} _.
Arguments originalID {A} _.
Arguments expires {A} _.

Record table A := mkTable {
  nextID : Z;
  entries : gmap Z (pending A)
}.
Arguments mkTable {A} _ _.
Arguments nextID {A} _.
Arguments entries {A} _.

(** [now.After(pending.expires)] or no entry. *)
Definition free {A} (t : table A) (id now : Z) : bool :=
  match entries t !! id with
  | Some e => expires e <? now
  | None => true
  end.

(** The loop of [reserveID] and [reserve]; [None] is a loop that did not end. *)
Fixpoint reserveLoop {A} (fuel : nat) (t : table A) (o : A) (orig now timeout : Z) : option (table A * Z) :=
  match fuel with
  | O => None
  | S fuel =>
      let next := u32 (nextID t + 1) in
      let id := u16 next in
      if free t id now
      then Some (mkTable next (<[id := mkPending o orig (now + timeout)]> (entries t)), id)
      else reserveLoop fuel (mkTable next (entries t)) o orig now timeout
  end.

(** 65536 rounds see every identifier. *)
Definition rounds : nat := Z.to_nat 65536.

Definition reserve {A} : table A → A → Z → Z → Z → option (table A * Z) := reserveLoop rounds.

Definition take_ {A} (t : table A) (id now : Z) : table A * option (pending A) :=
  match entries t !! id with
  | None => (t, None)
  | Some e =>
      (mkTable (nextID t) (delete id (entries t)), if expires e <? now then None else Some e)
  end.

Definition remove {A} (t : table A) (id : Z) : table A := mkTable (nextID t) (delete id (entries t)).

(** [binary.BigEndian.PutUint16(packet[:2], id)]. *)
Definition putID (packet : list byte) (id : Z) : list byte := be_encode 2 id ++ drop 2 packet.

Definition getID (packet : list byte) : Z := be_decode (take 2 packet).

Arguments putID : simpl never.
Arguments getID : simpl never.

(** [newDNSClient] and [newDNSForwarder] replace a timeout that is not positive. *)
Definition timeoutOf (timeout : Z) : Z := if timeout <=? 0 then 5 * 1000000000 else timeout.

(** ** The tunnel *)

(** Where a query is. *)
Inductive stage := QWriting | QRemove | QUp | QSending | QUnreserve | QAsked | QReplying | QDown | QDone.

Record query := mkQuery {
  qClient : nat;
  qAddr : Relay.UDPAddr;
  qOrig : Z;
  qBody : list byte;
  cid : Z;
  cexp : Z;
  fid : Z;
  fexp : Z;
  stageOf : stage
}.

#[export] Instance eta_query : Eta query := fun q =>
  mkQuery (qClient q) (qAddr q) (qOrig q) (qBody q) (cid q) (cexp q) (fid q) (fexp q) (stageOf q).

(** The loop [dnsClient.Run]: it waits for a query, writes one, or takes one back. *)
Inductive clientPc := CIdle | CWrite (k : nat) (id : Z) (packet : list byte) | CRemove (k : nat) (id : Z).

(** [serveClient] at the server. *)
Inductive serverPc := SIdle | SSend (k : nat) (id : Z) (packet : list byte) | SRemove (k : nat) (id : Z).

(** [dnsForwarder.Run]. *)
Inductive runPc := FIdle | FWrite (conn : nat) (k : nat) (packet : list byte).

(** A client and its connection: the bytes under way in both directions, and what
    [readRemote] did with each packet: what it wrote to the local socket, if anything. *)
Record client := mkClient {
  cTable : table (Relay.UDPAddr * nat);
  cPc : clientPc;
  up : list byte;
  upq : list (nat * list byte);
  sPc : serverPc;
  down : list byte;
  downq : list (nat * list byte);
  output : list (nat * list byte * option (Relay.UDPAddr * list byte))
}.

#[export] Instance eta_client : Eta client := fun c =>
  mkClient (cTable c) (cPc c) (up c) (upq c) (sPc c) (down c) (downq c) (output c).

(** [upstream]: the packets sent to the upstream server. *)
Record state := mkState {
  clients : list client;
  fTable : table (nat * nat);
  fPc : runPc;
  upstream : list (nat * list byte);
  queries : list query;
  clock : Z;
  torn : bool;
  late : bool
}.

#[export] Instance eta_state : Eta state := fun s =>
  mkState (clients s) (fTable s) (fPc s) (upstream s) (queries s) (clock s) (torn s) (late s).

Definition newClient : client := mkClient (mkTable 0 ∅) CIdle [] [] SIdle [] [] [].

Definition initial (n : nat) : state := mkState (replicate n newClient) (mkTable 0 ∅) FIdle [] [] 0 false false.

Inductive label :=
| LLocal (i : nat) (addr : Relay.UDPAddr) (packet : list byte) (now : Z)
| LWrite (i : nat) (outs : list (nat * bool))
| LRemove (i : nat) (now : Z)
| LServe (i : nat) (now : Z)
| LSend (i : nat) (fails : bool)
| LUnreserve (i : nat) (now : Z)
| LAnswer (k : nat) (body : list byte) (now : Z)
| LReply (outs : list (nat * bool))
| LReceive (i : nat) (now : Z).

Definition setClient (s : state) (i : nat) (c : client) : state := s <| clients ::= <[i := c]> |>.

Definition setStage (s : state) (k : nat) (st : stage) : state :=
  s <| queries ::= alter (λ q, q <| stageOf := st |>) k |>.

(** The time of a step that locks a mutex. *)
Definition at_ (now : Z) (s : state) : state := s <| clock := now |>.

Definition isLate (s : state) (k : nat) (deadline : query → Z) (now : Z) : state :=
  s <| late ::= (λ l, l || match queries s !! k with Some q => deadline q <? now | None => false end) |>.

(** Whether an error left a part of a packet on the connection. *)
Definition tears (taken : list byte) (e : option string) : bool :=
  match e with Some _ => negb (len taken =? 0) | None => false end.

Section machine.
Variables cTimeout fTimeout : Z.

(** [dnsClient.Run] gets a packet of the local socket. *)
Definition localStep (s : state) (i : nat) (c : client) (addr : Relay.UDPAddr) (packet : list byte) (now : Z)
  : option state :=
  match cPc c with
  | CIdle =>
      if len packet <? 2 then Some s
      else
        let k := length (queries s) in
        '(t, id) ← reserve (cTable c) (addr, k) (getID packet) now cTimeout;
        let q := mkQuery i addr (getID packet) (drop 2 packet) id (now + cTimeout) 0 0 QWriting in
        Some (setClient (s <| queries ::= (λ l, l ++ [q]) |>) i
                (c <| cTable := t |> <| cPc := CWrite k id (putID packet id) |>))
  | _ => None
  end.

(** It writes it to the connection; on an error it takes the identifier back. *)
Definition writeStep (s : state) (i : nat) (c : client) (outs : list (nat * bool)) : option state :=
  match cPc c with
  | CWrite k id packet =>
      let '(taken, e) := Framing.WriteDNSPacket outs packet in
      let s := s <| torn ::= (λ b, b || tears taken e) |> in
      let c := c <| up ::= (λ l, l ++ taken) |> in
      match e with
      | None => Some (setStage (setClient s i (c <| cPc := CIdle |> <| upq ::= (λ l, l ++ [(k, packet)]) |>)) k QUp)
      | Some _ => Some (setStage (setClient s i (c <| cPc := CRemove k id |>)) k QRemove)
      end
  | _ => None
  end.

Definition removeStep (s : state) (i : nat) (c : client) (now : Z) : option state :=
  match cPc c with
  | CRemove k id =>
      Some (setStage (setClient (isLate s k cexp now) i (c <| cTable ::= (λ t, remove t id) |> <| cPc := CIdle |>)) k QDone)
  | _ => None
  end.

(** [serveClient] reads a packet, and [Forward] reserves an identifier for it. *)
Definition serveStep (s : state) (i : nat) (c : client) (now : Z) : option state :=
  match sPc c, Framing.ReadDNSPacket (up c) with
  | SIdle, Ok (packet, rest) =>
      let k := default 0%nat (fst <$> head (upq c)) in
      let c := c <| up := rest |> <| upq ::= tail |> in
      if len packet <? 2 then Some (setClient s i c)
      else
        '(t, id) ← reserve (fTable s) (i, k) (getID packet) now fTimeout;
        Some (setClient (s <| fTable := t |>
                           <| queries ::= alter (λ q, q <| fid := id |> <| fexp := now + fTimeout |> <| stageOf := QSending |>) k |>)
                i (c <| sPc := SSend k id (putID packet id) |>))
  | _, _ => None
  end.

(** [Forward] sends it. *)
Definition sendStep (s : state) (i : nat) (c : client) (fails : bool) : option state :=
  match sPc c with
  | SSend k id packet =>
      if fails then Some (setStage (setClient s i (c <| sPc := SRemove k id |>)) k QUnreserve)
      else Some (setStage (setClient (s <| upstream ::= (λ l, l ++ [(k, packet)]) |>) i (c <| sPc := SIdle |>)) k QAsked)
  | _ => None
  end.

Definition unreserveStep (s : state) (i : nat) (c : client) (now : Z) : option state :=
  match sPc c with
  | SRemove k id =>
      Some (setStage (setClient ((isLate s k fexp now) <| fTable ::= (λ t, remove t id) |>) i (c <| sPc := SIdle |>)) k QDone)
  | _ => None
  end.

(** [dnsForwarder.Run] gets the answer of the upstream server to query [k]. *)
Definition answerStep (s : state) (k : nat) (body : list byte) (now : Z) : option state :=
  q ← queries s !! k;
  match fPc s, stageOf q with
  | FIdle, QAsked =>
      let packet := be_encode 2 (fid q) ++ body in
      let '(t, r) := take_ (fTable s) (getID packet) now in
      let s := (isLate s k fexp now) <| fTable := t |> in
      Some (match r with
            | None => setStage s k QDone
            | Some e => setStage (s <| fPc := FWrite (fst (owner e)) k (putID packet (originalID e)) |>) k QReplying
            end)
  | _, _ => None
  end.

(** It writes it to the connection the query came from, and ignores errors. *)
Definition replyStep (s : state) (outs : list (nat * bool)) : option state :=
  match fPc s with
  | FWrite j k packet =>
      c ← clients s !! j;
      let '(taken, e) := Framing.WriteDNSPacket outs packet in
      let s := s <| torn ::= (λ b, b || tears taken e) |> <| fPc := FIdle |> in
      let c := c <| down ::= (λ l, l ++ taken) |> in
      match e with
      | None => Some (setStage (setClient s j (c <| downq ::= (λ l, l ++ [(k, packet)]) |>)) k QDown)
      | Some _ => Some (setStage (setClient s j c) k QDone)
      end
  | FIdle => None
  end.

(** A round of [readRemote]. *)
Definition receiveStep (s : state) (i : nat) (c : client) (now : Z) : option state :=
  match Framing.ReadDNSPacket (down c) with
  | Ok (packet, rest) =>
      let k := default 0%nat (fst <$> head (downq c)) in
      let c := c <| down := rest |> <| downq ::= tail |> in
      if len packet <? 2 then Some (setClient s i c)
      else
        let '(t, r) := take_ (cTable c) (getID packet) now in
        let out := (λ e, (fst (owner e), putID packet (originalID e))) <$> r in
        Some (setStage (setClient (isLate s k cexp now) i
                          (c <| cTable := t |> <| output ::= (λ l, l ++ [(k, packet, out)]) |>)) k QDone)
  | Err _ => None
  end.

Definition step (s : state) (l : label) : option state :=
  let on i f := c ← clients s !! i; f c in
  let timed now (r : option state) := if clock s <=? now then at_ now <$> r else None in
  match l with
  | LLocal i addr packet now => timed now (on i (λ c, localStep s i c addr packet now))
  | LWrite i outs => on i (λ c, writeStep s i c outs)
  | LRemove i now => timed now (on i (λ c, removeStep s i c now))
  | LServe i now => timed now (on i (λ c, serveStep s i c now))
  | LSend i fails => on i (λ c, sendStep s i c fails)
  | LUnreserve i now => timed now (on i (λ c, unreserveStep s i c now))
  | LAnswer k body now => timed now (answerStep s k body now)
  | LReply outs => replyStep s outs
  | LReceive i now => timed now (on i (λ c, receiveStep s i c now))
  end.

Fixpoint steps (s : state) (ls : list label) : option state :=
  match ls with
  | [] => Some s
  | l :: ls => s ← step s l; steps s ls
  end.

End machine.

(** ** The table *)

Section table.
Context {A : Type}.
Implicit Types (t : table A).

Lemma reserveLoop_spec fuel t o orig now timeout t' id :
  reserveLoop fuel t o orig now timeout = Some (t', id) →
  free t id now = true ∧ entries t' = <[id := mkPending o orig (now + timeout)]> (entries t) ∧ 0 ≤ id < 65536.
Proof.
  revert t. induction fuel as [|fuel IH]; intros t; [done|]. cbn [reserveLoop]. destruct (free t _ now) eqn:E.
  - intros [= <- <-]. split; [done|]. split; [done|]. apply Z.mod_pos_bound. lia.
  - intros H. destruct (IH _ H) as (H1 & H2 & H3). done.
Qed.

Lemma reserveLoop_fails fuel t o orig now timeout :
  reserveLoop fuel t o orig now timeout = None ↔
  ∀ j, 1 ≤ j ≤ Z.of_nat fuel → free t (u16 (nextID t + j)) now = false.
Proof.
  revert t. induction fuel as [|fuel IH]; intros t; [cbn; split; [lia|done]|]. cbn [reserveLoop].
  assert (∀ z j, u16 (u32 z + j) = u16 (z + j)) as Hu.
  { intros z j. unfold u16, u32. rewrite (Z.mod_eq z (2 ^ 32)) by lia.
    replace (z - 2 ^ 32 * (z / 2 ^ 32) + j) with (z + j + - (2 ^ 16 * (z / 2 ^ 32)) * 2 ^ 16) by lia.
    apply Z_mod_plus_full. }
  destruct (free t _ now) eqn:E.
  - split; [done|]. intros H. specialize (H 1). rewrite <- (Z.add_0_r (u32 _)), Hu, Z.add_0_r in E.
    rewrite H in E; [done|lia].
  - rewrite IH. cbn [nextID]. split; intros H j Hj.
    + destruct (decide (j = 1)) as [->|]; [by rewrite <- (Z.add_0_r (u32 _)), Hu, Z.add_0_r in E|].
      specialize (H (j - 1)). rewrite Hu in H. replace (nextID t + 1 + (j - 1)) with (nextID t + j) in H by lia.
      apply H. lia.
    + rewrite Hu. replace (nextID t + 1 + j) with (nextID t + (j + 1)) by lia. apply H. lia.
Qed.

Lemma reserve_loop t o orig now timeout :
  ∃ fuel, Z.of_nat fuel = 65536 ∧ reserve t o orig now timeout = reserveLoop fuel t o orig now timeout.
Proof. exists rounds. split; [|reflexivity]. apply Z2Nat.id. lia. Qed.

Lemma reserve_spec t o orig now timeout t' id :
  reserve t o orig now timeout = Some (t', id) →
  free t id now = true ∧ entries t' = <[id := mkPending o orig (now + timeout)]> (entries t) ∧ 0 ≤ id < 65536.
Proof. destruct (reserve_loop t o orig now timeout) as (fuel & _ & ->). apply reserveLoop_spec. Qed.

(** The loop ends exactly when an identifier is free, and then within 65536 rounds; it
    runs for ever, with the mutex locked, when 65536 queries wait for an answer. *)
Lemma reserve_ends t o orig now timeout :
  (is_Some (reserve t o orig now timeout) ↔ ∃ id, 0 ≤ id < 65536 ∧ free t id now = true)
  ∧ (reserve t o orig now timeout = None → ∀ fuel, reserveLoop fuel t o orig now timeout = None).
Proof.
  pose proof (reserve_spec t o orig now timeout) as Hs.
  destruct (reserve_loop t o orig now timeout) as (fuel0 & Hfuel & E0). rewrite E0 in *.
  assert (reserveLoop fuel0 t o orig now timeout = None → ∀ id, 0 ≤ id < 65536 → free t id now = false) as Hall.
  { intros H id Hid. rewrite reserveLoop_fails, Hfuel in H.
    assert (∃ j, 1 ≤ j ≤ 65536 ∧ u16 (nextID t + j) = id) as (j & Hj & <-); [|by apply H].
    exists ((id - nextID t - 1) mod 65536 + 1). split.
    - pose proof (Z.mod_pos_bound (id - nextID t - 1) 65536). lia.
    - unfold u16. change (2 ^ 16) with 65536. rewrite Z.add_assoc, <- Z.add_assoc, (Z.add_comm _ 1), Z.add_assoc.
      rewrite Z.add_mod_idemp_r by lia. replace (nextID t + 1 + (id - nextID t - 1)) with id by lia. by apply Z.mod_small. }
  split; [split|].
  - intros [[t' id] H]. destruct (Hs _ _ H) as (? & _ & ?). eauto.
  - intros (id & Hid & Hf). apply not_eq_None_Some. intros H. by rewrite (Hall H id Hid) in Hf.
  - intros H fuel. apply reserveLoop_fails. intros j _. apply (Hall H). apply Z.mod_pos_bound. lia.
Qed.

Lemma take_spec t id now e :
  entries t !! id = Some e → now ≤ expires e → take_ t id now = (mkTable (nextID t) (delete id (entries t)), Some e).
Proof. intros H Hn. unfold take_. rewrite H. case_if as E; [lia|done]. Qed.

End table.

(** ** Packets *)

Lemma drop2_app l id : drop 2 (be_encode 2 id ++ l) = l.
Proof. apply drop_app_length'. by rewrite be_encode_length. Qed.

Lemma getID_put id l : 0 ≤ id < 65536 → getID (be_encode 2 id ++ l) = id.
Proof.
  intros H. unfold getID. rewrite take_app_length' by (by rewrite be_encode_length).
  rewrite be_decode_encode. apply Z.mod_small. change (256 ^ Z.of_nat 2) with 65536. done.
Qed.

Lemma putID_put l id id' : putID (be_encode 2 id ++ l) id' = be_encode 2 id' ++ l.
Proof. unfold putID. by rewrite drop2_app. Qed.

Lemma getID_range p : 2 ≤ len p → 0 ≤ getID p < 65536.
Proof.
  intros H. unfold getID. pose proof (be_decode_range (take 2 p)) as R. rewrite length_take in R.
  unfold len in H. rewrite Nat.min_l in R by lia. by change (256 ^ Z.of_nat 2) with 65536 in R.
Qed.

Lemma put_len id (l : list byte) : 2 ≤ len (be_encode 2 id ++ l).
Proof. unfold len. rewrite length_app, be_encode_length. lia. Qed.

(** A packet on a connection. *)
Definition enc (x : nat * list byte) : list byte := be_encode 4 (len x.2) ++ x.2.

Lemma write_enc outs k p taken e :
  Framing.WriteDNSPacket outs p = (taken, e) →
  match e with
  | None => taken = enc (k, p) ∧ 1 ≤ len p ≤ Framing.MaxDNSPacketSize
  | Some _ => tears taken e = false → taken = []
  end.
Proof.
  intros H. destruct e as [e|].
  { cbn. intros Ht. b2p. by apply len_0. }
  pose proof (Framing.dns_roundtrip outs p taken [] H) as R. apply Framing.dns_read_inv in R as [R1 R2].
  rewrite !app_nil_r in R1. by rewrite R1.
Qed.

Lemma read_enc k p rest :
  1 ≤ len p ≤ Framing.MaxDNSPacketSize → Framing.ReadDNSPacket (enc (k, p) ++ rest) = Ok (p, rest).
Proof.
  intros Hp. apply (Framing.dns_roundtrip []). unfold Framing.WriteDNSPacket.
  change Framing.MaxDNSPacketSize with 65536 in *.
  case_if as E; [apply orb_true_iff in E as [E|E]; b2p; lia|]. rewrite MuxProofs.writeFull_succeeds.
  unfold u32. by rewrite Z.mod_small by lia.
Qed.

(** ** The invariant *)

(** Query [k] came from client [i] and is at stage [st]. *)
Definition ref (s : state) (k i : nat) (st : stage) (P : query → Prop) : Prop :=
  ∃ q, queries s !! k = Some q ∧ qClient q = i ∧ stageOf q = st ∧ P q.

Definition forQuery (q : query) (id : Z) (p : list byte) : Prop := p = be_encode 2 id ++ qBody q.

Definition answerTo (q : query) (p : list byte) : Prop := ∃ body, p = be_encode 2 (cid q) ++ body.

Definition cPc_ok (s : state) (i : nat) (pc : clientPc) : Prop :=
  match pc with
  | CIdle => True
  | CWrite k id p => ref s k i QWriting (λ q, id = cid q ∧ forQuery q (cid q) p)
  | CRemove k id => ref s k i QRemove (λ q, id = cid q)
  end.

Definition sPc_ok (s : state) (i : nat) (pc : serverPc) : Prop :=
  match pc with
  | SIdle => True
  | SSend k id p => ref s k i QSending (λ q, id = fid q ∧ forQuery q (fid q) p)
  | SRemove k id => ref s k i QUnreserve (λ q, id = fid q)
  end.

Definition fPc_ok (s : state) (pc : runPc) : Prop :=
  match pc with
  | FIdle => True
  | FWrite j k p => ref s k j QReplying (λ q, answerTo q p)
  end.

(** The packets on a connection, each for a query at stage [st]. *)
Record flow (s : state) (i : nat) (st : stage) (P : query → list byte → Prop) (bytes : list byte)
    (l : list (nat * list byte)) : Prop := {
  f_bytes : bytes = concat (enc <$> l);
  f_once : NoDup l.*1;
  f_each : ∀ k p, (k, p) ∈ l → 1 ≤ len p ≤ Framing.MaxDNSPacketSize ∧ ref s k i st (λ q, P q p)
}.

(** What the local socket was given is the answer, for the address and with the
    identifier of the query. *)
Definition delivered (s : state) (i : nat) (x : nat * list byte * option (Relay.UDPAddr * list byte)) : Prop :=
  ∃ q body, queries s !! x.1.1 = Some q ∧ qClient q = i ∧ x.1.2 = be_encode 2 (cid q) ++ body
    ∧ x.2 = Some (qAddr q, be_encode 2 (qOrig q) ++ body).

Record client_ok (s : state) (i : nat) (c : client) : Prop := {
  c_pc : cPc_ok s i (cPc c);
  c_up : flow s i QUp (λ q, forQuery q (cid q)) (up c) (upq c);
  c_spc : sPc_ok s i (sPc c);
  c_down : flow s i QDown answerTo (down c) (downq c);
  c_out : Forall (delivered s i) (output c)
}.

(** The forwarder holds an identifier for a query at these stages. *)
Definition forwarded (st : stage) : bool :=
  match st with QSending | QUnreserve | QAsked => true | _ => false end.

(** A query that was sent to the upstream server. *)
Definition asked (st : stage) : bool :=
  match st with QAsked | QReplying | QDown | QDone => true | _ => false end.

Record query_ok (s : state) (k : nat) (q : query) : Prop := {
  q_cid : 0 ≤ cid q < 65536;
  q_orig : 0 ≤ qOrig q < 65536;
  q_fid : forwarded (stageOf q) = true → 0 ≤ fid q < 65536;
  q_held : stageOf q ≠ QDone → clock s ≤ cexp q →
    ∃ c, clients s !! qClient q = Some c
         ∧ entries (cTable c) !! cid q = Some (mkPending (qAddr q, k) (qOrig q) (cexp q));
  q_fheld : forwarded (stageOf q) = true → clock s ≤ fexp q →
    entries (fTable s) !! fid q = Some (mkPending (qClient q, k) (cid q) (fexp q))
}.

Record tunnel_ok (s : state) : Prop := {
  t_clients : ∀ i c, clients s !! i = Some c → client_ok s i c;
  t_queries : ∀ k q, queries s !! k = Some q → query_ok s k q;
  t_run : fPc_ok s (fPc s);
  t_upstream : ∀ k p, (k, p) ∈ upstream s →
    ∃ q, queries s !! k = Some q ∧ asked (stageOf q) = true ∧ forQuery q (fid q) p
}.

(** A query that moves on; its identity does not change. *)
Definition moves (s s' : state) (k : nat) (q q' : query) : Prop :=
  queries s !! k = Some q ∧ queries s' = <[k := q']> (queries s)
  ∧ qClient q' = qClient q ∧ qAddr q' = qAddr q ∧ qOrig q' = qOrig q ∧ qBody q' = qBody q ∧ cid q' = cid q ∧ cexp q' = cexp q.

Lemma moves_same s s' k q q' : moves s s' k q q' → queries s' !! k = Some q'.
Proof. intros (Hq & -> & _). apply list_lookup_insert_eq. by eapply lookup_lt_Some. Qed.

Lemma moves_other s s' k q q' k' : moves s s' k q q' → k' ≠ k → queries s' !! k' = queries s !! k'.
Proof. intros (Hq & -> & _) Hne. by apply list_lookup_insert_ne. Qed.

(** What is known of the queries of client [i] at stage [st] still is. *)
Definition carries (s s' : state) (i : nat) (st : stage) : Prop := ∀ k P, ref s k i st P → ref s' k i st P.

Definition keeps (s s' : state) : Prop :=
  (∀ i x, delivered s i x → delivered s' i x)
  ∧ ∀ k q, queries s !! k = Some q → ∃ q', queries s' !! k = Some q' ∧ qBody q' = qBody q
      ∧ (asked (stageOf q) = true → asked (stageOf q') = true ∧ fid q' = fid q).

Lemma carries_moves s s' k q q' i st :
  moves s s' k q q' → (qClient q = i → stageOf q ≠ st) → carries s s' i st.
Proof.
  intros Hm Hne k' P (q1 & H1 & H2 & H3 & H4). assert (k' ≠ k) as Hk.
  { intros ->. destruct Hm as (Hq & _). simplify_eq. by apply Hne. }
  exists q1. by rewrite (moves_other _ _ _ _ _ _ Hm Hk).
Qed.

Lemma keeps_moves s s' k q q' :
  moves s s' k q q' → (asked (stageOf q) = true → asked (stageOf q') = true ∧ fid q' = fid q) → keeps s s'.
Proof.
  intros Hm Ha. pose proof (moves_same _ _ _ _ _ Hm) as Hs. pose proof (λ k1, moves_other s s' k q q' k1 Hm) as Ho.
  destruct Hm as (Hq & _ & E1 & E2 & E3 & E4 & E5 & E6). split.
  - intros i [[k0 p0] r]. unfold delivered. cbn. intros (q1 & body & H1 & H2 & H3 & H4). destruct (decide (k0 = k)) as [->|Hne].
    + simplify_eq. exists q', body. by rewrite E1, E2, E3, E5.
    + exists q1, body. by rewrite Ho.
  - intros k' q1 H1. destruct (decide (k' = k)) as [->|Hne]; [simplify_eq; eauto|]. exists q1. rewrite Ho by done. auto.
Qed.

(** A new query. *)
Lemma carries_app s s' q i st : queries s' = queries s ++ [q] → carries s s' i st.
Proof. intros E k P (q1 & H1 & H2). exists q1. rewrite E, lookup_app_l by (by eapply lookup_lt_Some). done. Qed.

Lemma keeps_app s s' q : queries s' = queries s ++ [q] → keeps s s'.
Proof.
  intros E. split.
  - intros i x (q1 & body & H1 & H2). exists q1, body. rewrite E, lookup_app_l by (by eapply lookup_lt_Some). done.
  - intros k q1 H1. exists q1. rewrite E, lookup_app_l by (by eapply lookup_lt_Some). auto.
Qed.

Lemma flow_carries s s' i st P bytes l : carries s s' i st → flow s i st P bytes l → flow s' i st P bytes l.
Proof. intros Hc [H1 H2 H3]. split; [done..|]. intros k' p Hin. destruct (H3 k' p Hin). auto. Qed.

Lemma cPc_carries s s' i pc : carries s s' i QWriting → carries s s' i QRemove → cPc_ok s i pc → cPc_ok s' i pc.
Proof. destruct pc; cbn; auto. Qed.

Lemma sPc_carries s s' i pc : carries s s' i QSending → carries s s' i QUnreserve → sPc_ok s i pc → sPc_ok s' i pc.
Proof. destruct pc; cbn; auto. Qed.

Lemma fPc_carries s s' pc : (∀ i, carries s s' i QReplying) → fPc_ok s pc → fPc_ok s' pc.
Proof. destruct pc; cbn; auto. intros H. apply H. Qed.

Lemma delivered_keeps s s' i l : keeps s s' → Forall (delivered s i) l → Forall (delivered s' i) l.
Proof. intros [H _] HF. eapply Forall_impl; [exact HF|apply H]. Qed.

(** The clients a step does not concern. *)
Lemma client_carries s s' i c : (∀ st, carries s s' i st) → keeps s s' → client_ok s i c → client_ok s' i c.
Proof.
  intros Hc Hk [H1 H2 H3 H4 H5]. split.
  - by apply (cPc_carries s).
  - by apply (flow_carries s).
  - by apply (sPc_carries s).
  - by apply (flow_carries s).
  - by apply (delivered_keeps s).
Qed.

(** ** Tables during a step *)

(** The entries of other queries than [k] that have not expired are still there. *)
Definition tkeeps {A} (k : nat) (now : Z) (t t' : table (A * nat)) : Prop :=
  ∀ id e, entries t !! id = Some e → snd (owner e) ≠ k → now ≤ expires e → entries t' !! id = Some e.

Lemma tkeeps_refl {A} k now (t : table (A * nat)) : tkeeps k now t t.
Proof. by intros id e. Qed.

Lemma tkeeps_reserve {A} k now (t t' : table (A * nat)) o orig timeout id :
  reserve t o orig now timeout = Some (t', id) → tkeeps k now t t'.
Proof.
  intros (Hf & He & _)%reserve_spec id' e H1 _ H3. rewrite He. rewrite lookup_insert_ne; [done|]. intros ->.
  unfold free in Hf. rewrite H1 in Hf. b2p. lia.
Qed.

Lemma tkeeps_delete {A} k now (t : table (A * nat)) n id :
  (∀ e, entries t !! id = Some e → now ≤ expires e → snd (owner e) = k) →
  tkeeps k now t (mkTable n (delete id (entries t))).
Proof.
  intros Hk id' e H1 H2 H3. cbn. rewrite lookup_delete_ne; [done|]. intros ->. by apply H2, Hk.
Qed.

(** All queries but [k]. *)
Lemma queries_keep s s' k :
  (∀ k' q, queries s' !! k' = Some q → k' ≠ k → queries s !! k' = Some q) → clock s ≤ clock s' →
  (∀ i c, clients s !! i = Some c → ∃ c', clients s' !! i = Some c' ∧ tkeeps k (clock s') (cTable c) (cTable c')) →
  tkeeps k (clock s') (fTable s) (fTable s') →
  (∀ k q, queries s !! k = Some q → query_ok s k q) → (∀ q, queries s' !! k = Some q → query_ok s' k q) →
  ∀ k q, queries s' !! k = Some q → query_ok s' k q.
Proof.
  intros Hq Hc Hcl Hf Hall Hk k' q H. destruct (decide (k' = k)) as [->|Hne]; [by apply Hk|].
  destruct (Hall k' q (Hq _ _ H Hne)) as [H1 H2 H3 H4 H5]. split; try done.
  - intros Hs Ht. destruct H4 as (c & Hci & He); [done|lia|]. destruct (Hcl _ _ Hci) as (c' & Hc' & Hkp). eauto.
  - intros Hs Ht. apply Hf; [|done..]. apply H5; [done|lia].
Qed.

(** ** Steps *)

(** A step of client [i] that moves query [k] on. *)
Lemma step_moves s s' i c c' k q q' :
  tunnel_ok s → clients s !! i = Some c → clients s' = <[i := c']> (clients s) → moves s s' k q q' → qClient q = i →
  (asked (stageOf q) = true → asked (stageOf q') = true ∧ fid q' = fid q) → clock s ≤ clock s' →
  client_ok s' i c' → tkeeps k (clock s') (cTable c) (cTable c') → tkeeps k (clock s') (fTable s) (fTable s') →
  query_ok s' k q' → fPc_ok s' (fPc s') →
  (∀ x, x ∈ upstream s' → x ∈ upstream s ∨ x.1 = k ∧ asked (stageOf q') = true ∧ forQuery q' (fid q') x.2) →
  tunnel_ok s'.
Proof.
  intros [Hcl Hqs Hrun Hup] Hc Hcs Hm Hi Ha Hck Hc' Ht Hf Hq' Hr Hu. pose proof (keeps_moves _ _ _ _ _ Hm Ha) as Hk. split.
  - intros j d. rewrite Hcs. intros [[-> [<- _]]|[Hne Hd]]%list_lookup_insert_Some; [done|].
    apply (client_carries s); [|done|by apply Hcl]. intros st. apply (carries_moves s s' k q q'); [done|]. congruence.
  - apply (queries_keep s s' k); try done.
    + intros k1 q1 H1 Hne. by rewrite <- (moves_other _ _ _ _ _ _ Hm Hne).
    + intros j d Hd. rewrite Hcs. destruct (decide (j = i)) as [->|Hne].
      * exists c'. rewrite list_lookup_insert_eq by (by eapply lookup_lt_Some). by simplify_eq.
      * exists d. rewrite list_lookup_insert_ne by done. split; [done|]. apply tkeeps_refl.
    + intros q1 H1. rewrite (moves_same _ _ _ _ _ Hm) in H1. by simplify_eq.
  - done.
  - intros k1 p Hin. destruct (Hu _ Hin) as [Hin'|(E & H1 & H2)].
    + destruct (Hup _ _ Hin') as (q1 & H1 & H2 & H3). destruct Hk as [_ Hk].
      destruct (Hk _ _ H1) as (q2 & E1 & E2 & E3). destruct (E3 H2) as [E4 E5]. exists q2. unfold forQuery in *.
      rewrite E5, E2. done.
    + cbn in *. subst. exists q'. by rewrite (moves_same _ _ _ _ _ Hm).
Qed.

Lemma moves_stage s s' k q st :
  queries s !! k = Some q → queries s' = alter (λ q, q <| stageOf := st |>) k (queries s) →
  moves s s' k q (q <| stageOf := st |>).
Proof. intros Hq E. split; [done|]. split; [|done]. rewrite E. by apply list_alter_insert. Qed.

Lemma flow_snoc s s' i st P bytes l k q q' p :
  flow s i st P bytes l → moves s s' k q q' → qClient q = i → stageOf q ≠ st → stageOf q' = st →
  1 ≤ len p ≤ Framing.MaxDNSPacketSize → P q' p → flow s' i st P (bytes ++ enc (k, p)) (l ++ [(k, p)]).
Proof.
  intros [H1 H2 H3] Hm Hi Hst Hst' Hp HP. split.
  - rewrite H1, fmap_app, concat_app. cbn [fmap list_fmap concat]. by rewrite app_nil_r.
  - rewrite fmap_app. apply NoDup_app. split; [done|]. split; [|apply NoDup_singleton].
    intros k1 Hk1 ->%list_elem_of_singleton. cbn in Hk1. apply list_elem_of_fmap in Hk1 as ([k2 p2] & E & Hin). cbn in E. subst k2.
    destruct (H3 _ _ Hin) as (_ & q1 & Hq1 & _ & Hs1 & _). destruct Hm as (Hq & _). by simplify_eq.
  - intros k1 p1 [Hin|E%list_elem_of_singleton]%elem_of_app.
    + destruct (H3 _ _ Hin) as [Hb Hr]. split; [done|]. by apply (carries_moves s s' k q q').
    + simplify_eq. split; [done|]. exists q'. rewrite (moves_same _ _ _ _ _ Hm). destruct Hm as (_ & _ & E1 & _). by rewrite E1.
Qed.

Lemma flow_tail s s' i st P bytes k p l q q' rest :
  flow s i st P bytes ((k, p) :: l) → moves s s' k q q' → rest = concat (enc <$> l) → flow s' i st P rest l.
Proof.
  intros [_ H2 H3] Hm ->. cbn in H2. apply NoDup_cons in H2 as [Hk H2]. split; [done..|].
  intros k1 p1 Hin. destruct (H3 k1 p1) as [Hb (q1 & E1 & E2)]; [by right|]. split; [done|]. exists q1.
  rewrite (moves_other _ _ _ _ _ _ Hm); [done|]. intros ->. apply Hk. apply list_elem_of_fmap. by exists (k, p1).
Qed.

Lemma flow_read s i st P bytes l packet rest :
  flow s i st P bytes l → Framing.ReadDNSPacket bytes = Ok (packet, rest) →
  ∃ k l', l = (k, packet) :: l' ∧ rest = concat (enc <$> l') ∧ ref s k i st (λ q, P q packet).
Proof.
  intros [-> H2 H3] Hr. destruct l as [|[k p] l]; [done|]. cbn [fmap list_fmap concat] in Hr.
  destruct (H3 k p) as [Hp Href]; [by left|]. rewrite read_enc in Hr by done. injection Hr as <- <-. by exists k, l.
Qed.

Lemma answer_len q p : answerTo q p → 2 ≤ len p.
Proof. intros [b ->]. apply put_len. Qed.

Lemma query_len q id p : forQuery q id p → 2 ≤ len p.
Proof. intros ->. apply put_len. Qed.

(** ** Every step keeps the invariant *)

Ltac carried Hm Hst :=
  let go := (eapply carries_moves; [exact Hm|]; rewrite Hst; done) in
  first
  [ eapply flow_carries; [|eassumption]; go
  | eapply cPc_carries; [..|eassumption]; go
  | eapply sPc_carries; [..|eassumption]; go
  | eapply delivered_keeps; [|eassumption]; eapply keeps_moves; [exact Hm|]; rewrite Hst; done ].

(** A step that leaves the tables as they are. *)
Lemma step_quiet s s' i c c' k q st :
  tunnel_ok s → clients s !! i = Some c → queries s !! k = Some q → qClient q = i →
  clients s' = <[i := c']> (clients s) → queries s' = alter (λ q, q <| stageOf := st |>) k (queries s) →
  cTable c' = cTable c → fTable s' = fTable s → clock s' = clock s →
  (asked (stageOf q) = true → asked st = true) → (stageOf q = QDone → st = QDone) → (forwarded st = true → forwarded (stageOf q) = true) →
  (moves s s' k q (q <| stageOf := st |>) → client_ok s' i c' ∧ fPc_ok s' (fPc s')
   ∧ ∀ x, x ∈ upstream s' → x ∈ upstream s ∨ x.1 = k ∧ asked st = true ∧ forQuery q (fid q) x.2) →
  tunnel_ok s'.
Proof.
  intros Hok Hc Hq Hi Ecl Eqs Et Ef Eck Ha Hd Hfw Hrest. pose proof (moves_stage s s' k q st Hq Eqs) as Hm.
  destruct (Hrest Hm) as (Hco & Hf & Hu). destruct (t_queries s Hok k q Hq) as [Q1 Q2 Q3 Q4 Q5].
  apply (step_moves s s' i c c' k q _ Hok Hc Ecl Hm Hi); [auto|lia|done|rewrite Et|rewrite Ef| |done|done].
  - apply tkeeps_refl.
  - apply tkeeps_refl.
  - split; cbn; [done|done|auto|..].
    + intros Hs Ht. destruct Q4 as (c0 & E0 & E1); [auto|lia|]. exists c'. subst i. simplify_eq.
      rewrite Ecl, list_lookup_insert_eq, Et by (by eapply lookup_lt_Some). done.
    + intros Hs Ht. rewrite Ef. apply Q5; [auto|lia].
Qed.

Lemma write_ok s i c outs s' :
  tunnel_ok s → clients s !! i = Some c → writeStep s i c outs = Some s' → torn s' = false → tunnel_ok s'.
Proof.
  intros Hok Hc. unfold writeStep. destruct (cPc c) as [|k id p|] eqn:Epc; [done| |done].
  destruct (t_clients s Hok i c Hc) as [H1 H2 H3 H4 H5]. rewrite Epc in H1. destruct H1 as (q & Hq & Hi & Hst & -> & Hp).
  destruct (Framing.WriteDNSPacket outs p) as [taken e] eqn:EW. pose proof (write_enc outs k p taken e EW) as Hw.
  destruct e as [e|]; intros [= <-] Ht; cbn in Ht; apply orb_false_iff in Ht as [_ Ht];
    eapply (step_quiet s _ i c _ k q _ Hok Hc Hq Hi); try reflexivity; try (by rewrite Hst);
    intros Hm; (split; [|split; [eapply fPc_carries; [|apply Hok]; intros j; eapply carries_moves; [exact Hm|]; by rewrite Hst|auto]]).
  - rewrite (Hw Ht) in *. split; cbn; [|rewrite app_nil_r| | |]; try (carried Hm Hst).
    exists (q <| stageOf := QRemove |>). by rewrite (moves_same _ _ _ _ _ Hm).
  - destruct Hw as [-> Hlen]. split; cbn; [done| | | |]; try (carried Hm Hst).
    eapply flow_snoc; try done. by rewrite Hst.
Qed.

Lemma send_ok s i c fails s' :
  tunnel_ok s → clients s !! i = Some c → sendStep s i c fails = Some s' → tunnel_ok s'.
Proof.
  intros Hok Hc. unfold sendStep. destruct (sPc c) as [|k id p|] eqn:Epc; [done| |done].
  destruct (t_clients s Hok i c Hc) as [H1 H2 H3 H4 H5]. rewrite Epc in H3. destruct H3 as (q & Hq & Hi & Hst & -> & Hp).
  destruct fails; intros [= <-];
    eapply (step_quiet s _ i c _ k q _ Hok Hc Hq Hi); try reflexivity; try (by rewrite Hst);
    intros Hm; (split; [|split; [eapply fPc_carries; [|apply Hok]; intros j; eapply carries_moves; [exact Hm|]; by rewrite Hst|]]).
  - split; cbn; try (carried Hm Hst). exists (q <| stageOf := QUnreserve |>). by rewrite (moves_same _ _ _ _ _ Hm).
  - auto.
  - split; cbn; try (carried Hm Hst). done.
  - cbn. intros x [Hx|Hx%list_elem_of_singleton]%elem_of_app; [by left|subst x; by right].
Qed.

Lemma reply_ok s outs s' : tunnel_ok s → replyStep s outs = Some s' → torn s' = false → tunnel_ok s'.
Proof.
  intros Hok. unfold replyStep. pose proof (t_run s Hok) as Hr. destruct (fPc s) as [|j k p] eqn:Epc; [done|].
  destruct Hr as (q & Hq & Hi & Hst & Hp). destruct (clients s !! j) as [c|] eqn:Hc; [cbn [mbind option_bind]|done].
  destruct (t_clients s Hok j c Hc) as [H1 H2 H3 H4 H5].
  destruct (Framing.WriteDNSPacket outs p) as [taken e] eqn:EW. pose proof (write_enc outs k p taken e EW) as Hw.
  destruct e as [e|]; intros [= <-] Ht; cbn in Ht; apply orb_false_iff in Ht as [_ Ht];
    eapply (step_quiet s _ j c _ k q _ Hok Hc Hq Hi); try reflexivity; try (by rewrite Hst); intros Hm; (split; [|cbn; auto]).
  - rewrite (Hw Ht) in *. split; cbn; [| | |rewrite app_nil_r|]; carried Hm Hst.
  - destruct Hw as [-> Hlen]. split; cbn; [| | |eapply flow_snoc; try done; by rewrite Hst|]; carried Hm Hst.
Qed.

Lemma late_no s k q deadline now : queries s !! k = Some q → late (isLate s k deadline now) = false → now ≤ deadline q.
Proof. intros Hq. cbn. rewrite Hq. intros [_ H]%orb_false_iff. b2p. lia. Qed.

Lemma remove_ok s i c now s' :
  tunnel_ok s → clients s !! i = Some c → clock s ≤ now → removeStep s i c now = Some s' → late s' = false →
  tunnel_ok (at_ now s').
Proof.
  intros Hok Hc Hn. unfold removeStep. destruct (cPc c) as [|k id p|k id] eqn:Epc; [done..|].
  destruct (t_clients s Hok i c Hc) as [H1 H2 H3 H4 H5]. rewrite Epc in H1. destruct H1 as (q & Hq & Hi & Hst & ->).
  intros [= <-] Hl. apply (late_no s k q cexp now Hq) in Hl. pose proof (t_queries s Hok k q Hq) as [Q1 Q2 Q3 Q4 Q5]. rewrite Hst in *.
  match goal with |- tunnel_ok ?s1 => assert (moves s s1 k q (q <| stageOf := QDone |>)) as Hm by (by apply moves_stage) end.
  eapply (step_moves s _ i c _ k q _ Hok Hc); [reflexivity|exact Hm|done|by rewrite Hst|done|..].
  - split; cbn; try (carried Hm Hst). done.
  - apply tkeeps_delete. intros e He _. destruct Q4 as (c0 & E0 & E1); [done|lia|]. subst i. by simplify_eq.
  - apply tkeeps_refl.
  - by split.
  - eapply fPc_carries; [|apply Hok]. intros j. eapply carries_moves; [exact Hm|]. by rewrite Hst.
  - auto.
Qed.

Lemma unreserve_ok s i c now s' :
  tunnel_ok s → clients s !! i = Some c → clock s ≤ now → unreserveStep s i c now = Some s' → late s' = false →
  tunnel_ok (at_ now s').
Proof.
  intros Hok Hc Hn. unfold unreserveStep. destruct (sPc c) as [|k id p|k id] eqn:Epc; [done..|].
  destruct (t_clients s Hok i c Hc) as [H1 H2 H3 H4 H5]. rewrite Epc in H3. destruct H3 as (q & Hq & Hi & Hst & ->).
  intros [= <-] Hl. apply (late_no s k q fexp now Hq) in Hl. pose proof (t_queries s Hok k q Hq) as [Q1 Q2 Q3 Q4 Q5]. rewrite Hst in *.
  match goal with |- tunnel_ok ?s1 => assert (moves s s1 k q (q <| stageOf := QDone |>)) as Hm by (by apply moves_stage) end.
  eapply (step_moves s _ i c _ k q _ Hok Hc); [reflexivity|exact Hm|done|by rewrite Hst|done|..].
  - split; cbn; try (carried Hm Hst). done.
  - apply tkeeps_refl.
  - apply tkeeps_delete. intros e He _. rewrite Q5 in He by (done || lia). by simplify_eq.
  - by split.
  - eapply fPc_carries; [|apply Hok]. intros j. eapply carries_moves; [exact Hm|]. by rewrite Hst.
  - auto.
Qed.

Lemma receive_ok s i c now s' :
  tunnel_ok s → clients s !! i = Some c → clock s ≤ now → receiveStep s i c now = Some s' → late s' = false →
  tunnel_ok (at_ now s').
Proof.
  intros Hok Hc Hn. unfold receiveStep. destruct (t_clients s Hok i c Hc) as [H1 H2 H3 H4 H5].
  destruct (Framing.ReadDNSPacket (down c)) as [[p rest]|] eqn:ER; [|done].
  destruct (flow_read _ _ _ _ _ _ _ _ H4 ER) as (k & l & El & Erest & q & Hq & Hi & Hst & Ha).
  pose proof (answer_len q p Ha) as Hlen. destruct Ha as [body Ep]. rewrite El in *. cbn [head fmap option_fmap option_map default fst].
  case_if as E2; [lia|]. pose proof (t_queries s Hok k q Hq) as [Q1 Q2 Q3 Q4 Q5]. rewrite Hst in *.
  destruct (take_ _ (getID p) now) as [t r] eqn:ET. intros [= <-] Hl. apply (late_no s k q cexp now Hq) in Hl.
  destruct Q4 as (c0 & E0 & E1); [done|lia|]. rewrite Hi, Hc in E0. injection E0 as <-.
  rewrite Ep, getID_put in ET by done. cbn [cTable] in ET. rewrite (take_spec _ _ _ _ E1) in ET by done. injection ET as <- <-.
  match goal with |- tunnel_ok ?s1 => assert (moves s s1 k q (q <| stageOf := QDone |>)) as Hm by (by apply moves_stage) end.
  eapply (step_moves s _ i c _ k q _ Hok Hc); [reflexivity|exact Hm|done|by rewrite Hst|done|..].
  - split; cbn; [carried Hm Hst..| |].
    + rewrite El. eapply flow_tail; [exact H4|exact Hm|done].
    + apply Forall_app. split; [carried Hm Hst|]. constructor; [|constructor]. exists (q <| stageOf := QDone |>), body.
      split; [exact (moves_same _ _ _ _ _ Hm)|]. cbn. by rewrite Ep, putID_put.
  - apply tkeeps_delete. intros e He _. rewrite E1 in He. by simplify_eq.
  - apply tkeeps_refl.
  - by split.
  - eapply fPc_carries; [|apply Hok]. intros j. eapply carries_moves; [exact Hm|]. by rewrite Hst.
  - auto.
Qed.

Lemma serve_ok fTimeout s i c now s' :
  tunnel_ok s → clients s !! i = Some c → clock s ≤ now → serveStep fTimeout s i c now = Some s' → tunnel_ok (at_ now s').
Proof.
  intros Hok Hc Hn. unfold serveStep. destruct (t_clients s Hok i c Hc) as [H1 H2 H3 H4 H5].
  destruct (sPc c) eqn:Epc; [|done..]. destruct (Framing.ReadDNSPacket (up c)) as [[p rest]|] eqn:ER; [|done].
  destruct (flow_read _ _ _ _ _ _ _ _ H2 ER) as (k & l & El & Erest & q & Hq & Hi & Hst & Ha).
  pose proof (query_len q _ p Ha) as Hlen. rewrite El in H2 |- *. cbn [head fmap option_fmap option_map default fst].
  case_if as E2; [lia|]. pose proof (t_queries s Hok k q Hq) as [Q1 Q2 Q3 Q4 Q5]. rewrite Hst in *.
  rewrite Ha, getID_put by done. destruct (reserve _ _ _ now fTimeout) as [[t id]|] eqn:ET; [|done]. cbn [mbind option_bind].
  intros [= <-]. set (q' := q <| fid := id |> <| fexp := now + fTimeout |> <| stageOf := QSending |>).
  match goal with |- tunnel_ok ?s1 => assert (moves s s1 k q q') as Hm end.
  { split; [done|]. split; [|done]. cbn. by rewrite (list_alter_insert _ k _ q Hq). }
  pose proof (reserve_spec _ _ _ _ _ _ _ ET) as (Hf & Et & Hid).
  eapply (step_moves s _ i c _ k q _ Hok Hc); [reflexivity|exact Hm|done|by rewrite Hst|done|..].
  - split; cbn; [carried Hm Hst| | |carried Hm Hst..].
    + rewrite El. eapply flow_tail; [exact H2|exact Hm|done].
    + exists q'. split; [exact (moves_same _ _ _ _ _ Hm)|]. split; [done|]. split; [done|]. split; [done|]. unfold forQuery.
      rewrite Ha. apply putID_put.
  - apply tkeeps_refl.
  - by eapply tkeeps_reserve.
  - split; cbn; [done|done|done|..].
    + intros _ Ht. destruct Q4 as (c0 & E0 & E1); [done|cbn in *; lia|]. rewrite Hi, Hc in E0. injection E0 as <-.
      eexists. rewrite Hi, list_lookup_insert_eq by (by eapply lookup_lt_Some). done.
    + intros _ _. rewrite Et, Hi. by rewrite lookup_insert_eq.
  - eapply fPc_carries; [|apply Hok]. intros j. eapply carries_moves; [exact Hm|]. by rewrite Hst.
  - auto.
Qed.

Lemma answer_ok s k body now s' :
  tunnel_ok s → clock s ≤ now → answerStep s k body now = Some s' → late s' = false →
  tunnel_ok (at_ now s') ∧ ∃ q, queries s !! k = Some q ∧ fPc s' = FWrite (qClient q) k (be_encode 2 (cid q) ++ body).
Proof.
  intros Hok Hn. unfold answerStep. destruct (queries s !! k) as [q|] eqn:Hq; [cbn [mbind option_bind]|done].
  destruct (fPc s) eqn:Epc; [|done]. destruct (stageOf q) eqn:Hst; try done.
  pose proof (t_queries s Hok k q Hq) as [Q1 Q2 Q3 Q4 Q5]. rewrite Hst in *.
  rewrite getID_put by auto. set (packet := be_encode 2 (fid q) ++ body).
  assert (∀ id, putID packet id = be_encode 2 id ++ body) as Hput by (intros; apply putID_put). clearbody packet.
  destruct (take_ (fTable s) (fid q) now) as [t r] eqn:ET. intros [= <-] Hl.
  assert (now ≤ fexp q) as Hle by (apply (late_no s k q fexp now Hq); by destruct r).
  rewrite (take_spec _ _ _ _ (Q5 eq_refl ltac:(lia))) in ET by done. injection ET as <- <-. cbn [owner originalID fst]. rewrite Hput.
  split; [|by exists q]. match goal with |- tunnel_ok ?s1 => assert (moves s s1 k q (q <| stageOf := QReplying |>)) as Hm by (by apply moves_stage) end.
  destruct Hok as [Hcl Hqs Hrun Hup].
  assert (∀ i c, clients s !! i = Some c → client_ok s i c) as Hcl' by done. split.
  - intros i c Hc. cbn in Hc. destruct (Hcl i c Hc) as [H1 H2 H3 H4 H5]. split; carried Hm Hst.
  - apply (queries_keep s _ k); [|done|..|done|].
    + intros k1 q1 H1 Hne. by rewrite <- (moves_other _ _ _ _ _ _ Hm Hne).
    + intros i c Hc. exists c. split; [done|]. apply tkeeps_refl.
    + apply tkeeps_delete. intros e He _. rewrite Q5 in He by (done || lia). by simplify_eq.
    + intros q1 H1. rewrite (moves_same _ _ _ _ _ Hm) in H1. injection H1 as <-. split; try done.
      intros _ Ht. apply Q4; [done|cbn in *; lia].
  - exists (q <| stageOf := QReplying |>). split; [exact (moves_same _ _ _ _ _ Hm)|]. split; [done|]. split; [done|]. by exists body.
  - intros k1 p Hin. destruct (Hup _ _ Hin) as (q1 & H1 & H2 & H3). destruct (keeps_moves _ _ _ _ _ Hm) as [_ Hk]; [done|].
    destruct (Hk _ _ H1) as (q2 & E1 & E2 & E3). destruct (E3 H2) as [E4 E5]. exists q2. unfold forQuery in *. by rewrite E5, E2.
Qed.

Lemma at_ok s now : tunnel_ok s → clock s ≤ now → tunnel_ok (at_ now s).
Proof.
  intros [H1 H2 H3 H4] Hn. split; try done.
  - intros i c Hc. by destruct (H1 i c Hc) as [? [] ? [] ?].
  - intros k q Hq. destruct (H2 k q Hq) as [Q1 Q2 Q3 Q4 Q5]. split; try done; intros ? Ht; [apply Q4|apply Q5]; try done; cbn in Ht; lia.
Qed.

Lemma local_ok cTimeout s i c addr p now s' :
  tunnel_ok s → clients s !! i = Some c → clock s ≤ now → localStep cTimeout s i c addr p now = Some s' → tunnel_ok (at_ now s').
Proof.
  intros Hok Hc Hn. unfold localStep. destruct (cPc c) eqn:Epc; [|done..]. case_if as El; [intros [= <-]; by apply at_ok|].
  destruct (reserve _ _ _ now cTimeout) as [[t id]|] eqn:ET; [cbn [mbind option_bind]|done].
  pose proof (reserve_spec _ _ _ _ _ _ _ ET) as (Hf & Et & Hid). intros [= <-]. set (k := length (queries s)) in *.
  set (q := mkQuery _ _ _ _ _ _ _ _ _). set (s' := at_ _ _). assert (queries s' = queries s ++ [q]) as Eq by done.
  assert (queries s' !! k = Some q) as Hk by (rewrite Eq; by apply list_lookup_middle).
  assert (∀ j st, carries s s' j st) as Hcar by (intros j st; by eapply carries_app).
  pose proof (keeps_app s s' q Eq) as Hke. destruct Hok as [Hcl Hqs Hrun Hup]. split.
  - intros j d Hd. cbn in Hd. apply list_lookup_insert_Some in Hd as [(-> & <- & _)|[Hne Hd]]; [|by apply (client_carries s); auto].
    destruct (Hcl j c Hc) as [H1 H2 H3 H4 H5]. 
    split; cbn; [by exists q|by eapply flow_carries|by eapply sPc_carries|by eapply flow_carries|by eapply delivered_keeps].
  - apply (queries_keep s s' k); [|done|..|done|].
    + intros k1 q1 H1 Hne. rewrite Eq in H1. apply lookup_app_Some in H1 as [H1|[H1 H2]]; [done|].
      destruct (k1 - length (queries s))%nat eqn:E; [|done]. exfalso. apply Hne. subst k. lia.
    + intros j d Hd. cbn. destruct (decide (j = i)) as [->|Hne].
      * eexists. rewrite list_lookup_insert_eq by (by eapply lookup_lt_Some). split; [done|]. simplify_eq. by eapply tkeeps_reserve.
      * exists d. rewrite list_lookup_insert_ne by done. split; [done|]. apply tkeeps_refl.
    + apply tkeeps_refl.
    + intros q1 H1. rewrite Hk in H1. injection H1 as <-. b2p. split; cbn; [done|by apply getID_range|done| |done].
      intros _ _. eexists. rewrite list_lookup_insert_eq by (by eapply lookup_lt_Some). split; [done|]. cbn. rewrite Et.
      by rewrite lookup_insert_eq.
  - by eapply fPc_carries.
  - intros k1 p1 Hin. destruct (Hup _ _ Hin) as (q1 & H1 & H2 & H3). destruct Hke as [_ Hke].
    destruct (Hke _ _ H1) as (q2 & E1 & E2 & E3). destruct (E3 H2) as [E4 E5]. exists q2. unfold forQuery in *. by rewrite E5, E2.
Qed.

(** The flags are never taken back. *)
Lemma step_flags cT fT s l s' :
  step cT fT s l = Some s' → late s' = false → torn s' = false → late s = false ∧ torn s = false.
Proof.
  assert (∀ now r, (if clock s <=? now then at_ now <$> r else None) = Some s' →
            (∀ s1, r = Some s1 → late s1 = false → torn s1 = false → late s = false ∧ torn s = false) →
            late s' = false → torn s' = false → late s = false ∧ torn s = false) as Ht.
  { intros now [s1|]; case_if as E; try done. intros [= <-] H H1 H2. exact (H s1 eq_refl H1 H2). }
  destruct l; cbn; intros H; try (apply (Ht _ _ H); clear H; intros s1 H); revert H;
    repeat match goal with |- context [clients s !! ?i] => destruct (clients s !! i) eqn:?; [cbn [mbind option_bind]|done] end;
    unfold localStep, writeStep, removeStep, serveStep, sendStep, unreserveStep, answerStep, replyStep, receiveStep, mbind, option_bind;
    repeat (case_match; try done); intros; simplify_eq/=;
    repeat match goal with H : _ || _ = false |- _ => apply orb_false_iff in H as [? ?] end; auto.
Qed.

Lemma tunnel_step cT fT s l s' :
  tunnel_ok s → step cT fT s l = Some s' → late s' = false → torn s' = false → tunnel_ok s'.
Proof.
  intros Hok.
  assert (∀ now (r : option state), (if clock s <=? now then at_ now <$> r else None) = Some s' →
            (∀ s1, r = Some s1 → clock s ≤ now → late s1 = false → tunnel_ok (at_ now s1)) → late s' = false → tunnel_ok s') as Ht.
  { intros now [s1|]; case_if as E; try done. intros [= <-] H H1. by apply H. }
  assert (∀ i (f : client → option state) (P : state → Prop), (c ← clients s !! i; f c) = Some s' →
            (∀ c, clients s !! i = Some c → f c = Some s' → P s') → P s') as Hon.
  { intros i f P. destruct (clients s !! i) as [c|] eqn:E; [|done]. cbn. intros H HP. by eapply HP. }
  destruct l; cbn -[localStep]; intros H Hl Ht'.
  all: try (apply (Ht _ _ H); [|done]; clear H; intros s1 H Hn Hl1).
  all: try (match type of H with (c ← ?o; _) = _ => destruct o as [c|] eqn:Hc; [cbn [mbind option_bind] in H|done] end).
  - by eapply local_ok.
  - by eapply write_ok.
  - by eapply remove_ok.
  - by eapply serve_ok.
  - by eapply send_ok.
  - by eapply unreserve_ok.
  - by eapply answer_ok.
  - by eapply reply_ok.
  - by eapply receive_ok.
Qed.

Lemma steps_flags cT fT s ls s' :
  steps cT fT s ls = Some s' → late s' = false → torn s' = false → late s = false ∧ torn s = false.
Proof.
  revert s. induction ls as [|l ls IH]; intros s H Hl Ht; cbn in H; [by simplify_eq|].
  destruct (step cT fT s l) as [s1|] eqn:E; [cbn in H|done]. destruct (IH s1 H Hl Ht). by eapply step_flags.
Qed.

Lemma tunnel_steps cT fT s ls s' :
  tunnel_ok s → steps cT fT s ls = Some s' → late s' = false → torn s' = false → tunnel_ok s'.
Proof.
  revert s. induction ls as [|l ls IH]; intros s Hok H Hl Ht; cbn in H; [by simplify_eq|].
  destruct (step cT fT s l) as [s1|] eqn:E; [cbn in H|done]. apply (IH s1); try done.
  destruct (steps_flags cT fT s1 ls s' H Hl Ht). by eapply tunnel_step.
Qed.

Lemma initial_ok n : tunnel_ok (initial n).
Proof.
  split; cbn; try done.
  - intros i c [-> _]%lookup_replicate. split; cbn; try done; (split; [done|constructor|]); by intros k p ?%not_elem_of_nil.
  - by intros k p ?%not_elem_of_nil.
Qed.


(** Two clients ask with the same identifier at the same time, and are answered in the
    other order; client 1's query is written in two parts. *)
Definition demoQuery (b : Z) : list byte := be_encode 2 77 ++ [byte_of b].

Definition demo : list label :=
  [LLocal 0 Framing.sampleAddr (demoQuery 1) 10; LLocal 1 Framing.sampleAddr (demoQuery 2) 11;
   LWrite 1 [(3%nat, false)]; LServe 1 12; LWrite 0 []; LServe 0 13; LSend 0 false; LSend 1 false;
   LAnswer 0 [byte_of 8] 20; LReply []; LAnswer 1 [byte_of 9] 21; LReply []; LReceive 1 22; LReceive 0 23].

Definition demoEnd : state := default (initial 2) (steps 100 100 (initial 2) demo).


End Dns.
