(* ===== verification/Socks.v ===== *)
(** * Socks.v: the SOCKS5 front end of the p2proxy example
    (src/example/p2proxy/client/socks_handshake.go, client/socks.go)

    A local connection is the bytes it will deliver and then end of file, and what its
    calls of [Write] take.  Opening a stream at the pool is an answer of the outside. *)

From S2P Require Import Prelude Mux MuxProofs NetAddr Framing.
From Stdlib Require Import ZArith Lia String.
From stdpp Require Import base list option strings numbers.

Local Open Scope Z_scope.
Local Open Scope go_scope.

Module Socks.

Definition writeFull : list (nat * bool) → list byte → list byte * option string * list (nat * bool) :=
  Mux.writeFull.

(** The local connection: what is left to read, how the next writes go, and what was
    written. *)
Record local := mkLocal {
  input : list byte;
  outs : list (nat * bool);
  written : list byte
}.

#[export] Instance eta_local : Eta local := fun c => mkLocal (input c) (outs c) (written c).

(** A write of all the data, on the connection. *)
Definition write (c : local) (data : list byte) : local * option string :=
  let '(taken, e, rest) := writeFull (outs c) data in
  (c <| outs := rest |> <| written ::= (λ l, l ++ taken) |>, e).

(** A read of exactly [n] bytes; at the end of the input nothing is left. *)
Definition read (c : local) (n : Z) : local * result (list byte) :=
  match Framing.readFull n (input c) with
  | Ok (data, rest) => (c <| input := rest |>, Ok data)
  | Err e => (c <| input := [] |>, Err e)
  end.

Definition ofBytes (l : list Z) : list byte := byte_of <$> l.

Definition socksHandshake (c : local) : local * result unit :=
  match read c 2 with
  | (c, Ok [v; n]) =>
      if negb (byte_val v =? 5) then (c, Err "invalid SOCKS5 greeting")
      else match read c (byte_val n) with
      | (c, Err e) => (c, Err e)
      | (c, Ok methods) =>
          if existsb (λ m, byte_val m =? 0) methods then
            match write c (ofBytes [5; 0]) with
            | (c, Some e) => (c, Err e)
            | (c, None) => (c, Ok tt)
            end
          else
            match write c (ofBytes [5; 255]) with
            | (c, Some e) => (c, Err e)
            | (c, None) => (c, Err "SOCKS5 authentication is unsupported")
            end
      end
  | (c, _) => (c, Err "invalid SOCKS5 greeting")
  end.

(** The host of a request of address type [atyp]. *)
Definition readHost (c : local) (atyp : Z) : local * result string :=
  if atyp =? 1 then
    match read c 4 with
    | (c, Ok address) => (c, Ok (NetAddr.ipString address))
    | (c, Err e) => (c, Err e)
    end
  else if atyp =? 3 then
    match read c 1 with
    | (c, Ok [n]) =>
        if byte_val n =? 0 then (c, Err "invalid SOCKS5 domain")
        else match read c (byte_val n) with
        | (c, Ok address) => (c, Ok (String.string_of_list_byte address))
        | (c, Err e) => (c, Err e)
        end
    | (c, _) => (c, Err "invalid SOCKS5 domain")
    end
  else if atyp =? 4 then
    match read c 16 with
    | (c, Ok address) => (c, Ok (NetAddr.ipString address))
    | (c, Err e) => (c, Err e)
    end
  else (c, Err "unsupported SOCKS5 address type").

Definition readSOCKSRequest (c : local) : local * result (Z * string) :=
  match read c 4 with
  | (c, Ok [ver; cmd; rsv; atyp]) =>
      if negb (byte_val ver =? 5) || negb (byte_val rsv =? 0) then (c, Err "invalid SOCKS5 request")
      else match readHost c (byte_val atyp) with
      | (c, Err e) => (c, Err e)
      | (c, Ok host) =>
          match read c 2 with
          | (c, Err e) => (c, Err e)
          | (c, Ok port) => (c, Ok (byte_val cmd, NetAddr.JoinHostPort host (NetAddr.Itoa (be_decode port))))
          end
      end
  | (c, Ok _) => (c, Err "unexpected EOF")
  | (c, Err e) => (c, Err e)
  end.

Definition writeSOCKSReply (c : local) (code : Z) : local * option string :=
  write c (ofBytes [5; code; 0; 1; 0; 0; 0; 0; 0; 0]).

(** What [handleSOCKS] asked the pool for, and how it ended: without a stream, with the
    stream closed because the reply could not be written, or copying. *)
Inductive ending := NoStream | StreamClosed | Copying.

(** [open datagram target] is whether [pool.OpenDatagram] or [pool.Open] succeeds. *)
Definition handleSOCKS (c : local) (open : bool → string → bool) : local * option (bool * string) * ending :=
  match socksHandshake c with
  | (c, Err _) => (c, None, NoStream)
  | (c, Ok _) =>
      match readSOCKSRequest c with
      | (c, Err _) => (fst (writeSOCKSReply c 1), None, NoStream)
      | (c, Ok (command, target)) =>
          if negb (command =? 1) && negb (command =? 5) then (fst (writeSOCKSReply c 7), None, NoStream)
          else
            let datagram := command =? 5 in
            if negb (open datagram target) then (fst (writeSOCKSReply c 5), Some (datagram, target), NoStream)
            else match writeSOCKSReply c 0 with
            | (c, Some _) => (c, Some (datagram, target), StreamClosed)
            | (c, None) => (c, Some (datagram, target), Copying)
            end
      end
  end.

(** ** The wire format *)

(** The addresses of RFC 1928. *)
Inductive socksAddr := V4 (address : list byte) | Domain (name : list byte) | V6 (address : list byte).

Definition addrOk (a : socksAddr) : Prop :=
  match a with
  | V4 address => len address = 4
  | Domain name => 1 ≤ len name ≤ 255
  | V6 address => len address = 16
  end.

Definition addrBytes (a : socksAddr) : list byte :=
  match a with
  | V4 address => byte_of 1 :: address
  | Domain name => byte_of 3 :: byte_of (len name) :: name
  | V6 address => byte_of 4 :: address
  end.

Definition addrHost (a : socksAddr) : string :=
  match a with
  | V4 address | V6 address => NetAddr.ipString address
  | Domain name => String.string_of_list_byte name
  end.

Definition target (a : socksAddr) (port : Z) : string := NetAddr.JoinHostPort (addrHost a) (NetAddr.Itoa port).

Definition greeting (methods : list byte) : list byte := byte_of 5 :: byte_of (len methods) :: methods.

Definition request (cmd : Z) (a : socksAddr) (port : Z) : list byte :=
  ofBytes [5; cmd; 0] ++ addrBytes a ++ be_encode 2 port.

Lemma read_app c n a b : input c = a ++ b → len a = n → read c n = (c <| input := b |>, Ok a).
Proof. intros E <-. unfold read. by rewrite E, Framing.readFull_app. Qed.

Lemma read_inv c n c' d :
  0 ≤ n → read c n = (c', Ok d) → input c = d ++ input c' ∧ len d = n ∧ c' = c <| input := input c' |>.
Proof.
  intros Hn. unfold read. destruct (Framing.readFull n (input c)) as [[a b]|e] eqn:E; [|done]. intros [= <- <-].
  apply Framing.readFull_inv in E as [E L]; [|done]. by rewrite E.
Qed.

(** A byte in front is the byte of its value. *)
Lemma byte_eq b z : byte_val b = z → b = byte_of z.
Proof. intros <-. by rewrite byte_of_val. Qed.

Lemma list1 {A} (l : list A) : len l = 1 → ∃ a, l = [a].
Proof. unfold len. destruct l as [|a [|]]; cbn; [lia|eauto|lia]. Qed.

Lemma list2 {A} (l : list A) : len l = 2 → ∃ a b, l = [a; b].
Proof. unfold len. destruct l as [|a [|b [|]]]; cbn; try lia. eauto. Qed.

Lemma list4 {A} (l : list A) : len l = 4 → ∃ a b c d, l = [a; b; c; d].
Proof. unfold len. destruct l as [|a [|b [|c [|d [|]]]]]; cbn; try lia. eauto 10. Qed.

Lemma readHost_inv c atyp c' host :
  readHost c atyp = (c', Ok host) →
  ∃ a, addrOk a ∧ byte_of atyp :: input c = addrBytes a ++ input c' ∧ host = addrHost a ∧ c' = c <| input := input c' |>.
Proof.
  unfold readHost. destruct (atyp =? 1) eqn:E1; b2p; [|destruct (atyp =? 3) eqn:E3; b2p; [|destruct (atyp =? 4) eqn:E4; b2p; [|done]]].
  - destruct (read c 4) as [c1 [d|]] eqn:R; [|done]. intros [= <- <-]. apply read_inv in R as (E & L & Ec); [|lia].
    exists (V4 d). subst. by rewrite E.
  - destruct (read c 1) as [c1 [d|]] eqn:R; [|done]. apply read_inv in R as (E & L & Ec); [|lia]. apply list1 in L as [n ->].
    pose proof (byte_val_range n). destruct (byte_val n =? 0) eqn:E0; b2p; [done|].
    destruct (read c1 (byte_val n)) as [c2 [d|]] eqn:R; [|done]. intros [= <- <-]. apply read_inv in R as (E' & L & Ec'); [|lia].
    exists (Domain d). cbn. split; [lia|]. rewrite L, byte_of_val, E, E'. subst atyp. split; [done|]. split; [done|].
    rewrite Ec', Ec. done.
  - destruct (read c 16) as [c1 [d|]] eqn:R; [|done]. intros [= <- <-]. apply read_inv in R as (E & L & Ec); [|lia].
    exists (V6 d). subst. by rewrite E.
Qed.

Lemma readHost_app c a rest :
  addrOk a → ∀ atyp l, addrBytes a = byte_of atyp :: l → 0 ≤ atyp < 256 → input c = l ++ rest →
  readHost c atyp = (c <| input := rest |>, Ok (addrHost a)).
Proof.
  intros Ha atyp l El Hr Hi. unfold readHost.
  assert (∀ z, 0 ≤ z < 256 → byte_of z = byte_of atyp → atyp = z) as Hz.
  { intros z Hz E%(f_equal byte_val). rewrite !Framing.byte_of_small in E; lia. }
  destruct a as [d|d|d]; cbn [addrBytes addrOk addrHost] in *; injection El as E El; apply Hz in E; [|lia| |lia| |lia]; subst atyp l.
  - by rewrite (read_app c 4 d rest).
  - change (3 =? 1) with false. change (3 =? 3) with true. rewrite (read_app c 1 [byte_of (len d)] (d ++ rest)) by done. rewrite Framing.byte_of_small by lia.
    case_if as E0; [lia|]. by rewrite (read_app _ (len d) d rest).
  - by rewrite (read_app c 16 d rest).
Qed.

Lemma request_inv c c' cmd t :
  readSOCKSRequest c = (c', Ok (cmd, t)) →
  ∃ a port, addrOk a ∧ 0 ≤ port < 65536 ∧ 0 ≤ cmd < 256 ∧ input c = request cmd a port ++ input c' ∧ t = target a port
    ∧ c' = c <| input := input c' |>.
Proof.
  unfold readSOCKSRequest. destruct (read c 4) as [c1 [h|]] eqn:R; [|done]. apply read_inv in R as (E & L & Ec); [|lia].
  apply list4 in L as (v & m & r & y & ->). destruct (negb (byte_val v =? 5) || negb (byte_val r =? 0)) eqn:EV; [done|].
  apply orb_false_iff in EV as [Ev Er]. b2p. destruct (readHost c1 (byte_val y)) as [c2 [host|]] eqn:RH; [|done].
  apply readHost_inv in RH as (a & Ha & Ei & -> & Ec2). destruct (read c2 2) as [c3 [p|]] eqn:R; [|done]. intros [= <- <- <-].
  apply read_inv in R as (E2 & L2 & Ec3); [|lia]. exists a, (be_decode p). pose proof (be_decode_range p) as Rp.
  assert (length p = 2%nat) as Lp by (unfold len in L2; lia). rewrite Lp in Rp. change (256 ^ Z.of_nat 2) with 65536 in Rp.
  split; [done|]. split; [done|]. split; [apply byte_val_range|]. split; [|split; [done|]].
  - rewrite E. unfold request, ofBytes. cbn [fmap list_fmap app]. apply byte_eq in Ev, Er. rewrite Ev, Er, byte_of_val.
    rewrite byte_of_val, E2 in Ei. rewrite <- Lp, be_encode_decode, <- !app_assoc, <- Ei. done.
  - by rewrite Ec3, Ec2, Ec.
Qed.

Lemma request_app c cmd a port rest :
  addrOk a → 0 ≤ port < 65536 → 0 ≤ cmd < 256 → input c = request cmd a port ++ rest →
  readSOCKSRequest c = (c <| input := rest |>, Ok (cmd, target a port)).
Proof.
  intros Ha Hp Hc Hi. unfold readSOCKSRequest.
  assert (∃ atyp l, addrBytes a = byte_of atyp :: l ∧ 0 ≤ atyp < 256) as (atyp & l & El & Hat) by (destruct a; eexists _, _; split; done).
  unfold request in Hi. rewrite El in Hi. rewrite <- !app_assoc in Hi.
  rewrite (read_app c 4 (ofBytes [5; cmd; 0; atyp]) (l ++ be_encode 2 port ++ rest)) by done.
  unfold ofBytes. cbn [fmap list_fmap]. rewrite !Framing.byte_of_small by lia. change (negb (5 =? 5) || negb (0 =? 0)) with false.
  rewrite (readHost_app _ a (be_encode 2 port ++ rest) Ha atyp l El Hat) by done.
  rewrite (read_app _ 2 (be_encode 2 port) rest); [|done|unfold len; by rewrite be_encode_length].
  rewrite be_decode_encode. change (256 ^ Z.of_nat 2) with 65536. by rewrite Z.mod_small.
Qed.

(** The methods offered include the one without authentication. *)
Definition offersNone (methods : list byte) : bool := existsb (λ m, byte_val m =? 0) methods.

Lemma write_all c data : outs c = [] → write c data = (c <| written ::= (λ l, l ++ data) |>, None).
Proof. intros E. unfold write, writeFull. rewrite E, MuxProofs.writeFull_succeeds. destruct c. cbn in *. by subst. Qed.

Lemma handshake_app c methods rest :
  outs c = [] → len methods ≤ 255 → input c = greeting methods ++ rest →
  socksHandshake c =
  if offersNone methods then (c <| input := rest |> <| written ::= (λ l, l ++ ofBytes [5; 0]) |>, Ok tt)
  else (c <| input := rest |> <| written ::= (λ l, l ++ ofBytes [5; 255]) |>, Err "SOCKS5 authentication is unsupported").
Proof.
  intros Ho Hm Hi. pose proof (len_nonneg methods). unfold socksHandshake.
  rewrite (read_app c 2 [byte_of 5; byte_of (len methods)] (methods ++ rest)) by done. rewrite !Framing.byte_of_small by lia.
  change (negb (5 =? 5)) with false. rewrite (read_app _ (len methods) methods rest) by done. unfold offersNone.
  by destruct (existsb _ methods); rewrite write_all by done.
Qed.

Lemma greeting_inv c c' :
  socksHandshake c = (c', Ok tt) →
  ∃ methods, len methods ≤ 255 ∧ offersNone methods = true ∧ input c = greeting methods ++ input c'.
Proof.
  unfold socksHandshake. destruct (read c 2) as [c1 [h|]] eqn:R; [|done]. apply read_inv in R as (E & L & Ec); [|lia].
  apply list2 in L as (v & n & ->). destruct (negb (byte_val v =? 5)) eqn:Ev; b2p; [done|]. pose proof (byte_val_range n).
  destruct (read c1 (byte_val n)) as [c2 [methods|]] eqn:R; [|done]. apply read_inv in R as (E2 & L2 & Ec2); [|lia].
  destruct (existsb _ methods) eqn:Em; [|by destruct (write c2 _) as [? []]].
  destruct (write c2 _) as [c3 [e|]] eqn:W; [done|]. intros [= <-]. exists methods. split; [lia|]. split; [done|].
  assert (input c3 = input c2) as -> by (unfold write in W; destruct (writeFull _ _) as [[??]?]; by simplify_eq).
  unfold greeting. rewrite L2, byte_of_val, E, E2. apply byte_eq in Ev. by rewrite Ev.
Qed.

Definition reply (code : Z) : list byte := ofBytes [5; code; 0; 1; 0; 0; 0; 0; 0; 0].

(** What [handleSOCKS] does with a well-formed greeting and request: what is left unread,
    what is written, what is asked of the pool, and how it ends. *)
Definition conversation (open : bool → string → bool) (methods : list byte) (cmd : Z) (a : socksAddr) (port : Z)
    (rest : list byte) : list byte * list byte * option (bool * string) * ending :=
  if negb (offersNone methods) then (request cmd a port ++ rest, ofBytes [5; 255], None, NoStream)
  else if negb (cmd =? 1) && negb (cmd =? 5) then (rest, ofBytes [5; 0] ++ reply 7, None, NoStream)
  else
    let asked := Some (cmd =? 5, target a port) in
    if open (cmd =? 5) (target a port) then (rest, ofBytes [5; 0] ++ reply 0, asked, Copying)
    else (rest, ofBytes [5; 0] ++ reply 5, asked, NoStream).


(** A request for a domain. *)
Definition demoName : list byte := bytes_of "example.org".

Definition demoLocal : local :=
  mkLocal (greeting (ofBytes [2; 0]) ++ request 1 (Domain demoName) 443 ++ bytes_of "GET") [] [].


End Socks.
