(* ===== verification/RequestPool.v ===== *)
(** * RequestPool.v: the workers of the p2proxy server
    (src/example/p2proxy/server/request_pool.go)

    A bounded number of workers serves requests from a bounded queue; [Submit] never
    blocks; [Close] stops the workers and rejects what is in the queue.  The pool is a
    machine: a step is a select of a worker or of [Submit], the end of a request, or a
    step of [Close].  A select with several ready cases takes any of them.  Requests are
    numbers; [accepted], [taken] and [lateOnes] record what happened. *)

From S2P Require Import Prelude.
From Stdlib Require Import ZArith Lia.
From stdpp Require Import base list option numbers.

Local Open Scope Z_scope.
Local Open Scope go_scope.

Module RequestPool.

(** A worker: at the test of [done], in its second select, serving, returned. *)
Inductive worker := Top | Selecting | Serving (r : nat) | Returned.

#[export] Instance worker_eq_dec : EqDecision worker.
Proof. solve_decision. Defined.

(** The function in [closeOnce.Do]. *)
Inductive closing := NotClosed | Draining | Waiting | Closed.

Inductive outcome := ByWorker | Rejected.

Record requestPool := mkPool {
  requests : list nat;
  queueSize : Z;
  done : bool;
  once : closing;
  workers : list worker;
  accepted : list nat;
  taken : list (nat * outcome);
  lateOnes : list nat
}.

#[export] Instance eta_pool : Eta requestPool := fun p =>
  mkPool (requests p) (queueSize p) (done p) (once p) (workers p) (accepted p) (taken p) (lateOnes p).

(** [None]: the product overflowed and [make] panics. *)
Definition newRequestPool (workers_ queueSize_ : Z) : option requestPool :=
  let workers_ := if workers_ <? 1 then 1 else workers_ in
  let queueSize_ := if queueSize_ <? 1 then i64 (workers_ * 8) else queueSize_ in
  if queueSize_ <? 0 then None
  else Some (mkPool [] queueSize_ false NotClosed (replicate (Z.to_nat workers_) Top) [] [] []).

(** The case of a select that is taken. *)
Inductive choice := CRequests | CDone | CDefault.

(** [Submit], with the value it returns. *)
Definition Submit (p : requestPool) (r : nat) (ch : choice) : option (requestPool * bool) :=
  let room := len (requests p) <? queueSize p in
  match ch with
  | CRequests =>
      if room
      then Some (p <| requests ::= (λ l, l ++ [r]) |> <| accepted ::= (λ l, l ++ [r]) |>
                   <| lateOnes ::= (λ l, if done p then r :: l else l) |>, true)
      else None
  | CDone => if done p then Some (p, false) else None
  | CDefault => if room || done p then None else Some (p, false)
  end.

Definition setWorker (p : requestPool) (i : nat) (w : worker) : requestPool := p <| workers ::= <[i := w]> |>.

(** A step of worker [i]; [serveRequest] ends by itself. *)
Definition workerStep (p : requestPool) (i : nat) (ch : choice) : option requestPool :=
  w ← workers p !! i;
  match w with
  | Top => Some (setWorker p i (if done p then Returned else Selecting))
  | Selecting =>
      match ch, requests p with
      | CRequests, r :: rs =>
          Some (setWorker (p <| requests := rs |> <| taken ::= (λ l, l ++ [(r, ByWorker)]) |>) i (Serving r))
      | CDone, _ => if done p then Some (setWorker p i Returned) else None
      | _, _ => None
      end
  | Serving r => Some (setWorker p i Top)
  | Returned => None
  end.

(** A step of [Close]. *)
Definition closeStep (p : requestPool) : option requestPool :=
  match once p with
  | NotClosed => Some (p <| done := true |> <| once := Draining |>)
  | Draining =>
      match requests p with
      | r :: rs => Some (p <| requests := rs |> <| taken ::= (λ l, l ++ [(r, Rejected)]) |>)
      | [] => Some (p <| once := Waiting |>)
      end
  | Waiting => if forallb (λ w, bool_decide (w = Returned)) (workers p) then Some (p <| once := Closed |>) else None
  | Closed => None
  end.

Inductive label := LSubmit (r : nat) (ch : choice) | LWorker (i : nat) (ch : choice) | LClose.

Definition step (p : requestPool) (l : label) : option requestPool :=
  match l with
  | LSubmit r ch => fst <$> Submit p r ch
  | LWorker i ch => workerStep p i ch
  | LClose => closeStep p
  end.

Fixpoint steps (p : requestPool) (ls : list label) : option requestPool :=
  match ls with
  | [] => Some p
  | l :: ls => p ← step p l; steps p ls
  end.

(** ** Proofs *)

Record pool_inv (w n : Z) (p : requestPool) : Prop := {
  p_order : accepted p = (fst <$> taken p) ++ requests p;
  p_size : queueSize p = n;
  p_queue : len (requests p) ≤ n;
  p_workers : length (workers p) = Z.to_nat w;
  p_done : done p = false ↔ once p = NotClosed;
  p_rejected : done p = false → Forall (λ x, x.2 = ByWorker) (taken p) ∧ lateOnes p = [];
  p_late : once p = Waiting ∨ once p = Closed → ∀ r, r ∈ requests p → r ∈ lateOnes p;
  p_returned : done p = false → Forall (λ w, w ≠ Returned) (workers p);
  p_closed : once p = Closed → Forall (λ w, w = Returned) (workers p)
}.

Lemma pool_start w n p :
  newRequestPool w n = Some p → pool_inv (Z.max 1 w) (queueSize p) p ∧ once p = NotClosed.
Proof.
  unfold newRequestPool. set (q := if n <? 1 then _ else n). destruct (q <? 0) eqn:E; b2p; [done|]. intros [= <-].
  split; [|done]. split; cbn; try done; try lia.
  - rewrite length_replicate. destruct (w <? 1) eqn:Ew; b2p; lia.
  - intros _. by apply Forall_replicate.
Qed.

Lemma submit_inv w n p r ch p' b : pool_inv w n p → Submit p r ch = Some (p', b) → pool_inv w n p'.
Proof.
  intros H. unfold Submit. destruct ch; [|case_if as E; [by intros [= <- <-]|done]|case_if as E; [done|by intros [= <- <-]]].
  destruct H as [H1 H2 H3 H4 H5 H6 H7 H8 H9]. case_if as E; [|done]. intros [= <- <-]. split; cbn; try done.
  - by rewrite H1, app_assoc.
  - rewrite len_app. change (len [r]) with 1. lia.
  - intros Hd. destruct (H6 Hd). by rewrite Hd.
  - intros Ho x Hx. assert (done p = true) as Hd by (destruct (done p); [done|]; pose proof (proj1 H5 eq_refl); destruct Ho; congruence).
    rewrite Hd. apply elem_of_app in Hx as [Hx|Hx%list_elem_of_singleton]; [right; auto|subst; by left].
Qed.

Lemma worker_inv w n p i ch p' : pool_inv w n p → workerStep p i ch = Some p' → pool_inv w n p'.
Proof.
  intros [H1 H2 H3 H4 H5 H6 H7 H8 H9]. unfold workerStep. destruct (workers p !! i) as [x|] eqn:E; [cbn [mbind option_bind]|done].
  assert (x ≠ Returned → once p = Closed → False) as Hno.
  { intros Hx Ho. apply H9 in Ho. rewrite Forall_lookup in Ho. by apply Hx, (Ho i). }
  destruct x as [| |r|]; [| | |done].
  - intros [= <-]. split; cbn; rewrite ?length_insert; try done.
    + intros Hd. apply Forall_insert; [auto|]. by rewrite Hd.
    + intros Ho. by destruct Hno.
  - destruct ch; [destruct (requests p) as [|r rs] eqn:Er; [done|]|case_if as Ed; [|done]|done]; intros [= <-];
      (split; cbn; rewrite ?length_insert; try done).
    + rewrite H1, fmap_app, <- app_assoc. done.
    + rewrite len_cons in H3. lia.
    + intros Hd. destruct (H6 Hd). split; [|done]. apply Forall_app. split; [done|by constructor].
    + intros Ho x Hx. apply H7; [done|]. by right.
    + intros Hd. apply Forall_insert; auto.
    + intros Ho. by destruct Hno.
    + by rewrite Ed.
    + rewrite Ed. done.
    + rewrite Ed. done.
    + intros Ho. by destruct Hno.
  - intros [= <-]. split; cbn; rewrite ?length_insert; try done.
    + intros Hd. apply Forall_insert; auto.
    + intros Ho. by destruct Hno.
Qed.

Lemma pool_close_inv w n p p' : pool_inv w n p → closeStep p = Some p' → pool_inv w n p'.
Proof.
  intros [H1 H2 H3 H4 H5 H6 H7 H8 H9]. unfold closeStep. destruct (once p) eqn:Eo; [| | |done].
  - intros [= <-]. split; cbn; try done; naive_solver.
  - assert (done p = true) as Hd by (destruct (done p); [done|]; pose proof (proj1 H5 eq_refl); done).
    rewrite Hd in *. destruct (requests p) as [|r rs] eqn:Er; intros [= <-]; (split; cbn; rewrite ?Er, ?Hd, ?Eo; try done).
    + by intros _ x ?%not_elem_of_nil.
    + rewrite H1, fmap_app, <- app_assoc. done.
    + rewrite len_cons in H3. lia.
    + intros [?|?]; done.
  - assert (done p = true) as Hd by (destruct (done p); [done|]; pose proof (proj1 H5 eq_refl); done).
    destruct (forallb _ _) eqn:Ef; [|done]. intros [= <-]. split; cbn; rewrite ?Hd; try done.
    + intros _. apply H7. by left.
    + intros _. apply Forall_forall. intros x Hx. rewrite forallb_forall in Ef.
      apply (bool_decide_eq_true (x = Returned)), Ef, Hx.
Qed.

Lemma request_steps w n ls p p' : pool_inv w n p → steps p ls = Some p' → pool_inv w n p'.
Proof.
  revert p. induction ls as [|l ls IH]; intros p Hp H; cbn in H; [by simplify_eq|].
  destruct (step p l) as [p1|] eqn:E; [cbn in H|done]. apply (IH p1); [|done].
  destruct l as [r ch|i ch|]; cbn in E; [|by eapply worker_inv|by eapply pool_close_inv].
  destruct (Submit p r ch) as [[p2 b]|] eqn:ES; [|done]. injection E as <-. by eapply submit_inv.
Qed.

(** In every interleaving of submitters, workers and [Close], the requests [Submit]
    accepted leave the queue once each, in order, to a worker or rejected by [Close]; the
    queue and the number of workers are bounded.  When [Close] has returned all workers
    have, and what is still in the queue was accepted after [Close] had begun. *)
Theorem request_pool_once w n ls p0 p :
  newRequestPool w n = Some p0 → steps p0 ls = Some p →
  accepted p = (fst <$> taken p) ++ requests p
  ∧ len (requests p) ≤ queueSize p0 ∧ length (workers p) = Z.to_nat (Z.max 1 w)
  ∧ (once p = NotClosed → Forall (λ x, x.2 = ByWorker) (taken p) ∧ Forall (λ w, w ≠ Returned) (workers p))
  ∧ (once p = Closed → Forall (λ w, w = Returned) (workers p) ∧ ∀ r, r ∈ requests p → r ∈ lateOnes p).
Proof.
  intros H0 H. destruct (pool_start w n p0 H0) as [Hi _]. destruct (request_steps _ _ ls p0 p Hi H) as [H1 H2 H3 H4 H5 H6 H7 H8 H9].
  split; [done|]. split; [done|]. split; [done|]. split.
  - intros Ho. apply H5 in Ho. split; [by apply H6|by apply H8].
  - intros Ho. split; [by apply H9|]. apply H7. by right.
Qed.

Definition demoPool : requestPool := default (mkPool [] 0 true Closed [] [] [] []) (newRequestPool 2 0).

Definition demoRun : list label :=
  [LSubmit 7 CRequests; LSubmit 8 CRequests; LSubmit 9 CRequests; LWorker 0 CDone; LWorker 0 CRequests; LClose; LClose; LClose;
   LClose; LWorker 0 CDone; LWorker 0 CDone; LWorker 1 CDone; LClose].

Lemma request_pool_once_witness :
  ∃ p, steps demoPool demoRun = Some p ∧ once p = Closed
    ∧ taken p = [(7%nat, ByWorker); (8%nat, Rejected); (9%nat, Rejected)] ∧ Forall (λ w, w = Returned) (workers p).
Proof.
  exists (default demoPool (steps demoPool demoRun)). split; [vm_compute; reflexivity|]. split; [vm_compute; reflexivity|].
  split; [vm_compute; reflexivity|].
  apply (request_pool_once 2 0 demoRun demoPool (default demoPool (steps demoPool demoRun))); vm_compute; reflexivity.
Defined.

(** A [Submit] that finds both channels ready after [Close] has emptied the queue puts
    its request where nobody takes it: it is reported as accepted, and in no continuation
    is it served or rejected. *)
Lemma request_stranded :
  ∃ p, steps demoPool [LClose; LClose; LWorker 0 CDone; LWorker 1 CDone; LClose; LSubmit 7 CRequests] = Some p
    ∧ accepted p = [7%nat] ∧ once p = Closed ∧ ∀ ls p', steps p ls = Some p' → taken p' = [].
Proof.
  eexists. split; [vm_compute; reflexivity|]. split; [done|]. split; [done|].
  assert (∀ ls p p', once p = Closed → Forall (λ w, w = Returned) (workers p) → taken p = [] → steps p ls = Some p' → taken p' = []) as H.
  { induction ls as [|l ls IH]; intros p p' Ho Hw Ht H; cbn in H; [by simplify_eq|].
    destruct (step p l) as [p1|] eqn:E; [cbn in H|done]. revert E H. destruct l as [r ch|i ch|]; cbn.
    - unfold Submit. destruct ch; case_if as Ec; cbn; try done; intros [= <-]; by apply IH.
    - unfold workerStep. destruct (workers p !! i) as [x|] eqn:Ex; [|done]. rewrite Forall_lookup in Hw. by rewrite (Hw i x Ex).
    - unfold closeStep. by rewrite Ho. }
  intros ls p'. apply H; [done| |done]. by repeat constructor.
Qed.

End RequestPool.
