(* ===== verification/Objects.v ===== *)
(** * Objects.v: objects that are opened and closed

    A transport is made of objects of libraries: sessions, listeners, associations.  A
    function that opens and closes some of them returns its effects in order. *)

From S2P Require Import Prelude.
From Stdlib Require Import ZArith Lia.
From stdpp Require Import base list.

Local Open Scope Z_scope.

Module Objects.
Section Objects.
Context {O X : Type} `{EqDecision O}.

(** [EDo] is any other effect. *)
Inductive effect :=
| EOpen (o : O)
| EClose (o : O)
| EDo (x : X).

Definition weight (o : O) (e : effect) : Z :=
  match e with
  | EOpen o' => if decide (o = o') then 1 else 0
  | EClose o' => if decide (o = o') then -1 else 0
  | EDo _ => 0
  end.

(** How many objects were opened and not closed. *)
Definition balance (o : O) (es : list effect) : Z := foldr (λ e n, weight o e + n) 0 es.

Lemma balance_app o es1 es2 : balance o (es1 ++ es2) = balance o es1 + balance o es2.
Proof.
  unfold balance. induction es1 as [|e es1 IH]; cbn in *; [done|]. rewrite IH. lia.
Qed.

Definition done_ (es : list effect) : list X :=
  omap (λ e, match e with EDo x => Some x | _ => None end) es.

End Objects.
Arguments effect : clear implicits.
End Objects.
