(* ===== verification/ProxyServer.v ===== *)
(** * ProxyServer.v: the exit of the p2proxy example
    (src/example/p2proxy/server/resolver.go, server/tunnel.go)

    The server dials the targets of the streams it accepts, with a resolver that caches
    answers, and relays UDP packets; queries to port 53 go to an upstream server
    instead of the address the client gave.  Parsing and resolving addresses, dialing
    and copying are the outside: functions and answers given to the definitions. *)

From S2P Require Import Prelude GoString Relay NetAddr Objects.
From Stdlib Require Import ZArith Lia String.
From stdpp Require Import base list option strings numbers gmap.

Local Open Scope Z_scope.
Local Open Scope go_scope.

Module ProxyServer.

(** ** The resolver *)

(** Addresses, and the error of a lookup that failed. *)
Record dnsCacheEntry := mkEntry {
  ips : list Relay.IP;
  err : option string;
  expires : Z
}.

Record dnsResolver := mkResolver {
  upstream : string;
  ttl : Z;
  cache : gmap string dnsCacheEntry
}.

#[export] Instance eta_resolver : Eta dnsResolver := fun r => mkResolver (upstream r) (ttl r) (cache r).

Definition second : Z := 1000000000.

Definition newDNSResolver (upstream_ : string) : result dnsResolver :=
  _ ← GoString.SplitHostPort upstream_;
  Ok (mkResolver upstream_ (30 * second) ∅).

(** The first locked section of [lookup]: an entry that has not expired. *)
Definition cached (r : dnsResolver) (host : string) (now : Z) : option (list Relay.IP * option string) :=
  e ← cache r !! host;
  if now <? expires e then Some (ips e, err e) else None.

(** The second one, with what [LookupIPAddr] returned; [now] is when [lookup] began. *)
Definition store (r : dnsResolver) (host : string) (now : Z) (ips_ : list Relay.IP) (err_ : option string) : dnsResolver :=
  let expires_ := match err_ with None => now + ttl r | Some _ => now + 5 * second end in
  r <| cache ::= <[host := mkEntry ips_ err_ expires_]> |>.

Section resolver.
Variable ParseIP : string → option Relay.IP.
Variable LookupIPAddr : string → list Relay.IP * option string.

Definition lookup_ (r : dnsResolver) (host : string) (now : Z) : dnsResolver * (list Relay.IP * option string) :=
  match ParseIP host with
  | Some ip => (r, ([ip], None))
  | None =>
      match cached r host now with
      | Some answer => (r, answer)
      | None => let answer := LookupIPAddr host in (store r host now answer.1 answer.2, answer)
      end
  end.

(** The addresses in turn: the attempts, and the connection or the last error. *)
Fixpoint dialLoop (dialer : string → result nat) (ips_ : list Relay.IP) (port : string) (lastErr : option string) (host : string)
  : list string * result nat :=
  match ips_ with
  | [] => ([], Err (default ("DNS returned no addresses for " +:+ host)%string lastErr))
  | ip :: ips_ =>
      let remote := NetAddr.JoinHostPort (NetAddr.ipString ip) port in
      match dialer remote with
      | Ok conn => ([remote], Ok conn)
      | Err e => let '(l, r) := dialLoop dialer ips_ port (Some e) host in (remote :: l, r)
      end
  end.

Definition dial (r : dnsResolver) (address : string) (now : Z) (dialer : string → result nat)
  : dnsResolver * (list string * result nat) :=
  match GoString.SplitHostPort address with
  | Err e => (r, ([], Err e))
  | Ok (host, port) =>
      match lookup_ r host now with
      | (r, (_, Some e)) => (r, ([], Err e))
      | (r, (ips_, None)) => (r, dialLoop dialer ips_ port None host)
      end
  end.

End resolver.

(** ** Rewriting of DNS addresses *)

Definition isDNSAddress (address : string) : result bool :=
  '(_, port) ← GoString.SplitHostPort address;
  Ok (bool_decide (port = "53"%string)).

Definition rewriteDNSAddress (address upstream_ : string) : result string :=
  isDNS ← isDNSAddress address;
  Ok (if (isDNS : bool) then upstream_ else address).

(** ** Requests for a connection *)

Inductive object := OStream | ORemote.

#[export] Instance object_eq_dec : EqDecision object.
Proof. solve_decision. Defined.

Inductive action := AReject (e : string) | AAccept | ACopy.

Abbreviation effects := (list (Objects.effect object action)).

(** [serveRequest]: the stream is open when it begins; [accepts] is whether
    [Stream.Accept] succeeds.  The stream is closed after the copies, whether they fail or
    not; the goroutine that waits for the context closes both ends early. *)
Definition serveRequest (address upstream_ : string) (dialed : string → result nat) (accepts : bool) : effects :=
  match rewriteDNSAddress address upstream_ with
  | Err e => [Objects.EDo (AReject e); Objects.EClose OStream]
  | Ok target =>
      match dialed target with
      | Err e => [Objects.EDo (AReject e); Objects.EClose OStream]
      | Ok _ =>
          [Objects.EOpen ORemote; Objects.EDo AAccept]
          ++ (if negb accepts then [] else [Objects.EDo ACopy])
          ++ [Objects.EClose OStream; Objects.EClose ORemote]
      end
  end.

(** ** UDP *)

(** The targets of the DNS queries that were not answered yet, by identifier. *)
Record udpTunnel := mkTunnel {
  dnsTargets : gmap Z (list string)
}.

Section udp.
Variable ResolveUDPAddr : string → result Relay.UDPAddr.

(** A packet of the client: where it is sent. *)
Definition relayPacket (t : udpTunnel) (upstream_ target : string) (payload : list byte) : udpTunnel * result Relay.UDPAddr :=
  match isDNSAddress target, rewriteDNSAddress target upstream_ with
  | Err e, _ | _, Err e => (t, Err e)
  | Ok isDNS, Ok relayTarget =>
      let id := be_decode (take 2 payload) in
      let t := if isDNS && (2 <=? len payload)
               then mkTunnel (<[id := default [] (dnsTargets t !! id) ++ [target]]> (dnsTargets t))
               else t in
      (t, ResolveUDPAddr relayTarget)
  end.

(** A packet for the client, of [addr]: from which address it says it is. *)
Definition respond (t : udpTunnel) (addr : Relay.UDPAddr) (packet : list byte) : udpTunnel * Relay.UDPAddr :=
  if 2 <=? len packet then
    let id := be_decode (take 2 packet) in
    match dnsTargets t !! id with
    | Some (target :: rest) =>
        let t := mkTunnel (match rest with [] => delete id (dnsTargets t) | _ => <[id := rest]> (dnsTargets t) end) in
        (t, match ResolveUDPAddr target with
            | Ok a => if bool_decide (target = EmptyString) then addr else a
            | Err _ => addr
            end)
    | _ => (t, addr)
    end
  else (t, addr).

End udp.

(** ** Theorems *)

(** What the upstream resolver answered, in the order the answers were stored. *)
Record answered := mkAnswered {
  aHost : string;
  aTime : Z;
  aIps : list Relay.IP;
  aErr : option string
}.

Definition storeAll (r : dnsResolver) (l : list answered) : dnsResolver :=
  foldl (λ r a, store r (aHost a) (aTime a) (aIps a) (aErr a)) r l.

(** How long an answer is used. *)
Definition lifetime (a : answered) : Z := match aErr a with None => 30 * second | Some _ => 5 * second end.

Lemma storeAll_cache up l :
  ttl (storeAll (mkResolver up (30 * second) ∅) l) = 30 * second
  ∧ ∀ host, cache (storeAll (mkResolver up (30 * second) ∅) l) !! host =
      (λ a, mkEntry (aIps a) (aErr a) (aTime a + lifetime a)) <$> last (filter (λ a, aHost a = host) l).
Proof.
  induction l as [|a l [IHt IH]] using rev_ind; [done|]. unfold storeAll in *. rewrite foldl_app. cbn [foldl].
  split; [done|]. intros host. cbn [store cache]. rewrite filter_app.
  destruct (decide (aHost a = host)) as [<-|Hne].
  - rewrite filter_cons_True, filter_nil, last_snoc by done. cbn. rewrite lookup_insert_eq. unfold lifetime. rewrite IHt. by destruct (aErr a).
  - rewrite filter_cons_False, filter_nil by done. rewrite app_nil_r, <- IH. cbn. by rewrite lookup_insert_ne.
Qed.

(** A lookup that is answered from the cache gives the answer stored last for that
    host, and only for thirty seconds after the lookup that fetched it began, five if it
    failed; otherwise the upstream resolver is asked.  Concurrent lookups may store their
    answers in any order. *)
Theorem resolver_cache ParseIP LookupIPAddr up r0 l host now :
  newDNSResolver up = Ok r0 → ParseIP host = None →
  (lookup_ ParseIP LookupIPAddr (storeAll r0 l) host now).2 =
  match last (filter (λ a, aHost a = host) l) with
  | Some a => if now <? aTime a + lifetime a then (aIps a, aErr a) else LookupIPAddr host
  | None => LookupIPAddr host
  end.
Proof.
  unfold newDNSResolver. destruct (GoString.SplitHostPort up) as [hp|]; [|done]. intros [= <-] Hp. unfold lookup_, cached. rewrite Hp.
  rewrite (proj2 (storeAll_cache up l)). destruct (last _) as [a|]; cbn; [|done]. by destruct (now <? aTime a + lifetime a).
Qed.

Definition demoAnswers : list answered :=
  [mkAnswered "a.example" 0 [[byte_of 10; byte_of 0; byte_of 0; byte_of 1]] None;
   mkAnswered "b.example" second [] (Some "no such host"%string)].

(** Two lookups four seconds later: one answer is used, the other has expired. *)
Lemma resolver_cache_witness :
  (lookup_ (λ _, None) (λ _, ([], None)) (storeAll (mkResolver "1.1.1.1:53" (30 * second) ∅) demoAnswers) "a.example" (7 * second)).2
    = ([[byte_of 10; byte_of 0; byte_of 0; byte_of 1]], None)
  ∧ (lookup_ (λ _, None) (λ _, ([], None)) (storeAll (mkResolver "1.1.1.1:53" (30 * second) ∅) demoAnswers) "b.example" (7 * second)).2
    = ([], None).
Proof.
  split;
    rewrite (resolver_cache (λ _, None) (λ _, ([], None)) "1.1.1.1:53" (mkResolver "1.1.1.1:53" (30 * second) ∅) demoAnswers)
      by (vm_compute; reflexivity); vm_compute; reflexivity.
Defined.

(** The addresses are dialed in order, up to the first that answers. *)
Lemma dialLoop_order dialer l port lastErr host :
  let remotes := (λ ip, NetAddr.JoinHostPort (NetAddr.ipString ip) port) <$> l in
  ∃ k, (dialLoop dialer l port lastErr host).1 = take k remotes
    ∧ match (dialLoop dialer l port lastErr host).2 with
      | Ok conn => ∃ remote, last (take k remotes) = Some remote ∧ dialer remote = Ok conn
      | Err _ => take k remotes = remotes ∧ Forall (λ remote, is_ok (dialer remote) = false) remotes
      end.
Proof.
  cbn. revert lastErr. induction l as [|ip l IH]; intros lastErr; [by exists 0%nat|]. cbn [dialLoop fmap list_fmap].
  set (remote := NetAddr.JoinHostPort _ port). destruct (dialer remote) as [conn|e] eqn:E; [exists 1%nat; cbn; rewrite take_0; eauto|].
  destruct (IH (Some e)) as (k & H1 & H2). destruct (dialLoop dialer l port (Some e) host) as [at_ r]. cbn in *. exists (S k). cbn.
  split; [by rewrite H1|]. destruct r as [conn|e'].
  - destruct H2 as (x & Hx & Hd). exists x. split; [|done]. rewrite last_cons, Hx. done.
  - destruct H2 as [H2 H3]. split; [by rewrite H2|]. constructor; [by rewrite E|done].
Qed.

(** A request is answered once, whatever happens: rejected when its address is
    malformed or the target cannot be reached, accepted only with a connection to the
    target at hand.  The stream is closed at the end and no connection is left open; a
    target with port 53 is the upstream server and every other one is as asked. *)
Theorem serve_request (address upstream_ : string) (dialed : string → result nat) (accepts : bool) :
  let es := serveRequest address upstream_ dialed accepts in
  Objects.balance OStream es = -1 ∧ Objects.balance ORemote es = 0
  ∧ (∃ a l, Objects.done_ es = a :: l ∧ Forall (λ x, x = ACopy) l
       ∧ (a = AAccept ↔ ∃ host port conn, GoString.SplitHostPort address = Ok (host, port)
            ∧ dialed (if bool_decide (port = "53"%string) then upstream_ else address) = Ok conn)
       ∧ (a ≠ AAccept → l = [] ∧ ∃ e, a = AReject e)).
Proof.
  unfold serveRequest, rewriteDNSAddress, isDNSAddress. destruct (GoString.SplitHostPort address) as [[host port]|e]; cbn.
  - destruct (dialed (if bool_decide (port = "53"%string) then upstream_ else address)) as [conn|e] eqn:E; cbn.
    + split; [by destruct accepts|]. split; [by destruct accepts|]. destruct accepts; cbn; eexists _, _; (split; [done|]);
        (split; [by repeat constructor|]); (split; [split; [intros _; eauto|done]|done]).
    + split; [done|]. split; [done|]. eexists _, _. split; [done|]. split; [done|]. split; [|eauto].
      split; [done|]. intros (h & p & c & [= <- <-] & H2). congruence.
  - split; [done|]. split; [done|]. eexists _, _. split; [done|]. split; [done|]. split; [|eauto].
    split; [done|]. by intros (h & p & c & H1 & _).
Qed.

Inductive event :=
| Asked (target : string) (payload : list byte)
| Received (addr : Relay.UDPAddr) (packet : list byte).

Section answers.
Variable ResolveUDPAddr : string → result Relay.UDPAddr.
Variable upstream_ : string.

Definition udpStep (t : udpTunnel) (e : event) : udpTunnel :=
  match e with
  | Asked target payload => (relayPacket ResolveUDPAddr t upstream_ target payload).1
  | Received addr packet => (respond ResolveUDPAddr t addr packet).1
  end.

Definition udpRun (es : list event) : udpTunnel := foldl udpStep (mkTunnel ∅) es.

Definition carriesID (id : Z) (p : list byte) : bool := (2 <=? len p) && (be_decode (take 2 p) =? id).

(** The targets of the DNS queries with identifier [id], and the packets received
    with it. *)
Definition askedFor (id : Z) (es : list event) : list string :=
  omap (λ e, match e with
             | Asked target p =>
                 if carriesID id p && match isDNSAddress target with Ok b => b | Err _ => false end then Some target else None
             | Received _ _ => None
             end) es.

Definition receives (id : Z) (e : event) : bool :=
  match e with Received _ p => carriesID id p | Asked _ _ => false end.

Definition receivedFor (id : Z) (es : list event) : nat :=
  length (filter (λ e, receives id e = true) es).

(** The table holds, for every identifier, the targets that wait for an answer. *)
Lemma udp_pending es id :
  (∀ es1 es2, es = es1 ++ es2 → (receivedFor id es1 ≤ length (askedFor id es1))%nat) →
  default [] (dnsTargets (udpRun es) !! id) = drop (receivedFor id es) (askedFor id es).
Proof.
  induction es as [|e es IH] using rev_ind; intros Hle; [done|].
  assert (default [] (dnsTargets (udpRun es) !! id) = drop (receivedFor id es) (askedFor id es)) as IH'.
  { apply IH. intros es1 es2 ->. apply (Hle es1 (es2 ++ [e])). by rewrite app_assoc. }
  pose proof (Hle (es ++ [e]) [] ltac:(by rewrite app_nil_r)) as Hl. pose proof (Hle es [e] eq_refl) as Hl0.
  unfold udpRun, receivedFor, askedFor in *. rewrite foldl_app, filter_app, omap_app, !length_app in *. cbn [foldl]. clear IH Hle.
  set (t := foldl udpStep (mkTunnel ∅) es) in *. set (l := omap _ es) in *. set (n := length (filter _ es)) in *.
  destruct e as [target p|addr p]; cbn in *.
  - rewrite Nat.add_0_r. unfold relayPacket, rewriteDNSAddress. destruct (isDNSAddress target) as [b|]; cbn;
      [|rewrite andb_false_r, app_nil_r; done].
    unfold carriesID. destruct (2 <=? len p) eqn:E2; cbn; [|rewrite andb_false_r, app_nil_r; done]. rewrite andb_true_r, andb_comm.
    destruct b; cbn; [|by rewrite app_nil_r]. destruct (be_decode (take 2 p) =? id) eqn:E; b2p; cbn.
    + subst id. rewrite lookup_insert_eq. cbn. rewrite IH', drop_app_le by done. done.
    + by rewrite lookup_insert_ne, app_nil_r.
  - rewrite app_nil_r in *. unfold respond. unfold carriesID in *. destruct (2 <=? len p) eqn:E2; cbn in *; [|by rewrite Nat.add_0_r].
    destruct (be_decode (take 2 p) =? id) eqn:E; b2p; cbn in *.
    + subst id. rewrite decide_True in * by done. cbn in *. set (id := be_decode (take 2 p)) in *. rewrite <- drop_drop, <- IH'.
      destruct (dnsTargets t !! id) as [[|x rest]|] eqn:Et; cbn in *.
      * by rewrite Et.
      * destruct rest; cbn; [by rewrite lookup_delete_eq|by rewrite lookup_insert_eq].
      * by rewrite Et.
    + rewrite decide_False in * by done. rewrite Nat.add_0_r in *. destruct (dnsTargets t !! be_decode (take 2 p)) as [[|x rest]|] eqn:Et; cbn; try done.
      destruct rest; cbn; [by rewrite lookup_delete_ne|by rewrite lookup_insert_ne].
Qed.

End answers.

(** While no packet arrives that answers nothing, the packets with an identifier come
    from the addresses the client asked, in the order of its queries. *)
Lemma udp_answers resolve up es id addr p target a :
  (∀ es1 es2, es = es1 ++ es2 → (receivedFor id es1 ≤ length (askedFor id es1))%nat) →
  carriesID id p = true → askedFor id es !! receivedFor id es = Some target → target ≠ EmptyString → resolve target = Ok a →
  (respond resolve (udpRun resolve up es) addr p).2 = a.
Proof.
  intros Hle Hp Ht Hne Ha. pose proof (udp_pending resolve up es id Hle) as H. apply andb_true_iff in Hp as [H2 Hid]. b2p.
  unfold respond. case_if as E; [|lia]. rewrite Hid.
  apply drop_S in Ht. rewrite Ht in H. destruct (dnsTargets (udpRun resolve up es) !! id) as [[|x rest]|]; cbn in H; [done| |done].
  injection H as -> _. cbn. rewrite Ha. by case_bool_decide.
Qed.

(** A packet of any peer that begins with the identifier of an open query takes the
    query's place: the client gets it as if the DNS server had sent it, and the answer
    itself as if it came from the upstream server. *)
Lemma foreign_packet_takes_target :
  let resolve s := if bool_decide (s = "8.8.8.8:53"%string)
                   then Ok (Relay.mkUDPAddr [byte_of 8; byte_of 8; byte_of 8; byte_of 8] 53)
                   else Ok (Relay.mkUDPAddr [byte_of 1; byte_of 1; byte_of 1; byte_of 1] 53) in
  let other := Relay.mkUDPAddr [byte_of 10; byte_of 0; byte_of 0; byte_of 9] 4000 in
  let upAddr := Relay.mkUDPAddr [byte_of 1; byte_of 1; byte_of 1; byte_of 1] 53 in
  let packet := [byte_of 0; byte_of 7; byte_of 1] in
  let t := udpRun resolve "1.1.1.1:53" [Asked "8.8.8.8:53" packet] in
  Relay.addrPort (respond resolve t other packet).2 = 53
  ∧ (respond resolve (respond resolve t other packet).1 upAddr packet).2 = upAddr.
Proof. vm_compute. done. Qed.

End ProxyServer.
