(* ===== verification/Proxy.v ===== *)
(** * Proxy.v: sessions and streams of the p2proxy example
    (src/example/p2proxy/protocol: protocol.go, session.go, stream.go)

    A session carries streams over one connection: frames with a kind, a stream
    identifier and a payload.  The session is a machine: its read loop, and goroutines
    that execute calls ([Open], [Read], [Write], [Close], ...), each cut at its locked
    sections, its channel operations and its calls of [send].  A stream is a cell, so
    that the table, the queue of requests and the callers share it.

    The connection is the environment: it hands over received bytes in pieces of any
    size, and a call of its [Write] takes any part of the data and may fail.  The fields
    [sent], [torn], [received], [handled], [panicked] and [enqueued], [returned], [birth]
    of a stream record what happened; no step depends on them.  ProxyProofs.v has the
    proofs. *)

From S2P Require Import Prelude Threads Mux.
From Stdlib Require Import ZArith Lia String.
From stdpp Require Import base list option strings numbers gmap.

Local Open Scope Z_scope.
Local Open Scope go_scope.

Module Proxy.
Import Threads.

Definition frameOpen : Z := 1.
Definition frameOpenDatagram : Z := 2.
Definition frameOpenOK : Z := 3.
Definition frameOpenError : Z := 4.
Definition frameData : Z := 5.
Definition frameEOF : Z := 6.
Definition frameClose : Z := 7.

Definition frameHeaderSize : nat := 9.
Definition maxFramePayload : Z := Z.shiftl 64 10.
Definition maxTargetLength : Z := Z.shiftl 4 10.
Definition maxStreamQueue : Z := Z.shiftl 4 20.

Definition ErrClosed : string := "use of closed network connection".

(** ** Streams *)

(** A [sync.Once]. *)
Inductive once := NotRun | InRun | Ran.

#[export] Instance once_eq_dec : EqDecision once.
Proof. solve_decision. Defined.

(** [openResult] is the content of the channel, [None] if it is nil; an answer is an
    error or nil. *)
Record Stream := mkStream {
  sid : Z;
  incomingQueue : list (list byte);
  incomingBytes : Z;
  incomingNotify : bool;
  closed : bool;
  remoteEOF : bool;
  writeEOF : bool;
  closeOnce : once;
  readMu : bool;
  writeMu : bool;
  openResult : option (list (option string));
  responded : bool;
  writeOnce : bool;
  enqueued : list byte;
  returned : list byte;
  birth : nat
}.

#[export] Instance eta_stream : Eta Stream := fun s =>
  mkStream (sid s) (incomingQueue s) (incomingBytes s) (incomingNotify s) (closed s) (remoteEOF s) (writeEOF s)
    (closeOnce s) (readMu s) (writeMu s) (openResult s) (responded s) (writeOnce s) (enqueued s) (returned s)
    (birth s).

Definition newStream (id : Z) (openResult_ : option (list (option string))) (birth_ : nat) : Stream :=
  mkStream id [] 0 false false false false NotRun false false openResult_ false false [] [] birth_.

Definition enqueue (s : Stream) (data : list byte) : Stream * bool :=
  if len data =? 0 then (s, true)
  else if closed s then (s, false)
  else if maxStreamQueue <? incomingBytes s + len data then (s, false)
  else
    (s <| incomingQueue ::= (λ q, q ++ [data]) |> <| incomingBytes ::= (λ n, n + len data) |>
       <| incomingNotify := true |> <| enqueued ::= (λ l, l ++ data) |>, true).

(** Into a buffer of [size] bytes. *)
Definition dequeue (s : Stream) (size : nat) : Stream * list byte :=
  match incomingQueue s with
  | [] => (s, [])
  | data :: q =>
      let n := Nat.min size (length data) in
      let q := if (n =? length data)%nat then q else drop n data :: q in
      (s <| incomingQueue := q |> <| incomingBytes ::= (λ b, b - Z.of_nat n) |>
         <| returned ::= (λ l, l ++ take n data) |>, take n data)
  end.

Definition markRemoteEOF (s : Stream) : Stream := if remoteEOF s then s else s <| remoteEOF := true |>.

(** A send to [openResult] that does not block. *)
Definition answer (r : option string) (s : Stream) : Stream :=
  match openResult s with Some [] => s <| openResult := Some [r] |> | _ => s end.

(** ** Sessions *)

(** Kind, stream, payload. *)
Record frame := mkFrame {
  kind : Z;
  fid : Z;
  payload : list byte
}.

(** Address, stream, datagram. *)
Record Request := mkRequest {
  Address : list byte;
  stream : nat;
  Datagram : bool
}.

(** What the read loop does next. *)
Inductive loop :=
| RNext
| RHandle (f : frame)
| RGot (c : nat) (f : frame)
| RAdd (f : frame)
| RRequest (c : nat) (f : frame)
| RSend (f : frame)
| RMark (c : nat) (next : option Z)
| RRemove (c : nat) (next : option Z)
| REnd.

Record Session := mkSession {
  streams : gmap Z nat;
  cells : list Stream;
  nextID : Z;
  requests : list Request;
  done : bool;
  sessionOnce : once;
  readLoop : loop;
  out : list byte;
  sent : list frame;
  torn : bool;
  inbox : list byte;
  received : list byte;
  handled : list frame;
  panicked : bool
}.

#[export] Instance eta_session : Eta Session := fun s =>
  mkSession (streams s) (cells s) (nextID s) (requests s) (done s) (sessionOnce s) (readLoop s) (out s) (sent s)
    (torn s) (inbox s) (received s) (handled s) (panicked s).

Definition NewSession : Session := mkSession ∅ [] 0 [] false NotRun RNext [] [] false [] [] [] false.

Definition getStream (s : Session) (id : Z) : option nat := streams s !! id.
Definition removeStream (s : Session) (id : Z) : Session := s <| streams ::= delete id |>.

(** A new cell, in the table. *)
Definition addStream (s : Session) (id : Z) (openResult_ : option (list (option string))) : Session :=
  s <| cells ::= (λ l, l ++ [newStream id openResult_ (length (handled s))]) |>
    <| streams ::= <[id := length (cells s)]> |>.

Definition updateCell (s : Session) (c : nat) (f : Stream → Stream) : Session := s <| cells ::= alter f c |>.

(** [close] of a channel that is closed already panics. *)
Definition closeChan (b : bool) (s : Session) : Session := s <| panicked ::= (λ p, p || b) |>.

(** ** Frames *)

Definition header (f : frame) : list byte :=
  byte_of (kind f) :: be_encode 4 (fid f) ++ be_encode 4 (u32 (len (payload f))).

Definition encode (f : frame) : list byte := header f ++ payload f.

Definition writeFull : list (nat * bool) → list byte → list byte * option string * list (nat * bool) :=
  Mux.writeFull.

(** [late]: the test of [done] was made before the session was closed. *)
Definition send (s : Session) (f : frame) (late : bool) (outs : list (nat * bool)) : Session * result unit :=
  if maxFramePayload <? len (payload f) then (s, Err "proxy frame is too large")
  else if done s && negb late then (s, Err ErrClosed)
  else
    let '(taken, e, outs) := writeFull outs (header f) in
    let s := s <| out ::= (λ l, l ++ taken) |> in
    match e with
    | Some e => (s <| torn ::= (λ b, b || negb (len taken =? 0)) |>, Err e)
    | None =>
        if len (payload f) =? 0 then (s <| sent ::= (λ l, l ++ [f]) |>, Ok tt)
        else
          let '(taken, e, _) := writeFull outs (payload f) in
          let s := s <| out ::= (λ l, l ++ taken) |> in
          match e with
          | Some e => (s <| torn := true |>, Err e)
          | None => (s <| sent ::= (λ l, l ++ [f]) |>, Ok tt)
          end
    end.

(** What the read loop finds in its input. *)
Inductive parsed := NeedMore | TooLarge | Frame (f : frame) (rest : list byte).

Definition readFrame (l : list byte) : parsed :=
  if (length l <? frameHeaderSize)%nat then NeedMore
  else
    let length_ := be_decode (take 4 (drop 5 l)) in
    if maxFramePayload <? length_ then TooLarge
    else
      let n := Z.to_nat length_ in
      if (length l <? frameHeaderSize + n)%nat then NeedMore
      else Frame (mkFrame (be_decode (take 1 l)) (be_decode (take 4 (drop 1 l))) (take n (drop frameHeaderSize l)))
             (drop (frameHeaderSize + n) l).

(** ** Goroutines *)

(** What the environment decides in a step: whether a test of [done] was made in time,
    what the connection does with writes, which ready case a select takes, and the
    error of a cancelled context. *)
Record choice := mkChoice {
  late : bool;
  outs : list (nat * bool);
  pick : nat;
  ctxErr : string
}.

(** What follows [closeOnce.Do] of [markClosed] and [failOpen]. *)
Inductive continuation :=
| KFail (err : string)
| KSession (rest : list nat).

Inductive thread :=
| TOpenAdd (kind_ : Z) (address : list byte)
| TOpenSend (c : nat) (kind_ : Z) (address : list byte)
| TOpenWait (c : nat)
| TMark (c : nat) (k : continuation)
| TRemove (c : nat) (k : continuation)
| TFailResult (c : nat) (err : string)
| TFailSend (c : nat)
| TWriteLock (c : nat) (p : list byte)
| TWrite (c : nat) (p : list byte)
| TWriteSend (c : nat) (p : list byte)
| TEofLock (c : nat)
| TEofSend (c : nat)
| TClose (c : nat)
| TCloseLock (c : nat)
| TCloseRemove (c : nat)
| TCloseSend (c : nat)
| TReadLock (c : nat) (size : nat)
| TReadTop (c : nat) (size : nat)
| TReadWait (c : nat) (size : nat)
| TReadFinal (c : nat) (size : nat)
| TRespond (c : nat) (kind_ : Z) (message : list byte)
| TRespondSend (c : nat) (kind_ : Z) (message : list byte)
| TSessionClose
| TSessionTake
| TSessionMark (l : list nat).

Definition continue_ (c : nat) (k : continuation) : thread :=
  match k with KFail e => TFailResult c e | KSession l => TSessionMark l end.

(** Entering [closeOnce.Do] of [markClosed] or [failOpen]: [None] waits for a call in
    progress, [Some true] runs the function, which closes [closed]. *)
Definition markEnter (s : Session) (c : nat) : option (Session * bool) :=
  st ← cells s !! c;
  match closeOnce st with
  | NotRun =>
      Some (updateCell (closeChan (closed st) s) c (λ st, st <| closeOnce := InRun |> <| closed := true |>), true)
  | InRun => None
  | Ran => Some (s, false)
  end.

(** The rest of the function. *)
Definition markRemove (s : Session) (c : nat) : option Session :=
  st ← cells s !! c;
  Some (updateCell (removeStream s (sid st)) c (λ st, st <| closeOnce := Ran |>)).

Abbreviation step_result := (option (Session * option thread)) (only parsing).

(** A call of [send] whose error is ignored, or ends the call. *)
Definition sendStep (s : Session) (c : nat) (kind_ : Z) (data : list byte) (ch : choice)
  : option (Session * result unit) :=
  st ← cells s !! c;
  Some (send s (mkFrame kind_ (sid st) data) (late ch) (outs ch)).

(** [Session.open] and [failOpen]. *)
Definition openStep (s : Session) (t : thread) (ch : choice) : step_result :=
  match t with
  | TOpenAdd kind_ address =>
      let id := u32 (nextID s + 1) in
      let s' := addStream (s <| nextID := id |>) id (Some []) in
      Some (s', Some (TOpenSend (length (cells s)) kind_ address))
  | TOpenSend c kind_ address =>
      '(s, r) ← sendStep s c kind_ address ch;
      match r with
      | Err e => Some (s, Some (TMark c (KFail e)))
      | Ok _ => Some (s, Some (TOpenWait c))
      end
  | TOpenWait c =>
      st ← cells s !! c;
      match pick ch with
      | 0%nat =>
          match openResult st with
          | Some (r :: l) =>
              let s := updateCell s c (λ st, st <| openResult := Some l |>) in
              match r with
              | None => Some (s, None)
              | Some e => Some (s, Some (TMark c (KFail e)))
              end
          | _ => None
          end
      | 1%nat => Some (s, Some (TMark c (KFail (ctxErr ch))))
      | _ => if done s then Some (s, Some (TMark c (KFail ErrClosed))) else None
      end
  | TMark c k =>
      '(s, first) ← markEnter s c;
      Some (s, Some (if (first : bool) then TRemove c k else continue_ c k))
  | TRemove c k =>
      s ← markRemove s c;
      Some (s, Some (continue_ c k))
  | TFailResult c e => Some (updateCell s c (answer (Some e)), Some (TFailSend c))
  | TFailSend c => '(s, _) ← sendStep s c frameClose [] ch; Some (s, None)
  | _ => None
  end.

(** [Stream.Write] and [CloseWrite]; [p] is what is left to write. *)
Definition writeStep (s : Session) (t : thread) (ch : choice) : step_result :=
  match t with
  | TWriteLock c p =>
      st ← cells s !! c;
      if writeMu st then None
      else Some (updateCell s c (λ st, st <| writeMu := true |>), Some (TWrite c p))
  | TWrite c p =>
      st ← cells s !! c;
      if (len p =? 0) || closed st || writeEOF st
      then Some (updateCell s c (λ st, st <| writeMu := false |>), None)
      else Some (s, Some (TWriteSend c p))
  | TWriteSend c p =>
      let n := Z.to_nat maxFramePayload in
      '(s, r) ← sendStep s c frameData (take n p) ch;
      match r with
      | Err _ => Some (updateCell s c (λ st, st <| writeMu := false |>), None)
      | Ok _ => Some (s, Some (TWrite c (drop n p)))
      end
  | TEofLock c =>
      st ← cells s !! c;
      if writeMu st then None
      else if closed st || writeOnce st then Some (s, None)
      else Some (updateCell (closeChan (writeEOF st) s) c
                   (λ st, st <| writeMu := true |> <| writeOnce := true |> <| writeEOF := true |>),
                 Some (TEofSend c))
  | TEofSend c =>
      '(s, _) ← sendStep s c frameEOF [] ch;
      Some (updateCell s c (λ st, st <| writeMu := false |>), None)
  | _ => None
  end.

(** [Stream.Close]. *)
Definition closeStep (s : Session) (t : thread) (ch : choice) : step_result :=
  match t with
  | TClose c =>
      st ← cells s !! c;
      match closeOnce st with
      | NotRun => Some (updateCell s c (λ st, st <| closeOnce := InRun |>), Some (TCloseLock c))
      | InRun => None
      | Ran => Some (s, None)
      end
  | TCloseLock c =>
      st ← cells s !! c;
      if writeMu st then None
      else Some (updateCell (closeChan (closed st) s) c
                   (λ st, st <| writeMu := true |> <| writeEOF := true |> <| closed := true |>),
                 Some (TCloseRemove c))
  | TCloseRemove c =>
      st ← cells s !! c;
      Some (removeStream s (sid st), Some (TCloseSend c))
  | TCloseSend c =>
      '(s, _) ← sendStep s c frameClose [] ch;
      Some (updateCell s c (λ st, st <| writeMu := false |> <| closeOnce := Ran |>), None)
  | _ => None
  end.

(** [Stream.Read] into [size] bytes. *)
Definition readStep (s : Session) (t : thread) (ch : choice) : step_result :=
  match t with
  | TReadLock c size =>
      st ← cells s !! c;
      if readMu st then None
      else Some (updateCell s c (λ st, st <| readMu := true |>), Some (TReadTop c size))
  | TReadTop c size =>
      st ← cells s !! c;
      let '(st', data) := dequeue st size in
      if 0 <? len data then Some (updateCell s c (λ _, st' <| readMu := false |>), None)
      else Some (updateCell s c (λ _, st'), Some (TReadWait c size))
  | TReadWait c size =>
      st ← cells s !! c;
      match pick ch with
      | 0%nat =>
          if incomingNotify st
          then Some (updateCell s c (λ st, st <| incomingNotify := false |>), Some (TReadTop c size))
          else None
      | _ => if closed st || remoteEOF st || done s then Some (s, Some (TReadFinal c size)) else None
      end
  | TReadFinal c size =>
      st ← cells s !! c;
      Some (updateCell s c (λ _, ((dequeue st size).1) <| readMu := false |>), None)
  | _ => None
  end.

(** [Accept] and [Reject] of a stream. *)
Definition respondStep (s : Session) (t : thread) (ch : choice) : step_result :=
  match t with
  | TRespond c kind_ message =>
      st ← cells s !! c;
      if responded st then Some (s, None)
      else Some (updateCell s c (λ st, st <| responded := true |>), Some (TRespondSend c kind_ message))
  | TRespondSend c kind_ message => '(s, _) ← sendStep s c kind_ message ch; Some (s, None)
  | _ => None
  end.

(** [Session.Close]. *)
Definition sessionCloseStep (s : Session) (t : thread) : step_result :=
  match t with
  | TSessionClose =>
      match sessionOnce s with
      | NotRun => Some ((closeChan (done s) s) <| sessionOnce := InRun |> <| done := true |>, Some TSessionTake)
      | InRun => None
      | Ran => Some (s, None)
      end
  | TSessionTake => Some (s <| streams := ∅ |>, Some (TSessionMark (map_to_list (streams s)).*2))
  | TSessionMark [] => Some (s <| sessionOnce := Ran |>, None)
  | TSessionMark (c :: l) => Some (s, Some (TMark c (KSession l)))
  | _ => None
  end.

Definition threadStep (s : Session) (t : thread) (ch : choice) : step_result :=
  match t with
  | TOpenAdd _ _ | TOpenSend _ _ _ | TOpenWait _ | TMark _ _ | TRemove _ _ | TFailResult _ _ | TFailSend _ =>
      openStep s t ch
  | TWriteLock _ _ | TWrite _ _ | TWriteSend _ _ | TEofLock _ | TEofSend _ => writeStep s t ch
  | TClose _ | TCloseLock _ | TCloseRemove _ | TCloseSend _ => closeStep s t ch
  | TReadLock _ _ | TReadTop _ _ | TReadWait _ _ | TReadFinal _ _ => readStep s t ch
  | TRespond _ _ _ | TRespondSend _ _ _ => respondStep s t ch
  | TSessionClose | TSessionTake | TSessionMark _ => sessionCloseStep s t
  end.

(** ** The read loop *)

Definition bytes (s : string) : list byte := bytes_of s.

(** [handleFrame], up to the table. *)
Definition handleFrame (s : Session) (f : frame) : Session :=
  if (kind f =? frameOpen) || (kind f =? frameOpenDatagram) then
    if (len (payload f) =? 0) || (maxTargetLength <? len (payload f))
    then s <| readLoop := RSend (mkFrame frameOpenError (fid f) (bytes "invalid proxy target")) |>
    else match getStream s (fid f) with
    | Some _ => s <| readLoop := RSend (mkFrame frameOpenError (fid f) (bytes "duplicate proxy stream")) |>
    | None => s <| readLoop := RAdd f |>
    end
  else if (frameOpenOK <=? kind f) && (kind f <=? frameClose) then
    match getStream s (fid f) with
    | Some c => s <| readLoop := RGot c f |>
    | None => s <| readLoop := RNext |>
    end
  else s <| readLoop := RNext |>.

(** The rest, for a stream that was found. *)
Definition handleStream (s : Session) (c : nat) (f : frame) : option Session :=
  st ← cells s !! c;
  if kind f =? frameOpenOK then Some ((updateCell s c (answer None)) <| readLoop := RNext |>)
  else if kind f =? frameOpenError then
    let err := ("remote target connection failed: " +:+ String.string_of_list_byte (payload f))%string in
    Some ((updateCell s c (answer (Some err))) <| readLoop := RNext |>)
  else if kind f =? frameData then
    let '(st', ok) := enqueue st (payload f) in
    let s := updateCell s c (λ _, st') in
    Some (s <| readLoop := if (ok : bool) then RNext else RMark c (Some (fid f)) |>)
  else if kind f =? frameEOF then Some ((updateCell s c markRemoteEOF) <| readLoop := RNext |>)
  else Some (s <| readLoop := RMark c None |>).

(** The read loop after [markClosed]: it sends [frameClose] if the queue was full. *)
Definition afterMark (next : option Z) : loop :=
  match next with Some id => RSend (mkFrame frameClose id []) | None => RNext end.

(** A step of the read loop; [true]: it goes on to close the session. *)
Definition loopStep (s : Session) (ch : choice) : option (Session * bool) :=
  match readLoop s with
  | RNext =>
      match readFrame (inbox s) with
      | NeedMore => if (pick ch =? 1)%nat then Some (s <| readLoop := REnd |>, true) else None
      | TooLarge => Some (s <| readLoop := REnd |>, true)
      | Frame f rest =>
          Some (s <| inbox := rest |> <| readLoop := RHandle f |>, false)
      end
  | RHandle f => Some (handleFrame (s <| handled ::= (λ l, l ++ [f]) |>) f, false)
  | RGot c f => s ← handleStream s c f; Some (s, false)
  | RAdd f =>
      let c := length (cells s) in
      Some ((addStream s (fid f) None) <| readLoop := RRequest c f |>, false)
  | RRequest c f =>
      match pick ch with
      | 0%nat =>
          if len (requests s) <? 64
          then Some (s <| requests ::= (λ l, l ++ [mkRequest (payload f) c (kind f =? frameOpenDatagram)]) |>
                       <| readLoop := RNext |>, false)
          else None
      | _ => if done s then Some (s <| readLoop := RMark c None |>, false) else None
      end
  | RSend f => let '(s, _) := send s f (late ch) (outs ch) in Some (s <| readLoop := RNext |>, false)
  | RMark c next =>
      '(s, first) ← markEnter s c;
      Some (s <| readLoop := if (first : bool) then RRemove c next else afterMark next |>, false)
  | RRemove c next =>
      s ← markRemove s c;
      Some (s <| readLoop := afterMark next |>, false)
  | REnd => None
  end.

(** ** The machine *)

Record state := mkState {
  session : Session;
  threads : gmap nat thread
}.

#[export] Instance eta_state : Eta state := fun s => mkState (session s) (threads s).

(** Calls of the application; a stream is a cell it has got from [Open] or [Accept]. *)
Inductive call :=
| COpen (datagram : bool) (address : list byte)
| CWrite (c : nat) (p : list byte)
| CCloseWrite (c : nat)
| CRead (c : nat) (size : nat)
| CClose (c : nat)
| CAccept (c : nat)
| CReject (c : nat) (err : option (list byte))
| CSessionClose.

(** The goroutine of a call, if it gets beyond its first tests. *)
Definition callThread (s : Session) (c : call) : option thread :=
  match c with
  | COpen datagram address =>
      if (len address =? 0) || (maxTargetLength <? len address) || done s then None
      else Some (TOpenAdd (if datagram then frameOpenDatagram else frameOpen) address)
  | CWrite c p => Some (TWriteLock c p)
  | CCloseWrite c => Some (TEofLock c)
  | CRead c size => Some (TReadLock c size)
  | CClose c => Some (TClose c)
  | CAccept c => Some (TRespond c frameOpenOK [])
  | CReject c err =>
      let message := match err with
                     | Some (b :: e) => b :: e
                     | _ => bytes "connection rejected"
                     end in
      Some (TRespond c frameOpenError (take (Z.to_nat maxFramePayload) message))
  | CSessionClose => Some TSessionClose
  end.

(** The stream a call is about exists. *)
Definition callOk (s : Session) (c : call) : bool :=
  match c with
  | CWrite c _ | CCloseWrite c | CRead c _ | CClose c | CAccept c | CReject c _ => (c <? length (cells s))%nat
  | COpen _ _ | CSessionClose => true
  end.

Inductive label :=
| LCall (c : call)
| LThread (i : nat) (ch : choice)
| LLoop (ch : choice)
| LReceive (data : list byte)
| LAcceptRequest.

Definition step (st : state) (l : label) : option state :=
  let s := session st in
  match l with
  | LCall c =>
      if callOk s c then
        Some (match callThread s c with Some t => st <| threads ::= (λ m, spawn m t) |> | None => st end)
      else None
  | LThread i ch =>
      t ← threads st !! i;
      '(s, t') ← threadStep s t ch;
      Some (mkState s (after (threads st) i t' []))
  | LLoop ch =>
      '(s, close) ← loopStep s ch;
      Some (mkState s (if (close : bool) then spawn (threads st) TSessionClose else threads st))
  | LReceive data =>
      Some (st <| session := s <| inbox ::= (λ l, l ++ data) |> <| received ::= (λ l, l ++ data) |> |>)
  | LAcceptRequest =>
      match requests s with
      | [] => None
      | _ :: rs => Some (st <| session := s <| requests := rs |> |>)
      end
  end.

Fixpoint steps (st : state) (ls : list label) : option state :=
  match ls with
  | [] => Some st
  | l :: ls => st ← step st l; steps st ls
  end.

Definition initial : state := mkState NewSession ∅.

End Proxy.
