(* ===== verification/ProxyProofs.v ===== *)
(** * ProxyProofs.v: proofs about the sessions of Proxy.v

    The invariant of a session: what its cells, its table, its goroutines and its two
    directions of bytes satisfy after any run. *)

From S2P Require Import Prelude Threads Mux MuxProofs Proxy.
From Stdlib Require Import ZArith Lia String.
From stdpp Require Import base list option strings numbers gmap.

Local Open Scope Z_scope.
Local Open Scope go_scope.

Module ProxyProofs.
Import Threads Proxy.

#[local] Arguments maxStreamQueue : simpl never.
#[local] Arguments maxFramePayload : simpl never.
#[local] Arguments maxTargetLength : simpl never.
#[local] Arguments header : simpl never.
#[local] Arguments closeChan : simpl never.
#[local] Arguments encode : simpl never.

(** ** Frames *)

Definition frame_ok (f : frame) : Prop :=
  0 ≤ kind f < 256 ∧ 0 ≤ fid f < 2 ^ 32 ∧ len (payload f) ≤ maxFramePayload.

Lemma proxy_header_length f : length (header f) = frameHeaderSize.
Proof. unfold header. cbn [length]. by rewrite length_app, !be_encode_length. Qed.

Lemma encode_length f : length (encode f) = (frameHeaderSize + length (payload f))%nat.
Proof. unfold encode. by rewrite length_app, proxy_header_length. Qed.

Lemma be_byte b : be_decode [b] = byte_val b.
Proof. unfold be_decode. cbn. lia. Qed.

(** The fields of an encoded frame. *)
Lemma encode_fields f l :
  frame_ok f →
  be_decode (take 1 (encode f ++ l)) = kind f ∧ be_decode (take 4 (drop 1 (encode f ++ l))) = fid f
  ∧ be_decode (take 4 (drop 5 (encode f ++ l))) = len (payload f)
  ∧ drop frameHeaderSize (encode f ++ l) = payload f ++ l.
Proof.
  intros (Hk & Hf & Hp). unfold encode, header.
  assert (0 ≤ len (payload f) < 2 ^ 32) as Hl
    by (pose proof (len_nonneg (payload f)); change maxFramePayload with 65536 in Hp; lia).
  pose proof (be_encode_length 4 (fid f)) as L1. pose proof (be_encode_length 4 (u32 (len (payload f)))) as L2.
  assert (be_decode (be_encode 4 (fid f)) = fid f) as D1 by (rewrite be_decode_encode; apply Z.mod_small; change (256 ^ Z.of_nat 4) with (2 ^ 32); lia).
  assert (be_decode (be_encode 4 (u32 (len (payload f)))) = len (payload f)) as D2.
  { rewrite be_decode_encode. unfold u32. rewrite (Z.mod_small (len _)) by lia. apply Z.mod_small.
    change (256 ^ Z.of_nat 4) with (2 ^ 32). lia. }
  set (e1 := be_encode 4 (fid f)) in *. set (e2 := be_encode 4 (u32 (len (payload f)))) in *. clearbody e1 e2.
  unfold frameHeaderSize. rewrite <- !app_assoc. cbn [app drop]. rewrite <- !app_assoc.
  assert (∀ x, drop 4 (e1 ++ x) = x) as A1 by (intros; by apply drop_app_length').
  split; [cbn [take]; rewrite be_byte, byte_val_of; apply Z.mod_small; lia|].
  rewrite drop_0. split; [by rewrite take_app_length'|]. rewrite A1. split; [by rewrite take_app_length'|].
  change 8%nat with (4 + 4)%nat. rewrite <- drop_drop, A1. by apply drop_app_length'.
Qed.

(** An encoded frame is read back, whatever follows. *)
Lemma readFrame_encode f l : frame_ok f → readFrame (encode f ++ l) = Frame f l.
Proof.
  intros Hf. destruct (encode_fields f l Hf) as (E1 & E2 & E3 & E4). unfold readFrame.
  rewrite E1, E2, E3, E4. unfold len. rewrite Nat2Z.id.
  assert (length (encode f ++ l) = frameHeaderSize + length (payload f) + length l)%nat as HL
    by (by rewrite length_app, encode_length).
  rewrite HL. case_if as H1; [lia|]. destruct Hf as (_ & _ & Hp). unfold len in Hp. case_if as H2; [lia|].
  case_if as H3; [lia|]. rewrite take_app_length, drop_app_length' by (by rewrite encode_length). by destruct f.
Qed.

(** What is read is an encoded frame. *)
Lemma readFrame_spec l f rest : readFrame l = Frame f rest → l = encode f ++ rest ∧ frame_ok f.
Proof.
  unfold readFrame. case_if as H1; [done|]. set (n := be_decode (take 4 (drop 5 l))).
  case_if as H2; [done|]. case_if as H3; [done|]. intros H. injection H as <- <-.
  assert (length (take 4 (drop 5 l)) = 4%nat) as L4 by (rewrite length_take, length_drop; unfold frameHeaderSize in *; lia).
  pose proof (be_decode_range (take 4 (drop 5 l))) as R. rewrite L4 in R. fold n in R. change (256 ^ Z.of_nat 4) with (2 ^ 32) in R.
  assert (length (take (Z.to_nat n) (drop frameHeaderSize l)) = Z.to_nat n) as Lp
    by (rewrite length_take, length_drop; lia).
  assert (be_encode 4 (be_decode (take 4 (drop 1 l))) = take 4 (drop 1 l)) as E1.
  { rewrite <- (be_encode_decode (take 4 (drop 1 l))) at 2. f_equal.
    rewrite length_take, length_drop. unfold frameHeaderSize in *. lia. }
  assert (be_encode 4 n = take 4 (drop 5 l)) as E2 by (rewrite <- L4 at 1; apply be_encode_decode).
  destruct l as [|b l]; [unfold frameHeaderSize in H1; cbn in H1; lia|]. split.
  - unfold encode, header. cbn [kind fid payload]. unfold len. rewrite Lp, E1. unfold u32.
    rewrite (Z.mod_small (Z.of_nat _)) by lia. rewrite Z2Nat.id, E2 by lia.
    change (take 1 (b :: l)) with [b]. rewrite be_byte, byte_of_val. cbn [app]. f_equal.
    change (drop 1 (b :: l)) with l. change (drop 5 (b :: l)) with (drop 4 l).
    unfold frameHeaderSize. change (drop 9 (b :: l)) with (drop 8 l).
    change (drop (9 + Z.to_nat n) (b :: l)) with (drop (8 + Z.to_nat n) l).
    rewrite <- !app_assoc. rewrite <- (drop_drop l (Z.to_nat n) 8) at 1.
    rewrite (take_drop (Z.to_nat n) (drop 8 l)). replace (drop 8 l) with (drop 4 (drop 4 l)) by by rewrite drop_drop.
    by rewrite (take_drop 4 (drop 4 l)), take_drop.
  - unfold frame_ok. cbn [kind fid payload]. change (take 1 (b :: l)) with [b]. rewrite be_byte.
    pose proof (byte_val_range b). pose proof (be_decode_range (take 4 (drop 1 (b :: l)))) as R1.
    assert (length (take 4 (drop 1 (b :: l))) = 4%nat) as L1
      by (rewrite length_take, length_drop; unfold frameHeaderSize in H1; lia).
    rewrite L1 in R1. change (256 ^ Z.of_nat 4) with (2 ^ 32) in R1. unfold len. rewrite Lp. lia.
Qed.

Definition bytesOf (fs : list frame) : list byte := concat (encode <$> fs).

#[local] Arguments bytesOf : simpl never.

Lemma streamBytes_app fs gs : bytesOf (fs ++ gs) = bytesOf fs ++ bytesOf gs.
Proof. unfold bytesOf. by rewrite fmap_app, concat_app. Qed.

Lemma bytesOf_one f : bytesOf [f] = encode f.
Proof. unfold bytesOf. cbn. apply app_nil_r. Qed.

(** Frames that were received are frames that were sent. *)
Lemma prefix_frames fs1 fs2 rest :
  Forall frame_ok fs1 → Forall frame_ok fs2 → bytesOf fs1 ++ rest `prefix_of` bytesOf fs2 →
  ∃ fs3, fs2 = fs1 ++ fs3 ∧ rest `prefix_of` bytesOf fs3.
Proof.
  intros H1. revert fs2. induction H1 as [|f1 fs1 Hf1 H1 IH]; intros fs2 H2 [Y HY]; [by exists fs2; split; [|exists Y]|].
  destruct H2 as [|f2 fs2 Hf2 H2].
  { unfold bytesOf in HY. cbn in HY. done. }
  change (bytesOf (f1 :: fs1)) with (encode f1 ++ bytesOf fs1) in HY.
  change (bytesOf (f2 :: fs2)) with (encode f2 ++ bytesOf fs2) in HY. rewrite <- !app_assoc in HY.
  pose proof (readFrame_encode f2 (bytesOf fs2) Hf2) as HR. rewrite HY, readFrame_encode in HR by done.
  injection HR as <- HZ. destruct (IH fs2 H2) as (fs3 & -> & Hp).
  { exists Y. by rewrite <- app_assoc. }
  by exists fs3.
Qed.

Lemma prefix_not_large rest fs : Forall frame_ok fs → rest `prefix_of` bytesOf fs → readFrame rest ≠ TooLarge.
Proof.
  intros HF [Y HY]. unfold readFrame. case_if as H1; [done|]. case_if as H2; [|by case_if as H3].
  exfalso. destruct HF as [|f fs Hf HF].
  { unfold bytesOf in HY. cbn in HY. symmetry in HY. apply app_eq_nil in HY as [-> _]. cbn in H1.
    unfold frameHeaderSize in H1. lia. }
  change (bytesOf (f :: fs)) with (encode f ++ bytesOf fs) in HY.
  destruct (encode_fields f (bytesOf fs) Hf) as (_ & _ & E & _). rewrite HY in E. destruct Hf as (_ & _ & Hf).
  unfold frameHeaderSize in H1. rewrite drop_app_le in E by lia. rewrite take_app_le in E by (rewrite length_drop; lia).
  rewrite E in H2. lia.
Qed.

(** ** The invariant *)

(** The payloads for a stream. *)
Definition dataOf (id : Z) (fs : list frame) : list byte :=
  concat (payload <$> filter (λ f, kind f = frameData ∧ fid f = id) fs).

#[local] Arguments dataOf : simpl never.

Lemma dataOf_app id fs gs : dataOf id (fs ++ gs) = dataOf id fs ++ dataOf id gs.
Proof. unfold dataOf. by rewrite filter_app, fmap_app, concat_app. Qed.

Lemma dataOf_one id f :
  dataOf id [f] = if bool_decide (kind f = frameData ∧ fid f = id) then payload f else [].
Proof.
  unfold dataOf. rewrite filter_cons, filter_nil. case_decide; case_bool_decide; try done. cbn. apply app_nil_r.
Qed.

Record cell_ok (st : Stream) : Prop := {
  c_id : 0 ≤ sid st < 2 ^ 32;
  c_bytes : enqueued st = returned st ++ concat (incomingQueue st);
  c_count : incomingBytes st = len (concat (incomingQueue st));
  c_limit : incomingBytes st ≤ maxStreamQueue;
  c_nonempty : Forall (λ d, d ≠ []) (incomingQueue st);
  c_notrun : closeOnce st = NotRun → closed st = false;
  c_ran : closeOnce st = Ran → closed st = true;
  c_eof : writeEOF st = true → writeOnce st = true ∨ closed st = true
}.

(** What the stream should have got since it exists. *)
Definition expected (s : Session) (st : Stream) : list byte := dataOf (sid st) (drop (birth st) (handled s)).

(** The read loop has a data frame for [c] in hand, or was refused by it. *)
Definition carrying (l : loop) (c : nat) : option (list byte) :=
  match l with RGot c' f => if bool_decide (c' = c ∧ kind f = frameData) then Some (payload f) else None | _ => None end.

Definition refused (l : loop) (c : nat) : bool :=
  match l with RMark c' (Some _) => bool_decide (c' = c) | _ => false end.

Record cell_data (s : Session) (c : nat) (st : Stream) : Prop := {
  d_birth : (birth st ≤ length (handled s))%nat;
  d_prefix : enqueued st `prefix_of` expected s st;
  d_carry p : carrying (readLoop s) c = Some p → closed st = false → enqueued st ++ p = expected s st;
  d_open : streams s !! sid st = Some c → closed st = false → carrying (readLoop s) c = None →
           refused (readLoop s) c = false → enqueued st = expected s st
}.

Definition has (s : Session) (c : nat) (P : Stream → Prop) : Prop := ∃ st, cells s !! c = Some st ∧ P st.

Definition exists_ (s : Session) (c : nat) : Prop := has s c (λ _, True).

Definition id_ok (z : Z) : Prop := 0 ≤ z < 2 ^ 32.
Definition kind_ok (z : Z) : Prop := 0 ≤ z < 256.

Definition loop_ok (s : Session) (l : loop) : Prop :=
  match l with
  | RNext | REnd => True
  | RHandle f | RAdd f => frame_ok f
  | RGot c f => exists_ s c ∧ frame_ok f
  | RRequest c f => exists_ s c ∧ frame_ok f
  | RSend f => kind_ok (kind f) ∧ id_ok (fid f)
  | RMark c next => exists_ s c ∧ (∀ id, next = Some id → id_ok id)
  | RRemove c next => has s c (λ st, closed st = true) ∧ (∀ id, next = Some id → id_ok id)
  end.

Definition inHand (l : loop) : list byte := match l with RHandle f => encode f | _ => [] end.

Record session_ok (s : Session) : Prop := {
  s_panic : panicked s = false;
  s_cells c st : cells s !! c = Some st → cell_ok st;
  s_table id c : streams s !! id = Some c → has s c (λ st, sid st = id);
  s_data c st : cells s !! c = Some st → cell_data s c st;
  s_once : sessionOnce s = NotRun → done s = false;
  s_next : 0 ≤ nextID s < 2 ^ 32;
  s_out : torn s = false → out s = bytesOf (sent s);
  s_sent : Forall frame_ok (sent s);
  s_in : received s = bytesOf (handled s) ++ inHand (readLoop s) ++ inbox s;
  s_handled : Forall frame_ok (handled s);
  s_loop : loop_ok s (readLoop s)
}.

(** ** Changes of a session *)

Lemma update_lookup s c g d st' :
  cells (updateCell s c g) !! d = Some st' →
  (d ≠ c ∧ cells s !! d = Some st') ∨ (d = c ∧ ∃ st, cells s !! c = Some st ∧ st' = g st).
Proof.
  unfold updateCell. cbn. intros H. destruct (decide (d = c)) as [->|Hne].
  - rewrite list_lookup_alter_eq in H. apply fmap_Some in H as (st & Hst & ->). right. eauto.
  - rewrite list_lookup_alter_ne in H by done. by left.
Qed.

Lemma update_at s c g st : cells s !! c = Some st → cells (updateCell s c g) !! c = Some (g st).
Proof. intros H. unfold updateCell. cbn. by rewrite list_lookup_alter_eq, H. Qed.

Lemma has_update s c g d (P : Stream → Prop) :
  has s d P → (∀ st, d = c → cells s !! c = Some st → P st → P (g st)) → has (updateCell s c g) d P.
Proof.
  intros (st & H & HP) Hg. destruct (decide (d = c)) as [->|Hne].
  - exists (g st). split; [by apply update_at|by apply Hg].
  - exists st. split; [|done]. unfold updateCell. cbn. by rewrite list_lookup_alter_ne by done.
Qed.

Lemma exists_update s c g d : exists_ s d → exists_ (updateCell s c g) d.
Proof. intros H. by apply has_update. Qed.

(** What no step may take back. *)
Record keeps (st st' : Stream) : Prop := {
  k_sid : sid st' = sid st;
  k_birth : birth st' = birth st;
  k_closed : closed st = true → closed st' = true;
  k_once : closeOnce st ≠ NotRun → closeOnce st' ≠ NotRun
}.

Lemma keeps_refl st : keeps st st.
Proof. by split. Qed.

Lemma loop_ok_update s c g :
  (∀ st, cells s !! c = Some st → keeps st (g st)) → loop_ok s (readLoop s) →
  loop_ok (updateCell s c g) (readLoop s).
Proof.
  intros Hk. destruct (readLoop s) as [|f|d f|f|d f|f|d next|d next|]; cbn; try done;
    intros [H1 H2]; (split; [|done]); apply has_update; try done.
  intros st -> Hst Hc. by apply (Hk st Hst).
Qed.

Lemma ok_cell s c g :
  session_ok s →
  (∀ st, cells s !! c = Some st → cell_ok (g st) ∧ keeps st (g st) ∧ enqueued (g st) = enqueued st) →
  session_ok (updateCell s c g).
Proof.
  intros H Hg. destruct H as [Hp Hc Ht Hd Ho Hn Hw Hs Hi Hh Hl]. split; try done.
  - intros d st' [[_ Hx]|(-> & st & Hx & ->)]%update_lookup; [by eapply Hc|by apply (Hg st Hx)].
  - intros id d Hx. apply (has_update s c g d _ (Ht id d Hx)). intros st _ Hst <-. apply (Hg st Hst).
  - intros d st' [[_ Hx]|(-> & st & Hx & ->)]%update_lookup.
    + by destruct (Hd d st' Hx).
    + destruct (Hg st Hx) as (_ & [K1 K2 K3 _] & He). destruct (Hd c st Hx) as [D1 D2 D3 D4].
      assert (expected (updateCell s c g) (g st) = expected s st) as HE by (unfold expected; by rewrite K1, K2).
      assert (closed (g st) = false → closed st = false) as Hc' by (intros; by destruct (closed st); [rewrite K3 in *|]).
      split; rewrite ?HE, ?He, ?K1, ?K2; auto.
  - change (readLoop (updateCell s c g)) with (readLoop s). apply loop_ok_update; [|done].
    intros st Hst. apply (Hg st Hst).
Qed.

(** What sending needs to know: [s2] differs from [s1] in its output only. *)
Lemma ok_wire s1 s2 :
  s2 = mkSession (streams s1) (cells s1) (nextID s1) (requests s1) (done s1) (sessionOnce s1) (readLoop s1)
         (out s2) (sent s2) (torn s2) (inbox s1) (received s1) (handled s1) (panicked s1) →
  (torn s2 = false → out s2 = bytesOf (sent s2)) → Forall frame_ok (sent s2) → session_ok s1 → session_ok s2.
Proof.
  intros -> Ho Hs [H1 H2 H3 H4 H5 H6 H7 H8 H9 H10 H11]. split; try done.
  intros d st Hst. by destruct (H4 d st Hst).
Qed.

Lemma sent_ok s f :
  session_ok s → kind_ok (kind f) → id_ok (fid f) → len (payload f) ≤ maxFramePayload →
  Forall frame_ok (sent s ++ [f]).
Proof.
  intros Hok Hk Hi Hl. apply Forall_app. split; [apply Hok|]. constructor; [by split|constructor].
Qed.

Lemma send_frame s f lt os s' r :
  send s f lt os = (s', r) →
  cells s' = cells s ∧ streams s' = streams s ∧ readLoop s' = readLoop s ∧ handled s' = handled s
  ∧ done s' = done s ∧ requests s' = requests s ∧ (session_ok s → kind_ok (kind f) → id_ok (fid f) → session_ok s')
  ∧ match r with Ok _ => sent s' = sent s ++ [f] | Err _ => sent s' = sent s end.
Proof.
  unfold send. destruct (maxFramePayload <? len (payload f)) eqn:EL; b2p; [by intros [= <- <-]|].
  destruct (done s && negb lt); [by intros [= <- <-]|].
  destruct (writeFull os (header f)) as [[t1 e1] os1] eqn:E1.
  destruct e1 as [e1|].
  { intros [= <- <-]. do 6 (split; [done|]). split; [|done]. intros Hok Hk Hid. apply (ok_wire s); try done; [|apply Hok].
    cbn. intros [Ht Hn]%orb_false_iff. b2p. apply len_0 in Hn. subst t1. rewrite app_nil_r. by apply Hok. }
  apply MuxProofs.writeFull_spec in E1 as [_ E1]. specialize (E1 eq_refl). subst t1. destruct (len (payload f) =? 0) eqn:E0; b2p.
  { intros [= <- <-]. do 6 (split; [done|]). split; [|done]. intros Hok Hk Hid. apply (ok_wire s); try done.
    - cbn. intros Ht. rewrite streamBytes_app, bytesOf_one, (s_out s Hok Ht). f_equal.
      unfold encode. apply len_0 in E0. by rewrite E0, app_nil_r.
    - by apply sent_ok. }
  destruct (writeFull os1 (payload f)) as [[t2 e2] os2] eqn:E2. destruct e2 as [e2|].
  { intros [= <- <-]. do 6 (split; [done|]). split; [|done]. intros Hok Hk Hid. apply (ok_wire s); try done. apply Hok. }
  apply MuxProofs.writeFull_spec in E2 as [_ E2]. specialize (E2 eq_refl). subst t2. intros [= <- <-]. do 6 (split; [done|]). split; [|done].
  intros Hok Hk Hid. apply (ok_wire s); try done.
  - cbn. intros Ht. by rewrite streamBytes_app, bytesOf_one, (s_out s Hok Ht), <- app_assoc.
  - by apply sent_ok.
Qed.

Lemma closeChan_false s : closeChan false s = s.
Proof. destruct s. unfold closeChan. cbn. by rewrite orb_false_r. Qed.

Lemma has_cells s s' c P : cells s' = cells s → has s c P → has s' c P.
Proof. unfold has. by intros ->. Qed.

Lemma ok_remove s id : session_ok s → session_ok (removeStream s id).
Proof.
  intros [Hp Hc Ht Hd Ho Hn Hw Hs Hi Hh Hl]. split; try done.
  - intros i c Hx. cbn in Hx. apply lookup_delete_Some in Hx as [_ Hx]. by apply (Ht i c).
  - intros c st Hst. destruct (Hd c st Hst) as [D1 D2 D3 D4]. split; try done.
    cbn. intros Hx. apply lookup_delete_Some in Hx as [_ Hx]. by apply D4.
Qed.

Lemma ok_add s id r : session_ok s → id_ok id → session_ok (addStream s id r).
Proof.
  intros [Hp Hc Ht Hd Ho Hn Hw Hs Hi Hh Hl] Hid.
  assert (∀ c P, has s c P → has (addStream s id r) c P) as Hmono.
  { intros c P (st & Hx & HP). exists st. split; [|done]. by apply lookup_app_l_Some. }
  assert (∀ c st, cells (addStream s id r) !! c = Some st →
    cells s !! c = Some st ∨ c = length (cells s) ∧ st = newStream id r (length (handled s))) as Hlook.
  { intros c st Hx. cbn in Hx. apply lookup_app_Some in Hx as [?|[? Hx]]; [by left|right]. apply list_lookup_singleton_Some in Hx as [? <-]. split; [lia|done]. }
  split; try done.
  - intros c st [?|[-> ->]]%Hlook; [by eapply Hc|]. split; cbn; try done; try (by intros; discriminate).
  - intros i c. cbn. intros [[<- <-]|[_ Hx]]%lookup_insert_Some.
    + exists (newStream id r (length (handled s))). split; [|done]. cbn. apply list_lookup_middle. done.
    + by apply Hmono, Ht.
  - intros c st [Hx|[-> ->]]%Hlook.
    + destruct (Hd c st Hx) as [D1 D2 D3 D4]. split; try done. cbn. intros [[_ <-]|[_ Hy]]%lookup_insert_Some.
      * apply lookup_lt_Some in Hx. lia.
      * by apply D4.
    + split; cbn; unfold expected; cbn; rewrite ?drop_all; try done.
      intros p Hcar. exfalso. cbn in Hl. destruct (readLoop s) as [| |c' f| | | | | |]; try done. cbn in Hcar.
      case_bool_decide as E; [|done]. destruct E as [-> _]. destruct Hl as [(st & Hst & _) _].
      apply lookup_lt_Some in Hst. lia.
  - cbn. destruct (readLoop s) as [|f|d f|f|d f|f|d next|d next|]; cbn in *; try done;
      destruct Hl as [Hl1 Hl2]; (split; [by apply Hmono|done]).
Qed.

(** ** Goroutines *)

Definition cont_ok (s : Session) (k : continuation) : Prop :=
  match k with KFail _ => True | KSession l => Forall (exists_ s) l end.

(** A waiting reader was told of everything in the queue. *)
Definition wakes (size : nat) (st : Stream) : Prop :=
  (0 < size)%nat → incomingQueue st ≠ [] → incomingNotify st = true.

Definition thread_ok (s : Session) (t : thread) : Prop :=
  match t with
  | TOpenAdd k _ => kind_ok k
  | TOpenSend c k _ | TRespond c k _ | TRespondSend c k _ => exists_ s c ∧ kind_ok k
  | TOpenWait c | TFailResult c _ | TFailSend c | TWriteLock c _ | TWrite c _ | TWriteSend c _ | TEofLock c
  | TEofSend c | TClose c | TReadLock c _ => exists_ s c
  | TMark c k => exists_ s c ∧ cont_ok s k
  | TRemove c k => has s c (λ st, closed st = true) ∧ cont_ok s k
  | TCloseLock c => has s c (λ st, closeOnce st ≠ NotRun ∧ closed st = false)
  | TCloseRemove c | TCloseSend c => has s c (λ st, closed st = true)
  | TReadTop c _ | TReadFinal c _ => has s c (λ st, readMu st = true)
  | TReadWait c size => has s c (λ st, readMu st = true ∧ wakes size st)
  | TSessionClose | TSessionTake => True
  | TSessionMark l => Forall (exists_ s) l
  end.

(** The stream a goroutine reads from, holding its [readMu]. *)
Definition reading (t : thread) : option nat :=
  match t with TReadTop c _ | TReadWait c _ | TReadFinal c _ => Some c | _ => None end.

(** What a step of [t] does to a cell [c]: the conditions of other goroutines stay. *)
Record quiet (t : thread) (c : nat) (st st' : Stream) : Prop := {
  q_keeps : keeps st st';
  q_open : t ≠ TCloseLock c → closeOnce st ≠ NotRun → closed st = false → closed st' = false;
  q_read : reading t ≠ Some c → readMu st = true → readMu st' = true;
  q_wakes size : reading t ≠ Some c → wakes size st → wakes size st'
}.

Definition changes (t : thread) (l l' : list Stream) : Prop :=
  ∀ c st, l !! c = Some st → ∃ st', l' !! c = Some st' ∧ quiet t c st st'.

Lemma proxy_quiet_refl t c st : quiet t c st st.
Proof. split; [apply keeps_refl|done..]. Qed.

Lemma changes_refl t l : changes t l l.
Proof. intros c st H. exists st. split; [done|apply proxy_quiet_refl]. Qed.

Lemma changes_add t l x : changes t l (l ++ [x]).
Proof. intros c st H. exists st. split; [by apply lookup_app_l_Some|apply proxy_quiet_refl]. Qed.

Lemma changes_alter t l c g :
  (∀ st, l !! c = Some st → quiet t c st (g st)) → changes t l (alter g c l).
Proof.
  intros Hg d st H. destruct (decide (d = c)) as [->|Hne].
  - exists (g st). split; [by rewrite list_lookup_alter_eq, H|by apply Hg].
  - exists st. split; [by rewrite list_lookup_alter_ne|apply proxy_quiet_refl].
Qed.

(** The conditions of another goroutine [u] survive a step of [t]. *)
Lemma thread_ok_other s s' t u :
  thread_ok s u → changes t (cells s) (cells s') → (∀ c, u = TCloseLock c → t ≠ TCloseLock c) →
  (∀ c, reading u = Some c → reading t ≠ Some c) → thread_ok s' u.
Proof.
  intros Hu Hc H1 H2.
  assert (∀ c (P Q : Stream → Prop), (∀ st st', quiet t c st st' → P st → Q st') → has s c P → has s' c Q) as HH.
  { intros c P Q HP (st & Hst & HPst). destruct (Hc c st Hst) as (st' & Hst' & Hq). exists st'. eauto. }
  assert (∀ c, exists_ s c → exists_ s' c) as HE by (intros c; by apply HH).
  assert (∀ c, has s c (λ st, closed st = true) → has s' c (λ st, closed st = true)) as HC
    by (intros c; apply HH; intros st st' Hq; apply Hq).
  assert (∀ l, Forall (exists_ s) l → Forall (exists_ s') l) as HF by (intros l Hl; eapply Forall_impl; eauto).
  destruct u; cbn in *; try (by auto); try (destruct Hu as [Hu ?]; split; by auto).
  - destruct Hu as [? Hk]. split; [by apply HE|]. destruct k; cbn in *; auto.
  - destruct Hu as [? Hk]. split; [by apply HC|]. destruct k; cbn in *; auto.
  - revert Hu. apply HH. intros st st' [[? ? ? K] Q _ _] [Ho Hcl]. split; [by apply K|]. apply Q; auto.
  - revert Hu. apply HH. intros st st' [_ _ Q _]. apply Q; auto.
  - revert Hu. apply HH. intros st st' [_ _ Q W] [? ?]. split; [apply Q; auto|apply W; auto].
  - revert Hu. apply HH. intros st st' [_ _ Q _]. apply Q; auto.
Qed.

Definition good_step (s s' : Session) (t : thread) (t' : option thread) : Prop :=
  session_ok s' ∧ changes t (cells s) (cells s') ∧ (∀ u, t' = Some u → thread_ok s' u)
  ∧ (∀ c, t' = Some (TCloseLock c) → has s c (λ st, closeOnce st = NotRun))
  ∧ (∀ u c, t' = Some u → reading u = Some c → reading t = Some c ∨ has s c (λ st, readMu st = false)).

(** Conditions of a changed cell. *)
Ltac cell := intros [? ? ? ? ? ? ? ?]; split; cbn; try done; try (by right); try congruence.
Ltac hush := split; [split|..]; cbn; try done; try congruence.

(** A change of one cell. *)
Lemma ok_alter s c st g t :
  session_ok s → cells s !! c = Some st → (cell_ok st → cell_ok (g st)) → enqueued (g st) = enqueued st →
  quiet t c st (g st) →
  session_ok (updateCell s c g) ∧ changes t (cells s) (cells (updateCell s c g)).
Proof.
  intros Hs Hst Hok He Hq. split.
  - apply ok_cell; [done|]. intros st' ?. simplify_eq. split; [by apply Hok, (s_cells s Hs c)|]. split; [apply Hq|done].
  - apply changes_alter. intros st' ?. by simplify_eq.
Qed.

Lemma ok_sendStep s c k data ch s' r :
  session_ok s → kind_ok k → sendStep s c k data ch = Some (s', r) → session_ok s' ∧ cells s' = cells s.
Proof.
  intros Hs Hk H. unfold sendStep in H. destruct (cells s !! c) as [st|] eqn:E; [|done]. cbn in H.
  apply (inj Some) in H. apply send_frame in H as (H1 & _ & _ & _ & _ & _ & H2 & _). split; [|done].
  apply H2; [done|done|]. apply (s_cells s Hs c st E).
Qed.

Lemma kinds : kind_ok frameOpen ∧ kind_ok frameOpenDatagram ∧ kind_ok frameOpenOK ∧ kind_ok frameOpenError
  ∧ kind_ok frameData ∧ kind_ok frameEOF ∧ kind_ok frameClose.
Proof.
  unfold kind_ok, frameOpen, frameOpenDatagram, frameOpenOK, frameOpenError, frameData, frameEOF, frameClose. lia.
Qed.

(** Entering and leaving the function of [closeOnce] in [markClosed]. *)
Lemma markEnter_spec s c s' first t :
  session_ok s → markEnter s c = Some (s', first) →
  session_ok s' ∧ changes t (cells s) (cells s')
  ∧ has s' c (λ st, closed st = true) ∧ readLoop s' = readLoop s ∧ (first = false → s' = s).
Proof.
  intros Hs H. unfold markEnter in H. destruct (cells s !! c) as [st|] eqn:E; [|done]. cbn in H.
  pose proof (s_cells s Hs c st E) as Hc. destruct (closeOnce st) eqn:Eo; simplify_eq.
  - rewrite (c_notrun st Hc Eo), closeChan_false.
    destruct (ok_alter s c st (λ st, st <| closeOnce := InRun |> <| closed := true |>) t) as [? ?]; [done|done|cell|done|hush|].
    split; [done|]. split; [done|]. split; [|done]. eexists. split; [by apply update_at|done].
  - split; [done|]. split; [apply changes_refl|]. split; [|done]. exists st. split; [done|]. by apply (c_ran st Hc).
Qed.

Lemma markRemove_spec s c s' t :
  session_ok s → has s c (λ st, closed st = true) → markRemove s c = Some s' →
  session_ok s' ∧ changes t (cells s) (cells s') ∧ has s' c (λ st, closed st = true) ∧ readLoop s' = readLoop s.
Proof.
  intros Hs (st & E & Hcl) H. unfold markRemove in H. rewrite E in H. cbn in H. simplify_eq.
  destruct (ok_alter (removeStream s (sid st)) c st (λ st, st <| closeOnce := Ran |>) t) as [? ?]; [by apply ok_remove|done|cell|done|hush|].
  split; [done|]. split; [done|]. split; [|done]. eexists. split; [by apply update_at|done].
Qed.

Lemma exists_changes t l s s' c : cells s = l → changes t l (cells s') → exists_ s c → exists_ s' c.
Proof. intros <- Hc (st & Hst & _). destruct (Hc c st Hst) as (st' & ? & _). by exists st'. Qed.

Lemma cont_changes t s s' k : changes t (cells s) (cells s') → cont_ok s k → cont_ok s' k.
Proof.
  intros Hc. destruct k; [done|]. cbn. intros H. eapply Forall_impl; [exact H|]. intros c. by eapply exists_changes.
Qed.

Lemma continue_ok s c k : exists_ s c → cont_ok s k → thread_ok s (continue_ c k).
Proof. by destruct k. Qed.

Lemma continue_plain c k : (∀ d, continue_ c k ≠ TCloseLock d) ∧ reading (continue_ c k) = None.
Proof. by destruct k. Qed.

Lemma has_exists s c P : has s c P → exists_ s c.
Proof. intros (st & ? & _). by exists st. Qed.

(** A goroutine that neither starts to read nor to close. *)
Lemma good_plain s s' t t' :
  session_ok s' → changes t (cells s) (cells s') → (∀ u, t' = Some u → thread_ok s' u) →
  (∀ u, t' = Some u → (∀ c, u ≠ TCloseLock c) ∧ reading u = None) → good_step s s' t t'.
Proof.
  intros H1 H2 H3 H4. split; [done|]. split; [done|]. split; [done|]. split.
  - intros c ->. by destruct (H4 _ eq_refl) as [H _]; destruct (H c).
  - intros u c -> Hr. destruct (H4 _ eq_refl) as [_ H]. congruence.
Qed.

Ltac plain := intros ? [= <-]; split; [intros ?; discriminate|reflexivity].
Ltac next := intros ? [= <-]; cbn.

Lemma openStep_good s t ch s' t' :
  session_ok s → thread_ok s t → openStep s t ch = Some (s', t') → good_step s s' t t'.
Proof.
  intros Hs Ht H. destruct t; try done; cbn in H.
  - simplify_eq. apply good_plain; [|apply changes_add| |plain].
    + apply ok_add; [|apply Z.mod_pos_bound; lia].
      destruct Hs as [? ? ? Hd ? ? ? ? ? ? ?]. split; try done; [by intros c st Hc; destruct (Hd c st Hc)|].
      apply Z.mod_pos_bound. lia.
    + next. split; [|done]. eexists. split; [by apply list_lookup_middle|done].
  - destruct Ht as [He Hk]. destruct (sendStep s c kind_ address ch) as [[s1 r]|] eqn:E; [|done]. cbn in H.
    apply ok_sendStep in E as [Hs1 Hc]; [|done|done].
    assert (exists_ s1 c) as He1 by by eapply has_cells.
    destruct r; simplify_eq; apply good_plain; try done; try plain; try next; try done;
      rewrite Hc; apply changes_refl.
  - destruct Ht as (st & Hst & _). rewrite Hst in H. cbn in H.
    assert (exists_ s c) as He by (by exists st).
    destruct (pick ch) as [|[|]].
    + destruct (openResult st) as [[|r l]|]; try done.
      destruct (ok_alter s c st (λ st, st <| openResult := Some l |>) (TOpenWait c)) as [Hs1 Hc]; [done|done|cell|done|hush|].
      destruct r; simplify_eq; apply good_plain; try done; [next|plain].
      split; [|done]. by apply exists_update.
    + simplify_eq. apply good_plain; [done|apply changes_refl|next; done|plain].
    + destruct (done s); simplify_eq. apply good_plain; [done|apply changes_refl|next; done|plain].
  - destruct Ht as [He Hk]. destruct (markEnter s c) as [[s1 first]|] eqn:E; [|done]. cbn in H. simplify_eq.
    apply (markEnter_spec _ _ _ _ (TMark c k)) in E as (Hs1 & Hc & Hcl & _ & _); [|done].
    pose proof (cont_changes _ _ _ _ Hc Hk) as Hk1. apply good_plain; try done.
    + next. destruct first; [by split|]. apply continue_ok; [by eapply has_exists|done].
    + intros ? [= <-]. destruct first; [done|]. apply continue_plain.
  - destruct Ht as [Hcl Hk]. destruct (markRemove s c) as [s1|] eqn:E; [|done]. cbn in H. simplify_eq.
    apply (markRemove_spec _ _ _ (TRemove c k)) in E as (Hs1 & Hc & Hcl1 & _); [|done|done].
    pose proof (cont_changes _ _ _ _ Hc Hk) as Hk1. apply good_plain; try done.
    + next. apply continue_ok; [by eapply has_exists|done].
    + intros ? [= <-]. apply continue_plain.
  - simplify_eq. destruct Ht as (st & Hst & _).
    destruct (ok_alter s c st (answer (Some err)) (TFailResult c err)) as [Hs1 Hc];
      [done|done|unfold answer; destruct (openResult st) as [[]|]; [cell|done..]
      |unfold answer; by destruct (openResult st) as [[]|]|unfold answer; destruct (openResult st) as [[]|]; hush|].
    apply good_plain; try done; [next|plain]. apply exists_update. by exists st.
  - destruct (sendStep s c frameClose [] ch) as [[s1 r]|] eqn:E; [|done]. cbn in H. simplify_eq.
    apply ok_sendStep in E as [Hs1 Hc]; [|done|apply kinds]. apply good_plain; try done. rewrite Hc. apply changes_refl.
Qed.

(** A step that changes one cell, after a session change that keeps the cells. *)
Lemma good_alter s s1 c st g t t' :
  session_ok s1 → cells s1 = cells s → cells s !! c = Some st → (cell_ok st → cell_ok (g st)) →
  enqueued (g st) = enqueued st → quiet t c st (g st) →
  (∀ u, t' = Some u → thread_ok (updateCell s1 c g) u) →
  (∀ u, t' = Some u → (∀ c, u ≠ TCloseLock c) ∧ reading u = None) → good_step s (updateCell s1 c g) t t'.
Proof.
  intros H1 Hc Hst H2 H3 H4 H5 H6. rewrite <- Hc in Hst.
  destruct (ok_alter s1 c st g t H1 Hst H2 H3 H4) as [Ha Hb]. rewrite Hc in Hb. by apply good_plain.
Qed.

Lemma good_same s s1 t t' :
  session_ok s1 → cells s1 = cells s → (∀ u, t' = Some u → thread_ok s1 u) →
  (∀ u, t' = Some u → (∀ c, u ≠ TCloseLock c) ∧ reading u = None) → good_step s s1 t t'.
Proof. intros H1 Hc H2 H3. apply good_plain; try done. rewrite Hc. apply changes_refl. Qed.

Ltac stop := intros ? [=].
(** The cell of a goroutine. *)
Ltac open_cell H Hx c st Hst :=
  match type of Hx with
  | has ?s _ _ => let p := fresh "Hc" in destruct Hx as (st & Hst & p); rewrite Hst in H; cbn in H
  | exists_ ?s _ => destruct Hx as (st & Hst & _); rewrite Hst in H; cbn in H
  end.

Lemma writeStep_good s t ch s' t' :
  session_ok s → thread_ok s t → writeStep s t ch = Some (s', t') → good_step s s' t t'.
Proof.
  intros Hs Ht H. destruct t; try done; cbn in H, Ht.
  - open_cell H Ht c st Hst. destruct (writeMu st); simplify_eq.
    apply (good_alter s s c st); [done|done|done|cell|done|hush|next|plain]. by eexists; split; [by apply update_at|].
  - open_cell H Ht c st Hst. destruct ((len p =? 0) || closed st || writeEOF st); simplify_eq.
    + apply (good_alter s s c st); [done|done|done|cell|done|hush|stop..].
    + apply good_same; [done|done|next; by exists st|plain].
  - pose proof Ht as (st & Hst & _).
    destruct (sendStep s c frameData (take (Z.to_nat maxFramePayload) p) ch) as [[s1 r]|] eqn:E; [|done]. cbn in H.
    apply ok_sendStep in E as [Hs1 Hc]; [|done|apply kinds]. destruct r; simplify_eq.
    + apply good_same; [done|done|next; by eapply has_cells|plain].
    + apply (good_alter s s1 c st); [done|done|done|cell|done|hush|stop..].
  - open_cell H Ht c st Hst. destruct (writeMu st); [done|]. destruct (closed st || writeOnce st) eqn:Eo; simplify_eq.
    + apply good_same; [done|done|stop..].
    + apply orb_false_iff in Eo as [Eo1 Eo2]. pose proof (s_cells s Hs c st Hst) as Hc.
      assert (writeEOF st = false) as ->.
      { destruct (writeEOF st) eqn:E; [|done]. destruct (c_eof st Hc E); congruence. }
      rewrite closeChan_false.
      apply (good_alter s s c st); [done|done|done|cell; by left|done|hush|next|plain].
      by eexists; split; [by apply update_at|].
  - pose proof Ht as (st & Hst & _). destruct (sendStep s c frameEOF [] ch) as [[s1 r]|] eqn:E; [|done]. cbn in H.
    apply ok_sendStep in E as [Hs1 Hc]; [|done|apply kinds]. simplify_eq.
    apply (good_alter s s1 c st); [done|done|done|cell|done|hush|stop..].
Qed.

Lemma closeStep_good s t ch s' t' :
  session_ok s → thread_ok s t → closeStep s t ch = Some (s', t') → good_step s s' t t'.
Proof.
  intros Hs Ht H. destruct t; try done; cbn in H, Ht.
  - open_cell H Ht c st Hst. pose proof (s_cells s Hs c st Hst) as Hc. destruct (closeOnce st) eqn:Eo; simplify_eq.
    + pose proof (c_notrun st Hc Eo) as Hcl.
      destruct (ok_alter s c st (λ st, st <| closeOnce := InRun |>) (TClose c)) as [Ha Hb]; [done|done|cell|done|hush|].
      split; [done|]. split; [done|]. split; [|split; [intros d [= <-]; by exists st|by intros ? ? [= <-]]].
      next. eexists. split; [by apply update_at|done].
    + apply good_same; [done|done|stop..].
  - open_cell H Ht c st Hst. destruct Hc as [Ho Hcl]. destruct (writeMu st); [done|]. rewrite Hcl, closeChan_false in H.
    simplify_eq. apply (good_alter s s c st); [done|done|done|cell|done|hush|next|plain].
    eexists; split; [by apply update_at|done].
  - open_cell H Ht c st Hst. simplify_eq. apply good_same; [by apply ok_remove|done|next; by exists st|plain].
  - pose proof Ht as (st & Hst & Hcl). destruct (sendStep s c frameClose [] ch) as [[s1 r]|] eqn:E; [|done]. cbn in H.
    apply ok_sendStep in E as [Hs1 Hc]; [|done|apply kinds]. simplify_eq.
    apply (good_alter s s1 c st); [done|done|done|cell|done|hush|stop..].
Qed.

Lemma dequeue_ok st size :
  cell_ok st → let '(st', data) := dequeue st size in
  cell_ok st' ∧ returned st' = returned st ++ data ∧ enqueued st' = enqueued st ∧ keeps st st'
  ∧ closed st' = closed st ∧ readMu st' = readMu st ∧ incomingNotify st' = incomingNotify st
  ∧ ((0 < size)%nat → data = [] → incomingQueue st' = []).
Proof.
  intros Hok. unfold dequeue. destruct (incomingQueue st) as [|d q] eqn:Eq.
  { rewrite app_nil_r. split; [done|]. split; [done|]. split; [done|]. split; [apply keeps_refl|done]. }
  destruct Hok as [C1 C2 C3 C4 C5 C6 C7 C8]. rewrite Eq in *. cbn [concat] in C2, C3. rewrite len_app in C3.
  apply Forall_cons in C5 as [Hd Hq]. pose proof (len_nonneg (concat q)) as Hlq.
  set (n := Nat.min size (length d)). assert (n = Nat.min size (length d)) as Hmin by done. clearbody n.
  assert (length (take n d) = n) as Hn by (rewrite length_take; lia).
  assert (len d = Z.of_nat n + len (drop n d)) as Hl by (unfold len; rewrite length_drop; lia).
  assert (concat (if (n =? length d)%nat then q else drop n d :: q) = drop n d ++ concat q) as Hconc.
  { destruct (n =? length d)%nat eqn:En; b2p; [|done]. by rewrite drop_ge by lia. }
  split; [|split; [done|split; [done|split; [by split|split; [done|split; [done|split; [done|]]]]]]].
  - split; cbn; try done.
    + by rewrite Hconc, C2, <- app_assoc, (app_assoc (take n d)), take_drop.
    + rewrite Hconc, len_app. lia.
    + lia.
    + destruct (n =? length d)%nat eqn:En; b2p; [done|]. constructor; [|done].
      intros Hx%(f_equal length). rewrite length_drop in Hx. cbn in Hx. lia.
  - cbn. intros Hs He. rewrite He in Hn. cbn in Hn. destruct d; [done|]. cbn in Hmin. lia.
Qed.

Lemma readStep_good s t ch s' t' :
  session_ok s → thread_ok s t → readStep s t ch = Some (s', t') → good_step s s' t t'.
Proof.
  intros Hs Ht H. destruct t; try done; cbn in H, Ht.
  - open_cell H Ht c st Hst. destruct (readMu st) eqn:Er; simplify_eq.
    destruct (ok_alter s c st (λ st, st <| readMu := true |>) (TReadLock c size)) as [Ha Hb]; [done|done|cell|done|hush|].
    split; [done|]. split; [done|]. split; [|split; [stop|]].
    + next. eexists. split; [by apply update_at|done].
    + intros u d [= <-] [= <-]. right. by exists st.
  - open_cell H Ht c st Hst. pose proof (dequeue_ok st size (s_cells s Hs c st Hst)) as Hd.
    destruct (dequeue st size) as [st' data]. destruct Hd as (Hok & _ & He & Hk & Hcl & Hr & Hn & Hq).
    destruct (0 <? len data) eqn:El; b2p; simplify_eq.
    + apply (good_alter s s c st); [done|done|done| |done| |stop..].
      * intros _. by destruct Hok.
      * split; [by destruct Hk|cbn; congruence|done..].
    + destruct (ok_alter s c st (λ _, st') (TReadTop c size)) as [Ha Hb]; try done.
      { split; [done|congruence|done..]. }
      split; [done|]. split; [done|]. split; [|split; [stop|intros u d [= <-] [= <-]; by left]].
      next. eexists. split; [by apply update_at|]. split; [congruence|]. intros Hs0 Hq0. destruct Hq0. apply Hq; [done|].
      apply len_0. pose proof (len_nonneg data). lia.
  - open_cell H Ht c st Hst. destruct Hc as [Hr Hw]. destruct (pick ch) as [|k].
    + destruct (incomingNotify st); simplify_eq.
      destruct (ok_alter s c st (λ st, st <| incomingNotify := false |>) (TReadWait c size)) as [Ha Hb];
        [done|done|cell|done|hush|].
      split; [done|]. split; [done|]. split; [|split; [stop|intros u d [= <-] [= <-]; by left]].
      next. eexists. split; [by apply update_at|done].
    + destruct (closed st || remoteEOF st || done s); simplify_eq.
      split; [done|]. split; [apply changes_refl|]. split; [next; by exists st|].
      split; [stop|intros u d [= <-] [= <-]; by left].
  - open_cell H Ht c st Hst. simplify_eq. pose proof (dequeue_ok st size (s_cells s Hs c st Hst)) as Hd.
    destruct (dequeue st size) as [st' data]. destruct Hd as (Hok & _ & He & Hk & Hcl & Hr & Hn & Hq).
    apply (good_alter s s c st); [done|done|done| |done| |stop..].
    + intros _. by destruct Hok.
    + split; [by destruct Hk|cbn; congruence|done..].
Qed.

Lemma respondStep_good s t ch s' t' :
  session_ok s → thread_ok s t → respondStep s t ch = Some (s', t') → good_step s s' t t'.
Proof.
  intros Hs Ht H. destruct t; try done; cbn in H, Ht; destruct Ht as [Ht Hk].
  - open_cell H Ht c st Hst. destruct (responded st); simplify_eq; [apply good_same; [done|done|stop..]|].
    apply (good_alter s s c st); [done|done|done|cell|done|hush|next|plain].
    split; [|done]. by eexists; split; [by apply update_at|].
  - destruct (sendStep s c kind_ message ch) as [[s1 r]|] eqn:E; [|done]. cbn in H. simplify_eq.
    apply ok_sendStep in E as [Hs1 Hc]; [|done|done]. apply good_same; [done|done|stop..].
Qed.

Lemma sessionCloseStep_good s t s' t' :
  session_ok s → thread_ok s t → sessionCloseStep s t = Some (s', t') → good_step s s' t t'.
Proof.
  intros Hs Ht H. destruct t; try done; cbn in H, Ht.
  - destruct (sessionOnce s) eqn:Eo; simplify_eq.
    + rewrite (s_once s Hs Eo), closeChan_false. apply good_same; [|done|next; done|plain].
      destruct Hs as [? ? ? Hd ? ? ? ? ? ? ?]. split; try done. by intros c st Hc; destruct (Hd c st Hc).
    + apply good_same; [done|done|stop..].
  - simplify_eq. apply good_same; [|done| |plain].
    + destruct Hs as [? ? ? Hd ? ? ? ? ? ? ?]. split; try done. intros c st Hc. by destruct (Hd c st Hc).
    + next. apply Forall_forall. intros c Hc. apply list_elem_of_fmap in Hc as ([id d] & -> & Hid%elem_of_map_to_list).
      destruct (s_table s Hs id d Hid) as (st & Hst & _). by exists st.
  - destruct l as [|c l]; simplify_eq.
    + apply good_same; [|done|stop..].
      destruct Hs as [? ? ? Hd ? ? ? ? ? ? ?]. split; try done. by intros c st Hc; destruct (Hd c st Hc).
    + apply Forall_cons in Ht as [Hc Hl]. apply good_same; [done|done|next; done|plain].
Qed.

Lemma threadStep_good s t ch s' t' :
  session_ok s → thread_ok s t → threadStep s t ch = Some (s', t') → good_step s s' t t'.
Proof.
  intros Hs Ht H. destruct t; cbn [threadStep] in H;
    eauto using openStep_good, writeStep_good, closeStep_good, readStep_good, respondStep_good, sessionCloseStep_good.
Qed.

(** ** The read loop *)

(** The loop goes on to [l'], with nothing in hand before or after. *)
Lemma ok_loop s l' :
  session_ok s → loop_ok s l' → inHand (readLoop s) = [] → inHand l' = [] → (∀ c, carrying l' c = None) →
  (∀ c st, cells s !! c = Some st → closed st = false → refused l' c = false →
     carrying (readLoop s) c = None ∧ refused (readLoop s) c = false) →
  session_ok (s <| readLoop := l' |>).
Proof.
  intros [Hp Hc Ht Hd Ho Hn Hw Hs Hi Hh Hl] Hl' H1 H2 H3 H4. split; try done.
  - intros c st Hst. destruct (Hd c st Hst) as [D1 D2 D3 D4]. split; try done.
    + intros p Hp'. cbn in Hp'. by rewrite H3 in Hp'.
    + cbn. intros Hm Hcl _ Hr. destruct (H4 c st Hst Hcl Hr). by apply D4.
  - cbn. rewrite Hi, H1, H2. done.
Qed.

Lemma ok_next s f rest :
  session_ok s → readLoop s = RNext → readFrame (inbox s) = Frame f rest →
  session_ok (s <| inbox := rest |> <| readLoop := RHandle f |>).
Proof.
  intros [Hp Hc Ht Hd Ho Hn Hw Hs Hi Hh Hl] Hr Hf. apply readFrame_spec in Hf as [Hin Hf]. rewrite Hr in *.
  split; try done.
  - intros c st Hst. destruct (Hd c st Hst) as [D1 D2 D3 D4]. rewrite Hr in *. by split.
  - cbn in *. by rewrite Hi, Hin.
Qed.

(** A frame was looked up in the table. *)
Lemma ok_handle s f l' :
  session_ok s → readLoop s = RHandle f → loop_ok s l' → inHand l' = [] → (∀ c, refused l' c = false) →
  (∀ c, carrying l' c = if bool_decide (kind f = frameData ∧ streams s !! fid f = Some c) then Some (payload f) else None) →
  session_ok (s <| handled ::= (λ l, l ++ [f]) |> <| readLoop := l' |>).
Proof.
  intros [Hp Hc Ht Hd Ho Hn Hw Hs Hi Hh Hl] Hr Hl' H1 H2 H3. rewrite Hr in *. split; try done.
  - intros c st Hst. change (cells s !! c = Some st) in Hst. destruct (Hd c st Hst) as [D1 D2 D3 D4]. rewrite Hr in *.
    set (s' := s <| handled ::= _ |> <| readLoop := l' |>).
    assert (expected s' st = expected s st ++ dataOf (sid st) [f]) as HE.
    { unfold expected. cbn. rewrite drop_app_le by done. apply dataOf_app. }
    rewrite dataOf_one in HE. split.
    + cbn. rewrite length_app. lia.
    + rewrite HE. by apply prefix_app_r.
    + intros p Hcar Hcl. cbn in Hcar. rewrite H3 in Hcar. case_bool_decide as Hk; [|done]. simplify_eq.
      destruct Hk as [Hk Hm]. destruct (Ht _ _ Hm) as (st0 & Hst0 & Hsid). simplify_eq.
      rewrite HE, bool_decide_eq_true_2 by done. f_equal. apply D4; [by rewrite Hsid|done..].
    + cbn. intros Hm Hcl Hcar _. rewrite H3 in Hcar. rewrite HE. case_bool_decide as Hk; [done|].
      rewrite bool_decide_eq_false_2, app_nil_r; [by apply D4|]. intros [Hk1 Hk2]. apply Hk. by rewrite Hk2.
  - cbn in *. by rewrite Hi, streamBytes_app, bytesOf_one, H1, <- app_assoc.
  - cbn. apply Forall_app. split; [done|]. by constructor.
Qed.

Lemma handleFrame_ok s f :
  session_ok s → readLoop s = RHandle f → session_ok (handleFrame (s <| handled ::= (λ l, l ++ [f]) |>) f).
Proof.
  intros Hs Hr. pose proof (s_loop s Hs) as Hf. rewrite Hr in Hf. cbn in Hf. destruct Hf as (Hf1 & Hf2 & Hf3).
  assert (∀ l', (∀ c, carrying l' c = None) → inHand l' = [] → (∀ c, refused l' c = false) → loop_ok s l' →
    (kind f = frameData → streams s !! fid f = None) →
    session_ok (s <| handled ::= (λ l, l ++ [f]) |> <| readLoop := l' |>)) as Hplain.
  { intros l' H1 H2 H3 H4 H5. apply ok_handle; try done. intros c. rewrite H1.
    rewrite bool_decide_eq_false_2; [done|]. intros [Hk Hm]. rewrite H5 in Hm; done. }
  unfold handleFrame. cbn [payload kind].
  destruct ((kind f =? frameOpen) || (kind f =? frameOpenDatagram)) eqn:E1.
  { assert (kind f ≠ frameData) as Hnd.
    { apply orb_true_iff in E1 as [E1|E1]; b2p; rewrite E1; done. }
    case_if as E2; [apply Hplain; [done..|split; [apply kinds|done]|done]|].
    destruct (getStream _ _) as [c|] eqn:Eg; (apply Hplain; [done|done|done| |done]); [|done].
    split; [apply kinds|done]. }
  destruct ((frameOpenOK <=? kind f) && (kind f <=? frameClose)) eqn:E2.
  - destruct (getStream _ _) as [c|] eqn:Eg.
    + apply ok_handle; try done.
      * split; [|done]. destruct (s_table s Hs _ _ Eg) as (st & Hst & _). by exists st.
      * intros d. cbn. assert (streams s !! fid f = Some c) as Hm by done. rewrite Hm.
        do 2 case_bool_decide; try done; naive_solver.
    + by apply Hplain.
  - apply Hplain; try done. intros Hk. rewrite Hk in E2. done.
Qed.

(** A data frame reaches the queue, or is refused. *)
Lemma enqueue_ok st data :
  cell_ok st → let '(st', ok) := enqueue st data in
  cell_ok st' ∧ (∀ t c, quiet t c st st') ∧ closed st' = closed st
  ∧ (if ok : bool then enqueued st' = enqueued st ++ data ∧ (closed st = false ∨ data = []) else st' = st).
Proof.
  intros Hok. assert (∀ t c, quiet t c st st) as Hq by (intros; apply proxy_quiet_refl). unfold enqueue.
  destruct (len data =? 0) eqn:E0; b2p.
  { apply len_0 in E0 as ->. rewrite app_nil_r. split; [done|]. split; [done|]. split; [done|]. by split; [|right]. }
  destruct (closed st) eqn:Ec; [done|]. destruct (maxStreamQueue <? incomingBytes st + len data) eqn:El; b2p; [done|].
  destruct Hok as [C1 C2 C3 C4 C5 C6 C7 C8].
  split; [|split; [|split; [done|by split; [|left]]]].
  - split; cbn; try done.
    + rewrite concat_app, C2, <- app_assoc. cbn. by rewrite app_nil_r.
    + rewrite concat_app, len_app, C3. cbn. by rewrite app_nil_r.
    + apply Forall_app. split; [done|]. constructor; [|constructor]. intros ->. by rewrite len_nil in E0.
  - intros t c. hush.
Qed.

Lemma ok_data s c st f :
  session_ok s → readLoop s = RGot c f → kind f = frameData → cells s !! c = Some st →
  let '(st', ok) := enqueue st (payload f) in
  session_ok ((updateCell s c (λ _, st')) <| readLoop := if (ok : bool) then RNext else RMark c (Some (fid f)) |>).
Proof.
  intros Hs Hr Hk Hst. pose proof (enqueue_ok st (payload f) (s_cells s Hs c st Hst)) as He.
  destruct (enqueue st (payload f)) as [st' ok]. destruct He as (Hok & Hq & Hcl & He).
  destruct (q_keeps _ _ _ _ (Hq TSessionClose c)) as [K1 K2 K3 K4].
  destruct Hs as [Hp Hc Ht Hd Ho Hn Hw Hs Hi Hh Hl]. rewrite Hr in *. cbn in Hl. destruct Hl as [_ (Hf1 & Hf2 & Hf3)].
  set (l' := if ok then RNext else RMark c (Some (fid f))).
  assert (∀ d, carrying l' d = None) as Hcar by (intros; subst l'; by destruct ok).
  assert (∀ P, has s c P → has (updateCell s c (λ _, st')) c (λ st, sid st = sid st')) as Hhas.
  { intros P _. eexists. split; [by apply update_at|done]. }
  split; try done.
  - intros d x [[_ Hx]|(-> & y & Hy & ->)]%update_lookup; [by eapply Hc|done].
  - intros id d Hx. apply (has_update s c (λ _, st') d _ (Ht id d Hx)). intros x _ Hx' <-. congruence.
  - intros d x [[Hne Hx]|(-> & y & Hy & ->)]%update_lookup.
    + destruct (Hd d x Hx) as [D1 D2 D3 D4]. rewrite Hr in *. split; try done.
      * intros p Hp'. cbn in Hp'. rewrite Hcar in Hp'. done.
      * cbn. intros Hm Hcl' _ _. apply D4; [done|done| |done]. cbn. rewrite bool_decide_eq_false_2; [done|].
        intros [? _]. congruence.
    + rewrite Hst in Hy. injection Hy as <-. destruct (Hd c st Hst) as [D1 D2 D3 D4]. rewrite Hr in *. cbn in D3.
      rewrite bool_decide_eq_true_2 in D3 by done. specialize (D3 _ eq_refl).
      assert (expected ((updateCell s c (λ _, st')) <| readLoop := l' |>) st' = expected s st) as HE
        by (unfold expected; cbn; by rewrite K1, K2).
      split; rewrite ?HE.
      * by rewrite K2.
      * destruct ok; [|by rewrite He]. destruct He as [He1 [Hx|Hx]]; rewrite He1; [by rewrite D3|by rewrite Hx, app_nil_r].
      * intros p Hp'. cbn in Hp'. rewrite Hcar in Hp'. done.
      * cbn. intros _ Hcl' _ Hrf. rewrite Hcl in Hcl'. subst l'.
        destruct ok; [|cbn in Hrf; by rewrite bool_decide_eq_true_2 in Hrf].
        destruct He as [He1 _]. rewrite He1. by apply D3.
  - cbn. subst l'. destruct ok; [by rewrite Hi|by rewrite Hi].
  - subst l'. destruct ok; cbn; [done|]. split; [eexists; split; [by apply update_at|done]|]. by intros ? [= <-].
Qed.

Lemma handleStream_ok s c f s' :
  session_ok s → readLoop s = RGot c f → handleStream s c f = Some s' →
  session_ok s' ∧ changes TSessionClose (cells s) (cells s').
Proof.
  intros Hs Hr H. pose proof (s_loop s Hs) as Hl. rewrite Hr in Hl. cbn in Hl. destruct Hl as [(st & Hst & _) Hf].
  unfold handleStream in H. rewrite Hst in H. cbn in H.
  assert (∀ g l', kind f ≠ frameData → (cell_ok st → cell_ok (g st)) → enqueued (g st) = enqueued st →
    quiet TSessionClose c st (g st) → (∀ c, carrying l' c = None) → inHand l' = [] → loop_ok (updateCell s c g) l' →
    session_ok ((updateCell s c g) <| readLoop := l' |>) ∧ changes TSessionClose (cells s) (cells (updateCell s c g))) as Hcell.
  { intros g l' Hk H1 H2 H3 H4 H5 H6. destruct (ok_alter s c st g TSessionClose Hs Hst H1 H2 H3) as [Ha Hb].
    split; [|done]. apply ok_loop; [done|done|cbn; by rewrite Hr|done|done|].
    intros d x _ _ _. cbn. rewrite Hr. cbn.
    rewrite bool_decide_eq_false_2; [done|]. by intros [_ ?]. }
  destruct (kind f =? frameOpenOK) eqn:E1; b2p.
  { simplify_eq. apply (Hcell (answer None)); try done; [by rewrite E1|..];
      unfold answer; destruct (openResult st) as [[]|]; first [done|cell|hush]. }
  destruct (kind f =? frameOpenError) eqn:E2; b2p.
  { simplify_eq. apply (Hcell (answer (Some _))); try done; [by rewrite E2|..];
      unfold answer; destruct (openResult st) as [[]|]; first [done|cell|hush]. }
  destruct (kind f =? frameData) eqn:E3; b2p.
  { pose proof (ok_data s c st f Hs Hr E3 Hst) as Hd. pose proof (enqueue_ok st (payload f) (s_cells s Hs c st Hst)) as He.
    destruct (enqueue st (payload f)) as [st' ok]. simplify_eq. split; [done|]. cbn. apply changes_alter.
    intros x ?. simplify_eq. by destruct He as (_ & Hq & _). }
  destruct (kind f =? frameEOF) eqn:E4; b2p; simplify_eq.
  - apply (Hcell markRemoteEOF); try done; unfold markRemoteEOF; destruct (remoteEOF st); first [done|cell|hush].
  - split; [|apply changes_refl]. apply ok_loop; [done| |by rewrite Hr|done|done|].
    + split; [by exists st|done].
    + intros d x _ _ _. rewrite Hr. cbn. rewrite bool_decide_eq_false_2; [done|]. by intros [_ ?].
Qed.

Lemma afterMark_ok s next :
  (∀ id, next = Some id → id_ok id) →
  loop_ok s (afterMark next) ∧ inHand (afterMark next) = []
  ∧ ∀ c, carrying (afterMark next) c = None ∧ refused (afterMark next) c = false.
Proof. intros H. destruct next as [id|]; [|done]. split; [|done]. split; [apply kinds|by apply H]. Qed.

Lemma loopStep_ok s ch s' b :
  session_ok s → loopStep s ch = Some (s', b) → session_ok s' ∧ changes TSessionClose (cells s) (cells s').
Proof.
  intros Hs H. unfold loopStep in H. pose proof (s_loop s Hs) as Hl.
  destruct (readLoop s) as [|f|c f|f|c f|f|c next|c next|] eqn:Hr; cbn in Hl; try done.
  - assert (session_ok (s <| readLoop := REnd |>)) as Hend by (apply ok_loop; try done; by rewrite ?Hr).
    destruct (readFrame (inbox s)) as [| |f rest] eqn:Ef.
    + destruct (pick ch =? 1)%nat; simplify_eq. split; [done|apply changes_refl].
    + simplify_eq. split; [done|apply changes_refl].
    + simplify_eq. split; [by apply ok_next|apply changes_refl].
  - simplify_eq. split; [by apply handleFrame_ok|]. unfold handleFrame.
    repeat case_match; apply changes_refl.
  - destruct (handleStream s c f) as [s1|] eqn:E; [|done]. cbn in H. simplify_eq. by eapply handleStream_ok.
  - simplify_eq. destruct Hl as (Hf1 & Hf2 & Hf3). split; [|apply changes_add].
    apply ok_loop; [by apply ok_add| |cbn; by rewrite Hr|done|done|].
    + split; [|done]. eexists. split; [by apply list_lookup_middle|done].
    + intros d x _ _ _. cbn. by rewrite Hr.
  - destruct Hl as [He Hf]. assert (session_ok (s <| requests ::= λ l, l ++ [mkRequest (payload f) c (kind f =? frameOpenDatagram)] |>
      <| readLoop := RNext |>)) as Hq.
    { apply ok_loop; try done; [|cbn; by rewrite Hr|intros; cbn; by rewrite Hr].
      destruct Hs as [? ? ? Hd ? ? ? ? ? ? Hl]. split; try done. by intros d st Hx; destruct (Hd d st Hx). }
    destruct (pick ch); [destruct (len (requests s) <? 64)|destruct (done s)]; simplify_eq.
    + split; [done|apply changes_refl].
    + split; [|apply changes_refl]. apply ok_loop; try done; [by rewrite Hr|intros; by rewrite Hr].
  - destruct (send s f (late ch) (outs ch)) as [s1 r] eqn:E. simplify_eq.
    apply send_frame in E as (E1 & _ & E3 & _ & _ & _ & E7 & _). destruct Hl as [Hk Hi]. specialize (E7 Hs Hk Hi).
    split; [|cbn; rewrite E1; apply changes_refl]. apply ok_loop; try done; [by rewrite E3, Hr|intros; by rewrite E3, Hr].
  - destruct Hl as [He Hn]. destruct (markEnter s c) as [[s1 first]|] eqn:E; [|done]. cbn in H. simplify_eq.
    apply (markEnter_spec _ _ _ _ TSessionClose) in E as (Hs1 & Hc & Hcl & Hr1 & _); [|done]. split; [|done].
    destruct (afterMark_ok s1 next Hn) as (A1 & A2 & A3).
    apply ok_loop; [done| |by rewrite Hr1, Hr| | |].
    + destruct first; [by split|done].
    + by destruct first.
    + intros d. destruct first; [done|]. apply A3.
    + intros d x Hx Hxc _. rewrite Hr1, Hr. cbn. split; [done|]. destruct next; [|done].
      rewrite bool_decide_eq_false_2; [done|]. intros ->. destruct Hcl as (y & Hy & Hyc). congruence.
  - destruct Hl as [He Hn]. destruct (markRemove s c) as [s1|] eqn:E; [|done]. cbn in H. simplify_eq.
    apply (markRemove_spec _ _ _ TSessionClose) in E as (Hs1 & Hc & Hcl & Hr1); [|done|done]. split; [|done].
    destruct (afterMark_ok s1 next Hn) as (A1 & A2 & A3).
    apply ok_loop; [done|done|by rewrite Hr1, Hr|done|intros d; apply A3|]. intros d x _ _ _. by rewrite Hr1, Hr.
Qed.

(** ** Runs *)

Record inv (st : state) : Prop := {
  i_session : session_ok (session st);
  i_threads i t : threads st !! i = Some t → thread_ok (session st) t;
  i_closing i j c : threads st !! i = Some (TCloseLock c) → threads st !! j = Some (TCloseLock c) → i = j;
  i_reading i j t u c : threads st !! i = Some t → threads st !! j = Some u →
    reading t = Some c → reading u = Some c → i = j
}.

(** A step that only adds a goroutine that holds nothing. *)
Lemma inv_spawn s m t :
  inv (mkState s m) → thread_ok s t → (∀ c, t ≠ TCloseLock c) → reading t = None → inv (mkState s (spawn m t)).
Proof.
  intros [H1 H2 H3 H4] Ht Hc Hr. cbn in *. split; cbn; [done|..].
  - intros i u [[_ ->]|Hu]%spawn_lookup; eauto.
  - intros i j c [[_ Hx]|Hx]%spawn_lookup [[_ Hy]|Hy]%spawn_lookup; try (by destruct (Hc c)); eauto.
  - intros i j u v c [[_ ->]|Hx]%spawn_lookup [[_ ->]|Hy]%spawn_lookup Hu Hv; try congruence; eauto.
Qed.

(** A step of the loop or of the environment. *)
Lemma inv_session s s' m :
  inv (mkState s m) → session_ok s' → changes TSessionClose (cells s) (cells s') → inv (mkState s' m).
Proof.
  intros [H1 H2 H3 H4] Hs Hc. split; cbn in *; try done. intros i t Ht.
  eapply thread_ok_other; [by eapply H2|done|by intros|by intros].
Qed.

Lemma inv_thread s m i t s' t' :
  inv (mkState s m) → m !! i = Some t → good_step s s' t t' → inv (mkState s' (after m i t' [])).
Proof.
  intros [H1 H2 H3 H4] Hi (G1 & G2 & G3 & G4 & G5). cbn in *.
  assert (∀ j u, after m i t' [] !! j = Some u → (j ≠ i ∧ m !! j = Some u) ∨ (j = i ∧ t' = Some u)) as Ha.
  { intros j u [?|[?|[_ Hn]]]%after_inv; [by left|by right|by apply not_elem_of_nil in Hn]. }
  split; cbn; [done|..].
  - intros j u [[Hne Hu]|[-> ->]]%Ha; [|by apply G3]. eapply thread_ok_other; [by eapply H2|done|..].
    + intros c -> ->. by apply Hne, (H3 j i c).
    + intros c Hru Hrt. by apply Hne, (H4 j i u t c).
  - intros j k c [[Hj Hx]|[-> Hx]]%Ha [[Hk Hy]|[-> Hy]]%Ha; try done; [by eapply H3|..].
    + destruct (G4 c Hy) as (st & Hst & Ho). destruct (H2 _ _ Hx) as (st' & Hst' & [Ho' _]). congruence.
    + destruct (G4 c Hx) as (st & Hst & Ho). destruct (H2 _ _ Hy) as (st' & Hst' & [Ho' _]). congruence.
  - assert (∀ j u v c, j ≠ i → m !! j = Some u → t' = Some v → reading u = Some c → reading v = Some c → False) as Hx.
    { intros j u v c Hj Hu Hv Hru Hrv. destruct (G5 v c Hv Hrv) as [Hrt|(st & Hst & Hr)].
      - by apply Hj, (H4 j i u t c).
      - pose proof (H2 _ _ Hu) as Hok. destruct u; cbn in Hru; simplify_eq; destruct Hok as (st' & Hst' & Hr');
          simplify_eq; [congruence|destruct Hr'; congruence|congruence]. }
    intros j k u v c [[Hj Hu]|[-> Hu]]%Ha [[Hk Hv]|[-> Hv]]%Ha Hru Hrv; try done; [by eapply H4|exfalso..]; eauto.
Qed.

Lemma call_ok s c t : callOk s c = true → callThread s c = Some t →
  thread_ok s t ∧ (∀ d, t ≠ TCloseLock d) ∧ reading t = None.
Proof.
  intros Hc Ht. assert (∀ d, (d <? length (cells s))%nat = true → exists_ s d) as He.
  { intros d Hd. b2p. apply lookup_lt_is_Some in Hd as [st Hst]. by exists st. }
  destruct kinds as (K1 & K2 & K3 & K4 & _).
  destruct c as [[] a| | | | | |d err|]; cbn [callOk callThread] in *; simplify_eq; try (split; [by apply He|done]).
  - by repeat case_match; simplify_eq.
  - by repeat case_match; simplify_eq.
  - split; [split; [by apply He|done]|done].
  - split; [split; [by apply He|done]|done].
  - done.
Qed.

Lemma proxy_step_inv st l st' : inv st → step st l = Some st' → inv st'.
Proof.
  intros Hinv H. destruct st as [s m]. destruct l; cbn in H.
  - destruct (callOk s c) eqn:Eo; [|done]. destruct (callThread s c) as [t|] eqn:Et; simplify_eq; [|done].
    destruct (call_ok s c t Eo Et) as (H1 & H2 & H3). by apply inv_spawn.
  - destruct (m !! i) as [t|] eqn:Ei; [|done]. cbn in H. destruct (threadStep s t ch) as [[s' t']|] eqn:E; [|done].
    cbn in H. simplify_eq. eapply inv_thread; [done|done|]. eapply threadStep_good; [apply Hinv| |done].
    by apply (i_threads _ Hinv i).
  - destruct (loopStep s ch) as [[s' b]|] eqn:E; [|done]. cbn in H. simplify_eq.
    apply loopStep_ok in E as [Hs Hc]; [|apply Hinv]. assert (inv (mkState s' m)) as Hi by by eapply inv_session.
    destruct b; [|done]. by apply inv_spawn.
  - simplify_eq. eapply inv_session; [done| |apply changes_refl]. destruct (i_session _ Hinv) as [? ? ? Hd ? ? ? ? Hi ? ?].
    cbn in *. split; try done; [by intros c st Hst; destruct (Hd c st Hst)|]. cbn. by rewrite Hi, <- !app_assoc.
  - destruct (requests s) as [|r rs]; [done|]. simplify_eq. eapply inv_session; [done| |apply changes_refl].
    destruct (i_session _ Hinv) as [? ? ? Hd ? ? ? ? Hi ? ?]. split; try done. by intros c st Hst; destruct (Hd c st Hst).
Qed.

Lemma steps_inv st ls st' : inv st → steps st ls = Some st' → inv st'.
Proof.
  revert st. induction ls as [|l ls IH]; intros st Hi H; cbn in H; [by simplify_eq|].
  destruct (step st l) as [st1|] eqn:E; [|done]. eapply IH; [|done]. by eapply proxy_step_inv.
Qed.

Lemma initial_inv : inv initial.
Proof. by split; [split|..]. Qed.

Lemma reachable_inv ls st : steps initial ls = Some st → inv st.
Proof. apply steps_inv, initial_inv. Qed.

(** ** Theorems *)

(** C21: in every interleaving of callers, read loop and network, a session does not
    close a channel twice (which would panic).  Every stream has returned, in order,
    the bytes it took from the read loop, but for those in its queue, which holds at
    most 4 MiB; the table leads from an identifier to a stream of that identifier. *)
Theorem proxy_safe ls st :
  steps initial ls = Some st →
  panicked (session st) = false
  ∧ (∀ c s, cells (session st) !! c = Some s →
       enqueued s = returned s ++ concat (incomingQueue s) ∧ incomingBytes s = len (concat (incomingQueue s))
       ∧ incomingBytes s ≤ maxStreamQueue)
  ∧ (∀ id c, streams (session st) !! id = Some c → has (session st) c (λ s, sid s = id)).
Proof.
  intros [Hs _ _ _]%reachable_inv. split; [apply Hs|]. split; [|apply Hs].
  intros c s Hc. by destruct (s_cells _ Hs c s Hc).
Qed.

(** A choice without failures. *)
Definition calm (k : nat) : choice := mkChoice false [] k EmptyString.

(** A peer opens stream 1 and sends two bytes; the application reads one, and closes. *)
Definition demoInput : list byte :=
  encode (mkFrame frameOpen 1 (bytes "a:1")) ++ encode (mkFrame frameData 1 (bytes "xy")).

Definition demoRun : list label :=
  [LReceive demoInput; LLoop (calm 0); LLoop (calm 0); LLoop (calm 0); LLoop (calm 0); LAcceptRequest;
   LCall (CAccept 0); LThread 0 (calm 0); LThread 0 (calm 0);
   LLoop (calm 0); LLoop (calm 0); LLoop (calm 0);
   LCall (CRead 0 1); LThread 0 (calm 0); LThread 0 (calm 0);
   LCall (CClose 0); LThread 0 (calm 0); LThread 0 (calm 0)].

Definition demoState : state := default initial (steps initial demoRun).

Lemma proxy_safe_witness :
  steps initial demoRun = Some demoState ∧ panicked (session demoState) = false
  ∧ (∀ c s, cells (session demoState) !! c = Some s →
       enqueued s = returned s ++ concat (incomingQueue s) ∧ incomingBytes s = len (concat (incomingQueue s))
       ∧ incomingBytes s ≤ maxStreamQueue)
  ∧ (∀ id c, streams (session demoState) !! id = Some c → has (session demoState) c (λ s, sid s = id)).
Proof.
  split; [vm_compute; reflexivity|]. apply (proxy_safe demoRun demoState). vm_compute. reflexivity.
Defined.

(** C9: let the bytes one end received be the first of those the other end wrote, and no
    write of that end have failed in the middle of a frame.  Then the frames it handles
    are, in order, the first frames the other end sent, and it never finds a frame too
    large.  Every stream has taken data only from the data frames of its identifier
    that were handled since it exists, in order and from the first on; an open stream
    in the table has taken all of them when the read loop is between two frames. *)
Theorem proxy_delivery ls1 ls2 a b :
  steps initial ls1 = Some a → steps initial ls2 = Some b →
  torn (session a) = false → received (session b) `prefix_of` out (session a) →
  handled (session b) `prefix_of` sent (session a)
  ∧ (readLoop (session b) = RNext → readFrame (inbox (session b)) ≠ TooLarge)
  ∧ ∀ c s, cells (session b) !! c = Some s →
      enqueued s `prefix_of` expected (session b) s
      ∧ (streams (session b) !! sid s = Some c → closed s = false → readLoop (session b) = RNext →
         returned s ++ concat (incomingQueue s) = expected (session b) s).
Proof.
  intros [Ha _ _ _]%reachable_inv [Hb _ _ _]%reachable_inv Ht Hp.
  rewrite (s_out _ Ha Ht), (s_in _ Hb) in Hp.
  apply prefix_frames in Hp as (fs & Hfs & Hrest); [|apply Hb|apply Ha]. split; [by exists fs|]. split.
  - intros Hr. rewrite Hr in Hrest. apply (prefix_not_large _ fs); [|done].
    pose proof (s_sent _ Ha) as HF. rewrite Hfs in HF. by apply Forall_app in HF as [_ ?].
  - intros c s Hc. destruct (s_data _ Hb c s Hc) as [D1 D2 D3 D4]. destruct (s_cells _ Hb c s Hc) as [_ C2 _ _ _ _ _ _].
    split; [done|]. intros Hm Hcl Hr. rewrite <- C2. apply D4; [done|done|by rewrite Hr..].
Qed.

(** The other end of [demoRun]: it opens the stream and writes "xy" to it. *)
Definition peerRun : list label :=
  [LCall (COpen false (bytes "a:1")); LThread 0 (calm 0); LThread 0 (calm 0);
   LCall (CWrite 0 (bytes "xy")); LThread 1 (calm 0); LThread 1 (calm 0); LThread 1 (calm 0); LThread 1 (calm 0)].

Definition peerState : state := default initial (steps initial peerRun).

Definition openState : state := default initial (steps initial (take 15 demoRun)).

Lemma proxy_delivery_witness :
  out (session peerState) = demoInput
  ∧ handled (session openState) `prefix_of` sent (session peerState)
  ∧ (readLoop (session openState) = RNext → readFrame (inbox (session openState)) ≠ TooLarge)
  ∧ ∀ c s, cells (session openState) !! c = Some s →
      enqueued s `prefix_of` expected (session openState) s
      ∧ (streams (session openState) !! sid s = Some c → closed s = false → readLoop (session openState) = RNext →
         returned s ++ concat (incomingQueue s) = expected (session openState) s).
Proof.
  split; [vm_compute; reflexivity|].
  apply (proxy_delivery peerRun (take 15 demoRun)); [vm_compute; reflexivity..|exists []; vm_compute; reflexivity].
Defined.

Lemma thread_step st i t ch s' t' :
  threads st !! i = Some t → threadStep (session st) t ch = Some (s', t') →
  step st (LThread i ch) = Some (mkState s' (after (threads st) i t' [])).
Proof. intros H1 H2. cbn. rewrite H1. cbn. by rewrite H2. Qed.

Lemma after_self m i (t' : option thread) : after m i t' [] !! i = t'.
Proof. unfold after. cbn. destruct t'; [by rewrite lookup_insert_eq|by rewrite lookup_delete_eq]. Qed.

(** C22: no wake-up is lost.  When data is in the queue of a stream, or it was closed, or
    its peer has ended its side, or the session was closed, a [Read] that waits on it
    can return by two steps of its own; with data it returns some. *)
Theorem proxy_read_wakes ls st i c size s :
  steps initial ls = Some st → threads st !! i = Some (TReadWait c size) → (0 < size)%nat →
  cells (session st) !! c = Some s →
  incomingQueue s ≠ [] ∨ closed s || remoteEOF s || done (session st) = true →
  ∃ k st' s', steps st [LThread i (calm k); LThread i (calm 0)] = Some st' ∧ threads st' !! i = None
    ∧ cells (session st') !! c = Some s'
    ∧ (incomingQueue s ≠ [] → ∃ data, data ≠ [] ∧ returned s' = returned s ++ data).
Proof.
  intros Hr%reachable_inv Hi Hsz Hc Hor. pose proof (i_threads _ Hr i _ Hi) as (s0 & Hs0 & Hmu & Hwk). simplify_eq.
  pose proof (s_cells _ (i_session _ Hr) c s Hc) as Hok.
  assert (incomingQueue s ≠ [] → (dequeue s size).2 ≠ []) as Hne.
  { intros Hq. destruct Hok as [_ _ _ _ C5 _ _ _]. unfold dequeue. destruct (incomingQueue s) as [|d q]; [done|].
    apply Forall_cons in C5 as [Hd _]. destruct d; [done|]. by destruct size; [lia|]. }
  destruct (decide (incomingQueue s = [])) as [Hq|Hq].
  - destruct Hor as [?|Hor]; [done|]. exists 1%nat.
    do 2 eexists. cbn [steps]. rewrite (thread_step st i (TReadWait c size) (calm 1) (session st) (Some (TReadFinal c size))); [|done|].
    2: { cbn. rewrite Hc. cbn. by rewrite Hor. }
    cbn [mbind option_bind]. erewrite thread_step; [|apply after_self|cbn; by rewrite Hc].
    split; [done|]. split; [apply after_self|]. split; [by apply update_at|done].
  - pose proof (dequeue_ok (s <| incomingNotify := false |>) size) as Hd.
    exists 0%nat. set (s1 := updateCell (session st) c (λ s, s <| incomingNotify := false |>)).
    assert (cells s1 !! c = Some (s <| incomingNotify := false |>)) as Hc1 by by apply update_at.
    assert ((dequeue (s <| incomingNotify := false |>) size).2 = (dequeue s size).2) as Heq
      by (unfold dequeue; cbn; by destruct (incomingQueue s)).
    destruct (dequeue (s <| incomingNotify := false |>) size) as [s2 data] eqn:Ed. cbn in Heq. rewrite <- Heq in Hne.
    do 2 eexists. cbn [steps]. rewrite (thread_step st i (TReadWait c size) (calm 0) s1 (Some (TReadTop c size))); [|done|].
    2: { cbn. rewrite Hc. cbn. by rewrite (Hwk Hsz Hq). }
    cbn [mbind option_bind].
    erewrite thread_step; [|apply after_self|].
    2: { cbn [session threadStep readStep]. rewrite Hc1. cbn [mbind option_bind]. rewrite Ed.
         destruct (0 <? len data) eqn:El; [reflexivity|]. b2p. exfalso. apply (Hne Hq), len_0.
         pose proof (len_nonneg data). lia. }
    split; [reflexivity|]. split; [apply after_self|]. split; [by apply update_at|]. intros _. exists data.
    split; [by apply Hne|]. destruct Hd as (_ & Hret & _); [|done]. by destruct Hok.
Qed.

(** A [Read] of one byte waits, then the two bytes arrive. *)
Definition waitRun : list label :=
  [LReceive demoInput; LLoop (calm 0); LLoop (calm 0); LLoop (calm 0); LLoop (calm 0); LAcceptRequest;
   LCall (CRead 0 1); LThread 0 (calm 0); LThread 0 (calm 0); LLoop (calm 0); LLoop (calm 0); LLoop (calm 0)].

Definition waitState : state := default initial (steps initial waitRun).
Definition waitStream : Stream := default (newStream 0 None 0) (cells (session waitState) !! 0%nat).

Lemma proxy_read_wakes_witness :
  ∃ k st' s', steps waitState [LThread 0 (calm k); LThread 0 (calm 0)] = Some st' ∧ threads st' !! 0%nat = None
    ∧ cells (session st') !! 0%nat = Some s'
    ∧ (incomingQueue waitStream ≠ [] → ∃ data, data ≠ [] ∧ returned s' = returned waitStream ++ data).
Proof.
  apply (proxy_read_wakes waitRun waitState 0 0 1 waitStream);
    [vm_compute; reflexivity..|lia|vm_compute; reflexivity|left; vm_compute; discriminate].
Defined.

(** ** Writing *)

Lemma send_calm s f :
  len (payload f) ≤ maxFramePayload → done s = false →
  ∃ s', send s f false [] = (s', Ok tt) ∧ sent s' = sent s ++ [f] ∧ cells s' = cells s ∧ done s' = false.
Proof.
  intros Hl Hd. unfold send. rewrite Hd. case_if as E; [lia|]. cbn [andb].
  assert (∀ l, writeFull [] l = (l, None, [])) as Hw by (intros []; done). rewrite !Hw.
  case_if as E0; eexists; (split; [reflexivity|]); done.
Qed.

(** A call of [Write] with a connection that takes everything sends its data, in frames
    of at most 64 KiB, and returns. *)
Lemma write_sends m st i c p s :
  (length p ≤ m)%nat →
  threads st !! i = Some (TWrite c p) → cells (session st) !! c = Some s → closed s = false → writeEOF s = false →
  done (session st) = false →
  ∃ n st' fs, steps st (replicate n (LThread i (calm 0))) = Some st' ∧ threads st' !! i = None
    ∧ sent (session st') = sent (session st) ++ fs ∧ concat (payload <$> fs) = p
    ∧ Forall (λ f, kind f = frameData ∧ fid f = sid s ∧ len (payload f) ≤ maxFramePayload) fs.
Proof.
  revert st p. induction m as [|m IH]; intros st p Hm Hi Hc Hcl He Hd; destruct (decide (p = [])) as [->|Hp].
  1, 3: exists 1%nat; eexists _, []; cbn [replicate steps];
    (erewrite thread_step; [|done|cbn; rewrite Hc; reflexivity]); split; [reflexivity|];
    split; [apply after_self|]; split; [cbn; by rewrite app_nil_r|done].
  { destruct p; [done|cbn in Hm; lia]. }
  set (k := Z.to_nat maxFramePayload). assert (1 ≤ k)%nat as Hk by (subst k; change maxFramePayload with 65536; lia).
  destruct (send_calm (session st) (mkFrame frameData (sid s) (take k p))) as (s1 & Hsend & Hsent & Hcells & Hdone);
    [unfold len; cbn; rewrite length_take; lia|done|].
  set (st1 := mkState (session st) (after (threads st) i (Some (TWriteSend c p)) [])).
  set (st2 := mkState s1 (after (threads st1) i (Some (TWrite c (drop k p))) [])).
  assert (step st (LThread i (calm 0)) = Some st1) as H1.
  { apply (thread_step st i (TWrite c p)); [done|]. cbn. rewrite Hc. cbn. rewrite Hcl, He.
    destruct (len p =? 0) eqn:E; [|done]. b2p. by apply len_0 in E. }
  assert (step st1 (LThread i (calm 0)) = Some st2) as H2.
  { apply (thread_step st1 i (TWriteSend c p)); [apply after_self|]. cbn [threadStep writeStep]. fold k.
    unfold sendStep. cbn [session st1]. rewrite Hc. cbn [mbind option_bind late outs calm]. by rewrite Hsend. }
  destruct (IH st2 (drop k p)) as (n & st' & fs & H3 & H4 & H5 & H6 & H7);
    [rewrite length_drop; destruct p; [done|cbn in *; lia]|apply after_self|cbn; by rewrite Hcells|done..|].
  exists (S (S n)), st', (mkFrame frameData (sid s) (take k p) :: fs). cbn [replicate steps].
  rewrite H1. cbn [mbind option_bind]. rewrite H2. cbn [mbind option_bind]. split; [done|]. split; [done|].
  split; [rewrite H5; cbn [session st2]; by rewrite Hsent, <- app_assoc|].
  split; [cbn; rewrite H6; apply take_drop|]. constructor; [|done]. split; [done|]. split; [done|].
  unfold len. cbn. rewrite length_take. lia.
Qed.

(** ** Runs that go wrong *)

(** A write that fails inside a frame does not end the session: the close frame that
    follows is read by the peer as the missing payload. *)
Lemma torn_write_desyncs :
  let data := mkFrame frameData 1 (replicate 9 Byte.x41) in
  let '(s1, r1) := send NewSession data false [(9%nat, false); (0%nat, true)] in
  let '(s2, r2) := send s1 (mkFrame frameClose 1 []) false [] in
  is_ok r1 = false ∧ is_ok r2 = true ∧ torn s2 = true
  ∧ readFrame (out s2) = Frame (mkFrame frameData 1 (encode (mkFrame frameClose 1 []))) [].
Proof. vm_compute. by repeat split. Qed.

(** Both ends count streams from 1.  An end that has accepted stream 1 and opens a stream
    of its own replaces it in the table: data for the first reaches the second. *)
Lemma identifiers_collide :
  let ls := [LReceive demoInput; LLoop (calm 0); LLoop (calm 0); LLoop (calm 0); LLoop (calm 0); LAcceptRequest;
             LCall (COpen false (bytes "b:2")); LThread 0 (calm 0); LThread 0 (calm 0);
             LLoop (calm 0); LLoop (calm 0); LLoop (calm 0)] in
  ∃ st, steps initial ls = Some st ∧ (enqueued <$> cells (session st)) = [[]; bytes "xy"].
Proof. eexists. split; vm_compute; reflexivity. Qed.

(** [Close] holds [closeOnce] while it waits for a [Write] in progress; the read loop,
    which gets the peer's close frame, waits for [Close], and reads nothing more. *)
Definition blockedRun : list label :=
  [LReceive (demoInput ++ encode (mkFrame frameClose 1 [])); LLoop (calm 0); LLoop (calm 0); LLoop (calm 0);
   LLoop (calm 0); LAcceptRequest; LLoop (calm 0); LLoop (calm 0); LLoop (calm 0);
   LCall (CWrite 0 (bytes "z")); LThread 0 (calm 0); LThread 0 (calm 0);
   LCall (CClose 0); LThread 1 (calm 0); LLoop (calm 0); LLoop (calm 0); LLoop (calm 0)].

Lemma close_blocks_read_loop :
  let st := default initial (steps initial blockedRun) in
  is_Some (steps initial blockedRun) ∧ readLoop (session st) = RMark 0 None
  ∧ threads st !! 0%nat = Some (TWriteSend 0 (bytes "z")) ∧ threads st !! 1%nat = Some (TCloseLock 0)
  ∧ ∀ ch, step st (LLoop ch) = None ∧ step st (LThread 1 ch) = None.
Proof.
  split; [vm_compute; by eexists|]. split; [vm_compute; reflexivity|]. split; [vm_compute; reflexivity|].
  split; [vm_compute; reflexivity|]. intros ch. split; vm_compute; reflexivity.
Qed.

End ProxyProofs.
