(* ===== verification/ProxyPool.v ===== *)
(** * ProxyPool.v: the session pool of the p2proxy example
    (src/example/p2proxy/protocol/pool.go)

    A pool distributes streams over several sessions.  Each member is a slot, whose
    session is replaced when the peer's connection is rebuilt.  [open] tries the slots
    in turn, each time from the next one on, and waits when all of them are
    unavailable.  Sessions are numbers; what opening a stream on one returns is an
    argument.  [None] is a panic (an index out of range). *)

From S2P Require Import Prelude.
From Stdlib Require Import ZArith Lia String.
From stdpp Require Import base list option strings numbers gmap.

Local Open Scope Z_scope.
Local Open Scope go_scope.

Module ProxyPool.

(** ** Slots *)

(** [onChange]: the handler is set. *)
Record SessionSlot := mkSlot {
  session : option nat;
  closed : bool;
  onChange : bool
}.

#[export] Instance eta_slot : Eta SessionSlot := fun s => mkSlot (session s) (closed s) (onChange s).

Definition NewSessionSlot : SessionSlot := mkSlot None false false.

(** The slot, the sessions it closes, and whether it calls the handler. *)
Definition Replace (s : SessionSlot) (new : option nat) : SessionSlot * list nat * bool :=
  if closed s then (s, option_list new, false)
  else
    let old := session s in
    (s <| session := new |>,
     match old with Some o => if bool_decide (old = new) then [] else [o] | None => [] end, onChange s).

Definition current (s : SessionSlot) : option nat := session s.

Definition setChangeHandler (s : SessionSlot) : SessionSlot := s <| onChange := true |>.

Definition slotClose (s : SessionSlot) : SessionSlot * list nat :=
  if closed s then (s, [])
  else (s <| closed := true |> <| session := None |>, option_list (session s)).

(** ** Pools *)

Record Pool := mkPool {
  slots : list SessionSlot;
  next : Z;
  done : bool;
  closeOnce : bool;
  changed : bool
}.

#[export] Instance eta_pool : Eta Pool := fun p => mkPool (slots p) (next p) (done p) (closeOnce p) (changed p).

(** Nil slots are left out. *)
Definition NewPoolSlots (l : list (option SessionSlot)) : Pool :=
  mkPool (setChangeHandler <$> omap id l) 0 false false false.

Definition NewPool (sessions : list (option nat)) : Pool :=
  NewPoolSlots (omap (λ s, match s with
                           | Some _ => Some (Some (Replace NewSessionSlot s).1.1)
                           | None => None
                           end) sessions).

Definition signalDone (p : Pool) : Pool := p <| done := true |>.
Definition signalChanged (p : Pool) : Pool := p <| changed := true |>.

(** The pool and the sessions it closes. *)
Definition Close (p : Pool) : Pool * list nat :=
  if closeOnce p then (p, [])
  else
    let closedSlots := slotClose <$> slots p in
    ((signalDone p) <| closeOnce := true |> <| slots := closedSlots.*1 |>, concat closedSlots.*2).

(** ** Opening a stream *)

Inductive error :=
| ErrClosed
| ErrUnavailable (cause : string)
| ErrOther (message : string).

(** [errors.Is(err, ErrClosed) || errors.Is(err, ErrUnavailable)]. *)
Definition unavailable (e : error) : bool := match e with ErrOther _ => false | _ => true end.

(** What a slot answers: nothing without a session, a stream, or an error. *)
Abbreviation answer := (option (nat + error)) (only parsing).

(** The end of a pass over the slots. *)
Inductive pass :=
| Opened (stream : nat)
| Failed (lastErr : option error)
| Retry.

(** The inner loop from [offset] on; [n] slots are left. *)
Fixpoint tryFrom (n : nat) (answers : list (option (nat + error))) (start offset : Z) (lastErr : option error)
    (allUnavailable : bool) : option pass :=
  match n with
  | O => Some (if allUnavailable then Retry else Failed lastErr)
  | S n =>
      a ← slice_get answers (Z.rem (start + offset) (len answers));
      match a with
      | None => tryFrom n answers start (offset + 1) (Some (ErrUnavailable EmptyString)) allUnavailable
      | Some (inl stream) => Some (Opened stream)
      | Some (inr e) => tryFrom n answers start (offset + 1) (Some e) (allUnavailable && unavailable e)
      end
  end.

(** One pass: the counter goes on, and the slots are tried from where it was. *)
Definition tryOnce (p : Pool) (answers : list (option (nat + error))) : option (Pool * pass) :=
  let p := p <| next := u64 (next p + 1) |> in
  let start := Z.rem (i64 (u64 (next p - 1))) (len (slots p)) in
  r ← tryFrom (length (slots p)) answers start 0 None true;
  Some (p, r).

(** How a wait ends. *)
Inductive event :=
| ContextDone (message : string)
| PoolDone
| Changed
| Timer.

(** [open]: [passes] are the answers of the slots, and how the wait after each pass
    ends.  The result, or [None] of the inner option if it is still waiting. *)
Fixpoint open (p : Pool) (passes : list (list (option (nat + error)) * event))
  : option (Pool * option (nat + error)) :=
  if len (slots p) =? 0 then Some (p, Some (inr (ErrOther "proxy session pool is empty")))
  else match passes with
  | [] => Some (p, None)
  | (answers, ev) :: passes =>
      '(p, r) ← tryOnce p answers;
      match r with
      | Opened stream => Some (p, Some (inl stream))
      | Failed e => Some (p, Some (inr (default ErrClosed e)))
      | Retry =>
          match ev with
          | ContextDone message => Some (p, Some (inr (ErrOther message)))
          | PoolDone => Some (p, Some (inr ErrClosed))
          | Changed => open (p <| changed := false |>) passes
          | Timer => open p passes
          end
      end
  end.

(** ** What a pass does *)

(** The slots in the order they are tried. *)
Definition order (answers : list (option (nat + error))) (k : Z) : list (option (nat + error)) :=
  let i := Z.to_nat (k mod len answers) in drop i answers ++ take i answers.

Definition asError (a : option (nat + error)) : option error :=
  match a with None => Some (ErrUnavailable EmptyString) | Some (inr e) => Some e | Some (inl _) => None end.

(** The first slot that opens a stream; or the last error, if some error says more than
    that a session is not available. *)
Fixpoint firstOpen (l : list (option (nat + error))) : option nat :=
  match l with
  | [] => None
  | Some (inl stream) :: _ => Some stream
  | _ :: l => firstOpen l
  end.

Definition conclusion (l : list (option (nat + error))) : pass :=
  match firstOpen l with
  | Some stream => Opened stream
  | None => if forallb (λ a, match a with Some (inr e) => unavailable e | _ => true end) l then Retry
            else Failed (a ← last l; asError a)
  end.

Lemma order_lookup answers k (j : nat) :
  0 ≤ k → (j < length answers)%nat → order answers k !! j = answers !! Z.to_nat ((k + Z.of_nat j) mod len answers).
Proof.
  intros Hk Hj. unfold order, len. set (n := length answers) in *.
  pose proof (Z.mod_pos_bound k (Z.of_nat n) ltac:(lia)) as Hm. set (i := Z.to_nat (k mod Z.of_nat n)).
  assert (Z.of_nat i = k mod Z.of_nat n) as Hi by lia.
  assert (Z.to_nat ((k + Z.of_nat j) mod Z.of_nat n) = if (i + j <? n)%nat then (i + j)%nat else (i + j - n)%nat) as Ht.
  { rewrite <- Z.add_mod_idemp_l, <- Hi by lia. case_if as E; b2p.
    - rewrite Z.mod_small by lia. lia.
    - replace (Z.of_nat i + Z.of_nat j) with (Z.of_nat (i + j - n) + 1 * Z.of_nat n) by lia.
      rewrite Z.mod_add, Z.mod_small by lia. lia. }
  rewrite Ht. case_if as E; b2p.
  - rewrite lookup_app_l by (rewrite length_drop; lia). by rewrite lookup_drop.
  - rewrite lookup_app_r by (rewrite length_drop; lia). rewrite length_drop. fold n. rewrite lookup_take.
    replace (j - (n - i))%nat with (i + j - n)%nat by lia. case_decide; [done|lia].
Qed.

(** All slots, each once. *)
Lemma order_permutation answers k : order answers k ≡ₚ answers.
Proof. unfold order. rewrite Permutation_app_comm. by rewrite take_drop. Qed.

(** The inner loop works through [l], the rest of the order. *)
Lemma tryFrom_spec n answers k lastErr allU :
  0 ≤ k < 2 ^ 63 → (n ≤ length answers)%nat → answers ≠ [] →
  let l := drop (length answers - n) (order answers k) in
  tryFrom n answers (Z.rem k (len answers)) (Z.of_nat (length answers - n)) lastErr allU =
  Some match firstOpen l with
       | Some stream => Opened stream
       | None => if allU && forallb (λ a, match a with Some (inr e) => unavailable e | _ => true end) l then Retry
                 else Failed (match last l with Some a => asError a | None => lastErr end)
       end.
Proof.
  intros Hk Hn Hne. revert lastErr allU. induction n as [|n IH]; intros lastErr allU.
  { rewrite drop_ge by (rewrite (Permutation_length (order_permutation answers k)); lia). cbn. by rewrite andb_true_r. }
  set (j := (length answers - S n)%nat). assert (j < length answers)%nat as Hj by (destruct answers; [done|]; cbn in *; lia).
  assert (0 < len answers) as Hl by (unfold len; lia).
  assert (order answers k !! j = answers !! Z.to_nat (Z.rem (Z.rem k (len answers) + Z.of_nat j) (len answers))) as Ho.
  { rewrite order_lookup by lia. pose proof (Z.mod_pos_bound k (len answers) Hl).
    rewrite (Z.rem_mod_nonneg k) by lia. rewrite Z.rem_mod_nonneg by lia.
    by rewrite Z.add_mod_idemp_l by lia. }
  assert (is_Some (answers !! Z.to_nat (Z.rem (Z.rem k (len answers) + Z.of_nat j) (len answers)))) as [a Ha].
  { rewrite <- Ho. apply lookup_lt_is_Some. by rewrite (Permutation_length (order_permutation answers k)). }
  rewrite Ha in Ho. rewrite (drop_S _ a j Ho). cbn [tryFrom].
  assert (slice_get answers (Z.rem (Z.rem k (len answers) + Z.of_nat j) (len answers)) = Some a) as ->.
  { unfold slice_get. rewrite <- Ha. case_if as E; [|done]. exfalso.
    pose proof (Z.rem_bound_pos (Z.rem k (len answers) + Z.of_nat j) (len answers)) as Hb.
    pose proof (Z.rem_bound_pos k (len answers)). lia. }
  cbn [mbind option_bind]. replace (S j) with (length answers - n)%nat by (subst j; lia).
  replace (Z.of_nat j + 1) with (Z.of_nat (length answers - n)) by (subst j; lia).
  specialize (IH ltac:(lia)). set (l := drop (length answers - n) (order answers k)) in *.
  destruct a as [[stream|e]|]; cbn [firstOpen forallb]; [done|..]; rewrite IH, last_cons;
    destruct (firstOpen l), (last l); cbn [andb asError]; by rewrite ?andb_assoc.
Qed.

(** While the counter is below 2^63, a pass over the slots does not panic.  It tries
    every slot once, from slot [next mod n] on, and returns the first stream; if there
    is none and every slot has no session or one that is not available, it is tried
    again later, and otherwise the error of the slot tried last is returned. *)
Theorem pool_pass p answers :
  0 ≤ next p < 2 ^ 63 - 1 → slots p ≠ [] → length answers = length (slots p) →
  tryOnce p answers = Some (p <| next := next p + 1 |>, conclusion (order answers (next p)))
  ∧ order answers (next p) ≡ₚ answers
  ∧ ∀ j : nat, (j < length answers)%nat →
      order answers (next p) !! j = answers !! Z.to_nat ((next p + Z.of_nat j) mod len (slots p)).
Proof.
  intros Hn Hs Hl. split; [|split; [apply order_permutation|]].
  2: { intros j Hj. replace (len (slots p)) with (len answers) by (unfold len; lia). by apply order_lookup; [lia|]. }
  unfold tryOnce. cbn [next update slots].
  assert (u64 (next p + 1) = next p + 1) as -> by (intval; lia).
  assert (i64 (u64 (next p + 1 - 1)) = next p) as -> by (intval; lia).
  replace (len (slots p)) with (len answers) by (unfold len; lia). rewrite <- Hl.
  assert (answers ≠ []) as Hne by (intros ->; by destruct (slots p)).
  pose proof (tryFrom_spec (length answers) answers (next p) None true ltac:(lia) ltac:(lia) Hne) as Ht.
  rewrite Nat.sub_diag, drop_0 in Ht. change (Z.of_nat 0) with 0 in Ht. rewrite Ht. done.
Qed.

(** Three slots, from the second on: no session, a closed one, a stream. *)
Lemma pool_pass_witness :
  let p := mkPool (replicate 3 NewSessionSlot) 1 false false false in
  let answers := [Some (inl 7%nat); None; Some (inr ErrClosed)] in
  tryOnce p answers = Some (p <| next := 2 |>, Opened 7)
  ∧ order answers 1 ≡ₚ answers
  ∧ ∀ j : nat, (j < 3)%nat → order answers 1 !! j = answers !! Z.to_nat ((1 + Z.of_nat j) mod 3).
Proof.
  apply (pool_pass (mkPool (replicate 3 NewSessionSlot) 1 false false false) [Some (inl 7%nat); None; Some (inr ErrClosed)]);
    [cbn; lia|done|done].
Defined.

(** The refusal of one session is hidden behind the absence of a later one. *)
Lemma pool_masks_refusal :
  let p := mkPool (replicate 2 NewSessionSlot) 0 false false false in
  tryOnce p [Some (inr (ErrOther "remote target connection failed")); None]
  = Some (p <| next := 1 |>, Failed (Some (ErrUnavailable EmptyString))).
Proof. vm_compute. reflexivity. Qed.

(** From 2^63 passes on the index is negative. *)
Lemma pool_index_wraps :
  tryOnce (mkPool (replicate 3 NewSessionSlot) (2 ^ 63 + 1) false false false) [None; None; None] = None.
Proof. vm_compute. reflexivity. Qed.

(** ** Sessions are closed *)

Inductive op :=
| OReplace (i : nat) (new : option nat)
| OClose.

(** A pool, the sessions it was given and the ones it closed. *)
Record history := mkHistory {
  pool : Pool;
  given : list nat;
  ended : list nat
}.

Definition apply_ (h : history) (o : op) : history :=
  match o with
  | OReplace i new =>
      match slots (pool h) !! i with
      | Some s =>
          let '(s, l, signal) := Replace s new in
          let p := (pool h) <| slots ::= <[i := s]> |> in
          mkHistory (if (signal : bool) then signalChanged p else p) (given h ++ option_list new) (ended h ++ l)
      | None => h
      end
  | OClose => let '(p, l) := Close (pool h) in mkHistory p (given h) (ended h ++ l)
  end.

Definition owned (p : Pool) : list nat := omap session (slots p).

Record history_ok (h : history) : Prop := {
  h_owned : ∀ s, s ∈ given h → s ∈ ended h ∨ s ∈ owned (pool h);
  h_closed : ∀ s, s ∈ slots (pool h) → closed s = true → session s = None;
  h_done : closeOnce (pool h) = true → done (pool h) = true ∧ Forall (λ s, closed s = true) (slots (pool h))
}.

Lemma owned_insert p i s s' x :
  slots p !! i = Some s → x ∈ owned p → session s ≠ Some x → x ∈ omap session (<[i := s']> (slots p)).
Proof.
  unfold owned. intros Hi Hx Hne. apply list_elem_of_omap in Hx as (t & Ht & Hsx). apply list_elem_of_omap. exists t.
  split; [|done]. apply list_elem_of_lookup in Ht as [j Hj]. apply list_elem_of_lookup. exists j.
  rewrite list_lookup_insert_ne; [done|]. intros ->. congruence.
Qed.

Lemma replace_ok h i new : history_ok h → history_ok (apply_ h (OReplace i new)).
Proof.
  intros [H1 H2 H3]. cbn. destruct (slots (pool h) !! i) as [s|] eqn:Ei; [|done].
  pose proof (list_elem_of_lookup_2 _ _ _ Ei) as Hin. unfold Replace. destruct (closed s) eqn:Ec.
  - cbn. rewrite list_insert_id by done. split; cbn; try done.
    intros x [Hx|Hx]%elem_of_app; [destruct (H1 x Hx); [left; apply elem_of_app; by left|by right]|].
    left. apply elem_of_app. by right.
  - set (s' := s <| session := new |>).
    assert (∀ p', slots p' = <[i := s']> (slots (pool h)) → closeOnce p' = closeOnce (pool h) → done p' = done (pool h) →
      history_ok (mkHistory p' (given h ++ option_list new)
        (ended h ++ match session s with Some o => if bool_decide (session s = new) then [] else [o] | None => [] end))) as HH.
    { intros p' Hp Hc Hd. split; cbn.
      - unfold owned. rewrite Hp. intros x [Hx|Hx]%elem_of_app.
        + destruct (H1 x Hx) as [?|Ho]; [left; apply elem_of_app; by left|].
          destruct (decide (session s = Some x)) as [Hsx|Hsx]; [|right; by eapply owned_insert].
          rewrite Hsx. case_bool_decide as Hn; [|left; apply elem_of_app; right; by left].
          right. apply list_elem_of_omap. exists s'. split; [|done]. apply list_elem_of_insert. by eapply lookup_lt_Some.
        + right. destruct new as [y|]; [|by apply not_elem_of_nil in Hx]. apply list_elem_of_singleton in Hx as ->.
          apply list_elem_of_omap. exists s'. split; [|done]. apply list_elem_of_insert. by eapply lookup_lt_Some.
      - rewrite Hp. intros t Ht Htc. apply list_elem_of_lookup in Ht as [j Hj].
        apply list_lookup_insert_Some in Hj as [(_ & <- & _)|[_ Hj]]; [by cbn in Htc; congruence|].
        apply H2; [by eapply list_elem_of_lookup_2|done].
      - rewrite Hc, Hd, Hp. intros Hcl. destruct (H3 Hcl) as [_ HF]. rewrite Forall_forall in HF.
        specialize (HF s Hin). cbn in HF. congruence. }
    destruct (onChange s); by apply HH.
Qed.

Lemma slotClose_spec s : closed (slotClose s).1 = true ∧ (closed s = false → (slotClose s).2 = option_list (session s)).
Proof. unfold slotClose. by destruct (closed s) eqn:E. Qed.

Lemma slotClose_none s : (closed s = true → session s = None) → session (slotClose s).1 = None.
Proof. unfold slotClose. destruct (closed s); [by auto|done]. Qed.

Lemma pool_close_ok h : history_ok h → history_ok (apply_ h OClose).
Proof.
  intros [H1 H2 H3]. cbn. unfold Close. destruct (closeOnce (pool h)) eqn:Ec.
  { split; cbn; rewrite ?app_nil_r; try done. by rewrite Ec. }
  split; cbn.
  - intros x Hx. left. apply elem_of_app. destruct (H1 x Hx) as [?|Ho]; [by left|right].
    apply list_elem_of_omap in Ho as (t & Ht & Hsx). apply list_elem_of_In, in_concat. exists (option_list (session t)).
    rewrite Hsx. split; [|by left]. apply list_elem_of_In, list_elem_of_fmap. exists (slotClose t).
    split; [|by apply list_elem_of_fmap_2]. rewrite <- Hsx. symmetry. apply slotClose_spec.
    destruct (closed t) eqn:E; [|done]. rewrite (H2 t Ht E) in Hsx. done.
  - intros s Hs _. rewrite <- list_fmap_compose in Hs. apply list_elem_of_fmap in Hs as (t & -> & Ht). cbn.
    by apply slotClose_none, H2.
  - intros _. split; [done|]. rewrite <- list_fmap_compose. apply Forall_fmap, Forall_true. intros t.
    cbn. apply slotClose_spec.
Qed.

Lemma pool_new_ok sessions : history_ok (mkHistory (NewPool sessions) (omap id sessions) []).
Proof.
  assert (∀ s, s ∈ slots (NewPool sessions) → closed s = false) as Hn.
  { intros s Hs. unfold NewPool, NewPoolSlots in Hs. cbn in Hs. apply list_elem_of_fmap in Hs as (t & -> & Ht).
    apply list_elem_of_omap in Ht as (o & Ho & Hot). apply list_elem_of_omap in Ho as (n & _ & Hno).
    destruct n; cbn in *; [|done]. by simplify_eq. }
  split; cbn.
  - intros x Hx. right. apply list_elem_of_omap in Hx as (o & Ho & Hox). cbn in Hox. subst o.
    apply list_elem_of_omap. exists (setChangeHandler (Replace NewSessionSlot (Some x)).1.1). split; [|done].
    apply list_elem_of_fmap_2, list_elem_of_omap. exists (Some (Replace NewSessionSlot (Some x)).1.1). split; [|done].
    apply list_elem_of_omap. by exists (Some x).
  - intros s Hs Hc. rewrite (Hn s Hs) in Hc. done.
  - done.
Qed.

(** No session is forgotten.  However slots are replaced and the pool is closed, every
    session the pool was given has been closed or is the current one of a slot; after
    [Close] all of them have been closed, also those that come later. *)
Theorem pool_sessions_closed sessions ops :
  let h := foldl apply_ (mkHistory (NewPool sessions) (omap id sessions) []) ops in
  (∀ s, s ∈ given h → s ∈ ended h ∨ s ∈ owned (pool h))
  ∧ (closeOnce (pool h) = true → done (pool h) = true ∧ ∀ s, s ∈ given h → s ∈ ended h).
Proof.
  cbv zeta. pose proof (pool_new_ok sessions) as H0.
  assert (history_ok (foldl apply_ (mkHistory (NewPool sessions) (omap id sessions) []) ops)) as [H1 H2 H3].
  { revert H0. generalize (mkHistory (NewPool sessions) (omap id sessions) []).
    induction ops as [|o ops IH]; intros h Hh; [done|]. cbn [foldl]. apply IH.
    destruct o; [by apply replace_ok|by apply pool_close_ok]. }
  set (h := foldl _ _ _) in *. split; [done|]. intros Hc. destruct (H3 Hc) as [Hd HF]. split; [done|].
  intros s Hs. destruct (H1 s Hs) as [?|Ho]; [done|]. apply list_elem_of_omap in Ho as (t & Ht & Hst).
  rewrite Forall_forall in HF. rewrite (H2 t Ht (HF t Ht)) in Hst. done.
Qed.

End ProxyPool.
