(* ===== verification/Kcp.v ===== *)
(** * Kcp.v: the KCP transport
    (src/transports/transport_kcp: settings.go, congestion.go, kcp.go, default.go, new.go)

    The settings of a session are computed from capacities, as Xray's mKCP does; a
    delivery-rate controller measures what [Write] hands to the session; a goroutine
    adjusts the session's send window on every tick of a timer.  [Dial] and [Accept]
    set up a session and check a preface; [Close] sends a marker and closes everything.

    Of kcp-go there are only the values it returns: round-trip estimates, the number of
    bytes a call of [Write] takes, the errors of the calls.  They are arguments, without
    any assumption unless a theorem says so.  Times are nanoseconds on the monotonic
    clock, and [None] is the zero [time.Time]. *)

From S2P Require Import Prelude Objects.
From Stdlib Require Import ZArith Lia ZifyBool String.
From stdpp Require Import base list option strings numbers.

Local Open Scope Z_scope.
Local Open Scope go_scope.

Module Kcp.
Import Objects.

(** ** Configuration *)

Definition DefaultMTU : Z := 1200.
Definition DefaultTTI : Z := 50.
Definition DefaultUplinkCapacity : Z := 5.
Definition DefaultDownlinkCapacity : Z := 30.
Definition DefaultCwndMultiplier : Z := 20.
Definition DefaultMaxSendingWindow : Z := 2 * 2 ^ 20.

Record Transport := mkTransport {
  MTU : Z;
  TTI : Z;
  UplinkCapacity : Z;
  DownlinkCapacity : Z;
  CwndMultiplier : Z;
  MaxSendingWindow : Z;
  DataShards : Z;
  ParityShards : Z;
  AdaptiveCongestionControl : bool;
  DisableCongestionControl : bool
}.

#[export] Instance eta_transport : Eta Transport := fun t =>
  mkTransport (MTU t) (TTI t) (UplinkCapacity t) (DownlinkCapacity t) (CwndMultiplier t) (MaxSendingWindow t)
    (DataShards t) (ParityShards t) (AdaptiveCongestionControl t) (DisableCongestionControl t).

Definition DefaultTransport : Transport :=
  mkTransport DefaultMTU DefaultTTI DefaultUplinkCapacity DefaultDownlinkCapacity DefaultCwndMultiplier
    DefaultMaxSendingWindow 10 3 true true.

Inductive Option_ :=
| WithDataShards (shards : Z)
| WithMTU (mtu : Z)
| WithTTI (milliseconds : Z)
| WithUplinkCapacity (megabytesPerSecond : Z)
| WithDownlinkCapacity (megabytesPerSecond : Z)
| WithCwndMultiplier (multiplier : Z)
| WithMaxSendingWindow (bytes : Z)
| WithParityShards (shards : Z)
| WithFEC (dataShards parityShards : Z)
| WithAdaptiveCongestionControl (enabled : bool)
| WithCongestionControl (enabled : bool).

Definition applyOption (t : Transport) (o : Option_) : Transport :=
  match o with
  | WithDataShards n => t <| DataShards := n |>
  | WithMTU n => t <| MTU := n |>
  | WithTTI n => t <| TTI := n |>
  | WithUplinkCapacity n => t <| UplinkCapacity := n |>
  | WithDownlinkCapacity n => t <| DownlinkCapacity := n |>
  | WithCwndMultiplier n => t <| CwndMultiplier := n |>
  | WithMaxSendingWindow n => t <| MaxSendingWindow := n |>
  | WithParityShards n => t <| ParityShards := n |>
  | WithFEC d p => t <| DataShards := d |> <| ParityShards := p |>
  | WithAdaptiveCongestionControl b => t <| AdaptiveCongestionControl := b |>
  | WithCongestionControl b => t <| DisableCongestionControl := negb b |>
  end.

(** A nil option is skipped. *)
Definition New (options : list (option Option_)) : Transport :=
  foldl (λ t o, match o with Some o => applyOption t o | None => t end) DefaultTransport options.

(** ** Settings *)

Definition minKCPMTU : Z := 50.
Definition maxKCPMTU : Z := 1500.
Definition minKCPInterval : Z := 10.
Definition maxKCPInterval : Z := 1000.
Definition minControlWindow : Z := 16.

Record kcpSettings := mkSettings {
  mtu : Z;
  tti : Z;
  sendWindow : Z;
  initialSendWindow : Z;
  receiveWindow : Z
}.

Definition clampKCPWindow (size : Z) : Z :=
  let maxWindow := 2 ^ 32 - 1 in
  let maxWindow := if MaxInt64 <? maxWindow then MaxInt64 else maxWindow in
  if size =? 0 then 1
  else if maxWindow <? size then i64 maxWindow
  else i64 size.

(** Go's integer division, which panics on zero. *)
Definition div (a b : Z) : option Z := if b =? 0 then None else Some (Z.quot a b).

Definition xrayInFlightWindow (capacity mtu tti : Z) : option Z :=
  intervalsPerSecond ← div 1000 tti;
  let size := u64 (u64 (u64 capacity * 1024) * 1024) in
  size ← div size (u64 mtu);
  size ← div size (u64 intervalsPerSecond);
  let size := if size <? 8 then 8 else size in
  Some (clampKCPWindow size).

Definition xrayKCPSettings (t : Transport) : option kcpSettings :=
  let mtu := if (MTU t <? minKCPMTU) || (maxKCPMTU <? MTU t) then DefaultMTU else MTU t in
  let tti := if (TTI t <? minKCPInterval) || (maxKCPInterval <? TTI t) then DefaultTTI else TTI t in
  let uplinkCapacity := if UplinkCapacity t =? 0 then DefaultUplinkCapacity else UplinkCapacity t in
  let downlinkCapacity := if DownlinkCapacity t =? 0 then DefaultDownlinkCapacity else DownlinkCapacity t in
  let cwndMultiplier := if CwndMultiplier t =? 0 then DefaultCwndMultiplier else CwndMultiplier t in
  let maxSendingWindow := if MaxSendingWindow t <=? 0 then DefaultMaxSendingWindow else MaxSendingWindow t in
  sendInFlight ← xrayInFlightWindow uplinkCapacity mtu tti;
  receiveInFlight ← xrayInFlightWindow downlinkCapacity mtu tti;
  sendBuffer ← div maxSendingWindow mtu;
  let sendBuffer := u64 sendBuffer in
  let sendBuffer := if sendBuffer =? 0 then 1 else sendBuffer in
  let sendWindow := u64 (u64 sendInFlight * u64 cwndMultiplier) in
  let sendWindow := if sendBuffer <? sendWindow then sendBuffer else sendWindow in
  let sendWindow := u64 (clampKCPWindow sendWindow) in
  let initialSendWindow := if 128 <? sendWindow then 128 else sendWindow in
  Some (mkSettings mtu tti (i64 sendWindow) (clampKCPWindow initialSendWindow)
          (clampKCPWindow (u64 receiveInFlight))).

(** ** The delivery-rate controller *)

Definition deliveryRateSampleInterval : Z := 500 * 10 ^ 6.
Definition bbrWindowGain : Z := 2.

Record deliveryRateController := mkController {
  sampleSince : option Z;
  sampleBytes : Z;
  maxRate : Z
}.

#[export] Instance eta_controller : Eta deliveryRateController := fun c =>
  mkController (sampleSince c) (sampleBytes c) (maxRate c).

(** [now.Sub(t)] saturates; a zero time lies before all others. *)
Definition timeSub (now t : Z) : Z := Z.max (- 2 ^ 63) (Z.min MaxInt64 (now - t)).

Definition record (c : deliveryRateController) (n now : Z) : deliveryRateController :=
  if n <=? 0 then c
  else
    let c := match sampleSince c with None => c <| sampleSince := Some now |> | Some _ => c end in
    c <| sampleBytes := u64 (sampleBytes c + u64 n) |>.

Definition maxUint64 (a b : Z) : Z := if b <? a then a else b.

Definition sample (c : deliveryRateController) (now : Z) : deliveryRateController * Z :=
  match sampleSince c with
  | None => (c, 0)
  | Some since =>
      if sampleBytes c =? 0 then (c, 0)
      else
        let elapsed := timeSub now since in
        if elapsed <? deliveryRateSampleInterval then (c, 0)
        else
          let rate := u64 (sampleBytes c * 10 ^ 9) / u64 elapsed in
          let c := c <| sampleBytes := 0 |> <| sampleSince := Some now |> in
          let c :=
            if maxRate c <? rate then c <| maxRate := rate |>
            else if rate <? maxRate c then c <| maxRate := maxUint64 rate (u64 (maxRate c * 7) / 8) |>
            else c in
          (c, maxRate c)
  end.

Definition bbrTargetWindow (rateBytesPerSecond srttMillis mtu maxWindow : Z) : Z :=
  if (rateBytesPerSecond =? 0) || (srttMillis <=? 0) || (mtu <=? 0) || (maxWindow <=? 0) then 0
  else
    let bdpBytes := u64 (rateBytesPerSecond * u64 srttMillis) / 1000 in
    let target := u64 (u64 (u64 (bdpBytes * bbrWindowGain) + u64 mtu) - 1) / u64 mtu in
    let target := if target <? minControlWindow then minControlWindow else target in
    let target := if u64 maxWindow <? target then u64 maxWindow else target in
    i64 target.

(** ** The monitor *)

Definition adaptiveFallbackRTO : Z := 750.
Definition adaptiveFallbackAfter : Z := 750 * 10 ^ 6.

(** The local variables of [monitorCongestion]. *)
Record monitor := mkMonitor {
  degradedSince : option Z;
  window : Z
}.

#[export] Instance eta_monitor : Eta monitor := fun m => mkMonitor (degradedSince m) (window m).

(** The body of the tick case: the new variables, and the send window it passes to
    [SetWindowSize] if it calls it.  [rto] and [srtt] are what the session answers. *)
Definition monitorTick (s : kcpSettings) (m : monitor) (c : deliveryRateController) (now rto srtt : Z)
  : monitor * deliveryRateController * option Z :=
  let '(c, rate) := sample c now in
  if adaptiveFallbackRTO <=? rto then
    let since := match degradedSince m with None => now | Some d => d end in
    if adaptiveFallbackAfter <=? timeSub now since then
      let nextWindow := Z.quot (i64 (window m * 3)) 4 in
      let nextWindow := if nextWindow <? minControlWindow then minControlWindow else nextWindow in
      let nextWindow := if sendWindow s <? nextWindow then sendWindow s else nextWindow in
      if nextWindow <? window m then (mkMonitor (Some now) nextWindow, c, Some nextWindow)
      else (mkMonitor (Some now) (window m), c, None)
    else (mkMonitor (Some since) (window m), c, None)
  else
    let m := m <| degradedSince := None |> in
    if (rate =? 0) || (sendWindow s <=? window m) then (m, c, None)
    else
      let srtt := if srtt <=? 0 then tti s else srtt in
      let target := bbrTargetWindow rate srtt (mtu s) (sendWindow s) in
      if window m <? target then
        let step := Z.quot (window m) 2 in
        let step := if step <? 1 then 1 else step in
        let w := i64 (window m + step) in
        let w := if target <? w then target else w in
        let w := if sendWindow s <? w then sendWindow s else w in
        (m <| window := w |>, c, Some w)
      else (m, c, None).

(** ** Sessions *)

(** What [configure] sets on a session. *)
Record sessionConfig := mkConfig {
  cfgMtu : Z;
  cfgInterval : Z;
  cfgNoCwnd : Z;
  cfgSendWindow : Z;
  cfgReceiveWindow : Z
}.

Definition configure (s : kcpSettings) (congestionControl adaptive : bool) : sessionConfig :=
  mkConfig (mtu s) (tti s) (if congestionControl then 0 else 1)
    (if adaptive then initialSendWindow s else sendWindow s) (receiveWindow s).

(** Effects on the objects a connection is made of. *)
Inductive object := OSession | OListener | OPacket.

#[export] Instance object_eq_dec : EqDecision object.
Proof. solve_decision. Defined.

Inductive action :=
| Configure (cfg : sessionConfig)
| SessionWrite (data : list byte)
| StartMonitor
| StopMonitor
| Sleep.

Abbreviation effects := (list (effect object action)) (only parsing).

Definition sessionPreface : list byte := bytes_of "telekit-kcp-v1" ++ [Byte.x00].
Definition closeMarker : list byte := replicate 8 Byte.x00.

(** The fields that refer to an object are booleans: not nil. *)
Record conn := mkConn {
  session : bool;
  listener : bool;
  packet : bool;
  controller : option deliveryRateController;
  writeChunkSize : Z;
  adaptive : bool;
  closeOnce : bool;
  closeErr : option string
}.

#[export] Instance eta_conn : Eta conn := fun c =>
  mkConn (session c) (listener c) (packet c) (controller c) (writeChunkSize c) (adaptive c) (closeOnce c)
    (closeErr c).

(** The two fields of an endpoint the transport tests: not nil. *)
Record Endpoint := mkEndpoint {
  PacketConn : bool;
  RemoteAddr : bool
}.

(** [startAdaptiveCongestionControl] and the connection before it. *)
Definition newConn (t : Transport) (s : kcpSettings) (hasListener : bool) : conn * effects :=
  let c := mkConn true hasListener true None (i64 (mtu s - 24)) false false None in
  if AdaptiveCongestionControl t
  then (c <| controller := Some (mkController None 0 0) |> <| adaptive := true |>, [EDo StartMonitor])
  else (c, []).

(** [opened] is what [kcp.NewConn2] returns, [written] the error of the preface. *)
Definition Dial (t : Transport) (ep : Endpoint) (opened : result unit) (written : option string)
  : option (effects * result conn) :=
  if negb (PacketConn ep) || negb (RemoteAddr ep) then Some ([], Err "unsupported transport")
  else match opened with
  | Err e => Some ([], Err e)
  | Ok _ =>
      s ← xrayKCPSettings t;
      let es := [EOpen OSession; EDo (Configure (configure s (negb (DisableCongestionControl t))
                                               (AdaptiveCongestionControl t))); EDo (SessionWrite sessionPreface)] in
      match written with
      | Some e => Some (es ++ [EClose OSession], Err e)
      | None => let '(c, start) := newConn t s false in Some (es ++ start, Ok c)
      end
  end.

(** What the select of [Accept] receives; with a session, what reading the preface
    returns.  When it is [ctx.Done()], the goroutine may have a session ([late]) and put
    it into the buffer of [accepted]. *)
Inductive acceptEvent :=
| Accepted (preface : result (list byte))
| AcceptFailed (e : string)
| Cancelled (e : string) (late : bool).

Definition Accept (t : Transport) (ep : Endpoint) (served : result unit) (ev : acceptEvent)
  : option (effects * result conn) :=
  if negb (PacketConn ep) then Some ([], Err "unsupported transport")
  else match served with
  | Err e => Some ([], Err e)
  | Ok _ =>
      match ev with
      | Accepted preface =>
          s ← xrayKCPSettings t;
          let es := [EOpen OListener; EOpen OSession;
                     EDo (Configure (configure s (negb (DisableCongestionControl t))
                                   (AdaptiveCongestionControl t)))] in
          match preface with
          | Err e => Some (es ++ [EClose OSession; EClose OListener], Err e)
          | Ok preface =>
              if negb (bool_decide (preface = sessionPreface))
              then Some (es ++ [EClose OSession; EClose OListener], Err "invalid KCP session preface")
              else let '(c, start) := newConn t s true in Some (es ++ start, Ok c)
          end
      | AcceptFailed e => Some ([EOpen OListener; EClose OListener], Err e)
      | Cancelled e late =>
          Some ([EOpen OListener] ++ (if late then [EOpen OSession] else []) ++ [EClose OListener; EClose OPacket],
                Err e)
      end
  end.

(** The loop of [Write]: call [k] of the session's [Write] takes a prefix of its
    argument and may fail.  The chunks, what was taken of each, and the values
    [Write] returns.  [None]: out of fuel. *)
Fixpoint writeLoop (fuel : nat) (c : conn) (chunkSize : nat) (p : list byte)
    (write : nat → list byte → nat * option string) (now : nat → Z) (k : nat) (total : Z)
  : option (conn * list (list byte * nat) * (Z * option string)) :=
  match fuel with
  | O => None
  | S fuel =>
      match p with
      | [] => Some (c, [], (total, None))
      | _ =>
          let chunk := if (chunkSize <? length p)%nat then take chunkSize p else p in
          let '(n, err) := write k chunk in
          let total := total + Z.of_nat n in
          let c := c <| controller ::= fmap (λ d, record d (Z.of_nat n) (now k)) |> in
          match err with
          | Some _ => Some (c, [(chunk, n)], (total, err))
          | None =>
              if (n =? 0)%nat then Some (c, [(chunk, n)], (total, None))
              else
                '(c, chunks, r) ← writeLoop fuel c chunkSize (drop n p) write now (S k) total;
                Some (c, (chunk, n) :: chunks, r)
          end
      end
  end.

Definition Write (c : conn) (p : list byte) (write : nat → list byte → nat * option string) (now : nat → Z)
  : option (conn * list (list byte * nat) * (Z * option string)) :=
  let chunkSize := if writeChunkSize c <=? 0 then len p else writeChunkSize c in
  writeLoop (S (length p)) c (Z.to_nat chunkSize) p write now 0 0.

(** [Close], with the errors of closing the session, the listener and the packet
    connection: the effects and the error returned. *)
Definition Close (c : conn) (errs : option string) (errl errp : option string) : conn * effects * option string :=
  if closeOnce c then (c, [], closeErr c)
  else
    let first (e1 e2 : option string) := match e1 with None => e2 | Some _ => e1 end in
    let es := if adaptive c then [EDo StopMonitor] else [] in
    let '(es, e) :=
      if session c then (es ++ [EDo (SessionWrite closeMarker); EDo Sleep; EClose OSession], errs) else (es, closeErr c) in
    let '(es, e) := if listener c then (es ++ [EClose OListener], first e errl) else (es, e) in
    let '(es, e) := if packet c then (es ++ [EClose OPacket], first e errp) else (es, e) in
    (c <| closeOnce := true |> <| closeErr := e |>, es, e).

(** ** Settings: the code computes, in 64-bit words, this *)

(** The fields of a transport have their Go types. *)
Definition typed (t : Transport) : Prop :=
  in_i64 (MTU t) ∧ in_i64 (TTI t) ∧ in_i64 (MaxSendingWindow t)
  ∧ 0 ≤ UplinkCapacity t < 2 ^ 32 ∧ 0 ≤ DownlinkCapacity t < 2 ^ 32 ∧ 0 ≤ CwndMultiplier t < 2 ^ 32.

Definition or_default (ok : bool) (v d : Z) : Z := if ok then v else d.

(** Packets in flight at a capacity of [c] MiB/s during one interval. *)
Definition idealInFlight (c mtu tti : Z) : Z :=
  Z.min (2 ^ 32 - 1) (Z.max 8 (c * 2 ^ 20 / mtu / (1000 / tti))).

Definition idealSettings (t : Transport) : kcpSettings :=
  let mtu := or_default ((50 <=? MTU t) && (MTU t <=? 1500)) (MTU t) DefaultMTU in
  let tti := or_default ((10 <=? TTI t) && (TTI t <=? 1000)) (TTI t) DefaultTTI in
  let up := or_default (0 <? UplinkCapacity t) (UplinkCapacity t) DefaultUplinkCapacity in
  let down := or_default (0 <? DownlinkCapacity t) (DownlinkCapacity t) DefaultDownlinkCapacity in
  let mult := or_default (0 <? CwndMultiplier t) (CwndMultiplier t) DefaultCwndMultiplier in
  let buffer := or_default (0 <? MaxSendingWindow t) (MaxSendingWindow t) DefaultMaxSendingWindow in
  let send := Z.min (2 ^ 32 - 1) (Z.min (idealInFlight up mtu tti * mult) (Z.max 1 (buffer / mtu))) in
  mkSettings mtu tti send (Z.min 128 send) (idealInFlight down mtu tti).

(** What the rest of the transport relies on. *)
Definition good (s : kcpSettings) : Prop :=
  50 ≤ mtu s ≤ 1500 ∧ 10 ≤ tti s ≤ 1000 ∧ 1 ≤ sendWindow s < 2 ^ 32
  ∧ 1 ≤ initialSendWindow s ≤ Z.min 128 (sendWindow s) ∧ 8 ≤ receiveWindow s < 2 ^ 32.

Lemma clamp_spec size : 0 ≤ size → clampKCPWindow size = Z.max 1 (Z.min (2 ^ 32 - 1) size).
Proof.
  intros H. unfold clampKCPWindow. change (MaxInt64 <? 2 ^ 32 - 1) with false. cbv iota zeta.
  case_ifs; intval; lia.
Qed.

Lemma inFlight_spec c m t :
  0 ≤ c < 2 ^ 32 → 50 ≤ m ≤ 1500 → 10 ≤ t ≤ 1000 → xrayInFlightWindow c m t = Some (idealInFlight c m t).
Proof.
  intros Hc Hm Ht. unfold xrayInFlightWindow, idealInFlight, div.
  assert (1 ≤ 1000 / t ≤ 1000) as Hi by (split; [apply Z.div_le_lower_bound|apply Z.div_le_upper_bound]; lia).
  rewrite (Z.quot_div_nonneg 1000 t) by lia.
  destruct (t =? 0) eqn:E; b2p; [lia|]. cbn [mbind option_bind].
  assert (u64 (u64 (u64 c * 1024) * 1024) = c * 2 ^ 20) as -> by (intval; lia).
  assert (u64 m = m) as -> by (intval; lia). assert (u64 (1000 / t) = 1000 / t) as -> by (intval; lia).
  destruct (m =? 0) eqn:E1; b2p; [lia|]. cbn [mbind option_bind].
  destruct (1000 / t =? 0) eqn:E2; b2p; [lia|]. cbn [mbind option_bind].
  rewrite (Z.quot_div_nonneg (c * 2 ^ 20) m) by lia.
  assert (0 ≤ c * 2 ^ 20 / m) by (apply Z.div_pos; lia).
  rewrite Z.quot_div_nonneg by lia.
  assert (0 ≤ c * 2 ^ 20 / m / (1000 / t)) by (apply Z.div_pos; lia).
  f_equal. rewrite clamp_spec; case_ifs; lia.
Qed.

Lemma inFlight_range c m t : 8 ≤ idealInFlight c m t < 2 ^ 32.
Proof. unfold idealInFlight. lia. Qed.
Opaque idealInFlight.

Lemma default_spec (bad ok : bool) v d : bad = negb ok → (if bad then d else v) = or_default ok v d.
Proof. intros ->. by destruct ok. Qed.

(** The windows, after the capacities. *)
Lemma send_window_spec f k q :
  8 ≤ f < 2 ^ 32 → 0 < k < 2 ^ 32 → 0 ≤ q < 2 ^ 63 →
  u64 (clampKCPWindow
    (if (if u64 q =? 0 then 1 else u64 q) <? u64 (u64 f * u64 k)
     then if u64 q =? 0 then 1 else u64 q else u64 (u64 f * u64 k)))
  = Z.min (2 ^ 32 - 1) (Z.min (f * k) (Z.max 1 q)).
Proof.
  intros Hf Hk Hq. assert (8 ≤ f * k < 2 ^ 64) by nia.
  assert (u64 (u64 f * u64 k) = f * k) as -> by (intval; lia).
  assert (u64 q = q) as -> by (intval; lia). set (w := f * k) in *. clearbody w.
  rewrite clamp_spec by (case_ifs; lia). intval. case_ifs; lia.
Qed.

Lemma settings_spec t :
  typed t → xrayKCPSettings t = Some (idealSettings t) ∧ good (idealSettings t).
Proof.
  intros (Hm & Ht & Hb & Hu & Hd & Hc). unfold xrayKCPSettings, idealSettings, good.
  unfold minKCPMTU, maxKCPMTU, minKCPInterval, maxKCPInterval.
  rewrite (default_spec ((MTU t <? 50) || _) ((50 <=? MTU t) && (MTU t <=? 1500))) by lia.
  rewrite (default_spec ((TTI t <? 10) || _) ((10 <=? TTI t) && (TTI t <=? 1000))) by lia.
  rewrite (default_spec (UplinkCapacity t =? 0) (0 <? UplinkCapacity t)) by lia.
  rewrite (default_spec (DownlinkCapacity t =? 0) (0 <? DownlinkCapacity t)) by lia.
  rewrite (default_spec (CwndMultiplier t =? 0) (0 <? CwndMultiplier t)) by lia.
  rewrite (default_spec (MaxSendingWindow t <=? 0) (0 <? MaxSendingWindow t)) by lia.
  set (m := or_default _ (MTU t) _). set (i := or_default _ (TTI t) _).
  set (up := or_default _ (UplinkCapacity t) _). set (down := or_default _ (DownlinkCapacity t) _).
  set (mult := or_default _ (CwndMultiplier t) _). set (buf := or_default _ (MaxSendingWindow t) _).
  assert (50 ≤ m ≤ 1500 ∧ 10 ≤ i ≤ 1000 ∧ 0 < up < 2 ^ 32 ∧ 0 < down < 2 ^ 32 ∧ 0 < mult < 2 ^ 32
          ∧ 0 < buf < 2 ^ 63) as (Hm' & Hi' & Hu' & Hd' & Hk & Hb').
  { subst m i up down mult buf. unfold or_default, DefaultMTU, DefaultTTI, DefaultUplinkCapacity,
      DefaultDownlinkCapacity, DefaultCwndMultiplier, DefaultMaxSendingWindow, in_i64 in *.
    split_and!; case_ifs; lia. }
  clearbody m i up down mult buf. clear Hm Ht Hb Hu Hd Hc.
  rewrite !inFlight_spec by lia. pose proof (inFlight_range up m i) as Hf.
  pose proof (inFlight_range down m i) as Hg. cbn [mbind option_bind].
  set (f := idealInFlight up m i) in *. set (g := idealInFlight down m i) in *. clearbody f g.
  unfold div. destruct (m =? 0) eqn:E; b2p; [lia|]. cbn [mbind option_bind]. cbv zeta.
  rewrite Z.quot_div_nonneg by lia.
  assert (0 ≤ buf / m < 2 ^ 63) as Hq by (split; [apply Z.div_pos; lia|apply Z.div_lt_upper_bound; lia]).
  rewrite send_window_spec by done. split; [|cbn; nia].
  set (w := Z.min (2 ^ 32 - 1) _). assert (1 ≤ w < 2 ^ 32) by (subst w; nia). clearbody w.
  do 2 f_equal; rewrite ?clamp_spec by (case_ifs; intval; lia); intval; case_ifs; lia.
Qed.

Lemma settings_good t s : xrayKCPSettings t = Some s → typed t → good s.
Proof. intros H Ht. destruct (settings_spec t Ht) as [H' Hg]. by simplify_eq. Qed.

(** C16: for every configuration, whatever its values, the settings are computed
    without a division by zero, and the 64-bit computation of [xrayKCPSettings] agrees
    with the formula on unbounded integers: the window is what the capacity keeps in
    flight times the multiplier, at most the sending buffer, at least 1. *)
Theorem kcp_settings_exact t :
  typed t → xrayKCPSettings t = Some (idealSettings t) ∧ good (idealSettings t).
Proof. apply settings_spec. Qed.

Lemma kcp_settings_exact_witness :
  xrayKCPSettings DefaultTransport = Some (mkSettings 1200 50 1747 128 1310)
  ∧ xrayKCPSettings DefaultTransport = Some (idealSettings DefaultTransport)
    ∧ good (idealSettings DefaultTransport).
Proof.
  split; [vm_compute; reflexivity|]. apply kcp_settings_exact.
  unfold typed. repeat split; vm_compute; congruence.
Defined.

(** ** The window of a running session *)

Inductive event :=
| EvRecord (n now : Z)
| EvTick (now rto srtt : Z).

(** The monitor's variables, the controller, and the session's send window. *)
Record running := mkRunning {
  mon : monitor;
  ctl : deliveryRateController;
  wnd : Z
}.

Definition start (s : kcpSettings) (cc : bool) : running :=
  mkRunning (mkMonitor None (initialSendWindow s)) (mkController None 0 0) (cfgSendWindow (configure s cc true)).

Definition step (s : kcpSettings) (r : running) (e : event) : running :=
  match e with
  | EvRecord n now => mkRunning (mon r) (record (ctl r) n now) (wnd r)
  | EvTick now rto srtt =>
      let '(m, c, w) := monitorTick s (mon r) (ctl r) now rto srtt in mkRunning m c (default (wnd r) w)
  end.

Definition run (s : kcpSettings) (cc : bool) (es : list event) : running := foldl (step s) (start s cc) es.

(** No larger rate can be measured: a word of nanobytes over half a second. *)
Definition rateLimit : Z := 36893488147.

Lemma rateLimit_eq : rateLimit = (2 ^ 64 - 1) / deliveryRateSampleInterval.
Proof. reflexivity. Qed.

Definition controller_ok (c : deliveryRateController) : Prop :=
  0 ≤ sampleBytes c < 2 ^ 64 ∧ 0 ≤ maxRate c ≤ rateLimit.

Lemma record_ok c n now : controller_ok c → controller_ok (record c n now).
Proof.
  intros [H1 H2]. unfold record. case_if as E; [done|].
  destruct (sampleSince c); cbn; (split; [apply u64_range|done]).
Qed.

Lemma sample_ok c now c' rate :
  controller_ok c → sample c now = (c', rate) → controller_ok c' ∧ 0 ≤ rate ≤ rateLimit.
Proof.
  intros [H1 H2] H. unfold sample in H. destruct (sampleSince c) as [since|].
  2: { simplify_eq. unfold controller_ok, rateLimit in *. lia. }
  destruct (sampleBytes c =? 0); [simplify_eq; unfold controller_ok, rateLimit in *; lia|].
  destruct (timeSub now since <? deliveryRateSampleInterval) eqn:E; b2p;
    [simplify_eq; unfold controller_ok, rateLimit in *; lia|].
  set (q := u64 (sampleBytes c * 10 ^ 9) / u64 (timeSub now since)) in H.
  assert (0 ≤ q ≤ rateLimit) as Hq.
  { pose proof (u64_range (sampleBytes c * 10 ^ 9)) as Hx. unfold in_u64 in Hx.
    assert (u64 (timeSub now since) = timeSub now since) as Hy.
    { apply u64_small. unfold in_u64, timeSub, MaxInt64, deliveryRateSampleInterval in *. lia. }
    subst q. rewrite Hy, rateLimit_eq. unfold deliveryRateSampleInterval in *. split; [apply Z.div_pos; lia|].
    transitivity ((2 ^ 64 - 1) / timeSub now since); [apply Z.div_le_mono; lia|].
    apply Z.div_le_compat_l; lia. }
  clearbody q. injection H as <- <-. unfold controller_ok. cbn.
  assert (u64 (maxRate c * 7) = maxRate c * 7) as -> by (apply u64_small; unfold in_u64, rateLimit in *; lia).
  pose proof (Z.div_pos (maxRate c * 7) 8).
  assert (maxRate c * 7 / 8 ≤ maxRate c) by (apply Z.div_le_upper_bound; lia).
  unfold maxUint64. case_ifs; cbn; case_ifs; lia.
Qed.

(** No more than the maximum, on any values. *)
Lemma target_le rate srtt m w : 1 ≤ w < 2 ^ 32 → bbrTargetWindow rate srtt m w ≤ w.
Proof.
  intros Hw. unfold bbrTargetWindow, minControlWindow. case_if as E; [lia|]. cbv zeta.
  set (q := _ / u64 m). assert (u64 w = w) as -> by (intval; lia).
  case_ifs; intval; try lia.
Qed.

(** The window covers two bandwidth-delay products, if the words do not overflow. *)
Lemma target_exact rate srtt m w :
  0 < rate → 0 < srtt → 50 ≤ m ≤ 1500 → 1 ≤ w < 2 ^ 32 → rate * srtt < 2 ^ 64 →
  bbrTargetWindow rate srtt m w = Z.min w (Z.max 16 ((rate * srtt / 1000 * 2 + m - 1) / m)).
Proof.
  intros Hr Hs Hm Hw Ho. unfold bbrTargetWindow, minControlWindow, bbrWindowGain.
  case_if as E; [lia|]. cbv zeta. assert (0 < rate * srtt) by nia. assert (srtt < 2 ^ 64) by nia.
  assert (u64 srtt = srtt) as -> by (intval; lia).
  assert (u64 (rate * srtt) = rate * srtt) as -> by (intval; lia).
  assert (0 ≤ rate * srtt / 1000 < 2 ^ 60) as Hq
    by (split; [apply Z.div_pos; lia|apply Z.div_lt_upper_bound; lia]).
  set (q := rate * srtt / 1000) in *. clearbody q.
  assert (u64 (u64 (u64 (q * 2) + u64 m) - 1) = q * 2 + m - 1) as -> by (intval; lia).
  assert (u64 m = m) as -> by (intval; lia). assert (u64 w = w) as -> by (intval; lia).
  assert (0 ≤ (q * 2 + m - 1) / m) by (apply Z.div_pos; lia).
  set (x := (q * 2 + m - 1) / m) in *. clearbody x. case_ifs; intval; lia.
Qed.

Definition within (s : kcpSettings) (w : Z) : Prop := 1 ≤ w ≤ sendWindow s.

(** One tick of a degraded path: it shrinks the window by a quarter at most, after the
    path was degraded long enough. *)
Lemma tick_degraded s m c now rto srtt :
  good s → within s (window m) → adaptiveFallbackRTO ≤ rto →
  let since := default now (degradedSince m) in
  let '(m', _, w) := monitorTick s m c now rto srtt in
  default (window m) w = window m' ∧ Z.min (window m) (Z.max 16 (window m * 3 / 4)) ≤ window m' ≤ window m
  ∧ (adaptiveFallbackAfter ≤ timeSub now since ∧ degradedSince m' = Some now
     ∨ degradedSince m' = Some since ∧ window m' = window m).
Proof.
  intros Hg Hw Hr. unfold monitorTick. destruct (sample c now) as [c1 rate].
  destruct (adaptiveFallbackRTO <=? rto) eqn:E; b2p; [clear E|lia].
  replace (match degradedSince m with Some d => d | None => now end) with (default now (degradedSince m))
    by by destruct (degradedSince m).
  cbv zeta. set (since := default now (degradedSince m)). unfold within, minControlWindow, good in *.
  assert (Z.quot (i64 (window m * 3)) 4 = window m * 3 / 4) as -> by (intval; apply Z.quot_div_nonneg; lia).
  assert (window m * 3 / 4 ≤ window m) by (apply Z.div_le_upper_bound; lia).
  destruct (adaptiveFallbackAfter <=? timeSub now since) eqn:E; b2p; [|cbn; split_and!; [done|lia|done|by right]].
  set (next := window m * 3 / 4) in *. clearbody next.
  set (next' := if sendWindow s <? _ then _ else _).
  assert (Z.min (window m) (Z.max 16 next) ≤ next') by (subst next'; case_ifs; lia).
  destruct (next' <? window m) eqn:E1; b2p; cbn; (split; [done|]); (split; [lia|]); by left.
Qed.

(** One tick of a good path: it grows the window by a half at most, and not above what
    the measured rate needs. *)
Lemma tick_good s m c now rto srtt :
  good s → within s (window m) → rto < adaptiveFallbackRTO →
  let '(m', c', w) := monitorTick s m c now rto srtt in
  default (window m) w = window m' ∧ window m ≤ window m' ≤ window m + Z.max 1 (window m / 2)
  ∧ within s (window m') ∧ degradedSince m' = None
  ∧ (window m < window m' →
     window m' ≤ bbrTargetWindow (sample c now).2 (if srtt <=? 0 then tti s else srtt) (mtu s) (sendWindow s)).
Proof.
  intros Hg Hw Hr. unfold monitorTick. destruct (sample c now) as [c1 rate]. cbn [snd].
  destruct (adaptiveFallbackRTO <=? rto) eqn:E; b2p; [lia|clear E]. cbv zeta. cbn [window update].
  unfold within, good in *. assert (0 ≤ window m / 2) by (apply Z.div_pos; lia).
  destruct ((rate =? 0) || (sendWindow s <=? window m)); [cbn; split_and!; (lia || done)|].
  set (t := bbrTargetWindow _ _ _ _).
  assert (t ≤ sendWindow s) by (subst t; apply target_le; lia). clearbody t.
  destruct (window m <? t) eqn:E; b2p; [|cbn; split_and!; (lia || done)].
  rewrite (Z.quot_div_nonneg (window m) 2) by lia.
  assert (0 ≤ window m / 2 ≤ window m) by (split; [apply Z.div_pos|apply Z.div_le_upper_bound]; lia).
  set (h := window m / 2) in *. clearbody h.
  destruct (h <? 1) eqn:E1; b2p; cbn; intval; case_ifs; split_and!; (lia || done).
Qed.

Definition running_ok (s : kcpSettings) (r : running) : Prop :=
  within s (window (mon r)) ∧ wnd r = window (mon r) ∧ controller_ok (ctl r).

Lemma tick_controller s m c now rto srtt :
  (monitorTick s m c now rto srtt).1.2 = (sample c now).1.
Proof. unfold monitorTick. destruct (sample c now) as [c1 rate]. cbn. by case_ifs. Qed.

Lemma kcp_step_ok s r e : good s → running_ok s r → running_ok s (step s r e).
Proof.
  intros Hg (Hw & He & Hc). destruct e as [n now|now rto srtt]; cbn.
  - split_and!; [done|done|by apply record_ok].
  - pose proof (tick_controller s (mon r) (ctl r) now rto srtt) as Ht.
    pose proof (tick_good s (mon r) (ctl r) now rto srtt Hg Hw) as H1.
    pose proof (tick_degraded s (mon r) (ctl r) now rto srtt Hg Hw) as H2.
    destruct (monitorTick s (mon r) (ctl r) now rto srtt) as [[m c] w]. cbn in *. subst c.
    assert (controller_ok (sample (ctl r) now).1).
    { destruct (sample (ctl r) now) as [c' q] eqn:E. by apply sample_ok in E as [? _]. }
    unfold running_ok, within in *. cbn. rewrite He.
    destruct (decide (rto < adaptiveFallbackRTO)) as [Hr|Hr].
    + destruct (H1 Hr) as (-> & ? & ? & _). done.
    + destruct (H2 ltac:(lia)) as (-> & ? & _). split; [lia|]. by split.
Qed.

Lemma run_ok s cc es : good s → running_ok s (run s cc es).
Proof.
  intros Hg. unfold run. induction es as [|e es IH] using rev_ind.
  - unfold good in Hg. split; [unfold within; cbn; lia|]. split; [done|].
    unfold controller_ok, rateLimit; cbn; lia.
  - rewrite foldl_app. by apply kcp_step_ok.
Qed.

Lemma run_snoc s cc es e : run s cc (es ++ [e]) = step s (run s cc es) e.
Proof. unfold run. by rewrite foldl_app. Qed.

(** C23: whatever the session reports and whenever the timer fires, the send window of
    a session stays between 1 and the configured window and is the one the monitor
    believes in.  A tick shrinks it by a quarter at most and not below 16, lets it
    grow by a half at most, and grows it only on a path with a short retransmission
    timeout, to no more than the measured rate needs. *)
Theorem kcp_window t s cc es now rto srtt :
  xrayKCPSettings t = Some s → typed t →
  let r := run s cc es in
  let w := window (mon r) in
  let w' := window (mon (step s r (EvTick now rto srtt))) in
  running_ok s r ∧ Z.min w (Z.max 16 (w * 3 / 4)) ≤ w' ≤ w + Z.max 1 (w / 2)
  ∧ (w < w' → rto < adaptiveFallbackRTO
     ∧ w' ≤ bbrTargetWindow (sample (ctl r) now).2 (if srtt <=? 0 then tti s else srtt) (mtu s) (sendWindow s)).
Proof.
  intros Hs Ht. cbv zeta. pose proof (settings_good t s Hs Ht) as Hg.
  pose proof (run_ok s cc es Hg) as Hr. set (r := run s cc es) in *. clearbody r. split; [done|].
  destruct Hr as (Hw & _ & _). unfold step.
  pose proof (tick_good s (mon r) (ctl r) now rto srtt Hg Hw) as H1.
  pose proof (tick_degraded s (mon r) (ctl r) now rto srtt Hg Hw) as H2.
  destruct (monitorTick s (mon r) (ctl r) now rto srtt) as [[m c] w]. cbn in *. unfold within in *.
  assert (0 ≤ window (mon r) / 2) by (apply Z.div_pos; lia).
  assert (window (mon r) * 3 / 4 ≤ window (mon r)) by (apply Z.div_le_upper_bound; lia).
  destruct (decide (rto < adaptiveFallbackRTO)) as [Hr|Hr].
  - destruct (H1 Hr) as (_ & ? & ? & _ & Hx). split; [lia|]. intros. split; [done|]. by apply Hx.
  - destruct (H2 ltac:(lia)) as (_ & ? & _). lia.
Qed.

(** Bytes were sent at 10 MiB/s; at 500 ms the window grows from 128 to 192. *)
Lemma kcp_window_witness :
  let s := mkSettings 1200 50 1747 128 1310 in
  let es := [EvRecord 5242880 0] in
  window (mon (step s (run s false es) (EvTick 500000000 100 50))) = 192
  ∧ running_ok s (run s false es)
  ∧ 96 ≤ 192 ≤ 192 ∧ (128 < 192 → 100 < adaptiveFallbackRTO ∧ 192 ≤ bbrTargetWindow 10485760 50 1200 1747).
Proof.
  split; [vm_compute; reflexivity|].
  apply (kcp_window DefaultTransport (mkSettings 1200 50 1747 128 1310) false [EvRecord 5242880 0] 500000000 100 50);
    [vm_compute; reflexivity|unfold typed; repeat split; vm_compute; congruence].
Defined.

(** ** Backing off *)

Definition bad_tick (e : event) : Prop :=
  match e with EvTick _ rto _ => adaptiveFallbackRTO ≤ rto | EvRecord _ _ => True end.

(** Since the tick at time [d] every tick of [es] saw a long retransmission timeout,
    and the window did not change. *)
Definition degraded_from (s : kcpSettings) (cc : bool) (es : list event) (d : Z) : Prop :=
  ∃ pre rto srtt mid, es = pre ++ EvTick d rto srtt :: mid ∧ adaptiveFallbackRTO ≤ rto ∧ Forall bad_tick mid
    ∧ ∀ k, window (mon (run s cc (pre ++ EvTick d rto srtt :: take k mid))) = window (mon (run s cc es)).

Lemma degraded_now s cc es d rto srtt :
  adaptiveFallbackRTO ≤ rto → degraded_from s cc (es ++ [EvTick d rto srtt]) d.
Proof.
  intros H. exists es, rto, srtt, []. split; [done|]. split; [done|]. split; [constructor|].
  intros k. by rewrite take_nil.
Qed.

Lemma degraded_more s cc es e d :
  bad_tick e → window (mon (step s (run s cc es) e)) = window (mon (run s cc es)) →
  degraded_from s cc es d → degraded_from s cc (es ++ [e]) d.
Proof.
  intros Hb Hw (pre & rto & srtt & mid & -> & Hr & Hm & Hk). exists pre, rto, srtt, (mid ++ [e]).
  split; [by rewrite <- app_assoc|]. split; [done|]. split; [by apply Forall_app; split; [|repeat constructor]|].
  intros k. rewrite run_snoc, Hw. destruct (decide (k ≤ length mid)%nat) as [Hl|Hl].
  - rewrite take_app_le by done. apply Hk.
  - rewrite (take_ge (mid ++ [e])) by (rewrite length_app; cbn; lia).
    rewrite app_comm_cons, app_assoc, run_snoc. done.
Qed.

Lemma degraded_since s cc es d :
  good s → degradedSince (mon (run s cc es)) = Some d → degraded_from s cc es d.
Proof.
  intros Hg. revert d. induction es as [|e es IH] using rev_ind; intros d Hd; [done|].
  rewrite run_snoc in Hd. pose proof (run_ok s cc es Hg) as (Hw & _ & _).
  destruct e as [n now|now rto srtt]; [by apply degraded_more, IH|].
  destruct (decide (rto < adaptiveFallbackRTO)) as [Hr|Hr].
  - pose proof (tick_good s _ (ctl (run s cc es)) now rto srtt Hg Hw Hr) as H. revert H Hd. unfold step.
    destruct (monitorTick _ _ _ now rto srtt) as [[m c] w]. cbn. intros (_ & _ & _ & -> & _). done.
  - pose proof (tick_degraded s _ (ctl (run s cc es)) now rto srtt Hg Hw ltac:(lia)) as H.
    assert (adaptiveFallbackRTO ≤ rto) as Hb by lia. clear Hr. cbv zeta in H.
    assert (degraded_more' : window (mon (step s (run s cc es) (EvTick now rto srtt))) = window (mon (run s cc es)) →
      degraded_from s cc es d → degraded_from s cc (es ++ [EvTick now rto srtt]) d)
      by (intros; by apply degraded_more).
    revert H Hd degraded_more'. unfold step.
    destruct (monitorTick _ _ _ now rto srtt) as [[m c] w]. cbn.
    intros (_ & _ & [[_ ->]|[-> He]]) Hd Hm; simplify_eq; [by apply degraded_now|].
    destruct (degradedSince (mon (run s cc es))) as [d'|] eqn:E; cbn in *; [by apply Hm, IH|].
    by apply degraded_now.
Qed.

(** When a tick shrinks the window, every tick for the last 750 ms saw a
    retransmission timeout of 750 ms or more, and the window did not change in that
    time: isolated spikes do not shrink it, and it shrinks once per 750 ms. *)
Theorem kcp_backoff t s cc es now rto srtt :
  xrayKCPSettings t = Some s → typed t →
  window (mon (step s (run s cc es) (EvTick now rto srtt))) < window (mon (run s cc es)) →
  adaptiveFallbackRTO ≤ rto ∧ ∃ d, degraded_from s cc es d ∧ adaptiveFallbackAfter ≤ now - d.
Proof.
  intros Hs Ht. pose proof (settings_good t s Hs Ht) as Hg. pose proof (run_ok s cc es Hg) as (Hw & _ & _).
  pose proof (degraded_since s cc es) as Hd. set (r := run s cc es) in *. unfold step.
  destruct (decide (rto < adaptiveFallbackRTO)) as [Hr|Hr].
  - pose proof (tick_good s (mon r) (ctl r) now rto srtt Hg Hw Hr) as H. revert H.
    destruct (monitorTick s (mon r) (ctl r) now rto srtt) as [[m c] w]. cbn. lia.
  - pose proof (tick_degraded s (mon r) (ctl r) now rto srtt Hg Hw ltac:(lia)) as H. revert H.
    destruct (monitorTick s (mon r) (ctl r) now rto srtt) as [[m c] w]. cbn.
    intros (_ & _ & [[Ha _]|[_ He]]) Hlt; [|lia]. split; [lia|].
    unfold adaptiveFallbackAfter, timeSub, MaxInt64 in *.
    destruct (degradedSince (mon r)) as [d|]; cbn in Ha; [|lia].
    exists d. split; [by apply Hd|lia].
Qed.

(** Three ticks with a timeout of one second, half a second apart. *)
Lemma kcp_backoff_witness :
  let s := mkSettings 1200 50 1747 128 1310 in
  let es := [EvTick 0 1000 50; EvTick 500000000 1000 50] in
  adaptiveFallbackRTO ≤ 1000 ∧ ∃ d, degraded_from s true es d ∧ adaptiveFallbackAfter ≤ 1000000000 - d.
Proof.
  apply (kcp_backoff DefaultTransport (mkSettings 1200 50 1747 128 1310) true
           [EvTick 0 1000 50; EvTick 500000000 1000 50] 1000000000 1000 50);
    [vm_compute; reflexivity|unfold typed; repeat split; vm_compute; congruence|vm_compute; reflexivity].
Defined.

(** ** Writing *)

(** The bytes the session took. *)
Definition taken (chunks : list (list byte * nat)) : list byte :=
  mjoin ((λ '(chunk, n), take n chunk) <$> chunks).

(** Calls of the session's [Write] take a prefix of their argument. *)
Definition writer_ok (write : nat → list byte → nat * option string) : Prop :=
  ∀ k x, ((write k x).1 ≤ length x)%nat.

(** They do not return 0 without an error. *)
Definition writer_progress (write : nat → list byte → nat * option string) : Prop :=
  ∀ k x, x ≠ [] → write k x ≠ (0%nat, None).

Definition sampled (c : conn) : option Z := sampleBytes <$> controller c.

(** The chunks [chunks] of [p], none longer than [size], were offered; [n] bytes were
    taken and counted by the controller. *)
Record wrote (c : conn) (p : list byte) (size : nat) (c' : conn) (chunks : list (list byte * nat)) (n : nat)
  : Prop := {
  wrote_taken : taken chunks = take n p;
  wrote_length : (n ≤ length p)%nat;
  wrote_size : Forall (λ x, (length x.1 ≤ size)%nat) chunks;
  wrote_frame : c' = c <| controller := controller c' |>;
  wrote_sampled : u64 <$> sampled c' = (λ b, u64 (b + Z.of_nat n)) <$> sampled c
}.

Lemma record_sampled (c : conn) n now :
  u64 <$> sampled (c <| controller ::= fmap (λ d, record d (Z.of_nat n) now) |>)
  = (λ b, u64 (b + Z.of_nat n)) <$> sampled c.
Proof.
  unfold sampled. cbn. destruct (controller c) as [d|]; [|done]. cbn. f_equal. unfold record.
  case_if as E; [by replace (Z.of_nat n) with 0 by lia; rewrite Z.add_0_r|].
  destruct (sampleSince d); cbn; unfold u64; by rewrite Zmod_mod, Zplus_mod_idemp_r.
Qed.

Lemma wrote_nil c size : wrote c [] size c [] 0.
Proof.
  split; try done; [by destruct c|]. destruct (sampled c); [|done]. cbn. by rewrite Z.add_0_r.
Qed.

Lemma wrote_one c p size chunk n now :
  (length chunk ≤ size)%nat → chunk `prefix_of` p → (n ≤ length chunk)%nat →
  wrote c p size (c <| controller ::= fmap (λ d, record d (Z.of_nat n) now) |>) [(chunk, n)] n.
Proof.
  intros Hl [rest ->] Hn. split; [..|by apply record_sampled].
  - unfold taken. cbn. by rewrite app_nil_r, take_app_le.
  - rewrite length_app. lia.
  - by repeat constructor.
  - done.
Qed.

Lemma wrote_app c p size c1 ch1 n c2 ch2 m :
  wrote c p size c1 ch1 n → wrote c1 (drop n p) size c2 ch2 m → wrote c p size c2 (ch1 ++ ch2) (n + m).
Proof.
  intros [T1 L1 S1 F1 B1] [T2 L2 S2 F2 B2]. rewrite length_drop in L2. split.
  - unfold taken in *. by rewrite fmap_app, join_app, T1, T2, take_take_drop.
  - lia.
  - by apply Forall_app.
  - rewrite F2, F1. done.
  - rewrite B2. destruct (sampled c1) as [x|], (sampled c) as [y|]; try done. cbn in *. f_equal.
    apply (inj Some) in B1. rewrite Nat2Z.inj_add, Z.add_assoc. unfold u64 in *.
    by rewrite <- Zplus_mod_idemp_l, B1, Zplus_mod_idemp_l.
Qed.

Lemma sessionLoop_spec fuel c size p write now k total :
  writer_ok write → (1 ≤ size)%nat → (length p < fuel)%nat →
  ∃ c' chunks n err,
    writeLoop fuel c size p write now k total = Some (c', chunks, (total + Z.of_nat n, err))
    ∧ wrote c p size c' chunks n ∧ (writer_progress write → err = None → n = length p).
Proof.
  intros Hw Hs. revert c p k total. induction fuel as [|fuel IH]; intros c p k total Hf; [lia|].
  destruct p as [|b p].
  { exists c, [], 0%nat, None. cbn. rewrite Z.add_0_r. split; [done|]. split; [apply wrote_nil|done]. }
  cbn [writeLoop]. set (q := b :: p) in *. set (chunk := if (size <? length q)%nat then take size q else q).
  assert (chunk `prefix_of` q) as Hp by (subst chunk; case_if as E; [apply prefix_take|done]).
  assert ((length chunk ≤ size)%nat) as Hl by (subst chunk; case_if as E; [rewrite length_take; lia|lia]).
  assert (chunk ≠ []) as Hne by (subst chunk; case_if as E; [destruct size; [lia|done]|done]).
  clearbody chunk. pose proof (Hw k chunk) as Hn. destruct (write k chunk) as [n err] eqn:E. cbn in Hn.
  pose proof (wrote_one c q size chunk n (now k) Hl Hp Hn) as H1. set (c1 := update _ _ c) in *. clearbody c1.
  destruct err as [e|]; [by exists c1, [(chunk, n)], n, (Some e)|].
  destruct (n =? 0)%nat eqn:En; b2p.
  { exists c1, [(chunk, n)], n, None. split; [done|]. split; [done|]. intros Hpr _. subst n.
    by destruct (Hpr k chunk Hne). }
  destruct (IH c1 (drop n q) (S k) (total + Z.of_nat n)) as (c' & chunks & m & e & -> & H2 & H3).
  { rewrite length_drop. assert (length q = S (length p)) by done. lia. }
  exists c', ((chunk, n) :: chunks), (n + m)%nat, e. cbn [mbind option_bind].
  split; [do 3 f_equal; lia|]. split; [by apply (wrote_app _ _ _ _ [(chunk, n)] _ _ _ _ H1)|].
  intros Hpr He. specialize (H3 Hpr He). rewrite length_drop in H3. destruct H1. lia.
Qed.



(** ** Sessions, listeners and packet connections *)

Definition written (es : effects) : list (list byte) :=
  omap (λ x, match x with SessionWrite d => Some d | _ => None end) (done_ es).

(** [Close] after a successful [Dial] or [Accept] with the effects [es]: everything
    that was opened is closed, and the packet connection; the last thing written is
    the marker; the error is the first; calling it again does nothing. *)
Definition closes_all (es : effects) (c : conn) : Prop :=
  ∀ errs errl errp, ∃ c' es' e,
    Close c errs errl errp = (c', es', e) ∧ written es' = [closeMarker]
    ∧ balance OSession (es ++ es') = 0 ∧ balance OListener (es ++ es') = 0 ∧ balance OPacket (es ++ es') = -1
    ∧ e = head (omap id [errs; if listener c then errl else None; errp])
    ∧ ∀ x y z, Close c' x y z = (c', [], e).

Lemma newConn_closes t s (hl : bool) cfg :
  closes_all ((if hl then [EOpen OListener] else []) ++ [EOpen OSession; EDo (Configure cfg)] ++ (newConn t s hl).2)
    (newConn t s hl).1.
Proof.
  intros errs errl errp. unfold newConn.
  destruct (AdaptiveCongestionControl t), hl, errs, errl, errp; cbn;
    do 3 eexists; (split; [reflexivity|]); (split; [reflexivity|]); repeat (split; [reflexivity|]); done.
Qed.



End Kcp.
