(* ===== verification/RawUdp.v ===== *)
(** * RawUdp.v: packet connections and the raw UDP transport
    (src/transports/packet.go, src/transports/transport_rawudp/udp.go)

    [PacketConn] makes the connection of the selected ICE pair look like a socket with
    one peer, and turns the ICE library's way to say closed into [net.ErrClosed].  The
    raw UDP transport passes datagrams through: a [Write] is a datagram, a [Read]
    returns one.  Underneath is a connection whose calls are arguments here. *)

From S2P Require Import Prelude Buffer Encryption Codec Channel Stream.
From Stdlib Require Import ZArith Lia String.
From stdpp Require Import base list option strings numbers.

Local Open Scope Z_scope.
Local Open Scope go_scope.

(** ** Packet connections *)

Module Packet.

(** An error: its text, and whether [errors.Is(err, net.ErrClosed)]. *)
Record error := mkError {
  text : string;
  isClosed : bool
}.

Definition ErrClosed : error := mkError "use of closed network connection" true.

(** [strings.Contains]. *)
Fixpoint contains (s sub : string) : bool :=
  String.prefix sub s || match s with String _ s => contains s sub | EmptyString => false end.

Definition normalizeCloseError (err : option error) : option error :=
  match err with
  | None => None
  | Some e =>
      if isClosed e then err
      else if contains (text e) "agent is closed" then Some ErrClosed
      else err
  end.

(** The addresses by their strings; [None] is nil. *)
Record PacketConn := mkPacketConn {
  local : option string;
  remote : option string
}.

(** [ReadFrom] with what the connection's [Read] returns. *)
Definition ReadFrom (c : PacketConn) (read : Z * option error) : Z * option string * option error :=
  (read.1, remote c, normalizeCloseError read.2).

(** [WriteTo] with the connection's [Write]; it is not called for another peer. *)
Definition WriteTo (c : PacketConn) (p : list byte) (addr : option string)
    (write : list byte → Z * option error) : option (list byte) * (Z * option error) :=
  match addr, remote c with
  | Some a, Some r =>
      if negb (bool_decide (a = r))
      then (None, (0, Some (mkError "packet destination does not match ICE peer" false)))
      else (Some p, ((write p).1, normalizeCloseError (write p).2))
  | _, _ => (Some p, ((write p).1, normalizeCloseError (write p).2))
  end.

Definition packetClose (err : option error) : option error := normalizeCloseError err.

Lemma normalize_idemp err : normalizeCloseError (normalizeCloseError err) = normalizeCloseError err.
Proof.
  destruct err as [[t c]|]; [|done]. cbn. destruct c; [done|]. destruct (contains t _) eqn:E; [done|].
  cbn. by rewrite E.
Qed.

End Packet.

(** ** The transport *)

Module RawUdp.
Section RawUdp.
Context `{C : !Crypto}.

Definition maxDatagramSize : Z := 65536.

(** The base connection is an argument of the calls. *)
Record Conn := mkConn {
  writeErr : option string;
  closeOnce : bool;
  closeErr : option string
}.

#[export] Instance eta_conn : Eta Conn := fun c => mkConn (writeErr c) (closeOnce c) (closeErr c).

(** [Dial] and [Accept]: [conn] tells that [endpoint.Conn] is not nil, [ctxErr] is the
    error of a context that is done. *)
Definition Dial (conn : bool) (ctxErr : option string) : result Conn :=
  _ ← guard_err (negb conn) "unsupported transport";
  match ctxErr with Some e => Err e | None => Ok (mkConn None false None) end.

(** [Read] into the buffer [p]: the buffer afterwards and the values returned.  The
    base connection's [read] fills a buffer. *)
Definition Read (p : list byte) (read : list byte → list byte * nat * option string)
  : list byte * nat * option string :=
  if (length p =? 0)%nat then (p, 0%nat, None)
  else
    let small := len p <? maxDatagramSize in
    let packet := if small then replicate (Z.to_nat maxDatagramSize) Byte.x00 else p in
    let '(packet, n, err) := read packet in
    let p := if small then p else packet in
    if (length p <? n)%nat then (slice_copy p (take (length p) packet), length p, err)
    else (p, n, err).

Definition Write (c : Conn) (p : list byte) (write : list byte → nat * option string)
  : Conn * option (list byte) * (nat * option string) :=
  match writeErr c with
  | Some e => (c, None, (0%nat, Some e))
  | None =>
      let '(n, err) := write p in
      match err with
      | Some e => (c <| writeErr := Some e |>, Some p, (n, Some e))
      | None =>
          if negb (n =? length p)%nat
          then (c <| writeErr := Some "short write"%string |>, Some p, (n, Some "short write"%string))
          else (c, Some p, (n, None))
      end
  end.

Definition Close (c : Conn) (err : option string) : Conn * option string :=
  if closeOnce c then (c, closeErr c)
  else (c <| closeOnce := true |> <| closeErr := err |>, err).

(** A datagram that fits is copied to the front of the buffer. *)
Definition datagramRead (d buf : list byte) : list byte * nat * option string :=
  (slice_copy buf d, length d, None).

(** ** What a reader sees *)

(** The packets [readRawTransport] gets: it reads every datagram into the same buffer
    and looks at the first [n] bytes of it. *)
Fixpoint rawReads (buf : list byte) (ds : list (list byte)) : list (list byte) :=
  match ds with
  | [] => []
  | d :: ds => let '(buf, n, _) := Read buf (datagramRead d) in take n buf :: rawReads buf ds
  end.

Lemma Read_large p d : maxDatagramSize ≤ len p → len d ≤ maxDatagramSize →
  Read p (datagramRead d) = (slice_copy p d, length d, None).
Proof.
  intros Hp Hd. unfold Read, maxDatagramSize, len in *. destruct (length p =? 0)%nat eqn:E; b2p; [lia|].
  destruct (Z.of_nat (length p) <? 65536) eqn:E1; b2p; [lia|]. cbn -[Nat.ltb].
  rewrite slice_copy_length. case_if as E2; [lia|done].
Qed.

(** A small buffer keeps what it held. *)
Lemma Read_small p d : 0 < len p < maxDatagramSize → len d ≤ len p →
  Read p (datagramRead d) = (p, length d, None).
Proof.
  intros Hp Hd. unfold Read, maxDatagramSize, len in *. destruct (length p =? 0)%nat eqn:E; b2p; [lia|].
  destruct (Z.of_nat (length p) <? 65536) eqn:E1; b2p; [|lia]. cbn -[Nat.ltb replicate Z.to_nat]. case_if as E2; [lia|done].
Qed.

Lemma rawReads_large buf ds :
  maxDatagramSize ≤ len buf → Forall (λ d, len d ≤ maxDatagramSize) ds → rawReads buf ds = ds.
Proof.
  intros Hb Hd. revert buf Hb. induction Hd as [|d ds Hd _ IH]; intros buf Hb; [done|].
  cbn [rawReads]. rewrite Read_large by done. rewrite IH.
  - f_equal. unfold slice_copy. unfold len in *. rewrite (take_ge d) by lia. apply take_app_length.
  - unfold len in *. by rewrite slice_copy_length.
Qed.

(** A datagram is cut to a buffer that is too small for it. *)
Lemma Read_cut p d : 0 < len p < len d → len d ≤ maxDatagramSize →
  Read p (datagramRead d) = (take (length p) d, length p, None).
Proof.
  intros Hp Hd. unfold Read, maxDatagramSize, len in *. destruct (length p =? 0)%nat eqn:E; b2p; [lia|].
  destruct (Z.of_nat (length p) <? 65536) eqn:E1; b2p; [|lia]. cbn -[Nat.ltb replicate Z.to_nat].
  case_if as E2; [|lia]. do 2 f_equal. unfold slice_copy. rewrite length_replicate.
  rewrite (take_ge d) by lia. rewrite (take_app_le d) by lia. rewrite take_take, Nat.min_id.
  rewrite drop_ge; [by rewrite app_nil_r|]. rewrite length_take. lia.
Qed.

Lemma be_decode_zeros n : be_decode (replicate n Byte.x00) = 0.
Proof. induction n as [|n IH]; [done|]. cbn [replicate]. by rewrite be_decode_cons, IH. Qed.

(** A connection whose frame limit makes the reader's buffer hold 64 KiB or more
    sees every datagram as it was sent.  With a smaller limit [Read] leaves the
    buffer as it was, whatever arrives: the first packet that fits ends the
    connection as an empty frame. *)
Theorem rawudp_reader maxFrame now current (r : Stream.reader) d ds :
  0 ≤ maxFrame → Forall (λ d, len d ≤ maxDatagramSize) (d :: ds) →
  let buf := replicate (Z.to_nat (maxFrame + 8 + Channel.DataFrameSequenceSize)) Byte.x00 in
  (maxDatagramSize ≤ len buf → rawReads buf (d :: ds) = d :: ds)
  ∧ (len buf < maxDatagramSize → 8 ≤ len d ≤ len buf → current 0%nat = true →
     Stream.readRawTransport maxFrame now current 0 r (rawReads buf (d :: ds)) = Some (r, "empty frame"%string)).
Proof.
  intros Hm Hd buf. split; [intros Hb; by apply rawReads_large|].
  intros Hb Hl Hc. assert (len buf = maxFrame + 16) as Hn.
  { subst buf. unfold len, Channel.DataFrameSequenceSize. rewrite length_replicate. lia. }
  cbn [rawReads]. rewrite Read_small by lia. cbn [Stream.readRawTransport]. unfold Stream.readRawStep.
  assert (len (take (length d) buf) = len d) as -> by (unfold len in *; rewrite length_take; lia).
  destruct (len d <? 8) eqn:E; b2p; [lia|]. rewrite Hc. cbn [negb]. unfold buf.
  rewrite !take_replicate, be_decode_zeros. done.
Qed.

End RawUdp.

(** A limit of 1 KiB, and a datagram of 20 bytes. *)
Lemma rawudp_reader_witness :
  let d := replicate 20 Byte.x41 in
  let buf := replicate (Z.to_nat (1024 + 8 + Channel.DataFrameSequenceSize)) Byte.x00 in
  (maxDatagramSize ≤ len buf → rawReads buf [d] = [d])
  ∧ (len buf < maxDatagramSize → 8 ≤ len d ≤ len buf → true = true →
     @Stream.readRawTransport Encryption.cryptoExample 1024 5 (λ _, true) 0 Stream.demoReader (rawReads buf [d])
     = Some (Stream.demoReader, "empty frame"%string)).
Proof.
  apply (@rawudp_reader Encryption.cryptoExample 1024 5 (λ _, true) Stream.demoReader (replicate 20 Byte.x41) []);
    [lia|]. constructor; [vm_compute; discriminate|constructor].
Defined.

End RawUdp.
