(* ===== verification/Sctp.v ===== *)
(** * Sctp.v: the SCTP transport (src/transports/transport_sctp: sctp.go, default.go)

    A data channel carries messages.  The transport makes a stream of them: [Write]
    cuts its data into messages, [Read] keeps what does not fit into the caller's
    buffer for the next call.  [Dial] and [Accept] set up the association and the
    channel, with a context that may end first.  The libraries' calls are seen through
    what they return. *)

From S2P Require Import Prelude GoFloat Objects.
From Stdlib Require Import ZArith Lia String.
From stdpp Require Import base list option strings numbers.

Local Open Scope Z_scope.
Local Open Scope go_scope.

Module Sctp.
Import Objects.

(** ** Configuration *)

Definition DefaultMTU : Z := 1200.
Definition DefaultMaxReceiveBuffer : Z := 32 * 2 ^ 20.
Definition DefaultMaxMessageSize : Z := 60000.
Definition DefaultRTOMax : Z := 30000.

Record Transport := mkTransport {
  MTU : Z;
  MaxReceiveBuffer : Z;
  MaxMessageSize : Z;
  EnableInterleaving : bool;
  BlockWrite : bool;
  RTOMax : GoFloat.float64;
  MinCwnd : Z;
  FastRtxWnd : Z;
  CwndCAStep : Z
}.

Definition DefaultTransport : Transport :=
  mkTransport DefaultMTU DefaultMaxReceiveBuffer DefaultMaxMessageSize true false
    (GoFloat.f64_of_Z DefaultRTOMax) (DefaultMTU * 8) (DefaultMTU * 8) (DefaultMTU * 2).

(** The options given to the association. *)
Record associationOptions := mkOptions {
  optBlockWrite : bool;
  optInterleaving : bool;
  optMTU : Z;
  optRTOMax : GoFloat.float64;
  optMinCwnd : Z;
  optFastRtxWnd : Z;
  optCwndCAStep : Z;
  optMaxReceiveBuffer : Z;
  optMaxMessageSize : Z
}.

Definition associationOptionsOf (t : Transport) : associationOptions :=
  let mtu := if MTU t =? 0 then DefaultMTU else MTU t in
  let maxReceiveBuffer := if MaxReceiveBuffer t =? 0 then DefaultMaxReceiveBuffer else MaxReceiveBuffer t in
  let maxMessageSize := if MaxMessageSize t =? 0 then DefaultMaxMessageSize else MaxMessageSize t in
  let rtoMax := if GoFloat.feq (RTOMax t) (GoFloat.f64_of_Z 0) then GoFloat.f64_of_Z DefaultRTOMax else RTOMax t in
  let minCwnd := if MinCwnd t =? 0 then u32 (mtu * 8) else MinCwnd t in
  let fastRtxWnd := if FastRtxWnd t =? 0 then u32 (mtu * 8) else FastRtxWnd t in
  let cwndCAStep := if CwndCAStep t =? 0 then u32 (mtu * 2) else CwndCAStep t in
  mkOptions (BlockWrite t) (EnableInterleaving t) mtu rtoMax minCwnd fastRtxWnd cwndCAStep maxReceiveBuffer
    maxMessageSize.

(** ** Connections *)

Record conn := mkConn {
  maxMessageSize : Z;
  pending : list byte;
  closeOnce : bool;
  closeErr : option string
}.

#[export] Instance eta_conn : Eta conn := fun c =>
  mkConn (maxMessageSize c) (pending c) (closeOnce c) (closeErr c).

Definition newConn (maxSize : Z) : conn :=
  mkConn (if maxSize =? 0 then DefaultMaxMessageSize else maxSize) [] false None.

(** [Read] into a buffer of [size] bytes: the bytes copied to it, and the error.
    [message] is what reading the channel returns, which is not called if bytes are
    pending. *)
Definition Read (c : conn) (size : nat) (message : result (list byte)) : conn * list byte * option string :=
  if 0 <? len (pending c) then
    (c <| pending ::= drop size |>, take size (pending c), None)
  else match message with
  | Err e => (c, [], Some e)
  | Ok m =>
      if len m =? 0 then (c, [], None)
      else
        let count := Nat.min size (length m) in
        let c := if (count <? length m)%nat then c <| pending ::= (λ p, p ++ drop count m) |> else c in
        (c, take count m, None)
  end.

(** [Write]: call [k] of the channel's [Write] takes a prefix of its argument as a
    message and may fail.  The messages and the values returned; [None]: out of fuel. *)
Fixpoint writeLoop (fuel : nat) (max : nat) (p : list byte) (offset : nat)
    (write : nat → list byte → nat * option string) (k : nat)
  : option (list (list byte) * (nat * option string)) :=
  match fuel with
  | O => None
  | S fuel =>
      if (length p <=? offset)%nat then Some ([], (length p, None))
      else
        let end_ := Nat.min (offset + max) (length p) in
        let chunk := take (end_ - offset) (drop offset p) in
        let '(n, err) := write k chunk in
        match err with
        | Some e => Some (if (n =? 0)%nat then [] else [take n chunk], ((offset + n)%nat, Some e))
        | None =>
            if (n =? 0)%nat then Some ([], (offset, Some "short write"%string))
            else
              '(ms, r) ← writeLoop fuel max p (offset + n) write (S k);
              Some (take n chunk :: ms, r)
        end
  end.

Definition Write (c : conn) (p : list byte) (write : nat → list byte → nat * option string)
  : option (list (list byte) * (nat * option string)) :=
  if len p =? 0 then Some ([], (0%nat, None))
  else writeLoop (S (length p)) (Z.to_nat (maxMessageSize c)) p 0 write 0.

(** ** Setting up and closing *)

Inductive object := OConn | OAssociation | OChannel.

#[export] Instance object_eq_dec : EqDecision object.
Proof. solve_decision. Defined.

Inductive action :=
| Associate (o : associationOptions) (client : bool)
| Shutdown.

Abbreviation effects := (list (effect object action)) (only parsing).

(** What a select receives: the library's answer, or the end of the context.  In the
    second case the goroutine may still get an object ([late]). *)
Inductive outcome :=
| Answer (r : result unit)
| Done (e : string) (late : bool).

Definition createAssociation (t : Transport) (client : bool) (o : outcome) : effects * result unit :=
  let es := [EDo (Associate (associationOptionsOf t) client)] in
  match o with
  | Answer (Ok _) => (es ++ [EOpen OAssociation], Ok tt)
  | Answer (Err e) => (es, Err e)
  | Done e late => (es ++ (if late then [EOpen OAssociation] else []) ++ [EClose OConn], Err e)
  end.

Definition acceptChannel (o : outcome) : effects * result unit :=
  match o with
  | Answer (Ok _) => ([EOpen OChannel], Ok tt)
  | Answer (Err e) => ([], Err e)
  | Done e late => ((if late then [EOpen OChannel] else []) ++ [EClose OAssociation], Err e)
  end.

(** [conn] tells that [endpoint.Conn] is not nil. *)
Definition Dial (t : Transport) (conn_ : bool) (association : outcome) (channel : result unit)
  : effects * result conn :=
  if negb conn_ then ([], Err "unsupported transport")
  else
    let '(es, r) := createAssociation t true association in
    match r with
    | Err e => (es, Err e)
    | Ok _ =>
        match channel with
        | Err e => (es ++ [EClose OAssociation], Err e)
        | Ok _ => (es ++ [EOpen OChannel], Ok (newConn (MaxMessageSize t)))
        end
    end.

Definition Accept (t : Transport) (conn_ : bool) (association channel : outcome) : effects * result conn :=
  if negb conn_ then ([], Err "unsupported transport")
  else
    let '(es, r) := createAssociation t false association in
    match r with
    | Err e => (es, Err e)
    | Ok _ =>
        let '(es', r) := acceptChannel channel in
        match r with
        | Err e => (es ++ es' ++ [EClose OAssociation], Err e)
        | Ok _ => (es ++ es', Ok (newConn (MaxMessageSize t)))
        end
    end.

(** [Close], with the errors of closing the channel ([true]: it is [io.EOF]) and the
    association. *)
Definition Close (c : conn) (errc : option (string * bool)) (erra : option string)
  : conn * effects * option string :=
  if closeOnce c then (c, [], closeErr c)
  else
    let e := match errc with Some (e, eof) => if eof then closeErr c else Some e | None => closeErr c end in
    let e := match e with None => erra | Some _ => e end in
    (c <| closeOnce := true |> <| closeErr := e |>,
     [EClose OChannel; EDo Shutdown; EClose OAssociation], e).

(** ** The stream *)

Definition writer_ok (write : nat → list byte → nat * option string) : Prop :=
  ∀ k x, ((write k x).1 ≤ length x)%nat.

(** Calls of [Read] with buffers of these sizes, on a channel that holds [ms]: the
    bytes they return, one after the other, until the channel is empty. *)
Fixpoint reads (c : conn) (ms : list (list byte)) (sizes : list nat) : conn * list (list byte) * list byte :=
  match sizes with
  | [] => (c, ms, [])
  | size :: sizes =>
      if 0 <? len (pending c) then
        let '(c, out, _) := Read c size (Err "unused") in
        let '(c, ms, more) := reads c ms sizes in (c, ms, out ++ more)
      else match ms with
      | [] => (c, [], [])
      | m :: ms =>
          let '(c, out, _) := Read c size (Ok m) in
          let '(c, ms, more) := reads c ms sizes in (c, ms, out ++ more)
      end
  end.

(** What a reader has still to return. *)
Definition left_ (c : conn) (ms : list (list byte)) : list byte := pending c ++ concat ms.

Lemma read_pending c size e :
  0 < len (pending c) →
  let '(c', out, _) := Read c size (Err e) in
  out ++ pending c' = pending c ∧ ((0 < size)%nat → out ≠ []).
Proof.
  intros H. unfold Read. case_if as E; [|lia]. cbn. split; [apply take_drop|].
  intros Hs. destruct (pending c); [done|]. by destruct size; [lia|].
Qed.

Lemma read_message c size m :
  len (pending c) ≤ 0 → m ≠ [] →
  let '(c', out, _) := Read c size (Ok m) in
  out ++ pending c' = m ∧ ((0 < size)%nat → out ≠ []).
Proof.
  intros H Hm. assert (pending c = []) as Hp by (apply len_0; pose proof (len_nonneg (pending c)); lia).
  unfold Read. rewrite Hp. cbn [len length]. change (0 <? len []) with false. cbv iota.
  destruct (len m =? 0) eqn:E; b2p; [by apply len_0 in E|]. split.
  - destruct (Nat.min size (length m) <? length m)%nat eqn:E1; b2p; cbn; rewrite Hp; [cbn; apply take_drop|].
    rewrite app_nil_r. apply take_ge. lia.
  - intros Hs. destruct m; [done|]. by destruct size; [lia|].
Qed.

Lemma reads_spec c ms sizes c' ms' out :
  Forall (λ m, m ≠ []) ms → reads c ms sizes = (c', ms', out) →
  out ++ left_ c' ms' = left_ c ms
  ∧ (Forall (λ n, (0 < n)%nat) sizes → (length (left_ c ms) ≤ length sizes)%nat → out = left_ c ms).
Proof.
  revert c ms out. unfold left_. induction sizes as [|size sizes IH]; intros c ms out Hms H; cbn [reads] in H.
  { simplify_eq. split; [done|]. intros _ Hl. cbn in Hl. symmetry. apply nil_length_inv. lia. }
  destruct (0 <? len (pending c)) eqn:E; b2p.
  - pose proof (read_pending c size "unused" E) as Hr.
    destruct (Read c size (Err "unused")) as [[c1 o] e]. destruct (reads c1 ms sizes) as [[c2 ms2] more] eqn:E1.
    destruct Hr as [Ho Hne]. injection H as -> -> <-. destruct (IH _ _ _ Hms E1) as [H1 H2].
    rewrite <- Ho, <- !app_assoc, H1. split; [done|]. intros Hf Hl. inversion Hf; subst. f_equal. apply H2; [done|].
    rewrite length_app in Hl. destruct o; [by destruct (Hne ltac:(done))|]. cbn in Hl. lia.
  - destruct ms as [|m ms].
    { simplify_eq. split; [done|]. intros _ _. pose proof (len_nonneg (pending c')).
      assert (pending c' = []) as -> by (apply len_0; lia). done. }
    inversion Hms as [|? ? Hm Hms']; subst. pose proof (read_message c size m E Hm) as Hr.
    destruct (Read c size (Ok m)) as [[c1 o] e]. destruct (reads c1 ms sizes) as [[c2 ms2] more] eqn:E1.
    destruct Hr as [Ho Hne]. injection H as -> -> <-. destruct (IH _ _ _ Hms' E1) as [H1 H2].
    assert (pending c = []) as -> by (apply len_0; pose proof (len_nonneg (pending c)); lia).
    cbn [concat]. rewrite <- Ho, <- !app_assoc, H1. split; [done|]. intros Hf Hl. inversion Hf; subst.
    cbn [app]. f_equal. apply H2; [done|]. cbn [app] in Hl. rewrite length_app in Hl.
    destruct o; [by destruct (Hne ltac:(done))|]. cbn in Hl. lia.
Qed.

Lemma streamLoop_spec fuel max p offset write k :
  writer_ok write → (1 ≤ max)%nat → (offset ≤ length p)%nat → (length p - offset < fuel)%nat →
  ∃ ms n err, writeLoop fuel max p offset write k = Some (ms, (offset + n, err)%nat)
    ∧ concat ms = take n (drop offset p) ∧ (offset + n ≤ length p)%nat
    ∧ Forall (λ m, m ≠ [] ∧ (length m ≤ max)%nat) ms ∧ (err = None → (offset + n)%nat = length p).
Proof.
  intros Hw Hm. revert offset k. induction fuel as [|fuel IH]; intros offset k Ho Hf; [lia|].
  cbn [writeLoop]. case_if as E.
  { exists [], 0%nat, None. rewrite Nat.add_0_r. split; [do 3 f_equal; lia|]. split; [done|]. split; [lia|].
    split; [constructor|lia]. }
  set (chunk := take _ (drop offset p)).
  assert (chunk = take (Nat.min max (length p - offset)) (drop offset p)) as Hc by (subst chunk; f_equal; lia).
  assert (length chunk = Nat.min max (length p - offset)) as Hl by (rewrite Hc, length_take, length_drop; lia).
  clearbody chunk. pose proof (Hw k chunk) as Hn. destruct (write k chunk) as [n err]. cbn in Hn.
  assert (take n chunk = take n (drop offset p)) as Ht by (rewrite Hc, take_take; f_equal; lia).
  assert (length (take n chunk) = n) as Hln by (rewrite length_take; lia).
  assert (Forall (λ m, m ≠ [] ∧ (length m ≤ max)%nat) (if (n =? 0)%nat then [] else [take n chunk])) as Hone.
  { destruct (n =? 0)%nat eqn:E0; b2p; repeat constructor; [|lia]. intros H. rewrite H in Hln. cbn in Hln. lia. }
  destruct err as [e|].
  { exists (if (n =? 0)%nat then [] else [take n chunk]), n, (Some e). split; [done|].
    split; [destruct (n =? 0)%nat eqn:E0; b2p; [by subst n|]; cbn [concat]; by rewrite app_nil_r|].
    split; [lia|]. by split. }
  destruct (n =? 0)%nat eqn:E0; b2p.
  { exists [], 0%nat, (Some "short write"%string). rewrite Nat.add_0_r. split; [done|]. split; [done|]. by split; [lia|]. }
  destruct (IH (offset + n)%nat (S k)) as (ms & m & e & -> & H1 & H2 & H3 & H4); [lia|lia|].
  exists (take n chunk :: ms), (n + m)%nat, e. cbn [mbind option_bind].
  split; [do 3 f_equal; lia|]. split.
  { cbn [concat]. rewrite H1, Ht, <- drop_drop. apply take_take_drop. }
  split; [lia|]. split; [|intros He; specialize (H4 He); lia].
  constructor; [by inversion Hone|done].
Qed.

(** C34: the transport is a byte stream.  [Write] returns; the messages it sent hold
    exactly the first [n] bytes of the data, where [n] is what it reports, and all of it
    if there is no error; none is longer than the limit.  Calls of [Read], with buffers
    of any sizes, return these bytes in order, and all of them if there are enough
    calls. *)
Theorem sctp_roundtrip t p write :
  0 ≤ MaxMessageSize t < 2 ^ 32 → writer_ok write →
  let c := newConn (MaxMessageSize t) in
  ∃ ms n err, Write c p write = Some (ms, (n, err))
    ∧ concat ms = take n p ∧ (err = None → n = length p) ∧ Forall (λ m, len m ≤ maxMessageSize c) ms
    ∧ ∀ sizes c' ms' out, reads c ms sizes = (c', ms', out) →
        out ++ left_ c' ms' = take n p
        ∧ (Forall (λ k, (0 < k)%nat) sizes → (n ≤ length sizes)%nat → out = take n p).
Proof.
  intros Hs Hw c. assert (1 ≤ maxMessageSize c) as Hm.
  { subst c. unfold newConn, DefaultMaxMessageSize. cbn. case_ifs; lia. }
  assert (∃ ms n err, Write c p write = Some (ms, (n, err)) ∧ concat ms = take n p ∧ (n ≤ length p)%nat
    ∧ Forall (λ m, m ≠ [] ∧ (length m ≤ Z.to_nat (maxMessageSize c))%nat) ms ∧ (err = None → n = length p))
    as (ms & n & err & H1 & H2 & H3 & H4 & H5).
  { unfold Write. case_if as E.
    - apply len_0 in E as ->. by exists [], 0%nat, None.
    - destruct (streamLoop_spec (S (length p)) (Z.to_nat (maxMessageSize c)) p 0 write 0) as (ms & n & err & ? & ?);
        [done|lia..|]. by exists ms, n, err. }
  exists ms, n, err. split; [done|]. split; [done|]. split; [done|]. 
  assert (Forall (λ m, m ≠ []) ms) as Hne by (eapply Forall_impl; [|exact H4]; by intros ? [? _]).
  split; [eapply Forall_impl; [|exact H4]; intros m [_ ?]; unfold len; lia|].
  intros sizes c' ms' out Hr. destruct (reads_spec _ _ _ _ _ _ Hne Hr) as [Ha Hb].
  unfold left_ in *. cbn [pending newConn c app] in *. rewrite H2 in *. split; [done|].
  intros Hf Hk. apply Hb; [done|]. rewrite length_take. lia.
Qed.

(** Messages of at most two bytes; the second call takes one. *)
Lemma sctp_roundtrip_witness :
  let t := mkTransport 0 0 2 true false (GoFloat.f64_of_Z 0) 0 0 0 in
  let p := bytes_of "abc" in
  let write := λ k (x : list byte), (if (k =? 1)%nat then Nat.min 1 (length x) else length x, None : option string) in
  let c := newConn (MaxMessageSize t) in
  ∃ ms n err, Write c p write = Some (ms, (n, err))
    ∧ concat ms = take n p ∧ (err = None → n = length p) ∧ Forall (λ m, len m ≤ maxMessageSize c) ms
    ∧ ∀ sizes c' ms' out, reads c ms sizes = (c', ms', out) →
        out ++ left_ c' ms' = take n p
        ∧ (Forall (λ k, (0 < k)%nat) sizes → (n ≤ length sizes)%nat → out = take n p).
Proof.
  apply (sctp_roundtrip (mkTransport 0 0 2 true false (GoFloat.f64_of_Z 0) 0 0 0) (bytes_of "abc")); [cbn; lia|].
  intros k x. destruct (k =? 1)%nat eqn:E; cbn -[Nat.min]; lia.
Defined.

(** ** Associations and channels *)

(** A failed [Dial] or [Accept] leaves no association or channel open but one that
    arrives while its context ends; after a successful one, [Close] closes both, and
    only its first call does anything. *)
Lemma sctp_lifecycle t conn_ association channel (es : effects) r :
  Accept t conn_ association channel = (es, r)
  ∨ (∃ rc, channel = Answer rc ∧ Dial t conn_ association rc = (es, r)) →
  match r with
  | Err _ => balance OAssociation es ≤ (if association is Done _ true then 1 else 0)
      ∧ balance OChannel es ≤ (if channel is Done _ true then 1 else 0)
  | Ok c => ∀ errc erra, ∃ c' es' e, Close c errc erra = (c', es', e)
      ∧ balance OAssociation (es ++ es') = 0 ∧ balance OChannel (es ++ es') = 0
      ∧ ∀ x y, Close c' x y = (c', [], e)
  end.
Proof.
  intros H. unfold Accept, Dial, createAssociation, acceptChannel, newConn in H. destruct r as [c|e].
  - intros errc erra. destruct conn_, association as [[[]|]|? []], channel as [[[]|]|? []], errc as [[? []]|];
      destruct H as [H|(? & ? & H)]; simplify_eq/=; do 3 eexists; (split; [reflexivity|]); done.
  - destruct conn_, association as [[[]|]|? []], channel as [[[]|]|? []];
      destruct H as [H|(? & ? & H)]; simplify_eq/=; lia.
Qed.

End Sctp.
