(* ===== verification/Http3.v ===== *)
(** * Http3.v: the HTTP/3 transport
    (src/transports/transport_http3: auth.go, http3.go, conn.go)

    The transport hides in an HTTP/3 server: a POST with the right path and token
    becomes a two-way stream, every other request is served by a fallback.  Modelled are
    the token, the server's handler, the client's check of the answer, what [Dial] opens
    and closes, and the connection with its deadlines.  HMAC-SHA-256 is a parameter;
    quic-go and net/http are seen through what their calls return. *)

From S2P Require Import Prelude Objects.
From Stdlib Require Import ZArith Lia String Ascii.
From stdpp Require Import base list option strings numbers gmap.

Local Open Scope Z_scope.
Local Open Scope go_scope.

(** [hmac.New(sha256.New, key)], written to and summed. *)
Class Hmac := {
  hmac_sha256 (key message : list byte) : list byte
}.

Class HmacLaws (H : Hmac) : Prop := {
  hmac_length key message : length (hmac_sha256 key message) = 32%nat
}.

Module Http3.
Import Objects.

(** ** Tokens *)

(** [base64.RawURLEncoding]: groups of three bytes become four characters. *)
Definition alphabet : string := "ABCDEFGHIJKLMNOPQRSTUVWXYZabcdefghijklmnopqrstuvwxyz0123456789-_".

Definition letter (v : Z) : ascii := default "A"%char (String.get (Z.to_nat v) alphabet).

Fixpoint sextets (l : list byte) : list Z :=
  match l with
  | [] => []
  | [a] => let a := byte_val a in [a / 4; a mod 4 * 16]
  | [a; b] =>
      let a := byte_val a in let b := byte_val b in
      [a / 4; a mod 4 * 16 + b / 16; b mod 16 * 4]
  | a :: b :: c :: l =>
      let a := byte_val a in let b := byte_val b in let c := byte_val c in
      a / 4 :: a mod 4 * 16 + b / 16 :: b mod 16 * 4 + c / 64 :: c mod 64 :: sextets l
  end.

Definition EncodeToString (l : list byte) : string :=
  foldr (λ v s, String (letter v) s) EmptyString (sextets l).

Definition authHeader : string := "X-Telekit-Auth".
Definition transportHeader : string := "X-Telekit-Transport".
Definition transportValue : string := "h3-v1".

Definition newline : string := String (ascii_of_nat 10) EmptyString.

Section Auth.
Context `{H : !Hmac}.

Definition authToken (key : list byte) (path : string) : string :=
  EncodeToString (hmac_sha256 key
    (bytes_of ("telekit/http3/v1" +:+ newline +:+ "POST" +:+ newline) ++ bytes_of path)).

Definition validAuthToken (key : list byte) (path token : string) : bool :=
  if (len key =? 0) || bool_decide (token = EmptyString) then false
  else bool_decide (bytes_of (authToken key path) = bytes_of token).

(** ** The handler *)

(** Headers by canonical name, with their first values. *)
Record Request := mkRequest {
  Method : string;
  Path : string;
  Header : gmap string string
}.

Definition headerGet (h : gmap string string) (k : string) : string := default EmptyString (h !! k).

Inductive response :=
| Fallback (r : Request)
| Tunnel (status : Z) (header : gmap string string).

Definition handler (authKey : list byte) (path : string) (r : Request) : response :=
  if negb (bool_decide (Method r = "POST")) || negb (bool_decide (Path r = path))
     || negb (validAuthToken authKey path (headerGet (Header r) authHeader))
  then Fallback (mkRequest (Method r) (Path r) (delete authHeader (Header r)))
  else Tunnel 200 (<["Content-Type" := "application/octet-stream"]> (<[transportHeader := transportValue]> ∅)).

(** The request of [Dial]. *)
Definition dialRequest (authKey : list byte) (path : string) : Request :=
  mkRequest "POST" path
    (<["Cache-Control" := "no-store"]> (<["Content-Type" := "application/octet-stream"]>
      (<[authHeader := authToken authKey path]> ∅))).

(** The answer [Dial] takes for the transport's. *)
Definition authenticated (status : Z) (header : gmap string string) : bool :=
  (status =? 200) && bool_decide (headerGet header transportHeader = transportValue).

End Auth.

(** ** Paths *)

(** [strings.TrimSpace(s) == ...]: only white space, in UTF-8. *)
Fixpoint blank (l : list Z) : bool :=
  match l with
  | [] => true
  | a :: l' =>
      if (9 <=? a) && (a <=? 13) || (a =? 32) then blank l'
      else match l' with
      | b :: l'' =>
          if (a =? 194) && ((b =? 133) || (b =? 160)) then blank l''
          else match l'' with
          | c :: l''' =>
              if (a =? 225) && (b =? 154) && (c =? 128)
                 || (a =? 226) && (b =? 128)
                    && ((128 <=? c) && (c <=? 138) || (c =? 168) || (c =? 169) || (c =? 175))
                 || (a =? 226) && (b =? 129) && (c =? 159)
                 || (a =? 227) && (b =? 128) && (c =? 128)
              then blank l''' else false
          | [] => false
          end
      | [] => false
      end
  end.

Definition isBlank (s : string) : bool := blank (byte_val <$> bytes_of s).

Definition defaultPath : string := "/".

Definition path (configured : string) : string :=
  if isBlank configured then defaultPath
  else if negb (String.prefix "/" configured) then "/" +:+ configured
  else configured.

(** ** Connections *)

(** Fields that may be nil are booleans; a zero deadline is [None]. *)
Record conn := mkConn {
  reader : bool;
  session : bool;
  packet : bool;
  closeFn : bool;
  closeWriter : bool;
  closeOnce : bool;
  readDeadline : option Z;
  writeDeadline : option Z
}.

#[export] Instance eta_conn : Eta conn := fun c =>
  mkConn (reader c) (session c) (packet c) (closeFn c) (closeWriter c) (closeOnce c) (readDeadline c)
    (writeDeadline c).

Definition SetReadDeadline (c : conn) (d : option Z) : conn := c <| readDeadline := d |>.
Definition SetWriteDeadline (c : conn) (d : option Z) : conn := c <| writeDeadline := d |>.
Definition SetDeadline (c : conn) (d : option Z) : conn := SetWriteDeadline (SetReadDeadline c d) d.

Definition expired (c : conn) (read : bool) (now : Z) : bool :=
  match (if read then readDeadline c else writeDeadline c) with
  | Some deadline => deadline <? now
  | None => false
  end.

(** [Read] and [Write]: an error, or the call of the reader or writer. *)
Definition Read {A} (c : conn) (now : Z) (read : A) : result A :=
  if expired c true now then Err "use of closed network connection" else Ok read.

Definition Write {A} (c : conn) (now : Z) (write : A) : result A :=
  if expired c false now then Err "use of closed network connection" else Ok write.

Inductive object := ODead | OReader | OWriter | OSession | OPacket | ORequest | ORoundTripper | OListener.

#[export] Instance object_eq_dec : EqDecision object.
Proof. solve_decision. Defined.

Abbreviation effects := (list (effect object Empty_set)) (only parsing).

(** [Close], with what [closeFn] does. *)
Definition Close (c : conn) (closeFn_ : effects) : conn * effects :=
  if closeOnce c then (c, [])
  else
    (c <| closeOnce := true |>,
     [EClose ODead] ++ (if reader c then [EClose OReader] else [])
       ++ (if closeWriter c then [EClose OWriter] else [])
       ++ (if session c then [EClose OSession] else [])
       ++ (if packet c then [EClose OPacket] else [])
       ++ (if closeFn c then closeFn_ else [])).

(** What the select of [Dial] receives: the round trip's error or answer, or the end of
    the context, which a late answer may follow. *)
Inductive dialEvent :=
| RoundTripFailed (e : string)
| Response (status : Z) (header : gmap string string)
| Cancelled (e : string) (late : bool).

(** The effects of [Dial] and the connection, with what its [closeFn] does.  [dialed] is
    what [quic.Dial] returns, [made] what [http.NewRequestWithContext] does. *)
Definition Dial (packetConn remoteAddr : bool) (dialed made : result unit) (ev : dialEvent)
  : effects * result (conn * effects) :=
  if negb packetConn || negb remoteAddr then ([], Err "unsupported transport")
  else match dialed with
  | Err e => ([], Err e)
  | Ok _ =>
      let es := [EOpen OSession; EOpen OWriter; EOpen ORequest] in
      match made with
      | Err e => (es ++ [EClose ORequest; EClose OSession], Err e)
      | Ok _ =>
          let es := es ++ [EOpen ORoundTripper] in
          match ev with
          | RoundTripFailed e => (es ++ [EClose ORequest; EClose OWriter; EClose OSession], Err e)
          | Response status header =>
              let es := es ++ [EOpen OReader] in
              if negb (authenticated status header)
              then (es ++ [EClose ORequest; EClose OReader; EClose OWriter; EClose ORoundTripper],
                    Err "HTTP/3 transport authentication failed")
              else (es ++ [EOpen ODead],
                    Ok (mkConn true true true true true false None None, [EClose ORequest; EClose ORoundTripper]))
          | Cancelled e late =>
              (es ++ [EClose ORequest; EClose OWriter; EClose OSession] ++ (if late then [EOpen OReader] else []),
               Err e)
          end
      end
  end.

(** ** Tokens are faithful *)

Lemma letter_inj v w : 0 ≤ v < 64 → 0 ≤ w < 64 → letter v = letter w → v = w.
Proof.
  intros Hv Hw H.
  assert (forallb (λ i, forallb (λ j, implb (Ascii.eqb (letter (Z.of_nat i)) (letter (Z.of_nat j))) (i =? j)%nat)
    (seq 0 64)) (seq 0 64) = true) as HA by (vm_compute; reflexivity).
  rewrite forallb_forall in HA. specialize (HA (Z.to_nat v) ltac:(apply in_seq; lia)).
  rewrite forallb_forall in HA. specialize (HA (Z.to_nat w) ltac:(apply in_seq; lia)).
  rewrite !Z2Nat.id, H, Ascii.eqb_refl in HA by lia. cbn in HA. b2p. lia.
Qed.

Definition sextet (v : Z) : Prop := 0 ≤ v < 64.

Lemma string_of_inj l1 l2 :
  Forall sextet l1 → Forall sextet l2 →
  foldr (λ v s, String (letter v) s) EmptyString l1 = foldr (λ v s, String (letter v) s) EmptyString l2 → l1 = l2.
Proof.
  intros H1. revert l2. induction H1 as [|v l1 Hv H1 IH]; intros l2 H2 H; destruct H2 as [|w l2 Hw H2]; cbn in H;
    try done. injection H as Hl Hs. f_equal; [by apply letter_inj|by apply IH].
Qed.

(** Induction by groups of three. *)
Lemma list_ind3 {A} (P : list A → Prop) :
  P [] → (∀ a, P [a]) → (∀ a b, P [a; b]) → (∀ a b c l, P l → P (a :: b :: c :: l)) → ∀ l, P l.
Proof.
  intros H0 H1 H2 H3. fix IH 1. intros [|a [|b [|c l]]]; [exact H0|apply H1|apply H2|apply H3, IH].
Qed.

Ltac bytes :=
  repeat match goal with
  | b : byte |- _ => lazymatch goal with H : 0 ≤ byte_val b < 256 |- _ => fail | _ => pose proof (byte_val_range b) end
  end.

Lemma sextets_range l : Forall sextet (sextets l).
Proof.
  induction l as [|a|a b|a b c l IH] using list_ind3; cbn; unfold sextet in *; bytes;
    repeat constructor; try done; Z.to_euclidean_division_equations; lia.
Qed.

Lemma sextets_inj l1 l2 : length l1 = length l2 → sextets l1 = sextets l2 → l1 = l2.
Proof.
  revert l2. induction l1 as [|a|a b|a b c l IH] using list_ind3; intros l2 Hl H;
    destruct l2 as [|a' [|b' [|c' l']]]; try done; cbn in H; injection H; intros; bytes;
    repeat f_equal; try (apply byte_val_inj; Z.to_euclidean_division_equations; lia).
  apply IH; [by simplify_eq/=|done].
Qed.

Lemma EncodeToString_inj l1 l2 : length l1 = length l2 → EncodeToString l1 = EncodeToString l2 → l1 = l2.
Proof. intros Hl H. apply sextets_inj; [done|]. apply string_of_inj; [apply sextets_range..|done]. Qed.

Lemma EncodeToString_nonempty l : l ≠ [] → EncodeToString l ≠ EmptyString.
Proof. intros H. by destruct l as [|a [|b [|c l]]]. Qed.

Section Laws.
Context `{L : !HmacLaws H}.

(** What the token authenticates. *)
Definition tokenMac (key : list byte) (p : string) : list byte :=
  hmac_sha256 key (bytes_of ("telekit/http3/v1" +:+ newline +:+ "POST" +:+ newline) ++ bytes_of p).

Lemma token_nonempty key p : authToken key p ≠ EmptyString.
Proof. apply EncodeToString_nonempty. intros E%(f_equal length). by rewrite hmac_length in E. Qed.

Lemma token_inj k1 k2 p1 p2 : authToken k1 p1 = authToken k2 p2 ↔ tokenMac k1 p1 = tokenMac k2 p2.
Proof.
  split; [|unfold authToken, tokenMac; congruence].
  apply (EncodeToString_inj (tokenMac k1 p1) (tokenMac k2 p2)). unfold tokenMac. by rewrite !hmac_length.
Qed.

Lemma validAuthToken_spec key p token :
  validAuthToken key p token = true ↔ key ≠ [] ∧ token = authToken key p.
Proof.
  unfold validAuthToken. pose proof (token_nonempty key p) as Hn. case_if as E.
  - split; [done|]. intros [Hk ->]. apply orb_true_iff in E as [E|E]; b2p; [by apply len_0 in E|done].
  - assert (key ≠ []) by (intros ->; done). rewrite bool_decide_eq_true. split.
    + intros Hb%bytes_of_inj. done.
    + by intros [_ ->].
Qed.

Lemma handler_tunnel key p r :
  (∃ st h, handler key p r = Tunnel st h) ↔
  Method r = "POST" ∧ Path r = p ∧ key ≠ [] ∧ headerGet (Header r) authHeader = authToken key p.
Proof.
  unfold handler. rewrite <- (validAuthToken_spec key p). case_if as E.
  - split; [by intros (? & ? & ?)|]. intros (H1 & H2 & H3). rewrite H3 in E. cbn in E.
    apply orb_true_iff in E as [E|E]; [|done]. apply orb_true_iff in E as [E|E]; b2p; done.
  - split; [|by eauto]. intros _. by b2p.
Qed.


End Laws.

(** A toy HMAC. *)
Definition hmacExample : Hmac := {|
  hmac_sha256 key message :=
    let sum := foldl (λ acc b, (acc * 31 + byte_val b) mod 2 ^ 128) 7 (key ++ message) in
    be_encode 32 sum
|}.

Lemma hmacExample_laws : HmacLaws hmacExample.
Proof. split. intros key message. apply be_encode_length. Qed.


(** ** Opening and closing *)

(** A failed [Dial] closes the session, or the round tripper that owns it; after a
    successful one [Close] closes everything that was opened, once. *)
Lemma http3_lifecycle packetConn remoteAddr dialed made ev es r :
  Dial packetConn remoteAddr dialed made ev = (es, r) →
  match r with
  | Err _ => balance ORequest es = 0 ∧ (balance OSession es = 0 ∨ EClose ORoundTripper ∈ es)
  | Ok (c, fn) => let '(c', es') := Close c fn in
      (∀ o, o ≠ OPacket → balance o (es ++ es') = 0) ∧ balance OPacket (es ++ es') = -1
      ∧ ∀ fn', Close c' fn' = (c', [])
  end.
Proof.
  intros H. unfold Dial in H.
  destruct packetConn, remoteAddr, dialed as [[]|], made as [[]|], ev as [?|st h|? []]; cbn [negb orb] in H;
    try destruct (authenticated st h); cbn [negb] in H; injection H as <- <-; cbn;
    try (split; [done|]; by left).
  - split; [by intros []|done].
  - split; [done|]. right. set_solver.
Qed.

End Http3.
